(* ===== verification/_CoqProject ===== *)
-Q . S2P
Prelude.v
Types.v
LockSpec.v
RMALock.v
DDRLock.v
OldLock.v
AsyncLog.v
BatchLog.v
StringUtils.v
Config.v
Sharder.v
ProtoUtils.v
Stats.v
HashMap.v
RWLatch.v
SpinLatch.v
Execution.v
Remaster.v
PerKeyRemaster.v
TxnHolder.v
Worker.v
Scheduler.v
RemasterScheduler.v
LocalLog.v
Interleaver.v
Paxos.v
RegionLog.v
Sequencer.v
MultiHomeOrderer.v
Server.v
Report.v
TxnText.v
Client.v
Forwarder.v
Scalar.v
Network.v
StorageAdapter.v
Table.v
Tpcc.v
TpccKeys.v
Random.v
Workload.v
BasicWorkload.v
TpccWorkload.v
TxnGen.v
Ranges.v
TpccLoad.v
DataGen.v
Metrics.v
Results.v
