(* ===== verification/Prelude.v ===== *)
(** * SLOG: a verification development

    SLOG is a geo-replicated, deterministic transactional store. Every machine holds one partition
    of one region (a replica); every key has a master region. A client sends a transaction to the
    server of some machine; the forwarder looks up the masters of its keys; a single-home
    transaction goes to the sequencer of its region, a multi-home one through the multi-home
    orderer, which a global Paxos process orders. Sequencers send batches to all machines; the
    local Paxos process of a region orders the batches of its partitions; the interleaver of a
    machine merges the logs of all regions and gives their transactions to the scheduler, which
    locks their keys in that order, runs them in its workers, and reports to the server, which
    merges the parts of a transaction and answers the client. This library models these parts from the C++ sources
    under [src/] and proves what makes each of them correct.

    ** How the code is modelled

    A class is a record of its members, a method a function from the state to the state, in the
    error monad [result] of this file or the state and error monad [M]. [Exn], [Fatal], [Undef] and
    [OutOfFuel] are the ways to fail: a thrown exception, a failed [CHECK], an operation without a
    meaning in C++ (an index out of range, an end iterator, a division by zero), and the end of
    a model's fuel. Integers are [Z], with [u8] ... [i64] wherever the code can wrap around. Hash maps are [gmap];
    where the order in which the code visits one matters, it is an argument or the class [MapVisit].
    Messages that a module sends are lists in its state; clocks, results of polls and random numbers
    are inputs. Threads that share state are transition systems or interleavings of their writes. Code
    that is not in the repository (rapidjson, the protocol buffers encoding, ZeroMQ, the
    standard random distributions' streams) is an argument or a class with its laws, which an instance shows to be
    satisfiable.

    ** The files

    Shared: this file (integers, errors, monads, lists); [Types] ([common/types.h],
    [proto/transaction.proto]); [StringUtils], [Config], [Sharder], [ProtoUtils], [TxnText],
    [Stats], [Metrics], [SpinLatch] (the files of [common/] with these names; [TxnText] has the
    printing and comparison of [proto_utils.cpp], [Metrics] also [csv_writer.cpp], [Stats] the percentiles of
    [json_utils.h]); [AsyncLog], [BatchLog], [HashMap], [RWLatch] ([data_structure/]).

    Locks: [LockSpec] states what a lock manager promises, as queues of requests, and the class
    [LockManager] that the scheduler uses; [RMALock], [DDRLock] and [OldLock] are the three managers of
    [module/scheduler_components/] and implement it.

    Modules: [Server], [Forwarder], [MultiHomeOrderer], [Sequencer], [LocalLog] and [Interleaver]
    ([interleaver.cpp]), [Paxos] ([paxos/] and [module/consensus.cpp]), [RegionLog] (local Paxos
    and local logs together), [TxnHolder], [Worker], [Scheduler] (the default build) and
    [RemasterScheduler] (the builds with a remaster manager, over the class [RemasterManager]),
    [Remaster] and [PerKeyRemaster] (the two managers). [Network] is [connection/] and
    [module/base/]: sender, broker, framing, poller, module loop and runner.

    Execution: [Execution] (storage and key-value programs); [Scalar], [StorageAdapter] (a class with the three
    adapters), [Table], [Tpcc], [TpccKeys] ([execution/tpcc/]).

    Start and clients: [Ranges], [TpccLoad] ([load_tables.cpp]), [DataGen] ([service/slog.cpp] up to the
    filled storage, and [offline_data_reader.cpp]); [Report] (the JSON statistics of scheduler and lock managers)
    and [Client] ([service/client.cpp]); [Random], [Workload], [BasicWorkload] (basic, remastering,
    CockroachDB), [TpccWorkload] ([workload/]); [TxnGen] ([module/txn_generator.cpp] and the
    division of work of [service/benchmark.cpp]) and [Results] (the benchmark's result files).

    ** What is proved

    - Locks: the three managers refine one specification, so they dispatch the same transactions; conflicting
      transactions exclude each other and run in the order of their requests; some transaction can always run when requests
      follow one order. The scheduler keeps this over any such manager; the one with a remaster manager
      keeps conflicting transactions apart in runs without aborts, and its steps end.
    - Order: Paxos agrees, ends and delivers on ordered links; all machines of a region deliver its batches in one order; the
      interleaver, the batch logs and the multi-home orderer deliver each log in its order,
      whatever the order of arrival; the sequencer loses and duplicates nothing.
    - Clients: a transaction is answered once with the merge of its parts; the forwarder
      routes it once by its masters; lock-only parts ask for each lock exactly once; the
      statistics command shows the state of scheduler and locks.
    - Execution: workers report once, run on all remote reads, and change nothing under an
      outdated master; key-value programs without [DEL] commit their last assignments or abort; TPC-C
      tables give back what was inserted, under distinct storage keys; the keys a TPC-C client
      declares cover all accesses; sharders put each key in the one partition it belongs to.
    - Data structures: the hash map refines a finite map; the latches exclude and lose no wakeup.
    - Network: messages reach the module they are for; redirections keep order; timed callbacks fire when due.
    - Start and measuring: loading is complete for every interleaving and stays in its partition;
      workloads generate well-placed transactions from every fair random stream; generators are closed
      loops; samples and result files agree with what was recorded.
    - Some theorems state what the code does wrong, among them [per_key_lost_wakeup],
      [abort_triggered_twice], [global_order_truncates], [dry_run_never_stops] and [stats_large_id].

    ** Fuel and termination

    Loops that are not structural take fuel, and a lemma says how much is enough: the number of
    slots or batches a log holds ([update_ready], [take_batches], [take_ready], [drain]), of
    callbacks ([process_callbacks]), of queue entries ([pk_TryToUnblock]), of open holders
    ([rs_TriggerPreDispatchAbort]), of characters ([split_loop], [parse_params]), of records of a file
    ([load_loop]). Functions that draw random numbers until one fits end on every fair stream
    ([gives] in [Random]). Server loops ([run_loop]) are cut off after any number of rounds.

    ** Not modelled

    Sockets, threads and their pinning, and the system clock, except as inputs and interleavings; the [main] functions beyond
    what is named above; [scheduler_benchmark.cpp], which only measures time; reading
    configuration files; floating-point arithmetic of [ZipfDistribution] and of averages; log
    messages; the Python tools, which deploy clusters. The tests are not part of the program. *)
From stdpp Require Export base numbers list gmap strings sorting fin_maps.

(** ** Machine integers *)

Definition wrapu (w : Z) (z : Z) : Z := z `mod` 2 ^ w.

Definition wraps (w : Z) (z : Z) : Z := (z + 2 ^ (w - 1)) `mod` 2 ^ w - 2 ^ (w - 1).

Abbreviation u8 := (wrapu 8).
Abbreviation u32 := (wrapu 32).
Abbreviation u64 := (wrapu 64).
Abbreviation i8 := (wraps 8).
Abbreviation i16 := (wraps 16).
Abbreviation i32 := (wraps 32).
Abbreviation i64 := (wraps 64).

Lemma wraps_id w z : (0 < w → - 2 ^ (w - 1) ≤ z < 2 ^ (w - 1) → wraps w z = z)%Z.
Proof.
  intros Hw Hz. unfold wraps. assert (E : (2 ^ w = 2 * 2 ^ (w - 1))%Z) by (rewrite <-Z.pow_succ_r by lia; f_equal; lia).
  rewrite Z.mod_small by lia. lia.
Qed.

(** ** Ways a C++ computation can fail

    [Exn w]: a [std::runtime_error] or [std::invalid_argument] is thrown;
    [Fatal w]: a glog [CHECK] or [LOG(FATAL)] stops the process;
    [Undef w]: the language gives the operation no meaning (an end iterator is
    dereferenced, an index is out of range);
    [OutOfFuel]: a loop that waits for a random event is not over after the rounds that
    were allowed to it. *)
Inductive fault :=
  | Exn (what : string)
  | Fatal (what : string)
  | Undef (what : string)
  | OutOfFuel.

Inductive result (A : Type) :=
  | Ok (a : A)
  | Err (f : fault).
Arguments Ok {A} a.
Arguments Err {A} f.

(** The error monad, in stdpp's notation: [x ← r; k]. *)
#[global] Instance result_ret : MRet result := λ A a, Ok a.
#[global] Instance result_bind : MBind result := λ A B k r,
  match r with Ok a => k a | Err f => Err f end.
#[global] Instance result_fmap : FMap result := λ A B g r,
  match r with Ok a => Ok (g a) | Err f => Err f end.

Fixpoint rfoldl {A B} (f : B → A → result B) (b : B) (l : list A) : result B :=
  match l with
  | [] => Ok b
  | a :: l => b' ← f b a; rfoldl f b' l
  end.

Fixpoint rmap {A B} (f : A → result B) (l : list A) : result (list B) :=
  match l with
  | [] => Ok []
  | a :: l => b ← f a; bs ← rmap f l; Ok (b :: bs)
  end.

(** Computations over a state, in the same notation. *)
Definition M (A X : Type) : Type := A → result (X * A).

#[global] Instance M_ret A : MRet (M A) := λ X x a, Ok (x, a).
#[global] Instance M_bind A : MBind (M A) := λ X Y k m a,
  match m a with Ok (x, a') => k x a' | Err f => Err f end.

Definition lift {A X} (r : result X) : M A X := λ a, match r with Ok x => Ok (x, a) | Err f => Err f end.

Fixpoint mfoldl {A X Y} (f : Y → X → M A Y) (y : Y) (l : list X) : M A Y :=
  match l with
  | [] => mret y
  | x :: l => y' ← f y x; mfoldl f y' l
  end.

Lemma lift_Ok {A X} (x : X) (a : A) : lift (Ok x) a = Ok (x, a).
Proof. done. Qed.

Lemma M_bind_Ok {A X Y} (m : M A X) (k : X → M A Y) a x a' : m a = Ok (x, a') → (m ≫= k) a = k x a'.
Proof. intros E. unfold mbind, M_bind. by rewrite E. Qed.

Lemma lift_bind {A X Y} (x : X) (k : X → M A Y) a : (lift (Ok x) ≫= k) a = k x a.
Proof. done. Qed.

#[global] Instance fault_eq_dec : EqDecision fault.
Proof. solve_decision. Defined.
#[global] Instance result_eq_dec `{EqDecision A} : EqDecision (result A).
Proof. solve_decision. Defined.

(** ** [std::sort] followed by [std::unique] and [erase] *)

Fixpoint unique (l : list Z) : list Z :=
  match l with
  | [] => []
  | x :: l' =>
    match unique l' with
    | [] => [x]
    | y :: l'' => if decide (x = y) then y :: l'' else x :: y :: l''
    end
  end.

Definition sort_unique (l : list Z) : list Z := unique (merge_sort (≤)%Z l).

(** ** Longest prefixes

    [f i] is the [i]-th item of a stream, when it is known. An ordered log
    delivers the longest known prefix of its stream. *)
Definition is_prefix {B} (f : nat → option B) (outs : list B) : Prop :=
  ∀ i b, outs !! i = Some b → f i = Some b.

Definition longest_prefix {B} (f : nat → option B) (outs : list B) : Prop :=
  is_prefix f outs ∧ f (length outs) = None.

(** ** Automation *)

Create HintDb slog discriminated.

(** Break every [match] and [if decide] of the goal and hypotheses. *)
Ltac split_matches :=
  repeat (case_match || case_decide); simplify_eq/=.

(** Turn a boolean test into the proposition it decides. *)
Ltac bools :=
  repeat match goal with
  | H : bool_decide _ = true |- _ => apply bool_decide_eq_true in H
  | H : bool_decide _ = false |- _ => apply bool_decide_eq_false in H
  | H : _ && _ = true |- _ => apply andb_true_iff in H as [? ?]
  | H : _ || _ = false |- _ => apply orb_false_iff in H as [? ?]
  | H : negb _ = true |- _ => apply negb_true_iff in H
  | H : negb _ = false |- _ => apply negb_false_iff in H
  end.

(** ** Generic lemmas *)

Lemma rfoldl_ok {A B} (f : B → A → B) (b : B) (l : list A) :
  rfoldl (λ b a, Ok (f b a)) b l = Ok (foldl f b l).
Proof. revert b; induction l; simpl; auto. Qed.

Lemma rfoldl_app {A B} (f : B → A → result B) (b : B) (l1 l2 : list A) :
  rfoldl f b (l1 ++ l2) = (b' ← rfoldl f b l1; rfoldl f b' l2).
Proof. revert b; induction l1; intros; simpl; auto. destruct (f b a); simpl; auto. Qed.

Lemma rmap_ok {X Y} (f : X → result Y) (g : X → Y) l : (∀ x, x ∈ l → f x = Ok (g x)) → rmap f l = Ok (g <$> l).
Proof.
  induction l as [|x l IH]; intros Hf; [done|]. simpl. rewrite Hf by set_solver. cbn [mbind result_bind].
  rewrite IH by set_solver. done.
Qed.

Lemma rmap_ext {X Y} (f g : X → result Y) l : (∀ x, x ∈ l → f x = g x) → rmap f l = rmap g l.
Proof. induction l as [|x l IH]; intros Hf; [done|]. simpl. rewrite Hf by set_solver. rewrite IH; [done|]. set_solver. Qed.

Lemma rmap_Forall2 {X Y} (f : X → result Y) l ys : rmap f l = Ok ys → Forall2 (λ x y, f x = Ok y) l ys.
Proof.
  revert ys. induction l as [|x l IH]; intros ys; simpl; [intros [= <-]; constructor|].
  destruct (f x) as [y|] eqn:E; simpl; [|done]. destruct (rmap f l) as [ys'|] eqn:E'; simpl; [|done].
  intros [= <-]. constructor; auto.
Qed.

Lemma rmap_preserves {X Y Z} (f : X → result Y) (g : X → Z) (h : Y → Z) l l' :
  (∀ x y, f x = Ok y → h y = g x) → rmap f l = Ok l' → h <$> l' = g <$> l.
Proof.
  intros Hf. revert l'. induction l as [|x l IH]; intros l'; simpl; [by intros [= <-]|].
  destruct (f x) as [y|] eqn:E; [|done]. simpl. destruct (rmap f l) as [ys|]; [|done]. simpl. intros [= <-].
  rewrite !fmap_cons. f_equal; [by apply Hf|by apply IH].
Qed.

Lemma unique_head x l : ∃ l', unique (x :: l) = x :: l'.
Proof.
  simpl. destruct (unique l) as [|y l'']; [by eexists|].
  case_decide; subst; by eexists.
Qed.

Lemma elem_of_unique x l : x ∈ unique l ↔ x ∈ l.
Proof.
  revert x. induction l as [|y l IH]; intros x; [done|]. simpl.
  destruct (unique l) as [|z l''] eqn:E.
  - rewrite !elem_of_cons, <-IH. done.
  - case_decide; subst; rewrite !elem_of_cons, <-IH, ?elem_of_cons; naive_solver.
Qed.

Lemma unique_sorted l : Sorted (≤)%Z l → StronglySorted (<)%Z (unique l).
Proof.
  intros Hs%Sorted_StronglySorted; [|intros ???; lia].
  induction Hs as [|x l Hs IH Hall]; [constructor|]. simpl.
  destruct (unique l) as [|y l''] eqn:E; [repeat constructor|].
  assert (x ≤ y)%Z as Hxy.
  { rewrite Forall_forall in Hall. apply Hall, elem_of_unique. rewrite E. left. }
  case_decide; [done|].
  inversion IH as [|?? Hss Hlt]; subst. constructor; [done|].
  constructor; [lia|]. rewrite Forall_forall in Hlt |- *. intros z ?%Hlt. lia.
Qed.

Lemma strongly_sorted_unique_list l1 l2 :
  StronglySorted (<)%Z l1 → StronglySorted (<)%Z l2 →
  (∀ x, x ∈ l1 ↔ x ∈ l2) → l1 = l2.
Proof.
  intros H1. revert l2. induction H1 as [|x l1 Hs IH Hall]; intros l2 H2 Heq.
  - destruct l2 as [|y l2]; [done|]. specialize (Heq y). set_solver.
  - destruct H2 as [|y l2 Hs2 Hall2]; [specialize (Heq x); set_solver|].
    rewrite Forall_forall in Hall, Hall2.
    assert (x = y) as ->.
    { pose proof (proj1 (Heq x)) as Hx. pose proof (proj2 (Heq y)) as Hy.
      rewrite !elem_of_cons in Hx, Hy.
      destruct Hx as [?|?%Hall2]; [by left|done|].
      destruct Hy as [?|?%Hall]; [by left|done|lia]. }
    f_equal. apply IH; [done|]. intros z. specialize (Heq z).
    rewrite !elem_of_cons in Heq. split; intros Hz.
    + pose proof (Hall z Hz). destruct Heq as [[->|?] _]; [by right|lia|done].
    + pose proof (Hall2 z Hz). destruct Heq as [_ [->|?]]; [by right|lia|done].
Qed.

Lemma elem_of_sort_unique x l : x ∈ sort_unique l ↔ x ∈ l.
Proof. unfold sort_unique. rewrite elem_of_unique. by rewrite merge_sort_Permutation. Qed.

Lemma sort_unique_sorted l : StronglySorted (<)%Z (sort_unique l).
Proof. apply unique_sorted, Sorted_merge_sort. intros ??; lia. Qed.

Lemma strongly_sorted_lt_NoDup l : StronglySorted (<)%Z l → NoDup l.
Proof.
  induction 1 as [|x l Hs IH Hall]; constructor; [|done].
  rewrite Forall_forall in Hall. intros ?%Hall. lia.
Qed.

Lemma sort_unique_NoDup l : NoDup (sort_unique l).
Proof. apply strongly_sorted_lt_NoDup, sort_unique_sorted. Qed.

Lemma sort_unique_canonical l1 l2 :
  (∀ x, x ∈ l1 ↔ x ∈ l2) → sort_unique l1 = sort_unique l2.
Proof.
  intros H. apply strongly_sorted_unique_list; [apply sort_unique_sorted..|].
  intros x. by rewrite !elem_of_sort_unique.
Qed.

Lemma filter_ext_in {A} (P Q : A → Prop) `{!∀ x, Decision (P x), !∀ x, Decision (Q x)} (l : list A) :
  (∀ x, x ∈ l → P x ↔ Q x) → filter P l = filter Q l.
Proof.
  induction l as [|x l IH]; intros HPQ; [done|].
  rewrite !filter_cons. rewrite IH by (intros; apply HPQ; by right).
  apply decide_ext, HPQ. by left.
Qed.

Lemma filter_all {A} (P : A → Prop) `{!∀ x, Decision (P x)} (l : list A) :
  (∀ x, x ∈ l → P x) → filter P l = l.
Proof.
  induction l as [|x l IH]; intros HP; [done|].
  rewrite filter_cons, decide_True by (apply HP; by left).
  f_equal. apply IH. intros; apply HP. by right.
Qed.

Lemma filter_none {A} (P : A → Prop) `{!∀ x, Decision (P x)} (l : list A) :
  (∀ x, x ∈ l → ¬ P x) → filter P l = [].
Proof.
  induction l as [|x l IH]; intros HP; [done|].
  rewrite filter_cons, decide_False by (apply HP; by left).
  apply IH. intros; apply HP. by right.
Qed.

Lemma filter_both {A} (P : A → Prop) `{!∀ x, Decision (P x)} (l : list A) :
  filter P l ++ filter (λ x, ¬ P x) l ≡ₚ l.
Proof.
  induction l as [|x l IH]; [done|]. rewrite !filter_cons. destruct (decide (P x)).
  - rewrite decide_False by naive_solver. simpl. by rewrite IH.
  - rewrite decide_True by done. by rewrite <-Permutation_middle, IH.
Qed.

(** Grouping a list by a function loses and duplicates nothing. *)
Lemma group_concat {A B} `{EqDecision B} (f : A → B) (rs : list B) (l : list A) :
  NoDup rs → (∀ x, x ∈ l → f x ∈ rs) →
  concat ((λ r, filter (λ x, f x = r) l) <$> rs) ≡ₚ l.
Proof.
  intros Hnd. revert l. induction Hnd as [|r rs Hr _ IH]; intros l Hin; simpl.
  { destruct l as [|x l]; [done|]. specialize (Hin x). set_solver. }
  rewrite <-(filter_both (λ x, f x = r) l) at 2. f_equiv.
  rewrite <-(IH (filter (λ x, ¬ f x = r) l)).
  - match goal with |- ?a ≡ₚ ?b => enough (a = b) as -> by done end. f_equal. apply list_fmap_ext. intros i r' Hi. apply list_elem_of_lookup_2 in Hi.
    rewrite list_filter_filter. apply list_filter_iff. intros x. split; [|naive_solver].
    intros <-. split; [done|]. intros Heq. by rewrite Heq in Hi.
  - intros x [Hx Hxl]%list_elem_of_filter. specialize (Hin x Hxl). set_solver.
Qed.

Lemma is_prefix_nil {B} (f : nat → option B) : is_prefix f [].
Proof. by intros i b. Qed.

Lemma is_prefix_snoc {B} (f : nat → option B) outs b :
  is_prefix f outs → f (length outs) = Some b → is_prefix f (outs ++ [b]).
Proof.
  intros Hp Hf i b'. rewrite lookup_app_Some. intros [?|[Hi Hb]]; [by apply Hp|].
  apply list_lookup_singleton_Some in Hb as [Hi' <-]. by replace i with (length outs) by lia.
Qed.

Lemma is_prefix_mono {B} (f g : nat → option B) outs :
  (∀ i b, f i = Some b → g i = Some b) → is_prefix f outs → is_prefix g outs.
Proof. intros Hfg Hp i b Hi. apply Hfg, Hp, Hi. Qed.

(** A stream has one longest prefix. *)
Lemma longest_prefix_unique {B} (f : nat → option B) outs1 outs2 :
  longest_prefix f outs1 → longest_prefix f outs2 → outs1 = outs2.
Proof.
  intros [Hp1 Hn1] [Hp2 Hn2].
  assert (∀ o1 o2, is_prefix f o1 → is_prefix f o2 → f (length o1) = None →
    f (length o2) = None → length o1 ≤ length o2) as Hlen.
  { intros o1 o2 H1 H2 E1 E2. destruct (decide (length o1 ≤ length o2)) as [|Hgt]; [done|].
    destruct (lookup_lt_is_Some_2 o1 (length o2)) as [b Hb]; [lia|]. apply H1 in Hb. congruence. }
  assert (length outs1 = length outs2) as Hl by (apply Nat.le_antisymm; auto).
  apply (list_eq_same_length _ _ (length outs1)); [done|done|].
  intros i b1 b2 _ H1 H2. apply Hp1 in H1. apply Hp2 in H2. congruence.
Qed.

(** A position in a filtered list is a position in the list. *)
Lemma filter_split {A} (P : A → Prop) `{!∀ x, Decision (P x)} (l l1 l2 : list A) (x : A) :
  filter P l = l1 ++ x :: l2 →
  ∃ l1' l2', l = l1' ++ x :: l2' ∧ filter P l1' = l1 ∧ filter P l2' = l2.
Proof.
  revert l1. induction l as [|y l IH]; intros l1 Heq; [by destruct l1|].
  rewrite filter_cons in Heq. case_decide as Hy.
  - destruct l1 as [|z l1]; simplify_eq/=.
    + by exists [], l.
    + match goal with H : filter P l = _ |- _ => destruct (IH _ H) as (l1' & l2' & -> & <- & <-) end.
      exists (z :: l1'), l2'. by rewrite filter_cons, decide_True.
  - destruct (IH _ Heq) as (l1' & l2' & -> & <- & <-).
    exists (y :: l1'), l2'. by rewrite filter_cons, decide_False.
Qed.

(** Dropping one element from a predicate drops one element from the filter. *)
Lemma length_filter_drop_one {A} (P Q : A → Prop) `{!∀ x, Decision (P x), !∀ x, Decision (Q x)}
    (l : list A) (k : A) :
  NoDup l → k ∈ l → P k → (∀ x, Q x ↔ P x ∧ x ≠ k) →
  length (filter P l) = S (length (filter Q l)).
Proof.
  intros Hnd (l1 & l2 & ->)%list_elem_of_split HP HQ.
  apply NoDup_app in Hnd as (_ & Hn1 & [Hn2 _]%NoDup_cons).
  rewrite !filter_app, !length_app, !filter_cons. rewrite decide_True by done.
  rewrite decide_False by naive_solver.
  rewrite (filter_ext_in Q P l1), (filter_ext_in Q P l2); [simpl; lia|..].
  - intros x Hx. rewrite HQ. split; [naive_solver|]. intros ?; split; [done|]. by intros ->.
  - intros x Hx. rewrite HQ. split; [naive_solver|]. intros ?; split; [done|]. intros ->.
    eapply Hn1; [done|]. left.
Qed.

Lemma NoDup_fmap_fst_inj {A B} (l : list (A * B)) (a : A) (b1 b2 : B) :
  NoDup l.*1 → (a, b1) ∈ l → (a, b2) ∈ l → b1 = b2.
Proof.
  induction l as [|[x y] l IH]; [set_solver|]. rewrite fmap_cons. intros [Hx Hnd]%NoDup_cons.
  rewrite !elem_of_cons. intros [?|H1] [?|H2]; simplify_eq/=; auto.
  - destruct Hx. by apply (list_elem_of_fmap_2 fst l) in H2.
  - destruct Hx. by apply (list_elem_of_fmap_2 fst l) in H1.
Qed.

Lemma StronglySorted_sublist {A} (R : A → A → Prop) (l1 l2 : list A) :
  l1 `sublist_of` l2 → StronglySorted R l2 → StronglySorted R l1.
Proof.
  induction 1 as [|x l1 l2 Hsub IH|x l1 l2 Hsub IH]; [done| |].
  - intros Hs. inversion Hs as [|?? Hs' Hall]; subst. constructor; [auto|].
    rewrite Forall_forall in Hall |- *. intros y Hy. apply Hall.
    by eapply sublist_subseteq.
  - intros Hs. inversion Hs; auto.
Qed.

Lemma omap_cons {A B} (f : A → option B) (x : A) (l : list A) :
  omap f (x :: l) = match f x with Some y => y :: omap f l | None => omap f l end.
Proof. done. Qed.

Lemma omap_nil_iff {A B} (f : A → option B) (l : list A) : (∀ x, x ∈ l → f x = None) → omap f l = [].
Proof.
  induction l as [|x l IH]; intros Hf; [done|]. rewrite omap_cons, (Hf x) by left.
  apply IH. intros y Hy. apply Hf. by right.
Qed.

#[export] Hint Resolve sort_unique_sorted sort_unique_NoDup : slog.
