(* ===== verification/Types.v ===== *)
(** * Shared data types

    The protobuf messages of [proto/transaction.proto] and the plain structs of
    [common/types.h], with the field setters the modules use, and
    [MakeKeyReplica], which names the lock of a key in a region. *)
From stdpp Require Import pretty.
From Stdlib Require Import Ascii.
From S2P Require Import Prelude.

(** Identifiers and integer aliases of [common/types.h]. *)
Abbreviation Key := string (only parsing).
Abbreviation KeyReplica := string (only parsing).
Abbreviation Value := string (only parsing).
Abbreviation TxnId := Z (only parsing).
Abbreviation BatchId := Z (only parsing).
Abbreviation SlotId := Z (only parsing).
Abbreviation Channel := Z (only parsing).
Abbreviation MachineId := Z (only parsing).

(** ** Messages *)

Inductive TransactionType := UNKNOWN | SINGLE_HOME | MULTI_HOME_OR_LOCK_ONLY.

Inductive TransactionStatus := NOT_STARTED | COMMITTED | ABORTED.

Inductive KeyType := READ | WRITE.

Inductive LockMode := UNLOCKED | LOCK_READ | LOCK_WRITE.

Inductive AcquireLocksResult := ACQUIRED | WAITING | ABORT.

Inductive TransactionEvent :=
  | ALL | ENTER_SERVER | EXIT_SERVER_TO_FORWARDER | ENTER_FORWARDER
  | EXIT_FORWARDER_TO_SEQUENCER | EXIT_FORWARDER_TO_MULTI_HOME_ORDERER
  | ENTER_MULTI_HOME_ORDERER | ENTER_MULTI_HOME_ORDERER_IN_BATCH
  | EXIT_MULTI_HOME_ORDERER_IN_BATCH | EXIT_MULTI_HOME_ORDERER
  | ENTER_SEQUENCER | ENTER_SEQUENCER_IN_BATCH | EXIT_SEQUENCER_IN_BATCH
  | ENTER_INTERLEAVER_IN_BATCH | EXIT_INTERLEAVER
  | ENTER_SCHEDULER | ENTER_SCHEDULER_LO | ENTER_LOCK_MANAGER
  | DISPATCHED | DISPATCHED_FAST | DISPATCHED_SLOW
  | ENTER_WORKER | EXIT_WORKER | RETURN_TO_SERVER | EXIT_SERVER_TO_CLIENT.

#[global] Instance TransactionType_eq_dec : EqDecision TransactionType.
Proof. solve_decision. Defined.
#[global] Instance TransactionStatus_eq_dec : EqDecision TransactionStatus.
Proof. solve_decision. Defined.
#[global] Instance KeyType_eq_dec : EqDecision KeyType.
Proof. solve_decision. Defined.
#[global] Instance LockMode_eq_dec : EqDecision LockMode.
Proof. solve_decision. Defined.
#[global] Instance AcquireLocksResult_eq_dec : EqDecision AcquireLocksResult.
Proof. solve_decision. Defined.
#[global] Instance TransactionEvent_eq_dec : EqDecision TransactionEvent.
Proof. solve_decision. Defined.

Record MasterMetadata := { master : Z; counter : Z }.

Record ValueEntry := {
  value : Value;
  new_value : Value;
  type : KeyType;
  opt_metadata : option MasterMetadata
}.

Record KeyValueEntry := { key : Key; value_entry : ValueEntry }.

Record TransactionEventInfo := {
  ev_event : TransactionEvent;
  ev_time : Z;
  ev_machine : Z;
  ev_home : Z
}.

Record TransactionInternal := {
  id : TxnId;
  txn_type : TransactionType;
  home : Z;
  coordinating_server : Z;
  sequencer_delay_ms : Z;
  involved_partitions : list Z;
  active_partitions : list Z;
  involved_replicas : list Z;
  events : list TransactionEventInfo;
  global_log_positions : list Z
}.

Inductive Program :=
  | PROGRAM_NOT_SET
  | kCode (procedures : list (list string))
  | kRemaster (new_master : Z) (is_new_master_lock_only : bool).

Record Transaction := {
  internal : TransactionInternal;
  program : Program;
  keys : list KeyValueEntry;
  deleted_keys : list Key;
  status : TransactionStatus;
  abort_reason : string
}.

(** [internal::Batch] of [proto/internal.proto]. *)
Record Batch := {
  batch_id : BatchId;
  transactions : list Transaction;
  transaction_type : TransactionType;
  batch_events : list TransactionEventInfo
}.

#[global] Instance MasterMetadata_eq_dec : EqDecision MasterMetadata.
Proof. solve_decision. Defined.
#[global] Instance ValueEntry_eq_dec : EqDecision ValueEntry.
Proof. solve_decision. Defined.
#[global] Instance KeyValueEntry_eq_dec : EqDecision KeyValueEntry.
Proof. solve_decision. Defined.
#[global] Instance TransactionEventInfo_eq_dec : EqDecision TransactionEventInfo.
Proof. solve_decision. Defined.
#[global] Instance TransactionInternal_eq_dec : EqDecision TransactionInternal.
Proof. solve_decision. Defined.
#[global] Instance Program_eq_dec : EqDecision Program.
Proof. solve_decision. Defined.
#[global] Instance Transaction_eq_dec : EqDecision Transaction.
Proof. solve_decision. Defined.

#[global] Instance Batch_eq_dec : EqDecision Batch.
Proof. solve_decision. Defined.

(** ** Accessors

    Reading an unset message field of protobuf gives the default message, so
    [metadata()] of an entry with no metadata is [(0, 0)]. *)
Definition metadata (v : ValueEntry) : MasterMetadata :=
  default {| master := 0; counter := 0 |} (opt_metadata v).

Definition has_metadata (v : ValueEntry) : bool := bool_decide (is_Some (opt_metadata v)).

Definition key_master (kv : KeyValueEntry) : Z := master (metadata (value_entry kv)).

Definition key_type (kv : KeyValueEntry) : KeyType := type (value_entry kv).

Definition is_remaster (t : Transaction) : bool :=
  match program t with kRemaster _ _ => true | _ => false end.

Definition keys_size (t : Transaction) : Z := Z.of_nat (length (keys t)).

Definition txn_id (t : Transaction) : TxnId := id (internal t).

(** ** Setters *)

Definition set_metadata (m : MasterMetadata) (v : ValueEntry) : ValueEntry :=
  {| value := value v; new_value := new_value v; type := type v; opt_metadata := Some m |}.

Definition set_value (x : Value) (v : ValueEntry) : ValueEntry :=
  {| value := x; new_value := new_value v; type := type v; opt_metadata := opt_metadata v |}.

Definition set_new_value (x : Value) (v : ValueEntry) : ValueEntry :=
  {| value := value v; new_value := x; type := type v; opt_metadata := opt_metadata v |}.

Definition set_value_entry (v : ValueEntry) (kv : KeyValueEntry) : KeyValueEntry :=
  {| key := key kv; value_entry := v |}.

Definition set_internal (f : TransactionInternal → TransactionInternal) (t : Transaction) :
    Transaction :=
  {| internal := f (internal t); program := program t; keys := keys t;
     deleted_keys := deleted_keys t; status := status t; abort_reason := abort_reason t |}.

Definition set_program (p : Program) (t : Transaction) : Transaction :=
  {| internal := internal t; program := p; keys := keys t;
     deleted_keys := deleted_keys t; status := status t; abort_reason := abort_reason t |}.

Definition set_keys (ks : list KeyValueEntry) (t : Transaction) : Transaction :=
  {| internal := internal t; program := program t; keys := ks;
     deleted_keys := deleted_keys t; status := status t; abort_reason := abort_reason t |}.

Definition set_deleted_keys (ks : list Key) (t : Transaction) : Transaction :=
  {| internal := internal t; program := program t; keys := keys t;
     deleted_keys := ks; status := status t; abort_reason := abort_reason t |}.

Definition set_status (s : TransactionStatus) (t : Transaction) : Transaction :=
  {| internal := internal t; program := program t; keys := keys t;
     deleted_keys := deleted_keys t; status := s; abort_reason := abort_reason t |}.

Definition set_abort_reason (r : string) (t : Transaction) : Transaction :=
  {| internal := internal t; program := program t; keys := keys t;
     deleted_keys := deleted_keys t; status := status t; abort_reason := r |}.

Definition set_id (x : TxnId) (i : TransactionInternal) : TransactionInternal :=
  {| id := x; txn_type := txn_type i; home := home i;
     coordinating_server := coordinating_server i; sequencer_delay_ms := sequencer_delay_ms i;
     involved_partitions := involved_partitions i; active_partitions := active_partitions i;
     involved_replicas := involved_replicas i; events := events i;
     global_log_positions := global_log_positions i |}.

Definition set_type (x : TransactionType) (i : TransactionInternal) : TransactionInternal :=
  {| id := id i; txn_type := x; home := home i;
     coordinating_server := coordinating_server i; sequencer_delay_ms := sequencer_delay_ms i;
     involved_partitions := involved_partitions i; active_partitions := active_partitions i;
     involved_replicas := involved_replicas i; events := events i;
     global_log_positions := global_log_positions i |}.

Definition set_home (x : Z) (i : TransactionInternal) : TransactionInternal :=
  {| id := id i; txn_type := txn_type i; home := x;
     coordinating_server := coordinating_server i; sequencer_delay_ms := sequencer_delay_ms i;
     involved_partitions := involved_partitions i; active_partitions := active_partitions i;
     involved_replicas := involved_replicas i; events := events i;
     global_log_positions := global_log_positions i |}.

Definition set_coordinating_server (x : Z) (i : TransactionInternal) : TransactionInternal :=
  {| id := id i; txn_type := txn_type i; home := home i;
     coordinating_server := x; sequencer_delay_ms := sequencer_delay_ms i;
     involved_partitions := involved_partitions i; active_partitions := active_partitions i;
     involved_replicas := involved_replicas i; events := events i;
     global_log_positions := global_log_positions i |}.

Definition set_involved_partitions (x : list Z) (i : TransactionInternal) : TransactionInternal :=
  {| id := id i; txn_type := txn_type i; home := home i;
     coordinating_server := coordinating_server i; sequencer_delay_ms := sequencer_delay_ms i;
     involved_partitions := x; active_partitions := active_partitions i;
     involved_replicas := involved_replicas i; events := events i;
     global_log_positions := global_log_positions i |}.

Definition set_active_partitions (x : list Z) (i : TransactionInternal) : TransactionInternal :=
  {| id := id i; txn_type := txn_type i; home := home i;
     coordinating_server := coordinating_server i; sequencer_delay_ms := sequencer_delay_ms i;
     involved_partitions := involved_partitions i; active_partitions := x;
     involved_replicas := involved_replicas i; events := events i;
     global_log_positions := global_log_positions i |}.

Definition set_involved_replicas (x : list Z) (i : TransactionInternal) : TransactionInternal :=
  {| id := id i; txn_type := txn_type i; home := home i;
     coordinating_server := coordinating_server i; sequencer_delay_ms := sequencer_delay_ms i;
     involved_partitions := involved_partitions i; active_partitions := active_partitions i;
     involved_replicas := x; events := events i;
     global_log_positions := global_log_positions i |}.

Definition set_events (x : list TransactionEventInfo) (i : TransactionInternal) :
    TransactionInternal :=
  {| id := id i; txn_type := txn_type i; home := home i;
     coordinating_server := coordinating_server i; sequencer_delay_ms := sequencer_delay_ms i;
     involved_partitions := involved_partitions i; active_partitions := active_partitions i;
     involved_replicas := involved_replicas i; events := x;
     global_log_positions := global_log_positions i |}.

Definition set_global_log_positions (x : list Z) (i : TransactionInternal) :
    TransactionInternal :=
  {| id := id i; txn_type := txn_type i; home := home i;
     coordinating_server := coordinating_server i; sequencer_delay_ms := sequencer_delay_ms i;
     involved_partitions := involved_partitions i; active_partitions := active_partitions i;
     involved_replicas := involved_replicas i; events := events i;
     global_log_positions := x |}.

(** ** Structs of [common/types.h] *)

Record Metadata := { md_master : Z; md_counter : Z }.

Definition Metadata_of (m : MasterMetadata) : Metadata :=
  {| md_master := master m; md_counter := counter m |}.

(** [data_] is a [unique_ptr], null in a default-constructed record. *)
Record StoredRecord := { metadata_ : Metadata; data_ : option string }.

Definition empty_record : StoredRecord :=
  {| metadata_ := {| md_master := 0; md_counter := 0 |}; data_ := None |}.

Definition SetMetadata (m : Metadata) (r : StoredRecord) : StoredRecord :=
  {| metadata_ := m; data_ := data_ r |}.

Definition SetValue (v : string) (r : StoredRecord) : StoredRecord :=
  {| metadata_ := metadata_ r; data_ := Some v |}.

Definition record_to_string (r : StoredRecord) : string :=
  match data_ r with None => EmptyString | Some s => s end.

Definition MakeRecord (v : string) (m c : Z) : StoredRecord :=
  SetValue v {| metadata_ := {| md_master := m; md_counter := c |}; data_ := None |}.

(** The copy constructor allocates a buffer even for a null source. *)
Definition CopyRecord (r : StoredRecord) : StoredRecord :=
  {| metadata_ := metadata_ r; data_ := Some (record_to_string r) |}.

#[global] Instance Metadata_eq_dec : EqDecision Metadata.
Proof. solve_decision. Defined.
#[global] Instance StoredRecord_eq_dec : EqDecision StoredRecord.
Proof. solve_decision. Defined.

(** [std::to_string] of an unsigned number. *)
Definition to_string (z : Z) : string := pretty (Z.to_N z).

(** The second parameter of the source is a [uint32_t], so a negative home is
    converted first. *)
Definition MakeKeyReplica (k : Key) (m : Z) : KeyReplica :=
  (k +:+ ":" +:+ to_string (u32 m))%string.

(** ** Small messages, used by the examples of the other files *)

Definition make_entry (k : Key) (ty : KeyType) (m c : Z) : KeyValueEntry :=
  {| key := k;
     value_entry := {| value := EmptyString; new_value := EmptyString; type := ty;
                       opt_metadata := Some {| master := m; counter := c |} |} |}.

Definition make_internal (i : TxnId) (ty : TransactionType) (h : Z) : TransactionInternal :=
  {| id := i; txn_type := ty; home := h; coordinating_server := 0; sequencer_delay_ms := 0;
     involved_partitions := []; active_partitions := []; involved_replicas := [];
     events := []; global_log_positions := [] |}.

Definition make_txn (i : TxnId) (ty : TransactionType) (h : Z) (p : Program)
    (ks : list KeyValueEntry) : Transaction :=
  {| internal := make_internal i ty h; program := p; keys := ks; deleted_keys := [];
     status := NOT_STARTED; abort_reason := EmptyString |}.

(** ** The lock names of distinct (key, region) pairs are distinct *)

Definition chars (s : string) : list ascii := String.list_ascii_of_string s.

Lemma chars_inj s1 s2 : chars s1 = chars s2 → s1 = s2.
Proof.
  intros H. rewrite <-(String.string_of_list_ascii_of_string s1).
  unfold chars in H. rewrite H. apply String.string_of_list_ascii_of_string.
Qed.

Lemma chars_app s1 s2 : chars (s1 +:+ s2) = chars s1 ++ chars s2.
Proof. induction s1 as [|c s1 IH]; simpl; f_equal; auto. Qed.

Lemma split_last_separator {A} (c : A) (l1 l2 d1 d2 : list A) :
  c ∉ d1 → c ∉ d2 → l1 ++ c :: d1 = l2 ++ c :: d2 → l1 = l2 ∧ d1 = d2.
Proof.
  intros Hd1 Hd2. revert l2. induction l1 as [|x l1 IH]; intros [|y l2] Heq; simplify_eq/=.
  - done.
  - set_solver.
  - set_solver.
  - by match goal with H : _ ++ _ = _ ++ _ |- _ => destruct (IH _ H) as [-> ->] end.
Qed.

Lemma pretty_N_go_chars (x : N) (s : string) (c : ascii) :
  (∀ y, pretty_N_char y ≠ c) → c ∉ chars s → c ∉ chars (pretty_N_go x s).
Proof.
  intros Hc. revert s. induction (N.lt_wf_0 x) as [x _ IH]; intros s Hs.
  assert (x = 0 ∨ 0 < x)%N as [->|?] by lia; [by rewrite pretty_N_go_0|].
  rewrite pretty_N_go_step by done. apply IH; [by apply N.div_lt|].
  simpl. specialize (Hc (x `mod` 10)%N). set_solver.
Qed.

Lemma to_string_no_colon (z : Z) : ":"%char ∉ chars (to_string z).
Proof.
  unfold to_string, pretty, pretty_N. case_decide; [simpl; set_solver|].
  apply pretty_N_go_chars; [|simpl; set_solver].
  intros y. unfold pretty_N_char. repeat case_match; done.
Qed.

Lemma to_string_inj (x y : Z) : (0 ≤ x)%Z → (0 ≤ y)%Z → to_string x = to_string y → x = y.
Proof. intros ?? H. unfold to_string in H. apply (inj pretty) in H. lia. Qed.

Lemma MakeKeyReplica_inj_aux (k1 k2 : Key) (m1 m2 : Z) :
  MakeKeyReplica k1 m1 = MakeKeyReplica k2 m2 → k1 = k2 ∧ u32 m1 = u32 m2.
Proof.
  intros H%(f_equal chars). unfold MakeKeyReplica in H. rewrite !chars_app in H.
  apply split_last_separator in H as [Hk Hm]; [|apply to_string_no_colon..].
  split; [by apply chars_inj|].
  apply chars_inj, to_string_inj in Hm; [done|apply Z.mod_pos_bound; lia..].
Qed.
