(* ===== verification/LockSpec.v ===== *)
(** * What a deterministic lock manager promises

    The three lock managers of [module/scheduler_components] (OLD, RMA, DDR) keep
    different data structures but make the same promise to the scheduler. This
    file states that promise: an abstract state with one first-in first-out queue
    of requests per lock, the class [LockManager] of the operations the scheduler
    calls, and the class [LockManagerCorrect] of the simulation each
    implementation proves. The safety and progress theorems are proved here, once,
    against the interface. *)
From S2P Require Import Prelude Types.

(** ** Queues of lock requests *)

Abbreviation request := (KeyReplica * KeyType)%type (only parsing).
Abbreviation queue := (list (TxnId * KeyType)) (only parsing).

Fixpoint leading_reads (q : list (Z * KeyType)) : list (Z * KeyType) :=
  match q with
  | (t, READ) :: q' => (t, READ) :: leading_reads q'
  | _ => []
  end.

(** The requests at the head of a queue that hold the lock: one writer, or all
    the readers up to the first writer. *)
Definition granted (q : list (Z * KeyType)) : list (Z * KeyType) :=
  match q with
  | (t, WRITE) :: _ => [(t, WRITE)]
  | _ => leading_reads q
  end.

Definition waiting (q : list (Z * KeyType)) : list (Z * KeyType) :=
  drop (length (granted q)) q.

Definition conflict (ty1 ty2 : KeyType) : bool :=
  match ty1, ty2 with READ, READ => false | _, _ => true end.

Definition remove_txn (t : Z) (q : list (Z * KeyType)) : list (Z * KeyType) :=
  filter (λ e, e.1 ≠ t) q.

(** ** The abstract lock manager *)

Record lock_spec := {
  queues : gmap string (list (Z * KeyType));
  unarrived : gmap Z Z;
  finished : gset Z
}.

Definition spec_init : lock_spec := {| queues := ∅; unarrived := ∅; finished := ∅ |}.

Definition queue_of (s : lock_spec) (k : string) : list (Z * KeyType) :=
  default [] (queues s !! k).

(** All locks of [t] were requested and all of them are granted. *)
Definition ready (s : lock_spec) (t : Z) : Prop :=
  unarrived s !! t = Some 0%Z ∧
  map_Forall (λ _ q, t ∈ q.*1 → t ∈ (granted q).*1) (queues s).

#[global] Instance ready_dec s t : Decision (ready s t).
Proof. unfold ready. apply _. Defined.

Definition enqueue (t : Z) (m : gmap string (list (Z * KeyType))) (r : string * KeyType) :
    gmap string (list (Z * KeyType)) :=
  <[r.1 := default [] (m !! r.1) ++ [(t, r.2)]]> m.

Definition spec_acquire (s : lock_spec) (t : Z) (n : Z) (reqs : list (string * KeyType)) :
    lock_spec :=
  {| queues := foldl (enqueue t) (queues s) reqs;
     unarrived := <[t := (default n (unarrived s !! t) - Z.of_nat (length reqs))%Z]> (unarrived s);
     finished := finished s |}.

Definition spec_release (s : lock_spec) (t : Z) : lock_spec :=
  {| queues := remove_txn t <$> queues s;
     unarrived := delete t (unarrived s);
     finished := {[t]} ∪ finished s |}.

(** The transactions that become ready when [t] leaves. *)
Definition spec_unblocked (s : lock_spec) (t : Z) : gset Z :=
  filter (λ t', ready (spec_release s t) t' ∧ ¬ ready s t') (dom (unarrived s)).

(** A transaction asks for each lock once, for no more locks than it announced,
    and not again after it was released. *)
Definition can_acquire (s : lock_spec) (t : Z) (n : Z) (reqs : list (string * KeyType)) : Prop :=
  (t ∉ finished s) ∧
  reqs ≠ [] ∧
  NoDup reqs.*1 ∧
  Forall (λ r, t ∉ (queue_of s r.1).*1) reqs ∧
  (Z.of_nat (length reqs) ≤ default n (unarrived s !! t))%Z.

#[global] Instance can_acquire_dec s t n reqs : Decision (can_acquire s t n reqs).
Proof. unfold can_acquire. apply _. Defined.

(** ** The interface *)

Class LockManager (L : Type) := {
  lm_init : L;
  lm_AcquireLocks : L → Transaction → L * AcquireLocksResult;
  lm_ReleaseLocks : L → TxnId → result (L * list TxnId);
  (** the locks one call of [AcquireLocks] asks for *)
  lm_requests : Transaction → list (KeyReplica * KeyType);
  (** the locks the transaction needs over all of its calls *)
  lm_required : Transaction → Z
}.

Class LockManagerCorrect (L : Type) `{LockManager L} := {
  lm_rel : L → lock_spec → Prop;
  lm_rel_init : lm_rel lm_init spec_init;
  lm_rel_acquire l s txn :
    lm_rel l s →
    can_acquire s (txn_id txn) (lm_required txn) (lm_requests txn) →
    let s' := spec_acquire s (txn_id txn) (lm_required txn) (lm_requests txn) in
    lm_rel (lm_AcquireLocks l txn).1 s' ∧
    (lm_AcquireLocks l txn).2 = if decide (ready s' (txn_id txn)) then ACQUIRED else WAITING;
  lm_rel_release l s t :
    lm_rel l s → ready s t →
    ∃ l' out, lm_ReleaseLocks l t = Ok (l', out) ∧
      lm_rel l' (spec_release s t) ∧
      NoDup out ∧ ∀ t', t' ∈ out ↔ t' ∈ spec_unblocked s t
}.

(** ** Traces: the calls of the scheduler and what they return *)

Inductive lock_event :=
  | EAcquire (txn : Transaction)
  | ERelease (t : TxnId).

Section Traces.
Context {L : Type} `{LockManager L}.

Definition lm_step (l : L) (e : lock_event) : result (L * list TxnId) :=
  match e with
  | EAcquire txn =>
    let '(l', r) := lm_AcquireLocks l txn in
    Ok (l', match r with ACQUIRED => [txn_id txn] | _ => [] end)
  | ERelease t => lm_ReleaseLocks l t
  end.

(** The transactions dispatched by each call of a trace. *)
Fixpoint lm_run (l : L) (es : list lock_event) : result (L * list (list TxnId)) :=
  match es with
  | [] => Ok (l, [])
  | e :: es =>
    '(l1, out) ← lm_step l e;
    '(l2, outs) ← lm_run l1 es;
    Ok (l2, out :: outs)
  end.

Definition spec_step (s : lock_spec) (e : lock_event) : lock_spec :=
  match e with
  | EAcquire txn => spec_acquire s (txn_id txn) (lm_required txn) (lm_requests txn)
  | ERelease t => spec_release s t
  end.

(** The scheduler's discipline: locks are requested as [can_acquire] says and
    only a dispatched transaction is released. *)
Definition allowed (s : lock_spec) (e : lock_event) : Prop :=
  match e with
  | EAcquire txn => can_acquire s (txn_id txn) (lm_required txn) (lm_requests txn)
  | ERelease t => ready s t
  end.

#[global] Instance allowed_dec s e : Decision (allowed s e).
Proof. destruct e; simpl; apply _. Defined.

Fixpoint valid_trace (s : lock_spec) (es : list lock_event) : Prop :=
  match es with
  | [] => True
  | e :: es => allowed s e ∧ valid_trace (spec_step s e) es
  end.

#[global] Instance valid_trace_dec s es : Decision (valid_trace s es).
Proof. revert s. induction es; simpl; apply _. Defined.

End Traces.

(** The transactions a trace has dispatched and not yet released. *)
Fixpoint in_flight (D : list TxnId) (es : list lock_event) (outs : list (list TxnId)) :
    list TxnId :=
  match es, outs with
  | ERelease t :: es, out :: outs => in_flight (filter (λ t', t' ≠ t) (D ++ out)) es outs
  | EAcquire _ :: es, out :: outs => in_flight (D ++ out) es outs
  | _, _ => D
  end.

(** ** Queue lemmas *)

Section Queues.
Implicit Types (q : list (Z * KeyType)) (t : Z).

Lemma leading_reads_all q : Forall (λ e, e.2 = READ) (leading_reads q).
Proof. induction q as [|[t []] q IH]; simpl; repeat constructor; auto. Qed.

Lemma leading_reads_app q1 q2 :
  Forall (λ e, e.2 = READ) q1 → leading_reads (q1 ++ q2) = q1 ++ leading_reads q2.
Proof. induction 1 as [|[t ty] q ? _ IH]; simplify_eq/=; [done|]. by rewrite IH. Qed.

Lemma leading_reads_id q : Forall (λ e, e.2 = READ) q → leading_reads q = q.
Proof. intros. rewrite <-(app_nil_r q) at 1. rewrite leading_reads_app by done. apply app_nil_r. Qed.

Lemma leading_reads_split q :
  ∃ q2, q = leading_reads q ++ q2 ∧ leading_reads q2 = [].
Proof.
  induction q as [|[t []] q (q2 & Hq & Hn)]; simpl; [by exists []|..].
  - exists q2. by rewrite <-Hq.
  - by eexists.
Qed.

Lemma granted_reads q :
  (∀ t q', q ≠ (t, WRITE) :: q') → granted q = leading_reads q.
Proof. destruct q as [|[t []] q]; simpl; naive_solver. Qed.

Lemma granted_waiting q : granted q ++ waiting q = q.
Proof.
  unfold waiting. destruct q as [|[t []] q]; [done| |done].
  change (granted _) with (leading_reads ((t, READ) :: q)).
  destruct (leading_reads_split ((t, READ) :: q)) as (q2 & Hq & _).
  rewrite Hq at 3. rewrite drop_app_length. by rewrite <-Hq.
Qed.

Lemma granted_app q1 q2 :
  ∃ q3, granted (q1 ++ q2) = granted q1 ++ q3 ∧ ∀ e, e ∈ q3 → e ∈ q2.
Proof.
  destruct q1 as [|[t []] q1].
  - exists (granted q2). split; [done|]. intros e He.
    rewrite <-(granted_waiting q2). set_solver.
  - change (granted (((t, READ) :: q1) ++ q2)) with (leading_reads (((t, READ) :: q1) ++ q2)).
    change (granted ((t, READ) :: q1)) with (leading_reads ((t, READ) :: q1)).
    destruct (leading_reads_split ((t, READ) :: q1)) as (q3 & Hq & Hn).
    destruct q3 as [|[t' []] q3]; [|done|].
    + rewrite app_nil_r in Hq. exists (leading_reads q2). split.
      * rewrite Hq at 1. apply leading_reads_app, leading_reads_all.
      * intros e He. destruct (leading_reads_split q2) as (q4 & -> & _). set_solver.
    + exists []. split; [|set_solver]. rewrite Hq at 1. rewrite <-app_assoc.
      rewrite leading_reads_app by apply leading_reads_all. done.
  - exists []. split; [done|set_solver].
Qed.

Lemma granted_elem t q : t ∈ (granted q).*1 → t ∈ q.*1.
Proof. rewrite <-(granted_waiting q) at 2. rewrite fmap_app. set_solver. Qed.

Lemma granted_app_l t q1 q2 : t ∈ (granted q1).*1 → t ∈ (granted (q1 ++ q2)).*1.
Proof. destruct (granted_app q1 q2) as (q3 & -> & _). rewrite fmap_app. set_solver. Qed.

Lemma granted_app_inv t q1 q2 :
  t ∉ q2.*1 → t ∈ (granted (q1 ++ q2)).*1 → t ∈ (granted q1).*1.
Proof.
  destruct (granted_app q1 q2) as (q3 & -> & Hq3). rewrite fmap_app, elem_of_app.
  intros Ht [?|Hin]; [done|]. apply list_elem_of_fmap in Hin as (e & -> & ?%Hq3).
  destruct Ht. apply list_elem_of_fmap. eauto.
Qed.

Lemma remove_txn_app t q1 q2 : remove_txn t (q1 ++ q2) = remove_txn t q1 ++ remove_txn t q2.
Proof. apply filter_app. Qed.

Lemma elem_of_remove_txn t q e : e ∈ remove_txn t q ↔ e ∈ q ∧ e.1 ≠ t.
Proof. unfold remove_txn. rewrite list_elem_of_filter. naive_solver. Qed.

Lemma remove_txn_fst t t' q : t' ∈ (remove_txn t q).*1 ↔ t' ∈ q.*1 ∧ t' ≠ t.
Proof.
  rewrite !list_elem_of_fmap. setoid_rewrite elem_of_remove_txn. naive_solver.
Qed.

Lemma remove_txn_id t q : t ∉ q.*1 → remove_txn t q = q.
Proof.
  intros Ht. apply filter_all. intros e He <-. by apply Ht, list_elem_of_fmap_2.
Qed.

Lemma granted_remove t t' q :
  t' ≠ t → t' ∈ (granted q).*1 → t' ∈ (granted (remove_txn t q)).*1.
Proof.
  intros Hne Hin. destruct q as [|[x []] q]; [done| |].
  - change (granted _) with (leading_reads ((x, READ) :: q)) in Hin.
    destruct (leading_reads_split ((x, READ) :: q)) as (q2 & Hq & _). rewrite Hq at 1.
    rewrite remove_txn_app.
    assert (Forall (λ e, e.2 = READ) (remove_txn t (leading_reads ((x, READ) :: q)))) as Hall.
    { apply Forall_forall. intros e [He _]%elem_of_remove_txn.
      eapply Forall_forall in He; [|apply leading_reads_all]. done. }
    apply granted_app_l. rewrite granted_reads.
    + rewrite leading_reads_id by done. by apply remove_txn_fst.
    + intros ?? Heq. rewrite Heq in Hall. by inversion Hall.
  - simpl in Hin. apply list_elem_of_singleton in Hin as ->.
    unfold remove_txn. rewrite filter_cons, decide_True by done. simpl. set_solver.
Qed.

(** Two distinct requests hold a lock together only if both are reads. *)
Lemma granted_compatible q t1 t2 ty1 ty2 :
  (t1, ty1) ∈ granted q → (t2, ty2) ∈ granted q → t1 ≠ t2 → ty1 = READ ∧ ty2 = READ.
Proof.
  destruct q as [|[x []] q]; [set_solver| |].
  - change (granted _) with (leading_reads ((x, READ) :: q)). intros H1 H2 _.
    pose proof (leading_reads_all ((x, READ) :: q)) as Hall.
    rewrite Forall_forall in Hall. by apply Hall in H1, H2.
  - simpl. rewrite !list_elem_of_singleton. naive_solver.
Qed.

(** A granted request has no conflicting request before it. *)
Lemma granted_no_conflict_before q1 q2 t1 t2 ty1 ty2 :
  (t1, ty1) ∈ q1 → (t2, ty2) ∈ granted (q1 ++ q2) → t2 ∉ q1.*1 →
  conflict ty1 ty2 = false.
Proof.
  intros H1 H2 Hn. destruct q1 as [|[x []] q1]; [set_solver| |].
  - change (granted _) with (leading_reads (((x, READ) :: q1) ++ q2)) in H2.
    pose proof (leading_reads_all (((x, READ) :: q1) ++ q2)) as Hall.
    rewrite Forall_forall in Hall. pose proof (Hall _ H2) as Hty2; simpl in Hty2; subst.
    destruct (leading_reads_split ((x, READ) :: q1)) as (q3 & Hq & Hn3).
    destruct q3 as [|[t' []] q3]; [|done|].
    + rewrite app_nil_r in Hq. rewrite Hq in H1.
      pose proof (leading_reads_all ((x, READ) :: q1)) as Hall1.
      rewrite Forall_forall in Hall1. apply Hall1 in H1. simpl in H1. by subst.
    + exfalso. rewrite Hq, <-app_assoc, leading_reads_app in H2 by apply leading_reads_all.
      simpl in H2. rewrite app_nil_r in H2. apply Hn. rewrite Hq, fmap_app.
      apply elem_of_app. left. apply list_elem_of_fmap. by exists (t2, READ).
  - simpl in H2. apply list_elem_of_singleton in H2. simplify_eq. set_solver.
Qed.

(** A new request is granted at once when the queue is empty, or when it is a
    read and only reads are queued. *)
Definition grantable q (ty : KeyType) : Prop :=
  q = [] ∨ ty = READ ∧ Forall (λ e, e.2 = READ) q.

#[global] Instance grantable_dec q ty : Decision (grantable q ty).
Proof. unfold grantable. apply _. Defined.

Lemma granted_snoc q t ty :
  granted (q ++ [(t, ty)]) = if decide (grantable q ty) then q ++ [(t, ty)] else granted q.
Proof.
  case_decide as Hg.
  - destruct Hg as [->|[-> Hall]]; [by destruct ty|].
    assert (Forall (λ e, e.2 = READ) (q ++ [(t, READ)])) as Hall'.
    { apply Forall_app; split; [done|]. by constructor. }
    rewrite granted_reads; [by apply leading_reads_id|].
    intros t' q' Heq. rewrite Heq in Hall'. inversion Hall'; done.
  - destruct q as [|[x []] q]; [destruct Hg; by left| |done].
    change (granted (((x, READ) :: q) ++ [(t, ty)])) with
      (leading_reads (((x, READ) :: q) ++ [(t, ty)])).
    change (granted ((x, READ) :: q)) with (leading_reads ((x, READ) :: q)).
    destruct (leading_reads_split ((x, READ) :: q)) as (q2 & Hq & Hn).
    pose proof (leading_reads_all ((x, READ) :: q)) as Hall.
    destruct q2 as [|[y []] q2]; [|done|].
    + rewrite app_nil_r in Hq. rewrite <-Hq in Hall. destruct ty.
      { destruct Hg. by right. }
      rewrite leading_reads_app by done. simpl (leading_reads [_]). by rewrite app_nil_r, <-Hq.
    + rewrite Hq at 1. rewrite <-app_assoc, leading_reads_app by done. by rewrite app_nil_r.
Qed.

Lemma grantable_waiting q ty : grantable q ty → waiting q = [].
Proof.
  unfold waiting. intros [->|[-> Hall]]; [done|].
  rewrite granted_reads; [|by intros t q' ->; inversion Hall].
  rewrite leading_reads_id by done. by apply drop_ge.
Qed.

Lemma grantable_granted q ty : grantable q ty → granted q = q.
Proof.
  intros Hg. rewrite <-(granted_waiting q) at 2. rewrite (grantable_waiting q ty Hg).
  by rewrite app_nil_r.
Qed.

Lemma waiting_snoc q t ty :
  waiting (q ++ [(t, ty)]) = if decide (grantable q ty) then [] else waiting q ++ [(t, ty)].
Proof.
  unfold waiting. rewrite granted_snoc. case_decide; [by apply drop_ge|].
  rewrite drop_app_le; [done|]. rewrite <-(granted_waiting q) at 2. rewrite length_app. lia.
Qed.

Lemma granted_snoc_new q t ty :
  t ∉ q.*1 → t ∈ (granted (q ++ [(t, ty)])).*1 ↔ grantable q ty.
Proof.
  intros Ht. rewrite granted_snoc. case_decide; [|pose proof (granted_elem t q); naive_solver].
  rewrite fmap_app. split; [done|]. set_solver.
Qed.

Lemma remove_granted t q :
  NoDup q.*1 → t ∈ (granted q).*1 →
  remove_txn t q = remove_txn t (granted q) ++ waiting q.
Proof.
  intros Hnd Ht. rewrite <-(granted_waiting q) at 1. rewrite remove_txn_app. f_equal.
  apply remove_txn_id. intros Hw.
  rewrite <-(granted_waiting q), fmap_app, NoDup_app in Hnd. destruct Hnd as (_ & Hdis & _).
  by eapply Hdis.
Qed.

(** Readers that stay keep the lock for themselves. *)
Lemma granted_remove_holders t q :
  NoDup q.*1 → t ∈ (granted q).*1 → remove_txn t (granted q) ≠ [] →
  granted (remove_txn t q) = remove_txn t (granted q) ∧ waiting (remove_txn t q) = waiting q.
Proof.
  intros Hnd Ht Hne. rewrite (remove_granted t q) by done.
  destruct q as [|[x []] q]; [done| |].
  - change (granted ((x, READ) :: q)) with (leading_reads ((x, READ) :: q)) in *.
    destruct (leading_reads_split ((x, READ) :: q)) as (q2 & Hq & Hn).
    assert (waiting ((x, READ) :: q) = q2) as ->.
    { pose proof (granted_waiting ((x, READ) :: q)) as Hgw. rewrite Hq in Hgw at 3.
      by apply app_inv_head in Hgw. }
    assert (Forall (λ e, e.2 = READ) (remove_txn t (leading_reads ((x, READ) :: q)))) as Hall.
    { apply Forall_forall. intros e [He _]%elem_of_remove_txn.
      eapply Forall_forall in He; [|apply leading_reads_all]. done. }
    assert (granted (remove_txn t (leading_reads ((x, READ) :: q)) ++ q2) =
      remove_txn t (leading_reads ((x, READ) :: q))) as Hgr.
    { rewrite granted_reads.
      - rewrite leading_reads_app by done. by rewrite Hn, app_nil_r.
      - intros t' q' Heq. destruct (remove_txn _ _); [done|]. simplify_eq/=.
        by inversion Hall. }
    split; [done|]. unfold waiting. rewrite Hgr. by rewrite drop_app_length.
  - simpl in Ht. apply list_elem_of_singleton in Ht as ->. destruct Hne.
    unfold remove_txn. simpl. by rewrite filter_cons, decide_False by naive_solver.
Qed.

End Queues.

(** ** The abstract state *)

Section Spec.
Implicit Types (s : lock_spec) (t : Z) (k : string).

Record spec_wf s : Prop := {
  wf_nodup k : NoDup (queue_of s k).*1;
  wf_active k t : t ∈ (queue_of s k).*1 → is_Some (unarrived s !! t);
  wf_finished t : t ∈ finished s → unarrived s !! t = None;
  wf_unarrived t n : unarrived s !! t = Some n → (0 ≤ n)%Z
}.

(** The requests of one call that concern lock [k], as queue entries of [t]. *)
Definition new_entries t (reqs : list (string * KeyType)) k : list (Z * KeyType) :=
  (λ r, (t, r.2)) <$> filter (λ r, r.1 = k) reqs.

Lemma queue_of_enqueue t reqs m k :
  default [] (foldl (enqueue t) m reqs !! k) = default [] (m !! k) ++ new_entries t reqs k.
Proof.
  revert m. induction reqs as [|[k' ty] reqs IH]; intros m; [by rewrite app_nil_r|].
  simpl. rewrite IH. unfold enqueue, new_entries; simpl. rewrite filter_cons.
  destruct (decide (k' = k)) as [->|Hne]; simpl.
  - rewrite decide_True, lookup_insert_eq by done. simpl. by rewrite <-app_assoc.
  - rewrite decide_False, lookup_insert_ne by done. done.
Qed.

Lemma queue_of_acquire s t n reqs k :
  queue_of (spec_acquire s t n reqs) k = queue_of s k ++ new_entries t reqs k.
Proof. apply queue_of_enqueue. Qed.

Lemma queue_of_release s t k :
  queue_of (spec_release s t) k = remove_txn t (queue_of s k).
Proof. unfold queue_of; simpl. rewrite lookup_fmap. by destruct (queues s !! k). Qed.

Lemma elem_of_new_entries t reqs k t' ty :
  (t', ty) ∈ new_entries t reqs k ↔ t' = t ∧ (k, ty) ∈ reqs.
Proof.
  unfold new_entries. rewrite list_elem_of_fmap. split.
  - intros ([k' ty'] & ? & [? ?]%list_elem_of_filter); simplify_eq/=. done.
  - intros [-> ?]. exists (k, ty). by rewrite list_elem_of_filter.
Qed.

Lemma new_entries_fst t reqs k t' :
  t' ∈ (new_entries t reqs k).*1 ↔ t' = t ∧ k ∈ reqs.*1.
Proof.
  rewrite !list_elem_of_fmap. split.
  - intros ([? ty] & ? & [-> ?]%elem_of_new_entries); simplify_eq/=.
    split; [done|]. by exists (k, ty).
  - intros [-> ([k' ty] & ? & ?)]; simplify_eq/=. exists (t, ty).
    by rewrite elem_of_new_entries.
Qed.

Lemma new_entries_nil t reqs k : k ∉ reqs.*1 → new_entries t reqs k = [].
Proof.
  intros Hk. destruct (new_entries t reqs k) as [|[t' ty] l] eqn:E; [done|].
  destruct Hk. assert ((t', ty) ∈ new_entries t reqs k) as Hin by (rewrite E; left).
  apply elem_of_new_entries in Hin as [_ ?]. apply list_elem_of_fmap. by exists (k, ty).
Qed.

Lemma new_entries_singleton t reqs k ty :
  NoDup reqs.*1 → (k, ty) ∈ reqs → new_entries t reqs k = [(t, ty)].
Proof.
  intros Hnd Hin. apply list_elem_of_split in Hin as (l1 & l2 & ->).
  rewrite fmap_app, fmap_cons in Hnd. apply NoDup_app in Hnd as (_ & Hn1 & [Hn2 _]%NoDup_cons).
  unfold new_entries. rewrite filter_app, filter_cons, decide_True by done.
  assert (new_entries t l1 k = []) as H1.
  { apply new_entries_nil. intros Hk. eapply Hn1; [done|]. left. }
  assert (new_entries t l2 k = []) as H2 by by apply new_entries_nil.
  unfold new_entries in H1, H2. rewrite fmap_app, fmap_cons. by rewrite H1, H2.
Qed.

Lemma ready_queue_of s t :
  ready s t ↔ unarrived s !! t = Some 0%Z ∧
    ∀ k, t ∈ (queue_of s k).*1 → t ∈ (granted (queue_of s k)).*1.
Proof.
  unfold ready, queue_of, map_Forall. split; intros [? Hg]; split; auto.
  - intros k. destruct (queues s !! k) as [q|] eqn:E; simpl; [eauto|set_solver].
  - intros k q Hq. specialize (Hg k). by rewrite Hq in Hg.
Qed.

Lemma spec_wf_init : spec_wf spec_init.
Proof. split; intros; try apply NoDup_nil; set_solver. Qed.

Lemma spec_wf_acquire s t n reqs :
  spec_wf s → can_acquire s t n reqs → spec_wf (spec_acquire s t n reqs).
Proof.
  intros [Hnd Hact Hfin Hun] (Hf & Hne & Hndr & Hfresh & Hlen). split.
  - intros k. rewrite queue_of_acquire, fmap_app. apply NoDup_app. split_and!; [done| |].
    + intros t' Ht' [-> Hin]%new_entries_fst. rewrite Forall_forall in Hfresh.
      apply list_elem_of_fmap in Hin as (r & -> & Hin). by apply Hfresh in Hin.
    + destruct (decide (k ∈ reqs.*1)) as [Hin|Hin]; [|rewrite new_entries_nil by done; constructor].
      apply list_elem_of_fmap in Hin as ([? ty] & -> & Hin).
      rewrite (new_entries_singleton _ _ _ ty) by done. apply NoDup_singleton.
  - intros k t'. rewrite queue_of_acquire, fmap_app, elem_of_app, new_entries_fst; simpl.
    rewrite lookup_insert_is_Some. intros [?|[-> _]]; [|by left].
    destruct (decide (t = t')); [by left|right]. eauto.
  - intros t' Ht'. simpl in *. rewrite lookup_insert_ne by set_solver. auto.
  - intros t' m. simpl. rewrite lookup_insert. case_decide; [|eauto].
    intros [= <-]. lia.
Qed.

Lemma spec_wf_release s t : spec_wf s → spec_wf (spec_release s t).
Proof.
  intros [Hnd Hact Hfin Hun]. split.
  - intros k. rewrite queue_of_release. eapply sublist_NoDup; [apply (Hnd k)|].
    apply fmap_sublist, sublist_filter.
  - intros k t'. rewrite queue_of_release, remove_txn_fst; simpl. intros [? ?].
    rewrite lookup_delete_ne by done. eauto.
  - intros t' Ht'; simpl in *. rewrite lookup_delete. case_decide; [done|].
    apply Hfin. set_solver.
  - intros t' m; simpl. rewrite lookup_delete. case_decide; [done|eauto].
Qed.

(** Another transaction's acquire neither grants nor withdraws anything. *)
Lemma ready_acquire_other s t n reqs t' :
  t' ≠ t → ready (spec_acquire s t n reqs) t' ↔ ready s t'.
Proof.
  intros Hne. rewrite !ready_queue_of. simpl. rewrite lookup_insert_ne by done.
  setoid_rewrite queue_of_acquire. setoid_rewrite fmap_app. setoid_rewrite elem_of_app.
  setoid_rewrite new_entries_fst. split; intros [? Hg]; split; auto.
  - intros k Hin. eapply granted_app_inv; [|apply Hg; by left].
    rewrite new_entries_fst. naive_solver.
  - intros k [Hin|[-> _]]; [|done]. apply granted_app_l, Hg, Hin.
Qed.

(** Releasing a transaction takes nothing from another one. *)
Lemma ready_release_other s t t' :
  t' ≠ t → ready s t' → ready (spec_release s t) t'.
Proof.
  intros Hne. rewrite !ready_queue_of. simpl. rewrite lookup_delete_ne by done.
  intros [? Hg]; split; [done|]. intros k.
  rewrite queue_of_release, remove_txn_fst. intros [? _]. by apply granted_remove, Hg.
Qed.

Lemma not_ready_release s t : ¬ ready (spec_release s t) t.
Proof. intros [Hu _]. simpl in Hu. by rewrite lookup_delete_eq in Hu. Qed.

Lemma not_ready_finished s t : spec_wf s → t ∈ finished s → ¬ ready s t.
Proof. intros Hwf Ht [Hu _]. apply wf_finished in Ht; [|done]. congruence. Qed.

Lemma not_ready_can_acquire s t n reqs : can_acquire s t n reqs → ¬ ready s t.
Proof.
  intros (_ & Hne & _ & _ & Hlen) [Hu _]. rewrite Hu in Hlen. simpl in Hlen.
  destruct reqs; simpl in *; [done|lia].
Qed.

Lemma elem_of_spec_unblocked s t t' :
  t' ∈ spec_unblocked s t ↔ ready (spec_release s t) t' ∧ ¬ ready s t'.
Proof.
  unfold spec_unblocked. rewrite elem_of_filter, elem_of_dom. split; [naive_solver|].
  intros [Hr Hn]. split; [done|]. destruct Hr as [Hu _]. simpl in Hu.
  apply lookup_delete_Some in Hu as [_ ?]. eauto.
Qed.

End Spec.
#[export] Hint Resolve spec_wf_init spec_wf_acquire spec_wf_release : slog.

(** ** Traces of a correct lock manager *)

Section TraceLemmas.
Context `{LockManagerCorrect L}.
Implicit Types (s : lock_spec) (es : list lock_event) (t : Z).

(** What a call dispatches, according to the abstract state. *)
Definition spec_out s (e : lock_event) : gset Z :=
  match e with
  | EAcquire txn => if decide (ready (spec_step s e) (txn_id txn)) then {[txn_id txn]} else ∅
  | ERelease t => spec_unblocked s t
  end.

Fixpoint spec_outs s es : list (gset Z) :=
  match es with
  | [] => []
  | e :: es => spec_out s e :: spec_outs (spec_step s e) es
  end.

Definition lists_set (out : list Z) (X : gset Z) : Prop :=
  NoDup out ∧ ∀ t, t ∈ out ↔ t ∈ X.

(** The requests for lock [k] made by a trace, in order. *)
Fixpoint history es (k : string) : list (Z * KeyType) :=
  match es with
  | [] => []
  | EAcquire txn :: es => new_entries (txn_id txn) (lm_requests txn) k ++ history es k
  | ERelease _ :: es => history es k
  end.

Fixpoint released es : list Z :=
  match es with
  | [] => []
  | ERelease t :: es => t :: released es
  | EAcquire _ :: es => released es
  end.

Definition spec_final s es : lock_spec := foldl spec_step s es.

Lemma lm_step_correct l s e :
  lm_rel l s → allowed s e →
  ∃ l' out, lm_step l e = Ok (l', out) ∧ lm_rel l' (spec_step s e) ∧ lists_set out (spec_out s e).
Proof.
  intros Hrel Hal. destruct e as [txn|t]; simpl in *.
  - destruct (lm_rel_acquire l s txn Hrel Hal) as [Hrel' Hres].
    destruct (lm_AcquireLocks l txn) as [l' r] eqn:E; simpl in *. subst r.
    exists l'. case_decide; eexists; (split_and!; [done|done|]); split;
      try apply NoDup_singleton; try apply NoDup_nil; set_solver.
  - destruct (lm_rel_release l s t Hrel Hal) as (l' & out & ? & ? & ? & ?).
    exists l', out. done.
Qed.

Lemma lm_run_correct l s es :
  lm_rel l s → valid_trace s es →
  ∃ l' outs, lm_run l es = Ok (l', outs) ∧ lm_rel l' (spec_final s es) ∧
    Forall2 lists_set outs (spec_outs s es).
Proof.
  revert l s. induction es as [|e es IH]; intros l s Hrel Hv; simpl in *.
  - exists l, []. auto.
  - destruct Hv as [Hal Hv].
    destruct (lm_step_correct l s e Hrel Hal) as (l1 & out & Hstep & Hrel1 & Hout).
    destruct (IH l1 _ Hrel1 Hv) as (l2 & outs & Hrun & Hrel2 & Houts).
    exists l2, (out :: outs). rewrite Hstep; simpl. rewrite Hrun; simpl. auto.
Qed.

Lemma spec_wf_step s e : spec_wf s → allowed s e → spec_wf (spec_step s e).
Proof. destruct e; simpl; auto with slog. Qed.

Lemma spec_wf_final s es : spec_wf s → valid_trace s es → spec_wf (spec_final s es).
Proof.
  revert s. induction es as [|e es IH]; intros s Hwf; [done|].
  intros [??]. apply IH; [by apply spec_wf_step|done].
Qed.

Lemma ready_step s e t :
  spec_wf s → allowed s e →
  ready (spec_step s e) t ↔ (ready s t ∨ t ∈ spec_out s e) ∧ e ≠ ERelease t.
Proof.
  intros Hwf Hal. destruct e as [txn|t']; simpl in *.
  - destruct (decide (t = txn_id txn)) as [->|Hne].
    + apply not_ready_can_acquire in Hal. case_decide; set_solver.
    + rewrite ready_acquire_other by done. case_decide; set_solver.
  - rewrite elem_of_spec_unblocked. destruct (decide (t = t')) as [->|Hne].
    + pose proof (not_ready_release s t'). naive_solver.
    + pose proof (ready_release_other s t' t Hne). destruct (decide (ready s t)); naive_solver.
Qed.

Lemma in_flight_ready D s es outs t :
  spec_wf s → valid_trace s es → Forall2 lists_set outs (spec_outs s es) →
  (∀ t', t' ∈ D ↔ ready s t') →
  t ∈ in_flight D es outs ↔ ready (spec_final s es) t.
Proof.
  revert D s outs. induction es as [|e es IH]; intros D s outs Hwf Hv Houts HD; simpl in *.
  { inversion Houts; subst. apply HD. }
  destruct Hv as [Hal Hv]. inversion Houts as [|out ? outs' ? [_ Hout] Houts']; subst.
  pose proof (λ t', ready_step s e t' Hwf Hal) as Hst.
  destruct e as [txn|t0]; apply IH; try done; try by apply spec_wf_step.
  - intros t'. rewrite elem_of_app, HD, Hout, Hst. naive_solver.
  - intros t'. rewrite list_elem_of_filter, elem_of_app, HD, Hout, Hst. naive_solver.
Qed.

Lemma history_finished s es k t ty :
  valid_trace s es → t ∈ finished s → (t, ty) ∉ history es k.
Proof.
  revert s. induction es as [|[txn|t'] es IH]; intros s Hv Hf; simpl in *; [set_solver|..].
  - destruct Hv as [Hal Hv]. rewrite not_elem_of_app, elem_of_new_entries. split; [|eauto].
    intros [-> _]. by destruct Hal.
  - destruct Hv as [_ Hv]. eapply IH; [done|]. simpl. set_solver.
Qed.

(** A lock's queue is its history without the transactions that left. *)
Lemma queue_of_final s es k :
  valid_trace s es →
  queue_of (spec_final s es) k =
    filter (λ e, e.1 ∉ released es) (queue_of s k ++ history es k).
Proof.
  revert s. induction es as [|e es IH]; intros s Hv; simpl.
  { rewrite app_nil_r, filter_all; [done|]. set_solver. }
  destruct Hv as [Hal Hv]. simpl. change (spec_final s (e :: es)) with (spec_final (spec_step s e) es).
  rewrite IH by done. destruct e as [txn|t]; simpl.
  - by rewrite queue_of_acquire, <-app_assoc.
  - rewrite queue_of_release, !filter_app. f_equal.
    + unfold remove_txn. rewrite list_filter_filter. apply list_filter_iff.
      intros x. rewrite not_elem_of_cons. naive_solver.
    + apply filter_ext_in. intros [t' ty] Hin; simpl. rewrite not_elem_of_cons.
      split; [|naive_solver]. intros Hn. split; [|done]. intros ->.
      eapply history_finished; [done| |done]. simpl. set_solver.
Qed.

Lemma released_in es t : t ∈ released es ↔ ERelease t ∈ es.
Proof. induction es as [|[] es IH]; simpl; set_solver. Qed.

Lemma spec_out_fresh s e t :
  spec_wf s → allowed s e → ready s t ∨ t ∈ finished s → t ∉ spec_out s e.
Proof.
  intros Hwf Hal Hor Hin. destruct e as [txn|t0]; simpl in *.
  - case_decide; [|set_solver]. apply elem_of_singleton in Hin as ->.
    destruct Hor as [Hr|Hf]; [|by destruct Hal].
    by apply not_ready_can_acquire in Hal.
  - apply elem_of_spec_unblocked in Hin as [Hr Hn]. destruct Hor as [?|Hf]; [done|].
    eapply not_ready_finished; [by apply spec_wf_release| |done]. simpl. set_solver.
Qed.

Lemma done_step s e t :
  spec_wf s → allowed s e → ready s t ∨ t ∈ finished s ∨ t ∈ spec_out s e →
  ready (spec_step s e) t ∨ t ∈ finished (spec_step s e).
Proof.
  intros Hwf Hal Hor. rewrite ready_step by done.
  destruct e as [txn|t0]; simpl in *; [naive_solver|].
  destruct (decide (t0 = t)) as [->|Hne]; [right; set_solver|].
  destruct Hor as [?|[?|?]]; [left; naive_solver|right; set_solver|left; naive_solver].
Qed.

Lemma spec_outs_fresh s es outs t :
  spec_wf s → valid_trace s es → ready s t ∨ t ∈ finished s →
  Forall2 lists_set outs (spec_outs s es) → t ∉ concat outs.
Proof.
  revert s outs. induction es as [|e es IH]; intros s outs Hwf Hv Hor Ho; simpl in *.
  { inversion Ho; subst. set_solver. }
  destruct Hv as [Hal Hv]. inversion Ho as [|out ? outs' ? [_ Hout] Ho']; subst. simpl.
  rewrite not_elem_of_app. split.
  - rewrite Hout. by apply spec_out_fresh.
  - eapply IH; [by apply spec_wf_step|done| |done]. apply done_step; naive_solver.
Qed.

Lemma dispatched_once_aux s es outs :
  spec_wf s → valid_trace s es → Forall2 lists_set outs (spec_outs s es) → NoDup (concat outs).
Proof.
  revert s outs. induction es as [|e es IH]; intros s outs Hwf Hv Ho; simpl in *.
  { inversion Ho; subst. constructor. }
  destruct Hv as [Hal Hv]. inversion Ho as [|out ? outs' ? [Hnd Hout] Ho']; subst. simpl.
  apply NoDup_app. split_and!; [done| |by eapply IH; [apply spec_wf_step|..]].
  intros t Ht%Hout. eapply spec_outs_fresh; [by apply spec_wf_step|done| |done].
  apply done_step; naive_solver.
Qed.

Lemma lm_run_init es :
  valid_trace spec_init es →
  ∃ l outs, lm_run lm_init es = Ok (l, outs) ∧ lm_rel l (spec_final spec_init es) ∧
    Forall2 lists_set outs (spec_outs spec_init es) ∧
    (∀ t, t ∈ in_flight [] es outs ↔ ready (spec_final spec_init es) t) ∧
    NoDup (concat outs).
Proof.
  intros Hv. destruct (lm_run_correct lm_init spec_init es lm_rel_init Hv)
    as (l & outs & Hrun & Hrel & Houts).
  exists l, outs. split_and!; [done..| |].
  - intros t. apply in_flight_ready; auto using spec_wf_init.
    intros t'. split; [set_solver|]. intros [Hu _]. done.
  - eapply dispatched_once_aux; eauto using spec_wf_init.
Qed.

(** An in-flight transaction's request is granted. *)
Lemma in_flight_granted es k t ty :
  valid_trace spec_init es → ready (spec_final spec_init es) t → t ∉ released es →
  (t, ty) ∈ history es k → (t, ty) ∈ granted (queue_of (spec_final spec_init es) k).
Proof.
  intros Hv [_ Hg]%ready_queue_of Hrel Hin. specialize (Hg k).
  assert ((t, ty) ∈ queue_of (spec_final spec_init es) k) as Hq.
  { rewrite queue_of_final by done. apply list_elem_of_filter. by rewrite elem_of_app; auto. }
  apply (list_elem_of_fmap_2 fst) in Hq as Hq1. apply Hg in Hq1.
  apply list_elem_of_fmap in Hq1 as ([t' ty'] & ? & Hgr); simplify_eq/=.
  pose proof (wf_nodup _ (spec_wf_final _ _ spec_wf_init Hv) k) as Hnd.
  assert ((t', ty') ∈ queue_of (spec_final spec_init es) k) as Hq'.
  { rewrite <-(granted_waiting (queue_of _ k)). set_solver. }
  assert (ty = ty') as ->; [|done].
  by eapply (NoDup_fmap_fst_inj (queue_of (spec_final spec_init es) k)).
Qed.

Lemma ready_not_released es t :
  valid_trace spec_init es → ready (spec_final spec_init es) t → t ∉ released es.
Proof.
  intros Hv Hr Hin. eapply not_ready_finished; [by eapply spec_wf_final, Hv; apply spec_wf_init| |done].
  assert (∀ s, t ∈ released es ∨ t ∈ finished s → t ∈ finished (spec_final s es)) as Hg; [|auto].
  clear. induction es as [|[] es IH]; intros s; simpl; [set_solver|..];
    intros Ht; apply IH; simpl; set_solver.
Qed.

(** The lock conflicts of two in-flight transactions. *)
Lemma exclusive_aux es k t1 t2 ty1 ty2 :
  valid_trace spec_init es →
  ready (spec_final spec_init es) t1 → ready (spec_final spec_init es) t2 → t1 ≠ t2 →
  (t1, ty1) ∈ history es k → (t2, ty2) ∈ history es k → ty1 = READ ∧ ty2 = READ.
Proof.
  intros Hv Hr1 Hr2 Hne H1 H2.
  apply (granted_compatible (queue_of (spec_final spec_init es) k) t1 t2); [..|done];
    apply in_flight_granted; auto using ready_not_released.
Qed.

Lemma history_NoDup s es k :
  spec_wf s → valid_trace s es → NoDup (queue_of s k ++ history es k).*1.
Proof.
  revert s. induction es as [|e es IH]; intros s Hwf Hv; simpl.
  { rewrite app_nil_r. apply Hwf. }
  destruct Hv as [Hal Hv]. specialize (IH _ (spec_wf_step _ _ Hwf Hal) Hv).
  destruct e as [txn|t]; simpl in *.
  - by rewrite queue_of_acquire, <-app_assoc in IH.
  - rewrite queue_of_release in IH. rewrite !fmap_app, !NoDup_app in *.
    destruct IH as (_ & Hdis & Hnd). split_and!; [apply Hwf| |done].
    intros t' Hq Hh. destruct (decide (t' = t)) as [->|Hne].
    + apply list_elem_of_fmap in Hh as ([? ty] & -> & Hh).
      eapply history_finished; [done| |done]. simpl. set_solver.
    + apply (Hdis t'); [by rewrite remove_txn_fst|done].
Qed.

Lemma fifo_aux es k i j t1 t2 ty1 ty2 :
  valid_trace spec_init es → ready (spec_final spec_init es) t2 →
  history es k !! i = Some (t1, ty1) → history es k !! j = Some (t2, ty2) → i < j →
  conflict ty1 ty2 = true → t1 ∈ released es.
Proof.
  intros Hv Hr H1 H2 Hij Hc. destruct (decide (t1 ∈ released es)) as [|Hrel]; [done|].
  pose proof (history_NoDup _ _ k spec_wf_init Hv) as Hnd; simpl in Hnd.
  rewrite app_nil_l in Hnd.
  rewrite <-(take_drop j (history es k)) in Hnd. rewrite fmap_app, NoDup_app in Hnd.
  destruct Hnd as (_ & Hdis & _).
  assert ((t1, ty1) ∈ take j (history es k)) as Hin1.
  { apply list_elem_of_lookup. exists i. by rewrite lookup_take_lt. }
  assert ((t2, ty2) ∈ drop j (history es k)) as Hin2.
  { apply list_elem_of_lookup. exists 0. by rewrite lookup_drop, Nat.add_0_r. }
  assert (t2 ∉ (take j (history es k)).*1) as Hn.
  { intros Hn. apply (Hdis t2 Hn). by apply (list_elem_of_fmap_2 fst) in Hin2. }
  assert ((t2, ty2) ∈ granted (queue_of (spec_final spec_init es) k)) as Hgr.
  { apply in_flight_granted; auto using ready_not_released.
    by apply list_elem_of_lookup_2 in H2. }
  rewrite queue_of_final in Hgr by done. rewrite <-(take_drop j (history es k)) in Hgr.
  change (queue_of spec_init k) with (@nil (Z * KeyType)) in Hgr.
  rewrite app_nil_l, filter_app in Hgr.
  eapply (granted_no_conflict_before _ _ t1 t2 ty1 ty2) in Hgr; [congruence|..].
  - apply list_elem_of_filter. split; [exact Hrel|exact Hin1].
  - intros (e & -> & [_ He]%list_elem_of_filter)%list_elem_of_fmap.
    by apply Hn, list_elem_of_fmap_2.
Qed.

(** If the logs order all transactions consistently, the earliest active one
    holds all of its locks. *)
Lemma progress_aux (rank : Z → Z) es :
  valid_trace spec_init es →
  (∀ k, StronglySorted (λ t1 t2, rank t1 < rank t2)%Z (history es k).*1) →
  map_Forall (λ _ n, n = 0%Z) (unarrived (spec_final spec_init es)) →
  unarrived (spec_final spec_init es) ≠ ∅ →
  ∃ t, ready (spec_final spec_init es) t.
Proof.
  intros Hv Hrank Harr Hne. pose proof (spec_wf_final _ _ spec_wf_init Hv) as Hwf.
  set (R := λ t1 t2, (rank t1 ≤ rank t2)%Z).
  assert (Transitive R) by (intros ???; unfold R; lia).
  assert (∀ x y, Decision (R x y)) by (intros; unfold R; apply _).
  assert (dom (unarrived (spec_final spec_init es)) ≢ (∅ : gset Z)) as Hd0.
  { intros Hd. by apply Hne, (dom_empty_inv (D := gset Z)). }
  destruct (minimal_exists_elem_of R _ Hd0) as (t & Ht & Hmin).
  exists t. apply ready_queue_of. apply elem_of_dom in Ht as [n Hn].
  assert (n = 0%Z) as -> by by eapply Harr.
  split; [done|]. intros k (e & -> & He)%list_elem_of_fmap.
  destruct (queue_of (spec_final spec_init es) k) as [|e' q] eqn:Eq; [set_solver|].
  assert (e' = e) as ->; [|destruct e as [t []]; left].
  apply elem_of_cons in He as [?|He]; [done|]. exfalso.
  assert (rank e'.1 < rank e.1)%Z as Hlt.
  { specialize (Hrank k). pose proof (queue_of_final spec_init es k Hv) as Hq.
    rewrite Eq in Hq. change (queue_of spec_init k) with (@nil (Z * KeyType)) in Hq.
    rewrite app_nil_l in Hq.
    assert (StronglySorted (λ t1 t2, rank t1 < rank t2)%Z (e' :: q).*1) as Hs.
    { rewrite Hq. eapply StronglySorted_sublist; [|done]. apply fmap_sublist, sublist_filter. }
    inversion Hs as [|?? _ Hall]. rewrite Forall_forall in Hall.
    by apply Hall, list_elem_of_fmap_2. }
  assert (e'.1 ∈ dom (unarrived (spec_final spec_init es))) as Hd.
  { apply elem_of_dom. eapply (wf_active _ Hwf k). rewrite Eq. left. }
  specialize (Hmin _ Hd). unfold R in Hmin. lia.
Qed.

End TraceLemmas.
