(* ===== verification/RMALock.v ===== *)
(** * The remaster-aware lock manager

    [RMALockManager] of [module/scheduler_components/rma_lock_manager.cpp], the
    lock manager of the default build, and its simulation by the first-in
    first-out queues of [LockSpec].

    A [DCHECK] is compiled out of a release build and is not part of the model;
    what it asserts is a consequence of [can_acquire]. An iterator that the
    source dereferences without a test is modelled by [Undef] when it is the end
    iterator. *)
From S2P Require Import Prelude Types LockSpec.

(** ** One lock *)

Record LockState := {
  mode : LockMode;
  holders_ : list TxnId;
  waiter_queue_ : list (TxnId * LockMode)
}.

Definition empty_lock : LockState :=
  {| mode := UNLOCKED; holders_ := []; waiter_queue_ := [] |}.

Definition AcquireReadLock (st : LockState) (t : TxnId) : LockState * bool :=
  match mode st with
  | UNLOCKED =>
    ({| mode := LOCK_READ; holders_ := holders_ st ++ [t]; waiter_queue_ := waiter_queue_ st |}, true)
  | LOCK_READ =>
    if decide (waiter_queue_ st = []) then
      ({| mode := mode st; holders_ := holders_ st ++ [t]; waiter_queue_ := waiter_queue_ st |}, true)
    else
      ({| mode := mode st; holders_ := holders_ st;
          waiter_queue_ := waiter_queue_ st ++ [(t, LOCK_READ)] |}, false)
  | LOCK_WRITE =>
    ({| mode := mode st; holders_ := holders_ st;
        waiter_queue_ := waiter_queue_ st ++ [(t, LOCK_READ)] |}, false)
  end.

Definition AcquireWriteLock (st : LockState) (t : TxnId) : LockState * bool :=
  match mode st with
  | UNLOCKED =>
    ({| mode := LOCK_WRITE; holders_ := holders_ st ++ [t]; waiter_queue_ := waiter_queue_ st |}, true)
  | LOCK_READ | LOCK_WRITE =>
    ({| mode := mode st; holders_ := holders_ st;
        waiter_queue_ := waiter_queue_ st ++ [(t, LOCK_WRITE)] |}, false)
  end.

Definition Contains (st : LockState) (t : TxnId) : bool :=
  bool_decide (t ∈ holders_ st) || bool_decide (t ∈ (waiter_queue_ st).*1).

(** [holders_.erase(std::find(...))]: the first occurrence goes. *)
Fixpoint erase_first (t : TxnId) (l : list TxnId) : list TxnId :=
  match l with
  | [] => []
  | x :: l' => if decide (x = t) then l' else x :: erase_first t l'
  end.

(** The loop that hands a read lock to the readers at the head of the queue. *)
Fixpoint grant_reads (hs : list TxnId) (ws : list (TxnId * LockMode)) :
    list TxnId * list (TxnId * LockMode) :=
  match ws with
  | (t, LOCK_READ) :: ws' => grant_reads (hs ++ [t]) ws'
  | _ => (hs, ws)
  end.

Definition Release (st : LockState) (t : TxnId) : LockState * list TxnId :=
  if decide (t ∈ holders_ st) then
    let hs := erase_first t (holders_ st) in
    if decide (hs ≠ []) then
      ({| mode := mode st; holders_ := hs; waiter_queue_ := waiter_queue_ st |}, [])
    else
      match waiter_queue_ st with
      | [] => ({| mode := UNLOCKED; holders_ := hs; waiter_queue_ := [] |}, [])
      | (front, m) :: ws =>
        match m with
        | LOCK_READ =>
          let '(hs', ws') := grant_reads hs (waiter_queue_ st) in
          ({| mode := LOCK_READ; holders_ := hs'; waiter_queue_ := ws' |}, hs')
        | LOCK_WRITE =>
          ({| mode := LOCK_WRITE; holders_ := hs ++ [front]; waiter_queue_ := ws |}, hs ++ [front])
        | UNLOCKED =>
          ({| mode := mode st; holders_ := hs; waiter_queue_ := waiter_queue_ st |}, hs)
        end
      end
  else
    ({| mode := mode st; holders_ := holders_ st;
        waiter_queue_ := filter (λ p, p.1 ≠ t) (waiter_queue_ st) |}, []).

(** ** The manager *)

Record TxnInfo := { num_waiting_for : Z; info_keys : list KeyReplica }.

Definition is_ready (i : TxnInfo) : bool := bool_decide (num_waiting_for i = 0%Z).

Definition one_less (i : TxnInfo) : TxnInfo :=
  {| num_waiting_for := num_waiting_for i - 1; info_keys := info_keys i |}.

Record RMALockManager := {
  txn_info_ : gmap Z TxnInfo;
  lock_table_ : gmap string LockState;
  num_locked_keys_ : Z
}.

Definition rma_init : RMALockManager :=
  {| txn_info_ := ∅; lock_table_ := ∅; num_locked_keys_ := 0 |}.

(** [lock_table_[k]] creates an unlocked entry when there is none. *)
Definition lock_state (lt : gmap string LockState) (k : KeyReplica) : LockState :=
  default empty_lock (lt !! k).

(** The locks one call asks for: every key of the home region, or every key of
    a remaster transaction, whatever its master metadata says. *)
Definition skip_key (txn : Transaction) (kv : KeyValueEntry) : bool :=
  negb (is_remaster txn) && bool_decide (i32 (key_master kv) ≠ home (internal txn)).

Definition requests (txn : Transaction) : list (KeyReplica * KeyType) :=
  (λ kv, (MakeKeyReplica (key kv) (home (internal txn)), key_type kv)) <$>
    filter (λ kv, skip_key txn kv = false) (keys txn).

Definition num_required_locks (txn : Transaction) : Z :=
  if is_remaster txn then 2 else keys_size txn.

(** The body of the loop over the keys of [AcquireLocks], on the lock table,
    the counter of locked keys and the [TxnInfo] of the transaction. *)
Definition acquire_lock (t : TxnId) (a : gmap string LockState * Z * TxnInfo)
    (r : KeyReplica * KeyType) : gmap string LockState * Z * TxnInfo :=
  let '(lt, nlocked, info) := a in
  let '(key_replica, ty) := r in
  let info := {| num_waiting_for := num_waiting_for info;
                 info_keys := info_keys info ++ [key_replica] |} in
  let st := lock_state lt key_replica in
  let before_mode := mode st in
  let '(st', got) := match ty with
    | READ => AcquireReadLock st t
    | WRITE => AcquireWriteLock st t
    end in
  let info := if got : bool then one_less info else info in
  let nlocked :=
    if decide (before_mode = UNLOCKED ∧ mode st' ≠ before_mode) then u32 (nlocked + 1) else nlocked in
  (<[key_replica := st']> lt, nlocked, info).

Definition acquire_key (txn : Transaction) (a : gmap string LockState * Z * TxnInfo)
    (kv : KeyValueEntry) : gmap string LockState * Z * TxnInfo :=
  if skip_key txn kv then a
  else acquire_lock (txn_id txn) a (MakeKeyReplica (key kv) (home (internal txn)), key_type kv).

Definition AcquireLocks (l : RMALockManager) (txn : Transaction) :
    RMALockManager * AcquireLocksResult :=
  let t := txn_id txn in
  let info := default {| num_waiting_for := num_required_locks txn; info_keys := [] |}
                (txn_info_ l !! t) in
  let '(lt, nlocked, info) :=
    foldl (acquire_key txn) (lock_table_ l, num_locked_keys_ l, info) (keys txn) in
  ({| txn_info_ := <[t := info]> (txn_info_ l); lock_table_ := lt; num_locked_keys_ := nlocked |},
   if is_ready info then ACQUIRED else WAITING).

(** The loop over [new_grantees]. *)
Definition grant (a : gmap Z TxnInfo * list TxnId) (new_txn : TxnId) :
    result (gmap Z TxnInfo * list TxnId) :=
  let '(infos, res) := a in
  match infos !! new_txn with
  | None => Err (Undef "ReleaseLocks: grantee has no TxnInfo")
  | Some i =>
    let i := one_less i in
    Ok (<[new_txn := i]> infos, if is_ready i then res ++ [new_txn] else res)
  end.

(** The body of the loop over the keys of [ReleaseLocks]. *)
Definition release_lock (t : TxnId) (a : RMALockManager * list TxnId) (key_replica : KeyReplica) :
    result (RMALockManager * list TxnId) :=
  let '(l, res) := a in
  match lock_table_ l !! key_replica with
  | None => Ok a
  | Some st =>
    let '(st', new_grantees) := Release st t in
    let nlocked :=
      if decide (mode st' = UNLOCKED ∧ mode st ≠ UNLOCKED) then u32 (num_locked_keys_ l - 1)
      else num_locked_keys_ l in
    '(infos, res) ← rfoldl grant (txn_info_ l, res) new_grantees;
    Ok ({| txn_info_ := infos; lock_table_ := <[key_replica := st']> (lock_table_ l);
           num_locked_keys_ := nlocked |}, res)
  end.

Definition ReleaseLocks (l : RMALockManager) (t : TxnId) :
    result (RMALockManager * list TxnId) :=
  match txn_info_ l !! t with
  | None => Ok (l, [])
  | Some info =>
    '(l', res) ← rfoldl (release_lock t) (l, []) (info_keys info);
    Ok ({| txn_info_ := delete t (txn_info_ l'); lock_table_ := lock_table_ l';
           num_locked_keys_ := num_locked_keys_ l' |}, sort_unique res)
  end.

#[global] Instance rma_lock_manager : LockManager RMALockManager := {
  lm_init := rma_init;
  lm_AcquireLocks := AcquireLocks;
  lm_ReleaseLocks := ReleaseLocks;
  lm_requests := requests;
  lm_required := num_required_locks
}.

(** ** The lock state a queue of requests stands for *)

Definition mode_of (ty : KeyType) : LockMode :=
  match ty with READ => LOCK_READ | WRITE => LOCK_WRITE end.

Definition as_waiter (e : TxnId * KeyType) : TxnId * LockMode := (e.1, mode_of e.2).

Definition conc (q : list (TxnId * KeyType)) : LockState :=
  {| mode := match q with [] => UNLOCKED | (_, ty) :: _ => mode_of ty end;
     holders_ := (granted q).*1;
     waiter_queue_ := as_waiter <$> waiting q |}.

Lemma grantable_READ q : q = [] ∨ (waiting q = [] ∧ head (q.*2) = Some READ) ↔ grantable q READ.
Proof.
  split.
  - intros [->|[Hw Hh]]; [by left|]. right; split; [done|].
    rewrite <-(granted_waiting q), Hw, app_nil_r.
    destruct q as [|[x []] q]; simpl in Hh; [done| |done].
    apply (leading_reads_all ((x, READ) :: q)).
  - intros Hg. pose proof (grantable_waiting _ _ Hg).
    destruct Hg as [?|[_ Hall]]; [by left|]. destruct q as [|[x ty] q]; [by left|right].
    split; [done|]. inversion Hall; simplify_eq/=. done.
Qed.

Lemma acquire_conc q t ty :
  match ty with
  | READ => AcquireReadLock (conc q) t
  | WRITE => AcquireWriteLock (conc q) t
  end =
  (conc (q ++ [(t, ty)]), bool_decide (grantable q ty)).
Proof.
  unfold conc at 3. rewrite granted_snoc, waiting_snoc.
  destruct (decide (grantable q ty)) as [Hg|Hg];
    [rewrite (bool_decide_true _ Hg)|rewrite (bool_decide_false _ Hg)].
  - pose proof (grantable_waiting _ _ Hg) as Hw. pose proof (grantable_granted _ _ Hg) as Hgr.
    unfold AcquireReadLock, AcquireWriteLock, conc. rewrite Hw, Hgr, fmap_app.
    destruct Hg as [->|[-> Hall]]; [by destruct ty|].
    by destruct Hall as [|[x []] q].
  - unfold AcquireReadLock, AcquireWriteLock, conc. rewrite fmap_app.
    destruct q as [|[x ty'] q]; [destruct Hg; by left|].
    destruct ty, ty'; cbn [mode holders_ waiter_queue_ mode_of]; try done.
    rewrite decide_False; [done|]. intros Hw%fmap_nil_inv. apply Hg, grantable_READ. auto.
Qed.

Lemma erase_first_remove t q :
  NoDup q.*1 → erase_first t q.*1 = (remove_txn t q).*1.
Proof.
  induction q as [|[x ty] q IH]; [done|]. rewrite fmap_cons. intros [Hx Hnd]%NoDup_cons.
  simpl. unfold remove_txn. rewrite filter_cons. case_decide as Hd; simpl in *.
  - subst. rewrite decide_False by naive_solver. by rewrite <-(remove_txn_id t q) at 1.
  - rewrite decide_True by done. simpl. f_equal. by apply IH.
Qed.

Lemma grant_reads_conc hs q :
  grant_reads hs (as_waiter <$> q) =
  (hs ++ (leading_reads q).*1, as_waiter <$> drop (length (leading_reads q)) q).
Proof.
  revert hs. induction q as [|[x []] q IH]; intros hs; simpl; [by rewrite app_nil_r| |].
  - rewrite IH. by rewrite <-app_assoc.
  - by rewrite app_nil_r.
Qed.

(** Those who get the lock when the holder [t] leaves. *)
Definition new_holders (t : TxnId) (q : list (TxnId * KeyType)) : list TxnId :=
  if decide (remove_txn t (granted q) = []) then (granted (remove_txn t q)).*1 else [].

Lemma release_conc q t :
  NoDup q.*1 → t ∈ (granted q).*1 →
  Release (conc q) t = (conc (remove_txn t q), new_holders t q).
Proof.
  intros Hnd Ht. unfold Release. rewrite decide_True by done. simpl (holders_ _).
  assert (NoDup (granted q).*1) as Hndg.
  { rewrite <-(granted_waiting q), fmap_app, NoDup_app in Hnd. naive_solver. }
  rewrite erase_first_remove by done. unfold new_holders.
  destruct (decide (remove_txn t (granted q) = [])) as [Hr|Hr].
  - rewrite decide_False by (rewrite Hr; auto). rewrite Hr; simpl.
    assert (remove_txn t q = waiting q) as -> by by rewrite remove_granted, Hr.
    destruct (waiting q) as [|[x []] w] eqn:Ew; [done| |done].
    simpl. rewrite grant_reads_conc. simpl. done.
  - rewrite decide_True by by intros ?%fmap_nil_inv.
    destruct (granted_remove_holders t q Hnd Ht Hr) as [Hg Hw].
    unfold conc. rewrite Hg, Hw. f_equal. f_equal.
    rewrite remove_granted by done. destruct q as [|[x []] q]; [done| |].
    + simpl (mode _). destruct (remove_txn t (granted ((x, READ) :: q))) as [|[y ty] r] eqn:E; [done|].
      assert ((y, ty) ∈ granted ((x, READ) :: q)) as Hin.
      { apply (elem_of_remove_txn t). rewrite E. left. }
      pose proof (leading_reads_all ((x, READ) :: q)) as Hall. rewrite Forall_forall in Hall.
      apply Hall in Hin. simpl in Hin. by subst.
    + simpl in Ht. apply list_elem_of_singleton in Ht as ->. destruct Hr.
      unfold remove_txn. simpl. by rewrite filter_cons, decide_False by naive_solver.
Qed.

(** ** The simulation *)

Section Simulation.
Implicit Types (t : TxnId) (k : KeyReplica) (s : lock_spec) (Q : string → list (Z * KeyType)).

Definition blocked Q t k : Prop := t ∉ (granted (Q k)).*1.

#[local] Instance blocked_dec Q t k : Decision (blocked Q t k).
Proof. unfold blocked. apply _. Defined.

Record info_ok Q t (i : TxnInfo) (n : Z) : Prop := {
  ok_nodup : NoDup (info_keys i);
  ok_keys k : k ∈ info_keys i ↔ t ∈ (Q k).*1;
  ok_waiting : num_waiting_for i = (n + Z.of_nat (length (filter (blocked Q t) (info_keys i))))%Z
}.

Definition infos_ok (I : gmap Z TxnInfo) Q (U : gmap Z Z) : Prop :=
  ∀ t, option_Forall2 (info_ok Q t) (I !! t) (U !! t).

Definition table_ok (lt : gmap string LockState) Q : Prop := ∀ k, lock_state lt k = conc (Q k).

Definition rma_rel (l : RMALockManager) s : Prop :=
  spec_wf s ∧ table_ok (lock_table_ l) (queue_of s) ∧
  infos_ok (txn_info_ l) (queue_of s) (unarrived s).

Lemma info_ok_ext Q Q' t i n :
  (∀ k, t ∈ (Q k).*1 ↔ t ∈ (Q' k).*1) →
  (∀ k, t ∈ (granted (Q k)).*1 ↔ t ∈ (granted (Q' k)).*1) →
  info_ok Q t i n → info_ok Q' t i n.
Proof.
  intros Hq Hg [Hnd Hks Hw]. split; [done| |].
  - intros k. by rewrite Hks.
  - rewrite Hw. do 3 f_equal. apply list_filter_iff. intros k. unfold blocked. by rewrite Hg.
Qed.

(** [ready], on the queues and the counters of missing requests. *)
Definition readyQ Q (U : gmap Z Z) t : Prop :=
  U !! t = Some 0%Z ∧ ∀ k, t ∈ (Q k).*1 → t ∈ (granted (Q k)).*1.

Lemma info_readyQ Q U t i n :
  (0 ≤ n)%Z → U !! t = Some n → info_ok Q t i n → is_ready i = true ↔ readyQ Q U t.
Proof.
  intros Hn Hu [_ Hks Hw]. unfold is_ready, readyQ. rewrite bool_decide_eq_true, Hw, Hu. split.
  - intros H0. assert (n = 0%Z) as -> by lia. split; [done|]. intros k Hk%Hks.
    destruct (decide (t ∈ (granted (Q k)).*1)) as [|Hng]; [done|].
    assert (k ∈ filter (blocked Q t) (info_keys i)) as Hin by by apply list_elem_of_filter.
    destruct (filter _ _); [set_solver|simpl in *; lia].
  - intros [[= ->] Hg]. rewrite filter_none; [done|]. intros k Hk%Hks Hb. by apply Hb, Hg.
Qed.

Lemma info_ready s t i n :
  spec_wf s → unarrived s !! t = Some n → info_ok (queue_of s) t i n →
  is_ready i = bool_decide (ready s t).
Proof.
  intros Hwf Hu Hok. apply eq_true_iff_eq. rewrite bool_decide_eq_true, ready_queue_of.
  eapply info_readyQ; [|done..]. by eapply wf_unarrived.
Qed.

Lemma infos_ok_lookup I Q U t n :
  infos_ok I Q U → U !! t = Some n → ∃ i, I !! t = Some i ∧ info_ok Q t i n.
Proof. intros HI Hu. specialize (HI t). rewrite Hu in HI. inversion HI; eauto. Qed.

Lemma table_ok_insert lt Q Q' k q :
  table_ok lt Q → Q' k = q → (∀ k', k' ≠ k → Q' k' = Q k') → table_ok (<[k := conc q]> lt) Q'.
Proof.
  intros Ht Hk Hne k'. unfold lock_state. destruct (decide (k' = k)) as [->|Hn].
  - by rewrite lookup_insert_eq, Hk.
  - rewrite lookup_insert_ne, Hne by done. apply Ht.
Qed.

(** One round of the loop of [AcquireLocks]. *)
Lemma acquire_lock_ok s t m n lt nl i I k ty :
  table_ok lt (queue_of s) → infos_ok (<[t := i]> I) (queue_of s) (unarrived s) →
  unarrived s !! t = Some n → t ∉ (queue_of s k).*1 →
  let s' := spec_acquire s t m [(k, ty)] in
  let '(lt', _, i') := acquire_lock t (lt, nl, i) (k, ty) in
  table_ok lt' (queue_of s') ∧ infos_ok (<[t := i']> I) (queue_of s') (unarrived s').
Proof.
  intros Ht HI Hu Hk s'. unfold acquire_lock.
  assert (∀ k', k' ≠ k → queue_of s' k' = queue_of s k') as Hother.
  { intros k' Hne. unfold s'. rewrite queue_of_acquire, new_entries_nil, app_nil_r; set_solver. }
  assert (queue_of s' k = queue_of s k ++ [(t, ty)]) as Hself.
  { unfold s'. rewrite queue_of_acquire. f_equal.
    apply new_entries_singleton; [apply NoDup_singleton|set_solver]. }
  rewrite !(Ht k), acquire_conc. split; [by eapply table_ok_insert|].
  pose proof (HI t) as Hit. rewrite lookup_insert_eq, Hu in Hit.
  inversion Hit as [?? [Hnd Hks Hw]|]; subst. intros t'. simpl (unarrived _). rewrite Hu; simpl.
  destruct (decide (t' = t)) as [->|Hne].
  - rewrite !lookup_insert_eq. constructor.
    assert (k ∉ info_keys i) as Hki by (by rewrite Hks).
    assert (filter (blocked (queue_of s') t) (info_keys i) =
            filter (blocked (queue_of s) t) (info_keys i)) as Hf.
    { apply filter_ext_in. intros k' Hk'. unfold blocked. rewrite Hother; [done|]. set_solver. }
    assert (blocked (queue_of s') t k ↔ ¬ grantable (queue_of s k) ty) as Hb.
    { unfold blocked. by rewrite Hself, granted_snoc_new. }
    split.
    + case_bool_decide; simpl; (apply NoDup_app; split_and!; [done|set_solver|apply NoDup_singleton]).
    + intros k'. case_bool_decide; simpl; rewrite elem_of_app, list_elem_of_singleton, Hks;
        (destruct (decide (k' = k)) as [->|Hk']; [rewrite Hself, fmap_app|rewrite Hother by done]; set_solver).
    + case_bool_decide; simpl; rewrite filter_app, length_app, Hf, filter_cons, filter_nil, Hw.
      * rewrite decide_False by naive_solver. simpl; lia.
      * rewrite decide_True by naive_solver. simpl; lia.
  - rewrite !lookup_insert_ne by done. specialize (HI t'). rewrite lookup_insert_ne in HI by done.
    inversion HI as [?? Hok|]; constructor. eapply info_ok_ext, Hok; intros k'.
    + unfold s'. rewrite queue_of_acquire, fmap_app, elem_of_app, new_entries_fst. naive_solver.
    + unfold s'. rewrite queue_of_acquire. split; [apply granted_app_l|].
      apply granted_app_inv. rewrite new_entries_fst. naive_solver.
Qed.

Lemma spec_acquire_cons s t m r reqs :
  spec_acquire (spec_acquire s t m [r]) t m reqs = spec_acquire s t m (r :: reqs).
Proof.
  unfold spec_acquire; simpl. f_equal. rewrite lookup_insert_eq, insert_insert_eq. simpl.
  f_equal. lia.
Qed.

(** The loop of [AcquireLocks], for any round that enters one request. *)
Lemma acquire_loop_gen {St} (step : St * Z * TxnInfo → string * KeyType → St * Z * TxnInfo)
    (tab : St → (string → list (Z * KeyType)) → Prop) t m I :
  (∀ s n st nl i k ty,
    tab st (queue_of s) → infos_ok (<[t := i]> I) (queue_of s) (unarrived s) →
    unarrived s !! t = Some n → t ∉ (queue_of s k).*1 →
    let s' := spec_acquire s t m [(k, ty)] in
    let '(st', _, i') := step (st, nl, i) (k, ty) in
    tab st' (queue_of s') ∧ infos_ok (<[t := i']> I) (queue_of s') (unarrived s')) →
  ∀ reqs s n st nl i,
  tab st (queue_of s) → infos_ok (<[t := i]> I) (queue_of s) (unarrived s) →
  unarrived s !! t = Some n → NoDup reqs.*1 →
  Forall (λ r, t ∉ (queue_of s r.1).*1) reqs →
  let s' := spec_acquire s t m reqs in
  let '(st', _, i') := foldl step (st, nl, i) reqs in
  tab st' (queue_of s') ∧ infos_ok (<[t := i']> I) (queue_of s') (unarrived s').
Proof.
  intros Hround. induction reqs as [|[k ty] reqs IH]; intros s n st nl i Ht HI Hu Hnd Hfr.
  { simpl. split; [done|]. intros t'. simpl. specialize (HI t').
    destruct (decide (t' = t)) as [->|]; [|by rewrite (lookup_insert_ne (unarrived s))].
    rewrite lookup_insert_eq in HI |- *. rewrite lookup_insert_eq, Hu.
    rewrite Hu in HI. simpl. by rewrite Z.sub_0_r. }
  rewrite fmap_cons in Hnd. apply NoDup_cons in Hnd as [Hk Hnd].
  apply Forall_cons in Hfr as [Hf Hfr].
  pose proof (Hround s n st nl i k ty Ht HI Hu Hf) as Hstep.
  cbv zeta in *. rewrite <-spec_acquire_cons.
  change (foldl step (st, nl, i) ((k, ty) :: reqs)) with (foldl step (step (st, nl, i) (k, ty)) reqs).
  destruct (step (st, nl, i) (k, ty)) as [[st' nl'] i']. destruct Hstep as [Ht' HI'].
  eapply IH; [done|done|simpl; by rewrite lookup_insert_eq|done|].
  rewrite Forall_forall in Hfr |- *. intros r Hr.
  rewrite queue_of_acquire, new_entries_nil, app_nil_r; [by apply Hfr|].
  simpl. rewrite list_elem_of_singleton. intros Hrk. apply Hk. simpl. rewrite <-Hrk.
  by apply (list_elem_of_fmap_2 fst).
Qed.

(** A whole call of [AcquireLocks]. *)
Lemma acquire_call_gen {St} (step : St * Z * TxnInfo → string * KeyType → St * Z * TxnInfo)
    (tab : St → (string → list (Z * KeyType)) → Prop) t m reqs s st nl I :
  (∀ s n st nl i k ty,
    tab st (queue_of s) → infos_ok (<[t := i]> I) (queue_of s) (unarrived s) →
    unarrived s !! t = Some n → t ∉ (queue_of s k).*1 →
    let s' := spec_acquire s t m [(k, ty)] in
    let '(st', _, i') := step (st, nl, i) (k, ty) in
    tab st' (queue_of s') ∧ infos_ok (<[t := i']> I) (queue_of s') (unarrived s')) →
  spec_wf s → tab st (queue_of s) → infos_ok I (queue_of s) (unarrived s) → can_acquire s t m reqs →
  let s' := spec_acquire s t m reqs in
  let '(st', _, i') :=
    foldl step (st, nl, default {| num_waiting_for := m; info_keys := [] |} (I !! t)) reqs in
  tab st' (queue_of s') ∧ infos_ok (<[t := i']> I) (queue_of s') (unarrived s') ∧
  (if is_ready i' then ACQUIRED else WAITING) = (if decide (ready s' t) then ACQUIRED else WAITING).
Proof.
  intros Hround Hwf Ht HI Hcan s'. pose proof (spec_wf_acquire _ _ _ _ Hwf Hcan) as Hwf'. fold s' in Hwf'.
  destruct Hcan as (_ & _ & Hnd & Hfr & _). set (i := default _ (I !! t)).
  assert (infos_ok (<[t := i]> I) (queue_of s) (unarrived (spec_acquire s t m []))) as HI0.
  { intros t'. simpl. specialize (HI t'). destruct (decide (t' = t)) as [->|]; [|by rewrite !lookup_insert_ne].
    rewrite !lookup_insert_eq. constructor. unfold i. inversion HI as [?? Hok HI1 HI2|HI1 HI2]; simpl.
    - by rewrite Z.sub_0_r.
    - rewrite Z.sub_0_r. split; simpl; [constructor| |lia]. intros k. split; [set_solver|].
      intros Hin. apply wf_active in Hin as [? ?]; [congruence|done]. }
  pose proof (acquire_loop_gen step tab t m I Hround reqs (spec_acquire s t m []) _ st nl i
    Ht HI0 (lookup_insert_eq _ _ _) Hnd Hfr) as Hloop. cbv zeta in Hloop.
  assert (spec_acquire (spec_acquire s t m []) t m reqs = s') as Heq.
  { unfold s', spec_acquire; simpl. f_equal. rewrite lookup_insert_eq, insert_insert_eq. simpl. f_equal. lia. }
  rewrite Heq in Hloop. destruct (foldl _ _ _) as [[st' nl'] i']. destruct Hloop as [Ht' HI'].
  split; [done|]. split; [done|].
  destruct (infos_ok_lookup _ _ _ t _ HI' (lookup_insert_eq _ _ _)) as (i2 & Hi2 & Hok).
  rewrite lookup_insert_eq in Hi2. injection Hi2 as <-.
  rewrite (info_ready s' t i' _ Hwf' (lookup_insert_eq _ _ _) Hok).
  by case_bool_decide; case_decide.
Qed.

Lemma acquire_keys_requests txn a :
  foldl (acquire_key txn) a (keys txn) = foldl (acquire_lock (txn_id txn)) a (requests txn).
Proof.
  unfold requests. generalize (keys txn). intros ks. revert a.
  induction ks as [|kv ks IH]; intros a; [done|]. simpl. unfold acquire_key at 2.
  rewrite filter_cons. destruct (skip_key txn kv) eqn:E.
  - rewrite decide_False by done. apply IH.
  - rewrite decide_True by done. simpl. apply IH.
Qed.

Lemma rma_acquire_ok l s txn :
  rma_rel l s → can_acquire s (txn_id txn) (num_required_locks txn) (requests txn) →
  let s' := spec_acquire s (txn_id txn) (num_required_locks txn) (requests txn) in
  rma_rel (AcquireLocks l txn).1 s' ∧
  (AcquireLocks l txn).2 = if decide (ready s' (txn_id txn)) then ACQUIRED else WAITING.
Proof.
  intros (Hwf & Ht & HI) Hcan s'.
  pose proof (acquire_call_gen (acquire_lock (txn_id txn)) table_ok (txn_id txn) (num_required_locks txn) (requests txn)
    s (lock_table_ l) (num_locked_keys_ l) (txn_info_ l)
    (λ s n lt nl i k ty, acquire_lock_ok s (txn_id txn) (num_required_locks txn) n lt nl i (txn_info_ l) k ty)
    Hwf Ht HI Hcan) as Hcall.
  cbv zeta in Hcall. fold s' in Hcall. unfold AcquireLocks. rewrite acquire_keys_requests.
  destruct (foldl _ _ _) as [[lt' nl'] i']. destruct Hcall as (Ht' & HI' & Hr). split; [|done].
  split_and!; [by apply spec_wf_acquire|done|done].
Qed.

(** *** Releasing *)

Lemma new_holders_spec q t t' :
  NoDup q.*1 → t ∈ (granted q).*1 → t' ≠ t →
  t' ∈ new_holders t q ↔ t' ∈ (granted (remove_txn t q)).*1 ∧ t' ∉ (granted q).*1.
Proof.
  intros Hnd Ht Hne. unfold new_holders. case_decide as Hr.
  - split; [|naive_solver]. intros Hin. split; [done|]. intros Hg.
    assert (t' ∈ (remove_txn t (granted q)).*1) as Hx by by apply remove_txn_fst.
    rewrite Hr in Hx. set_solver.
  - destruct (granted_remove_holders t q Hnd Ht Hr) as [-> _].
    rewrite remove_txn_fst. set_solver.
Qed.

Lemma new_holders_NoDup q t : NoDup q.*1 → NoDup (new_holders t q).
Proof.
  intros Hnd. unfold new_holders. case_decide; [|constructor].
  assert (NoDup (remove_txn t q).*1) as Hnd'.
  { eapply sublist_NoDup; [done|]. apply fmap_sublist, sublist_filter. }
  rewrite <-(granted_waiting (remove_txn t q)), fmap_app, NoDup_app in Hnd'. naive_solver.
Qed.

Lemma new_holders_queued q t t' : t' ∈ new_holders t q → t' ∈ q.*1 ∧ t' ≠ t.
Proof.
  unfold new_holders. case_decide; [|set_solver].
  intros Hin%granted_elem. by rewrite remove_txn_fst in Hin.
Qed.

Lemma grant_loop gs I res :
  NoDup gs → (∀ t, t ∈ gs → is_Some (I !! t)) →
  ∃ I' res', rfoldl grant (I, res) gs = Ok (I', res') ∧
    (∀ t, I' !! t = if decide (t ∈ gs) then one_less <$> I !! t else I !! t) ∧
    (∀ t, t ∈ res' ↔ t ∈ res ∨ (t ∈ gs ∧ ∃ i, I' !! t = Some i ∧ is_ready i = true)).
Proof.
  revert I res. induction gs as [|x gs IH]; intros I res Hnd Hsome.
  { exists I, res. split_and!; [done|done|]. set_solver. }
  apply NoDup_cons in Hnd as [Hx Hnd]. destruct (Hsome x) as [i Hi]; [by left|].
  simpl. rewrite Hi; simpl.
  set (res1 := if is_ready (one_less i) then res ++ [x] else res).
  destruct (IH (<[x := one_less i]> I) res1) as (I' & res' & Hrun & HI' & Hres); [done| |].
  { intros t Ht. rewrite lookup_insert_ne by set_solver. apply Hsome. by right. }
  exists I', res'. split; [done|].
  assert (I' !! x = Some (one_less i)) as HIx.
  { rewrite HI', decide_False by done. by rewrite lookup_insert_eq. }
  split.
  - intros t. destruct (decide (t = x)) as [->|Hne].
    + rewrite decide_True by left. by rewrite HIx, Hi.
    + rewrite HI', lookup_insert_ne by done.
      destruct (decide (t ∈ gs)); [rewrite decide_True by (by right); done|].
      rewrite decide_False; [done|]. set_solver.
  - intros t. rewrite Hres. unfold res1. rewrite elem_of_cons.
    destruct (is_ready (one_less i)) eqn:Er; rewrite ?elem_of_app, ?list_elem_of_singleton.
    + naive_solver.
    + split; [naive_solver|]. intros [?|([->|?] & i' & ? & ?)]; [by left|congruence|].
      right. eauto.
Qed.

(** The queues after [t] left lock [k], and after it left the locks [ks]. *)
Definition leave t (ks : list string) Q : string → list (Z * KeyType) := λ k,
  if decide (k ∈ ks) then remove_txn t (Q k) else Q k.

Record release_inv t (I : gmap Z TxnInfo) (lt : gmap string LockState) Q (U : gmap Z Z) : Prop := {
  ri_table : table_ok lt Q;
  ri_infos t' : t' ≠ t → option_Forall2 (info_ok Q t') (I !! t') (U !! t');
  ri_nodup k : NoDup (Q k).*1;
  ri_active k t' : t' ∈ (Q k).*1 → is_Some (U !! t');
  ri_unarrived t' n : U !! t' = Some n → (0 ≤ n)%Z
}.

Lemma info_ok_leave Q t t' k i n :
  NoDup (Q k).*1 → t ∈ (granted (Q k)).*1 → t' ≠ t → info_ok Q t' i n →
  info_ok (leave t [k] Q) t' (if decide (t' ∈ new_holders t (Q k)) then one_less i else i) n.
Proof.
  intros Hnd Ht Hne [Hni Hks Hw].
  pose proof (new_holders_spec (Q k) t t' Hnd Ht Hne) as Hnh.
  assert (∀ k', k' ∈ info_keys i ↔ t' ∈ (leave t [k] Q k').*1) as Hks'.
  { intros k'. rewrite Hks. unfold leave. case_decide; [|done]. rewrite remove_txn_fst. naive_solver. }
  case_decide as Hin.
  - apply Hnh in Hin as [Hg Hng]. split; [done|done|]. simpl. rewrite Hw.
    rewrite (length_filter_drop_one (blocked Q t') (blocked (leave t [k] Q) t') _ k);
      [lia|done| |done|].
    + apply Hks. apply granted_elem in Hg. rewrite remove_txn_fst in Hg. naive_solver.
    + intros k'. unfold blocked, leave. case_decide as Hk; [|set_solver].
      apply list_elem_of_singleton in Hk as ->. naive_solver.
  - split; [done|done|]. rewrite Hw. do 3 f_equal. apply list_filter_iff. intros k'.
    unfold blocked, leave. case_decide as Hk; [|done]. apply list_elem_of_singleton in Hk as ->.
    pose proof (granted_remove t t' (Q k) Hne). naive_solver.
Qed.

Lemma readyQ_leave Q U t t' k :
  NoDup (Q k).*1 → t ∈ (granted (Q k)).*1 → t' ≠ t →
  readyQ (leave t [k] Q) U t' ∧ ¬ readyQ Q U t' ↔
  readyQ (leave t [k] Q) U t' ∧ t' ∈ new_holders t (Q k).
Proof.
  intros Hnd Ht Hne. rewrite new_holders_spec by done. unfold readyQ, leave.
  split; intros [[Hu Hg] Hn]; (split; [done|]).
  - destruct (decide (t' ∈ (granted (Q k)).*1)) as [Hgr|Hgr].
    + destruct Hn. split; [done|]. intros k'. specialize (Hg k'). case_decide as Hk; [|done].
      apply list_elem_of_singleton in Hk as ->. done.
    + split; [|done]. pose proof (Hg k) as Hgk. rewrite decide_True in Hgk by set_solver.
      apply Hgk.
      rewrite remove_txn_fst. split; [|done].
      destruct (decide (t' ∈ (Q k).*1)) as [|Hnq]; [done|]. destruct Hn. split; [done|].
      intros k'. specialize (Hg k'). case_decide as Hk; [|done].
      apply list_elem_of_singleton in Hk as ->. done.
  - intros [_ Hg']. destruct Hn as [Hn1 Hn2]. apply Hn2, Hg'.
    apply granted_elem, remove_txn_fst in Hn1. naive_solver.
Qed.

(** One round of the loop of [ReleaseLocks]. *)
Lemma release_lock_ok t l res Q U k :
  release_inv t (txn_info_ l) (lock_table_ l) Q U → t ∈ (granted (Q k)).*1 →
  ∃ l' res', release_lock t (l, res) k = Ok (l', res') ∧
    release_inv t (txn_info_ l') (lock_table_ l') (leave t [k] Q) U ∧
    ∀ t', t' ∈ res' ↔ t' ∈ res ∨ (t' ≠ t ∧ readyQ (leave t [k] Q) U t' ∧ ¬ readyQ Q U t').
Proof.
  intros [Ht HI Hnd Hact Hun] Hg. pose proof (Ht k) as Hst. unfold lock_state in Hst.
  unfold release_lock. destruct (lock_table_ l !! k) as [st|]; simpl in Hst.
  2:{ exfalso. apply granted_elem in Hg. destruct (Q k) as [|[x []] q]; set_solver. }
  subst st. rewrite (release_conc (Q k) t) by done.
  destruct (grant_loop (new_holders t (Q k)) (txn_info_ l) res) as (I' & res' & -> & HI' & Hres).
  { by apply new_holders_NoDup. }
  { intros t' [Hq Hne]%new_holders_queued. specialize (HI t' Hne).
    destruct (Hact k t' Hq) as [n Hn]. rewrite Hn in HI. inversion HI; eauto. }
  eexists _, res'. split; [reflexivity|]. cbn [txn_info_ lock_table_].
  assert (∀ t', t' ≠ t → option_Forall2 (info_ok (leave t [k] Q) t') (I' !! t') (U !! t')) as HIok.
  { intros t' Hne. rewrite HI'. specialize (HI t' Hne).
    inversion HI as [i n Hok|]; [|case_decide; constructor].
    pose proof (info_ok_leave Q t t' k i n (Hnd k) Hg Hne Hok). case_decide; by constructor. }
  split; [split|].
  - eapply table_ok_insert; [done|unfold leave; by rewrite decide_True by set_solver|].
    intros k' Hne. unfold leave. by rewrite decide_False by set_solver.
  - done.
  - intros k'. unfold leave. case_decide; [|done].
    eapply sublist_NoDup; [apply (Hnd k')|]. apply fmap_sublist, sublist_filter.
  - intros k' t'. unfold leave. case_decide; [rewrite remove_txn_fst|]; naive_solver.
  - done.
  - intros t'. rewrite Hres. apply or_iff_compat_l. split.
    + intros (Hin & i & Hi & Hr). pose proof (new_holders_queued _ _ _ Hin) as [_ Hne].
      split; [done|]. apply readyQ_leave; [done..|]. split; [|done].
      specialize (HIok t' Hne). rewrite Hi in HIok. inversion HIok as [? n Hok Hx Hn|].
      eapply info_readyQ; [| |exact Hok|exact Hr]; [|done]. by eapply Hun.
    + intros (Hne & Hr). apply readyQ_leave in Hr as [Hr Hin]; [|done..]. split; [done|].
      specialize (HIok t' Hne). destruct Hr as [Hu Hr]. rewrite Hu in HIok.
      inversion HIok as [i ? Hok Hx|]. exists i. split; [done|].
      eapply info_readyQ; [|exact Hu|exact Hok|done]. done.
Qed.

Lemma leave_cons t k ks Q k' :
  k ∉ ks → leave t ks (leave t [k] Q) k' = leave t (k :: ks) Q k'.
Proof.
  intros Hk. unfold leave. destruct (decide (k' = k)) as [->|Hne].
  - rewrite decide_False by done. by rewrite !decide_True by set_solver.
  - rewrite (decide_False (P := k' ∈ [k])) by set_solver.
    destruct (decide (k' ∈ ks)); [by rewrite decide_True by set_solver|].
    by rewrite decide_False by set_solver.
Qed.

Lemma readyQ_mono Q U t t' ks :
  t' ≠ t → readyQ Q U t' → readyQ (leave t ks Q) U t'.
Proof.
  intros Hne [Hu Hg]. split; [done|]. intros k'. unfold leave. case_decide; [|apply Hg].
  rewrite remove_txn_fst. intros [? _]. by apply granted_remove, Hg.
Qed.

Lemma readyQ_ext Q Q' U t : (∀ k, Q k = Q' k) → readyQ Q U t ↔ readyQ Q' U t.
Proof. intros HQ. unfold readyQ. by setoid_rewrite HQ. Qed.

Lemma release_inv_ext t I lt Q Q' U :
  (∀ k, Q k = Q' k) → release_inv t I lt Q U → release_inv t I lt Q' U.
Proof.
  intros HQ [Ht HI Hnd Hact Hun]. split; try done.
  - intros k. rewrite <-HQ. apply Ht.
  - intros t' Hne. specialize (HI t' Hne). inversion HI as [i n Hok|]; constructor.
    eapply info_ok_ext, Hok; intros k; by rewrite HQ.
  - intros k. rewrite <-HQ. apply Hnd.
  - intros k t'. rewrite <-HQ. apply Hact.
Qed.

Lemma release_inv_dec t I lt Q U t' :
  release_inv t I lt Q U → t' ≠ t → readyQ Q U t' ∨ ¬ readyQ Q U t'.
Proof.
  intros [_ HI _ _ Hun] Hne. specialize (HI t' Hne). inversion HI as [i n Hok Hi Hn|Hi Hn].
  - rewrite <-(info_readyQ Q U t' i n); [by destruct (is_ready i); auto| |done..]. by eapply Hun.
  - right. intros [? _]. congruence.
Qed.

(** The loop of [ReleaseLocks], for any round that takes [t] out of one lock. *)
Lemma release_loop_gen {St} (step : St * list TxnId → string → result (St * list TxnId))
    (inv : St → (string → list (Z * KeyType)) → Prop) t U :
  (∀ st Q Q', (∀ k, Q k = Q' k) → inv st Q → inv st Q') →
  (∀ st Q t', inv st Q → t' ≠ t → readyQ Q U t' ∨ ¬ readyQ Q U t') →
  (∀ st res Q k, inv st Q → t ∈ (granted (Q k)).*1 →
    ∃ st' res', step (st, res) k = Ok (st', res') ∧ inv st' (leave t [k] Q) ∧
      ∀ t', t' ∈ res' ↔ t' ∈ res ∨ (t' ≠ t ∧ readyQ (leave t [k] Q) U t' ∧ ¬ readyQ Q U t')) →
  ∀ ks st res Q, inv st Q → NoDup ks → (∀ k, k ∈ ks → t ∈ (granted (Q k)).*1) →
  ∃ st' res', rfoldl step (st, res) ks = Ok (st', res') ∧ inv st' (leave t ks Q) ∧
    ∀ t', t' ∈ res' ↔ t' ∈ res ∨ (t' ≠ t ∧ readyQ (leave t ks Q) U t' ∧ ¬ readyQ Q U t').
Proof.
  intros Hext Hdec Hround. induction ks as [|k ks IH]; intros st res Q Hinv Hnd Hg.
  { exists st, res. split_and!; [done| |].
    - eapply Hext, Hinv. intros k. unfold leave. by rewrite decide_False by set_solver.
    - intros t'. rewrite (readyQ_ext (leave t [] Q) Q); [naive_solver|].
      intros k. unfold leave. by rewrite decide_False by set_solver. }
  apply NoDup_cons in Hnd as [Hk Hnd].
  destruct (Hround st res Q k Hinv) as (st1 & res1 & Hstep & Hinv1 & Hres1).
  { apply Hg. by left. }
  destruct (IH st1 res1 _ Hinv1 Hnd) as (st2 & res2 & Hrun & Hinv2 & Hres2).
  { intros k' Hk'. unfold leave. rewrite decide_False by set_solver. apply Hg. by right. }
  exists st2, res2. cbn [rfoldl]. rewrite Hstep. split; [done|]. split.
  - eapply Hext, Hinv2. intros. by apply leave_cons.
  - intros t'. rewrite Hres2, Hres1.
    rewrite <-(readyQ_ext (leave t ks (leave t [k] Q)) (leave t (k :: ks) Q))
      by (intros; by apply leave_cons).
    pose proof (readyQ_mono Q U t t' [k]) as Hm1.
    pose proof (readyQ_mono (leave t [k] Q) U t t' ks) as Hm2.
    destruct (decide (t' = t)); [naive_solver|].
    split; [naive_solver|]. intros [?|(_ & Hr & Hn)]; [by left; left|].
    destruct (Hdec st1 _ t' Hinv1); naive_solver.
Qed.

Lemma release_loop_ok t ks l res Q U :
  release_inv t (txn_info_ l) (lock_table_ l) Q U →
  NoDup ks → (∀ k, k ∈ ks → t ∈ (granted (Q k)).*1) →
  ∃ l' res', rfoldl (release_lock t) (l, res) ks = Ok (l', res') ∧
    release_inv t (txn_info_ l') (lock_table_ l') (leave t ks Q) U ∧
    ∀ t', t' ∈ res' ↔ t' ∈ res ∨ (t' ≠ t ∧ readyQ (leave t ks Q) U t' ∧ ¬ readyQ Q U t').
Proof.
  apply (release_loop_gen (release_lock t) (λ l Q, release_inv t (txn_info_ l) (lock_table_ l) Q U)).
  - intros l' Q1 Q2. apply release_inv_ext.
  - intros l' Q' t' Hinv. by eapply release_inv_dec.
  - intros l' res' Q' k. apply release_lock_ok.
Qed.

(** What leaving all of its locks means for the queues and the other transactions. *)
Lemma leave_all s t i :
  (∀ k, k ∈ info_keys i ↔ t ∈ (queue_of s k).*1) →
  ∀ k, leave t (info_keys i) (queue_of s) k = queue_of (spec_release s t) k.
Proof.
  intros Hks k. rewrite queue_of_release. unfold leave. case_decide as Hk; [done|].
  symmetry. apply remove_txn_id. by rewrite <-Hks.
Qed.

Lemma leave_unblocked s t Q t' :
  (∀ k, Q k = queue_of (spec_release s t) k) →
  (t' ≠ t ∧ readyQ Q (unarrived s) t' ∧ ¬ readyQ (queue_of s) (unarrived s) t') ↔ t' ∈ spec_unblocked s t.
Proof.
  intros HQ. rewrite elem_of_spec_unblocked, (readyQ_ext _ _ _ _ HQ), !ready_queue_of. unfold readyQ.
  simpl (unarrived _). destruct (decide (t' = t)) as [->|Hne].
  - rewrite lookup_delete_eq. set_solver.
  - rewrite lookup_delete_ne by done. set_solver.
Qed.

Lemma rma_release_ok l s t :
  rma_rel l s → ready s t →
  ∃ l' out, ReleaseLocks l t = Ok (l', out) ∧ rma_rel l' (spec_release s t) ∧
    NoDup out ∧ ∀ t', t' ∈ out ↔ t' ∈ spec_unblocked s t.
Proof.
  intros (Hwf & Ht & HI) Hr. pose proof (proj1 (ready_queue_of s t) Hr) as [Hu Hg].
  destruct (infos_ok_lookup _ _ _ _ _ HI Hu) as (i & Hi & [Hnd Hks Hw]).
  assert (release_inv t (txn_info_ l) (lock_table_ l) (queue_of s) (unarrived s)) as Hinv.
  { split; [done|by intros|apply Hwf..]. }
  destruct (release_loop_ok t (info_keys i) l [] _ _ Hinv Hnd) as (l' & res & Hrun & Hinv' & Hres).
  { intros k Hk. by apply Hg, Hks. }
  unfold ReleaseLocks. rewrite Hi, Hrun. eexists _, _. split; [reflexivity|].
  pose proof (leave_all s t i Hks) as Hq.
  apply (release_inv_ext _ _ _ _ _ _ Hq) in Hinv' as [Ht' HI' _ _ _]. split_and!.
  - split_and!; [by apply spec_wf_release|done|]. intros t'. simpl.
    destruct (decide (t' = t)) as [->|Hne]; [rewrite !lookup_delete_eq; constructor|].
    rewrite !lookup_delete_ne by done. by apply HI'.
  - apply sort_unique_NoDup.
  - intros t'. rewrite elem_of_sort_unique, Hres. rewrite (leave_unblocked s t _ t' Hq). set_solver.
Qed.

End Simulation.

#[global] Instance rma_correct : LockManagerCorrect RMALockManager.
Proof.
  refine {| lm_rel := rma_rel |}.
  - split_and!; [apply spec_wf_init|done|]. intros t. constructor.
  - apply rma_acquire_ok.
  - apply rma_release_ok.
Defined.

(** ** The counter of locked keys *)

(** An unlocked entry has neither holders nor waiters. *)
Definition lock_wf (st : LockState) : Prop :=
  mode st = UNLOCKED → holders_ st = [] ∧ waiter_queue_ st = [].

Definition locked_count (lt : gmap string LockState) : Z :=
  Z.of_nat (size (filter (λ e, mode e.2 ≠ UNLOCKED) lt)).

Definition count_inv (l : RMALockManager) : Prop :=
  map_Forall (λ _ st, lock_wf st) (lock_table_ l) ∧
  num_locked_keys_ l = u32 (locked_count (lock_table_ l)).

Lemma locked_count_insert lt k st :
  locked_count (<[k := st]> lt) =
  (locked_count lt + (if decide (mode st = UNLOCKED) then 0 else 1)
                   - (if decide (mode (lock_state lt k) = UNLOCKED) then 0 else 1))%Z.
Proof.
  unfold locked_count, lock_state. rewrite <-insert_delete_eq.
  assert (locked_count lt = locked_count (delete k lt) +
    (if decide (mode (default empty_lock (lt !! k)) = UNLOCKED) then 0 else 1))%Z as Hold.
  { unfold locked_count. destruct (lt !! k) as [st0|] eqn:E; simpl.
    - rewrite <-(insert_delete_id lt k st0) at 1 by done. rewrite map_filter_insert.
      simpl. destruct (decide (mode st0 = UNLOCKED)) as [Hm|Hm].
      + rewrite decide_False by auto. rewrite delete_delete_eq. lia.
      + rewrite decide_True by done. rewrite map_size_insert_None; [lia|].
        by rewrite map_lookup_filter, lookup_delete_eq.
    - rewrite delete_id by done. lia. }
  unfold locked_count in Hold. rewrite Hold. rewrite map_filter_insert. simpl.
  destruct (decide (mode st = UNLOCKED)) as [Hm|Hm].
  - rewrite decide_False by auto. rewrite delete_delete_eq. lia.
  - rewrite decide_True by done. rewrite map_size_insert_None; [lia|].
    by rewrite map_lookup_filter, lookup_delete_eq.
Qed.

Lemma u32_add x y : u32 (u32 x + y) = u32 (x + y).
Proof. unfold wrapu. apply Z.add_mod_idemp_l. lia. Qed.

Lemma lock_wf_state lt k : map_Forall (λ _ st, lock_wf st) lt → lock_wf (lock_state lt k).
Proof.
  intros Hall. unfold lock_state. destruct (lt !! k) as [st|] eqn:E; simpl; [by eapply Hall|done].
Qed.

Lemma acquire_lock_count t lt nl i r :
  map_Forall (λ _ st, lock_wf st) lt → nl = u32 (locked_count lt) →
  let '(lt', nl', _) := acquire_lock t (lt, nl, i) r in
  map_Forall (λ _ st, lock_wf st) lt' ∧ nl' = u32 (locked_count lt').
Proof.
  intros Hall ->. destruct r as [k ty]. unfold acquire_lock.
  assert (∀ st b, match ty with READ => AcquireReadLock (lock_state lt k) t
    | WRITE => AcquireWriteLock (lock_state lt k) t end = (st, b) → mode st ≠ UNLOCKED) as Hm.
  { intros st b. unfold AcquireReadLock, AcquireWriteLock.
    destruct ty; intros H; repeat case_match; simplify_eq/=; congruence. }
  destruct (match ty with READ => _ | WRITE => _ end) as [st b] eqn:E.
  specialize (Hm st b eq_refl). split.
  - apply map_Forall_insert_2; [|done]. by intros ?.
  - rewrite locked_count_insert. rewrite (decide_False (P := mode st = UNLOCKED)) by done.
    destruct (decide (mode (lock_state lt k) = UNLOCKED)) as [H0|H0].
    + rewrite decide_True by (split; congruence). rewrite u32_add. f_equal; lia.
    + rewrite decide_False by naive_solver. f_equal; lia.
Qed.

Lemma acquire_count_inv l txn : count_inv l → count_inv (AcquireLocks l txn).1.
Proof.
  intros [Hall Hn]. unfold AcquireLocks. rewrite acquire_keys_requests.
  generalize (default {| num_waiting_for := num_required_locks txn; info_keys := [] |}
    (txn_info_ l !! txn_id txn)). intros i.
  assert (∀ reqs lt nl i, map_Forall (λ _ st, lock_wf st) lt → nl = u32 (locked_count lt) →
    let '(lt', nl', _) := foldl (acquire_lock (txn_id txn)) (lt, nl, i) reqs in
    map_Forall (λ _ st, lock_wf st) lt' ∧ nl' = u32 (locked_count lt')) as Hloop.
  { induction reqs as [|r reqs IH]; intros lt nl i' Hlt Hnl; [done|].
    cbn [foldl]. pose proof (acquire_lock_count (txn_id txn) lt nl i' r Hlt Hnl) as Hs.
    destruct (acquire_lock _ _ _) as [[lt' nl'] i'']. destruct Hs. by apply IH. }
  specialize (Hloop (requests txn) _ _ i Hall Hn).
  destruct (foldl _ _ _) as [[lt' nl'] i']. destruct Hloop. by split.
Qed.

Lemma release_wf st t st' gs :
  lock_wf st → Release st t = (st', gs) →
  lock_wf st' ∧ (mode st = UNLOCKED → mode st' = UNLOCKED).
Proof.
  intros Hwf. unfold Release. case_decide as Hin.
  - assert (mode st ≠ UNLOCKED) as Hm.
    { intros Hm. destruct (Hwf Hm) as [Hh _]. rewrite Hh in Hin. set_solver. }
    case_decide as Hhs; [intros; simplify_eq/=; by split|].
    destruct (waiter_queue_ st) as [|[x []] ws] eqn:Ew; intros Heq.
    + simplify_eq/=. split; [|done]. intros _. split; [|done]. simpl.
      destruct (erase_first t (holders_ st)); [done|]. by destruct Hhs.
    + simplify_eq/=. by split.
    + destruct (grant_reads _ _). simplify_eq/=. by split.
    + simplify_eq/=. by split.
  - intros Heq. simplify_eq/=. split; [|done]. intros Hm. destruct (Hwf Hm) as [-> ->]. done.
Qed.

Lemma release_lock_count t l res k l' res' :
  count_inv l → release_lock t (l, res) k = Ok (l', res') → count_inv l'.
Proof.
  intros [Hall Hn]. unfold release_lock. destruct (lock_table_ l !! k) as [st|] eqn:E.
  2:{ intros [= <- <-]. done. }
  destruct (Release st t) as [st' gs] eqn:Er. destruct (rfoldl grant _ gs) as [[I r]|]; [|done].
  intros [= <- <-]. assert (lock_wf st) as Hst by by eapply Hall.
  destruct (release_wf _ _ _ _ Hst Er) as [Hwf' Hun]. split; cbn [lock_table_ num_locked_keys_].
  - by apply map_Forall_insert_2.
  - rewrite locked_count_insert.
    assert (lock_state (lock_table_ l) k = st) as -> by (unfold lock_state; by rewrite E).
    rewrite Hn. destruct (decide (mode st = UNLOCKED)) as [H0|H0].
    + rewrite decide_False by naive_solver. rewrite decide_True by auto. f_equal; lia.
    + destruct (decide (mode st' = UNLOCKED)) as [H1|H1].
      * rewrite decide_True by done. rewrite <-Z.add_opp_r, u32_add. f_equal; lia.
      * rewrite decide_False by naive_solver. f_equal; lia.
Qed.

Lemma release_count_inv l t l' out :
  count_inv l → ReleaseLocks l t = Ok (l', out) → count_inv l'.
Proof.
  intros Hc. unfold ReleaseLocks. destruct (txn_info_ l !! t) as [i|]; [|by intros [= <- <-]].
  destruct (rfoldl (release_lock t) _ _) as [[l1 res]|] eqn:E; [|done]. intros [= <- <-].
  assert (count_inv l1) as [? ?]; [|by split].
  revert E. generalize (@nil TxnId). generalize (info_keys i). intros ks.
  revert l Hc. induction ks as [|k ks IH]; intros l Hc r; cbn [rfoldl]; [by intros [= <- <-]|].
  destruct (release_lock t (l, r) k) as [[l2 r2]|] eqn:E2; [|done].
  apply IH. by eapply release_lock_count.
Qed.


(** ** Properties *)

(** C1. In every run in which the scheduler respects the calling discipline, no
    call of the lock manager fails and two transactions that are dispatched and
    not yet released ask for the same lock only to read it. *)
Theorem rma_exclusive (es : list lock_event) :
  valid_trace (L := RMALockManager) spec_init es →
  ∃ l outs, lm_run rma_init es = Ok (l, outs) ∧
    ∀ k t1 t2 ty1 ty2,
      t1 ∈ in_flight [] es outs → t2 ∈ in_flight [] es outs → t1 ≠ t2 →
      (t1, ty1) ∈ history (L := RMALockManager) es k →
      (t2, ty2) ∈ history (L := RMALockManager) es k →
      ty1 = READ ∧ ty2 = READ.
Proof.
  intros Hv. destruct (lm_run_init (L := RMALockManager) es Hv) as (l & outs & Hrun & _ & _ & Hfl & _).
  exists l, outs. split; [done|]. intros k t1 t2 ty1 ty2 Ht1%Hfl Ht2%Hfl.
  by apply exclusive_aux.
Qed.

(** Two readers of A, then a writer of A and B; the writer waits for both. *)
Definition example_trace : list lock_event :=
  let txn i ks := make_txn i SINGLE_HOME 0 PROGRAM_NOT_SET ks in
  [EAcquire (txn 100%Z [make_entry "A" READ 0 0]);
   EAcquire (txn 200%Z [make_entry "A" READ 0 0]);
   EAcquire (txn 300%Z [make_entry "A" WRITE 0 0; make_entry "B" WRITE 0 0]);
   EAcquire (txn 400%Z [make_entry "B" READ 0 0])].

(** Then the readers leave and the writer runs. *)
Definition example_trace_release : list lock_event :=
  example_trace ++ [ERelease 200%Z; ERelease 100%Z].

Lemma rma_exclusive_witness :
  ∃ l outs, lm_run rma_init example_trace = Ok (l, outs) ∧
    ∀ k t1 t2 ty1 ty2,
      t1 ∈ in_flight [] example_trace outs → t2 ∈ in_flight [] example_trace outs → t1 ≠ t2 →
      (t1, ty1) ∈ history (L := RMALockManager) example_trace k →
      (t2, ty2) ∈ history (L := RMALockManager) example_trace k →
      ty1 = READ ∧ ty2 = READ.
Proof. apply (rma_exclusive example_trace). apply (bool_decide_eq_true_1 _). vm_compute. reflexivity. Defined.

(** First in, first out: when a transaction is in flight, every transaction
    that asked for one of its locks before it with a conflicting mode has been
    released. *)
Theorem rma_fifo (es : list lock_event) :
  valid_trace (L := RMALockManager) spec_init es →
  ∃ l outs, lm_run rma_init es = Ok (l, outs) ∧
    ∀ k i j t1 t2 ty1 ty2,
      history (L := RMALockManager) es k !! i = Some (t1, ty1) →
      history (L := RMALockManager) es k !! j = Some (t2, ty2) →
      i < j → conflict ty1 ty2 = true → t2 ∈ in_flight [] es outs → ERelease t1 ∈ es.
Proof.
  intros Hv. destruct (lm_run_init (L := RMALockManager) es Hv) as (l & outs & Hrun & _ & _ & Hfl & _).
  exists l, outs. split; [done|]. intros k i j t1 t2 ty1 ty2 Hi Hj Hij Hc Ht2%Hfl.
  apply released_in. by eapply (fifo_aux (L := RMALockManager)).
Qed.

Lemma rma_fifo_witness :
  ∃ l outs, lm_run rma_init example_trace_release = Ok (l, outs) ∧
    ∀ k i j t1 t2 ty1 ty2,
      history (L := RMALockManager) example_trace_release k !! i =
        Some (t1, ty1) →
      history (L := RMALockManager) example_trace_release k !! j =
        Some (t2, ty2) →
      i < j → conflict ty1 ty2 = true →
      t2 ∈ in_flight [] example_trace_release outs →
      ERelease t1 ∈ example_trace_release.
Proof.
  apply (rma_fifo example_trace_release).
  apply (bool_decide_eq_true_1 _). vm_compute. reflexivity.
Defined.

(** C2. Every call dispatches exactly the transactions that the abstract lock
    manager makes ready at that call, and over the whole run no transaction is
    dispatched twice. *)
Theorem rma_refines (es : list lock_event) :
  valid_trace (L := RMALockManager) spec_init es →
  ∃ l outs, lm_run rma_init es = Ok (l, outs) ∧
    rma_rel l (spec_final (L := RMALockManager) spec_init es) ∧
    Forall2 lists_set outs (spec_outs (L := RMALockManager) spec_init es) ∧
    NoDup (concat outs).
Proof.
  intros Hv. destruct (lm_run_init (L := RMALockManager) es Hv)
    as (l & outs & Hrun & Hrel & Houts & _ & Hnd). by exists l, outs.
Qed.

Lemma rma_refines_witness :
  ∃ l outs, lm_run rma_init example_trace_release = Ok (l, outs) ∧
    rma_rel l (spec_final (L := RMALockManager) spec_init
      example_trace_release) ∧
    Forall2 lists_set outs (spec_outs (L := RMALockManager) spec_init
      example_trace_release) ∧
    NoDup (concat outs).
Proof.
  apply (rma_refines example_trace_release).
  apply (bool_decide_eq_true_1 _). vm_compute. reflexivity.
Defined.

(** C34. No deadlock: if the requests for every lock follow one common order of
    the transactions and every transaction has asked for all of its locks, then
    as long as one is not released, some transaction is in flight. *)
Theorem rma_progress (rank : TxnId → Z) (es : list lock_event) :
  valid_trace (L := RMALockManager) spec_init es →
  (∀ k, StronglySorted (λ t1 t2, rank t1 < rank t2)%Z (history (L := RMALockManager) es k).*1) →
  map_Forall (λ _ n, n = 0%Z) (unarrived (spec_final (L := RMALockManager) spec_init es)) →
  unarrived (spec_final (L := RMALockManager) spec_init es) ≠ ∅ →
  ∃ l outs, lm_run rma_init es = Ok (l, outs) ∧ in_flight [] es outs ≠ [].
Proof.
  intros Hv Hrank Harr Hne. destruct (lm_run_init (L := RMALockManager) es Hv)
    as (l & outs & Hrun & _ & _ & Hfl & _).
  exists l, outs. split; [done|].
  destruct (progress_aux (L := RMALockManager) rank es Hv Hrank Harr Hne) as [t Ht%Hfl].
  intros Hnil. rewrite Hnil in Ht. set_solver.
Qed.

Lemma rma_progress_witness :
  ∃ l outs, lm_run rma_init example_trace_release = Ok (l, outs) ∧
    in_flight [] example_trace_release outs ≠ [].
Proof.
  apply (rma_progress (λ t, t) example_trace_release).
  - apply (bool_decide_eq_true_1 _). vm_compute. reflexivity.
  - intros k. cbn. unfold new_entries. cbn. repeat (case_decide; cbn);
    first [by repeat constructor; lia|subst; discriminate].
  - apply (bool_decide_eq_true_1 _). vm_compute. reflexivity.
  - apply (bool_decide_eq_true_1 _). vm_compute. reflexivity.
Defined.

(** Whatever calls are made, [num_locked_keys_] is the number (as a [uint32_t])
    of entries of the lock table that are locked. *)
Theorem rma_num_locked_keys (es : list lock_event) (l : RMALockManager) (outs : list (list TxnId)) :
  lm_run rma_init es = Ok (l, outs) →
  num_locked_keys_ l = u32 (locked_count (lock_table_ l)).
Proof.
  intros Hrun. assert (count_inv l) as [_ ?]; [|done].
  assert (count_inv rma_init) as Hc by done. revert Hrun Hc. generalize rma_init.
  revert outs. induction es as [|e es IH]; intros outs l0; cbn [lm_run]; [by intros [= <- <-]|].
  destruct (lm_step l0 e) as [[l1 out]|] eqn:E; [|done]. cbn [mbind result_bind].
  destruct (lm_run l1 es) as [[l2 outs2]|] eqn:E2; [|done]. intros [= <- <-] Hc.
  apply (IH outs2 l1); [done|]. destruct e as [txn|t]; cbn in E.
  - pose proof (acquire_count_inv l0 txn Hc). destruct (AcquireLocks l0 txn). by simplify_eq/=.
  - by eapply release_count_inv.
Qed.

Lemma rma_num_locked_keys_witness :
  ∃ l outs, lm_run rma_init example_trace_release = Ok (l, outs) ∧
    num_locked_keys_ l = u32 (locked_count (lock_table_ l)).
Proof.
  eexists _, _. split; [vm_compute; reflexivity|].
  eapply (rma_num_locked_keys example_trace_release). vm_compute. reflexivity.
Defined.
