(* ===== verification/DDRLock.v ===== *)
(** * The deterministic-deadlock-resolving lock manager

    [DDRLockManager] of [module/scheduler_components/ddr_lock_manager.cpp]. It
    keeps only the tail of every lock queue and a graph of waiting transactions.
    The tail is not updated by a release, so it may name transactions that left;
    the simulation shows that this never matters. *)
From S2P Require Import Prelude Types LockSpec.
From S2P Require RMALock.

(** ** The tail of a lock queue *)

Record LockQueueTail := {
  write_lock_requester_ : option TxnId;
  read_lock_requesters_ : list TxnId
}.

Definition empty_tail : LockQueueTail :=
  {| write_lock_requester_ := None; read_lock_requesters_ := [] |}.

Definition AcquireReadLock (lq : LockQueueTail) (t : TxnId) : LockQueueTail * option TxnId :=
  ({| write_lock_requester_ := write_lock_requester_ lq;
      read_lock_requesters_ := read_lock_requesters_ lq ++ [t] |},
   write_lock_requester_ lq).

Definition AcquireWriteLock (lq : LockQueueTail) (t : TxnId) : LockQueueTail * list TxnId :=
  let '(rs, deps) :=
    match read_lock_requesters_ lq with
    | [] =>
      ([], match write_lock_requester_ lq with Some w => [w] | None => [] end)
    | rs => ([], rs)
    end in
  ({| write_lock_requester_ := Some t; read_lock_requesters_ := rs |}, deps).

(** ** The manager *)

Record TxnInfo := {
  waited_by : list TxnId;
  unarrived_lock_requests : Z;
  waiting_for_cnt : Z
}.

Definition is_ready (i : TxnInfo) : bool :=
  bool_decide (waiting_for_cnt i = 0%Z) && bool_decide (unarrived_lock_requests i = 0%Z).

Record DDRLockManager := {
  txn_info_ : gmap Z TxnInfo;
  lock_table_ : gmap string LockQueueTail
}.

Definition ddr_init : DDRLockManager := {| txn_info_ := ∅; lock_table_ := ∅ |}.

Definition lock_queue_tail (lt : gmap string LockQueueTail) (k : KeyReplica) : LockQueueTail :=
  default empty_tail (lt !! k).

(** The body of the first loop of [AcquireLocks], on the lock table, the counter
    [num_relevant_locks] and [blocking_txns]. Which keys are skipped is the same
    test as in the RMA lock manager. *)
Definition request_lock (t : TxnId) (a : gmap string LockQueueTail * Z * list TxnId)
    (r : KeyReplica * KeyType) : gmap string LockQueueTail * Z * list TxnId :=
  let '(lt, num_relevant_locks, blocking_txns) := a in
  let '(key_replica, ty) := r in
  let lq := lock_queue_tail lt key_replica in
  match ty with
  | READ =>
    let '(lq', b_txn) := AcquireReadLock lq t in
    (<[key_replica := lq']> lt, (num_relevant_locks + 1)%Z,
     blocking_txns ++ match b_txn with Some b => [b] | None => [] end)
  | WRITE =>
    let '(lq', b_txns) := AcquireWriteLock lq t in
    (<[key_replica := lq']> lt, (num_relevant_locks + 1)%Z, blocking_txns ++ b_txns)
  end.

Definition skip_key (txn : Transaction) (kv : KeyValueEntry) : bool :=
  negb (is_remaster txn) && bool_decide (i32 (key_master kv) ≠ home (internal txn)).

Definition request_key (txn : Transaction) (a : gmap string LockQueueTail * Z * list TxnId)
    (kv : KeyValueEntry) : gmap string LockQueueTail * Z * list TxnId :=
  if skip_key txn kv then a
  else request_lock (txn_id txn) a (MakeKeyReplica (key kv) (home (internal txn)), key_type kv).

Definition requests (txn : Transaction) : list (KeyReplica * KeyType) :=
  (λ kv, (MakeKeyReplica (key kv) (home (internal txn)), key_type kv)) <$>
    filter (λ kv, skip_key txn kv = false) (keys txn).

Definition num_required_locks (txn : Transaction) : Z :=
  if is_remaster txn then 2 else keys_size txn.

Definition add_waiter (t : TxnId) (i : TxnInfo) : TxnInfo :=
  {| waited_by := waited_by i ++ [t];
     unarrived_lock_requests := unarrived_lock_requests i;
     waiting_for_cnt := waiting_for_cnt i |}.

Definition add_waiting_for (d : Z) (i : TxnInfo) : TxnInfo :=
  {| waited_by := waited_by i;
     unarrived_lock_requests := unarrived_lock_requests i;
     waiting_for_cnt := waiting_for_cnt i + d |}.

(** The body of the second loop of [AcquireLocks]. [txn_info] is a reference to
    the entry of [t], so both updates are made in the table. *)
Definition wait_for (t : TxnId) (infos : gmap Z TxnInfo) (b_txn : TxnId) : gmap Z TxnInfo :=
  if decide (b_txn = t) then infos
  else
    match infos !! b_txn with
    | None => infos
    | Some _ => alter (add_waiter t) b_txn (alter (add_waiting_for 1) t infos)
    end.

Definition AcquireLocks (l : DDRLockManager) (txn : Transaction) :
    DDRLockManager * AcquireLocksResult :=
  let t := txn_id txn in
  let info := default {| waited_by := []; unarrived_lock_requests := num_required_locks txn;
                         waiting_for_cnt := 0 |} (txn_info_ l !! t) in
  let '(lt, num_relevant_locks, blocking_txns) :=
    foldl (request_key txn) (lock_table_ l, 0%Z, []) (keys txn) in
  let info := {| waited_by := waited_by info;
                 unarrived_lock_requests := unarrived_lock_requests info - num_relevant_locks;
                 waiting_for_cnt := waiting_for_cnt info |} in
  let infos := foldl (wait_for t) (<[t := info]> (txn_info_ l)) (sort_unique blocking_txns) in
  ({| txn_info_ := infos; lock_table_ := lt |},
   match infos !! t with
   | Some i => if is_ready i then ACQUIRED else WAITING
   | None => WAITING
   end).

(** The body of the loop of [ReleaseLocks]. *)
Definition unblock (a : gmap Z TxnInfo * list TxnId) (blocked_txn_id : TxnId) :
    gmap Z TxnInfo * list TxnId :=
  let '(infos, res) := a in
  match infos !! blocked_txn_id with
  | None => a
  | Some i =>
    let i := add_waiting_for (-1) i in
    (<[blocked_txn_id := i]> infos, if is_ready i then res ++ [blocked_txn_id] else res)
  end.

Definition ReleaseLocks (l : DDRLockManager) (t : TxnId) : result (DDRLockManager * list TxnId) :=
  match txn_info_ l !! t with
  | None => Ok (l, [])
  | Some info =>
    if negb (is_ready info) then Err (Fatal "Releasing unready txn is forbidden")
    else
      let '(infos, res) := foldl unblock (txn_info_ l, []) (waited_by info) in
      Ok ({| txn_info_ := delete t infos; lock_table_ := lock_table_ l |}, res)
  end.

#[global] Instance ddr_lock_manager : LockManager DDRLockManager := {
  lm_init := ddr_init;
  lm_AcquireLocks := AcquireLocks;
  lm_ReleaseLocks := ReleaseLocks;
  lm_requests := requests;
  lm_required := num_required_locks
}.

(** ** The tail of a queue *)

Definition tail_step (lq : LockQueueTail) (e : TxnId * KeyType) : LockQueueTail :=
  match e.2 with
  | READ => (AcquireReadLock lq e.1).1
  | WRITE => (AcquireWriteLock lq e.1).1
  end.

Definition tail_of (q : list (TxnId * KeyType)) : LockQueueTail := foldl tail_step empty_tail q.

(** The transactions a new request waits for, given the tail. *)
Definition tail_deps (lq : LockQueueTail) (ty : KeyType) : list TxnId :=
  match ty with
  | READ => option_list (write_lock_requester_ lq)
  | WRITE =>
    match read_lock_requesters_ lq with
    | [] => option_list (write_lock_requester_ lq)
    | rs => rs
    end
  end.

Definition deps (q : list (TxnId * KeyType)) (ty : KeyType) : list TxnId :=
  tail_deps (tail_of q) ty.

Section Tails.
Implicit Types (t x : TxnId) (q : list (TxnId * KeyType)).

Definition reads (rs : list TxnId) : list (TxnId * KeyType) := (λ t, (t, READ)) <$> rs.

Lemma tail_of_snoc q t ty : tail_of (q ++ [(t, ty)]) = tail_step (tail_of q) (t, ty).
Proof. unfold tail_of. by rewrite foldl_app. Qed.

Lemma tail_of_reads lq rs :
  foldl tail_step lq (reads rs) =
  {| write_lock_requester_ := write_lock_requester_ lq;
     read_lock_requesters_ := read_lock_requesters_ lq ++ rs |}.
Proof.
  revert lq. induction rs as [|r rs IH]; intros [w l]; simpl; [by rewrite app_nil_r|].
  change (foldl tail_step (tail_step {| write_lock_requester_ := w; read_lock_requesters_ := l |}
    (r, READ)) (reads rs) = {| write_lock_requester_ := w; read_lock_requesters_ := l ++ r :: rs |}).
  rewrite IH. cbn. by rewrite <-app_assoc.
Qed.

Lemma tail_of_write q0 x rs :
  tail_of (q0 ++ (x, WRITE) :: reads rs) =
  {| write_lock_requester_ := Some x; read_lock_requesters_ := rs |}.
Proof.
  unfold tail_of. rewrite foldl_app. cbn [foldl]. rewrite tail_of_reads.
  by destruct (foldl tail_step empty_tail q0) as [w [|]].
Qed.

(** A queue is a sequence of reads, preceded or not by a last write. *)
Lemma tail_cases q :
  (∃ rs, q = reads rs ∧ tail_of q = {| write_lock_requester_ := None; read_lock_requesters_ := rs |}) ∨
  (∃ q0 x rs, q = q0 ++ (x, WRITE) :: reads rs ∧
     tail_of q = {| write_lock_requester_ := Some x; read_lock_requesters_ := rs |}).
Proof.
  assert ((∃ rs, q = reads rs) ∨ (∃ q0 x rs, q = q0 ++ (x, WRITE) :: reads rs)) as Hq.
  { induction q as [|[t ty] q [[rs ->]|(q0 & x & rs & ->)]].
    - left. by exists [].
    - destruct ty; [left; by exists (t :: rs)|right; by exists [], t, rs].
    - right. by exists ((t, ty) :: q0), x, rs. }
  destruct Hq as [[rs ->]|(q0 & x & rs & ->)]; [left|right].
  - exists rs. split; [done|]. unfold tail_of. by rewrite tail_of_reads.
  - exists q0, x, rs. split; [done|]. apply tail_of_write.
Qed.

Lemma elem_of_reads rs t ty : (t, ty) ∈ reads rs ↔ t ∈ rs ∧ ty = READ.
Proof. unfold reads. rewrite list_elem_of_fmap. naive_solver. Qed.

Lemma reads_fst rs : (reads rs).*1 = rs.
Proof. unfold reads. rewrite <-list_fmap_compose. apply list_fmap_id. Qed.

Lemma remove_reads t rs : remove_txn t (reads rs) = reads (filter (λ x, x ≠ t) rs).
Proof.
  unfold remove_txn, reads. induction rs as [|r rs IH]; [done|].
  rewrite fmap_cons, !filter_cons. simpl. case_decide; [|done]. simpl. by rewrite IH.
Qed.

(** What a new request waits for conflicts with it. *)
Lemma deps_conflict q ty b : b ∈ deps q ty → ∃ tyb, (b, tyb) ∈ q ∧ conflict tyb ty = true.
Proof.
  unfold deps. destruct (tail_cases q) as [(rs & -> & ->)|(q0 & x & rs & -> & ->)].
  - destruct ty; simpl; [set_solver|]. intros Hb. exists READ. split; [|done].
    rewrite elem_of_reads. split; [|done]. destruct rs; set_solver.
  - destruct ty; simpl.
    + intros ->%list_elem_of_singleton. exists WRITE. split; [|done]. set_solver.
    + destruct rs as [|r rs].
      * intros ->%list_elem_of_singleton. exists WRITE. split; [|done]. set_solver.
      * intros Hb. exists READ. split; [|done]. apply elem_of_app; right.
        apply elem_of_cons; right. by apply elem_of_reads.
Qed.

(** A request that is not granted waits for someone. *)
Lemma deps_not_granted q1 t ty q2 :
  NoDup (q1 ++ (t, ty) :: q2).*1 → t ∉ (granted (q1 ++ (t, ty) :: q2)).*1 → deps q1 ty ≠ [].
Proof.
  intros Hnd Hn. unfold deps. destruct (tail_cases q1) as [(rs & -> & ->)|(q0 & x & rs & -> & ->)].
  - destruct ty; simpl.
    + destruct Hn. rewrite (cons_middle _ _ q2), app_assoc. apply granted_app_l.
      apply granted_snoc_new; [|right; split; [done|]].
      * rewrite fmap_app, fmap_cons, NoDup_app in Hnd. destruct Hnd as (_ & Hnd & _).
        intros Hin. apply (Hnd t Hin). left.
      * apply Forall_forall. intros [y ty] [_ ->]%elem_of_reads. done.
    + destruct rs; [|done]. destruct Hn. left.
  - destruct ty; simpl; [done|]. by destruct rs.
Qed.

Lemma leading_reads_before_write q x l e :
  e ∈ leading_reads (q ++ (x, WRITE) :: l) → e ∈ q.
Proof. induction q as [|[y []] q IH]; simpl; set_solver. Qed.

Lemma granted_before_write q0 x l r :
  r ∈ (granted (q0 ++ (x, WRITE) :: l)).*1 → (q0 = [] ∧ r = x) ∨ r ∈ q0.*1.
Proof.
  destruct q0 as [|[y []] q0]; [simpl; set_solver| |simpl; set_solver].
  change (granted _) with (leading_reads (((y, READ) :: q0) ++ (x, WRITE) :: l)).
  intros (e & -> & He%leading_reads_before_write)%list_elem_of_fmap. right.
  by apply list_elem_of_fmap_2.
Qed.

(** When a granted request leaves, nobody waits for anything new. *)
Lemma deps_remove q1 q2 ty r b :
  NoDup (q1 ++ q2).*1 → (r ∈ (q1 ++ q2).*1 → r ∈ (granted (q1 ++ q2)).*1) →
  b ∈ deps (remove_txn r q1) ty → b ∈ deps q1 ty.
Proof.
  intros Hnd Hr Hb. rewrite fmap_app, NoDup_app in Hnd. destruct Hnd as (Hnd1 & Hdis & _).
  destruct (decide (r ∈ q1.*1)) as [Hr1|Hr1]; [|by rewrite remove_txn_id in Hb].
  assert (r ∈ (granted q1).*1) as Hg.
  { apply (granted_app_inv _ _ q2); [intros Hr2; by eapply Hdis|]. apply Hr.
    rewrite fmap_app. set_solver. }
  clear Hr Hdis. unfold deps in *.
  destruct (tail_cases q1) as [(rs & -> & Ht)|(q0 & x & rs & -> & Ht)]; rewrite Ht; clear Ht.
  - rewrite remove_reads in Hb. unfold tail_of in Hb. rewrite tail_of_reads in Hb. simpl in Hb.
    destruct ty; simpl in *; [done|]. 
    destruct (filter (λ y, y ≠ r) rs) as [|f fs] eqn:Ef; [set_solver|].
    assert (b ∈ rs) as Hbr; [|destruct rs; set_solver].
    rewrite <-Ef in Hb. by apply list_elem_of_filter in Hb as [_ ?].
  - rewrite remove_txn_app in Hb. unfold remove_txn at 2 in Hb. rewrite filter_cons in Hb.
    simpl in Hb. apply granted_before_write in Hg as [[-> ->]|Hg].
    + rewrite decide_False in Hb by naive_solver. simpl in Hb.
      assert (filter (λ e, e.1 ≠ x) (reads rs) = reads rs) as Heq.
      { apply (remove_txn_id x (reads rs)). rewrite reads_fst.
        simpl in Hnd1. rewrite reads_fst in Hnd1. by apply NoDup_cons in Hnd1 as [? _]. }
      rewrite Heq in Hb. unfold tail_of in Hb. rewrite tail_of_reads in Hb. simpl in Hb.
      destruct ty; simpl in *; [set_solver|]. destruct rs; set_solver.
    + rewrite fmap_app, fmap_cons, NoDup_app, reads_fst in Hnd1. destruct Hnd1 as (_ & Hd & _).
      rewrite decide_True in Hb.
      * assert (filter (λ e, e.1 ≠ r) (reads rs) = reads rs) as Heq.
        { apply (remove_txn_id r (reads rs)). rewrite reads_fst. specialize (Hd r Hg). set_solver. }
        rewrite Heq, tail_of_write in Hb. done.
      * specialize (Hd r Hg). simpl in Hd. set_solver.
Qed.

End Tails.

(** ** The stored tail and the tail of the live queue

    Either the last writer is still queued and the stored tail is exact, or only
    readers are queued and whatever else the stored tail names has finished. *)
Section StoredTails.
Implicit Types (t x : TxnId) (q : list (TxnId * KeyType)) (F : gset Z) (lq : LockQueueTail).

Definition tail_ok q F lq : Prop :=
  (∃ q0 x rs, q = q0 ++ (x, WRITE) :: reads rs ∧
     lq = {| write_lock_requester_ := Some x; read_lock_requesters_ := rs |}) ∨
  (∃ rs, q = reads rs ∧
     (∀ t, t ∈ rs → t ∈ read_lock_requesters_ lq) ∧
     (∀ t, t ∈ read_lock_requesters_ lq → t ∈ rs ∨ t ∈ F) ∧
     (∀ w, write_lock_requester_ lq = Some w → w ∈ F)).

Lemma tail_ok_deps q F lq ty b :
  tail_ok q F lq →
  (b ∈ tail_deps lq ty → b ∈ deps q ty ∨ b ∈ F) ∧ (b ∈ deps q ty → b ∈ tail_deps lq ty).
Proof.
  unfold deps. intros [(q0 & x & rs & -> & ->)|(rs & -> & Hin & Hout & Hw)].
  - rewrite tail_of_write. naive_solver.
  - unfold tail_of. rewrite tail_of_reads. destruct lq as [w rs']; simpl in *.
    assert (∀ b, b ∈ option_list w → b ∈ F) as Hw'.
    { destruct w; simpl; [|set_solver]. intros ? ->%list_elem_of_singleton. auto. }
    destruct ty; simpl; [split; [auto|set_solver]|].
    destruct rs' as [|r' rs'].
    + assert (rs = []) as ->.
      { destruct rs as [|r rs]; [done|]. specialize (Hin r). set_solver. }
      split; [auto|set_solver].
    + destruct rs as [|r rs]; [|naive_solver]. split; [|set_solver].
      intros Hb. right. destruct (Hout b Hb); set_solver.
Qed.

Lemma tail_ok_snoc q F lq t ty :
  tail_ok q F lq → tail_ok (q ++ [(t, ty)]) F (tail_step lq (t, ty)).
Proof.
  intros Hok. destruct ty.
  - destruct Hok as [(q0 & x & rs & -> & ->)|(rs & -> & Hin & Hout & Hw)]; [left|right].
    + exists q0, x, (rs ++ [t]). unfold reads. by rewrite fmap_app, <-app_assoc.
    + exists (rs ++ [t]). unfold reads. rewrite fmap_app. cbn. set_solver.
  - left. exists q, t, []. split; [done|]. destruct lq as [w [|]]; done.
Qed.

Lemma tail_ok_release q F lq r :
  NoDup q.*1 → (r ∈ q.*1 → r ∈ (granted q).*1) →
  tail_ok q F lq → tail_ok (remove_txn r q) ({[r]} ∪ F) lq.
Proof.
  intros Hnd Hg [(q0 & x & rs & -> & ->)|(rs & -> & Hin & Hout & Hw)].
  - destruct (decide (r ∈ (q0 ++ (x, WRITE) :: reads rs).*1)) as [Hr|Hr].
    2:{ rewrite remove_txn_id by done. left. by exists q0, x, rs. }
    rewrite fmap_app, fmap_cons, NoDup_app, reads_fst in Hnd.
    destruct Hnd as (_ & Hd & [Hx _]%NoDup_cons). simpl in Hd, Hx.
    rewrite remove_txn_app. unfold remove_txn at 2. rewrite filter_cons. simpl.
    destruct (granted_before_write _ _ _ _ (Hg Hr)) as [[-> ->]|Hr0].
    + right. rewrite decide_False by naive_solver. exists rs.
      split; [apply (remove_txn_id x (reads rs)); by rewrite reads_fst|].
      simpl. set_solver.
    + left. specialize (Hd r Hr0). rewrite decide_True by set_solver.
      exists (remove_txn r q0), x, rs. split; [|done]. do 2 f_equal.
      apply (remove_txn_id r (reads rs)). rewrite reads_fst. set_solver.
  - right. rewrite remove_reads. exists (filter (λ x, x ≠ r) rs). split; [done|].
    setoid_rewrite list_elem_of_filter. split_and!; [naive_solver| |].
    + intros t Ht. destruct (decide (t = r)); [set_solver|].
      destruct (Hout t Ht); [naive_solver|set_solver].
    + intros w Hw'%Hw. set_solver.
Qed.

End StoredTails.

(** ** The waiting graph *)

Section Graph.
Implicit Types (t b x : TxnId) (I : gmap Z TxnInfo).

Definition occ t (l : list TxnId) : Z := Z.of_nat (length (filter (λ x, x = t) l)).

(** How many edges of the graph say that [t] waits. *)
Definition total t I : Z := map_fold (λ _ i acc, (occ t (waited_by i) + acc)%Z) 0%Z I.

Definition counts_ok I : Prop := ∀ t i, I !! t = Some i → waiting_for_cnt i = total t I.

Lemma occ_pos t l : t ∈ l → (0 < occ t l)%Z.
Proof.
  intros Hin. unfold occ. assert (t ∈ filter (λ x, x = t) l) as Hf by by apply list_elem_of_filter.
  destruct (filter _ l); [set_solver|simpl; lia].
Qed.

Lemma occ_zero t l : t ∉ l → occ t l = 0%Z.
Proof. intros Hin. unfold occ. rewrite filter_none; [done|]. by intros x Hx ->. Qed.

Lemma occ_nonneg t l : (0 ≤ occ t l)%Z.
Proof. unfold occ. lia. Qed.

Lemma occ_app t l1 l2 : occ t (l1 ++ l2) = (occ t l1 + occ t l2)%Z.
Proof. unfold occ. rewrite filter_app, length_app. lia. Qed.

Lemma occ_cons t x l : occ t (x :: l) = ((if decide (x = t) then 1 else 0) + occ t l)%Z.
Proof. unfold occ. rewrite filter_cons. case_decide; simpl; lia. Qed.

Lemma total_delete t I b i :
  I !! b = Some i → total t I = (occ t (waited_by i) + total t (delete b I))%Z.
Proof.
  intros Hb. unfold total. rewrite (map_fold_delete_L _ _ b i I); [done| |done].
  intros j1 j2 z1 z2 y _ _ _. lia.
Qed.

Lemma total_insert t I b i :
  I !! b = None → total t (<[b := i]> I) = (occ t (waited_by i) + total t I)%Z.
Proof.
  intros Hb. rewrite (total_delete t _ b i) by apply lookup_insert_eq.
  by rewrite delete_insert_id.
Qed.

Lemma total_update t I b i i' :
  I !! b = Some i →
  total t (<[b := i']> I) = (total t I - occ t (waited_by i) + occ t (waited_by i'))%Z.
Proof.
  intros Hb. rewrite (total_delete t _ b i') by apply lookup_insert_eq.
  rewrite (total_delete t I b i) by done. rewrite delete_insert_eq. lia.
Qed.

Lemma total_nonneg t I : (0 ≤ total t I)%Z.
Proof.
  unfold total. apply (map_fold_weak_ind (λ r _, 0 ≤ r)%Z); [done|].
  intros k i m r _ Hr. pose proof (occ_nonneg t (waited_by i)). lia.
Qed.

Lemma total_zero t I : total t I = 0%Z ↔ ∀ b i, I !! b = Some i → t ∉ waited_by i.
Proof.
  split.
  - intros H0 b i Hb Hin. rewrite (total_delete t I b i Hb) in H0.
    pose proof (occ_pos _ _ Hin). pose proof (total_nonneg t (delete b I)). lia.
  - intros Hall. unfold total.
    apply (map_fold_weak_ind (λ r m, (∀ b i, m !! b = Some i → t ∉ waited_by i) → r = 0)%Z); [done| |done].
    intros k i m r Hk Hr Hm. rewrite occ_zero; [|eapply Hm, lookup_insert_eq].
    rewrite Hr; [done|]. intros b i' Hb. apply (Hm b). rewrite lookup_insert_ne; [done|congruence].
Qed.

Lemma total_ext t I I' :
  (∀ x, waited_by <$> I !! x = waited_by <$> I' !! x) → total t I = total t I'.
Proof.
  intros Heq. assert (waited_by <$> I = waited_by <$> I') as Hf.
  { apply map_eq. intros x. by rewrite !lookup_fmap. }
  assert (∀ J, total t J = map_fold (λ _ w acc, occ t w + acc)%Z 0%Z (waited_by <$> J)) as Ht.
  { intros J. by rewrite map_fold_fmap. }
  by rewrite !Ht, Hf.
Qed.

Lemma wait_for_counts t I b :
  is_Some (I !! t) → counts_ok I → counts_ok (wait_for t I b) ∧ is_Some (wait_for t I b !! t).
Proof.
  intros [it Hit] Hc. unfold wait_for. case_decide as Hbt; [by eauto|].
  destruct (I !! b) as [ib|] eqn:Hib; [|by eauto].
  assert (alter (add_waiter t) b (alter (add_waiting_for 1) t I) =
    <[b := add_waiter t ib]> (<[t := add_waiting_for 1 it]> I)) as ->.
  { apply map_eq. intros j. rewrite lookup_alter, !lookup_insert.
    repeat case_decide; subst; rewrite ?lookup_alter_ne, ?lookup_alter_eq by done;
      by rewrite ?Hib, ?Hit. }
  split; [|rewrite lookup_insert_ne, lookup_insert_eq by done; eauto].
  intros x i Hx. rewrite (total_update x _ b ib) by by rewrite lookup_insert_ne.
  rewrite (total_update x I t it) by done. simpl. rewrite occ_app, occ_cons.
  assert (occ x [] = 0%Z) as -> by done. rewrite !lookup_insert in Hx.
  repeat case_decide; simplify_eq/=; rewrite ?(Hc _ _ Hit), ?(Hc _ _ Hib); try lia.
  rewrite (Hc _ _ Hx). lia.
Qed.

Lemma wait_for_lookup t I b x :
  is_Some (I !! t) →
  option_Forall2 (λ i' i, unarrived_lock_requests i' = unarrived_lock_requests i ∧
    ∀ y, y ∈ waited_by i' ↔ y ∈ waited_by i ∨ (y = t ∧ x = b ∧ x ≠ t))
    (wait_for t I b !! x) (I !! x).
Proof.
  intros [it Hit]. unfold wait_for. case_decide as Hbt.
  { destruct (I !! x); constructor. split; [done|]. naive_solver. }
  destruct (I !! b) as [ib|] eqn:Hib.
  - rewrite lookup_alter. case_decide as Hbx.
    + subst x. rewrite lookup_alter_ne, Hib by done. constructor. split; [done|].
      intros y. cbn. set_solver.
    + rewrite lookup_alter. case_decide; subst; [rewrite Hit|destruct (I !! x)]; constructor;
        (split; [done|]); cbn; naive_solver.
  - destruct (I !! x) eqn:Hx; constructor. split; [done|].
    intros y. split; [by left|]. intros [?|(? & -> & ?)]; [done|congruence].
Qed.

Lemma wait_loop t bs I :
  is_Some (I !! t) → counts_ok I →
  let I' := foldl (wait_for t) I bs in
  counts_ok I' ∧
  ∀ x, option_Forall2 (λ i' i, unarrived_lock_requests i' = unarrived_lock_requests i ∧
    ∀ y, y ∈ waited_by i' ↔ y ∈ waited_by i ∨ (y = t ∧ x ∈ bs ∧ x ≠ t)) (I' !! x) (I !! x).
Proof.
  revert I. induction bs as [|b bs IH]; intros I Ht Hc; cbn [foldl].
  { split; [done|]. intros x. destruct (I !! x); constructor. split; [done|]. set_solver. }
  destruct (wait_for_counts t I b Ht Hc) as [Hc1 Ht1].
  destruct (IH _ Ht1 Hc1) as [Hc2 Hl2]. split; [done|]. intros x.
  pose proof (wait_for_lookup t I b x Ht) as H1. specialize (Hl2 x).
  inversion H1 as [i1 i0 [Hu1 Hw1] E1 E0|E1 E0]; rewrite <-E1 in Hl2;
    inversion Hl2 as [i2 ? [Hu2 Hw2] E2|E2]; subst; constructor.
  split; [congruence|]. intros y. rewrite Hw2, Hw1. set_solver.
Qed.

End Graph.

(** ** The simulation *)

Section Simulation.
Implicit Types (t b x : TxnId) (k : KeyReplica) (s : lock_spec) (I : gmap Z TxnInfo).

(** [b] is before [t] in some queue, with a conflicting mode. *)
Definition blocks s b t : Prop :=
  ∃ k q1 ty q2 tyb, queue_of s k = q1 ++ (t, ty) :: q2 ∧ (b, tyb) ∈ q1 ∧ conflict tyb ty = true.

Record graph_ok I s : Prop := {
  g_unarrived t : option_Forall2 (λ i n, unarrived_lock_requests i = n) (I !! t) (unarrived s !! t);
  g_complete k q1 t ty q2 b : queue_of s k = q1 ++ (t, ty) :: q2 → b ∈ deps q1 ty →
    ∃ i, I !! b = Some i ∧ t ∈ waited_by i;
  g_sound b i t : I !! b = Some i → t ∈ waited_by i → blocks s b t;
  g_counts : counts_ok I
}.

Definition ddr_rel (l : DDRLockManager) s : Prop :=
  spec_wf s ∧
  (∀ k, tail_ok (queue_of s k) (finished s) (lock_queue_tail (lock_table_ l) k)) ∧
  graph_ok (txn_info_ l) s.

Lemma blocks_not_ready s b t : spec_wf s → blocks s b t → ¬ ready s t.
Proof.
  intros Hwf (k & q1 & ty & q2 & tyb & Hq & Hb & Hc) [_ Hg]%ready_queue_of.
  pose proof (wf_nodup _ Hwf k) as Hnd. specialize (Hg k).
  assert (t ∈ (queue_of s k).*1) as Hin by (rewrite Hq, fmap_app; set_solver).
  apply Hg in Hin. apply list_elem_of_fmap in Hin as ([t' ty'] & ? & Hin); simplify_eq/=.
  rewrite Hq in Hin, Hnd. rewrite fmap_app, NoDup_app in Hnd. destruct Hnd as (_ & Hd & _).
  assert (t' ∉ q1.*1) as Hn by (intros Hn; apply (Hd t' Hn); left).
  assert (ty' = ty) as ->.
  { pose proof (wf_nodup _ Hwf k) as Hnd. rewrite Hq in Hnd.
    eapply NoDup_fmap_fst_inj; [done| |].
    - rewrite <-(granted_waiting (q1 ++ _)). apply elem_of_app. left. done.
    - set_solver. }
  rewrite (granted_no_conflict_before q1 ((t', ty) :: q2) b t' tyb ty) in Hc; done.
Qed.

Lemma graph_ready I s t i :
  spec_wf s → graph_ok I s → I !! t = Some i → is_ready i = true ↔ ready s t.
Proof.
  intros Hwf [Hun Hcomp Hsound Hcnt] Hi. unfold is_ready.
  rewrite andb_true_iff, !bool_decide_eq_true, (Hcnt _ _ Hi), total_zero.
  pose proof (Hun t) as Hu. rewrite Hi in Hu. inversion Hu as [? n Hn Hx HU|]; subst.
  rewrite ready_queue_of, <-HU. split.
  - intros [Hz Hu0]. split; [by rewrite Hu0|]. intros k Hin.
    destruct (decide (t ∈ (granted (queue_of s k)).*1)) as [|Hng]; [done|]. exfalso.
    apply list_elem_of_fmap in Hin as ([t' ty] & ? & Hin); simplify_eq/=.
    apply list_elem_of_split in Hin as (q1 & q2 & Hq). pose proof (wf_nodup _ Hwf k) as Hnd.
    rewrite Hq in Hnd, Hng. pose proof (deps_not_granted _ _ _ _ Hnd Hng) as Hd.
    destruct (deps q1 ty) as [|b ds] eqn:Ed; [done|].
    destruct (Hcomp k q1 t' ty q2 b Hq) as (ib & Hib & Hw); [rewrite Ed; left|].
    by apply (Hz b ib Hib).
  - intros [[= Hu0] Hg]. split; [|done]. intros b ib Hib Hw.
    eapply blocks_not_ready; [done|by eapply Hsound|]. apply ready_queue_of.
    by rewrite <-HU, Hu0.
Qed.

(** *** Acquiring *)

Lemma request_lock_eq t lt n bs k ty :
  request_lock t (lt, n, bs) (k, ty) =
  (<[k := tail_step (lock_queue_tail lt k) (t, ty)]> lt, (n + 1)%Z,
   bs ++ tail_deps (lock_queue_tail lt k) ty).
Proof.
  unfold request_lock, tail_step, tail_deps. destruct ty; cbn.
  - by destruct (write_lock_requester_ _).
  - unfold AcquireWriteLock. destruct (lock_queue_tail lt k) as [[w|] [|r rs]]; done.
Qed.

Lemma request_loop t reqs lt n bs :
  NoDup reqs.*1 →
  let '(lt', n', bs') := foldl (request_lock t) (lt, n, bs) reqs in
  (∀ k, lock_queue_tail lt' k = foldl tail_step (lock_queue_tail lt k) (new_entries t reqs k)) ∧
  n' = (n + Z.of_nat (length reqs))%Z ∧
  (∀ b, b ∈ bs' ↔ b ∈ bs ∨ ∃ k ty, (k, ty) ∈ reqs ∧ b ∈ tail_deps (lock_queue_tail lt k) ty).
Proof.
  revert lt n bs. induction reqs as [|[k ty] reqs IH]; intros lt n bs Hnd.
  { simpl. split_and!; [done|lia|]. set_solver. }
  rewrite fmap_cons in Hnd. apply NoDup_cons in Hnd as [Hk Hnd]. simpl in Hk.
  cbn [foldl]. rewrite request_lock_eq.
  assert (∀ k' lq, k' ≠ k → lock_queue_tail (<[k := lq]> lt) k' = lock_queue_tail lt k') as Hne.
  { intros. unfold lock_queue_tail. by rewrite lookup_insert_ne. }
  assert (∀ lq, lock_queue_tail (<[k := lq]> lt) k = lq) as Heq.
  { intros. unfold lock_queue_tail. by rewrite lookup_insert_eq. }
  set (lq := tail_step (lock_queue_tail lt k) (t, ty)) in *.
  specialize (IH (<[k := lq]> lt) (n + 1)%Z (bs ++ tail_deps (lock_queue_tail lt k) ty) Hnd).
  destruct (foldl _ _ _) as [[lt' n'] bs']. destruct IH as (Ht & Hn & Hb). split_and!.
  - intros k'. rewrite Ht. unfold new_entries at 2. rewrite filter_cons.
    destruct (decide (k' = k)) as [->|Hn'].
    + rewrite decide_True, Heq by done. done.
    + rewrite decide_False, Hne by (simpl; congruence). done.
  - simpl. lia.
  - intros b. rewrite Hb, elem_of_app. setoid_rewrite elem_of_cons. split.
    + intros [[?|?]|(k' & ty' & Hin & Hd)]; [by left|right; exists k, ty; auto|].
      right. exists k', ty'. rewrite Hne in Hd; [by auto|]. intros ->.
      by apply (list_elem_of_fmap_2 fst) in Hin.
    + intros [?|(k' & ty' & [[= -> ->]|Hin] & Hd)]; [auto..|]. right. exists k', ty'.
      rewrite Hne; [done|]. intros ->. by apply (list_elem_of_fmap_2 fst) in Hin.
Qed.

Lemma request_keys_requests txn a :
  foldl (request_key txn) a (keys txn) = foldl (request_lock (txn_id txn)) a (requests txn).
Proof.
  unfold requests. generalize (keys txn). intros ks. revert a.
  induction ks as [|kv ks IH]; intros a; [done|]. simpl. unfold request_key at 2.
  rewrite filter_cons. destruct (skip_key txn kv) eqn:E.
  - rewrite decide_False by done. apply IH.
  - rewrite decide_True by done. simpl. apply IH.
Qed.

Lemma tail_ok_entries t es q F lq :
  Forall (λ e, e.1 = t) es →
  tail_ok q F lq → tail_ok (q ++ es) F (foldl tail_step lq es).
Proof.
  intros Hes. revert q lq. induction Hes as [|[t' ty] es He _ IH]; intros q lq Hok.
  { by rewrite app_nil_r. }
  cbn [foldl]. rewrite cons_middle, app_assoc. by apply IH, tail_ok_snoc.
Qed.

Lemma blocks_acquire s t n reqs b x : blocks s b x → blocks (spec_acquire s t n reqs) b x.
Proof.
  intros (k & q1 & ty & q2 & tyb & Hq & Hb & Hc).
  exists k, q1, ty, (q2 ++ new_entries t reqs k), tyb.
  rewrite queue_of_acquire, Hq, <-app_assoc. done.
Qed.

(** A position in an extended queue is an old position or the new entry. *)
Lemma snoc_split {A} (q l1 l2 : list A) (e e' : A) :
  q ++ [e] = l1 ++ e' :: l2 →
  (∃ l3, q = l1 ++ e' :: l3) ∨ (l1 = q ∧ e' = e ∧ l2 = []).
Proof.
  destruct l2 as [|y l2 _] using rev_ind.
  - intros [-> [= ->]]%app_inj_tail. auto.
  - rewrite app_comm_cons, app_assoc. intros [-> _]%app_inj_tail. left. eauto.
Qed.

Lemma queue_of_acquire_cases s t n reqs k :
  NoDup reqs.*1 →
  ((k ∉ reqs.*1) ∧ queue_of (spec_acquire s t n reqs) k = queue_of s k) ∨
  (∃ ty, (k, ty) ∈ reqs ∧ queue_of (spec_acquire s t n reqs) k = queue_of s k ++ [(t, ty)]).
Proof.
  intros Hnd. rewrite queue_of_acquire. destruct (decide (k ∈ reqs.*1)) as [Hk|Hk].
  - right. apply list_elem_of_fmap in Hk as ([? ty] & -> & Hin). exists ty.
    by rewrite (new_entries_singleton _ _ _ ty).
  - left. by rewrite new_entries_nil, app_nil_r.
Qed.

(** The entry of [t] at the start of the second loop of [AcquireLocks]. *)
Definition arrived (n : Z) (i : TxnInfo) : TxnInfo :=
  {| waited_by := waited_by i; unarrived_lock_requests := unarrived_lock_requests i - n;
     waiting_for_cnt := waiting_for_cnt i |}.

Definition new_info (m : Z) : TxnInfo :=
  {| waited_by := []; unarrived_lock_requests := m; waiting_for_cnt := 0 |}.

Lemma graph_ok_arrived I s t m n :
  spec_wf s → graph_ok I s →
  let i0 := arrived n (default (new_info m) (I !! t)) in
  counts_ok (<[t := i0]> I) ∧
  (∀ b i x, <[t := i0]> I !! b = Some i → x ∈ waited_by i →
     ∃ i1, I !! b = Some i1 ∧ x ∈ waited_by i1).
Proof.
  intros Hwf Hg i0. destruct (I !! t) as [it|] eqn:Hit.
  - split.
    + intros x i Hx. rewrite (total_update x I t it) by done. simpl.
      rewrite Z.sub_add. rewrite lookup_insert in Hx. case_decide as Htx; [subst x|by apply Hg].
      injection Hx as <-. simpl. by apply Hg.
    + intros b i x Hb. rewrite lookup_insert in Hb. case_decide; [|by eauto].
      subst b. injection Hb as <-. simpl. eauto.
  - assert (unarrived s !! t = None) as Hu.
    { pose proof (g_unarrived _ _ Hg t) as H. rewrite Hit in H. by inversion H. }
    split.
    + intros x i Hx. rewrite total_insert by done. simpl.
      assert (occ x [] = 0%Z) as -> by done. rewrite lookup_insert in Hx.
      case_decide as Htx; [subst x|rewrite (g_counts _ _ Hg _ _ Hx); lia].
      injection Hx as <-. simpl. symmetry. rewrite Z.add_0_l. apply total_zero.
      intros b ib Hb Hw. destruct (g_sound _ _ Hg b ib t Hb Hw) as (k & q1 & ty & q2 & _ & Hq & _).
      destruct (wf_active _ Hwf k t) as [? ?]; [rewrite Hq, fmap_app; set_solver|congruence].
    + intros b i x Hb. rewrite lookup_insert in Hb. case_decide; [|by eauto].
      injection Hb as <-. simpl. set_solver.
Qed.

Lemma ddr_acquire_ok l s txn :
  ddr_rel l s → can_acquire s (txn_id txn) (num_required_locks txn) (requests txn) →
  let s' := spec_acquire s (txn_id txn) (num_required_locks txn) (requests txn) in
  ddr_rel (AcquireLocks l txn).1 s' ∧
  (AcquireLocks l txn).2 = if decide (ready s' (txn_id txn)) then ACQUIRED else WAITING.
Proof.
  intros (Hwf & Htails & Hgr) Hcan s'. pose proof (spec_wf_acquire _ _ _ _ Hwf Hcan) as Hwf'.
  destruct Hcan as (_ & _ & Hnd & Hfr & _).
  unfold AcquireLocks. rewrite request_keys_requests.
  set (t := txn_id txn) in *. set (m := num_required_locks txn) in *.
  pose proof (request_loop t (requests txn) (lock_table_ l) 0 [] Hnd) as Hreq.
  destruct (foldl (request_lock t) _ _) as [[lt n] bs]. destruct Hreq as (Hlt & Hn & Hbs).
  pose proof (graph_ok_arrived (txn_info_ l) s t m n Hwf Hgr) as [Hc0 Hw0].
  change {| waited_by := []; unarrived_lock_requests := m; waiting_for_cnt := 0 |} with (new_info m).
  fold (arrived n (default (new_info m) (txn_info_ l !! t))).
  set (i0 := arrived n (default (new_info m) (txn_info_ l !! t))) in *.
  set (I0 := <[t := i0]> (txn_info_ l)) in *.
  assert (is_Some (I0 !! t)) as Ht0 by (unfold I0; rewrite lookup_insert_eq; eauto).
  destruct (wait_loop t (sort_unique bs) I0 Ht0 Hc0) as [Hc' Hl'].
  set (I' := foldl (wait_for t) I0 (sort_unique bs)) in *.
  assert (∀ b i, txn_info_ l !! b = Some i → ∃ i', I' !! b = Some i' ∧
    ∀ y, y ∈ waited_by i ∨ (y = t ∧ b ∈ bs ∧ b ≠ t) → y ∈ waited_by i') as Hfwd.
  { intros b i Hi. specialize (Hl' b).
    unfold I0 in Hl'. rewrite lookup_insert in Hl'. case_decide as Htb.
    - subst b. inversion Hl' as [i' ? [_ Hw']|]; subst. exists i'. split; [done|].
      intros y Hy. apply Hw'. rewrite elem_of_sort_unique. unfold i0. rewrite Hi. simpl. naive_solver.
    - rewrite Hi in Hl'. inversion Hl' as [i' ? [_ Hw']|]; subst. exists i'. split; [done|].
      intros y Hy. apply Hw'. by rewrite elem_of_sort_unique. }
  assert (∀ k b ty, (k, ty) ∈ requests txn → b ∈ deps (queue_of s k) ty →
    is_Some (txn_info_ l !! b) ∧ b ∈ bs ∧ b ≠ t) as Hdep.
  { intros k b ty Hk Hb. destruct (deps_conflict _ _ _ Hb) as (tyb & Hin & _).
    apply (list_elem_of_fmap_2 fst) in Hin. simpl in Hin. split_and!.
    - destruct (wf_active _ Hwf k b Hin) as [u Hu]. pose proof (g_unarrived _ _ Hgr b) as H.
      rewrite Hu in H. inversion H; eauto.
    - apply Hbs. right. exists k, ty. split; [done|]. by eapply tail_ok_deps.
    - intros ->. rewrite Forall_forall in Hfr. by apply (Hfr (k, ty)). }
  assert (graph_ok I' s') as Hgr'.
  { split; [| | |done].
    - intros x. specialize (Hl' x). pose proof (g_unarrived _ _ Hgr x) as Hu.
      simpl (unarrived s'). rewrite lookup_insert. unfold I0 in Hl'. rewrite lookup_insert in Hl'.
      case_decide as Htx.
      + subst x. inversion Hl' as [i' ? [Hu' _]|]; subst. constructor. rewrite Hu'. simpl.
        inversion Hu; simpl; lia.
      + inversion Hl' as [i' i [Hu' _] E1 E2|E1 E2]; rewrite <-E2 in Hu;
          inversion Hu; subst; constructor; congruence.
    - intros k q1 x ty q2 b Hq Hb.
      assert (∃ i, txn_info_ l !! b = Some i ∧
        (x ∈ waited_by i ∨ (x = t ∧ b ∈ bs ∧ b ≠ t))) as (i & Hi & Hor).
      { destruct (queue_of_acquire_cases s t m (requests txn) k Hnd) as [[_ Hqk]|(ty' & Hk & Hqk)];
          unfold s' in Hq; rewrite Hqk in Hq.
        - destruct (g_complete _ _ Hgr _ _ _ _ _ _ Hq Hb) as (i & ? & ?). eauto.
        - apply snoc_split in Hq as [[q3 Hq]|(-> & [= -> ->] & ->)].
          + destruct (g_complete _ _ Hgr _ _ _ _ _ _ Hq Hb) as (i & ? & ?). eauto.
          + destruct (Hdep _ _ _ Hk Hb) as ([i Hi] & ? & ?). exists i. by auto. }
      destruct (Hfwd b i Hi) as (i' & Hi' & Hw). eauto.
    - intros b i' x Hb Hx. specialize (Hl' b). rewrite Hb in Hl'.
      inversion Hl' as [i2 i1 [_ Hw'] E1 E2|]; subst i2. rewrite Hw' in Hx.
      destruct Hx as [Hx|(-> & Hbb & Hbt)].
      + destruct (Hw0 b i1 x) as (i & Hi & Hxi); [done..|]. apply blocks_acquire.
        by eapply (g_sound _ _ Hgr).
      + rewrite elem_of_sort_unique, Hbs in Hbb. destruct Hbb as [?|(k & ty & Hk & Hd)]; [set_solver|].
        destruct (queue_of_acquire_cases s t m (requests txn) k Hnd) as [[Hn' _]|(ty' & Hk' & Hqk)].
        { by apply (list_elem_of_fmap_2 fst) in Hk. }
        assert (ty' = ty) as -> by by eapply NoDup_fmap_fst_inj.
        destruct (proj1 (tail_ok_deps _ _ _ _ b (Htails k)) Hd) as [Hdq|Hf].
        * destruct (deps_conflict _ _ _ Hdq) as (tyb & Hin & Hcf).
          exists k, (queue_of s k), ty, [], tyb. done.
        * apply (wf_finished _ Hwf) in Hf. pose proof (g_unarrived _ _ Hgr b) as H.
          rewrite Hf in H. unfold I0 in E2. rewrite lookup_insert_ne in E2 by done.
          rewrite <-E2 in H. inversion H. }
  split.
  - split_and!; [done| |done]. intros k. cbn [fst lock_table_]. rewrite Hlt.
    unfold s'. rewrite queue_of_acquire. apply tail_ok_entries with (t := t); [|apply Htails].
    apply Forall_forall. intros [x ty] [-> _]%elem_of_new_entries. done.
  - cbn [snd]. destruct (I' !! t) as [i|] eqn:Hi.
    + pose proof (graph_ready I' s' t i Hwf' Hgr' Hi) as Hr.
      destruct (is_ready i); case_decide; naive_solver.
    + specialize (Hl' t). rewrite Hi in Hl'. inversion Hl' as [|E1 E2]. destruct Ht0; congruence.
Qed.

(** *** Releasing *)

Lemma add_waiting_for_add a b i :
  add_waiting_for a (add_waiting_for b i) = add_waiting_for (a + b) i.
Proof. unfold add_waiting_for; simpl. f_equal. lia. Qed.

Lemma add_waiting_for_0 i : add_waiting_for 0 i = i.
Proof. destruct i. unfold add_waiting_for; simpl. f_equal. lia. Qed.

Lemma unblock_loop w I res :
  (∀ x i, I !! x = Some i → (occ x w ≤ waiting_for_cnt i)%Z) →
  let '(I', res') := foldl unblock (I, res) w in
  (∀ x, I' !! x = add_waiting_for (- occ x w) <$> I !! x) ∧
  (∀ x, x ∈ res' ↔ x ∈ res ∨ (x ∈ w ∧ ∃ i, I' !! x = Some i ∧ is_ready i = true)) ∧
  (NoDup res → (∀ x, x ∈ res → x ∉ w) → NoDup res').
Proof.
  revert I res. induction w as [|y w IH]; intros I res Hle.
  { simpl. split_and!; [|set_solver|done]. intros x. assert (occ x [] = 0%Z) as -> by done.
    destruct (I !! x); simpl; [|done]. by rewrite add_waiting_for_0. }
  cbn [foldl]. unfold unblock at 2. destruct (I !! y) as [i|] eqn:Hi.
  - set (i1 := add_waiting_for (-1) i). set (res1 := if is_ready i1 then res ++ [y] else res).
    assert (∀ x j, <[y := i1]> I !! x = Some j → (occ x w ≤ waiting_for_cnt j)%Z) as Hle1.
    { intros x j. rewrite lookup_insert. case_decide as Hyx; intros Hj; simplify_eq.
      - apply Hle in Hi. rewrite occ_cons, decide_True in Hi by done. simpl. lia.
      - apply Hle in Hj. rewrite occ_cons, decide_False in Hj by done. lia. }
    assert (is_ready i1 = true → y ∉ w) as Hlast.
    { intros Hr Hy%occ_pos. pose proof (Hle1 y i1 (lookup_insert_eq _ _ _)) as Hl.
      unfold is_ready in Hr. bools. lia. }
    specialize (IH (<[y := i1]> I) res1 Hle1). destruct (foldl unblock _ w) as [I' res'].
    destruct IH as (HI & Hres & Hnd). split_and!.
    + intros x. rewrite HI, lookup_insert, occ_cons. case_decide as Hyx.
      * subst x. rewrite Hi. simpl. unfold i1. rewrite add_waiting_for_add.
        do 2 f_equal. lia.
      * do 2 f_equal. 
    + intros x. rewrite Hres. unfold res1. rewrite elem_of_cons. destruct (is_ready i1) eqn:Er.
      * rewrite elem_of_app, list_elem_of_singleton. split; [|naive_solver].
        intros [[?| ->]|?]; [by left| |naive_solver]. right. split; [by left|]. exists i1.
        split; [|done]. rewrite HI, lookup_insert_eq. simpl. rewrite occ_zero by auto.
        by rewrite add_waiting_for_0.
      * split; [naive_solver|]. intros [?|([-> |?] & j & Hj & Hr)]; [by left| |by eauto].
        destruct (decide (y ∈ w)) as [|Hy]; [by eauto|].
        rewrite HI, lookup_insert_eq, occ_zero in Hj by done. simpl in Hj.
        rewrite add_waiting_for_0 in Hj. congruence.
    + intros Hn Hd. apply Hnd; unfold res1; destruct (is_ready i1); try done.
      * apply NoDup_app. split_and!; [done| |apply NoDup_singleton].
        intros x Hx ->%list_elem_of_singleton. apply (Hd y Hx). left.
      * intros x [Hx|Hx]%elem_of_app; [specialize (Hd x Hx); set_solver|].
        apply list_elem_of_singleton in Hx as ->. auto.
      * intros x Hx. specialize (Hd x Hx). set_solver.
  - assert (∀ x j, I !! x = Some j → (occ x w ≤ waiting_for_cnt j)%Z) as Hle1.
    { intros x j Hj. pose proof (Hle x j Hj) as H. rewrite occ_cons in H. case_decide; lia. }
    specialize (IH I res Hle1). destruct (foldl unblock _ w) as [I' res'].
    destruct IH as (HI & Hres & Hnd). split_and!.
    + intros x. rewrite HI, occ_cons. case_decide as Hyx; [subst x; by rewrite Hi|].
      by rewrite Z.add_0_l.
    + intros x. rewrite Hres, elem_of_cons. split; [naive_solver|].
      intros [?|([-> |?] & j & Hj & Hr)]; [by left| |by eauto].
      rewrite HI, Hi in Hj. done.
    + intros Hn Hd. apply Hnd; [done|]. intros x Hx. specialize (Hd x Hx). set_solver.
Qed.

Lemma blocks_release s t b x : b ≠ t → x ≠ t → blocks s b x → blocks (spec_release s t) b x.
Proof.
  intros Hb Hx (k & q1 & ty & q2 & tyb & Hq & Hin & Hc).
  exists k, (remove_txn t q1), ty, (remove_txn t q2), tyb.
  rewrite queue_of_release, Hq, remove_txn_app. unfold remove_txn at 2.
  rewrite filter_cons, decide_True by done. split_and!; [done| |done].
  by apply elem_of_remove_txn.
Qed.

Lemma graph_release I I' s t it :
  spec_wf s → graph_ok I s → ready s t → I !! t = Some it →
  (∀ x, I' !! x = add_waiting_for (- occ x (waited_by it)) <$> I !! x) →
  graph_ok (delete t I') (spec_release s t).
Proof.
  intros Hwf Hg Hr Hit HI. pose proof (proj1 (ready_queue_of s t) Hr) as [_ Hgt]. split.
  - intros x. simpl. destruct (decide (x = t)) as [->|Hne].
    { rewrite !lookup_delete_eq. constructor. }
    rewrite !lookup_delete_ne, HI by done. pose proof (g_unarrived _ _ Hg x) as H.
    inversion H; constructor. done.
  - intros k q1 x ty q2 b Hq Hb. rewrite queue_of_release in Hq.
    apply filter_split in Hq as (p1 & p2 & Hq & <- & <-).
    assert (b ≠ t) as Hbt.
    { destruct (deps_conflict _ _ _ Hb) as (tyb & Hin & _).
      by apply (elem_of_remove_txn t) in Hin as [_ ?]. }
    apply (deps_remove p1 ((x, ty) :: p2)) in Hb.
    + destruct (g_complete _ _ Hg _ _ _ _ _ _ Hq Hb) as (i & Hi & Hx).
      exists (add_waiting_for (- occ b (waited_by it)) i).
      rewrite lookup_delete_ne, HI, Hi by done. done.
    + rewrite <-Hq. apply Hwf.
    + rewrite <-Hq. apply Hgt.
  - intros b i x Hb Hx. apply lookup_delete_Some in Hb as [Hbt Hb]. rewrite HI in Hb.
    apply fmap_Some in Hb as (i1 & Hi1 & ->). simpl in Hx.
    pose proof (g_sound _ _ Hg _ _ _ Hi1 Hx) as Hbl. apply blocks_release; [done| |done].
    intros ->. by eapply blocks_not_ready.
  - intros x i Hx. apply lookup_delete_Some in Hx as [Hxt Hx]. rewrite HI in Hx.
    apply fmap_Some in Hx as (i1 & Hi1 & ->). simpl. rewrite (g_counts _ _ Hg _ _ Hi1).
    rewrite (total_delete x I t it Hit).
    assert (total x (delete t I') = total x (delete t I)) as ->; [|lia].
    apply total_ext. intros y. rewrite !lookup_delete. case_decide; [done|]. rewrite HI.
    by destruct (I !! y).
Qed.

Lemma ddr_release_ok l s t :
  ddr_rel l s → ready s t →
  ∃ l' out, ReleaseLocks l t = Ok (l', out) ∧ ddr_rel l' (spec_release s t) ∧
    NoDup out ∧ ∀ t', t' ∈ out ↔ t' ∈ spec_unblocked s t.
Proof.
  intros (Hwf & Htails & Hg) Hr. pose proof (proj1 (ready_queue_of s t) Hr) as [Hu Hgt].
  pose proof (g_unarrived _ _ Hg t) as Hut. rewrite Hu in Hut.
  inversion Hut as [it ? _ Hit|]; subst. symmetry in Hit.
  unfold ReleaseLocks. rewrite Hit, (proj2 (graph_ready _ _ _ _ Hwf Hg Hit) Hr). cbn [negb].
  pose proof (unblock_loop (waited_by it) (txn_info_ l) []) as Hloop.
  destruct (foldl unblock _ _) as [I' res].
  destruct Hloop as (HI & Hres & Hnd).
  { intros x i Hx. rewrite (g_counts _ _ Hg _ _ Hx), (total_delete x _ _ _ Hit).
    pose proof (total_nonneg x (delete t (txn_info_ l))). lia. }
  pose proof (graph_release _ _ _ _ _ Hwf Hg Hr Hit HI) as Hg'.
  pose proof (spec_wf_release _ t Hwf) as Hwf'.
  eexists _, res. split; [reflexivity|]. split_and!.
  - split_and!; [done| |done]. intros k. rewrite queue_of_release. cbn [lock_table_].
    apply tail_ok_release; [apply Hwf|apply Hgt|apply Htails].
  - apply Hnd; [constructor|set_solver].
  - intros x. rewrite Hres, elem_of_spec_unblocked.
    assert (x ∈ waited_by it → ¬ ready s x) as Hnr.
    { intros Hx. eapply blocks_not_ready; [done|]. by eapply (g_sound _ _ Hg). }
    split.
    + intros [?|(Hx & i & Hi & Hri)]; [set_solver|]. split; [|auto].
      assert (x ≠ t) as Hxt by (intros ->; by apply Hnr).
      eapply graph_ready; [done|exact Hg'| |exact Hri]. by rewrite lookup_delete_ne.
    + intros [Hrx Hnx]. right.
      assert (x ≠ t) as Hxt by (intros ->; done).
      destruct (txn_info_ l !! x) as [i|] eqn:Hi.
      2:{ destruct Hrx as [Hux _]. simpl in Hux. rewrite lookup_delete_ne in Hux by done.
          pose proof (g_unarrived _ _ Hg x) as H. rewrite Hi, Hux in H. inversion H. }
      assert (I' !! x = Some (add_waiting_for (- occ x (waited_by it)) i)) as Hi'
        by by rewrite HI, Hi.
      assert (is_ready (add_waiting_for (- occ x (waited_by it)) i) = true) as Hri.
      { eapply graph_ready; [done|exact Hg'| |exact Hrx]. by rewrite lookup_delete_ne. }
      split; [|by eauto]. destruct (decide (x ∈ waited_by it)) as [|Hx]; [done|].
      destruct Hnx. eapply graph_ready; [done|exact Hg|exact Hi|].
      by rewrite occ_zero, add_waiting_for_0 in Hri.
Qed.

End Simulation.

#[global] Instance ddr_correct : LockManagerCorrect DDRLockManager.
Proof.
  refine {| lm_rel := ddr_rel |}.
  - split_and!; [apply spec_wf_init| |].
    + intros k. right. exists []. cbn. set_solver.
    + split; [constructor| |done|done]. intros k q1 t ty q2 b Hq. by destruct q1.
  - apply ddr_acquire_ok.
  - apply ddr_release_ok.
Defined.

(** ** Properties *)

(** C3. The DDR lock manager, which keeps only queue tails and a waiting graph,
    dispatches at every call exactly the transactions that the abstract lock
    manager makes ready; it never reaches the fatal error for an unready release. *)
Theorem ddr_refines (es : list lock_event) :
  valid_trace (L := DDRLockManager) spec_init es →
  ∃ l outs, lm_run ddr_init es = Ok (l, outs) ∧
    ddr_rel l (spec_final (L := DDRLockManager) spec_init es) ∧
    Forall2 lists_set outs (spec_outs (L := DDRLockManager) spec_init es) ∧
    NoDup (concat outs).
Proof.
  intros Hv. destruct (lm_run_init (L := DDRLockManager) es Hv)
    as (l & outs & Hrun & Hrel & Houts & _ & Hnd). by exists l, outs.
Qed.

Lemma ddr_refines_witness :
  ∃ l outs, lm_run ddr_init RMALock.example_trace_release = Ok (l, outs) ∧
    ddr_rel l (spec_final (L := DDRLockManager) spec_init RMALock.example_trace_release) ∧
    Forall2 lists_set outs
      (spec_outs (L := DDRLockManager) spec_init RMALock.example_trace_release) ∧
    NoDup (concat outs).
Proof.
  apply (ddr_refines RMALock.example_trace_release).
  apply (bool_decide_eq_true_1 _). vm_compute. reflexivity.
Defined.

(** C4. The two remaster-aware lock managers agree: on every run that respects
    the calling discipline both succeed and each call dispatches the same
    transactions, up to order. *)
Theorem rma_ddr_agree (es : list lock_event) :
  valid_trace (L := RMALock.RMALockManager) spec_init es →
  ∃ l1 l2 outs1 outs2,
    lm_run RMALock.rma_init es = Ok (l1, outs1) ∧ lm_run ddr_init es = Ok (l2, outs2) ∧
    Forall2 (≡ₚ) outs1 outs2.
Proof.
  intros Hv.
  destruct (lm_run_init (L := RMALock.RMALockManager) es Hv) as (l1 & outs1 & Hr1 & _ & Ho1 & _).
  assert (valid_trace (L := DDRLockManager) spec_init es) as Hv2 by exact Hv.
  destruct (lm_run_init (L := DDRLockManager) es Hv2) as (l2 & outs2 & Hr2 & _ & Ho2 & _).
  exists l1, l2, outs1, outs2. split_and!; [done..|].
  change (spec_outs (L := DDRLockManager) spec_init es) with
    (spec_outs (L := RMALock.RMALockManager) spec_init es) in Ho2.
  clear Hr1 Hr2 Hv Hv2. generalize dependent (spec_outs (L := RMALock.RMALockManager) spec_init es).
  intros Xs Ho1. revert outs2. induction Ho1 as [|o1 X outs1 Xs [Hn1 Hx1] _ IH]; intros outs2 Ho2;
    inversion Ho2 as [|o2 ? outs2' ? [Hn2 Hx2] Ho2']; subst; constructor; [|auto].
  apply NoDup_Permutation; [done..|]. intros t. by rewrite Hx1, Hx2.
Qed.

Lemma rma_ddr_agree_witness :
  ∃ l1 l2 outs1 outs2,
    lm_run RMALock.rma_init RMALock.example_trace_release = Ok (l1, outs1) ∧
    lm_run ddr_init RMALock.example_trace_release = Ok (l2, outs2) ∧
    Forall2 (≡ₚ) outs1 outs2.
Proof.
  apply (rma_ddr_agree RMALock.example_trace_release).
  apply (bool_decide_eq_true_1 _). vm_compute. reflexivity.
Defined.
