(* ===== verification/OldLock.v ===== *)
(** * The first lock manager

    [OldLockManager] of [module/scheduler_components/old_lock_manager.cpp], which locks keys
    whatever their master, and whose simulation by the queues of [LockSpec] goes through the
    loops of the remaster-aware manager. The new holders of a lock are visited in the order
    of an [unordered_set], which is the argument [visit]. *)
From S2P Require Import Prelude Types LockSpec RMALock.

(** ** One lock *)

Record OldLockState := {
  old_mode : LockMode;
  old_holders_ : gset TxnId;
  waiters_ : gset TxnId;
  old_waiter_queue_ : list (TxnId * LockMode)
}.

Definition old_empty_lock : OldLockState :=
  {| old_mode := UNLOCKED; old_holders_ := ∅; waiters_ := ∅; old_waiter_queue_ := [] |}.

Definition wait_for (st : OldLockState) (t : TxnId) (m : LockMode) : OldLockState :=
  {| old_mode := old_mode st; old_holders_ := old_holders_ st; waiters_ := {[t]} ∪ waiters_ st;
     old_waiter_queue_ := old_waiter_queue_ st ++ [(t, m)] |}.

Definition hold (st : OldLockState) (t : TxnId) (m : LockMode) : OldLockState :=
  {| old_mode := m; old_holders_ := {[t]} ∪ old_holders_ st; waiters_ := waiters_ st;
     old_waiter_queue_ := old_waiter_queue_ st |}.

Definition AcquireReadLock (st : OldLockState) (t : TxnId) : OldLockState * bool :=
  match old_mode st with
  | UNLOCKED => (hold st t LOCK_READ, true)
  | LOCK_READ => if decide (waiters_ st = ∅) then (hold st t LOCK_READ, true) else (wait_for st t LOCK_READ, false)
  | LOCK_WRITE => (wait_for st t LOCK_READ, false)
  end.

Definition AcquireWriteLock (st : OldLockState) (t : TxnId) : OldLockState * bool :=
  match old_mode st with
  | UNLOCKED => (hold st t LOCK_WRITE, true)
  | LOCK_READ | LOCK_WRITE => (wait_for st t LOCK_WRITE, false)
  end.

Definition Contains (st : OldLockState) (t : TxnId) : bool :=
  bool_decide (t ∈ old_holders_ st) || bool_decide (t ∈ waiters_ st).

(** The loop that hands a read lock to the readers at the head of the queue. *)
Fixpoint grant_reads (hs ws : gset TxnId) (q : list (TxnId * LockMode)) :
    gset TxnId * gset TxnId * list (TxnId * LockMode) :=
  match q with
  | (t, LOCK_READ) :: q' => grant_reads ({[t]} ∪ hs) (ws ∖ {[t]}) q'
  | _ => (hs, ws, q)
  end.

Definition Release (st : OldLockState) (t : TxnId) : result (OldLockState * gset TxnId) :=
  if decide (t ∈ old_holders_ st) then
    let hs := old_holders_ st ∖ {[t]} in
    if decide (hs ≠ ∅) then
      Ok ({| old_mode := old_mode st; old_holders_ := hs; waiters_ := waiters_ st;
             old_waiter_queue_ := old_waiter_queue_ st |}, ∅)
    else if decide (waiters_ st = ∅) then
      Ok ({| old_mode := UNLOCKED; old_holders_ := hs; waiters_ := waiters_ st;
             old_waiter_queue_ := old_waiter_queue_ st |}, ∅)
    else
      match old_waiter_queue_ st with
      | [] => Err (Undef "list::front")
      | (front, m) :: q =>
        match m with
        | LOCK_READ =>
          let '(hs', ws', q') := grant_reads hs (waiters_ st) (old_waiter_queue_ st) in
          Ok ({| old_mode := LOCK_READ; old_holders_ := hs'; waiters_ := ws'; old_waiter_queue_ := q' |}, hs')
        | LOCK_WRITE =>
          Ok ({| old_mode := LOCK_WRITE; old_holders_ := {[front]} ∪ hs; waiters_ := waiters_ st ∖ {[front]};
                 old_waiter_queue_ := q |}, {[front]} ∪ hs)
        | UNLOCKED =>
          Ok ({| old_mode := old_mode st; old_holders_ := hs; waiters_ := waiters_ st;
                 old_waiter_queue_ := old_waiter_queue_ st |}, hs)
        end
      end
  else
    Ok ({| old_mode := old_mode st; old_holders_ := old_holders_ st; waiters_ := waiters_ st ∖ {[t]};
           old_waiter_queue_ := filter (λ p, p.1 ≠ t) (old_waiter_queue_ st) |}, ∅).

(** ** The manager *)

Record OldLockManager := {
  old_txn_info_ : gmap Z TxnInfo;
  old_lock_table_ : gmap string OldLockState;
  old_num_locked_keys_ : Z
}.

Definition old_init : OldLockManager :=
  {| old_txn_info_ := ∅; old_lock_table_ := ∅; old_num_locked_keys_ := 0 |}.

Definition kLockTableSizeLimit : Z := 1000000.

Definition old_lock_state (lt : gmap string OldLockState) (k : Key) : OldLockState :=
  default old_empty_lock (lt !! k).

Definition other_home (txn : Transaction) (kv : KeyValueEntry) : bool :=
  bool_decide (i32 (key_master kv) ≠ home (internal txn)).

Definition old_requests (txn : Transaction) : list (Key * KeyType) :=
  (λ kv, (key kv, key_type kv)) <$> filter (λ kv, other_home txn kv = false) (keys txn).

(** The body of the loop over the keys of [AcquireLocks]. *)
Definition old_acquire_lock (t : TxnId) (a : gmap string OldLockState * Z * TxnInfo) (r : Key * KeyType) :
    gmap string OldLockState * Z * TxnInfo :=
  let '(lt, nlocked, info) := a in
  let '(k, ty) := r in
  let info := {| num_waiting_for := num_waiting_for info; info_keys := info_keys info ++ [k] |} in
  let st := old_lock_state lt k in
  let before_mode := old_mode st in
  let '(st', got) := match ty with
    | READ => AcquireReadLock st t
    | WRITE => AcquireWriteLock st t
    end in
  let info := if got : bool then one_less info else info in
  let nlocked :=
    if decide (before_mode = UNLOCKED ∧ old_mode st' ≠ before_mode) then u32 (nlocked + 1) else nlocked in
  (<[k := st']> lt, nlocked, info).

Definition old_acquire_key (txn : Transaction) (a : gmap string OldLockState * Z * TxnInfo) (kv : KeyValueEntry) :
    gmap string OldLockState * Z * TxnInfo :=
  if other_home txn kv then a else old_acquire_lock (txn_id txn) a (key kv, key_type kv).

Definition AcquireLocks (l : OldLockManager) (txn : Transaction) : OldLockManager * AcquireLocksResult :=
  let t := txn_id txn in
  let info := default {| num_waiting_for := keys_size txn; info_keys := [] |} (old_txn_info_ l !! t) in
  let '(lt, nlocked, info) :=
    foldl (old_acquire_key txn) (old_lock_table_ l, old_num_locked_keys_ l, info) (keys txn) in
  ({| old_txn_info_ := <[t := info]> (old_txn_info_ l); old_lock_table_ := lt; old_num_locked_keys_ := nlocked |},
   if is_ready info then ACQUIRED else WAITING).

Section manager.
  Context (visit : gset TxnId → list TxnId).

(** The body of the loop over the keys of [ReleaseLocks]. *)
Definition old_release_lock (t : TxnId) (a : OldLockManager * list TxnId) (k : Key) :
    result (OldLockManager * list TxnId) :=
  let '(l, res) := a in
  match old_lock_table_ l !! k with
  | None => Ok a
  | Some st =>
    '(st', new_grantees) ← Release st t;
    let nlocked :=
      if decide (old_mode st' = UNLOCKED ∧ old_mode st ≠ UNLOCKED) then u32 (old_num_locked_keys_ l - 1)
      else old_num_locked_keys_ l in
    let lt := <[k := st']> (old_lock_table_ l) in
    let lt := if decide (old_mode st' = UNLOCKED ∧ (kLockTableSizeLimit < Z.of_nat (size lt))%Z) then delete k lt else lt in
    '(infos, res) ← rfoldl grant (old_txn_info_ l, res) (visit new_grantees);
    Ok ({| old_txn_info_ := infos; old_lock_table_ := lt; old_num_locked_keys_ := nlocked |}, res)
  end.

Definition ReleaseLocks (l : OldLockManager) (t : TxnId) : result (OldLockManager * list TxnId) :=
  match old_txn_info_ l !! t with
  | None => Ok (l, [])
  | Some info =>
    '(l', res) ← rfoldl (old_release_lock t) (l, []) (info_keys info);
    Ok ({| old_txn_info_ := delete t (old_txn_info_ l'); old_lock_table_ := old_lock_table_ l';
           old_num_locked_keys_ := old_num_locked_keys_ l' |}, sort_unique res)
  end.

Definition old_lock_manager : LockManager OldLockManager := {|
  lm_init := old_init;
  lm_AcquireLocks := AcquireLocks;
  lm_ReleaseLocks := ReleaseLocks;
  lm_requests := old_requests;
  lm_required := keys_size
|}.
End manager.

(** ** The lock state a queue of requests stands for *)

Definition old_conc (q : list (TxnId * KeyType)) : OldLockState :=
  {| old_mode := mode (conc q);
     old_holders_ := list_to_set (granted q).*1;
     waiters_ := list_to_set (waiting q).*1;
     old_waiter_queue_ := as_waiter <$> waiting q |}.

Lemma list_to_set_nil_inv (l : list TxnId) : (list_to_set l : gset TxnId) = ∅ → l = [].
Proof. destruct l as [|x l]; [done|]. simpl. set_solver. Qed.

Lemma old_acquire_conc q t ty :
  match ty with
  | READ => AcquireReadLock (old_conc q) t
  | WRITE => AcquireWriteLock (old_conc q) t
  end =
  (old_conc (q ++ [(t, ty)]), bool_decide (grantable q ty)).
Proof.
  unfold old_conc at 3. rewrite granted_snoc, waiting_snoc.
  destruct (decide (grantable q ty)) as [Hg|Hg]; [rewrite (bool_decide_true _ Hg)|rewrite (bool_decide_false _ Hg)].
  - pose proof (grantable_waiting _ _ Hg) as Hw. pose proof (grantable_granted _ _ Hg) as Hgr.
    unfold AcquireReadLock, AcquireWriteLock, old_conc, hold. simpl. rewrite Hw, Hgr, fmap_app.
    destruct Hg as [->|[-> Hall]]; [by destruct ty; f_equal; f_equal; set_solver|].
    destruct Hall as [|[x []] q]; simplify_eq/=; [f_equal; f_equal; set_solver|]. f_equal. f_equal. set_solver.
  - unfold AcquireReadLock, AcquireWriteLock, old_conc, wait_for. simpl. rewrite !fmap_app.
    assert (Hset : {[t]} ∪ list_to_set (waiting q).*1 = (list_to_set ((waiting q).*1 ++ [(t, ty)].*1) : gset TxnId)) by set_solver.
    destruct q as [|[x ty'] q]; [destruct Hg; by left|].
    destruct ty, ty'; cbn [mode_of]; try (by rewrite Hset).
    rewrite decide_False; [by rewrite Hset|]. intros Hw%list_to_set_nil_inv%fmap_nil_inv. apply Hg, grantable_READ. auto.
Qed.

Lemma old_grant_reads_conc hs ws q :
  grant_reads hs ws (as_waiter <$> q) =
  (list_to_set (leading_reads q).*1 ∪ hs, ws ∖ list_to_set (leading_reads q).*1,
   as_waiter <$> drop (length (leading_reads q)) q).
Proof.
  revert hs ws. induction q as [|[x []] q IH]; intros hs ws; simpl.
  - f_equal. f_equal; set_solver.
  - rewrite IH. f_equal. f_equal; set_solver.
  - f_equal. f_equal; set_solver.
Qed.

Lemma set_remove_txn t q :
  (list_to_set q.*1 ∖ {[t]} : gset TxnId) = list_to_set (remove_txn t q).*1.
Proof. apply set_eq. intros x. rewrite elem_of_difference, !elem_of_list_to_set, remove_txn_fst. set_solver. Qed.

(** Taking the first waiters out of the set of waiters. *)
Lemma set_waiting_granted q :
  NoDup q.*1 → (list_to_set q.*1 ∖ list_to_set (granted q).*1 : gset TxnId) = list_to_set (waiting q).*1.
Proof.
  intros Hnd. rewrite <-(granted_waiting q), fmap_app, NoDup_app in Hnd. destruct Hnd as (_ & Hd & _).
  rewrite <-(granted_waiting q) at 1. rewrite fmap_app. apply set_eq. intros x.
  rewrite elem_of_difference, !elem_of_list_to_set, elem_of_app. split; [naive_solver|].
  intros Hx. split; [by right|]. intros Hg. by apply (Hd x).
Qed.

Lemma old_release_conc q t :
  NoDup q.*1 → t ∈ (granted q).*1 →
  Release (old_conc q) t = Ok (old_conc (remove_txn t q), list_to_set (new_holders t q)).
Proof.
  intros Hnd Ht. pose proof (release_conc q t Hnd Ht) as Hc. unfold Release. simpl (old_holders_ _).
  rewrite decide_True by (by apply elem_of_list_to_set). rewrite set_remove_txn.
  unfold RMALock.Release in Hc. rewrite decide_True in Hc by done. simpl (holders_ _) in Hc.
  rewrite erase_first_remove in Hc.
  2:{ rewrite <-(granted_waiting q), fmap_app, NoDup_app in Hnd. naive_solver. }
  unfold new_holders in *. destruct (decide (remove_txn t (granted q) = [])) as [Hr|Hr].
  - clear Hc. rewrite Hr. rewrite decide_False by (simpl; auto). simpl (waiters_ _). simpl (old_waiter_queue_ _).
    assert (Hq : remove_txn t q = waiting q) by (by rewrite remove_granted, Hr). rewrite Hq.
    assert (Hndw : NoDup (waiting q).*1).
    { rewrite <-(granted_waiting q), fmap_app, NoDup_app in Hnd. naive_solver. }
    pose proof (set_waiting_granted (waiting q) Hndw) as Hsw. pose proof (granted_waiting (waiting q)) as Hgw.
    destruct (waiting q) as [|[x ty] w] eqn:Ew; [done|].
    rewrite decide_False by (simpl; set_solver). unfold old_conc. rewrite <-Hsw. destruct ty.
    + pose proof (old_grant_reads_conc ∅ (list_to_set ((x, READ) :: w).*1) ((x, READ) :: w)) as E.
      simpl in E |- *. rewrite E, !union_empty_r_L. done.
    + simpl. rewrite !union_empty_r_L. done.
  - rewrite decide_True in Hc by (by intros ?%fmap_nil_inv). rewrite decide_True.
    2:{ intros Hs%list_to_set_nil_inv%fmap_nil_inv. done. }
    destruct (granted_remove_holders t q Hnd Ht Hr) as [Hg Hw]. injection Hc as Hm _ _. simpl in Hm.
    unfold old_conc. rewrite Hg, Hw. simpl. rewrite <-Hm. done.
Qed.

(** ** The simulation *)

Section simulation.
  Context (visit : gset TxnId → list TxnId) (visit_elements : ∀ X, visit X ≡ₚ elements X).
  Implicit Types (t : TxnId) (k : Key) (s : lock_spec) (Q : string → list (Z * KeyType)).

Definition old_table_ok (lt : gmap string OldLockState) Q : Prop := ∀ k, old_lock_state lt k = old_conc (Q k).

(** The tables of both managers stand for the same queues. *)
Definition tables_ok (lts : gmap string OldLockState * gmap string LockState) Q : Prop :=
  old_table_ok lts.1 Q ∧ table_ok lts.2 Q.

Definition old_rel (l : OldLockManager) s : Prop :=
  spec_wf s ∧ (∃ lt, tables_ok (old_lock_table_ l, lt) (queue_of s)) ∧
  infos_ok (old_txn_info_ l) (queue_of s) (unarrived s).

Lemma old_table_ok_insert lt Q Q' k q :
  old_table_ok lt Q → Q' k = q → (∀ k', k' ≠ k → Q' k' = Q k') → old_table_ok (<[k := old_conc q]> lt) Q'.
Proof.
  intros Ht Hk Hne k'. unfold old_lock_state. destruct (decide (k' = k)) as [->|Hn].
  - by rewrite lookup_insert_eq, Hk.
  - rewrite lookup_insert_ne, Hne by done. apply Ht.
Qed.

(** Both managers side by side. *)
Definition both_acquire t (a : (gmap string OldLockState * gmap string LockState) * Z * TxnInfo) (r : Key * KeyType) :
    (gmap string OldLockState * gmap string LockState) * Z * TxnInfo :=
  let '((ot, lt), nl, i) := a in
  let '(ot', nl', i') := old_acquire_lock t (ot, nl, i) r in
  let '(lt', _, _) := acquire_lock t (lt, nl, i) r in
  ((ot', lt'), nl', i').

Lemma both_acquire_fst t reqs ot lt nl i :
  let '((ot', _), nl', i') := foldl (both_acquire t) ((ot, lt), nl, i) reqs in
  foldl (old_acquire_lock t) (ot, nl, i) reqs = (ot', nl', i').
Proof.
  revert ot lt nl i. induction reqs as [|r reqs IH]; intros ot lt nl i; [done|]. cbn [foldl]. unfold both_acquire at 2.
  destruct (old_acquire_lock t (ot, nl, i) r) as [[ot' nl'] i']. destruct (acquire_lock t (lt, nl, i) r) as [[lt' ?] ?]. apply IH.
Qed.

Lemma both_acquire_ok s t m I n lts nl i k ty :
  tables_ok lts (queue_of s) → infos_ok (<[t := i]> I) (queue_of s) (unarrived s) →
  unarrived s !! t = Some n → t ∉ (queue_of s k).*1 →
  let s' := spec_acquire s t m [(k, ty)] in
  let '(lts', _, i') := both_acquire t (lts, nl, i) (k, ty) in
  tables_ok lts' (queue_of s') ∧ infos_ok (<[t := i']> I) (queue_of s') (unarrived s').
Proof.
  destruct lts as [ot lt]. intros [Ho Ht] HI Hu Hk s'. cbn [fst snd] in Ho, Ht.
  pose proof (acquire_lock_ok s t m n lt nl i I k ty Ht HI Hu Hk) as Hr. cbv zeta in Hr. fold s' in Hr.
  unfold both_acquire. unfold acquire_lock in *. unfold old_acquire_lock. rewrite !(Ho k), old_acquire_conc.
  rewrite !(Ht k), !acquire_conc in Hr |- *. destruct Hr as [Ht' HI']. split; [|done]. split; [|done]. simpl.
  assert (∀ k', k' ≠ k → queue_of s' k' = queue_of s k') as Hother.
  { intros k' Hne. unfold s'. rewrite queue_of_acquire, new_entries_nil, app_nil_r; [done|]. simpl. set_solver. }
  apply (old_table_ok_insert ot (queue_of s)); [done| |done]. unfold s'. rewrite queue_of_acquire. f_equal.
  apply new_entries_singleton; [apply NoDup_singleton|set_solver].
Qed.

Lemma old_acquire_keys_requests txn a :
  foldl (old_acquire_key txn) a (keys txn) = foldl (old_acquire_lock (txn_id txn)) a (old_requests txn).
Proof.
  unfold old_requests. generalize (keys txn). intros ks. revert a.
  induction ks as [|kv ks IH]; intros a; [done|]. simpl. unfold old_acquire_key at 2. rewrite filter_cons.
  destruct (other_home txn kv) eqn:E.
  - rewrite decide_False by done. apply IH.
  - rewrite decide_True by done. simpl. apply IH.
Qed.

Lemma old_acquire_ok l s txn :
  old_rel l s → can_acquire s (txn_id txn) (keys_size txn) (old_requests txn) →
  let s' := spec_acquire s (txn_id txn) (keys_size txn) (old_requests txn) in
  old_rel (AcquireLocks l txn).1 s' ∧
  (AcquireLocks l txn).2 = if decide (ready s' (txn_id txn)) then ACQUIRED else WAITING.
Proof.
  intros (Hwf & [lt Ht] & HI) Hcan s'.
  pose proof (acquire_call_gen (both_acquire (txn_id txn)) tables_ok (txn_id txn) (keys_size txn) (old_requests txn)
    s (old_lock_table_ l, lt) (old_num_locked_keys_ l) (old_txn_info_ l)
    (λ s n lts nl i k ty, both_acquire_ok s (txn_id txn) (keys_size txn) (old_txn_info_ l) n lts nl i k ty)
    Hwf Ht HI Hcan) as Hcall.
  cbv zeta in Hcall. fold s' in Hcall. unfold AcquireLocks. rewrite old_acquire_keys_requests.
  pose proof (both_acquire_fst (txn_id txn) (old_requests txn) (old_lock_table_ l) lt (old_num_locked_keys_ l)
    (default {| num_waiting_for := keys_size txn; info_keys := [] |} (old_txn_info_ l !! txn_id txn))) as Hfst.
  destruct (foldl (both_acquire _) _ _) as [[[ot' lt'] nl'] i']. rewrite Hfst. destruct Hcall as (Ht' & HI' & Hr).
  split; [|done]. split_and!; [by apply spec_wf_acquire|by exists lt'|done].
Qed.

(** The order in which the new holders are visited does not matter. *)
Lemma grant_order gs gs' I res :
  gs' ≡ₚ gs → NoDup gs → (∀ t, t ∈ gs → is_Some (I !! t)) →
  ∃ I' res1 res2, rfoldl grant (I, res) gs = Ok (I', res1) ∧ rfoldl grant (I, res) gs' = Ok (I', res2) ∧
    ∀ t, t ∈ res2 ↔ t ∈ res1.
Proof.
  intros Hp Hnd Hs. destruct (grant_loop gs I res Hnd Hs) as (I1 & r1 & E1 & HI1 & Hr1).
  destruct (grant_loop gs' I res) as (I2 & r2 & E2 & HI2 & Hr2); [by rewrite Hp|intros t; rewrite Hp; apply Hs|].
  assert (I2 = I1) as ->.
  { apply map_eq. intros t. rewrite HI1, HI2. destruct (decide (t ∈ gs)) as [H|H].
    - by rewrite decide_True by (by rewrite Hp).
    - by rewrite decide_False by (by rewrite Hp). }
  exists I1, r1, r2. split_and!; [done|done|]. intros t. rewrite Hr1, Hr2. by rewrite Hp.
Qed.

Definition old_release_inv t U (l : OldLockManager) Q : Prop :=
  ∃ lt, release_inv t (old_txn_info_ l) lt Q U ∧ old_table_ok (old_lock_table_ l) Q.

Lemma old_table_ok_erase lt Q k : old_table_ok lt Q → Q k = [] → old_table_ok (delete k lt) Q.
Proof.
  intros Ht Hk k'. destruct (decide (k' = k)) as [->|Hne].
  - unfold old_lock_state. by rewrite lookup_delete_eq, Hk.
  - unfold old_lock_state. rewrite lookup_delete_ne by done. apply Ht.
Qed.

Lemma old_conc_unlocked q : old_mode (old_conc q) = UNLOCKED → q = [].
Proof. by destruct q as [|[x []] q]. Qed.

Lemma old_release_lock_ok t U l res Q k :
  old_release_inv t U l Q → t ∈ (granted (Q k)).*1 →
  ∃ l' res', old_release_lock visit t (l, res) k = Ok (l', res') ∧ old_release_inv t U l' (leave t [k] Q) ∧
    ∀ t', t' ∈ res' ↔ t' ∈ res ∨ (t' ≠ t ∧ readyQ (leave t [k] Q) U t' ∧ ¬ readyQ Q U t').
Proof.
  intros (lt & Hinv & Ho) Hg.
  destruct (release_lock_ok t {| txn_info_ := old_txn_info_ l; lock_table_ := lt; num_locked_keys_ := 0 |} res Q U k Hinv Hg)
    as (l1 & res1 & Hstep & Hinv1 & Hres1).
  pose proof (ri_nodup _ _ _ _ _ Hinv k) as Hnd. pose proof (ri_table _ _ _ _ _ Hinv k) as Htk.
  unfold release_lock in Hstep. cbn [lock_table_ txn_info_ num_locked_keys_] in Hstep. unfold lock_state in Htk.
  destruct (lt !! k) as [st|]; simpl in Htk.
  2:{ exfalso. apply granted_elem in Hg. destruct (Q k) as [|[x []] q]; set_solver. }
  subst st. rewrite (release_conc (Q k) t) in Hstep by done.
  unfold old_release_lock. pose proof (Ho k) as Hok. unfold old_lock_state in Hok.
  destruct (old_lock_table_ l !! k) as [st|]; simpl in Hok.
  2:{ exfalso. apply granted_elem in Hg. destruct (Q k) as [|[x []] q]; [set_solver|done|done]. }
  subst st. rewrite old_release_conc by done. cbn [mbind result_bind].
  assert (visit (list_to_set (new_holders t (Q k))) ≡ₚ new_holders t (Q k)) as Hp.
  { rewrite visit_elements. apply elements_list_to_set. by apply new_holders_NoDup. }
  destruct (grant_order (new_holders t (Q k)) _ (old_txn_info_ l) res Hp) as (I' & r1 & r2 & E1 & E2 & Hr).
  { by apply new_holders_NoDup. }
  { intros t' [Hq Hne]%new_holders_queued. destruct (ri_active _ _ _ _ _ Hinv k t' Hq) as [n Hn].
    pose proof (ri_infos _ _ _ _ _ Hinv t' Hne) as Hi. rewrite Hn in Hi. inversion Hi; eauto. }
  rewrite E1 in Hstep. cbn [mbind result_bind] in Hstep. injection Hstep as <- <-. cbn [txn_info_ lock_table_] in Hinv1.
  rewrite E2. cbn [mbind result_bind]. eexists _, _. split; [reflexivity|]. split.
  - eexists. split; [exact Hinv1|]. cbn [old_lock_table_].
    assert (old_table_ok (<[k := old_conc (remove_txn t (Q k))]> (old_lock_table_ l)) (leave t [k] Q)) as Ho'.
    { eapply old_table_ok_insert; [done|unfold leave; by rewrite decide_True by set_solver|].
      intros k' Hne. unfold leave. by rewrite decide_False by set_solver. }
    destruct (decide _) as [[Hun _]|]; [|done]. apply old_table_ok_erase; [done|].
    unfold leave. rewrite decide_True by set_solver. by apply old_conc_unlocked.
  - intros t'. by rewrite Hr, Hres1.
Qed.

Lemma old_release_ok l s t :
  old_rel l s → ready s t →
  ∃ l' out, ReleaseLocks visit l t = Ok (l', out) ∧ old_rel l' (spec_release s t) ∧
    NoDup out ∧ ∀ t', t' ∈ out ↔ t' ∈ spec_unblocked s t.
Proof.
  intros (Hwf & [lt [Ho Ht]] & HI) Hr. pose proof (proj1 (ready_queue_of s t) Hr) as [Hu Hg].
  destruct (infos_ok_lookup _ _ _ _ _ HI Hu) as (i & Hi & [Hnd Hks Hw]).
  assert (old_release_inv t (unarrived s) l (queue_of s)) as Hinv.
  { exists lt. split; [|done]. split; [done|by intros|apply Hwf..]. }
  destruct (release_loop_gen (old_release_lock visit t) (old_release_inv t (unarrived s)) t (unarrived s))
    with (ks := info_keys i) (st := l) (res := @nil TxnId) (Q := queue_of s) as (l' & res & Hrun & Hinv' & Hres); try done.
  { intros st Q Q' HQ (lt' & Hri & Hot). exists lt'. split; [by eapply release_inv_ext|]. intros k. by rewrite <-HQ. }
  { intros st Q t' (lt' & Hri & _). by eapply release_inv_dec. }
  { intros st res Q k. apply old_release_lock_ok. }
  { intros k Hk. by apply Hg, Hks. }
  unfold ReleaseLocks. rewrite Hi, Hrun. eexists _, _. split; [reflexivity|].
  pose proof (leave_all s t i Hks) as Hq. destruct Hinv' as (lt' & Hri & Hot).
  apply (release_inv_ext _ _ _ _ _ _ Hq) in Hri as [Ht' HI' _ _ _]. split_and!.
  - split_and!; [by apply spec_wf_release| |].
    + exists lt'. split; [|done]. intros k. cbn [old_lock_table_ fst]. rewrite <-Hq. apply Hot.
    + intros t'. cbn [old_txn_info_ unarrived spec_release].
      destruct (decide (t' = t)) as [->|Hne]; [rewrite !lookup_delete_eq; constructor|].
      rewrite !lookup_delete_ne by done. by apply HI'.
  - apply sort_unique_NoDup.
  - intros t'. rewrite elem_of_sort_unique, Hres, (leave_unblocked s t _ t' Hq). set_solver.
Qed.

#[local] Instance old_ops : LockManager OldLockManager := old_lock_manager visit.

Definition old_correct : LockManagerCorrect OldLockManager.
Proof.
  refine {| lm_rel := old_rel |}.
  - split_and!; [apply spec_wf_init| |intros t; constructor]. exists ∅. by split.
  - apply old_acquire_ok.
  - apply old_release_ok.
Defined.
End simulation.

(** C5. In every run in which the scheduler respects the calling discipline, no call of the
    first lock manager fails, whatever the order of its hash sets: each dispatches exactly
    the transactions that the queues of requests make ready, none is dispatched twice, and
    two transactions in flight share a lock only to read it. *)
Theorem old_refines (visit : gset TxnId → list TxnId) (es : list lock_event) :
  (∀ X, visit X ≡ₚ elements X) → valid_trace (H := old_lock_manager visit) spec_init es →
  ∃ l outs, lm_run (H := old_lock_manager visit) old_init es = Ok (l, outs) ∧
    Forall2 lists_set outs (spec_outs (H := old_lock_manager visit) spec_init es) ∧ NoDup (concat outs) ∧
    ∀ k t1 t2 ty1 ty2,
      t1 ∈ in_flight [] es outs → t2 ∈ in_flight [] es outs → t1 ≠ t2 →
      (t1, ty1) ∈ history (H := old_lock_manager visit) es k →
      (t2, ty2) ∈ history (H := old_lock_manager visit) es k →
      ty1 = READ ∧ ty2 = READ.
Proof.
  intros Hvisit Hv. pose proof (old_correct visit Hvisit) as Hc.
  destruct (lm_run_init (H := old_lock_manager visit) es Hv) as (l & outs & Hrun & _ & Houts & Hfl & Hnd).
  exists l, outs. split_and!; [done..|]. intros k t1 t2 ty1 ty2 Ht1%Hfl Ht2%Hfl.
  by apply (exclusive_aux (H := old_lock_manager visit)).
Qed.

Lemma old_refines_witness :
  ∃ l outs, lm_run (H := old_lock_manager elements) old_init example_trace_release = Ok (l, outs) ∧
    outs = [[100%Z]; [200%Z]; []; []; []; [300%Z]] ∧ NoDup (concat outs).
Proof.
  destruct (old_refines elements example_trace_release) as (l & outs & Hrun & _ & Hnd & _).
  - intros X. reflexivity.
  - apply (bool_decide_eq_true_1 _). vm_compute. reflexivity.
  - exists l, outs. split; [exact Hrun|]. split; [|exact Hnd]. vm_compute in Hrun. congruence.
Defined.
