(* ===== verification/AsyncLog.v ===== *)
(** * The ordered log

    [AsyncLog] of [data_structure/async_log.h]: items arrive in any order and
    are read in the order of their positions. *)
From S2P Require Import Prelude Types.

Record AsyncLog (A : Type) := { log_ : gmap Z A; next_ : Z }.
Arguments log_ {A} _.
Arguments next_ {A} _.

Section Operations.
Context {A : Type}.
Implicit Types (l : AsyncLog A).

Definition empty_log (start_from : Z) : AsyncLog A := {| log_ := ∅; next_ := start_from |}.

Definition Insert l (position : Z) (item : A) : result (AsyncLog A) :=
  if bool_decide (position < next_ l)%Z then Ok l
  else
    match log_ l !! position with
    | Some _ => Err (Exn "Log position has already been taken")
    | None => Ok {| log_ := <[position := item]> (log_ l); next_ := next_ l |}
    end.

Definition HasNext l : bool := bool_decide (is_Some (log_ l !! next_ l)).

Definition Peek l : result A :=
  match log_ l !! next_ l with
  | Some x => Ok x
  | None => Err (Exn "std::out_of_range")
  end.

Definition Next l : result (AsyncLog A * (Z * A)) :=
  match log_ l !! next_ l with
  | None => Err (Exn "Next item does not exist")
  | Some item =>
    let position := next_ l in
    Ok ({| log_ := delete position (log_ l); next_ := u32 (next_ l + 1) |}, (position, item))
  end.

Definition NumBufferredItems l : Z := Z.of_nat (size (log_ l)).

End Operations.

(** ** What a log has seen

    [async_ok l m n]: the items [m] were inserted, those before [n] were read. *)
Section Abstraction.
Context {A : Type}.
Implicit Types (l : AsyncLog A) (m : gmap Z A) (n : nat).

Record async_ok l m n : Prop := {
  ao_next : next_ l = Z.of_nat n;
  ao_read i : (i < n)%nat → is_Some (m !! Z.of_nat i);
  ao_log p : log_ l !! p = if decide (Z.of_nat n ≤ p)%Z then m !! p else None;
  ao_bound p x : m !! p = Some x → (0 ≤ p < 2 ^ 32 - 1)%Z
}.

Lemma async_ok_empty : async_ok (empty_log 0) ∅ 0.
Proof. split; simpl; try done; [lia|]. intros p. rewrite !lookup_empty. by case_decide. Qed.

Lemma async_ok_insert l m n p x :
  async_ok l m n → m !! p = None → (0 ≤ p < 2 ^ 32 - 1)%Z →
  ∃ l', Insert l p x = Ok l' ∧ async_ok l' (<[p := x]> m) n.
Proof.
  intros [Hn Hr Hl Hb] Hp Hpb.
  assert (Z.of_nat n ≤ p)%Z as Hge.
  { destruct (decide (Z.of_nat n ≤ p)%Z) as [|Hlt]; [done|]. destruct (Hr (Z.to_nat p)); [lia|].
    rewrite Z2Nat.id in H by lia. congruence. }
  unfold Insert. rewrite bool_decide_eq_false_2 by lia. rewrite Hl, decide_True, Hp by done.
  eexists; split; [done|]. split; simpl.
  - done.
  - intros i Hi. rewrite lookup_insert_ne by lia. auto.
  - intros p'. rewrite !lookup_insert. destruct (decide (p = p')) as [->|]; [|apply Hl].
    by rewrite decide_True.
  - intros p' x'. rewrite lookup_insert. case_decide; [intros; lia|apply Hb].
Qed.

Lemma async_ok_peek l m n :
  async_ok l m n → log_ l !! next_ l = m !! Z.of_nat n.
Proof. intros [Hn _ Hl _]. by rewrite Hn, Hl, decide_True by lia. Qed.

Lemma async_ok_has_next l m n :
  async_ok l m n → HasNext l = bool_decide (is_Some (m !! Z.of_nat n)).
Proof. intros Hok. unfold HasNext. by rewrite (async_ok_peek l m n). Qed.

Lemma async_ok_next l m n x :
  async_ok l m n → m !! Z.of_nat n = Some x →
  ∃ l', Next l = Ok (l', (Z.of_nat n, x)) ∧ async_ok l' m (S n).
Proof.
  intros Hok Hx. pose proof (async_ok_peek l m n Hok) as Hpk. destruct Hok as [Hn Hr Hl Hb].
  pose proof (Hb _ _ Hx) as Hxb. unfold Next. rewrite Hpk, Hx, Hn. eexists; split; [done|].
  split; simpl.
  - unfold wrapu. rewrite Z.mod_small by lia. lia.
  - intros i Hi. destruct (decide (i = n)) as [->|]; [eauto|]. apply Hr. lia.
  - intros p. rewrite lookup_delete. case_decide as Hp.
    + subst p. by rewrite decide_False by lia.
    + rewrite Hl. destruct (decide (Z.of_nat n ≤ p)%Z); [by rewrite decide_True by lia|].
      by rewrite decide_False by lia.
  - done.
Qed.

(** [n] reads leave [size m - n] items; a reader of [size m] rounds sees them all. *)
Lemma async_ok_bound l m n : async_ok l m n → n ≤ size m.
Proof.
  intros [_ Hr _ _].
  assert (list_to_set (Z.of_nat <$> seq 0 n) ⊆ (dom m : gset Z)) as Hsub.
  { intros p. rewrite elem_of_list_to_set, list_elem_of_fmap. intros (i & -> & Hi%elem_of_seq).
    apply elem_of_dom, Hr. lia. }
  apply subseteq_size in Hsub. rewrite size_dom in Hsub.
  rewrite size_list_to_set in Hsub; [by rewrite length_fmap, length_seq in Hsub|].
  apply (NoDup_fmap_2 _), NoDup_seq.
Qed.

End Abstraction.

(** ** A reader *)

Inductive log_event (A : Type) :=
  | LInsert (position : Z) (item : A)
  | LDrain.
Arguments LInsert {A} _ _.
Arguments LDrain {A}.

Section Reader.
Context {A : Type}.
Implicit Types (l : AsyncLog A) (es : list (log_event A)).

(** Read while there is a next item. *)
Fixpoint drain (fuel : nat) l : result (AsyncLog A * list (Z * A)) :=
  match fuel with
  | 0 => Ok (l, [])
  | S fuel =>
    if HasNext l then
      '(l, x) ← Next l;
      '(l, xs) ← drain fuel l;
      Ok (l, x :: xs)
    else Ok (l, [])
  end.

Fixpoint run_log l es : result (AsyncLog A * list (Z * A)) :=
  match es with
  | [] => Ok (l, [])
  | LInsert p x :: es => l ← Insert l p x; run_log l es
  | LDrain :: es =>
    '(l, xs) ← drain (size (log_ l)) l;
    '(l, ys) ← run_log l es;
    Ok (l, xs ++ ys)
  end.

Fixpoint inserted es : list (Z * A) :=
  match es with
  | [] => []
  | LInsert p x :: es => (p, x) :: inserted es
  | LDrain :: es => inserted es
  end.

Definition stream (m : gmap Z A) (i : nat) : option (Z * A) :=
  (λ x, (Z.of_nat i, x)) <$> m !! Z.of_nat i.

End Reader.

Section ReaderLemmas.
Context {A : Type}.
Implicit Types (l : AsyncLog A) (m : gmap Z A) (n : nat) (es : list (log_event A)).

Lemma drain_ok fuel l m n outs :
  async_ok l m n → size (log_ l) ≤ fuel → length outs = n → is_prefix (stream m) outs →
  ∃ l' xs, drain fuel l = Ok (l', xs) ∧ async_ok l' m (length (outs ++ xs)) ∧
    longest_prefix (stream m) (outs ++ xs).
Proof.
  revert l n outs. induction fuel as [|fuel IH]; intros l n outs Hok Hsz Hlen Hp; simpl.
  - exists l, []. rewrite app_nil_r. split_and!; [done|by rewrite Hlen|split; [done|]].
    unfold stream. rewrite Hlen, <-(async_ok_peek l m n Hok).
    assert (log_ l = ∅) as -> by (apply map_size_empty_inv; lia). by rewrite lookup_empty.
  - rewrite (async_ok_has_next l m n Hok). case_bool_decide as Hx.
    + destruct Hx as [x Hx]. destruct (async_ok_next l m n x Hok Hx) as (l1 & Hnx & Hok1).
      rewrite Hnx. cbn [mbind result_bind].
      assert (stream m (length outs) = Some (Z.of_nat n, x)) as Hst
        by (unfold stream; by rewrite Hlen, Hx).
      destruct (IH l1 (S n) (outs ++ [(Z.of_nat n, x)])) as (l2 & xs & Hd & Hok2 & Hlp); [done| | | |].
      * assert (log_ l1 = delete (next_ l) (log_ l)) as ->.
        { unfold Next in Hnx. destruct (log_ l !! next_ l); by simplify_eq/=. }
        rewrite map_size_delete_Some; [lia|]. rewrite (async_ok_peek l m n Hok). eauto.
      * rewrite length_app. simpl. lia.
      * by apply is_prefix_snoc.
      * rewrite Hd. cbn [mbind result_bind]. rewrite <-app_assoc in Hok2, Hlp. eauto.
    + exists l, []. rewrite app_nil_r. split_and!; [done|by rewrite Hlen|split; [done|]].
      unfold stream. rewrite Hlen. destruct (m !! Z.of_nat n); [destruct Hx; eauto|done].
Qed.

Lemma stream_mono m m' i b : m ⊆ m' → stream m i = Some b → stream m' i = Some b.
Proof.
  intros Hsub. unfold stream. rewrite !fmap_Some. intros (x & Hx & ->). exists x.
  split; [by eapply lookup_weaken|done].
Qed.

Lemma run_log_ok es l m n outs :
  async_ok l m n → length outs = n → is_prefix (stream m) outs →
  NoDup (inserted es).*1 →
  (∀ p x, (p, x) ∈ inserted es → m !! p = None ∧ (0 ≤ p < 2 ^ 32 - 1)%Z) →
  let m' := list_to_map (inserted es) ∪ m in
  ∃ l' xs, run_log l (es ++ [LDrain]) = Ok (l', xs) ∧ longest_prefix (stream m') (outs ++ xs).
Proof.
  revert l m n outs. induction es as [|[p x|] es IH]; intros l m n outs Hok Hlen Hp Hnd Hin; simpl.
  - destruct (drain_ok (size (log_ l)) l m n outs) as (l' & xs & Hd & _ & Hlp); [done..|].
    rewrite Hd. cbn [mbind result_bind]. rewrite (left_id_L ∅ (∪)).
    exists l', (xs ++ []). by rewrite app_nil_r.
  - simpl in Hnd. apply NoDup_cons in Hnd as [Hpn Hnd].
    destruct (Hin p x) as [Hmp Hpb]; [by left|].
    destruct (async_ok_insert l m n p x Hok Hmp Hpb) as (l1 & Hins & Hok1). rewrite Hins.
    cbn [mbind result_bind].
    destruct (IH l1 (<[p := x]> m) n outs) as (l' & xs & Hrun & Hlp); [done|done| |done| |].
    + eapply is_prefix_mono; [|exact Hp]. intros i b. apply stream_mono. by apply insert_subseteq.
    + intros p' x' Hin'. destruct (Hin p' x') as [? ?]; [by right|]. split; [|done].
      rewrite lookup_insert_ne; [done|]. intros ->. destruct Hpn. simpl.
      by apply (list_elem_of_fmap_2 fst) in Hin'.
    + exists l', xs. split; [done|]. rewrite <-insert_union_l.
      rewrite <-insert_union_r in Hlp; [done|]. by apply not_elem_of_list_to_map.
  - destruct (drain_ok (size (log_ l)) l m n outs) as (l1 & xs & Hd & Hok1 & [Hp1 _]); [done..|].
    rewrite Hd. cbn [mbind result_bind].
    destruct (IH l1 m _ (outs ++ xs) Hok1 eq_refl Hp1 Hnd Hin) as (l' & ys & Hrun & Hlp).
    rewrite Hrun. cbn [mbind result_bind]. exists l', (xs ++ ys). by rewrite app_assoc.
Qed.

End ReaderLemmas.

(** ** Properties *)

(** A log whose positions are all distinct never fails, and what is read from
    it, however insertions and reads alternate, is the longest consecutive run of
    inserted positions from 0, in order. In particular it does not depend on the
    order of arrival. *)
Theorem async_log_in_order {A} (es : list (log_event A)) :
  NoDup (inserted es).*1 →
  (∀ p x, (p, x) ∈ inserted es → (0 ≤ p < 2 ^ 32 - 1)%Z) →
  ∃ l outs, run_log (empty_log 0) (es ++ [LDrain]) = Ok (l, outs) ∧
    longest_prefix (stream (list_to_map (inserted es))) outs.
Proof.
  intros Hnd Hb. destruct (run_log_ok es (empty_log 0) ∅ 0 [] async_ok_empty eq_refl
    (is_prefix_nil _) Hnd) as (l & outs & Hrun & Hlp).
  - intros p x Hin. by split; [apply lookup_empty|eapply Hb].
  - rewrite (right_id_L ∅ (∪)) in Hlp. by exists l, outs.
Qed.

Definition example_log : list (log_event Z) :=
  [LInsert 1%Z 11%Z; LDrain; LInsert 0%Z 10%Z; LDrain; LInsert 3%Z 13%Z].

Lemma async_log_in_order_witness :
  ∃ l outs, run_log (empty_log 0) (example_log ++ [LDrain]) = Ok (l, outs) ∧
    longest_prefix (stream (list_to_map (inserted example_log))) outs.
Proof.
  apply (async_log_in_order example_log).
  - apply (bool_decide_eq_true_1 _). vm_compute. reflexivity.
  - simpl. intros p x Hin. repeat (apply elem_of_cons in Hin as [[= -> ->]|Hin]; [lia|]).
    by apply elem_of_nil in Hin.
Defined.
