(* ===== verification/BatchLog.v ===== *)
(** * The log of replicated batches

    [BatchLog] of [data_structure/batch_log.cpp]: batch data, slots and
    acknowledgements arrive in any order; a batch leaves the log when its slot is
    next, its data is known and it was acknowledged often enough. *)
From S2P Require Import Prelude Types AsyncLog.

Record BatchLog := {
  slots_ : AsyncLog BatchId;
  batches_ : gmap Z Batch;
  replication_ : gmap Z Z;
  ready_batches_ : list (SlotId * BatchId)
}.

Definition empty_batch_log : BatchLog :=
  {| slots_ := empty_log 0; batches_ := ∅; replication_ := ∅; ready_batches_ := [] |}.

(** The loop of [UpdateReadyBatches] takes one slot from the log per round, so
    the number of buffered slots bounds its rounds. *)
Fixpoint update_ready (fuel : nat) (l : BatchLog) : result BatchLog :=
  match fuel with
  | 0 => Ok l
  | S fuel =>
    if HasNext (slots_ l) then
      next_batch_id ← Peek (slots_ l);
      match batches_ l !! next_batch_id, replication_ l !! next_batch_id with
      | Some _, Some 0%Z =>
        '(slots, slot) ← Next (slots_ l);
        update_ready fuel
          {| slots_ := slots; batches_ := batches_ l;
             replication_ := delete next_batch_id (replication_ l);
             ready_batches_ := ready_batches_ l ++ [slot] |}
      | _, _ => Ok l
      end
    else Ok l
  end.

Definition UpdateReadyBatches (l : BatchLog) : result BatchLog :=
  update_ready (size (log_ (slots_ l))) l.

Definition AddBatch (l : BatchLog) (batch : Batch) : result BatchLog :=
  UpdateReadyBatches
    {| slots_ := slots_ l; batches_ := <[batch_id batch := batch]> (batches_ l);
       replication_ := replication_ l; ready_batches_ := ready_batches_ l |}.

(** [replication_[id]] is 0 when there is no entry. *)
Definition AckReplication (l : BatchLog) (b : BatchId) : result BatchLog :=
  UpdateReadyBatches
    {| slots_ := slots_ l; batches_ := batches_ l;
       replication_ := <[b := (default 0 (replication_ l !! b) - 1)%Z]> (replication_ l);
       ready_batches_ := ready_batches_ l |}.

Definition AddSlot (l : BatchLog) (slot_id : SlotId) (b : BatchId) (replication_factor : Z) :
    result BatchLog :=
  slots ← Insert (slots_ l) slot_id b;
  UpdateReadyBatches
    {| slots_ := slots; batches_ := batches_ l;
       replication_ := <[b := (default 0 (replication_ l !! b) + replication_factor)%Z]> (replication_ l);
       ready_batches_ := ready_batches_ l |}.

Definition HasNextBatch (l : BatchLog) : bool := bool_decide (ready_batches_ l ≠ []).

Definition NextBatch (l : BatchLog) : result (BatchLog * (SlotId * Batch)) :=
  match ready_batches_ l with
  | [] => Err (Exn "NextBatch() was called when there is no ready batch")
  | (next_slot, next_batch_id) :: rest =>
    match batches_ l !! next_batch_id with
    | None => Err (Undef "NextBatch: batch data is gone")
    | Some batch =>
      Ok ({| slots_ := slots_ l; batches_ := delete next_batch_id (batches_ l);
             replication_ := replication_ l; ready_batches_ := rest |}, (next_slot, batch))
    end
  end.

(** ** A reader

    [while (log.HasNextBatch()) EmitBatch(log.NextBatch().second)], as in
    [Interleaver::AdvanceLogs]. *)
Fixpoint take_batches (fuel : nat) (l : BatchLog) : result (BatchLog * list (SlotId * Batch)) :=
  match fuel with
  | 0 => Ok (l, [])
  | S fuel =>
    if HasNextBatch l then
      '(l, b) ← NextBatch l;
      '(l, bs) ← take_batches fuel l;
      Ok (l, b :: bs)
    else Ok (l, [])
  end.

Inductive batch_event :=
  | BAdd (batch : Batch)
  | BSlot (slot_id : SlotId) (b : BatchId) (replication_factor : Z)
  | BAck (b : BatchId)
  | BTake.

Definition batch_step (l : BatchLog) (e : batch_event) : result (BatchLog * list (SlotId * Batch)) :=
  match e with
  | BAdd batch => l ← AddBatch l batch; Ok (l, [])
  | BSlot s b rf => l ← AddSlot l s b rf; Ok (l, [])
  | BAck b => l ← AckReplication l b; Ok (l, [])
  | BTake => take_batches (length (ready_batches_ l)) l
  end.

Fixpoint run_batch_log (l : BatchLog) (es : list batch_event) :
    result (BatchLog * list (SlotId * Batch)) :=
  match es with
  | [] => Ok (l, [])
  | e :: es =>
    '(l, xs) ← batch_step l e;
    '(l, ys) ← run_batch_log l es;
    Ok (l, xs ++ ys)
  end.

(** ** What is known after a sequence of events *)

Record facts := {
  f_slots : gmap Z (Z * Z);
  f_batches : gmap Z Batch;
  f_acks : gmap Z Z
}.

Definition no_facts : facts := {| f_slots := ∅; f_batches := ∅; f_acks := ∅ |}.

Definition acks (F : facts) (b : BatchId) : Z := default 0%Z (f_acks F !! b).

Definition learn (F : facts) (e : batch_event) : facts :=
  match e with
  | BAdd batch =>
    {| f_slots := f_slots F; f_batches := <[batch_id batch := batch]> (f_batches F);
       f_acks := f_acks F |}
  | BSlot s b rf =>
    {| f_slots := <[s := (b, rf)]> (f_slots F); f_batches := f_batches F; f_acks := f_acks F |}
  | BAck b =>
    {| f_slots := f_slots F; f_batches := f_batches F;
       f_acks := <[b := (acks F b + 1)%Z]> (f_acks F) |}
  | BTake => F
  end.

(** Every slot and every batch is announced once, a batch has one slot, and it is
    acknowledged at most as often as asked. *)
Definition fresh (F : facts) (e : batch_event) : Prop :=
  match e with
  | BAdd batch => f_batches F !! batch_id batch = None
  | BSlot s b rf =>
    f_slots F !! s = None ∧ (0 ≤ s < 2 ^ 32 - 1)%Z ∧ (acks F b ≤ rf)%Z ∧
    map_Forall (λ _ p, p.1 ≠ b) (f_slots F)
  | BAck b => map_Forall (λ _ p, p.1 = b → (acks F b + 1 ≤ p.2)%Z) (f_slots F)
  | BTake => True
  end.

#[global] Instance fresh_dec F e : Decision (fresh F e).
Proof. destruct e; simpl; apply _. Defined.

Fixpoint fresh_events (F : facts) (es : list batch_event) : Prop :=
  match es with
  | [] => True
  | e :: es => fresh F e ∧ fresh_events (learn F e) es
  end.

#[global] Instance fresh_events_dec F es : Decision (fresh_events F es).
Proof. revert F. induction es; simpl; apply _. Defined.

(** The batch that slot [i] delivers, when everything about it is known. *)
Definition batch_stream (F : facts) (i : nat) : option (SlotId * Batch) :=
  '(b, rf) ← f_slots F !! Z.of_nat i;
  batch ← f_batches F !! b;
  if decide (acks F b = rf) then Some (Z.of_nat i, batch) else None.

(** ** The invariant *)

Section Invariant.
Implicit Types (l : BatchLog) (F : facts) (outs : list (SlotId * Batch)).

Definition ids_of outs : list (SlotId * BatchId) := (λ o, (o.1, batch_id o.2)) <$> outs.

(** All slots that left the slot log so far: delivered, then ready. *)
Definition taken l outs : list (SlotId * BatchId) := ids_of outs ++ ready_batches_ l.

Definition id_stream F (i : nat) : option (SlotId * BatchId) :=
  (λ o, (o.1, batch_id o.2)) <$> batch_stream F i.

Record facts_wf F : Prop := {
  fw_inj s1 s2 b r1 r2 :
    f_slots F !! s1 = Some (b, r1) → f_slots F !! s2 = Some (b, r2) → s1 = s2;
  fw_id b batch : f_batches F !! b = Some batch → batch_id batch = b
}.

Record batch_inv l F outs : Prop := {
  bi_wf : facts_wf F;
  bi_slots : async_ok (slots_ l) (fst <$> f_slots F) (length (taken l outs));
  bi_prefix : is_prefix (id_stream F) (taken l outs);
  bi_outs o : o ∈ outs → f_batches F !! batch_id o.2 = Some o.2;
  bi_batches b : b ∉ (ids_of outs).*2 → batches_ l !! b = f_batches F !! b;
  bi_repl s b rf : f_slots F !! s = Some (b, rf) → (Z.of_nat (length (taken l outs)) ≤ s)%Z →
    replication_ l !! b = Some (rf - acks F b)%Z;
  bi_repl_none b : (∀ s rf, f_slots F !! s ≠ Some (b, rf)) →
    default 0%Z (replication_ l !! b) = (- acks F b)%Z
}.

Definition settled l F outs : Prop := id_stream F (length (taken l outs)) = None.

Lemma id_stream_Some F i s b :
  facts_wf F →
  id_stream F i = Some (s, b) ↔
  s = Z.of_nat i ∧ ∃ rf batch, f_slots F !! Z.of_nat i = Some (b, rf) ∧
    f_batches F !! b = Some batch ∧ acks F b = rf.
Proof.
  intros Hwf. unfold id_stream, batch_stream. rewrite fmap_Some. split.
  - intros ([s' bt] & Hs & Heq). destruct (f_slots F !! Z.of_nat i) as [[b' rf]|]; [|done].
    simpl in Hs. destruct (f_batches F !! b') as [bt'|] eqn:Hb; [|done]. simpl in Hs.
    case_decide as Hd; simplify_eq/=. rewrite (fw_id _ Hwf _ _ Hb). naive_solver.
  - intros [-> (rf & bt & -> & Hb & Ha)]. exists (Z.of_nat i, bt). simpl. rewrite Hb. simpl.
    rewrite decide_True by done. by rewrite (fw_id _ Hwf _ _ Hb).
Qed.

(** The slot of a taken batch is among the taken ones. *)
Lemma taken_slot l F outs b s rf :
  batch_inv l F outs → b ∈ (taken l outs).*2 → f_slots F !! s = Some (b, rf) →
  (s < Z.of_nat (length (taken l outs)))%Z.
Proof.
  intros Hinv Hb Hs. apply list_elem_of_fmap in Hb as ([s' b'] & ? & Hin); simplify_eq/=.
  apply list_elem_of_lookup in Hin as [i Hi]. pose proof (lookup_lt_Some _ _ _ Hi).
  apply (bi_prefix _ _ _ Hinv) in Hi. apply id_stream_Some in Hi as [-> (r & bt & Hs' & _)];
    [|apply Hinv].
  rewrite (fw_inj _ (bi_wf _ _ _ Hinv) _ _ _ _ _ Hs Hs'). lia.
Qed.

Lemma update_ready_ok fuel l F outs :
  batch_inv l F outs → size (log_ (slots_ l)) ≤ fuel →
  ∃ l', update_ready fuel l = Ok l' ∧ batch_inv l' F outs ∧ settled l' F outs.
Proof.
  revert l. induction fuel as [|fuel IH]; intros l Hinv Hsz; simpl.
  - exists l. split_and!; [done..|]. unfold settled.
    pose proof (async_ok_peek _ _ _ (bi_slots _ _ _ Hinv)) as Hpk.
    assert (log_ (slots_ l) = ∅) as Hl by (apply map_size_empty_inv; lia).
    rewrite Hl, lookup_empty, lookup_fmap in Hpk. unfold id_stream, batch_stream.
    by destruct (f_slots F !! _).
  - rewrite (async_ok_has_next _ _ _ (bi_slots _ _ _ Hinv)). set (n := length (taken l outs)) in *.
    rewrite lookup_fmap. destruct (f_slots F !! Z.of_nat n) as [[b rf]|] eqn:Hsl; simpl.
    2:{ exists l. split_and!; [done..|]. unfold settled, id_stream, batch_stream.
        fold n. by rewrite Hsl. }
    pose proof (async_ok_peek _ _ _ (bi_slots _ _ _ Hinv)) as Hpk. rewrite lookup_fmap in Hpk.
    fold n in Hpk. rewrite Hsl in Hpk. simpl in Hpk. unfold Peek. rewrite Hpk. simpl.
    assert (b ∉ (taken l outs).*2) as Hnt.
    { intros Hb. pose proof (taken_slot _ _ _ _ _ _ Hinv Hb Hsl). lia. }
    rewrite (bi_batches _ _ _ Hinv b) 
      by (intros Hx; apply Hnt; unfold taken; rewrite fmap_app; apply elem_of_app; by left).
    rewrite (bi_repl _ _ _ Hinv _ _ _ Hsl) by lia.
    destruct (decide (is_Some (f_batches F !! b) ∧ acks F b = rf)) as [[[bt Hbt] Ha]|Hno].
    + rewrite Hbt. replace (rf - acks F b)%Z with 0%Z by lia.
      destruct (async_ok_next (slots_ l) (fst <$> f_slots F) n b) as (sl & Hnx & Hok);
        [apply Hinv|by rewrite lookup_fmap, Hsl|].
      rewrite Hnx. simpl.
      assert (log_ sl = delete (next_ (slots_ l)) (log_ (slots_ l))) as Hlog.
      { unfold Next in Hnx. rewrite Hpk in Hnx. by simplify_eq/=. }
      apply IH; [|simpl; rewrite Hlog, map_size_delete_Some by (rewrite Hpk; eauto); lia].
      assert (taken {| slots_ := sl; batches_ := batches_ l; replication_ := delete b (replication_ l);
        ready_batches_ := ready_batches_ l ++ [(Z.of_nat n, b)] |} outs =
        taken l outs ++ [(Z.of_nat n, b)]) as Htk by (unfold taken; simpl; by rewrite app_assoc).
      split; rewrite ?Htk, ?length_app; simpl.
      * apply Hinv.
      * by rewrite Nat.add_1_r.
      * apply is_prefix_snoc; [apply Hinv|]. apply id_stream_Some; [apply Hinv|]. fold n.
        split; [done|]. eauto.
      * apply Hinv.
      * apply Hinv.
      * intros s b' rf' Hs' Hge. rewrite lookup_delete_ne.
        -- apply (bi_repl _ _ _ Hinv _ _ _ Hs'). fold n. lia.
        -- intros ->. rewrite (fw_inj _ (bi_wf _ _ _ Hinv) _ _ _ _ _ Hs' Hsl) in Hge. lia.
      * intros b' Hb'. rewrite lookup_delete_ne by (intros ->; by eapply Hb').
        by apply (bi_repl_none _ _ _ Hinv).
    + exists l. split_and!; [|done|].
      * destruct (f_batches F !! b) as [bt|]; [|done].
        destruct (rf - acks F b)%Z eqn:E; [|done..]. destruct Hno. split; [eauto|lia].
      * unfold settled. fold n. destruct (id_stream F n) as [[s' b']|] eqn:E; [|done].
        apply id_stream_Some in E as [-> (r & bt & Hs' & Hb' & Ha)]; [|apply Hinv].
        rewrite Hsl in Hs'. simplify_eq. destruct Hno. eauto.
Qed.

Lemma facts_wf_learn F e : facts_wf F → fresh F e → facts_wf (learn F e).
Proof.
  intros [Hinj Hid] Hfr. destruct e as [bt|s b rf|b|]; simpl in *; split; simpl; auto.
  - intros b' bt'. rewrite lookup_insert. case_decide; [naive_solver|apply Hid].
  - destruct Hfr as (_ & _ & _ & Hall). intros s1 s2 b' r1 r2. rewrite !lookup_insert.
    repeat case_decide; intros H1 H2; simplify_eq; try done; [| |by eapply Hinj].
    + by apply Hall in H2.
    + by apply Hall in H1.
Qed.

Lemma acks_ack F b b' :
  acks (learn F (BAck b)) b' = (acks F b' + if decide (b = b') then 1 else 0)%Z.
Proof.
  unfold acks at 1; simpl. rewrite lookup_insert. case_decide; simpl; [by subst|].
  unfold acks. lia.
Qed.

Lemma id_stream_learn F e i x :
  facts_wf F → fresh F e → id_stream F i = Some x → id_stream (learn F e) i = Some x.
Proof.
  intros Hwf Hfr. pose proof (facts_wf_learn F e Hwf Hfr) as Hwf'. destruct x as [s b].
  rewrite !id_stream_Some by done. intros [-> (rf & bt & Hs & Hb & Ha)]. split; [done|].
  destruct e as [bt'|s' b' rf'|b'|]; [| | |by eauto 10].
  - simpl in Hfr. exists rf, bt. simpl. rewrite lookup_insert_ne by congruence. done.
  - simpl in Hfr. destruct Hfr as [Hfr _]. exists rf, bt. simpl.
    rewrite lookup_insert_ne by congruence. done.
  - exists rf, bt. split_and!; [done..|]. rewrite acks_ack. case_decide; [|lia]. subst b'.
    apply Hfr in Hs as Hle. specialize (Hle eq_refl). simpl in Hle. lia.
Qed.

Lemma taken_NoDup l F outs i j s1 s2 b :
  batch_inv l F outs → taken l outs !! i = Some (s1, b) → taken l outs !! j = Some (s2, b) → i = j.
Proof.
  intros Hinv Hi Hj. apply (bi_prefix _ _ _ Hinv) in Hi, Hj.
  apply id_stream_Some in Hi as [-> (? & ? & Hi & _)]; [|apply Hinv].
  apply id_stream_Some in Hj as [-> (? & ? & Hj & _)]; [|apply Hinv].
  pose proof (fw_inj _ (bi_wf _ _ _ Hinv) _ _ _ _ _ Hi Hj). lia.
Qed.

Lemma next_batch_ok l F outs s b rest :
  batch_inv l F outs → ready_batches_ l = (s, b) :: rest →
  ∃ l' bt, NextBatch l = Ok (l', (s, bt)) ∧ batch_inv l' F (outs ++ [(s, bt)]) ∧
    ready_batches_ l' = rest ∧ taken l' (outs ++ [(s, bt)]) = taken l outs.
Proof.
  intros Hinv Hr.
  assert (taken l outs !! length outs = Some (s, b)) as Hi.
  { unfold taken. rewrite lookup_app_r by (unfold ids_of; by rewrite length_fmap).
    unfold ids_of. by rewrite length_fmap, Nat.sub_diag, Hr. }
  pose proof (bi_prefix _ _ _ Hinv _ _ Hi) as Hst.
  apply id_stream_Some in Hst as [_ (rf & bt & _ & Hbt & _)]; [|apply Hinv].
  assert (b ∉ (ids_of outs).*2) as Hnb.
  { intros ([s' b'] & ? & Hin)%list_elem_of_fmap; simplify_eq/=.
    apply list_elem_of_lookup in Hin as [j Hj]. pose proof (lookup_lt_Some _ _ _ Hj) as Hlt.
    unfold ids_of in Hlt. rewrite length_fmap in Hlt.
    assert (taken l outs !! j = Some (s', b')) as Hj' by (unfold taken; by apply lookup_app_l_Some).
    pose proof (taken_NoDup _ _ _ _ _ _ _ _ Hinv Hi Hj'). lia. }
  unfold NextBatch. rewrite Hr, (bi_batches _ _ _ Hinv b Hnb), Hbt. eexists _, bt.
  split; [done|].
  pose proof (fw_id _ (bi_wf _ _ _ Hinv) _ _ Hbt) as Hid.
  assert (ids_of (outs ++ [(s, bt)]) = ids_of outs ++ [(s, b)]) as Hids.
  { unfold ids_of. rewrite fmap_app. simpl. by rewrite Hid. }
  set (l' := {| slots_ := _; batches_ := _; replication_ := _; ready_batches_ := rest |}).
  assert (taken l' (outs ++ [(s, bt)]) = taken l outs) as Htk.
  { unfold taken. rewrite Hids, Hr, <-app_assoc. done. }
  split; [|done]. split; rewrite ?Htk; try apply Hinv.
  - intros o [Ho|Ho]%elem_of_app; [by apply Hinv|].
    apply list_elem_of_singleton in Ho as ->. simpl. by rewrite Hid.
  - intros b' Hb'. rewrite Hids, fmap_app, not_elem_of_app in Hb'.
    destruct Hb' as [Hb1 Hb2]. simpl. rewrite lookup_delete_ne; [by apply Hinv|].
    intros ->. apply Hb2. left.
Qed.

Lemma take_batches_ok fuel l F outs :
  batch_inv l F outs → length (ready_batches_ l) ≤ fuel →
  ∃ l' xs, take_batches fuel l = Ok (l', xs) ∧ batch_inv l' F (outs ++ xs) ∧
    ready_batches_ l' = [] ∧ taken l' (outs ++ xs) = taken l outs.
Proof.
  revert l outs. induction fuel as [|fuel IH]; intros l outs Hinv Hlen; simpl.
  - exists l, []. rewrite app_nil_r. split_and!; [done..| |done].
    by destruct (ready_batches_ l); simpl in Hlen; [|lia].
  - unfold HasNextBatch. destruct (ready_batches_ l) as [|[s b] rest] eqn:Hr; simpl.
    + exists l, []. by rewrite app_nil_r.
    + destruct (next_batch_ok _ _ _ _ _ _ Hinv Hr) as (l1 & bt & Hn & Hinv1 & Hr1 & Htk).
      rewrite Hn. simpl. destruct (IH l1 _ Hinv1) as (l2 & xs & Htake & Hinv2 & Hr2 & Htk2).
      { rewrite Hr1. simpl in Hlen. lia. }
      rewrite Htake. simpl. exists l2, ((s, bt) :: xs). rewrite <-app_assoc in Hinv2, Htk2.
      split_and!; [done..|]. simpl in Htk2. by rewrite Htk2.
Qed.

Lemma batch_step_ok l F outs e :
  batch_inv l F outs → settled l F outs → fresh F e →
  ∃ l' xs, batch_step l e = Ok (l', xs) ∧ batch_inv l' (learn F e) (outs ++ xs) ∧
    settled l' (learn F e) (outs ++ xs) ∧ (e = BTake → ready_batches_ l' = []).
Proof.
  intros Hinv Hset Hfr. pose proof (facts_wf_learn _ _ (bi_wf _ _ _ Hinv) Hfr) as Hwf'.
  pose proof (λ i x, id_stream_learn F e i x (bi_wf _ _ _ Hinv) Hfr) as Hmono.
  pose proof (is_prefix_mono _ _ _ Hmono (bi_prefix _ _ _ Hinv)) as Hp'.
  assert (∀ l1, taken l1 outs = taken l outs → batch_inv l1 (learn F e) outs →
    ∃ l' xs, (l ← UpdateReadyBatches l1; Ok (l, [])) = Ok (l', xs) ∧
      batch_inv l' (learn F e) (outs ++ xs) ∧ settled l' (learn F e) (outs ++ xs)) as Hupd.
  { intros l1 Htk Hinv1. unfold UpdateReadyBatches.
    destruct (update_ready_ok (size (log_ (slots_ l1))) l1 _ _ Hinv1) as (l' & Hu & Hinv' & Hs');
      [done|]. rewrite Hu. exists l', []. by rewrite app_nil_r. }
  destruct e as [bt|s b rf|b|].
  - edestruct Hupd as (l' & xs & Hrun & ? & ?); [| |exists l', xs; split_and!; [exact Hrun|done..]]; [done|].
    split; try done; try apply Hinv.
    + intros o Ho. simpl in *. pose proof (bi_outs _ _ _ Hinv o Ho).
      rewrite lookup_insert_ne; [done|congruence].
    + intros b Hb. simpl. rewrite !lookup_insert. case_decide; [done|]. by apply Hinv.
  - destruct Hfr as (Hs & Hb & Ha & Hall).
    destruct (async_ok_insert (slots_ l) (fst <$> f_slots F) (length (taken l outs)) s b)
      as (sl & Hins & Hok); [apply Hinv|by rewrite lookup_fmap, Hs|done|].
    simpl. unfold AddSlot. rewrite Hins. simpl.
    edestruct Hupd as (l' & xs & Hrun & ? & ?); [| |exists l', xs; split_and!; [exact Hrun|done..]]; [done|].
    split; try done; try apply Hinv; simpl.
    + by rewrite fmap_insert.
    + intros s' b' rf'. rewrite lookup_insert. case_decide as Hss.
      * intros [= <- <-] _. rewrite lookup_insert_eq. f_equal.
        rewrite (bi_repl_none _ _ _ Hinv); [unfold acks; simpl; lia|].
        intros s2 r2 H2. by apply Hall in H2.
      * intros Hs' Hge. rewrite lookup_insert_ne; [by apply (bi_repl _ _ _ Hinv s')|].
        intros ->. by apply Hall in Hs'.
    + intros b' Hb'. rewrite lookup_insert_ne.
      * apply (bi_repl_none _ _ _ Hinv). intros s2 r2 H2. apply (Hb' s2 r2).
        rewrite lookup_insert_ne; [done|congruence].
      * intros ->. apply (Hb' s rf). by rewrite lookup_insert_eq.
  - edestruct Hupd as (l' & xs & Hrun & ? & ?); [| |exists l', xs; split_and!; [exact Hrun|done..]]; [done|].
    split; try done; try apply Hinv.
    + intros s' b' rf' Hs' Hge. rewrite acks_ack. simpl. rewrite lookup_insert.
      rewrite (bi_repl _ _ _ Hinv _ _ _ Hs' Hge). case_decide; [|f_equal; lia]. subst b'.
      rewrite (bi_repl _ _ _ Hinv _ _ _ Hs' Hge). simpl. f_equal. lia.
    + intros b' Hb'. rewrite acks_ack. simpl. rewrite lookup_insert.
      pose proof (bi_repl_none _ _ _ Hinv b' Hb') as Hn. case_decide; [subst; simpl|]; lia.
  - simpl. destruct (take_batches_ok (length (ready_batches_ l)) l F outs Hinv)
      as (l' & xs & Ht & Hinv' & Hr & Htk); [done|].
    exists l', xs. split_and!; [done..| |done]. unfold settled. by rewrite Htk.
Qed.

Lemma run_batch_log_ok es l F outs :
  batch_inv l F outs → settled l F outs → fresh_events F es →
  ∃ l' xs, run_batch_log l es = Ok (l', xs) ∧
    batch_inv l' (foldl learn F es) (outs ++ xs) ∧ settled l' (foldl learn F es) (outs ++ xs).
Proof.
  revert l F outs. induction es as [|e es IH]; intros l F outs Hinv Hset Hfr; simpl.
  { exists l, []. by rewrite app_nil_r. }
  destruct Hfr as [Hf Hfr].
  destruct (batch_step_ok l F outs e Hinv Hset Hf) as (l1 & xs & Hst & Hinv1 & Hset1 & _).
  destruct (IH _ _ _ Hinv1 Hset1 Hfr) as (l2 & ys & Hrun & Hinv2 & Hset2).
  rewrite Hst. simpl. rewrite Hrun. simpl. exists l2, (xs ++ ys). by rewrite app_assoc.
Qed.

Lemma run_batch_log_app l es1 es2 :
  run_batch_log l (es1 ++ es2) =
  ('(l1, xs) ← run_batch_log l es1; '(l2, ys) ← run_batch_log l1 es2; Ok (l2, xs ++ ys)).
Proof.
  revert l. induction es1 as [|e es1 IH]; intros l; simpl.
  - by destruct (run_batch_log l es2) as [[]|].
  - destruct (batch_step l e) as [[l1 xs]|]; simpl; [|done]. rewrite IH.
    destruct (run_batch_log l1 es1) as [[l2 ys]|]; simpl; [|done].
    destruct (run_batch_log l2 es2) as [[l3 zs]|]; simpl; [|done]. by rewrite app_assoc.
Qed.

Lemma batch_inv_init : batch_inv empty_batch_log no_facts [].
Proof.
  split; simpl; try done; try set_solver.
  rewrite fmap_empty. apply async_ok_empty.
Qed.

Lemma batch_inv_stream l F outs :
  batch_inv l F outs → settled l F outs → ready_batches_ l = [] →
  longest_prefix (batch_stream F) outs.
Proof.
  intros Hinv Hset Hr. assert (taken l outs = ids_of outs) as Htk.
  { unfold taken. by rewrite Hr, app_nil_r. }
  split.
  - intros i [s bt] Hi. assert (taken l outs !! i = Some (s, batch_id bt)) as Hi'.
    { rewrite Htk. unfold ids_of. by rewrite list_lookup_fmap, Hi. }
    apply (bi_prefix _ _ _ Hinv) in Hi'.
    apply id_stream_Some in Hi' as [-> (rf & bt' & Hs & Hb & Ha)]; [|apply Hinv].
    apply list_elem_of_lookup_2, (bi_outs _ _ _ Hinv) in Hi. simpl in Hi.
    unfold batch_stream. rewrite Hs. simpl. rewrite Hi. simpl. by rewrite decide_True.
  - unfold settled, id_stream in Hset. rewrite Htk in Hset. unfold ids_of in Hset.
    rewrite length_fmap in Hset. by apply fmap_None in Hset.
Qed.

End Invariant.

(** ** Properties *)

(** When slots and batches are announced once and a batch is acknowledged no
    more often than asked, no call fails, and the batches that leave the log are,
    whatever the order in which data, slots and acknowledgements arrived, those of
    the longest run of slots from 0 whose batch is known and fully acknowledged. *)
Theorem batch_log_in_order (es : list batch_event) :
  fresh_events no_facts es →
  ∃ l outs, run_batch_log empty_batch_log (es ++ [BTake]) = Ok (l, outs) ∧
    longest_prefix (batch_stream (foldl learn no_facts es)) outs.
Proof.
  intros Hfr. assert (settled empty_batch_log no_facts []) as Hset0 by done.
  destruct (run_batch_log_ok es _ _ _ batch_inv_init Hset0 Hfr) as (l1 & xs & Hrun & Hinv & Hset).
  destruct (batch_step_ok _ _ _ BTake Hinv Hset I) as (l2 & ys & Hst & Hinv2 & Hset2 & Hr).
  exists l2, (xs ++ ys). split.
  - rewrite run_batch_log_app, Hrun. simpl. simpl in Hst. rewrite Hst. simpl. by rewrite app_nil_r.
  - eapply batch_inv_stream; [exact Hinv2|exact Hset2|auto].
Qed.

Definition example_batch (i : BatchId) : Batch :=
  {| batch_id := i; transactions := []; transaction_type := SINGLE_HOME; batch_events := [] |}.

Definition example_batch_events : list batch_event :=
  [BAck 200%Z; BSlot 1%Z 200%Z 1%Z; BAdd (example_batch 200); BTake;
   BSlot 0%Z 100%Z 0%Z; BAdd (example_batch 100); BSlot 2%Z 300%Z 1%Z; BAdd (example_batch 300)].

Lemma batch_log_in_order_witness :
  ∃ l outs, run_batch_log empty_batch_log (example_batch_events ++ [BTake]) = Ok (l, outs) ∧
    longest_prefix (batch_stream (foldl learn no_facts example_batch_events)) outs.
Proof.
  apply (batch_log_in_order example_batch_events).
  apply (bool_decide_eq_true_1 _). vm_compute. reflexivity.
Defined.
