(* ===== verification/StringUtils.v ===== *)
(** * String utilities

    [common/string_utils.cpp] and [.h] on the characters of the strings, with the
    member functions of [std::string] they use and [std::stoll]. *)
From Stdlib Require Import Ascii.
From stdpp Require Import pretty.
From S2P Require Import Prelude Types.

(** ** [std::string] *)

Section StdString.
Context {A : Type} (P : A → bool).

(** Length of the longest prefix whose elements satisfy [P]. *)
Fixpoint count_while (l : list A) : nat :=
  match l with
  | [] => 0
  | c :: l => if P c then S (count_while l) else 0
  end.

(** First index from [pos] on at which [P] is false; [None] is [npos]. *)
Definition find_first_false (l : list A) (pos : nat) : option nat :=
  let i := pos + count_while (drop pos l) in
  if decide (i < length l) then Some i else None.

End StdString.

Definition is_delim (delims : list ascii) (c : ascii) : bool := bool_decide (c ∈ delims).

Definition find_first_not_of (l delims : list ascii) (pos : nat) : option nat :=
  find_first_false (is_delim delims) l pos.

Definition find_first_of (l delims : list ascii) (pos : nat) : option nat :=
  find_first_false (λ c, negb (is_delim delims c)) l pos.

(** [std::isspace] in the C locale. *)
Definition isspace (c : ascii) : bool :=
  let n := nat_of_ascii c in
  bool_decide (n = 32) || (bool_decide (9 ≤ n) && bool_decide (n ≤ 13)).

(** ** Operations *)

Definition NextToken (str delims : list ascii) (pos : nat) : list ascii * option nat :=
  match find_first_not_of str delims pos with
  | None => ([], None)
  | Some start =>
    let stop := match find_first_of str delims start with None => length str | Some e => e end in
    let token := take (stop - start) (drop start str) in
    (token, Some (start + length token))
  end.

Fixpoint next_n_tokens (n : nat) (str delims : list ascii) (pos : nat)
    (tokens : list (list ascii)) : list (list ascii) * option nat :=
  match n with
  | 0 => (tokens, Some pos)
  | S n =>
    match NextToken str delims pos with
    | (_, None) => ([], None)
    | (token, Some pos) => next_n_tokens n str delims pos (tokens ++ [token])
    end
  end.

Definition NextNTokens (str delims : list ascii) (n pos : nat) : list (list ascii) * option nat :=
  next_n_tokens n str delims pos [].

Definition trim_left (l : list ascii) : list ascii := drop (count_while isspace l) l.

Definition Trim (str : list ascii) : list ascii :=
  reverse (trim_left (reverse (trim_left str))).

(** Every round of the loop moves [pos] forward, so [length str + 1] rounds are
    enough. *)
Fixpoint split_loop (fuel : nat) (str delims : list ascii) (pos : nat) : list (list ascii) :=
  match fuel with
  | 0 => []
  | S fuel =>
    match NextToken str delims pos with
    | (_, None) => []
    | (token, Some pos) => token :: split_loop fuel str delims pos
    end
  end.

Definition Split (str delims : list ascii) : list (list ascii) :=
  split_loop (S (length str)) str delims 0.

Fixpoint join_rest (parts : list (list ascii)) (delim : ascii) : list ascii :=
  match parts with
  | [] => []
  | p :: parts => delim :: p ++ join_rest parts delim
  end.

Definition Join (parts : list (list ascii)) (delim : ascii) : list ascii :=
  match parts with
  | [] => []
  | p :: parts => p ++ join_rest parts delim
  end.

(** ** [std::stoll] *)

Definition digit (c : ascii) : option Z :=
  let n := Z.of_nat (nat_of_ascii c) in
  if decide (48 ≤ n ≤ 57)%Z then Some (n - 48)%Z else None.

Fixpoint digits_value (acc : Z) (l : list ascii) : Z :=
  match l with
  | c :: l => match digit c with Some d => digits_value (acc * 10 + d) l | None => acc end
  | [] => acc
  end.

(** Leading spaces, an optional sign, then at least one digit; what follows the
    digits is ignored. The result is the sign and the magnitude. *)
Definition parse_integer (str : list ascii) : option (bool * Z) :=
  let l := trim_left str in
  let '(neg, l) := match l with
    | "-"%char :: l => (true, l)
    | "+"%char :: l => (false, l)
    | _ => (false, l)
    end in
  match l with
  | c :: _ => match digit c with Some _ => Some (neg, digits_value 0 l) | None => None end
  | [] => None
  end.

Definition stoll (str : list ascii) : result Z :=
  match parse_integer str with
  | Some (neg, m) =>
    let v := if neg : bool then (- m)%Z else m in
    if decide (- 2 ^ 63 ≤ v < 2 ^ 63)%Z then Ok v else Err (Exn "std::out_of_range: stoll")
  | None => Err (Exn "std::invalid_argument: stoll")
  end.

(** [std::stoi] *)
Definition stoi (str : list ascii) : result Z :=
  match parse_integer str with
  | Some (neg, m) =>
    let v := if neg : bool then (- m)%Z else m in
    if decide (- 2 ^ 31 ≤ v < 2 ^ 31)%Z then Ok v else Err (Exn "std::out_of_range: stoi")
  | None => Err (Exn "std::invalid_argument: stoi")
  end.

(** [std::stoull]: a minus sign negates in the unsigned type. *)
Definition stoull (str : list ascii) : result Z :=
  match parse_integer str with
  | Some (neg, m) =>
    if decide (m < 2 ^ 64)%Z then Ok (u64 (if neg : bool then (- m)%Z else m))
    else Err (Exn "std::out_of_range: stoull")
  | None => Err (Exn "std::invalid_argument: stoull")
  end.

(** [std::to_string] of a signed number. *)
Definition int_to_string (z : Z) : string := if decide (z < 0)%Z then ("-" +:+ to_string (- z))%string else to_string z.

(** ** Numbers are read back as they are printed *)

Lemma digit_pretty x : (x < 10)%N → digit (pretty_N_char x) = Some (Z.of_N x).
Proof. intros Hx. assert (x = 0 ∨ x = 1 ∨ x = 2 ∨ x = 3 ∨ x = 4 ∨ x = 5 ∨ x = 6 ∨ x = 7 ∨ x = 8 ∨ x = 9)%N as Hd by lia. by destruct_or? Hd; subst. Qed.

Lemma digits_value_pretty x s : digits_value 0 (chars (pretty_N_go x s)) = digits_value (Z.of_N x) (chars s).
Proof.
  revert s. induction (N.lt_wf_0 x) as [x _ IH]. intros s. destruct (decide (x = 0)%N) as [->|Hx].
  - by rewrite pretty_N_go_0.
  - rewrite pretty_N_go_step by lia. rewrite IH by (apply N.div_lt; lia). cbn [chars String.list_ascii_of_string digits_value].
    rewrite digit_pretty by (apply N.mod_lt; lia). f_equal. rewrite (N.div_mod x 10) at 3 by lia. lia.
Qed.

Lemma digit_not_sign c : is_Some (digit c) → isspace c = false ∧ c ≠ "-"%char ∧ c ≠ "+"%char.
Proof.
  unfold digit, isspace. intros [d Hd]. case_decide as H; [|done]. split_and!.
  - cbv zeta. rewrite (bool_decide_false (nat_of_ascii c = 32)) by lia.
    rewrite (bool_decide_false (nat_of_ascii c ≤ 13)) by lia. apply andb_false_r.
  - intros ->. destruct H as [H _]. by apply H.
  - intros ->. destruct H as [H _]. by apply H.
Qed.

Lemma pretty_head x s : (0 < x)%N → ∃ c l, chars (pretty_N_go x s) = c :: l ∧ is_Some (digit c).
Proof.
  revert s. induction (N.lt_wf_0 x) as [x _ IH]. intros s Hx. rewrite pretty_N_go_step by done.
  destruct (decide (x `div` 10 = 0)%N) as [E|E].
  - rewrite E, pretty_N_go_0. eexists _, _. split; [reflexivity|]. rewrite digit_pretty by (apply N.mod_lt; lia). by eexists.
  - apply IH; [apply N.div_lt; lia|by apply N.neq_0_lt_0].
Qed.

Lemma to_string_chars z :
  (0 ≤ z)%Z → digits_value 0 (chars (to_string z)) = z ∧ ∃ c l, chars (to_string z) = c :: l ∧ is_Some (digit c).
Proof.
  intros Hz. unfold to_string, pretty, pretty_N. case_decide as H0.
  - assert (z = 0%Z) as -> by lia. split; [done|]. eexists _, _. split; [reflexivity|]. by eexists.
  - split; [|apply pretty_head; lia]. rewrite digits_value_pretty. simpl. lia.
Qed.

Lemma parse_digits l c l' :
  l = c :: l' → is_Some (digit c) → parse_integer l = Some (false, digits_value 0 l).
Proof.
  intros -> Hd. destruct (digit_not_sign c Hd) as (Hs & Hm & Hp). unfold parse_integer, trim_left. simpl. rewrite Hs. simpl.
  assert (E : match c with "-"%char => (true, l') | "+"%char => (false, l') | _ => (false, c :: l') end = (false, c :: l')).
  { destruct c as [[] [] [] [] [] [] [] []]; first [reflexivity | by destruct Hm | by destruct Hp]. }
  destruct Hd as [d Hd]. rewrite E. simpl. rewrite Hd. done.
Qed.

(** What is printed is read back. *)
Lemma parse_integer_to_string z : parse_integer (chars (int_to_string z)) = Some (bool_decide (z < 0)%Z, Z.abs z).
Proof.
  unfold int_to_string. case_decide as Hz.
  - destruct (to_string_chars (- z)) as (Hv & c & l & E & Hd); [lia|]. rewrite bool_decide_true by done.
    change (chars ("-" +:+ to_string (- z))%string) with ("-"%char :: chars (to_string (- z))). unfold parse_integer, trim_left. simpl.
    rewrite Hv, E. destruct Hd as [d ->]. f_equal. f_equal. lia.
  - destruct (to_string_chars z) as (Hv & c & l & E & Hd); [lia|]. rewrite bool_decide_false by done.
    rewrite (parse_digits _ c l E Hd), Hv. f_equal. f_equal. lia.
Qed.

Lemma signed_abs z : (if bool_decide (z < 0)%Z then (- Z.abs z)%Z else Z.abs z) = z.
Proof. case_bool_decide; lia. Qed.

Lemma stoi_to_string z : (- 2 ^ 31 ≤ z < 2 ^ 31)%Z → stoi (chars (int_to_string z)) = Ok z.
Proof. intros Hz. unfold stoi. rewrite parse_integer_to_string, signed_abs. by rewrite decide_True. Qed.

Lemma stoll_to_string z : (- 2 ^ 63 ≤ z < 2 ^ 63)%Z → stoll (chars (int_to_string z)) = Ok z.
Proof. intros Hz. unfold stoll. rewrite parse_integer_to_string, signed_abs. by rewrite decide_True. Qed.

Lemma to_string_unsigned z : (0 ≤ z)%Z → to_string z = int_to_string z.
Proof. intros Hz. unfold int_to_string. by rewrite decide_False by lia. Qed.

Lemma stoull_to_string z : (0 ≤ z < 2 ^ 64)%Z → stoull (chars (to_string z)) = Ok z.
Proof.
  intros Hz. rewrite to_string_unsigned by lia. unfold stoull. rewrite parse_integer_to_string, signed_abs, decide_True by lia.
  unfold wrapu. by rewrite Z.mod_small by lia.
Qed.

(** ** The words of a string, defined by one pass over it *)

Fixpoint words (P : ascii → bool) (cur : list ascii) (l : list ascii) : list (list ascii) :=
  match l with
  | [] => match cur with [] => [] | _ => [cur] end
  | c :: l =>
    if P c then
      match cur with [] => words P [] l | _ => cur :: words P [] l end
    else words P (cur ++ [c]) l
  end.

Lemma count_while_split {A} (Q : A → bool) (l : list A) :
  Forall (λ c, Q c = true) (take (count_while Q l) l) ∧
  (∀ c l', drop (count_while Q l) l = c :: l' → Q c = false).
Proof.
  induction l as [|c l [IH1 IH2]]; simpl; [done|]. destruct (Q c) eqn:E; simpl.
  - split; [by constructor|done].
  - split; [done|]. by intros ?? [= <- <-].
Qed.

Lemma count_while_le {A} (Q : A → bool) (l : list A) : count_while Q l ≤ length l.
Proof. induction l as [|c l IH]; simpl; [done|]. destruct (Q c); lia. Qed.

Section Words.
Context (P : ascii → bool).
Implicit Types (l w : list ascii).

Lemma words_skip d l : Forall (λ c, P c = true) d → words P [] (d ++ l) = words P [] l.
Proof. induction 1 as [|c d Hc _ IH]; simpl; [done|]. by rewrite Hc. Qed.

Lemma words_word cur w l :
  Forall (λ c, P c = false) w → words P cur (w ++ l) = words P (cur ++ w) l.
Proof.
  intros Hw. revert cur. induction Hw as [|c w Hc _ IH]; intros cur; simpl; [by rewrite app_nil_r|].
  by rewrite Hc, IH, <-app_assoc.
Qed.

Lemma words_end w l :
  w ≠ [] → (∀ c l', l = c :: l' → P c = true) → words P w l = w :: words P [] l.
Proof.
  intros Hw Hl. destruct l as [|c l]; simpl; [by destruct w|]. rewrite (Hl c l) by done.
  by destruct w.
Qed.

End Words.

Lemma drop_count_while {A} (Q : A → bool) (l : list A) :
  l = take (count_while Q l) l ++ drop (count_while Q l) l.
Proof. by rewrite take_drop. Qed.

(** [NextToken] returns the next word and the rest has the other words. *)
Lemma next_token_words str delims pos :
  match NextToken str delims pos with
  | (_, None) => words (is_delim delims) [] (drop pos str) = []
  | (token, Some pos') =>
    pos < pos' ≤ length str ∧
    words (is_delim delims) [] (drop pos str) = token :: words (is_delim delims) [] (drop pos' str)
  end.
Proof.
  set (P := is_delim delims). unfold NextToken, find_first_not_of, find_first_false.
  change (is_delim delims) with P. set (d := count_while P (drop pos str)).
  pose proof (count_while_split P (drop pos str)) as [Hd1 Hd2].
  pose proof (count_while_le P (drop pos str)) as Hdl. rewrite length_drop in Hdl.
  fold d in Hd1, Hd2, Hdl. case_decide as Hlt.
  2:{ rewrite (drop_count_while P (drop pos str)), words_skip by done. fold d.
      rewrite drop_drop, drop_ge by lia. done. }
  set (Q := λ c, negb (is_delim delims c)).
  unfold find_first_of, find_first_false. fold Q.
  set (w := count_while Q (drop (pos + d) str)).
  pose proof (count_while_split Q (drop (pos + d) str)) as [Hw1 Hw2].
  pose proof (count_while_le Q (drop (pos + d) str)) as Hwl. rewrite length_drop in Hwl.
  fold w in Hw1, Hw2, Hwl.
  assert (match (if decide (pos + d + w < length str) then Some (pos + d + w) else None) with
    | Some e => e | None => length str end = pos + d + w) as -> by (case_decide; lia).
  replace (pos + d + w - (pos + d)) with w by lia.
  set (token := take w (drop (pos + d) str)).
  assert (length token = w) as Hlen by (unfold token; rewrite length_take, length_drop; lia).
  assert (1 ≤ w) as Hw.
  { unfold w. destruct (drop (pos + d) str) as [|c l] eqn:E.
    - apply (f_equal length) in E. rewrite length_drop in E. simpl in E. lia.
    - simpl. rewrite drop_drop in Hd2. assert (P c = false) as Hc by by eapply Hd2.
      unfold Q. fold P. rewrite Hc. simpl. lia. }
  split; [rewrite Hlen; lia|]. rewrite Hlen.
  rewrite (drop_count_while P (drop pos str)) at 1. fold d. rewrite words_skip by done.
  rewrite drop_drop. rewrite (drop_count_while Q (drop (pos + d) str)) at 1. fold w token.
  rewrite words_word.
  2:{ eapply Forall_impl; [exact Hw1|]. intros c Hc. by apply negb_true_iff in Hc. }
  rewrite drop_drop. apply words_end; [by intros Hnil; rewrite Hnil in Hlen; simpl in Hlen; lia|].
  intros c l' Hc. rewrite drop_drop in Hw2. apply Hw2 in Hc. unfold Q in Hc. by apply negb_false_iff in Hc.
Qed.

Lemma split_loop_words fuel str delims pos :
  length str < fuel + pos →
  split_loop fuel str delims pos = words (is_delim delims) [] (drop pos str).
Proof.
  revert pos. induction fuel as [|fuel IH]; intros pos Hf; simpl.
  - by rewrite drop_ge by lia.
  - pose proof (next_token_words str delims pos) as Hn.
    destruct (NextToken str delims pos) as [token [pos'|]]; [|done].
    destruct Hn as [Hpos ->]. f_equal. apply IH. lia.
Qed.

Lemma split_words_aux str delims : Split str delims = words (is_delim delims) [] str.
Proof. unfold Split. rewrite split_loop_words by lia. done. Qed.

Lemma join_words delim p parts :
  Forall (λ w, w ≠ [] ∧ delim ∉ w) (p :: parts) →
  words (is_delim [delim]) [] (Join (p :: parts) delim) = p :: parts.
Proof.
  assert (∀ w, delim ∉ w → Forall (λ c, is_delim [delim] c = false) w) as Hnd.
  { intros w Hw. apply Forall_forall. intros c Hc. apply bool_decide_eq_false_2.
    intros ->%list_elem_of_singleton. done. }
  unfold Join. revert p. induction parts as [|q parts IH]; intros p Hall;
    apply Forall_cons in Hall as [[Hp Hpd] Hall]; rewrite words_word by auto; simpl.
  - by destruct p.
  - unfold is_delim at 1. rewrite bool_decide_eq_true_2 by left. rewrite IH by done. by destruct p.
Qed.

(** ** Properties *)

(** [Split], which searches for delimiters with positions into the string,
    returns the words of the string: the maximal runs of characters that are not
    delimiters, in order. *)
Theorem split_words (str delims : list ascii) :
  Split str delims = words (is_delim delims) [] str.
Proof. apply split_words_aux. Qed.

(** Splitting what [Join] printed gives the parts back, when no part is empty
    and no part contains the delimiter. *)
Theorem split_join (delim : ascii) (p : list ascii) (parts : list (list ascii)) :
  Forall (λ w, w ≠ [] ∧ delim ∉ w) (p :: parts) →
  Split (Join (p :: parts) delim) [delim] = p :: parts.
Proof. intros Hall. rewrite split_words_aux. by apply join_words. Qed.

Lemma split_join_witness :
  Split (Join [chars "2"; chars "1"; chars "0"] ",") [","%char] = [chars "2"; chars "1"; chars "0"].
Proof.
  apply (split_join "," (chars "2") [chars "1"; chars "0"]).
  apply (bool_decide_eq_true_1 _). vm_compute. reflexivity.
Defined.
