(* ===== verification/Config.v ===== *)
(** * The configuration of a deployment

    [Configuration] of [common/configuration.cpp]: the checks of its constructor,
    the accessors the modules use, and machine ids. The schema is
    [proto/configuration.proto]; reading the file is outside of the model. *)
From Stdlib Require Import Ascii.
From S2P Require Import Prelude Types StringUtils.

(** ** The message *)

Record Replica := { addresses : list string; distance_ranking : string }.

Inductive Partitioning :=
  | PARTITIONING_NOT_SET
  | kHashPartitioning (partition_key_num_bytes : Z)
  | kSimplePartitioning (num_records record_size_bytes : Z)
  | kTpccPartitioning (warehouses : Z).

Inductive ExecutionType := KEY_VALUE | NOOP | TPC_C.

#[global] Instance ExecutionType_eq_dec : EqDecision ExecutionType.
Proof. solve_decision. Defined.

Inductive ModuleId :=
  | BROKER | SERVER | MHORDERER | LOCALPAXOS | GLOBALPAXOS | FORWARDER | SEQUENCER | INTERLEAVER
  | SCHEDULER | WORKER.

#[global] Instance ModuleId_eq_dec : EqDecision ModuleId.
Proof. solve_decision. Defined.

Record ConfigProto := {
  cp_protocol : string;
  cp_replicas : list Replica;
  cp_broker_ports : list Z;
  cp_server_port : Z;
  cp_forwarder_port : Z;
  cp_sequencer_port : Z;
  cp_num_partitions : Z;
  cp_partitioning : Partitioning;
  cp_num_workers : Z;
  cp_mh_orderer_batch_duration : Z;
  cp_forwarder_batch_duration : Z;
  cp_sequencer_batch_duration : Z;
  cp_sequencer_batch_size : Z;
  cp_sequencer_rrr : bool;
  cp_replication_factor : Z;
  cp_replication_order : list string;
  cp_delay_pct : Z;
  cp_delay_amount_ms : Z;
  cp_enabled_events : list TransactionEvent;
  cp_bypass_mh_orderer : bool;
  cp_cpu_pinnings : list (ModuleId * Z);
  cp_return_dummy_txn : bool;
  cp_recv_retries : Z;
  cp_execution_type : ExecutionType;
  cp_synchronized_batching : bool;
  cp_sample_rate : Z;
  cp_broker_rcvbuf : Z;
  cp_long_sender_sndbuf : Z
}.

Definition kBrokerChannel : Channel := 11.
Definition kMaxChannel : Channel := 15.

(** ** The constructor *)

Record Configuration := {
  config_ : ConfigProto;
  local_address_ : string;
  local_replica_ : Z;
  local_partition_ : Z;
  all_addresses_ : list string;
  replication_order_ : list Z
}.

Definition CHECK (b : bool) (what : string) : result () :=
  if b then Ok () else Err (Fatal what).

(** The loop over the addresses of one replica: the state is whether the local
    address was found, the local replica and partition, and all addresses. *)
Fixpoint scan_addresses (local_address : string) (r p : Z) (addrs : list string)
    (st : bool * Z * Z * list string) : bool * Z * Z * list string :=
  match addrs with
  | [] => st
  | a :: addrs =>
    let '(valid, lr, lp, all) := st in
    let all := all ++ [a] in
    scan_addresses local_address r (p + 1) addrs
      (if decide (a = local_address) then (true, r, p, all) else (valid, lr, lp, all))
  end.

Fixpoint scan_replicas (num_partitions : Z) (local_address : string) (r : Z)
    (rs : list Replica) (st : bool * Z * Z * list string) : result (bool * Z * Z * list string) :=
  match rs with
  | [] => Ok st
  | replica :: rs =>
    _ ← CHECK (bool_decide (u32 (Z.of_nat (length (addresses replica))) = num_partitions))
          "Number of addresses in each replica must match number of partitions.";
    scan_replicas num_partitions local_address (r + 1) rs
      (scan_addresses local_address r 0 (addresses replica) st)
  end.

(** [std::stol] is [std::stoll] where [long] has 64 bits. The elements are stored
    as [uint32_t]. *)
Fixpoint parse_order (replicas_size local_replica : Z) (strs : list (list ascii)) :
    result (list Z) :=
  match strs with
  | [] => Ok []
  | rstr :: strs =>
    r ← stoll rstr;
    _ ← CHECK (bool_decide (r < replicas_size)%Z)
          "Invalid replica specified in the replication order";
    rest ← parse_order replicas_size local_replica strs;
    Ok (if decide (r ≠ local_replica) then u32 r :: rest else rest)
  end.

Definition has_tpcc_partitioning (c : ConfigProto) : bool :=
  match cp_partitioning c with kTpccPartitioning _ => true | _ => false end.

Definition MakeConfiguration (c : ConfigProto) (local_address : string) : result Configuration :=
  let replicas_size := Z.of_nat (length (cp_replicas c)) in
  let ports_size := Z.of_nat (length (cp_broker_ports c)) in
  _ ← CHECK (bool_decide (cp_replication_factor c ≤ replicas_size)%Z)
        "Replication factor must not exceed number of replicas";
  _ ← CHECK (bool_decide (ports_size ≤ kMaxChannel - kBrokerChannel)%Z)
        "Maximum number of broker threads exceeded";
  _ ← CHECK (bool_decide (0 < ports_size)%Z) "There must be at least one broker";
  _ ← CHECK (bool_decide (cp_server_port c ≠ 0%Z)) "Server port must be set";
  _ ← CHECK (bool_decide (cp_sequencer_port c ≠ 0%Z)) "Sequencer port must be set";
  _ ← CHECK (bool_decide (cp_forwarder_port c ≠ 0%Z)) "Forwarder port must be set";
  '(valid, lr, lp, all) ←
     scan_replicas (cp_num_partitions c) local_address 0 (cp_replicas c)
       (bool_decide (local_address = EmptyString), 0%Z, 0%Z, []);
  _ ← CHECK valid "The configuration does not contain the provided local machine ID";
  _ ← CHECK (if decide (cp_execution_type c = TPC_C) then has_tpcc_partitioning c else true)
        "TPC-C execution type can only be paired with TPC-C partitioning";
  _ ← CHECK (if has_tpcc_partitioning c then bool_decide (cp_execution_type c = TPC_C) else true)
        "TPC-C partitioning can only be paired with TPC-C execution type";
  order ←
    match cp_replication_order c !! Z.to_nat lr with
    | Some s => parse_order replicas_size lr (Split (chars s) [","%char])
    | None => Ok []
    end;
  Ok {| config_ := c; local_address_ := local_address; local_replica_ := lr;
        local_partition_ := lp; all_addresses_ := all; replication_order_ := order |}.

(** ** Accessors *)

Definition num_replicas (c : Configuration) : Z := Z.of_nat (length (cp_replicas (config_ c))).
Definition num_partitions (c : Configuration) : Z := cp_num_partitions (config_ c).
Definition num_workers (c : Configuration) : Z := Z.max (cp_num_workers (config_ c)) 1.
Definition replication_factor (c : Configuration) : Z := Z.max (cp_replication_factor (config_ c)) 1.

Definition sequencer_batch_duration (c : Configuration) : Z :=
  if decide (cp_sequencer_batch_duration (config_ c) = 0%Z) then 1
  else cp_sequencer_batch_duration (config_ c).

Definition recv_retries (c : Configuration) : Z :=
  if decide (cp_recv_retries (config_ c) = 0%Z) then 1000 else cp_recv_retries (config_ c).

(** The product and sum are computed as [uint32_t] and stored in an [int]. *)
Definition MakeMachineId (c : Configuration) (replica partition : Z) : MachineId :=
  i32 (u32 (u32 (replica * num_partitions c) + partition)).

(** The [int] is converted to [uint32_t] by the division. *)
Definition UnpackMachineId (c : Configuration) (machine_id : MachineId) : Z * Z :=
  (u32 machine_id `div` num_partitions c, u32 machine_id `mod` num_partitions c)%Z.

Definition local_replica (c : Configuration) : Z := local_replica_ c.
Definition local_partition (c : Configuration) : Z := local_partition_ c.

Definition local_machine_id (c : Configuration) : MachineId :=
  MakeMachineId c (local_replica_ c) (local_partition_ c).

Definition address_of_machine (c : Configuration) (m : MachineId) : option string :=
  all_addresses_ c !! Z.to_nat m.

Definition all_machine_ids (c : Configuration) : list MachineId :=
  rep ← seqZ 0 (num_replicas c);
  part ← seqZ 0 (num_partitions c);
  [MakeMachineId c rep part].

Definition address (c : Configuration) (replica partition : Z) : option string :=
  rep ← cp_replicas (config_ c) !! Z.to_nat replica;
  addresses rep !! Z.to_nat partition.

Definition leader_replica_for_multi_home_ordering (c : Configuration) : Z := 0.
Definition leader_partition_for_multi_home_ordering (c : Configuration) : Z := 0.

Definition mh_orderer_batch_duration (c : Configuration) : Z := cp_mh_orderer_batch_duration (config_ c).
Definition forwarder_batch_duration (c : Configuration) : Z := cp_forwarder_batch_duration (config_ c).
Definition sequencer_batch_size (c : Configuration) : Z := cp_sequencer_batch_size (config_ c).
Definition sequencer_rrr (c : Configuration) : bool := cp_sequencer_rrr (config_ c).
Definition replication_delay_pct (c : Configuration) : Z := cp_delay_pct (config_ c).
Definition replication_delay_amount_ms (c : Configuration) : Z := cp_delay_amount_ms (config_ c).
Definition bypass_mh_orderer (c : Configuration) : bool := cp_bypass_mh_orderer (config_ c).
Definition return_dummy_txn (c : Configuration) : bool := cp_return_dummy_txn (config_ c).
Definition execution_type (c : Configuration) : ExecutionType := cp_execution_type (config_ c).
Definition synchronized_batching (c : Configuration) : bool := cp_synchronized_batching (config_ c).

Definition cpu_pinnings (c : Configuration) (module : ModuleId) : list Z :=
  (filter (λ e, e.1 = module) (cp_cpu_pinnings (config_ c))).*2.

(** [std::stoi] throws on an entry that is not a number. *)
Fixpoint parse_ranking (strs : list (list ascii)) : result (list Z) :=
  match strs with
  | [] => Ok []
  | s :: strs => r ← stoi s; rest ← parse_ranking strs; Ok (r :: rest)
  end.

Definition distance_ranking_from (c : Configuration) (replica_id : Z) : result (list Z) :=
  match cp_replicas (config_ c) !! Z.to_nat replica_id with
  | None => Err (Undef "config_.replicas(replica_id)")
  | Some rep => parse_ranking (Split (chars (distance_ranking rep)) [","%char])
  end.

Definition broker_rcvbuf (c : Configuration) : Z :=
  if decide (cp_broker_rcvbuf (config_ c) ≤ 0)%Z then -1 else cp_broker_rcvbuf (config_ c).

Definition long_sender_sndbuf (c : Configuration) : Z :=
  if decide (cp_long_sender_sndbuf (config_ c) ≤ 0)%Z then -1 else cp_long_sender_sndbuf (config_ c).

(** ** Machine ids *)

Lemma u32_small x : (0 ≤ x < 2 ^ 32)%Z → u32 x = x.
Proof. intros. unfold wrapu. by rewrite Z.mod_small. Qed.

Lemma i32_small x : (- 2 ^ 31 ≤ x < 2 ^ 31)%Z → i32 x = x.
Proof. intros. unfold wraps. change (32 - 1)%Z with 31%Z. rewrite Z.mod_small; lia. Qed.

(** All machine ids of the deployment fit in an [int]. *)
Definition fits (c : Configuration) : Prop :=
  (0 < num_partitions c)%Z ∧ (num_replicas c * num_partitions c ≤ 2 ^ 31)%Z.

Lemma machine_id_bound c r p :
  fits c → (0 ≤ r < num_replicas c)%Z → (0 ≤ p < num_partitions c)%Z →
  (0 ≤ r * num_partitions c + p < num_replicas c * num_partitions c)%Z ∧
  MakeMachineId c r p = (r * num_partitions c + p)%Z.
Proof.
  intros [Hp Hf] Hr Hpp.
  assert (0 ≤ r * num_partitions c)%Z by nia.
  assert (r * num_partitions c + p < num_replicas c * num_partitions c)%Z by nia.
  split; [lia|]. unfold MakeMachineId.
  rewrite (u32_small (r * _)) by lia. rewrite u32_small by lia. apply i32_small. lia.
Qed.

Lemma machine_id_roundtrip_aux c r p :
  fits c → (0 ≤ r < num_replicas c)%Z → (0 ≤ p < num_partitions c)%Z →
  UnpackMachineId c (MakeMachineId c r p) = (r, p).
Proof.
  intros Hf Hr Hp. destruct (machine_id_bound c r p Hf Hr Hp) as [Hb ->]. destruct Hf as [Hnp Hf].
  unfold UnpackMachineId. rewrite u32_small by lia.
  rewrite Z.div_add_l, Z.div_small, Z.add_0_r by lia.
  rewrite Z.add_comm, Z.mod_add, Z.mod_small by lia. done.
Qed.

(** ** The local address *)

(** What the scan of the addresses knows after [n] addresses of replicas of [np]
    partitions each. *)
Record scan_ok (np n : Z) (addr : string) (st : bool * Z * Z * list string) : Prop := {
  so_len : Z.of_nat (length st.2) = n;
  so_found : st.1.1.1 = true →
    (0 ≤ st.1.1.2 ∧ 0 ≤ st.1.2 < np ∧ st.1.1.2 * np + st.1.2 < n)%Z ∧
    st.2 !! Z.to_nat (st.1.1.2 * np + st.1.2) = Some addr
}.

Lemma scan_addresses_ok np addr r p addrs st :
  (0 ≤ r)%Z → (0 ≤ p)%Z → (p + Z.of_nat (length addrs) = np)%Z →
  scan_ok np (r * np + p) addr st → scan_ok np ((r + 1) * np) addr (scan_addresses addr r p addrs st).
Proof.
  intros Hr. revert p st. induction addrs as [|a addrs IH]; intros p st Hp Hlen Hok; simpl in *.
  { replace ((r + 1) * np)%Z with (r * np + p)%Z by lia. done. }
  destruct st as [[[valid lr] lp] all]. destruct Hok as [Hl Hf]. simpl in *.
  assert (0 ≤ r * np)%Z by nia.
  apply IH; [lia|lia|]. case_decide as Ha; split; simpl; rewrite ?length_app; simpl; try lia.
  - intros _. split; [lia|]. rewrite lookup_app_r by lia.
    replace (Z.to_nat (r * np + p) - length all) with 0 by lia. by subst a.
  - intros Hv. destruct (Hf Hv) as [Hb Hx]. split; [lia|]. by apply lookup_app_l_Some.
Qed.

Lemma scan_replicas_ok np addr r rs st st' :
  (0 ≤ r)%Z → Forall (λ rep, (Z.of_nat (length (addresses rep)) < 2 ^ 32)%Z) rs →
  scan_ok np (r * np) addr st → scan_replicas np addr r rs st = Ok st' →
  scan_ok np ((r + Z.of_nat (length rs)) * np) addr st'.
Proof.
  intros Hr Hsz. revert r st Hr. induction Hsz as [|rep rs Hrep _ IH]; intros r st Hr Hok Hrun; simpl in *.
  { injection Hrun as <-. by rewrite Z.add_0_r. }
  unfold CHECK in Hrun. case_bool_decide as Hn; simpl in Hrun; [|done].
  rewrite u32_small in Hn by lia.
  apply IH in Hrun; [|lia|].
  - by replace (r + Z.of_nat (S (length rs)))%Z with (r + 1 + Z.of_nat (length rs))%Z by lia.
  - apply scan_addresses_ok; [done|lia|lia|]. by rewrite Z.add_0_r.
Qed.

Ltac checks H :=
  repeat match type of H with
  | (mbind _ (CHECK ?b _)) = Ok _ =>
    let E := fresh "Echk" in
    destruct b eqn:E; cbn [CHECK mbind result_bind] in H; [|discriminate H]
  end.

Lemma configuration_local p addr c :
  MakeConfiguration p addr = Ok c → addr ≠ EmptyString →
  Forall (λ rep, (Z.of_nat (length (addresses rep)) < 2 ^ 32)%Z) (cp_replicas p) →
  config_ c = p ∧ local_address_ c = addr ∧
  (0 ≤ local_replica_ c < num_replicas c)%Z ∧ (0 ≤ local_partition_ c < num_partitions c)%Z ∧
  all_addresses_ c !! Z.to_nat (local_replica_ c * num_partitions c + local_partition_ c) = Some addr.
Proof.
  intros Hmk Hne Hsz. unfold MakeConfiguration in Hmk. checks Hmk.
  destruct (scan_replicas _ _ _ _ _) as [[[[valid lr] lp] all]|] eqn:Escan; [|discriminate Hmk].
  cbn [mbind result_bind] in Hmk. checks Hmk.
  apply scan_replicas_ok in Escan as [_ Hfound]; [|done|done|].
  2:{ split; [done|]. simpl. rewrite bool_decide_eq_false_2 by done. done. }
  simpl in Hfound. destruct (Hfound eq_refl) as [Hb Hx].
  destruct (match cp_replication_order p !! Z.to_nat lr with Some s => _ | None => _ end);
    [|discriminate Hmk].
  injection Hmk as <-. unfold num_replicas, num_partitions; simpl. split_and!; [done|done|lia|nia|lia|lia|done].
Qed.

(** ** Properties *)

(** Machine ids are unambiguous: unpacking the id of a replica and partition
    of the deployment gives them back. *)
Theorem machine_id_roundtrip (c : Configuration) (r p : Z) :
  fits c → (0 ≤ r < num_replicas c)%Z → (0 ≤ p < num_partitions c)%Z →
  UnpackMachineId c (MakeMachineId c r p) = (r, p).
Proof. apply machine_id_roundtrip_aux. Qed.

Definition example_proto : ConfigProto := {|
  cp_protocol := "tcp";
  cp_replicas := [{| addresses := ["a0"; "a1"]; distance_ranking := EmptyString |};
                  {| addresses := ["b0"; "b1"]; distance_ranking := EmptyString |}];
  cp_broker_ports := [2021%Z]; cp_server_port := 2023; cp_forwarder_port := 2024;
  cp_sequencer_port := 2025; cp_num_partitions := 2;
  cp_partitioning := kHashPartitioning 1; cp_num_workers := 0;
  cp_mh_orderer_batch_duration := 1; cp_forwarder_batch_duration := 1;
  cp_sequencer_batch_duration := 0; cp_sequencer_batch_size := 0; cp_sequencer_rrr := false;
  cp_replication_factor := 2; cp_replication_order := ["1"; "0,1"];
  cp_delay_pct := 0; cp_delay_amount_ms := 0; cp_enabled_events := [];
  cp_bypass_mh_orderer := false; cp_cpu_pinnings := []; cp_return_dummy_txn := false; cp_recv_retries := 0;
  cp_execution_type := KEY_VALUE; cp_synchronized_batching := false; cp_sample_rate := 100;
  cp_broker_rcvbuf := 0; cp_long_sender_sndbuf := 0
|}.

Definition example_config : Configuration := {|
  config_ := example_proto; local_address_ := "b0"; local_replica_ := 1; local_partition_ := 0;
  all_addresses_ := ["a0"; "a1"; "b0"; "b1"]; replication_order_ := [0%Z]
|}.

Lemma machine_id_roundtrip_witness :
  UnpackMachineId example_config (MakeMachineId example_config 1 1) = (1%Z, 1%Z).
Proof.
  apply (machine_id_roundtrip example_config 1 1); unfold fits, num_partitions, num_replicas; simpl; lia.
Defined.

(** A configuration that its constructor accepts for a given local address
    knows where it is: the address of its own machine id is that address. *)
Theorem configuration_finds_itself (p : ConfigProto) (addr : string) (c : Configuration) :
  MakeConfiguration p addr = Ok c → addr ≠ EmptyString → fits c →
  Forall (λ rep, (Z.of_nat (length (addresses rep)) < 2 ^ 32)%Z) (cp_replicas p) →
  address_of_machine c (local_machine_id c) = Some addr.
Proof.
  intros Hmk Hne Hf Hsz. destruct (configuration_local p addr c Hmk Hne Hsz) as (_ & _ & Hr & Hp & Hx).
  unfold address_of_machine, local_machine_id. by destruct (machine_id_bound c _ _ Hf Hr Hp) as [_ ->].
Qed.

Lemma configuration_finds_itself_witness :
  MakeConfiguration example_proto "b0" = Ok example_config ∧
  address_of_machine example_config (local_machine_id example_config) = Some "b0".
Proof.
  split; [vm_compute; reflexivity|].
  apply (configuration_finds_itself example_proto "b0" example_config).
  - vm_compute. reflexivity.
  - discriminate.
  - unfold fits, num_partitions, num_replicas; simpl; lia.
  - repeat constructor.
Defined.
