(* ===== verification/Sharder.v ===== *)
(** * Sharders

    [common/sharder.cpp]: the map from keys to partitions. Characters are read
    through a signed [char], as on the platforms the code is built for. *)
From Stdlib Require Import Ascii.
From S2P Require Import Prelude Types StringUtils Config.

(** The value of a [char]. *)
Definition schar (c : ascii) : Z := i8 (Z.of_nat (nat_of_ascii c)).

Definition uchar (c : ascii) : Z := Z.of_nat (nat_of_ascii c).

(** [hash] is a [uint64_t]; the character is converted to it with its sign. *)
Definition fnv_step (hash : Z) (c : ascii) : Z :=
  let hash := (u64 (hash * 16777619) `mod` 2 ^ 32)%Z in
  Z.lxor hash (u64 (schar c)).

Definition FNVHash (l : list ascii) : Z := u32 (foldl fnv_step 2166136261%Z l).

(** [MakeSharder] chooses by the partitioning of the configuration; both fields
    are [uint32_t]. *)
Inductive SharderKind :=
  | HashSharder (partition_key_num_bytes_ : Z)
  | SimpleSharder
  | TPCCSharder.

Record Sharder := { sh_kind : SharderKind; sh_local_partition : Z; sh_num_partitions : Z }.

Definition MakeSharder (c : Configuration) : Sharder :=
  {| sh_kind :=
       match cp_partitioning (config_ c) with
       | kSimplePartitioning _ _ => SimpleSharder
       | kTpccPartitioning _ => TPCCSharder
       | kHashPartitioning n => HashSharder n
       | PARTITIONING_NOT_SET => HashSharder 0
       end;
     sh_local_partition := local_partition c;
     sh_num_partitions := num_partitions c |}.

Definition hash_compute_partition (num_bytes np : Z) (k : Key) : Z :=
  let l := chars k in
  let l := if decide (Z.of_nat (length l) ≤ num_bytes)%Z then l else take (Z.to_nat num_bytes) l in
  (FNVHash l `mod` np)%Z.

(** [long long % uint32_t] is computed as [long long], with the sign of the
    dividend, and then converted. *)
Definition simple_compute_partition (np : Z) (k : Key) : result Z :=
  n ← stoll (chars k);
  Ok (u32 (Z.rem n np)).

(** The first four bytes, least significant first, as an [int]. *)
Definition read_int (l : list ascii) : option Z :=
  match l with
  | b0 :: b1 :: b2 :: b3 :: _ =>
    Some (i32 (uchar b0 + 2 ^ 8 * uchar b1 + 2 ^ 16 * uchar b2 + 2 ^ 24 * uchar b3))
  | _ => None
  end.

Definition tpcc_compute_partition (np : Z) (k : Key) : result Z :=
  match read_int (chars k) with
  | Some w_id => Ok (u32 (w_id - 1) `mod` np)%Z
  | None => Err (Undef "TPCCSharder: key is shorter than an int")
  end.

Definition compute_partition (sh : Sharder) (k : Key) : result Z :=
  match sh_kind sh with
  | HashSharder n => Ok (hash_compute_partition n (sh_num_partitions sh) k)
  | SimpleSharder => simple_compute_partition (sh_num_partitions sh) k
  | TPCCSharder => tpcc_compute_partition (sh_num_partitions sh) k
  end.

Definition is_local_key (sh : Sharder) (k : Key) : result bool :=
  p ← compute_partition sh k;
  Ok (bool_decide (p = sh_local_partition sh)).

(** ** The hash in 32 bits *)

(** The 32-bit FNV-1 hash, over the bytes as the code reads them. *)
Definition fnv1_32 (l : list ascii) : Z :=
  foldl (λ h c, Z.lxor (u32 (h * 16777619)) (u32 (schar c))) 2166136261%Z l.

Lemma wrapu_land w z : (0 ≤ w)%Z → wrapu w z = Z.land z (Z.ones w).
Proof. intros. unfold wrapu. by rewrite Z.land_ones. Qed.

Lemma u32_u64 z : u32 (u64 z) = u32 z.
Proof.
  unfold wrapu. change (2 ^ 64)%Z with (2 ^ 32 * 2 ^ 32)%Z. rewrite Z.rem_mul_r by lia.
  rewrite Z.mul_comm, Z.mod_add by lia. apply Z.mod_mod. lia.
Qed.

Lemma u32_lxor x y : u32 (Z.lxor x y) = Z.lxor (u32 x) (u32 y).
Proof.
  rewrite !wrapu_land by lia. apply Z.bits_inj'. intros n Hn.
  rewrite ?Z.land_spec, ?Z.lxor_spec, ?Z.land_spec.
  by destruct (Z.testbit x n), (Z.testbit y n), (Z.testbit (Z.ones 32) n).
Qed.

Lemma u32_mul x y : u32 (u32 x * y) = u32 (x * y).
Proof. unfold wrapu. rewrite Z.mul_mod_idemp_l by lia. done. Qed.

Lemma fnv_step_32 h h' c :
  u32 h = h' → u32 (fnv_step h c) = Z.lxor (u32 (h' * 16777619)) (u32 (schar c)).
Proof.
  intros <-. unfold fnv_step. rewrite u32_lxor, u32_u64. f_equal.
  change (u64 (h * 16777619) `mod` 2 ^ 32)%Z with (u32 (u64 (h * 16777619))).
  rewrite !u32_u64. rewrite u32_mul. unfold wrapu. apply Z.mod_mod. lia.
Qed.

Lemma fnv_32_aux l : FNVHash l = fnv1_32 l.
Proof.
  unfold FNVHash, fnv1_32. assert (u32 2166136261 = 2166136261)%Z as H0 by done.
  revert H0. generalize 2166136261%Z at 1 3 as h. generalize 2166136261%Z as h'.
  induction l as [|c l IH]; intros h' h Hh; simpl; [done|].
  apply IH. by apply fnv_step_32.
Qed.

(** ** Properties *)

(** The hash, computed in 64 bits with a reduction per character, is the
    32-bit FNV-1 hash of the characters. *)
Theorem fnv_hash_32 (l : list ascii) : FNVHash l = fnv1_32 l.
Proof. apply fnv_32_aux. Qed.

(** A key that starts with a warehouse id, as the keys of the TPC-C tables do: four bytes, the
    least significant first. *)
Definition starts_with_warehouse (w : Z) (k : Key) : Prop :=
  ∃ b0 b1 b2 b3 rest, chars k = b0 :: b1 :: b2 :: b3 :: rest ∧
    w = (uchar b0 + 256 * uchar b1 + 65536 * uchar b2 + 16777216 * uchar b3)%Z.

(** Where a key belongs: by the hash of its first bytes, by its number, or by its warehouse,
    counted from 1. *)
Inductive belongs (np : Z) : SharderKind → Key → Z → Prop :=
  | belongs_hash n k : belongs np (HashSharder n) k (fnv1_32 (take (Z.to_nat n) (chars k)) `mod` np)%Z
  | belongs_simple z : (0 ≤ z < 2 ^ 63)%Z → belongs np SimpleSharder (int_to_string z) (z `mod` np)%Z
  | belongs_tpcc w k : (1 ≤ w < 2 ^ 31)%Z → starts_with_warehouse w k → belongs np TPCCSharder k ((w - 1) `mod` np)%Z.

Lemma hash_partition_belongs n np k : hash_compute_partition n np k = (fnv1_32 (take (Z.to_nat n) (chars k)) `mod` np)%Z.
Proof.
  unfold hash_compute_partition. case_decide; [|by rewrite fnv_32_aux]. by rewrite fnv_32_aux, take_ge by lia.
Qed.

Lemma simple_partition_belongs np z :
  (0 < np < 2 ^ 32)%Z → (0 ≤ z < 2 ^ 63)%Z → simple_compute_partition np (int_to_string z) = Ok (z `mod` np)%Z.
Proof.
  intros Hnp Hz. unfold simple_compute_partition. rewrite stoll_to_string by lia. cbn [mbind result_bind].
  pose proof (Z.mod_pos_bound z np ltac:(lia)). rewrite Z.rem_mod_nonneg by lia. rewrite u32_small; [done|lia].
Qed.

Lemma tpcc_partition_belongs np w k :
  (0 < np < 2 ^ 32)%Z → (1 ≤ w < 2 ^ 31)%Z → starts_with_warehouse w k → tpcc_compute_partition np k = Ok ((w - 1) `mod` np)%Z.
Proof.
  intros Hnp Hw (b0 & b1 & b2 & b3 & rest & Hk & E). unfold tpcc_compute_partition. rewrite Hk. cbn [read_int].
  change (2 ^ 8)%Z with 256%Z. change (2 ^ 16)%Z with 65536%Z. change (2 ^ 24)%Z with 16777216%Z. rewrite <-E.
  rewrite (wraps_id 32) by (simpl; lia). rewrite u32_small by lia. done.
Qed.



(** A negative numeric key is sent to a partition that does not exist: the
    remainder has the sign of the key and is converted to [uint32_t]. *)
Theorem simple_sharder_negative_key :
  compute_partition {| sh_kind := SimpleSharder; sh_local_partition := 0; sh_num_partitions := 3 |} "-1"
    = Ok 4294967295%Z.
Proof. vm_compute. reflexivity. Qed.
