(* ===== verification/ProtoUtils.v ===== *)
(** * Operations on transactions

    [common/proto_utils.cpp], in the default build ([REMASTER_PROTOCOL_COUNTERLESS]):
    the classification of transactions by home, the lock-only and per-partition
    copies of a transaction, and the merging of partial results. The sharder is
    the argument [part], the partition of every key. *)
From S2P Require Import Prelude Types.
From S2P Require RMALock.

(** ** Classification *)

Definition SetTransactionType (txn : Transaction) : Transaction * TransactionType :=
  let complete := bool_decide (keys txn ≠ []) &&
                  forallb (λ kv, has_metadata (value_entry kv)) (keys txn) in
  match keys txn with
  | first :: _ =>
    if complete then
      let home := key_master first in
      let is_single_home := forallb (λ kv, bool_decide (key_master kv = home)) (keys txn) in
      (* Remaster txn will become multi-home *)
      let is_single_home := if is_remaster txn then false else is_single_home in
      if is_single_home then
        (set_internal (λ i, set_home (i32 home) (set_type SINGLE_HOME i)) txn, SINGLE_HOME)
      else
        (set_internal (λ i, set_home (-1) (set_type MULTI_HOME_OR_LOCK_ONLY i)) txn,
         MULTI_HOME_OR_LOCK_ONLY)
    else (set_internal (set_type UNKNOWN) txn, UNKNOWN)
  | [] => (set_internal (set_type UNKNOWN) txn, UNKNOWN)
  end.

(** ** Lock-only and partitioned copies *)

Definition GenerateLockOnlyTxn (txn : Transaction) (lo_master : Z) : Transaction :=
  let txn := set_internal (set_home (i32 lo_master)) txn in
  match program txn with
  | kRemaster new_master _ =>
    if decide (new_master = lo_master) then set_program (kRemaster new_master true) txn else txn
  | _ => txn
  end.

(** [vector<bool>]: setting an element after growing the vector to hold it. *)
Definition set_flag (v : list bool) (i : nat) : list bool :=
  let v := if decide (length v ≤ i) then v ++ replicate (S i - length v) false else v in
  <[i := true]> v.

Fixpoint true_indices (i : nat) (v : list bool) : list Z :=
  match v with
  | [] => []
  | b :: v => (if b then [Z.of_nat i] else []) ++ true_indices (S i) v
  end.

Section Partitioned.
Variable part : Key → Z.

Definition GeneratePartitionedTxn (txn : Transaction) (partition : Z) : option Transaction :=
  let ks := filter (λ kv, part (key kv) = partition) (keys txn) in
  let flags := foldl (λ v kv, set_flag v (Z.to_nat (key_master kv))) (replicate 8 false) ks in
  let is_redundant := negb (is_remaster txn) &&
    forallb (λ kv, bool_decide (i32 (key_master kv) ≠ home (internal txn))) ks in
  if bool_decide (ks = []) || is_redundant then None
  else
    let new_txn := set_keys ks txn in
    if decide (txn_type (internal new_txn) = MULTI_HOME_OR_LOCK_ONLY) then
      Some (set_internal (set_involved_replicas (true_indices 0 flags)) new_txn)
    else Some new_txn.

Definition PopulateInvolvedPartitions (num_partitions : nat) (txn : Transaction) : result Transaction :=
  let mark (acc : list bool * list bool) (kv : KeyValueEntry) :=
    let '(involved, active) := acc in
    let p := Z.to_nat (part (key kv)) in
    if decide ((0 ≤ part (key kv))%Z ∧ p < num_partitions) then
      Ok (<[p := true]> involved,
          if decide (key_type kv = WRITE) then <[p := true]> active else active)
    else Err (Undef "PopulateInvolvedPartitions: partition out of range") in
  '(involved, active) ←
    rfoldl mark (replicate num_partitions false, replicate num_partitions false) (keys txn);
  Ok (set_internal (λ i,
        set_active_partitions (active_partitions i ++ true_indices 0 active)
          (set_involved_partitions (involved_partitions i ++ true_indices 0 involved) i)) txn).

End Partitioned.

Definition PopulateInvolvedReplicas (txn : Transaction) : result Transaction :=
  match txn_type (internal txn) with
  | UNKNOWN => Ok txn
  | SINGLE_HOME =>
    match keys txn with
    | [] => Err (Undef "PopulateInvolvedReplicas: no key")
    | kv :: _ =>
      if has_metadata (value_entry kv) then
        Ok (set_internal (set_involved_replicas [key_master kv]) txn)
      else Err (Fatal "Check failed: has_metadata")
    end
  | MULTI_HOME_OR_LOCK_ONLY =>
    if forallb (λ kv, has_metadata (value_entry kv)) (keys txn) then
      let rs := (key_master <$> keys txn) ++
                match program txn with kRemaster m _ => [m] | _ => [] end in
      Ok (set_internal (λ i, set_involved_replicas (involved_replicas i ++ sort_unique rs) i) txn)
    else Err (Fatal "Check failed: has_metadata")
  end.

(** ** Merging *)

Definition MergeTransaction (txn other : Transaction) : result Transaction :=
  if decide (txn_id txn ≠ txn_id other) then
    Err (Exn "Cannot merge transactions with different IDs")
  else if decide (txn_type (internal txn) ≠ txn_type (internal other)) then
    Err (Exn "Cannot merge transactions with different types")
  else
    let txn :=
      if decide (status other = ABORTED) then
        set_abort_reason (abort_reason other) (set_status ABORTED txn)
      else if decide (status txn ≠ ABORTED) then
        set_keys (keys txn ++ filter (λ kv, key kv ∉ key <$> keys txn) (keys other)) txn
      else txn in
    Ok (set_internal (λ i,
          set_involved_replicas
            (sort_unique (involved_replicas i ++ involved_replicas (internal other)))
            (set_global_log_positions
              (global_log_positions i ++ [(-1)%Z] ++ global_log_positions (internal other))
              (set_events (events i ++ events (internal other)) i))) txn).

(** [Unbatch] hands the events of the batch to each of its transactions. *)
Definition Unbatch (b : Batch) : list Transaction :=
  set_internal (λ i, set_events (events i ++ batch_events b) i) <$> transactions b.

(** ** Construction *)

Record KeyMetadata := { km_key : Key; km_type : KeyType; km_metadata : option Metadata }.

Definition MakeTransaction (key_metadatas : list KeyMetadata) (code : list (list string))
    (remaster : option Z) (server : MachineId) : result Transaction :=
  let entry km :=
    {| key := km_key km;
       value_entry := {| value := EmptyString; new_value := EmptyString; type := km_type km;
         opt_metadata := (λ m, {| master := md_master m; counter := md_counter m |}) <$> km_metadata km |} |} in
  let txn :=
    {| internal := {| id := 1000; txn_type := UNKNOWN; home := 0; coordinating_server := u32 server;
         sequencer_delay_ms := 0; involved_partitions := []; active_partitions := [];
         involved_replicas := []; events := []; global_log_positions := [] |};
       program := match remaster with
         | Some m => kRemaster (u32 m) false
         | None => match code with [] => PROGRAM_NOT_SET | _ => kCode code end
         end;
       keys := entry <$> key_metadatas; deleted_keys := []; status := NOT_STARTED;
       abort_reason := EmptyString |} in
  PopulateInvolvedReplicas (SetTransactionType txn).1.

(** ** Flag vectors *)

Lemma elem_of_true_indices i v x :
  x ∈ true_indices i v ↔ ∃ j, v !! j = Some true ∧ x = Z.of_nat (i + j).
Proof.
  revert i. induction v as [|b v IH]; intros i; simpl; [set_solver|].
  rewrite elem_of_app, IH. split.
  - intros [Hb|(j & Hj & ->)].
    + destruct b; [|set_solver]. apply list_elem_of_singleton in Hb as ->.
      exists 0. split; [done|lia].
    + exists (S j). split; [done|lia].
  - intros ([|j] & Hj & ->); simpl in Hj.
    + injection Hj as ->. left. apply list_elem_of_singleton. lia.
    + right. exists j. split; [done|lia].
Qed.

Lemma true_indices_sorted i v : StronglySorted (<)%Z (true_indices i v).
Proof.
  revert i. induction v as [|b v IH]; intros i; simpl; [constructor|].
  destruct b; [|apply IH]. simpl. constructor; [apply IH|]. apply Forall_forall.
  intros x (j & _ & ->)%elem_of_true_indices. lia.
Qed.

Lemma set_flag_true v i j :
  set_flag v i !! j = Some true ↔ v !! j = Some true ∨ j = i.
Proof.
  unfold set_flag. set (v' := if decide (length v ≤ i) then _ else v).
  assert (i < length v') as Hi.
  { unfold v'. case_decide; [rewrite length_app, length_replicate|]; lia. }
  assert (v' !! j = Some true ↔ v !! j = Some true) as Hv.
  { unfold v'. case_decide; [|done]. rewrite lookup_app_Some. split; [|by left].
    intros [?|[_ Hr]]; [done|]. apply lookup_replicate in Hr as [? _]. done. }
  destruct (decide (j = i)) as [->|Hne].
  - rewrite list_lookup_insert_eq by done. naive_solver.
  - rewrite list_lookup_insert_ne by done. rewrite Hv. naive_solver.
Qed.

(** The flag vector lists the masters once, in increasing order. *)
Lemma flags_masters (ks : list KeyValueEntry) :
  Forall (λ kv, (0 ≤ key_master kv)%Z) ks →
  true_indices 0 (foldl (λ v kv, set_flag v (Z.to_nat (key_master kv))) (replicate 8 false) ks) =
  sort_unique (key_master <$> ks).
Proof.
  intros Hpos. apply strongly_sorted_unique_list;
    [apply true_indices_sorted|apply sort_unique_sorted|].
  intros x. rewrite elem_of_sort_unique, elem_of_true_indices.
  assert (∀ v j, foldl (λ v kv, set_flag v (Z.to_nat (key_master kv))) v ks !! j = Some true ↔
    v !! j = Some true ∨ Z.of_nat j ∈ key_master <$> ks) as Hf.
  { clear x. induction Hpos as [|kv ks Hk _ IH]; intros v j; simpl; [set_solver|].
    rewrite IH, set_flag_true, elem_of_cons. split; [|naive_solver lia].
    intros [[?| ->]|?]; [by left|right; left; lia|by right; right]. }
  setoid_rewrite Hf. split.
  - intros (j & [Hr|Hin] & ->); [|done]. apply lookup_replicate in Hr as [? _]. done.
  - intros Hin. apply list_elem_of_fmap in Hin as Hin'. destruct Hin' as (kv & -> & Hkv).
    rewrite Forall_forall in Hpos. specialize (Hpos kv Hkv). exists (Z.to_nat (key_master kv)).
    rewrite Z2Nat.id by done. split; [by right|lia].
Qed.

(** ** Which region locks what *)

Section Coverage.
Context (part : Key → Z) (txn : Transaction).

(** What the sequencer of region [r] puts in the batch of partition [p]. *)
Definition sub_txn (r p : Z) : option Transaction :=
  GeneratePartitionedTxn part (GenerateLockOnlyTxn txn r) p.

Definition part_keys (p : Z) : list KeyValueEntry :=
  filter (λ kv, part (key kv) = p) (keys txn).

(** The locks a transaction needs in partition [p]: each key at its master. *)
Definition part_locks (p : Z) : list (KeyReplica * KeyType) :=
  (λ kv, (MakeKeyReplica (key kv) (key_master kv), key_type kv)) <$> part_keys p.

Context (Hplain : is_remaster txn = false).
Context (Hmulti : txn_type (internal txn) = MULTI_HOME_OR_LOCK_ONLY).
Context (Hmasters : Forall (λ kv, (0 ≤ key_master kv < 2 ^ 31)%Z) (keys txn)).

Lemma i32_id x : (0 ≤ x < 2 ^ 31)%Z → i32 x = x.
Proof. intros. unfold wraps. change (32 - 1)%Z with 31%Z. rewrite Z.mod_small; lia. Qed.

Lemma part_keys_masters p : Forall (λ kv, (0 ≤ key_master kv < 2 ^ 31)%Z) (part_keys p).
Proof.
  rewrite Forall_forall in Hmasters |- *. intros kv [_ Hin]%list_elem_of_filter. auto.
Qed.

Lemma sub_txn_spec r p :
  (0 ≤ r < 2 ^ 31)%Z →
  sub_txn r p =
    if decide (r ∈ key_master <$> part_keys p) then
      Some (set_internal (λ i, set_involved_replicas (sort_unique (key_master <$> part_keys p))
              (set_home r i)) (set_keys (part_keys p) txn))
    else None.
Proof.
  intros Hr. unfold sub_txn.
  assert (GenerateLockOnlyTxn txn r = set_internal (set_home r) txn) as Hlo.
  { unfold GenerateLockOnlyTxn. rewrite i32_id by done. simpl. unfold is_remaster in Hplain.
    by destruct (program txn). }
  rewrite Hlo. unfold GeneratePartitionedTxn. simpl. fold (part_keys p). 
  change (is_remaster (set_internal (set_home r) txn)) with (is_remaster txn). rewrite Hplain.
  pose proof (part_keys_masters p) as Hm. rewrite Forall_forall in Hm.
  rewrite flags_masters by (apply Forall_forall; intros kv Hkv; specialize (Hm kv Hkv); lia).
  simpl. rewrite Hmulti. simpl. case_decide as Hin.
  - apply list_elem_of_fmap in Hin as (kv & -> & Hkv).
    assert (part_keys p ≠ []) as Hne by (intros Hnil; rewrite Hnil in Hkv; set_solver).
    rewrite bool_decide_eq_false_2 by done. simpl.
    destruct (forallb _ _) eqn:E; [|done]. rewrite forallb_forall in E.
    specialize (E kv). rewrite i32_id in E by auto.
    rewrite bool_decide_eq_true in E. destruct E; [by apply list_elem_of_In|done].
  - destruct (forallb _ _) eqn:E; [by rewrite orb_true_r|]. exfalso. apply Hin.
    apply not_true_iff_false in E. rewrite forallb_forall in E.
    destruct (decide (r ∈ key_master <$> part_keys p)) as [|Hn]; [done|]. destruct E.
    intros kv Hkv%list_elem_of_In. apply bool_decide_eq_true_2. rewrite i32_id by auto.
    intros <-. by apply Hn, list_elem_of_fmap_2.
Qed.

Lemma sub_txn_requests r p sub :
  (0 ≤ r < 2 ^ 31)%Z → sub_txn r p = Some sub →
  RMALock.requests sub =
  (λ kv, (MakeKeyReplica (key kv) (key_master kv), key_type kv)) <$>
    filter (λ kv, key_master kv = r) (part_keys p).
Proof.
  intros Hr. rewrite sub_txn_spec by done. case_decide; [|done]. intros [= <-].
  unfold RMALock.requests. simpl.
  assert (filter (λ kv, RMALock.skip_key (set_internal (λ i, set_involved_replicas
      (sort_unique (key_master <$> part_keys p)) (set_home r i)) (set_keys (part_keys p) txn)) kv = false)
      (part_keys p) = filter (λ kv, key_master kv = r) (part_keys p)) as ->.
  { apply filter_ext_in. intros kv Hkv. unfold RMALock.skip_key.
    change (is_remaster _) with (is_remaster txn). rewrite Hplain. simpl.
    pose proof (part_keys_masters p) as Hm. rewrite Forall_forall in Hm.
    rewrite i32_id by auto. rewrite bool_decide_eq_false. split; [|naive_solver].
    intros Hn. by destruct (decide (key_master kv = r)). }
  apply list_fmap_ext. intros i kv Hi. apply list_elem_of_lookup_2, list_elem_of_filter in Hi as [-> _].
  done.
Qed.

Lemma omap_requests p rs :
  Forall (λ r, (0 ≤ r < 2 ^ 31)%Z) rs →
  concat (RMALock.requests <$> omap (λ r, sub_txn r p) rs) =
  (λ kv, (MakeKeyReplica (key kv) (key_master kv), key_type kv)) <$>
    concat ((λ r, filter (λ kv, key_master kv = r) (part_keys p)) <$> rs).
Proof.
  induction 1 as [|r rs Hr _ IH]; [done|]. rewrite (fmap_cons _ r rs). cbn [concat].
  rewrite fmap_app, <-IH. cbn [omap list_omap].
  destruct (sub_txn r p) as [sub|] eqn:E; rewrite ?fmap_cons; cbn [concat].
  - by rewrite (sub_txn_requests r p sub).
  - rewrite sub_txn_spec in E by done. case_decide as Hin; [done|].
    rewrite filter_none; [done|]. intros kv Hkv <-. by apply Hin, list_elem_of_fmap_2.
Qed.

Lemma omap_count p rs :
  Forall (λ r, (0 ≤ r < 2 ^ 31)%Z) rs →
  length (omap (λ r, sub_txn r p) rs) = length (filter (λ r, r ∈ key_master <$> part_keys p) rs).
Proof.
  induction 1 as [|r rs Hr _ IH]; [done|]. cbn [omap list_omap].
  rewrite filter_cons, sub_txn_spec by done.
  destruct (decide (r ∈ key_master <$> part_keys p)); simpl; by rewrite IH.
Qed.

End Coverage.

(** ** Properties *)

(** C35. The sub-transactions that the regions, listed once each, generate for one partition
    of a multi-home transaction that is no remaster, and whose keys have their masters among
    these regions, together ask for every lock of that partition exactly
    once, each key at its master region; they are as many as the replica list that
    each of them carries, and each announces the total number of locks. For a remaster
    transaction this fails: see [remaster_replicas_incomplete]. *)
Theorem lock_only_coverage (part : Key → Z) (txn : Transaction) (regions : list Z) (p : Z) :
  is_remaster txn = false →
  txn_type (internal txn) = MULTI_HOME_OR_LOCK_ONLY →
  Forall (λ kv, (0 ≤ key_master kv < 2 ^ 31)%Z ∧ key_master kv ∈ regions) (keys txn) →
  NoDup regions → Forall (λ r, (0 ≤ r < 2 ^ 31)%Z) regions →
  let subs := omap (λ r, sub_txn part txn r p) regions in
  concat (RMALock.requests <$> subs) ≡ₚ part_locks part txn p ∧
  Forall (λ sub, length (involved_replicas (internal sub)) = length subs ∧
    RMALock.num_required_locks sub = Z.of_nat (length (part_locks part txn p))) subs.
Proof.
  intros Hplain Hmulti Hks Hnd Hrs subs.
  assert (Forall (λ kv, (0 ≤ key_master kv < 2 ^ 31)%Z) (keys txn)) as Hm
    by (eapply Forall_impl; [exact Hks|]; naive_solver).
  assert (∀ kv, kv ∈ part_keys part txn p → key_master kv ∈ regions) as Hin.
  { rewrite Forall_forall in Hks. intros kv [_ Hkv]%list_elem_of_filter. by apply Hks. }
  split.
  - unfold subs, part_locks. rewrite omap_requests by done. f_equiv. by apply group_concat.
  - apply Forall_forall. intros sub Hsub. apply list_elem_of_omap in Hsub as (r & Hr & Hsub).
    rewrite Forall_forall in Hrs. pose proof (Hrs r Hr) as Hrb.
    rewrite sub_txn_spec in Hsub by done. case_decide; [|done]. injection Hsub as <-. simpl.
    split.
    + unfold subs. rewrite omap_count by (done || by apply Forall_forall).
      apply Permutation_length, NoDup_Permutation; [apply sort_unique_NoDup|by apply NoDup_filter|].
      intros x. rewrite elem_of_sort_unique, list_elem_of_filter. split; [|naive_solver].
      intros Hx. split; [done|]. apply list_elem_of_fmap in Hx as (kv & -> & Hkv). auto.
    + unfold RMALock.num_required_locks. change (is_remaster _) with (is_remaster txn).
      rewrite Hplain. unfold keys_size, part_locks. by rewrite length_fmap.
Qed.

Definition example_multi_home : Transaction :=
  make_txn 100 MULTI_HOME_OR_LOCK_ONLY (-1) PROGRAM_NOT_SET
    [make_entry "A" WRITE 0 0; make_entry "B" READ 1 0; make_entry "C" WRITE 1 0].

Lemma lock_only_coverage_witness :
  let subs := omap (λ r, sub_txn (λ _, 0%Z) example_multi_home r 0) [0; 1; 2]%Z in
  concat (RMALock.requests <$> subs) ≡ₚ part_locks (λ _, 0%Z) example_multi_home 0 ∧
  Forall (λ sub, length (involved_replicas (internal sub)) = length subs ∧
    RMALock.num_required_locks sub =
      Z.of_nat (length (part_locks (λ _, 0%Z) example_multi_home 0))) subs.
Proof.
  apply (lock_only_coverage (λ _, 0%Z) example_multi_home [0; 1; 2]%Z 0).
  - reflexivity.
  - reflexivity.
  - apply (bool_decide_eq_true_1 _). vm_compute. reflexivity.
  - apply (bool_decide_eq_true_1 _). vm_compute. reflexivity.
  - apply (bool_decide_eq_true_1 _). vm_compute. reflexivity.
Defined.

(** For a remaster transaction the count is off: the old and the new master
    region each generate a sub-transaction, but each of them carries only the old
    master in its replica list, because that list is rebuilt from the keys. *)
Theorem remaster_replicas_incomplete (k : Key) (old new : Z) :
  (0 ≤ old < 2 ^ 31)%Z → (0 ≤ new < 2 ^ 31)%Z → old ≠ new →
  let txn := set_internal (set_involved_replicas (sort_unique [old; new]))
    (make_txn 100 MULTI_HOME_OR_LOCK_ONLY (-1) (kRemaster new false) [make_entry k WRITE old 0]) in
  let subs := omap (λ r, sub_txn (λ _, 0%Z) txn r 0) [old; new] in
  length subs = 2 ∧ Forall (λ sub, involved_replicas (internal sub) = [old]) subs.
Proof.
  intros Hold Hnew Hne txn subs.
  assert (∀ r, ∃ sub, sub_txn (λ _, 0%Z) txn r 0 = Some sub ∧
    involved_replicas (internal sub) = [old]) as Hsub.
  { intros r. unfold sub_txn, GenerateLockOnlyTxn, GeneratePartitionedTxn. simpl.
    assert (true_indices 0 (set_flag (replicate 8 false) (Z.to_nat old)) = [old]) as Hfl.
    { pose proof (flags_masters [make_entry k WRITE old 0]) as Hf. cbn in Hf. apply Hf.
      repeat constructor. cbn. lia. }
    destruct (decide (new = r)); simpl; eexists; (split; [reflexivity|]); simpl; exact Hfl. }
  unfold subs. cbn [omap list_omap].
  destruct (Hsub old) as (s1 & -> & H1). destruct (Hsub new) as (s2 & -> & H2).
  split; [done|]. by repeat constructor.
Qed.

Lemma remaster_replicas_incomplete_witness :
  let txn := set_internal (set_involved_replicas (sort_unique [0; 1]%Z))
    (make_txn 100 MULTI_HOME_OR_LOCK_ONLY (-1) (kRemaster 1 false) [make_entry "A" WRITE 0 0]) in
  let subs := omap (λ r, sub_txn (λ _, 0%Z) txn r 0) [0; 1]%Z in
  length subs = 2 ∧ Forall (λ sub, involved_replicas (internal sub) = [0%Z]) subs.
Proof. apply (remaster_replicas_incomplete "A" 0 1); lia. Defined.

Lemma set_transaction_type_aux (txn : Transaction) :
  let '(txn', ty) := SetTransactionType txn in
  txn_type (internal txn') = ty ∧ keys txn' = keys txn ∧
  (ty = UNKNOWN ↔ keys txn = [] ∨ Exists (λ kv, has_metadata (value_entry kv) = false) (keys txn)) ∧
  (ty = SINGLE_HOME ↔ keys txn ≠ [] ∧ Forall (λ kv, has_metadata (value_entry kv) = true) (keys txn) ∧
     is_remaster txn = false ∧ ∃ h, Forall (λ kv, key_master kv = h) (keys txn)) ∧
  (ty = SINGLE_HOME →
     Z.of_nat (length (RMALock.requests txn')) = RMALock.num_required_locks txn').
Proof.
  assert (∀ l, forallb (λ kv, has_metadata (value_entry kv)) l = true ↔
    Forall (λ kv, has_metadata (value_entry kv) = true) l) as Hmd.
  { intros l. rewrite forallb_forall, Forall_forall. by setoid_rewrite list_elem_of_In. }
  assert (∀ l, forallb (λ kv, has_metadata (value_entry kv)) l = false ↔
    Exists (λ kv, has_metadata (value_entry kv) = false) l) as Hmd'.
  { intros l. induction l as [|kv l IH]; simpl; [split; [done|by intros ?%Exists_nil]|].
    rewrite andb_false_iff, IH, Exists_cons. done. }
  unfold SetTransactionType. destruct (keys txn) as [|kv ks] eqn:Hk.
  { simpl. split_and!; try done; split; naive_solver. }
  destruct (forallb (λ kv, has_metadata (value_entry kv)) (kv :: ks)) eqn:Ec.
  2:{ rewrite andb_false_r. split_and!; try done.
      - split; [|done]. intros _. right. by apply Hmd'.
      - split; [done|]. intros (_ & Hall & _). apply Hmd in Hall. congruence. }
  rewrite bool_decide_eq_true_2 by done. cbn [andb]. pose proof (proj1 (Hmd _) Ec) as Hall.
  assert (¬ Exists (λ kv, has_metadata (value_entry kv) = false) (kv :: ks)) as Hnex.
  { intros [x [Hx Hf]]%Exists_exists. rewrite Forall_forall in Hall.
    apply Hall in Hx. congruence. }
  destruct (is_remaster txn) eqn:Er.
  { simpl. split_and!; try done; naive_solver. }
  destruct (forallb (λ kv0, bool_decide (key_master kv0 = key_master kv)) (kv :: ks)) eqn:Es.
  - rewrite forallb_forall in Es. setoid_rewrite bool_decide_eq_true in Es.
    simpl. split_and!; try done; [naive_solver| |].
    + split; [|done]. intros _. split_and!; try done. exists (key_master kv).
      apply Forall_forall. intros x Hx%list_elem_of_In. auto.
    + intros _. unfold RMALock.requests, RMALock.num_required_locks. rewrite length_fmap.
      change (is_remaster _) with (is_remaster txn). rewrite Er. unfold keys_size. simpl.
      rewrite Hk. rewrite filter_all; [done|]. intros x Hx%list_elem_of_In. unfold RMALock.skip_key.
      change (is_remaster _) with (is_remaster txn). rewrite Er. simpl.
      rewrite (Es x Hx). apply bool_decide_eq_false_2. by intros Hn.
  - simpl. split_and!; try done; [naive_solver|]. split; [done|].
    intros (_ & _ & _ & h & Hh). rewrite Forall_forall in Hh.
    apply not_true_iff_false in Es. destruct Es. apply forallb_forall.
    intros x Hx%list_elem_of_In. apply bool_decide_eq_true_2.
    rewrite (Hh x Hx), (Hh kv); [done|left].
Qed.

(** A transaction is classified as unknown exactly when it has no key or lacks
    the master of a key, as single-home exactly when all masters are known and
    equal and it does not remaster, and as multi-home otherwise. A single-home
    transaction gets that master as its home, so it asks for all of its locks. *)
Theorem set_transaction_type_spec (txn : Transaction) :
  let '(txn', ty) := SetTransactionType txn in
  txn_type (internal txn') = ty ∧ keys txn' = keys txn ∧
  (ty = UNKNOWN ↔ keys txn = [] ∨ Exists (λ kv, has_metadata (value_entry kv) = false) (keys txn)) ∧
  (ty = SINGLE_HOME ↔ keys txn ≠ [] ∧ Forall (λ kv, has_metadata (value_entry kv) = true) (keys txn) ∧
     is_remaster txn = false ∧ ∃ h, Forall (λ kv, key_master kv = h) (keys txn)) ∧
  (ty = SINGLE_HOME →
     Z.of_nat (length (RMALock.requests txn')) = RMALock.num_required_locks txn').
Proof. apply set_transaction_type_aux. Qed.

(** Merging partial results: an abort of either part makes the result aborted;
    otherwise the result has the keys of the first part followed by those keys of
    the second that the first does not have. Parts of different transactions are
    refused. *)
Theorem merge_transaction_spec (txn other : Transaction) :
  match MergeTransaction txn other with
  | Err f => txn_id txn ≠ txn_id other ∨ txn_type (internal txn) ≠ txn_type (internal other)
  | Ok merged =>
    txn_id merged = txn_id txn ∧ txn_id txn = txn_id other ∧
    (status merged = ABORTED ↔ status txn = ABORTED ∨ status other = ABORTED) ∧
    (status merged ≠ ABORTED →
       (∀ k, k ∈ key <$> keys merged ↔ k ∈ key <$> keys txn ∨ k ∈ key <$> keys other) ∧
       ∀ i kv, keys txn !! i = Some kv → keys merged !! i = Some kv) ∧
    StronglySorted (<)%Z (involved_replicas (internal merged))
  end.
Proof.
  unfold MergeTransaction. case_decide as Hid; [by left|]. case_decide as Hty; [by right|].
  split_and!.
  - unfold txn_id. simpl. repeat case_decide; done.
  - done.
  - simpl. repeat case_decide; simpl; naive_solver.
  - simpl. repeat case_decide; simpl; [done| |naive_solver]. intros _. split.
    + intros k. rewrite fmap_app, elem_of_app. split; [|intros [?|Hin]; [by left|]].
      * intros [?|Hin]; [by left|right]. apply list_elem_of_fmap in Hin as (kv & -> & Hin).
        apply list_elem_of_filter in Hin as [_ Hin]. by apply list_elem_of_fmap_2.
      * destruct (decide (k ∈ key <$> keys txn)) as [|Hn]; [by left|right].
        apply list_elem_of_fmap in Hin as (kv & -> & Hin).
        apply list_elem_of_fmap_2. by apply list_elem_of_filter.
    + intros i kv Hi. by apply lookup_app_l_Some.
  - simpl. repeat case_decide; simpl; apply sort_unique_sorted.
Qed.

(** A transaction made without metadata has the keys and the code it was given, and its homes
    are unknown. *)
Lemma MakeTransaction_unknown kms code server :
  Forall (λ km, km_metadata km = None) kms →
  ∃ t, MakeTransaction kms code None server = Ok t ∧
    keys t = (λ km, {| key := km_key km; value_entry := {| value := EmptyString; new_value := EmptyString;
                       type := km_type km; opt_metadata := None |} |}) <$> kms ∧
    program t = match code with [] => PROGRAM_NOT_SET | _ => kCode code end ∧ txn_type (internal t) = UNKNOWN.
Proof.
  intros Hn. unfold MakeTransaction, SetTransactionType. cbn [keys].
  destruct kms as [|km kms]; [by eexists|]. rewrite fmap_cons. inversion Hn as [|?? Hkm Hkms]; subst. cbn [forallb].
  unfold has_metadata at 1. cbn [value_entry opt_metadata]. rewrite Hkm. cbn [fmap option_fmap option_map is_Some].
  rewrite andb_false_r. eexists. split; [reflexivity|]. split_and!; try done. simpl. f_equal.
  apply list_fmap_ext. intros i x Hx. rewrite Forall_forall in Hkms. rewrite (Hkms x); [done|]. by eapply list_elem_of_lookup_2.
Qed.
