(* ===== verification/Stats.v ===== *)
(** * Batch statistics

    [Percentiles] of [common/json_utils.h] and the collection of batch sizes that the
    sequencer, the forwarder and the multi-home orderer share. The JSON values are lists;
    durations, which are read from a clock, are left out. *)
From S2P Require Import Prelude.

Definition kPctlLevels : list Z := [0; 10; 20; 30; 40; 50; 60; 70; 80; 90; 100]%Z.

Definition pctl_index (n : nat) (p : Z) : nat := Z.to_nat (u64 (p * (Z.of_nat n - 1)) `div` 100).

(** The container stays sorted. Reading past its end has no meaning. *)
Definition Percentiles (container : list Z) : result (list Z) :=
  if decide (container = []) then Ok []
  else
    let sorted := merge_sort (≤)%Z container in
    rfoldl (λ pctls p,
      match sorted !! pctl_index (length sorted) p with
      | Some x => Ok (pctls ++ [x])
      | None => Err (Undef "container[i]")
      end) [] kPctlLevels.

Record batch_stats := { collecting_stats_ : bool; stat_batch_sizes_ : list Z }.

Definition no_stats : batch_stats := {| collecting_stats_ := false; stat_batch_sizes_ := [] |}.

Definition count_batch (n : Z) (s : batch_stats) : batch_stats :=
  if collecting_stats_ s
  then {| collecting_stats_ := true; stat_batch_sizes_ := stat_batch_sizes_ s ++ [n] |} else s.

(** The level of a request turns the collection off or on; the reply holds the
    percentiles, and the sizes start over. *)
Definition ProcessStatsRequest (level : Z) (s : batch_stats) : result (batch_stats * list Z) :=
  let collecting := if decide (level = 0%Z) then false
                    else if decide (0 < level)%Z then true else collecting_stats_ s in
  pctls ← Percentiles (stat_batch_sizes_ s);
  Ok ({| collecting_stats_ := collecting; stat_batch_sizes_ := [] |}, pctls).

Lemma pctl_index_bound n p :
  (0 ≤ p ≤ 100)%Z → 0 < n → (Z.of_nat n * 100 < 2 ^ 64)%Z → pctl_index n p < n.
Proof.
  intros Hp Hn Hb. unfold pctl_index, wrapu. rewrite Z.mod_small by nia.
  assert ((p * (Z.of_nat n - 1)) `div` 100 ≤ Z.of_nat n - 1)%Z.
  { apply Z.div_le_upper_bound; nia. }
  assert (0 ≤ (p * (Z.of_nat n - 1)) `div` 100)%Z by (apply Z.div_pos; nia). lia.
Qed.

(** The percentiles of a non-empty container exist and are the elements of the sorted
    container at the eleven levels, from the smallest to the largest. *)
Lemma Percentiles_spec l :
  l ≠ [] → (Z.of_nat (length l) * 100 < 2 ^ 64)%Z →
  ∃ r, Percentiles l = Ok r ∧ length r = 11 ∧
    ∀ i p, kPctlLevels !! i = Some p → r !! i = merge_sort (≤)%Z l !! pctl_index (length l) p.
Proof.
  intros Hne Hb. unfold Percentiles. rewrite decide_False by done.
  assert (Hlen : length (merge_sort (≤)%Z l) = length l) by apply Permutation_length, merge_sort_Permutation.
  rewrite Hlen. assert (Hpos : 0 < length l) by (destruct l; [done|simpl; lia]).
  assert (Hgo : ∀ ps acc, Forall (λ p, 0 ≤ p ≤ 100)%Z ps → ∃ xs,
    rfoldl (λ pctls p, match merge_sort (≤)%Z l !! pctl_index (length l) p with
      | Some x => Ok (pctls ++ [x]) | None => Err (Undef "container[i]") end) acc ps = Ok (acc ++ xs) ∧
    length xs = length ps ∧
    ∀ i p, ps !! i = Some p → xs !! i = merge_sort (≤)%Z l !! pctl_index (length l) p).
  { induction ps as [|p ps IH]; intros acc Hps; [by exists []; rewrite app_nil_r|].
    apply Forall_cons in Hps as [Hp Hps]. cbn [rfoldl].
    destruct (lookup_lt_is_Some_2 (merge_sort (≤)%Z l) (pctl_index (length l) p)) as [x Hx].
    { rewrite Hlen. by apply pctl_index_bound. }
    rewrite Hx. cbn [mbind result_bind]. destruct (IH (acc ++ [x]) Hps) as (xs & -> & Hl & Hi).
    exists (x :: xs). rewrite <-app_assoc. split; [done|]. split; [by simpl; f_equal|].
    intros [|i] q Hq; simpl in *; [by simplify_eq|by apply Hi]. }
  destruct (Hgo kPctlLevels []) as (xs & Hr & Hl & Hi); [repeat constructor; lia|].
  exists xs. by rewrite Hr.
Qed.
