(* ===== verification/HashMap.v ===== *)
(** * The concurrent hash map

    [data_structure/concurrent_hash_map.h]. Every operation of a segment runs under
    the segment's latch (see [RWLatch]), so the operations are modelled as atomic
    functions of the segment. A bucket is the list of its nodes from the root. The
    hash function is a parameter, as it is one of the template. *)
From S2P Require Import Prelude.

Section HashMap.
Context {K V : Type} `{Countable K} (hash : K → Z) (ShardBits : Z).

Abbreviation node := (K * V)%type (only parsing).

Record Segment := {
  count : Z;
  bucket_roots : list (list (K * V));
  load_factor_max_size_ : Z;
  size_ : Z
}.

(** [static_cast<size_t>(1.05f * count)]. The [float] nearest to 1.05 is
    8808038 / 2^23, and its product with a power of two is exact. *)
Definition load_limit (n : Z) : Z := (8808038 * n `div` 2 ^ 23)%Z.

Definition CreateBuckets (n : Z) : list (list (K * V)) := replicate (Z.to_nat n) [].

Definition new_segment : Segment :=
  {| count := 8; bucket_roots := CreateBuckets 8; load_factor_max_size_ := load_limit 8; size_ := 0 |}.

Definition GetIndex (nbuckets h : Z) : Z := Z.land (Z.shiftr h ShardBits) (nbuckets - 1).

Definition bucket (s : Segment) (k : K) : list (K * V) :=
  default [] (bucket_roots s !! Z.to_nat (GetIndex (count s) (hash k))).

(** The walk along a bucket. *)
Fixpoint find_node (k : K) (b : list (K * V)) : option V :=
  match b with
  | [] => None
  | (k', v) :: b => if decide (k = k') then Some v else find_node k b
  end.

Definition seg_Get (s : Segment) (k : K) : option V := find_node k (bucket s k).

Fixpoint replace_node (k : K) (v : V) (b : list (K * V)) : list (K * V) :=
  match b with
  | [] => []
  | (k', v') :: b => if decide (k = k') then (k, v) :: b else (k', v') :: replace_node k v b
  end.

Fixpoint erase_node (k : K) (b : list (K * V)) : list (K * V) :=
  match b with
  | [] => []
  | (k', v') :: b => if decide (k = k') then b else (k', v') :: erase_node k b
  end.

(** One node moved to the front of its new bucket. *)
Definition move_node (n : Z) (bs : list (list (K * V))) (nd : K * V) : list (list (K * V)) :=
  alter (cons nd) (Z.to_nat (GetIndex n (hash nd.1))) bs.

Definition Rehash (s : Segment) : Segment :=
  let n := Z.shiftl (count s) 1 in
  {| count := n;
     bucket_roots := foldl (foldl (move_node n)) (CreateBuckets n) (bucket_roots s);
     load_factor_max_size_ := load_limit n;
     size_ := size_ s |}.

Definition set_bucket (s : Segment) (k : K) (b : list (K * V)) (size : Z) : Segment :=
  {| count := count s;
     bucket_roots := <[Z.to_nat (GetIndex (count s) (hash k)) := b]> (bucket_roots s);
     load_factor_max_size_ := load_factor_max_size_ s; size_ := size |}.

Definition seg_InsertOrUpdate (s : Segment) (k : K) (v : V) : Segment * bool :=
  let b := bucket s k in
  let '(s, key_exists) :=
    match find_node k b with
    | Some _ => (set_bucket s k (replace_node k v b) (size_ s), true)
    | None => (set_bucket s k ((k, v) :: b) (size_ s + 1), false)
    end in
  (if decide (load_factor_max_size_ s ≤ size_ s)%Z then Rehash s else s, key_exists).

Definition seg_Erase (s : Segment) (k : K) : Segment * bool :=
  let b := bucket s k in
  match find_node k b with
  | Some _ => (set_bucket s k (erase_node k b) (size_ s), true)
  | None => (s, false)
  end.

(** ** The map of segments

    [EnsureSegment] creates a segment on first use; a segment that another thread
    installed first is used instead, so a missing one behaves like a new one. *)
Record ConcurrentHashMap := { segments_ : gmap Z Segment }.

Definition PickSegment (k : K) : Z := Z.land (hash k) (Z.shiftl 1 ShardBits - 1).

Definition EnsureSegment (m : ConcurrentHashMap) (idx : Z) : Segment :=
  default new_segment (segments_ m !! idx).

Definition Get (m : ConcurrentHashMap) (k : K) : option V :=
  seg_Get (EnsureSegment m (PickSegment k)) k.

Definition InsertOrUpdate (m : ConcurrentHashMap) (k : K) (v : V) : ConcurrentHashMap * bool :=
  let idx := PickSegment k in
  let '(s, b) := seg_InsertOrUpdate (EnsureSegment m idx) k v in
  ({| segments_ := <[idx := s]> (segments_ m) |}, b).

Definition Erase (m : ConcurrentHashMap) (k : K) : ConcurrentHashMap * bool :=
  let idx := PickSegment k in
  let '(s, b) := seg_Erase (EnsureSegment m idx) k in
  ({| segments_ := <[idx := s]> (segments_ m) |}, b).

Definition empty_hash_map : ConcurrentHashMap := {| segments_ := ∅ |}.

(** ** Buckets *)

Implicit Types (k : K) (v : V) (b : list (K * V)) (s : Segment) (m : gmap K V).

Lemma find_node_Some k v b : NoDup b.*1 → find_node k b = Some v ↔ (k, v) ∈ b.
Proof.
  induction b as [|[k' v'] b IH]; simpl; [set_solver|]. intros [Hn Hnd]%NoDup_cons.
  rewrite elem_of_cons. case_decide as Hk; [subst k'|].
  - split; [intros [= ->]; by left|]. intros [[= ->]|Hin]; [done|].
    destruct Hn. by apply (list_elem_of_fmap_2 fst) in Hin.
  - rewrite IH by done. naive_solver.
Qed.

Lemma find_node_None k b : find_node k b = None ↔ k ∉ b.*1.
Proof.
  induction b as [|[k' v'] b IH]; simpl; [set_solver|].
  case_decide as Hk; [subst; set_solver|]. rewrite IH, not_elem_of_cons. naive_solver.
Qed.

Lemma replace_node_fst k v b : (replace_node k v b).*1 = b.*1.
Proof.
  induction b as [|[k' v'] b IH]; simpl; [done|]. case_decide; simpl; [by subst|f_equal; exact IH].
Qed.

Lemma find_replace k k' v b :
  find_node k' (replace_node k v b) =
  if decide (k' = k) then (if find_node k b is Some _ then Some v else None) else find_node k' b.
Proof.
  induction b as [|[k1 v1] b IH]; simpl; [by case_decide|].
  destruct (decide (k = k1)) as [->|Hk]; simpl.
  - destruct (decide (k' = k1)); done.
  - destruct (decide (k' = k1)) as [->|]; [by rewrite decide_False by done|]. rewrite IH. done.
Qed.

Lemma erase_node_sublist k b : erase_node k b `sublist_of` b.
Proof.
  induction b as [|[k' v'] b IH]; simpl; [done|]. case_decide.
  - by apply sublist_cons.
  - by apply sublist_skip.
Qed.

Lemma find_erase k k' b :
  NoDup b.*1 → find_node k' (erase_node k b) = if decide (k' = k) then None else find_node k' b.
Proof.
  induction b as [|[k1 v1] b IH]; simpl; [by case_decide|]. intros [Hn Hnd]%NoDup_cons.
  destruct (decide (k = k1)) as [->|Hk]; simpl.
  - destruct (decide (k' = k1)) as [->|]; [by apply find_node_None|done].
  - destruct (decide (k' = k1)) as [->|]; [by rewrite decide_False by done|]. by apply IH.
Qed.

(** ** Segments *)

Definition index (n : Z) k : nat := Z.to_nat (GetIndex n (hash k)).

Record seg_ok s : Prop := {
  so_count : ∃ e, (0 ≤ e)%Z ∧ count s = (2 ^ e)%Z;
  so_length : length (bucket_roots s) = Z.to_nat (count s);
  so_nodup i b : bucket_roots s !! i = Some b → NoDup b.*1;
  so_index i b k v : bucket_roots s !! i = Some b → (k, v) ∈ b → index (count s) k = i
}.

(** A segment holds the map [m]. *)
Definition seg_rel s m : Prop := seg_ok s ∧ ∀ k, seg_Get s k = m !! k.

Lemma index_bound n k : (∃ e, (0 ≤ e)%Z ∧ n = (2 ^ e)%Z) → index n k < Z.to_nat n.
Proof.
  intros (e & He & ->). unfold index, GetIndex.
  replace (2 ^ e - 1)%Z with (Z.ones e) by (rewrite Z.ones_equiv; lia).
  rewrite Z.land_ones by done.
  pose proof (Z.mod_pos_bound (Z.shiftr (hash k) ShardBits) (2 ^ e)). lia.
Qed.

Lemma bucket_lookup s k :
  seg_ok s → bucket_roots s !! index (count s) k = Some (bucket s k).
Proof.
  intros Hok. unfold bucket. fold (index (count s) k).
  destruct (lookup_lt_is_Some_2 (bucket_roots s) (index (count s) k)) as [b Hb].
  - rewrite (so_length _ Hok). apply index_bound, Hok.
  - by rewrite Hb.
Qed.

Lemma set_bucket_ok s k b n :
  seg_ok s → NoDup b.*1 → (∀ k' v', (k', v') ∈ b → index (count s) k' = index (count s) k) →
  seg_ok (set_bucket s k b n) ∧
  ∀ k', seg_Get (set_bucket s k b n) k' =
    if decide (index (count s) k' = index (count s) k) then find_node k' b else seg_Get s k'.
Proof.
  intros Hok Hnd Hidx. pose proof (index_bound (count s) k (so_count _ Hok)) as Hb.
  rewrite <-(so_length _ Hok) in Hb. split.
  - split; simpl; [apply Hok|by rewrite length_insert; apply Hok|..].
    + intros i b'. rewrite list_lookup_insert_Some. intros [(_ & <- & _)|[_ Hi]]; [done|].
      by eapply so_nodup.
    + intros i b' k' v'. rewrite list_lookup_insert_Some.
      intros [(<- & <- & _)|[_ Hi]]; [by apply Hidx|by eapply so_index].
  - intros k'. unfold seg_Get, bucket. simpl. fold (index (count s) k') (index (count s) k).
    destruct (decide (index (count s) k' = index (count s) k)) as [->|Hne].
    + by rewrite list_lookup_insert_eq.
    + by rewrite list_lookup_insert_ne.
Qed.

Lemma bucket_same s k k' :
  index (count s) k' = index (count s) k → bucket s k' = bucket s k.
Proof. unfold bucket. fold (index (count s) k') (index (count s) k). by intros ->. Qed.

Lemma foldl_foldl {A B} (f : B → A → B) (a : B) (ls : list (list A)) :
  foldl (foldl f) a ls = foldl f a (concat ls).
Proof. revert a. induction ls as [|l ls IH]; intros a; simpl; [done|]. by rewrite IH, foldl_app. Qed.

Lemma move_nodes n l bs i :
  foldl (move_node n) bs l !! i =
  (λ b, reverse (filter (λ nd, index n nd.1 = i) l) ++ b) <$> bs !! i.
Proof.
  revert bs. induction l as [|nd l IH]; intros bs; simpl.
  { by destruct (bs !! i). }
  rewrite IH. unfold move_node. fold (index n nd.1). rewrite filter_cons. case_decide as Hi.
  - subst i. rewrite list_lookup_alter_eq, reverse_cons, <-option_fmap_compose.
    apply option_fmap_ext. intros b. simpl. by rewrite <-app_assoc.
  - by rewrite list_lookup_alter_ne.
Qed.

Lemma move_nodes_length n l bs : length (foldl (move_node n) bs l) = length bs.
Proof.
  revert bs. induction l as [|nd l IH]; intros bs; simpl; [done|].
  rewrite IH. unfold move_node. by rewrite length_alter.
Qed.

Lemma concat_NoDup (f : K → nat) (bs : list (list (K * V))) i0 :
  (∀ i b, bs !! i = Some b → NoDup b.*1 ∧ ∀ k v, (k, v) ∈ b → f k = i0 + i) →
  NoDup (concat bs).*1.
Proof.
  revert i0. induction bs as [|b bs IH]; intros i0 Hbs; simpl; [constructor|].
  rewrite fmap_app. apply NoDup_app. split_and!.
  - by apply (Hbs 0 b).
  - intros k (nd & -> & Hnd)%list_elem_of_fmap (nd' & Heq & Hnd')%list_elem_of_fmap.
    apply list_elem_of_In, in_concat in Hnd' as (b' & Hb' & Hin).
    apply list_elem_of_In, list_elem_of_lookup in Hb' as [i Hi].
    apply list_elem_of_In in Hin. destruct nd as [k1 v1], nd' as [k2 v2]; simplify_eq/=.
    destruct (Hbs 0 b eq_refl) as [_ H0]. destruct (Hbs (S i) b' Hi) as [_ H1].
    pose proof (H0 _ _ Hnd). pose proof (H1 _ _ Hin). lia.
  - apply (IH (S i0)). intros i b' Hi. destruct (Hbs (S i) b' Hi) as [? Hx]. split; [done|].
    intros k v Hkv. rewrite (Hx k v Hkv). lia.
Qed.

Lemma rehash_ok s : seg_ok s → seg_ok (Rehash s) ∧ ∀ k, seg_Get (Rehash s) k = seg_Get s k.
Proof.
  intros Hok. set (n := Z.shiftl (count s) 1). set (nodes := concat (bucket_roots s)).
  assert (∃ e, (0 ≤ e)%Z ∧ n = (2 ^ e)%Z) as Hn.
  { destruct (so_count _ Hok) as (e & He & Hc). exists (e + 1)%Z. split; [lia|].
    unfold n. rewrite Z.shiftl_mul_pow2, Hc by lia. rewrite Z.pow_add_r by lia. lia. }
  assert (NoDup nodes.*1) as Hnd.
  { apply (concat_NoDup (index (count s)) _ 0). intros i b Hi. split; [by eapply so_nodup|].
    intros k v Hkv. by eapply so_index. }
  assert (∀ i, bucket_roots (Rehash s) !! i =
    if decide (i < Z.to_nat n) then Some (reverse (filter (λ nd, index n nd.1 = i) nodes)) else None) as Hroots.
  { intros i. unfold Rehash; simpl. fold n. rewrite foldl_foldl. fold nodes. rewrite move_nodes.
    unfold CreateBuckets. case_decide as Hi.
    - rewrite lookup_replicate_2 by done. simpl. by rewrite app_nil_r.
    - by rewrite lookup_ge_None_2 by (rewrite length_replicate; lia). }
  assert (∀ i, NoDup (reverse (filter (λ nd, index n nd.1 = i) nodes)).*1) as Hndi.
  { intros i. rewrite reverse_Permutation. eapply sublist_NoDup; [exact Hnd|].
    apply fmap_sublist, sublist_filter. }
  assert (seg_ok (Rehash s)) as Hok'.
  { split.
    - exact Hn.
    - unfold Rehash; simpl. rewrite foldl_foldl, move_nodes_length. apply length_replicate.
    - intros i b. rewrite Hroots. case_decide; [|done]. intros [= <-]. apply Hndi.
    - intros i b k v. rewrite Hroots. case_decide; [|done]. intros [= <-].
      rewrite elem_of_reverse, list_elem_of_filter. by intros [? _]. }
  split; [done|]. intros k. apply option_eq. intros v. unfold seg_Get.
  rewrite !find_node_Some; [|eapply so_nodup, bucket_lookup; done..].
  pose proof (bucket_lookup (Rehash s) k Hok') as Hb. rewrite Hroots in Hb.
  case_decide; [|done]. injection Hb as <-. rewrite elem_of_reverse, list_elem_of_filter. simpl.
  change (count (Rehash s)) with n. unfold nodes. rewrite list_elem_of_In, in_concat. split.
  - intros [_ (b & Hb & Hin)]. apply list_elem_of_In in Hin.
    apply list_elem_of_In, list_elem_of_lookup in Hb as [i Hi].
    pose proof (so_index _ Hok _ _ _ _ Hi Hin) as Hx. subst i.
    rewrite (bucket_lookup s k Hok) in Hi. by injection Hi as <-.
  - intros Hin. split; [done|]. exists (bucket s k). split; [|by apply list_elem_of_In].
    apply list_elem_of_In. eapply list_elem_of_lookup_2, bucket_lookup; done.
Qed.

Lemma seg_insert_ok s m k v :
  seg_rel s m →
  seg_rel (seg_InsertOrUpdate s k v).1 (<[k := v]> m) ∧
  (seg_InsertOrUpdate s k v).2 = bool_decide (is_Some (m !! k)).
Proof.
  intros [Hok Hget]. unfold seg_InsertOrUpdate. pose proof (Hget k) as Hk. unfold seg_Get in Hk.
  pose proof (bucket_lookup s k Hok) as Hbk.
  assert (∀ s1, seg_rel s1 (<[k := v]> m) → seg_rel
    (if decide (load_factor_max_size_ s1 ≤ size_ s1)%Z then Rehash s1 else s1) (<[k := v]> m)) as Hre.
  { intros s1 [Hok1 Hg1]. case_decide; [|done]. destruct (rehash_ok s1 Hok1) as [Hok2 Hg2].
    split; [done|]. intros k'. by rewrite Hg2. }
  destruct (find_node k (bucket s k)) as [v0|] eqn:Ef; cbn [fst snd]; rewrite <-Hk.
  - split; [|by rewrite bool_decide_eq_true_2 by eauto]. apply Hre.
    destruct (set_bucket_ok s k (replace_node k v (bucket s k)) (size_ s)) as [Hok1 Hg1]; [done|..].
    + rewrite replace_node_fst. by eapply so_nodup.
    + intros k' v' Hin. apply (list_elem_of_fmap_2 fst) in Hin. rewrite replace_node_fst in Hin.
      apply list_elem_of_fmap in Hin as ([? ?] & Heq & Hin). simplify_eq/=. by eapply so_index.
    + split; [done|]. intros k'. rewrite Hg1, find_replace, Ef, lookup_insert.
      destruct (decide (k' = k)) as [->|Hne]; [by rewrite !decide_True|].
      rewrite (decide_False (P := k = k')) by done. rewrite <-Hget. case_decide as Hi; [|done].
      unfold seg_Get. by rewrite (bucket_same s k k').
  - split; [|by rewrite bool_decide_eq_false_2 by by intros [? ?]]. apply Hre.
    apply find_node_None in Ef as Hnk.
    destruct (set_bucket_ok s k ((k, v) :: bucket s k) (size_ s + 1)) as [Hok1 Hg1]; [done|..].
    + rewrite fmap_cons. apply NoDup_cons. split; [done|]. by eapply so_nodup.
    + intros k' v' [[= -> ->]|Hin]%elem_of_cons; [done|]. by eapply so_index.
    + split; [done|]. intros k'. rewrite Hg1, lookup_insert. simpl.
      destruct (decide (k' = k)) as [->|Hne]; [by rewrite !decide_True|].
      rewrite (decide_False (P := k = k')) by done. rewrite <-Hget. case_decide as Hi; [|done].
      unfold seg_Get. by rewrite (bucket_same s k k').
Qed.

Lemma seg_erase_ok s m k :
  seg_rel s m →
  seg_rel (seg_Erase s k).1 (delete k m) ∧ (seg_Erase s k).2 = bool_decide (is_Some (m !! k)).
Proof.
  intros [Hok Hget]. unfold seg_Erase. pose proof (Hget k) as Hk. unfold seg_Get in Hk.
  pose proof (bucket_lookup s k Hok) as Hbk. pose proof (so_nodup _ Hok _ _ Hbk) as Hnd.
  destruct (find_node k (bucket s k)) as [v0|] eqn:Ef; cbn [fst snd]; rewrite <-Hk.
  - split; [|by rewrite bool_decide_eq_true_2 by eauto].
    destruct (set_bucket_ok s k (erase_node k (bucket s k)) (size_ s)) as [Hok1 Hg1]; [done|..].
    + eapply sublist_NoDup; [exact Hnd|]. apply fmap_sublist, erase_node_sublist.
    + intros k' v' Hin. eapply so_index; [done|done|]. eapply elem_of_sublist; [exact Hin|].
      apply erase_node_sublist.
    + split; [done|]. intros k'. rewrite Hg1, find_erase, lookup_delete by done.
      destruct (decide (k' = k)) as [->|Hne]; [by rewrite !decide_True|].
      rewrite (decide_False (P := k = k')) by done. rewrite <-Hget. case_decide as Hi; [|done].
      unfold seg_Get. by rewrite (bucket_same s k k').
  - split; [|by rewrite bool_decide_eq_false_2 by by intros [? ?]]. split; [done|].
    intros k'. rewrite lookup_delete. case_decide as Hkk; [|apply Hget]. subst k'. done.
Qed.

Lemma new_segment_rel : seg_rel new_segment ∅.
Proof.
  split.
  - split; simpl; [by exists 3%Z|done|..].
    + intros i b Hi. apply (lookup_replicate 8 (@nil (K * V))) in Hi as [-> _]. constructor.
    + intros i b k v Hi. apply (lookup_replicate 8 (@nil (K * V))) in Hi as [-> _]. set_solver.
  - intros k. unfold seg_Get, bucket. simpl (bucket_roots _).
    destruct (CreateBuckets 8 !! _) as [b|] eqn:Hi; [|done].
    apply lookup_replicate in Hi as [-> _]. done.
Qed.

(** ** The whole map *)

Inductive map_op :=
  | OGet (k : K)
  | OInsertOrUpdate (k : K) (v : V)
  | OErase (k : K).

Inductive map_result :=
  | RValue (v : option V)
  | RExists (b : bool).

Definition hm_step (h : ConcurrentHashMap) (o : map_op) : ConcurrentHashMap * map_result :=
  match o with
  | OGet k => (h, RValue (Get h k))
  | OInsertOrUpdate k v => let '(h, b) := InsertOrUpdate h k v in (h, RExists b)
  | OErase k => let '(h, b) := Erase h k in (h, RExists b)
  end.

(** The same operations on a finite map. *)
Definition map_step m (o : map_op) : gmap K V * map_result :=
  match o with
  | OGet k => (m, RValue (m !! k))
  | OInsertOrUpdate k v => (<[k := v]> m, RExists (bool_decide (is_Some (m !! k))))
  | OErase k => (delete k m, RExists (bool_decide (is_Some (m !! k))))
  end.

Fixpoint run_ops {S} (step : S → map_op → S * map_result) (st : S) (os : list map_op) :
    list map_result :=
  match os with
  | [] => []
  | o :: os => let '(st, r) := step st o in r :: run_ops step st os
  end.

Definition in_segment (idx : Z) m : gmap K V := filter (λ kv, PickSegment kv.1 = idx) m.

Definition hm_rel (h : ConcurrentHashMap) m : Prop :=
  ∀ idx, seg_rel (EnsureSegment h idx) (in_segment idx m).

Lemma in_segment_lookup m k : in_segment (PickSegment k) m !! k = m !! k.
Proof.
  unfold in_segment. rewrite map_lookup_filter. destruct (m !! k) as [v|]; simpl; [|done].
  by rewrite option_guard_True.
Qed.

Lemma in_segment_insert m k v idx :
  in_segment idx (<[k := v]> m) =
  if decide (PickSegment k = idx) then <[k := v]> (in_segment idx m) else in_segment idx m.
Proof.
  unfold in_segment. case_decide as Hi.
  - by rewrite map_filter_insert_True.
  - rewrite map_filter_insert_False by done. apply map_filter_delete_not. naive_solver.
Qed.

Lemma in_segment_delete m k idx :
  in_segment idx (delete k m) =
  if decide (PickSegment k = idx) then delete k (in_segment idx m) else in_segment idx m.
Proof.
  unfold in_segment. case_decide as Hi.
  - by rewrite map_filter_delete.
  - apply map_filter_delete_not. naive_solver.
Qed.

Lemma hm_step_ok h m o :
  hm_rel h m → hm_rel (hm_step h o).1 (map_step m o).1 ∧ (hm_step h o).2 = (map_step m o).2.
Proof.
  intros Hrel. destruct o as [k|k v|k]; simpl.
  - split; [done|]. f_equal. unfold Get. destruct (Hrel (PickSegment k)) as [_ Hg].
    by rewrite Hg, in_segment_lookup.
  - unfold InsertOrUpdate. pose proof (seg_insert_ok _ _ k v (Hrel (PickSegment k))) as [Hs Hb].
    destruct (seg_InsertOrUpdate _ k v) as [s b]. simpl in *. rewrite in_segment_lookup in Hb.
    split; [|by f_equal]. intros idx. unfold EnsureSegment. simpl.
    rewrite in_segment_insert, lookup_insert. case_decide as Hi; [by subst idx|]. apply Hrel.
  - unfold Erase. pose proof (seg_erase_ok _ _ k (Hrel (PickSegment k))) as [Hs Hb].
    destruct (seg_Erase _ k) as [s b]. simpl in *. rewrite in_segment_lookup in Hb.
    split; [|by f_equal]. intros idx. unfold EnsureSegment. simpl.
    rewrite in_segment_delete, lookup_insert. case_decide as Hi; [by subst idx|]. apply Hrel.
Qed.

Lemma hm_rel_empty : hm_rel empty_hash_map ∅.
Proof.
  intros idx. unfold in_segment. rewrite map_filter_empty. unfold EnsureSegment.
  simpl. rewrite lookup_empty. apply new_segment_rel.
Qed.

(** C36. The segmented, rehashing hash map behaves as a finite map: any sequence of
    operations returns the same results as on a map, whatever the hash function. *)
Theorem hash_map_refines (os : list map_op) :
  run_ops hm_step empty_hash_map os = run_ops map_step ∅ os.
Proof.
  pose proof hm_rel_empty as Hrel. revert Hrel. generalize empty_hash_map (∅ : gmap K V).
  induction os as [|o os IH]; intros h m Hrel; simpl; [done|].
  destruct (hm_step_ok h m o Hrel) as [Hrel' Hr].
  destruct (hm_step h o) as [h' r], (map_step m o) as [m' r']. simpl in *. subst r'.
  f_equal. by apply IH.
Qed.

End HashMap.

Arguments Segment : clear implicits.
Arguments ConcurrentHashMap : clear implicits.
Arguments map_op : clear implicits.
Arguments map_result : clear implicits.
