(* ===== verification/RWLatch.v ===== *)
(** * The reader-writer latch

    [data_structure/rwlatch.h] as a transition system. A thread is in one of the
    phases below; the code between two waits runs under the mutex and is one step.
    A waiting thread is woken by a notification or spuriously. *)
From S2P Require Import Prelude.

Definition MAX_READERS : Z := 2 ^ 32 - 1.

(** Idle threads have no phase. [WantX] is about to run under the mutex, [SleepX]
    waits on a condition variable: [SleepW1] and [SleepR] on [reader_], [SleepW2]
    on [writer_]. *)
Inductive phase := WantW | SleepW1 | WantW2 | SleepW2 | Writing | WantR | SleepR | Reading.

#[global] Instance phase_eq_dec : EqDecision phase.
Proof. solve_decision. Defined.

Record latch := {
  reader_count_ : Z;
  writer_entered_ : bool;
  threads : gmap Z phase
}.

Definition latch_init : latch := {| reader_count_ := 0; writer_entered_ := false; threads := ∅ |}.

Definition set_phase (l : latch) (t : Z) (p : phase) : latch :=
  {| reader_count_ := reader_count_ l; writer_entered_ := writer_entered_ l;
     threads := <[t := p]> (threads l) |}.

(** [reader_.notify_all()] *)
Definition wake_reader (p : phase) : phase :=
  match p with SleepW1 => WantW | SleepR => WantR | _ => p end.

Definition notify_all_reader (ts : gmap Z phase) : gmap Z phase := wake_reader <$> ts.

(** [notify_one()]: the system chooses a waiting thread, if there is one. *)
Definition on_writer (p : phase) : bool := bool_decide (p = SleepW2).
Definition on_reader (p : phase) : bool := bool_decide (p = SleepW1 ∨ p = SleepR).

Definition chooses (sleeping : phase → bool) (ts : gmap Z phase) (choice : Z) : Prop :=
  (∃ t p, ts !! t = Some p ∧ sleeping p = true) →
  ∃ p, ts !! choice = Some p ∧ sleeping p = true.

Definition notify_one (sleeping : phase → bool) (wake : phase → phase) (choice : Z)
    (ts : gmap Z phase) : gmap Z phase :=
  match ts !! choice with
  | Some p => if sleeping p then <[choice := wake p]> ts else ts
  | None => ts
  end.

(** The first test of [WLock], and the second after it. *)
Definition WLock_enter (l : latch) (t : Z) : latch :=
  if writer_entered_ l then set_phase l t SleepW1
  else
    {| reader_count_ := reader_count_ l; writer_entered_ := true;
       threads := <[t := if bool_decide (0 < reader_count_ l)%Z then SleepW2 else Writing]> (threads l) |}.

Definition WLock_resume (l : latch) (t : Z) : latch :=
  set_phase l t (if bool_decide (0 < reader_count_ l)%Z then SleepW2 else Writing).

Definition WUnlock (l : latch) (t : Z) : latch :=
  {| reader_count_ := reader_count_ l; writer_entered_ := false;
     threads := notify_all_reader (delete t (threads l)) |}.

Definition RLock (l : latch) (t : Z) : latch :=
  if writer_entered_ l || bool_decide (reader_count_ l = MAX_READERS) then set_phase l t SleepR
  else
    {| reader_count_ := u32 (reader_count_ l + 1); writer_entered_ := writer_entered_ l;
       threads := <[t := Reading]> (threads l) |}.

Definition RUnlock (l : latch) (t : Z) (choice : Z) : latch :=
  let n := u32 (reader_count_ l - 1) in
  let ts := delete t (threads l) in
  {| reader_count_ := n; writer_entered_ := writer_entered_ l;
     threads :=
       if writer_entered_ l then
         if bool_decide (n = 0%Z) then
           notify_one on_writer (λ _, WantW2) choice ts
         else ts
       else
         if bool_decide (n = MAX_READERS - 1)%Z then
           notify_one on_reader wake_reader choice ts
         else ts |}.

(** A waiting thread wakes spuriously. *)
Definition wake (p : phase) : phase :=
  match p with SleepW1 => WantW | SleepR => WantR | SleepW2 => WantW2 | _ => p end.

Inductive latch_step (l : latch) : latch → Prop :=
  | step_call t p : threads l !! t = None → p = WantW ∨ p = WantR → latch_step l (set_phase l t p)
  | step_wlock t : threads l !! t = Some WantW → latch_step l (WLock_enter l t)
  | step_wlock2 t : threads l !! t = Some WantW2 → latch_step l (WLock_resume l t)
  | step_wunlock t : threads l !! t = Some Writing → latch_step l (WUnlock l t)
  | step_rlock t : threads l !! t = Some WantR → latch_step l (RLock l t)
  | step_runlock t choice : threads l !! t = Some Reading →
      chooses (if writer_entered_ l then on_writer else on_reader) (delete t (threads l)) choice →
      latch_step l (RUnlock l t choice)
  | step_spurious t p : threads l !! t = Some p → latch_step l (set_phase l t (wake p)).

(** ** The invariant *)

Definition is_writer (p : phase) : Prop := p = WantW2 ∨ p = SleepW2 ∨ p = Writing.

Definition readers (ts : gmap Z phase) : nat := size (filter (λ e, e.2 = Reading) ts).

Record latch_inv (l : latch) : Prop := {
  li_count : reader_count_ l = Z.of_nat (readers (threads l));
  li_writer t p : threads l !! t = Some p → is_writer p → writer_entered_ l = true;
  li_unique t1 t2 p1 p2 : threads l !! t1 = Some p1 → threads l !! t2 = Some p2 →
    is_writer p1 → is_writer p2 → t1 = t2;
  li_entered : writer_entered_ l = true → ∃ t p, threads l !! t = Some p ∧ is_writer p;
  li_writing t : threads l !! t = Some Writing → reader_count_ l = 0%Z;
  li_sleep_reader t p : threads l !! t = Some p → p = SleepW1 ∨ p = SleepR → writer_entered_ l = true;
  li_sleep_writer t : threads l !! t = Some SleepW2 → (0 < reader_count_ l)%Z
}.

(** At most [MAX_READERS] threads use the latch at a time. *)
Inductive reachable : latch → Prop :=
  | reach_init : reachable latch_init
  | reach_step l l' : reachable l → latch_step l l' →
      (Z.of_nat (size (threads l')) ≤ MAX_READERS)%Z → reachable l'.

Lemma readers_le ts : readers ts ≤ size ts.
Proof. apply map_size_filter. Qed.

Lemma readers_delete ts t p :
  ts !! t = Some p → readers ts = readers (delete t ts) + (if decide (p = Reading) then 1 else 0).
Proof.
  intros Ht. unfold readers. rewrite <-(insert_delete_id ts t p) at 1 by done.
  rewrite map_filter_insert. simpl. case_decide as Hp.
  - rewrite map_size_insert_None; [lia|]. by rewrite map_lookup_filter, lookup_delete_eq.
  - rewrite delete_delete_eq. lia.
Qed.

Lemma readers_insert ts t p :
  readers (<[t := p]> ts) = readers (delete t ts) + (if decide (p = Reading) then 1 else 0).
Proof.
  rewrite (readers_delete _ t p) by apply lookup_insert_eq. by rewrite delete_insert_eq.
Qed.

Lemma readers_insert_same ts t p p' :
  ts !! t = Some p' → p ≠ Reading → p' ≠ Reading → readers (<[t := p]> ts) = readers ts.
Proof.
  intros Ht Hp Hp'. rewrite readers_insert, (readers_delete ts t p' Ht).
  by rewrite !decide_False.
Qed.

Lemma readers_wake ts : readers (notify_all_reader ts) = readers ts.
Proof.
  unfold readers, notify_all_reader. rewrite map_filter_fmap, map_size_fmap.
  f_equal. apply map_filter_ext. intros t p _. simpl. by destruct p.
Qed.

Lemma readers_pos ts : 0 < readers ts → ∃ t, ts !! t = Some Reading.
Proof.
  intros Hpos. unfold readers in Hpos.
  assert (Hne : size (filter (λ e : Z * phase, e.2 = Reading) ts) ≠ 0) by lia.
  apply map_size_non_empty_iff, map_choose in Hne as (t & p & Hp).
  apply map_lookup_filter_Some in Hp as [Hp Hr]. simpl in Hr. subst. eauto.
Qed.

(** ** Preservation *)

(** A change of phase that concerns neither readers, writers nor sleepers. *)
Definition neutral (p : phase) : Prop := p = WantW ∨ p = WantR.

Ltac lookups :=
  repeat match goal with
  | H : <[_ := _]> _ !! _ = Some _ |- _ => apply lookup_insert_Some in H as [[? ?]|[? H]]; simplify_eq
  | H : delete _ _ !! _ = Some _ |- _ => apply lookup_delete_Some in H as [? H]
  end.

Ltac phases := unfold is_writer, neutral in *; repeat match goal with H : _ ∨ _ |- _ => destruct H | H : ∃ _, _ |- _ => destruct H end; simplify_eq/=.

Lemma inv_set_neutral l t p :
  latch_inv l → neutral p → (∀ q, threads l !! t = Some q → ¬ is_writer q ∧ q ≠ Reading) →
  latch_inv (set_phase l t p).
Proof.
  intros [Hc Hw Hu He Hwr Hsr Hsw] Hp Hq.
  assert (Hr : readers (<[t := p]> (threads l)) = readers (threads l)).
  { destruct (threads l !! t) as [q|] eqn:Ht.
    - eapply readers_insert_same; [done| |by apply (Hq q)]. by destruct Hp as [->| ->].
    - rewrite readers_insert, delete_id by done. rewrite decide_False; [lia|].
      by destruct Hp as [->| ->]. }
  split; simpl.
  - by rewrite Hr.
  - intros; lookups; [phases|eauto].
  - intros; lookups; [phases|phases|phases|eauto].
  - intros Hwe. destruct (He Hwe) as (t' & q & Hq' & Hw'). exists t', q. split; [|done].
    rewrite lookup_insert_ne; [done|]. intros ->. by destruct (Hq q Hq').
  - intros; lookups; [phases|eauto].
  - intros; lookups; [phases|eauto].
  - intros; lookups; [phases|eauto].
Qed.

Lemma inv_wlock_enter l t :
  latch_inv l → threads l !! t = Some WantW → latch_inv (WLock_enter l t).
Proof.
  intros [Hc Hw Hu He Hwr Hsr Hsw] Ht. unfold WLock_enter.
  destruct (writer_entered_ l) eqn:Hwe; split; simpl.
  - by rewrite (readers_insert_same _ _ _ _ Ht).
  - done.
  - intros; lookups; [phases|phases|phases|eauto].
  - intros _. destruct (He eq_refl) as (t' & q & Hq' & Hw'). exists t', q. split; [|done].
    rewrite lookup_insert_ne; [done|]. intros ->. phases.
  - intros; lookups; eauto.
  - done.
  - intros; lookups; eauto.
  - rewrite (readers_insert_same _ _ _ _ Ht); [done|by case_bool_decide|done].
  - done.
  - intros t1 t2 p1 p2 H1 H2 Hp1 Hp2. lookups; [done| | |eauto].
    + by specialize (Hw _ _ H1 Hp1).
    + by specialize (Hw _ _ H2 Hp2).
  - intros _. eexists t, _. split; [apply lookup_insert_eq|].
    unfold is_writer. case_bool_decide; auto.
  - intros t' H'. apply lookup_insert_Some in H' as [[<- H']|[? H']]; [|eauto].
    case_bool_decide; [done|]. lia.
  - done.
  - intros t' H'. apply lookup_insert_Some in H' as [[<- H']|[? H']]; [|eauto].
    case_bool_decide; [done|done].
Qed.

Lemma inv_wlock_resume l t :
  latch_inv l → threads l !! t = Some WantW2 → latch_inv (WLock_resume l t).
Proof.
  intros [Hc Hw Hu He Hwr Hsr Hsw] Ht. unfold WLock_resume.
  assert (Hwe : writer_entered_ l = true) by (eapply Hw; [done|unfold is_writer; auto]).
  assert (Hwt : is_writer WantW2) by (unfold is_writer; auto).
  split; simpl.
  - rewrite (readers_insert_same _ _ _ _ Ht); [done|by case_bool_decide|done].
  - done.
  - intros t1 t2 p1 p2 H1 H2 Hp1 Hp2. lookups; eauto.
  - intros _. eexists t, _. split; [apply lookup_insert_eq|].
    unfold is_writer. case_bool_decide; auto.
  - intros t' H'. apply lookup_insert_Some in H' as [[<- H']|[? H']]; [|eauto].
    case_bool_decide; [done|]. lia.
  - done.
  - intros t' H'. apply lookup_insert_Some in H' as [[<- H']|[? H']]; [|eauto].
    case_bool_decide; done.
Qed.

Lemma notify_all_lookup ts t p :
  notify_all_reader ts !! t = Some p → ∃ q, ts !! t = Some q ∧ p = wake_reader q.
Proof. unfold notify_all_reader. rewrite lookup_fmap_Some. naive_solver. Qed.

Lemma inv_wunlock l t :
  latch_inv l → threads l !! t = Some Writing → latch_inv (WUnlock l t).
Proof.
  intros [Hc Hw Hu He Hwr Hsr Hsw] Ht. unfold WUnlock.
  assert (Hwt : is_writer Writing) by (unfold is_writer; auto).
  assert (Hno : ∀ t' q, delete t (threads l) !! t' = Some q → ¬ is_writer q).
  { intros t' q Hq Hq'. lookups. naive_solver. }
  assert (Hno' : ∀ t' p, notify_all_reader (delete t (threads l)) !! t' = Some p →
    ¬ is_writer p ∧ p ≠ SleepW1 ∧ p ≠ SleepR).
  { intros t' p (q & Hq & ->)%notify_all_lookup. apply Hno in Hq.
    by destruct q; simpl; unfold is_writer in *; naive_solver. }
  split; simpl.
  - rewrite readers_wake, Hc, (readers_delete _ _ _ Ht), decide_False by done. lia.
  - intros t' p Hp%Hno'. naive_solver.
  - intros t1 t2 p1 p2 Hp%Hno'. naive_solver.
  - done.
  - intros t' Hp%Hno'. unfold is_writer in Hp. naive_solver.
  - intros t' p Hp%Hno'. naive_solver.
  - intros t' Hp%Hno'. unfold is_writer in Hp. naive_solver.
Qed.

Lemma inv_rlock l t :
  latch_inv l → threads l !! t = Some WantR →
  (Z.of_nat (size (threads l)) ≤ MAX_READERS)%Z → latch_inv (RLock l t).
Proof.
  intros [Hc Hw Hu He Hwr Hsr Hsw] Ht Hsz.
  pose proof (readers_delete _ _ _ Ht) as Hrd. rewrite decide_False in Hrd by done.
  assert (Hlt : (reader_count_ l < MAX_READERS)%Z).
  { pose proof (readers_le (delete t (threads l))). rewrite map_size_delete, Ht in H. simpl in H.
    assert (size (threads l) ≠ 0) by (by apply map_size_ne_0_lookup_2 with t; rewrite Ht). lia. }
  unfold RLock. rewrite (bool_decide_eq_false_2 (reader_count_ l = MAX_READERS)) by lia.
  rewrite orb_false_r. destruct (writer_entered_ l) eqn:Hwe; split; simpl.
  - by rewrite (readers_insert_same _ _ _ _ Ht).
  - done.
  - intros; lookups; [phases|phases|phases|eauto].
  - intros _. destruct (He eq_refl) as (t' & q & Hq' & Hw'). exists t', q. split; [|done].
    rewrite lookup_insert_ne; [done|]. intros ->. phases.
  - intros; lookups; eauto.
  - done.
  - intros; lookups; eauto.
  - rewrite readers_insert, decide_True by done. unfold u32, wrapu, MAX_READERS in *.
    rewrite Z.mod_small; lia.
  - intros; lookups; [phases|eauto].
  - intros; lookups; [phases|phases|phases|eauto].
  - done.
  - intros t' H'. lookups. by specialize (Hw _ _ H' (or_intror (or_intror eq_refl))).
  - intros; lookups; [phases|eauto].
  - intros t' H'. lookups. by specialize (Hw _ _ H' (or_intror (or_introl eq_refl))).
Qed.

(** Releasing the latch to the thread the system chose only wakes it. *)
Lemma notify_one_lookup sleeping wk choice ts t p :
  notify_one sleeping wk choice ts !! t = Some p →
  ts !! t = Some p ∨ (∃ q, ts !! t = Some q ∧ sleeping q = true ∧ p = wk q).
Proof.
  unfold notify_one. destruct (ts !! choice) as [q|] eqn:Hq; [|auto].
  destruct (sleeping q) eqn:Hs; [|auto]. intros H. lookups; eauto.
Qed.

Lemma notify_one_readers sleeping wk choice ts :
  (∀ q, sleeping q = true → q ≠ Reading ∧ wk q ≠ Reading) →
  readers (notify_one sleeping wk choice ts) = readers ts.
Proof.
  intros Hs. unfold notify_one. destruct (ts !! choice) as [q|] eqn:Hq; [|done].
  destruct (sleeping q) eqn:Hsq; [|done]. apply (readers_insert_same _ _ _ _ Hq); by apply Hs.
Qed.

(** What waking one thread keeps of a phase. *)
Definition wakes (q p : phase) : Prop := p = q ∨ p = wake q.

Lemma runlock_threads l t choice t' p :
  threads (RUnlock l t choice) !! t' = Some p →
  ∃ q, threads l !! t' = Some q ∧ t ≠ t' ∧ wakes q p.
Proof.
  unfold RUnlock, wakes, on_writer, on_reader. simpl. intros H.
  assert (delete t (threads l) !! t' = Some p ∨
    ∃ q, delete t (threads l) !! t' = Some q ∧ p = wake q) as [H'|(q & H' & ->)].
  { destruct (writer_entered_ l); case_bool_decide; [| auto | | auto].
    all: apply notify_one_lookup in H as [?|(q & ? & Hq & ->)]; [auto|].
    all: right; exists q; split; [done|]; apply bool_decide_eq_true_1 in Hq; phases; done. }
  all: lookups; eauto.
Qed.

Lemma runlock_keeps l t choice t' q :
  threads l !! t' = Some q → t ≠ t' → is_writer q →
  ∃ p, threads (RUnlock l t choice) !! t' = Some p ∧ is_writer p.
Proof.
  intros Ht' Hne Hq. unfold RUnlock, notify_one, on_writer, on_reader. simpl.
  assert (Hd : delete t (threads l) !! t' = Some q) by (by rewrite lookup_delete_ne).
  destruct (writer_entered_ l); case_bool_decide; eauto.
  all: destruct (delete t (threads l) !! choice) as [p|] eqn:Hp; [|eauto].
  all: case_bool_decide as Hs; [|eauto].
  all: destruct (decide (choice = t')) as [->|]; [|rewrite lookup_insert_ne by done; eauto].
  all: rewrite lookup_insert_eq; eexists; split; [done|]; phases; auto.
Qed.

Lemma runlock_readers l t choice :
  readers (threads (RUnlock l t choice)) = readers (delete t (threads l)).
Proof.
  unfold RUnlock, on_writer, on_reader. simpl. destruct (writer_entered_ l); case_bool_decide; try done.
  all: apply notify_one_readers; intros q Hq%bool_decide_eq_true_1; phases; done.
Qed.

Lemma inv_runlock l t choice :
  latch_inv l → threads l !! t = Some Reading →
  chooses (if writer_entered_ l then on_writer else on_reader) (delete t (threads l)) choice →
  (Z.of_nat (size (threads l)) ≤ MAX_READERS)%Z → latch_inv (RUnlock l t choice).
Proof.
  intros [Hc Hw Hu He Hwr Hsr Hsw] Ht Hch Hsz.
  pose proof (readers_delete _ _ _ Ht) as Hrd. rewrite decide_True in Hrd by done.
  pose proof (readers_le (threads l)) as Hle.
  assert (Hn : u32 (reader_count_ l - 1) = Z.of_nat (readers (delete t (threads l)))).
  { unfold u32, wrapu, MAX_READERS in *. rewrite Z.mod_small; lia. }
  assert (Hpw : ∀ q p, wakes q p → is_writer p ↔ is_writer q).
  { intros q p [->| ->]; [done|]. destruct q; simpl; unfold is_writer; naive_solver. }
  split.
  - by rewrite runlock_readers.
  - intros t' p (q & Hq & _ & Hwk)%runlock_threads Hp. eapply Hw; [done|]. by apply (Hpw _ _ Hwk).
  - intros t1 t2 p1 p2 (q1 & ? & _ & Hk1)%runlock_threads (q2 & ? & _ & Hk2)%runlock_threads Hp1 Hp2.
    eapply Hu; [done|done| |]; [by apply (Hpw _ _ Hk1)|by apply (Hpw _ _ Hk2)].
  - intros Hwe. destruct (He Hwe) as (t' & q & Hq & Hqw). exists t'.
    eapply runlock_keeps; [done| |done]. intros ->. phases.
  - intros t' (q & Hq & _ & Hwk)%runlock_threads.
    assert (q = Writing) as -> by (destruct Hwk as [?|?]; [done|by destruct q]).
    apply Hwr in Hq. lia.
  - intros t' p (q & Hq & _ & Hwk)%runlock_threads Hp. apply (Hsr t' q Hq).
    destruct Hwk as [->|Hwk]; [done|]. destruct q; phases; auto.
  - intros t' Ht'. pose proof (runlock_threads _ _ _ _ _ Ht') as (q & Hq & Hne & Hwk).
    assert (q = SleepW2) as -> by (destruct Hwk as [?|?]; [done|by destruct q]).
    assert (Hwe : writer_entered_ l = true) by (eapply Hw; [done|unfold is_writer; auto]).
    rewrite Hwe in Hch. destruct Hch as (p & Hp & Hs).
    { exists t', SleepW2. by rewrite lookup_delete_ne. }
    apply bool_decide_eq_true_1 in Hs as ->.
    assert (choice = t') as ->.
    { apply lookup_delete_Some in Hp as [_ Hp]. eapply Hu; [done|done|..]; unfold is_writer; auto. }
    revert Ht'. unfold RUnlock, notify_one. simpl. rewrite Hwe, Hp. simpl.
    case_bool_decide; [by rewrite lookup_insert_eq|]. lia.
Qed.

Lemma inv_spurious l t p :
  latch_inv l → threads l !! t = Some p → latch_inv (set_phase l t (wake p)).
Proof.
  intros Hinv Ht. destruct (decide (wake p = p)) as [Heq|Hne].
  { destruct l. unfold set_phase. simpl in *. by rewrite Heq, insert_id. }
  destruct p; simpl in *; try done.
  - apply inv_set_neutral; [done|by left|]. intros q Hq. unfold is_writer. naive_solver.
  - destruct Hinv as [Hc Hw Hu He Hwr Hsr Hsw].
    assert (Hwt : is_writer SleepW2) by (unfold is_writer; auto). split; simpl.
    + by rewrite (readers_insert_same _ _ _ _ Ht).
    + intros; lookups; eauto.
    + intros; lookups; eauto.
    + intros _. exists t, WantW2. rewrite lookup_insert_eq. unfold is_writer. auto.
    + intros; lookups; eauto.
    + intros; lookups; [phases|eauto].
    + intros; lookups; eauto.
  - apply inv_set_neutral; [done|by right|]. intros q Hq. unfold is_writer. naive_solver.
Qed.

Lemma latch_reachable_inv l :
  reachable l → latch_inv l ∧ (Z.of_nat (size (threads l)) ≤ MAX_READERS)%Z.
Proof.
  induction 1 as [|l l' _ [Hinv Hsz] Hstep Hsz']; [split; [|done]; by split|].
  split; [|done]. destruct Hstep as [t p Ht Hp|t Ht|t Ht|t Ht|t Ht|t choice Ht Hch|t p Ht].
  - apply inv_set_neutral; [done|done|]. naive_solver.
  - by apply inv_wlock_enter.
  - by apply inv_wlock_resume.
  - by apply inv_wunlock.
  - by apply inv_rlock.
  - by apply inv_runlock.
  - by apply inv_spurious.
Qed.

(** ** The guarantees of the latch *)

(** C37. In every reachable state of the reader-writer latch a writing thread is alone:
    no other thread writes and none reads. The count of readers is the number of
    reading threads, it never wraps around. *)
Theorem latch_exclusive l t :
  reachable l → threads l !! t = Some Writing →
  (∀ t' p, threads l !! t' = Some p → p = Writing ∨ p = Reading → t' = t) ∧
  reader_count_ l = 0%Z ∧ writer_entered_ l = true.
Proof.
  intros [Hinv _]%latch_reachable_inv Ht. pose proof (li_writing l Hinv t Ht) as H0.
  assert (is_writer Writing) by (unfold is_writer; auto).
  repeat split; [|done|by eapply li_writer].
  intros t' p Hp [->| ->]; [by eapply li_unique|].
  rewrite (li_count l Hinv), (readers_delete _ _ _ Hp), decide_True in H0 by done. lia.
Qed.

(** No wakeup of the reader-writer latch is lost: a thread sleeps on [reader_]
    only while a writer has entered and on [writer_] only while there are readers, so
    whenever a thread sleeps, some thread holds the latch or is about to run. *)
Theorem latch_no_lost_wakeup l t p :
  reachable l → threads l !! t = Some p → p = SleepW1 ∨ p = SleepR ∨ p = SleepW2 →
  (p = SleepW2 → (0 < reader_count_ l)%Z) ∧ (p ≠ SleepW2 → writer_entered_ l = true) ∧
  ∃ t' p', threads l !! t' = Some p' ∧ (p' = Reading ∨ p' = Writing ∨ p' = WantW2).
Proof.
  intros [Hinv _]%latch_reachable_inv Ht Hp.
  assert (Hr : (0 < reader_count_ l)%Z → ∃ t', threads l !! t' = Some Reading).
  { rewrite (li_count l Hinv). intros. apply readers_pos. lia. }
  assert (Hw : p ≠ SleepW2 → writer_entered_ l = true).
  { intros. eapply li_sleep_reader; [done..|]. naive_solver. }
  split; [intros ->; by eapply li_sleep_writer|]. split; [done|].
  assert (Hs : ∀ t', threads l !! t' = Some SleepW2 → ∃ t', threads l !! t' = Some Reading).
  { intros t' ?. apply Hr. by eapply li_sleep_writer. }
  destruct (decide (p = SleepW2)) as [->|Hne]; [naive_solver|].
  destruct (li_entered l Hinv (Hw Hne)) as (t' & p' & Hp' & [->|[->| ->]]); naive_solver.
Qed.

(** A reader holds the latch, a writer waits for it and a second reader behind it. *)
Definition example_latch : latch :=
  {| reader_count_ := 1; writer_entered_ := true;
     threads := <[3%Z := SleepR]> (<[2%Z := SleepW2]> (<[1%Z := Reading]> ∅)) |}.

Ltac run_step c := eapply reach_step; [|apply c|by vm_compute].

Lemma latch_exclusive_witness :
  ∃ l, reachable l ∧ threads l !! 1%Z = Some Writing ∧ reader_count_ l = 0%Z.
Proof.
  set (l1 := set_phase latch_init 1 WantW). set (l2 := WLock_enter l1 1).
  assert (Hr : reachable l2).
  { run_step step_wlock; [|by vm_compute]. run_step step_call; [apply reach_init|done|by left]. }
  exists l2. split; [done|]. split; [done|]. by apply (latch_exclusive l2 1 Hr).
Defined.

Lemma latch_no_lost_wakeup_witness :
  reachable example_latch ∧ (0 < reader_count_ example_latch)%Z.
Proof.
  assert (Hr : reachable example_latch).
  { set (l1 := set_phase latch_init 1 WantR). set (l2 := RLock l1 1).
    set (l3 := set_phase l2 2 WantW). set (l4 := WLock_enter l3 2).
    set (l5 := set_phase l4 3 WantR).
    assert (H5 : reachable l5).
    { run_step step_call; [|done|by right]. run_step step_wlock; [|done].
      run_step step_call; [|done|by left]. run_step step_rlock; [|done].
      run_step step_call; [apply reach_init|done|by right]. }
    pose proof (reach_step _ _ H5 (step_rlock l5 3 eq_refl)) as H6.
    by apply H6. }
  split; [done|].
  by apply (latch_no_lost_wakeup example_latch 2 SleepW2 Hr); [|right; right|].
Defined.
