(* ===== verification/SpinLatch.v ===== *)
(** * The spin latch

    [common/spin_latch.h] as a transition system: every access to the atomic flag is one step
    of one thread. The metrics of a thread are recorded and reset under it. *)
From S2P Require Import Prelude.

(** Idle threads have no phase. [Exchanging] is at [lock_.exchange(true)], [Loading] at
    [lock_.load()], and [Holding] has returned from [lock]. *)
Inductive spin_phase := Exchanging | Loading | Holding.

#[global] Instance spin_phase_eq_dec : EqDecision spin_phase.
Proof. solve_decision. Defined.

Record SpinLatch := { lock_ : bool; spinning : gmap nat spin_phase }.

Definition spin_init : SpinLatch := {| lock_ := false; spinning := ∅ |}.

Definition set_spin (t : nat) (p : spin_phase) (flag : bool) (l : SpinLatch) : SpinLatch :=
  {| lock_ := flag; spinning := <[t := p]> (spinning l) |}.

(** One step of [lock]: the exchange, or the inner loop's load. *)
Definition lock_step (t : nat) (l : SpinLatch) : option SpinLatch :=
  match spinning l !! t with
  | Some Exchanging => Some (if lock_ l then set_spin t Loading true l else set_spin t Holding true l)
  | Some Loading => Some (if lock_ l then l else set_spin t Exchanging (lock_ l) l)
  | _ => None
  end.

Definition unlock (t : nat) (l : SpinLatch) : option SpinLatch :=
  match spinning l !! t with
  | Some Holding => Some {| lock_ := false; spinning := delete t (spinning l) |}
  | _ => None
  end.

Definition call_lock (t : nat) (l : SpinLatch) : option SpinLatch :=
  match spinning l !! t with
  | None => Some (set_spin t Exchanging (lock_ l) l)
  | Some _ => None
  end.

Inductive spin_step (l l' : SpinLatch) : Prop :=
  | spin_calls t : call_lock t l = Some l' → spin_step l l'
  | spin_locks t : lock_step t l = Some l' → spin_step l l'
  | spin_unlocks t : unlock t l = Some l' → spin_step l l'.

Definition spin_reachable : SpinLatch → Prop := rtc spin_step spin_init.

(** ** Invariant *)

(** The flag is up exactly when some thread holds the latch, and then it is the only one. *)
Record spin_ok (l : SpinLatch) : Prop := {
  flag_held : lock_ l = true ↔ ∃ t, spinning l !! t = Some Holding;
  held_once t1 t2 : spinning l !! t1 = Some Holding → spinning l !! t2 = Some Holding → t1 = t2
}.

Lemma spin_init_ok : spin_ok spin_init.
Proof. constructor; simpl; [split; [done|intros [t H]; done]|done]. Qed.

(** A thread that is not holding goes to another such phase, or leaves the flag. *)
Lemma spin_ok_wait t p l :
  spin_ok l → p ≠ Holding → spinning l !! t ≠ Some Holding → spin_ok (set_spin t p (lock_ l) l).
Proof.
  intros [Hf Ho] Hp Ht. constructor; simpl.
  - rewrite Hf. split; intros [t' H]; exists t'.
    + rewrite lookup_insert_ne; [done|]. by intros <-.
    + apply lookup_insert_Some in H as [[_ ?]|[_ H]]; [congruence|done].
  - intros t1 t2 [[_ ?]|[_ H1]]%lookup_insert_Some [[_ ?]|[_ H2]]%lookup_insert_Some; try congruence. eauto.
Qed.

Lemma spin_ok_take t l : spin_ok l → lock_ l = false → spin_ok (set_spin t Holding true l).
Proof.
  intros [Hf Ho] Hl.
  assert (Hno : ∀ t', spinning l !! t' ≠ Some Holding) by (intros t' H; rewrite (proj2 Hf) in Hl; [done|eauto]).
  constructor; simpl.
  - split; [|done]. intros _. exists t. by rewrite lookup_insert_eq.
  - intros t1 t2 [[<- _]|[_ H1]]%lookup_insert_Some [[<- _]|[_ H2]]%lookup_insert_Some; [done|by apply Hno in H2|by apply Hno in H1..].
Qed.

Lemma spin_ok_release t l :
  spin_ok l → spinning l !! t = Some Holding → spin_ok {| lock_ := false; spinning := delete t (spinning l) |}.
Proof.
  intros [Hf Ho] Ht. constructor; simpl.
  - split; [done|]. intros [t' [Hne H]%lookup_delete_Some]. by destruct Hne; eapply Ho.
  - intros t1 t2 [_ H1]%lookup_delete_Some [_ H2]%lookup_delete_Some. eauto.
Qed.

Lemma spin_step_ok l l' : spin_ok l → spin_step l l' → spin_ok l'.
Proof.
  intros Hok [t H|t H|t H].
  - unfold call_lock in H. destruct (spinning l !! t) eqn:E; simplify_eq. apply spin_ok_wait; congruence.
  - unfold lock_step in H. destruct (spinning l !! t) as [[]|] eqn:E; [| |done..]; destruct (lock_ l) eqn:El; simplify_eq.
    + rewrite <-El. apply spin_ok_wait; congruence.
    + by apply spin_ok_take.
    + done.
    + rewrite <-El. apply spin_ok_wait; congruence.
  - unfold unlock in H. destruct (spinning l !! t) as [[]|] eqn:E; simplify_eq. by apply spin_ok_release.
Qed.

(** The spin latch excludes: in every state that threads reach by calling [lock] and
    [unlock], at most one of them holds it; and it does not get stuck: when nobody holds
    it, any waiting thread has it after at most two steps of its own. *)
Theorem spin_latch_exclusive l :
  spin_reachable l →
  (∀ t1 t2, spinning l !! t1 = Some Holding → spinning l !! t2 = Some Holding → t1 = t2) ∧
  ∀ t p, (∀ t', spinning l !! t' ≠ Some Holding) → spinning l !! t = Some p →
    ∃ l', (lock_step t l = Some l' ∨ lock_step t l ≫= lock_step t = Some l') ∧ spinning l' !! t = Some Holding.
Proof.
  intros Hr. assert (Hok : spin_ok l).
  { unfold spin_reachable in Hr. revert Hr. generalize spin_init_ok. generalize spin_init. intros l0 H0 Hr.
    induction Hr as [|l1 l2 l3 Hs _ IH]; [done|]. by apply IH, (spin_step_ok l1). }
  split; [intros t1 t2; by apply (held_once _ Hok)|]. intros t p Hno Hp.
  assert (Hl : lock_ l = false).
  { destruct (lock_ l) eqn:E; [|done]. apply (flag_held _ Hok) in E as [t' H]. by apply Hno in H. }
  destruct p; [| |by apply Hno in Hp].
  - exists (set_spin t Holding true l). unfold lock_step. rewrite Hp, Hl. split; [by left|]. simpl. by rewrite lookup_insert_eq.
  - exists (set_spin t Holding true (set_spin t Exchanging false l)). split; [right|simpl; by rewrite lookup_insert_eq].
    unfold lock_step at 2. rewrite Hp, Hl. simpl. unfold lock_step. simpl. by rewrite lookup_insert_eq.
Qed.

(** Two threads call; one holds the latch and gives it back while the other waits for it. *)
Lemma spin_latch_exclusive_witness :
  ∃ l l', spin_reachable l ∧ spinning l !! 1 = Some Loading ∧ lock_step 1 l ≫= lock_step 1 = Some l' ∧ spinning l' !! 1 = Some Holding.
Proof.
  set (l := {| lock_ := false; spinning := {[1 := Loading]} |}).
  assert (Hr : spin_reachable l).
  { eapply rtc_l; [by apply (spin_calls _ _ 0)|]. eapply rtc_l; [by apply (spin_calls _ _ 1)|].
    eapply rtc_l; [by apply (spin_locks _ _ 0)|]. eapply rtc_l; [by apply (spin_locks _ _ 1)|].
    eapply rtc_l; [by apply (spin_unlocks _ _ 0)|]. apply rtc_refl. }
  destruct (proj2 (spin_latch_exclusive l Hr) 1 Loading) as (l' & [H|H] & Hh).
  - intros t' H. unfold l in H. cbn [spinning] in H. by apply lookup_singleton_Some in H as [_ ?].
  - reflexivity.
  - exfalso. vm_compute in H. injection H as <-. vm_compute in Hh. discriminate.
  - exists l, l'. repeat split; [exact Hr|exact H|exact Hh].
Defined.
