(* ===== verification/Execution.v ===== *)
(** * Storage and the key-value execution

    [storage/mem_only_storage.h], [storage/metadata_initializer.cpp],
    [execution/execution.cpp] and [execution/key_value.cpp]. A storage is a finite map
    of records, which is what the hash map below it refines to. A transaction program
    is a list of procedures, each a list of argument strings. *)
From S2P Require Import Prelude Types StringUtils.

Abbreviation Storage := (gmap string StoredRecord) (only parsing).

(** ** [MemOnlyStorage] *)

Definition Read (st : Storage) (k : Key) : option StoredRecord := CopyRecord <$> st !! k.

(** Returns the flag of [InsertOrUpdate] as well. *)
Definition Write (st : Storage) (k : Key) (r : StoredRecord) : Storage * bool :=
  (<[k := CopyRecord r]> st, bool_decide (is_Some (st !! k))).

Definition Delete (st : Storage) (k : Key) : Storage * bool :=
  (delete k st, bool_decide (is_Some (st !! k))).

Definition GetMasterMetadata (st : Storage) (k : Key) : option Metadata :=
  metadata_ <$> Read st k.

(** ** Metadata initializers *)

Definition NewMetadata (m : Z) : Metadata := {| md_master := m; md_counter := 0 |}.

Definition simple_Compute (num_replicas num_partitions : Z) (k : Key) : result Metadata :=
  n ← stoull (chars k);
  if decide (num_partitions = 0 ∨ num_replicas = 0)%Z then Err (Undef "division by zero")
  else Ok (NewMetadata (u32 ((n `div` num_partitions) `mod` num_replicas))).

Definition constant_Compute (home : Z) (k : Key) : Metadata := NewMetadata home.

(** ** [KeyValueExecution::Execute] *)

Definition procedures (t : Transaction) : list (list string) :=
  match program t with kCode ps => ps | _ => [] end.

(** [args[i]] *)
Definition arg (args : list string) (i : nat) : result string :=
  from_option Ok (Err (Undef "RepeatedPtrField::operator[]")) (args !! i).

(** The first position of a key: [emplace] keeps the first. *)
Definition key_index (ks : list KeyValueEntry) (k : Key) : option nat :=
  fst <$> list_find (λ kv, key kv = k) ks.

Definition entry_at (ks : list KeyValueEntry) (i : nat) : result ValueEntry :=
  from_option (λ kv, Ok (value_entry kv)) (Err (Undef "Transaction::keys")) (ks !! i).

Definition set_entry_at (ks : list KeyValueEntry) (i : nat) (v : ValueEntry) : list KeyValueEntry :=
  alter (set_value_entry v) i ks.

Record kv_state := {
  kv_keys : list KeyValueEntry;
  kv_deleted : list Key;
  kv_aborted : bool;
  kv_reason : string
}.

Definition with_keys (s : kv_state) (ks : list KeyValueEntry) : kv_state :=
  {| kv_keys := ks; kv_deleted := kv_deleted s; kv_aborted := kv_aborted s; kv_reason := kv_reason s |}.

Definition kv_set (idx : Key → option nat) (s : kv_state) (args : list string) : result kv_state :=
  k ← arg args 1;
  match idx k with
  | None => Ok s
  | Some i =>
    v ← entry_at (kv_keys s) i;
    if decide (type v ≠ WRITE) then Ok s
    else x ← arg args 2; Ok (with_keys s (set_entry_at (kv_keys s) i (set_new_value x v)))
  end.

(** [it != end || keys(it->second)...]: when the key is not found the second operand
    dereferences the end iterator. *)
Definition kv_del (idx : Key → option nat) (s : kv_state) (args : list string) : result kv_state :=
  k ← arg args 1;
  match idx k with
  | Some _ => Ok s
  | None => Err (Undef "dereference of key_index.end()")
  end.

Definition kv_copy (idx : Key → option nat) (s : kv_state) (args : list string) : result kv_state :=
  k1 ← arg args 1;
  k2 ← arg args 2;
  match idx k1, idx k2 with
  | Some i, Some j =>
    src ← entry_at (kv_keys s) i;
    dst ← entry_at (kv_keys s) j;
    if decide (type dst ≠ WRITE) then Ok s
    else Ok (with_keys s (set_entry_at (kv_keys s) j (set_new_value (value src) dst)))
  | _, _ => Ok s
  end.

Definition kv_eq (idx : Key → option nat) (s : kv_state) (args : list string) : result kv_state :=
  k ← arg args 1;
  match idx k with
  | None => Ok s
  | Some i =>
    v ← entry_at (kv_keys s) i;
    x ← arg args 2;
    if decide (value v = x) then Ok s
    else Ok {| kv_keys := kv_keys s; kv_deleted := kv_deleted s; kv_aborted := true;
               kv_reason := (kv_reason s +:+ "Key = " +:+ k +:+ ". Expected value = " +:+ x
                               +:+ ". Actual value = " +:+ value v)%string |}
  end.

Definition kv_step (idx : Key → option nat) (s : kv_state) (args : list string) : result kv_state :=
  match args with
  | [] => Ok s
  | name :: _ =>
    if decide (name = "SET"%string) then kv_set idx s args
    else if decide (name = "DEL"%string) then kv_del idx s args
    else if decide (name = "COPY"%string) then kv_copy idx s args
    else if decide (name = "EQ"%string) then kv_eq idx s args
    else if decide (name = "SLEEP"%string) then a ← arg args 1; _ ← stoi (chars a); Ok s
    else Ok s
  end.

Section execution.
  Context (part : Key → Z) (local_partition : Z).

Definition is_local (k : Key) : bool := bool_decide (part k = local_partition).

Definition apply_write (st : Storage) (kv : KeyValueEntry) : Storage :=
  if negb (is_local (key kv)) || bool_decide (key_type kv = READ) then st
  else
    (Write st (key kv)
       (SetValue (new_value (value_entry kv))
         (SetMetadata (Metadata_of (metadata (value_entry kv))) empty_record))).1.

Definition ApplyWrites (t : Transaction) (st : Storage) : Storage :=
  foldl (λ st k, (Delete st k).1) (foldl apply_write st (keys t)) (deleted_keys t).

Definition kv_Execute (t : Transaction) (st : Storage) : result (Transaction * Storage) :=
  s ← rfoldl (kv_step (key_index (keys t)))
        {| kv_keys := keys t; kv_deleted := deleted_keys t; kv_aborted := false;
           kv_reason := EmptyString |} (procedures t);
  let t := set_deleted_keys (kv_deleted s) (set_keys (kv_keys s) t) in
  if kv_aborted s then Ok (set_abort_reason (kv_reason s) (set_status ABORTED t), st)
  else
    let t := set_status COMMITTED t in
    Ok (t, ApplyWrites t st).

Definition noop_Execute (t : Transaction) (st : Storage) : result (Transaction * Storage) :=
  Ok (set_status COMMITTED t, st).

End execution.

(** ** What a key-value program means

    A program assigns values to keys, by [SET] or by copying the value a key had
    before the transaction; it fails if one of its [EQ] tests does. *)

Definition find_entry (ks : list KeyValueEntry) (k : Key) : option ValueEntry :=
  value_entry <$> (i ← key_index ks k; ks !! i).

Definition writable (ks : list KeyValueEntry) (k : Key) : bool :=
  match find_entry ks k with Some v => bool_decide (type v = WRITE) | None => false end.

Definition kv_assign (ks : list KeyValueEntry) (args : list string) : option (Key * Value) :=
  match args with
  | name :: a :: b :: _ =>
    if decide (name = "SET"%string) then if writable ks a then Some (a, b) else None
    else if decide (name = "COPY"%string) then
      match find_entry ks a with
      | Some v => if writable ks b then Some (b, value v) else None
      | None => None
      end
    else None
  | _ => None
  end.

Definition kv_fails (ks : list KeyValueEntry) (args : list string) : bool :=
  match args with
  | name :: a :: b :: _ =>
    if decide (name = "EQ"%string) then
      match find_entry ks a with Some v => bool_decide (value v ≠ b) | None => false end
    else false
  | _ => false
  end.

(** A procedure has the arguments it reads and is not a [DEL], which the interpreter does not
    carry out ([kv_del_ignored]). *)
Definition well_formed (ks : list KeyValueEntry) (args : list string) : bool :=
  match args with
  | [] => true
  | name :: rest =>
    if decide (name ∈ ["SET"; "COPY"; "EQ"]%string) then bool_decide (2 ≤ length rest)
    else if decide (name = "DEL"%string) then false
    else if decide (name = "SLEEP"%string) then
      match rest with a :: _ => match stoi (chars a) with Ok _ => true | Err _ => false end | [] => false end
    else true
  end.

Definition assign_one (ks : list KeyValueEntry) (acc : Key → option Value) (args : list string) :
    Key → option Value :=
  match kv_assign ks args with
  | Some (k, x) => λ k', if decide (k = k') then Some x else acc k'
  | None => acc
  end.

(** The last value a program assigns to each key. *)
Definition kv_assigned (ks : list KeyValueEntry) (ps : list (list string)) : Key → option Value :=
  foldl (assign_one ks) (λ _, None) ps.

(** ** The interpreter computes it *)

Definition upd_entry (acc : Key → option Value) (kv : KeyValueEntry) : KeyValueEntry :=
  match acc (key kv) with
  | Some x => set_value_entry (set_new_value x (value_entry kv)) kv
  | None => kv
  end.

Lemma upd_entry_keeps acc kv :
  key (upd_entry acc kv) = key kv ∧ value (value_entry (upd_entry acc kv)) = value (value_entry kv) ∧
  type (value_entry (upd_entry acc kv)) = type (value_entry kv) ∧
  opt_metadata (value_entry (upd_entry acc kv)) = opt_metadata (value_entry kv).
Proof. unfold upd_entry. by destruct (acc (key kv)). Qed.

Lemma key_index_lookup ks k i : key_index ks k = Some i → ∃ kv, ks !! i = Some kv ∧ key kv = k.
Proof.
  unfold key_index. intros ([j kv] & (Hl & Hk & _)%list_find_Some & ->)%fmap_Some. eauto.
Qed.

Lemma find_entry_Some ks k v :
  NoDup (key <$> ks) → find_entry ks k = Some v ↔ ∃ kv, kv ∈ ks ∧ key kv = k ∧ value_entry kv = v.
Proof.
  intros Hnd. unfold find_entry, key_index. split.
  - intros (kv & H & ->)%fmap_Some. apply bind_Some in H as (i & Hi & Hl).
    apply fmap_Some in Hi as ([j kv'] & Hf & ->). apply list_find_Some in Hf as (Hj & Hk & _).
    simpl in Hl. simplify_eq. eauto using list_elem_of_lookup_2.
  - intros (kv & Hin & <- & <-). destruct (list_find_elem_of (λ kv', key kv' = key kv) ks kv Hin eq_refl)
      as ([i kv'] & Hf). rewrite Hf. simpl. apply list_find_Some in Hf as (Hi & Hk & _). rewrite Hi. simpl.
    apply list_elem_of_lookup in Hin as [j Hj]. f_equal. f_equal.
    assert (i = j) as ->; [|congruence].
    eapply NoDup_lookup; [done|..]; rewrite list_lookup_fmap; [by rewrite Hi|by rewrite Hj, Hk].
Qed.

Lemma set_entry_upd ks acc i kv x :
  NoDup (key <$> ks) → ks !! i = Some kv →
  set_entry_at (upd_entry acc <$> ks) i (set_new_value x (value_entry (upd_entry acc kv))) =
  upd_entry (λ k', if decide (key kv = k') then Some x else acc k') <$> ks.
Proof.
  intros Hnd Hi. unfold set_entry_at. apply list_eq. intros j. destruct (decide (i = j)) as [<-|Hne].
  - rewrite list_lookup_alter_eq, !list_lookup_fmap, Hi. simpl. f_equal.
    unfold upd_entry at 3. rewrite decide_True by done. unfold upd_entry.
    by destruct (acc (key kv)), kv.
  - rewrite list_lookup_alter_ne, !list_lookup_fmap by done.
    destruct (ks !! j) as [kv'|] eqn:Hj; [|done]. simpl. f_equal. unfold upd_entry.
    rewrite decide_False; [done|]. intros Hk. apply Hne. eapply NoDup_lookup; [done|..].
    + by rewrite list_lookup_fmap, Hi.
    + by rewrite list_lookup_fmap, Hj, Hk.
Qed.

Lemma find_entry_index ks k :
  find_entry ks k =
  match key_index ks k with Some i => value_entry <$> ks !! i | None => None end.
Proof. unfold find_entry. by destruct (key_index ks k). Qed.

Definition kv_ok (ks : list KeyValueEntry) (ds : list Key) (acc : Key → option Value) (ab : bool)
    (s : kv_state) : Prop :=
  kv_keys s = upd_entry acc <$> ks ∧ kv_deleted s = ds ∧ kv_aborted s = ab.

Lemma entry_at_upd ks acc i kv :
  ks !! i = Some kv → entry_at (upd_entry acc <$> ks) i = Ok (value_entry (upd_entry acc kv)).
Proof. intros Hi. unfold entry_at. by rewrite list_lookup_fmap, Hi. Qed.

Section steps.
  Context (ks : list KeyValueEntry) (ds : list Key) (Hnd : NoDup (key <$> ks)).
  Implicit Types (acc : Key → option Value) (s : kv_state).

(** The entry at a found index, and assigning to it. *)
Lemma entry_ok acc ab s k i :
  kv_ok ks ds acc ab s → key_index ks k = Some i →
  ∃ v v0, entry_at (kv_keys s) i = Ok v ∧ find_entry ks k = Some v0 ∧
    value v = value v0 ∧ type v = type v0 ∧
    ∀ x, kv_ok ks ds (λ k', if decide (k = k') then Some x else acc k') ab
           (with_keys s (set_entry_at (kv_keys s) i (set_new_value x v))).
Proof.
  intros (Hks & Hds & Hab) Hi. destruct (key_index_lookup _ _ _ Hi) as (kv & Hkv & <-).
  destruct (upd_entry_keeps acc kv) as (_ & Hv & Ht & _).
  exists (value_entry (upd_entry acc kv)), (value_entry kv). repeat split; try done.
  - rewrite Hks. by apply entry_at_upd.
  - by rewrite find_entry_index, Hi, Hkv.
  - simpl. rewrite Hks. by apply set_entry_upd.
Qed.

Lemma entry_missing k : key_index ks k = None → find_entry ks k = None.
Proof. rewrite find_entry_index. by intros ->. Qed.

Lemma kv_set_ok acc ab s a b rest :
  kv_ok ks ds acc ab s →
  ∃ s', kv_set (key_index ks) s ("SET" :: a :: b :: rest)%string = Ok s' ∧
    kv_ok ks ds (assign_one ks acc ("SET" :: a :: b :: rest)%string) ab s'.
Proof.
  intros Hs. unfold kv_set, assign_one, kv_assign, writable.
  rewrite (decide_True (P := "SET"%string = "SET"%string)) by done.
  cbn [arg lookup list_lookup from_option mbind result_bind].
  destruct (key_index ks a) as [i|] eqn:Hi; [|rewrite (entry_missing _ Hi); by eexists].
  destruct (entry_ok _ _ _ _ _ Hs Hi) as (v & v0 & Hv & -> & _ & Ht & Hset).
  rewrite Hv. cbn [mbind result_bind]. rewrite Ht.
  destruct (type v0); [rewrite decide_True by done; by eexists|].
  rewrite decide_False by (intros H; by apply H). eexists. split; [done|apply Hset].
Qed.

Lemma kv_copy_ok acc ab s a b rest :
  kv_ok ks ds acc ab s →
  ∃ s', kv_copy (key_index ks) s ("COPY" :: a :: b :: rest)%string = Ok s' ∧
    kv_ok ks ds (assign_one ks acc ("COPY" :: a :: b :: rest)%string) ab s'.
Proof.
  intros Hs. unfold kv_copy, assign_one, kv_assign, writable.
  rewrite (decide_False (P := "COPY"%string = "SET"%string)), (decide_True (P := "COPY"%string = "COPY"%string)) by done.
  cbn [arg lookup list_lookup from_option mbind result_bind].
  destruct (key_index ks a) as [i|] eqn:Hi; [|rewrite (entry_missing _ Hi); by eexists].
  destruct (entry_ok _ _ _ _ _ Hs Hi) as (v & v0 & Hv & -> & Hval & _ & _).
  destruct (key_index ks b) as [j|] eqn:Hj; [|rewrite (entry_missing _ Hj); by eexists].
  destruct (entry_ok _ _ _ _ _ Hs Hj) as (w & w0 & Hw & -> & _ & Ht & Hset).
  rewrite Hv. cbn [mbind result_bind]. rewrite Hw. cbn [mbind result_bind]. rewrite Ht, Hval.
  destruct (type w0); [rewrite decide_True by done; by eexists|].
  rewrite decide_False by (intros H; by apply H). eexists. split; [done|apply Hset].
Qed.

Lemma kv_eq_ok acc ab s a b rest :
  kv_ok ks ds acc ab s →
  ∃ s', kv_eq (key_index ks) s ("EQ" :: a :: b :: rest)%string = Ok s' ∧
    kv_ok ks ds acc (ab || kv_fails ks ("EQ" :: a :: b :: rest)%string) s'.
Proof.
  intros Hs. unfold kv_eq, kv_fails. rewrite (decide_True (P := "EQ"%string = "EQ"%string)) by done.
  cbn [arg lookup list_lookup from_option mbind result_bind].
  destruct (key_index ks a) as [i|] eqn:Hi.
  - destruct (entry_ok _ _ _ _ _ Hs Hi) as (v & v0 & Hv & -> & Hval & _ & _).
    rewrite Hv. cbn [mbind result_bind]. rewrite Hval. destruct (decide (value v0 = b)) as [Heq|Hne].
    + rewrite bool_decide_eq_false_2, orb_false_r by naive_solver. by eexists.
    + rewrite bool_decide_eq_true_2, orb_true_r by done. destruct Hs as (? & ? & _). by eexists.
  - rewrite (entry_missing _ Hi), orb_false_r. by eexists.
Qed.

Lemma kv_step_ok acc ab s args :
  kv_ok ks ds acc ab s → well_formed ks args = true →
  ∃ s', kv_step (key_index ks) s args = Ok s' ∧
    kv_ok ks ds (assign_one ks acc args) (ab || kv_fails ks args) s'.
Proof.
  intros Hs Hwf. assert (Hsame : kv_ok ks ds acc (ab || false) s) by by rewrite orb_false_r.
  destruct args as [|name rest]; [by eexists|]. unfold well_formed in Hwf.
  destruct (decide (name ∈ ["SET"; "COPY"; "EQ"]%string)) as [Hin|Hnin].
  - destruct rest as [|a [|b rest]]; [done|done|]. clear Hwf.
    repeat (apply elem_of_cons in Hin as [->|Hin]); [| | |by apply not_elem_of_nil in Hin].
    + change (kv_fails ks _) with false. rewrite orb_false_r. by apply kv_set_ok.
    + change (kv_fails ks _) with false. rewrite orb_false_r. by apply kv_copy_ok.
    + by apply kv_eq_ok.
  - rewrite !not_elem_of_cons in Hnin. destruct Hnin as (H1 & H2 & H3 & _).
    assert (Ha : kv_assign ks (name :: rest) = None).
    { unfold kv_assign. destruct rest as [|? [|??]]; [done..|]. by rewrite !decide_False. }
    assert (Hf : kv_fails ks (name :: rest) = false).
    { unfold kv_fails. destruct rest as [|? [|??]]; [done..|]. by rewrite !decide_False. }
    exists s. unfold assign_one. rewrite Ha, Hf. split; [|done].
    unfold kv_step. rewrite (decide_False _ _ H1), (decide_False _ _ H2), (decide_False _ _ H3).
    destruct (decide (name = "DEL"%string)); [done|destruct (decide (name = "SLEEP"%string)); [|done]].
    destruct rest as [|a rest]; [done|]. cbn. by destruct (stoi (chars a)).
Qed.

Lemma kv_run_ok ps acc ab s :
  kv_ok ks ds acc ab s → forallb (well_formed ks) ps = true →
  ∃ s', rfoldl (kv_step (key_index ks)) s ps = Ok s' ∧
    kv_ok ks ds (foldl (assign_one ks) acc ps) (ab || existsb (kv_fails ks) ps) s'.
Proof.
  revert acc ab s. induction ps as [|args ps IH]; intros acc ab s Hs Hwf.
  { exists s. by rewrite orb_false_r. }
  simpl in Hwf. apply andb_true_iff in Hwf as [Hw Hwf].
  destruct (kv_step_ok _ _ _ _ Hs Hw) as (s1 & H1 & Hs1). simpl. rewrite H1.
  destruct (IH _ _ _ Hs1 Hwf) as (s2 & H2 & Hs2). exists s2. split; [done|]. by rewrite orb_assoc.
Qed.
End steps.

(** ** The effect of a commit on the storage *)

Definition committed_record (v : ValueEntry) : StoredRecord :=
  {| metadata_ := Metadata_of (metadata v); data_ := Some (new_value v) |}.

Section commit.
  Context (part : Key → Z) (local_partition : Z).
  Abbreviation is_local := (is_local part local_partition).

Definition commits (ks : list KeyValueEntry) (k : Key) (v : ValueEntry) : Prop :=
  (∃ kv, kv ∈ ks ∧ key kv = k ∧ value_entry kv = v) ∧ is_local k = true ∧ type v = WRITE.

Lemma apply_write_lookup st kv k :
  apply_write part local_partition st kv !! k =
  if decide (key kv = k ∧ is_local k = true ∧ key_type kv = WRITE)
  then Some (committed_record (value_entry kv)) else st !! k.
Proof.
  unfold apply_write, Write. destruct (is_local (key kv)) eqn:Hl; simpl.
  - unfold key_type. destruct (type (value_entry kv)) eqn:Ht; simpl.
    + rewrite decide_False; [done|]. naive_solver.
    + rewrite lookup_insert. case_decide as Hk.
      * subst. by rewrite decide_True.
      * by rewrite decide_False by naive_solver.
  - rewrite decide_False; [done|]. intros (<- & ? & _). congruence.
Qed.

Lemma apply_writes_other st ks k :
  (∀ v, ¬ commits ks k v) → foldl (apply_write part local_partition) st ks !! k = st !! k.
Proof.
  revert st. induction ks as [|kv ks IH]; intros st Hno; simpl; [done|].
  rewrite IH, apply_write_lookup.
  - rewrite decide_False; [done|]. intros (Hk & Hl & Ht). apply (Hno (value_entry kv)).
    split; [|done]. exists kv. split; [left|done].
  - intros v [(kv' & ? & ?) ?]. apply (Hno v). split; [|done]. exists kv'. split; [by right|done].
Qed.

Lemma apply_writes_commit st ks k v :
  NoDup (key <$> ks) → commits ks k v →
  foldl (apply_write part local_partition) st ks !! k = Some (committed_record v).
Proof.
  revert st. induction ks as [|kv ks IH]; intros st Hnd [(kv' & Hin & Hk & Hv) [Hl Ht]]; simpl.
  { by apply not_elem_of_nil in Hin. }
  rewrite fmap_cons in Hnd. apply NoDup_cons in Hnd as [Hni Hnd].
  apply elem_of_cons in Hin as [->|Hin].
  - rewrite apply_writes_other, apply_write_lookup.
    + rewrite decide_True; [by rewrite Hv|]. subst. by unfold key_type.
    + intros v' [(kv2 & Hin2 & Hk2 & _) _]. apply Hni, list_elem_of_fmap. exists kv2. split; congruence.
  - apply IH; [done|]. split; [|done]. by exists kv'.
Qed.

Lemma delete_all_lookup st ks k :
  foldl (λ st k, (Delete st k).1) st ks !! k = if decide (k ∈ ks) then None else st !! k.
Proof.
  revert st. induction ks as [|k' ks IH]; intros st; simpl; [done|].
  rewrite IH. destruct (decide (k ∈ ks)) as [Hin|Hni].
  - rewrite decide_True; [done|]. by right.
  - destruct (decide (k = k')) as [->|Hne].
    + rewrite lookup_delete_eq, decide_True; [done|left].
    + rewrite lookup_delete_ne by done. rewrite decide_False; [done|].
      rewrite elem_of_cons. naive_solver.
Qed.

(** The value a key gets when the program commits. *)
Definition final_value (t : Transaction) (k : Key) (v : ValueEntry) : Value :=
  default (new_value v) (kv_assigned (keys t) (procedures t) k).

(** C32. Executing a key-value transaction whose keys are distinct, whose procedures have
    their arguments and are no [DEL], and which carries no deleted keys always finishes. It
    aborts, leaving the storage unchanged, if and only if one of its equality tests fails on
    the values read. Otherwise it commits: every local key declared for writing gets the last
    value the program assigned to it (the one set, or the value the source of a copy had
    before the transaction) together with the metadata of the transaction, and every other
    key keeps its record. Programs with a [DEL] are left out because the interpreter does not
    delete: see [kv_del_ignored] and [kv_never_deletes]. *)
Theorem kv_execute_spec (t : Transaction) (st : Storage) :
  NoDup (key <$> keys t) → deleted_keys t = [] →
  forallb (well_formed (keys t)) (procedures t) = true →
  ∃ t' st', kv_Execute part local_partition t st = Ok (t', st') ∧
    if existsb (kv_fails (keys t)) (procedures t) then status t' = ABORTED ∧ st' = st
    else status t' = COMMITTED ∧
      (∀ k v, commits (keys t) k v →
        st' !! k = Some (committed_record (set_new_value (final_value t k v) v))) ∧
      (∀ k, (∀ v, ¬ commits (keys t) k v) → st' !! k = st !! k) ∧ deleted_keys t' = [].
Proof.
  intros Hnd Hdel Hwf. unfold kv_Execute.
  set (s0 := {| kv_keys := keys t; kv_deleted := deleted_keys t; kv_aborted := false; kv_reason := EmptyString |}).
  assert (Hs0 : kv_ok (keys t) [] (λ _, None) false s0).
  { split; [|done]. simpl. symmetry. apply list_fmap_id. }
  destruct (kv_run_ok _ _ Hnd _ _ _ _ Hs0 Hwf) as (s' & -> & Hks & Hds & Hab).
  cbn [mbind result_bind]. rewrite Hab, Hds, Hks. simpl.
  destruct (existsb _ _); [by eexists _, _|]. eexists _, _. split; [done|]. split; [done|].
  fold (kv_assigned (keys t) (procedures t)). set (acc := kv_assigned (keys t) (procedures t)).
  assert (Hc : ∀ k v, commits (keys t) k v → commits (upd_entry acc <$> keys t) k
    (set_new_value (final_value t k v) v)).
  { intros k v [(kv & Hin & <- & <-) [Hl Ht]]. split; [|done]. exists (upd_entry acc kv).
    split; [by apply list_elem_of_fmap_2|]. split; [by apply upd_entry_keeps|].
    unfold upd_entry, final_value. fold acc. destruct (acc (key kv)); simpl; [done|].
    by destruct (value_entry kv). }
  split_and!; [| |done].
  - intros k v Hcv%Hc. unfold ApplyWrites. simpl. apply apply_writes_commit; [|done].
    rewrite <-list_fmap_compose. erewrite list_fmap_ext; [exact Hnd|]. intros i kv _. apply upd_entry_keeps.
  - intros k Hno. unfold ApplyWrites. simpl. apply apply_writes_other.
    intros v [(kv & Hin & Hk & Hv) [Hl Ht]]. apply list_elem_of_fmap in Hin as (kv0 & -> & Hin).
    destruct (upd_entry_keeps acc kv0) as (Hk0 & _ & Ht0 & _).
    apply (Hno (value_entry kv0)). split; [exists kv0; split; [done|]; split; congruence|].
    split; [done|congruence].
Qed.

(** Run a computation of the error monad up to its next test. *)
Ltac run_binds :=
  repeat match goal with
  | |- context [mbind _ ?m] => destruct m; cbn [mbind result_bind]; [|discriminate]
  end.

Lemma kv_step_deleted idx s args s' : kv_step idx s args = Ok s' → kv_deleted s' = kv_deleted s.
Proof.
  unfold kv_step, kv_set, kv_del, kv_copy, kv_eq. destruct args as [|name args]; [by intros [= <-]|].
  generalize (name :: args) as l. intros l.
  repeat match goal with |- context [decide (name = ?n)] => destruct (decide (name = n)) as [_|_] end.
  all: run_binds; repeat (case_match; run_binds); intros [= <-]; done.
Qed.

Lemma kv_run_deleted idx ps s s' : rfoldl (kv_step idx) s ps = Ok s' → kv_deleted s' = kv_deleted s.
Proof.
  revert s. induction ps as [|args ps IH]; intros s; simpl; [by intros [= <-]|].
  destruct (kv_step idx s args) as [s1|] eqn:H1; cbn; [|done].
  intros ->%IH. by eapply kv_step_deleted.
Qed.

Lemma apply_writes_dom st ks : dom st ⊆ dom (foldl (apply_write part local_partition) st ks).
Proof.
  revert st. induction ks as [|kv ks IH]; intros st; simpl; [done|].
  etrans; [|apply IH]. intros k. rewrite !elem_of_dom, apply_write_lookup. by case_decide.
Qed.

(** What [DEL] does: nothing for a key of the transaction, whatever its type; for any other
    key the execution fails. *)
Lemma kv_del_ignored ks s k rest :
  kv_step (key_index ks) s ("DEL"%string :: k :: rest) =
    match find_entry ks k with Some _ => Ok s | None => Err (Undef "dereference of key_index.end()") end.
Proof.
  unfold kv_step, kv_del. simpl. rewrite find_entry_index. destruct (key_index ks k) as [i|] eqn:E; [|done].
  destruct (key_index_lookup _ _ _ E) as (kv & Hkv & _). by rewrite Hkv.
Qed.

(** No key-value program ever deletes a record, not even one with [DEL] commands:
    whenever the execution finishes, the list of deleted keys is still empty and every
    key of the storage is still there. *)
Theorem kv_never_deletes (t t' : Transaction) (st st' : Storage) :
  kv_Execute part local_partition t st = Ok (t', st') → deleted_keys t = [] →
  deleted_keys t' = [] ∧ dom st ⊆ dom st'.
Proof.
  unfold kv_Execute. intros H Hdel.
  destruct (rfoldl _ _ _) as [s|] eqn:Hs; cbn in H; [|done].
  apply kv_run_deleted in Hs. simpl in Hs. rewrite Hdel in Hs.
  destruct (kv_aborted s); simplify_eq/=; [done|]. split; [done|].
  unfold ApplyWrites. simpl. rewrite Hs. simpl. apply apply_writes_dom.
Qed.
End commit.

(** A transfer: two accounts are swapped and a third key is tested. *)
Definition example_code : list (list string) :=
  [["EQ"; "c"; ""]; ["COPY"; "a"; "b"]; ["SET"; "a"; "1"]]%string.

Definition example_kv : Transaction :=
  make_txn 1 SINGLE_HOME 0 (kCode example_code)
    [make_entry "a" WRITE 0 0; make_entry "b" WRITE 0 0; make_entry "c" READ 0 0].

Lemma kv_execute_spec_witness :
  ∃ t' st', kv_Execute (λ _, 0%Z) 0 example_kv ∅ = Ok (t', st') ∧ status t' = COMMITTED ∧
    data_ <$> st' !! "a"%string = Some (Some "1"%string).
Proof.
  destruct (kv_execute_spec (λ _, 0%Z) 0 example_kv ∅) as (t' & st' & He & Hst & Hw & _).
  - by apply (bool_decide_eq_true_1 _); vm_compute.
  - done.
  - by vm_compute.
  - exists t', st'. split; [done|]. split; [done|].
    rewrite (Hw "a"%string (value_entry (make_entry "a" WRITE 0 0))); [by vm_compute|].
    split; [|done]. eexists. split; [left|done].
Defined.

(** The same with a [DEL] of a key it writes. *)
Definition deleting_kv : Transaction :=
  make_txn 1 SINGLE_HOME 0 (kCode (example_code ++ [["DEL"; "a"]%string]))
    [make_entry "a" WRITE 0 0; make_entry "b" WRITE 0 0; make_entry "c" READ 0 0].

Lemma kv_never_deletes_witness :
  ∃ t' st', kv_Execute (λ _, 0%Z) 0 deleting_kv {["a"%string := empty_record]} = Ok (t', st') ∧
    deleted_keys t' = [] ∧ "a"%string ∈ dom st'.
Proof.
  destruct (kv_Execute (λ _, 0%Z) 0 deleting_kv {["a"%string := empty_record]}) as [[t' st']|f] eqn:He.
  - exists t', st'. destruct (kv_never_deletes _ _ _ _ _ _ He eq_refl) as [Hd Hdom].
    split; [done|]. split; [done|]. apply Hdom. apply elem_of_dom. by eexists.
  - exfalso. vm_compute in He. discriminate He.
Defined.
