(* ===== verification/Remaster.v ===== *)
(** * The remaster managers

    [module/scheduler_components/remaster_manager.h] and
    [simple_remaster_manager.cpp]: a transaction whose metadata is ahead of the
    storage waits for the remaster transaction that brings the storage up to date.
    The storage is an argument of every call; a transaction object is identified by
    its value. The order in which [RemasterOccured] visits the queues is that of an
    [unordered_map], so it is an argument too. *)
From S2P Require Import Prelude Types StringUtils Execution.

Inductive VerifyMasterResult := VALID | VM_WAITING | VM_ABORT.

#[global] Instance VerifyMasterResult_eq_dec : EqDecision VerifyMasterResult.
Proof. solve_decision. Defined.

Record RemasterOccurredResult := {
  unblocked : list Transaction;
  should_abort : list Transaction
}.

Definition no_result : RemasterOccurredResult := {| unblocked := []; should_abort := [] |}.

(** ** [RemasterManager::CheckCounters] *)

(** A default record, with counter and master 0, stands for a missing key. *)
Definition stored_metadata (st : Storage) (k : Key) : Metadata :=
  metadata_ (default empty_record (Read st k)).

Definition home_key (h : Z) (kv : KeyValueEntry) : bool := bool_decide (i32 (key_master kv) = h).

Fixpoint check_keys (st : Storage) (filter_by_home : bool) (h : Z) (waiting : bool)
    (ks : list KeyValueEntry) : result VerifyMasterResult :=
  match ks with
  | [] => Ok (if waiting then VM_WAITING else VALID)
  | kv :: ks =>
    if filter_by_home && negb (home_key h kv) then check_keys st filter_by_home h waiting ks
    else
      let m := metadata (value_entry kv) in
      let stored := stored_metadata st (key kv) in
      if decide (counter m < md_counter stored)%Z then Ok VM_ABORT
      else if decide (md_counter stored < counter m)%Z then check_keys st filter_by_home h true ks
      else if decide (master m = md_master stored) then check_keys st filter_by_home h waiting ks
      else Err (Fatal "Masters don't match for same key")
  end.

Definition CheckCounters (st : Storage) (t : Transaction) (filter_by_home : bool) :
    result VerifyMasterResult :=
  check_keys st filter_by_home (home (internal t)) false (keys t).

(** ** [SimpleRemasterManager] *)

(** One queue per home region; the key is the [uint32_t] of the home. *)
Abbreviation blocked := (gmap Z (list Transaction)) (only parsing).

Definition queue (q : blocked) (h : Z) : list Transaction := default [] (q !! h).

Definition VerifyMaster (st : Storage) (q : blocked) (t : Transaction) :
    result (blocked * VerifyMasterResult) :=
  match keys t with
  | [] => Ok (q, VALID)
  | _ =>
    let h := u32 (home (internal t)) in
    match queue q h with
    | _ :: _ => Ok (<[h := queue q h ++ [t]]> q, VM_WAITING)
    | [] =>
      r ← CheckCounters st t true;
      if decide (r = VM_WAITING) then Ok (<[h := queue q h ++ [t]]> q, r) else Ok (q, r)
    end
  end.

(** [TryToUnblock] pops one transaction per call of itself, so it is the following
    recursion on the queue; the result lists grow at their ends. *)
Fixpoint unblock_queue (st : Storage) (l : list Transaction) (res : RemasterOccurredResult) :
    result (list Transaction * RemasterOccurredResult) :=
  match l with
  | [] => Ok ([], res)
  | t :: l' =>
    r ← CheckCounters st t true;
    match r with
    | VM_WAITING => Ok (l, res)
    | VALID =>
      unblock_queue st l' {| unblocked := unblocked res ++ [t]; should_abort := should_abort res |}
    | VM_ABORT =>
      unblock_queue st l' {| unblocked := unblocked res; should_abort := should_abort res ++ [t] |}
    end
  end.

Definition TryToUnblock (st : Storage) (q : blocked) (h : Z) (res : RemasterOccurredResult) :
    result (blocked * RemasterOccurredResult) :=
  match q !! h with
  | None => Ok (q, res)
  | Some l => '(l', res) ← unblock_queue st l res; Ok (<[h := l']> q, res)
  end.

(** The test of the front transaction in [RemasterOccured]. *)
Definition waits_for (k : Key) (t : Transaction) : bool :=
  existsb (λ kv, home_key (home (internal t)) kv && bool_decide (key kv = k)) (keys t).

Definition visit_queue (st : Storage) (k : Key) (s : blocked * RemasterOccurredResult) (h : Z) :
    result (blocked * RemasterOccurredResult) :=
  match queue s.1 h with
  | t :: _ => if waits_for k t then TryToUnblock st s.1 h s.2 else Ok s
  | [] => Ok s
  end.

Definition RemasterOccured (st : Storage) (q : blocked) (order : list Z) (k : Key) :
    result (blocked * RemasterOccurredResult) :=
  rfoldl (visit_queue st k) (q, no_result) order.

(** Erase the first transaction with the id. *)
Fixpoint erase_id (i : TxnId) (l : list Transaction) : list Transaction :=
  match l with
  | [] => []
  | t :: l => if decide (txn_id t = i) then l else t :: erase_id i l
  end.

Definition erase_from (i : TxnId) (q : blocked) (r : Z) : blocked :=
  match q !! r with
  | Some ((_ :: _) as l) => <[r := erase_id i l]> q
  | _ => q
  end.

Definition ReleaseTransaction (st : Storage) (q : blocked) (t : Transaction) :
    result (blocked * RemasterOccurredResult) :=
  let rs := involved_replicas (internal t) in
  let q := foldl (erase_from (txn_id t)) q rs in
  rfoldl (λ s r, TryToUnblock st s.1 r s.2) (q, no_result) rs.

(** ** Runs of the simple manager

    Besides the storage and the queues, the state of a run records the transactions
    that arrived with keys, those let through and told to abort so far, and the ids
    released. *)

Definition res_app (r1 r2 : RemasterOccurredResult) : RemasterOccurredResult :=
  {| unblocked := unblocked r1 ++ unblocked r2; should_abort := should_abort r1 ++ should_abort r2 |}.

Definition verify_result (t : Transaction) (r : VerifyMasterResult) : RemasterOccurredResult :=
  match r with
  | VALID => {| unblocked := [t]; should_abort := [] |}
  | VM_ABORT => {| unblocked := []; should_abort := [t] |}
  | VM_WAITING => no_result
  end.

(** The storage changed at most in the metadata of one key. *)
Definition same_except (k : Key) (st st' : Storage) : Prop :=
  ∀ k', k' ≠ k → stored_metadata st' k' = stored_metadata st k'.

Record run := {
  storage : Storage;
  queues : blocked;
  arrived : list Transaction;
  left : RemasterOccurredResult;
  released_ids : list TxnId
}.

Inductive rm_step : run → run → Prop :=
  | rm_verify s t q r :
      keys t ≠ [] → VerifyMaster (storage s) (queues s) t = Ok (q, r) →
      rm_step s {| storage := storage s; queues := q; arrived := arrived s ++ [t];
                   left := res_app (left s) (verify_result t r); released_ids := released_ids s |}
  | rm_remaster s st k order q r :
      same_except k (storage s) st → order ≡ₚ elements (dom (queues s)) →
      RemasterOccured st (queues s) order k = Ok (q, r) →
      rm_step s {| storage := st; queues := q; arrived := arrived s;
                   left := res_app (left s) r; released_ids := released_ids s |}
  | rm_release s t q r :
      ReleaseTransaction (storage s) (queues s) t = Ok (q, r) →
      rm_step s {| storage := storage s; queues := q; arrived := arrived s;
                   left := res_app (left s) r; released_ids := txn_id t :: released_ids s |}.

Definition run_init (st : Storage) : run :=
  {| storage := st; queues := ∅; arrived := []; left := no_result; released_ids := [] |}.

Definition rm_reachable (s : run) : Prop := ∃ st, rtc rm_step (run_init st) s.

(** ** Order and completeness *)

Definition of_home (h : Z) (l : list Transaction) : list Transaction :=
  filter (λ t, u32 (home (internal t)) = h) l.

(** One operation moves a prefix of each queue to the results, erasing at most
    transactions with released ids. *)
Record moves (rel : list TxnId) (added : list Transaction) (q q' : blocked)
    (r : RemasterOccurredResult) : Prop := {
  mv_order h : of_home h (unblocked r) ++ queue q' h `sublist_of` queue q h ++ of_home h added;
  mv_all h t : t ∈ queue q h ++ of_home h added →
    t ∈ unblocked r ∨ t ∈ should_abort r ∨ t ∈ queue q' h ∨ txn_id t ∈ rel
}.

(** Every queue holds transactions of its home only. *)
Definition homed (q : blocked) : Prop :=
  ∀ h, Forall (λ t, u32 (home (internal t)) = h) (queue q h).

Lemma queue_insert q h l h' : queue (<[h := l]> q) h' = if decide (h = h') then l else queue q h'.
Proof. unfold queue. rewrite lookup_insert. by case_decide. Qed.

Lemma of_home_app h l1 l2 : of_home h (l1 ++ l2) = of_home h l1 ++ of_home h l2.
Proof. apply filter_app. Qed.

Lemma of_home_one h t : of_home h [t] = if decide (u32 (home (internal t)) = h) then [t] else [].
Proof. unfold of_home. rewrite filter_cons. by case_decide. Qed.

(** What [TryToUnblock] does to one queue. *)
Lemma unblock_queue_spec st l res l' res' :
  unblock_queue st l res = Ok (l', res') →
  ∃ us ds, unblocked res' = unblocked res ++ us ∧ should_abort res' = should_abort res ++ ds ∧
    us ++ l' `sublist_of` l ∧ (∀ t, t ∈ l → t ∈ us ∨ t ∈ ds ∨ t ∈ l') ∧
    (∀ t l0, l' = t :: l0 → CheckCounters st t true = Ok VM_WAITING).
Proof.
  revert res. induction l as [|t l IH]; intros res; cbn [unblock_queue].
  { intros [= <- <-]. exists [], []. rewrite !app_nil_r. set_solver. }
  destruct (CheckCounters st t true) as [[]|] eqn:Hc; cbn [mbind result_bind]; [| | |done].
  - intros (us & ds & Hu & Hd & Hs & Hall & Hh)%IH. exists (t :: us), ds.
    rewrite Hu, Hd. simpl. rewrite <-app_assoc. repeat split; [by apply sublist_skip| |done].
    intros t' [->|Ht]%elem_of_cons; [left; left|]. destruct (Hall _ Ht) as [?|[?|?]]; [|auto..].
    left. by right.
  - intros [= <- <-]. exists [], []. rewrite !app_nil_r. repeat split; [done|auto|].
    by intros ? ? [= -> ->].
  - intros (us & ds & Hu & Hd & Hs & Hall & Hh)%IH. exists us, (t :: ds).
    rewrite Hu, Hd. simpl. rewrite <-app_assoc. repeat split; [by apply sublist_cons| |done].
    intros t' [->|Ht]%elem_of_cons; [right; left; left|]. destruct (Hall _ Ht) as [?|[?|?]]; [auto| |auto].
    right. left. by right.
Qed.

Lemma of_home_all h l : Forall (λ t, u32 (home (internal t)) = h) l → of_home h l = l.
Proof. intros Hl. apply filter_all. by rewrite Forall_forall in Hl. Qed.

Lemma of_home_other h h' l :
  h ≠ h' → Forall (λ t, u32 (home (internal t)) = h) l → of_home h' l = [].
Proof.
  intros Hne Hl. apply filter_none. rewrite Forall_forall in Hl. intros t Ht%Hl. congruence.
Qed.

Lemma moves_refl rel q : moves rel [] q q no_result.
Proof. split; intros; simpl in *; rewrite app_nil_r in *; auto. Qed.

Lemma moves_trans rel added q q1 q2 r1 r2 :
  moves rel added q q1 r1 → moves rel [] q1 q2 r2 → moves rel added q q2 (res_app r1 r2).
Proof.
  intros [Ho1 Ha1] [Ho2 Ha2]. split.
  - intros h. simpl. rewrite of_home_app, <-app_assoc. specialize (Ho2 h). rewrite app_nil_r in Ho2.
    etrans; [|apply Ho1]. by apply sublist_app.
  - intros h t Ht. simpl. rewrite !elem_of_app. destruct (Ha1 h t Ht) as [?|[?|[Hq|?]]]; auto.
    assert (Ht2 : t ∈ queue q1 h ++ of_home h []) by (rewrite elem_of_app; auto).
    destruct (Ha2 h t Ht2) as [?|[?|[?|?]]]; auto.
Qed.

Lemma Forall_sublist {A} (P : A → Prop) l1 l2 : l1 `sublist_of` l2 → Forall P l2 → Forall P l1.
Proof. rewrite !Forall_forall. intros Hs HP x Hx. eapply HP, sublist_subseteq; eauto. Qed.

Lemma moves_homed rel added q q' r : homed q → moves rel added q q' r → homed q'.
Proof.
  intros Hq [Ho _] h. specialize (Ho h). eapply Forall_sublist.
  { etrans; [|apply Ho]. apply sublist_inserts_l. reflexivity. }
  apply Forall_app. split; [apply Hq|]. apply Forall_forall. intros t Ht.
  by apply list_elem_of_filter in Ht as [? _].
Qed.

Lemma TryToUnblock_moves rel st q h res q' res' :
  homed q → TryToUnblock st q h res = Ok (q', res') →
  ∃ r, res' = res_app res r ∧ moves rel [] q q' r ∧
    (∀ t l, queue q' h = t :: l → CheckCounters st t true = Ok VM_WAITING) ∧
    (∀ h', h' ≠ h → queue q' h' = queue q h').
Proof.
  intros Hq. unfold TryToUnblock. destruct (q !! h) as [l|] eqn:Hl.
  2: { intros [= <- <-]. exists no_result. split; [destruct res; unfold res_app; simpl; by rewrite !app_nil_r|].
       split; [apply moves_refl|]. unfold queue. by rewrite Hl. }
  destruct (unblock_queue st l res) as [[l' r']|] eqn:Hu; cbn [mbind result_bind]; [|done].
  intros [= <- <-]. apply unblock_queue_spec in Hu as (us & ds & Hus & Hds & Hs & Hall & Hh).
  assert (Hql : queue q h = l) by (unfold queue; by rewrite Hl).
  assert (Hhl : Forall (λ t, u32 (home (internal t)) = h) us).
  { eapply Forall_sublist; [|apply (Hq h)]. rewrite Hql. etrans; [|apply Hs]. apply sublist_inserts_r. reflexivity. }
  exists {| unblocked := us; should_abort := ds |}. repeat split.
  - destruct r'; unfold res_app; simpl in *. congruence.
  - intros h'. simpl. rewrite app_nil_r, queue_insert. case_decide as Hd.
    + subst h'. by rewrite of_home_all, Hql.
    + by rewrite (of_home_other h).
  - intros h' t. rewrite app_nil_r, queue_insert. case_decide as Hd; simpl; [|auto].
    subst h'. rewrite Hql. intros Ht. destruct (Hall t Ht) as [?|[?|?]]; auto.
  - intros t l0. rewrite queue_insert, decide_True by done. apply Hh.
  - intros h' Hne. by rewrite queue_insert, decide_False by done.
Qed.

Lemma erase_id_sublist i l : erase_id i l `sublist_of` l.
Proof.
  induction l as [|t l IH]; simpl; [done|]. case_decide; [by apply sublist_cons|by apply sublist_skip].
Qed.

Lemma erase_id_elem i l t : t ∈ l → t ∈ erase_id i l ∨ txn_id t = i.
Proof.
  induction l as [|t' l IH]; simpl; [by intros ?%not_elem_of_nil|].
  intros [->|Ht]%elem_of_cons; case_decide; auto; [left; left|].
  destruct (IH Ht); [left; by right|auto].
Qed.

Lemma erase_from_moves i q r : moves [i] [] q (erase_from i q r) no_result.
Proof.
  unfold erase_from. destruct (q !! r) as [[|t l]|] eqn:Hr; [apply moves_refl| |apply moves_refl].
  assert (Hq : queue q r = t :: l) by (unfold queue; by rewrite Hr). split.
  - intros h. simpl of_home. rewrite app_nil_r, queue_insert. case_decide; [subst h|done].
    rewrite Hq. apply (erase_id_sublist i (t :: l)).
  - intros h t'. rewrite app_nil_r, queue_insert. case_decide; [subst h|auto].
    rewrite Hq. intros [?| ->]%(erase_id_elem i); [auto|]. rewrite list_elem_of_singleton. auto.
Qed.

Lemma erase_all_moves i q rs : moves [i] [] q (foldl (erase_from i) q rs) no_result.
Proof.
  revert q. induction rs as [|r rs IH]; intros q; simpl; [apply moves_refl|].
  change no_result with (res_app no_result no_result).
  eapply moves_trans; [apply erase_from_moves|apply IH].
Qed.

(** ** The front transaction of every queue waits for the storage *)

Definition head_waits (st : Storage) (q : blocked) (h : Z) : Prop :=
  ∀ t l, queue q h = t :: l → CheckCounters st t true = Ok VM_WAITING.

Lemma res_app_nil r : res_app r no_result = r.
Proof. destruct r. unfold res_app. simpl. by rewrite !app_nil_r. Qed.

Lemma res_app_nil_l r : res_app no_result r = r.
Proof. by destruct r. Qed.

Lemma res_app_assoc r1 r2 r3 : res_app (res_app r1 r2) r3 = res_app r1 (res_app r2 r3).
Proof. unfold res_app. simpl. by rewrite !app_assoc. Qed.

(** A loop that treats one queue after the other. [done_ok] holds of a queue once it has
    been treated and depends on that queue only. *)
Section loop.
  Context (rel : list TxnId) (st : Storage).
  Context (body : blocked * RemasterOccurredResult → Z → result (blocked * RemasterOccurredResult)).
  Context (pre : Z → list Transaction → Prop).
  Hypothesis body_ok : ∀ q res h q' res', homed q → pre h (queue q h) →
    body (q, res) h = Ok (q', res') →
    ∃ r, res' = res_app res r ∧ moves rel [] q q' r ∧ head_waits st q' h ∧ pre h (queue q' h) ∧
      ∀ h', h' ≠ h → queue q' h' = queue q h'.

Lemma queue_loop_moves hs q res q' res' :
  homed q → (∀ h, pre h (queue q h)) → rfoldl body (q, res) hs = Ok (q', res') →
  ∃ r, res' = res_app res r ∧ moves rel [] q q' r ∧ (∀ h, h ∈ hs → head_waits st q' h) ∧
    ∀ h, h ∉ hs → queue q' h = queue q h.
Proof.
  revert q res. induction hs as [|h hs IH]; intros q res Hq Hpre; simpl.
  { intros [= <- <-]. exists no_result. rewrite res_app_nil. split; [done|].
    split; [apply moves_refl|]. split; [|done]. by intros h ?%not_elem_of_nil. }
  destruct (body (q, res) h) as [[q1 res1]|] eqn:Hb; cbn [mbind result_bind]; [|done].
  destruct (body_ok _ _ _ _ _ Hq (Hpre h) Hb) as (r1 & -> & Hm1 & Hh1 & Hp1 & Hs1). intros Hf.
  apply IH in Hf as (r2 & -> & Hm2 & Hh2 & Hs2); [|by eapply moves_homed|].
  2: { intros h'. destruct (decide (h' = h)) as [->|]; [done|]. rewrite Hs1 by done. apply Hpre. }
  exists (res_app r1 r2). rewrite res_app_assoc. split; [done|].
  split; [by eapply moves_trans|]. split.
  - intros h' [->|Hin]%elem_of_cons; [|auto]. destruct (decide (h ∈ hs)) as [|Hni]; [auto|].
    intros t l. rewrite (Hs2 h Hni). apply Hh1.
  - intros h' [Hne Hni]%not_elem_of_cons. by rewrite Hs2, Hs1.
Qed.
End loop.

Lemma check_keys_same st st' k b h ks :
  same_except k st st' →
  existsb (λ kv, home_key h kv && bool_decide (key kv = k)) ks = false →
  check_keys st' true h b ks = check_keys st true h b ks.
Proof.
  intros Hsame. revert b. induction ks as [|kv ks IH]; intros b Hw; simpl in *; [done|].
  apply orb_false_iff in Hw as [Hk Hw]. destruct (home_key h kv); simpl in *; [|by apply IH].
  bools. rewrite Hsame by done. repeat case_decide; auto.
Qed.

Lemma CheckCounters_same st st' k t :
  same_except k st st' → waits_for k t = false → CheckCounters st' t true = CheckCounters st t true.
Proof. apply check_keys_same. Qed.

Lemma remaster_moves rel st st' q order k q' r :
  homed q → (∀ h, head_waits st q h) → same_except k st st' → order ≡ₚ elements (dom q) →
  RemasterOccured st' q order k = Ok (q', r) →
  moves rel [] q q' r ∧ ∀ h, head_waits st' q' h.
Proof.
  intros Hq Hh Hsame Ho Hr.
  set (pre := λ (h : Z) (l : list Transaction), ∀ t l', l = t :: l' → waits_for k t = false →
    CheckCounters st' t true = Ok VM_WAITING).
  destruct (queue_loop_moves rel st' (visit_queue st' k) pre) with order q no_result q' r
    as (r' & -> & Hm & Hin & Hout); [|done| |done|].
  - clear. intros q res h q' res' Hq Hpre. unfold visit_queue. simpl.
    destruct (queue q h) as [|t l] eqn:Hqh.
    { intros [= <- <-]. exists no_result. rewrite res_app_nil. split; [done|]. split; [apply moves_refl|].
      unfold head_waits. rewrite Hqh. split; [by intros ??|]. split; [by intros ??|done]. }
    destruct (waits_for k t) eqn:Hw.
    + intros (r & -> & ? & Hhw & ?)%(TryToUnblock_moves rel); [|done].
      exists r. split; [done|]. split; [done|]. split; [done|]. split; [|done].
      intros t' l' Hl' _. by eapply Hhw.
    + intros [= <- <-]. exists no_result. rewrite res_app_nil. split; [done|].
      split; [apply moves_refl|]. unfold head_waits. rewrite Hqh. split; [|done].
      intros t' l' [= <- <-]. by eapply Hpre.
  - intros h t l Hl Hw. rewrite (CheckCounters_same st) with (k := k) by done. by eapply Hh.
  - rewrite res_app_nil_l. split; [done|]. intros h. destruct (decide (h ∈ order)) as [|Hni]; [auto|].
    assert (Hnil : queue q h = []).
    { rewrite Ho, elem_of_elements, not_elem_of_dom in Hni. unfold queue. by rewrite Hni. }
    intros t l. by rewrite (Hout h Hni), Hnil.
Qed.

Lemma erase_all_other i q rs h : h ∉ rs → queue (foldl (erase_from i) q rs) h = queue q h.
Proof.
  revert q. induction rs as [|r rs IH]; intros q; simpl; [done|].
  intros [Hne Hni]%not_elem_of_cons. rewrite IH by done. unfold erase_from.
  destruct (q !! r) as [[|t l]|]; [done| |done]. by rewrite queue_insert, decide_False by done.
Qed.

Lemma release_moves st q t q' r :
  homed q → (∀ h, head_waits st q h) → ReleaseTransaction st q t = Ok (q', r) →
  moves [txn_id t] [] q q' r ∧ ∀ h, head_waits st q' h.
Proof.
  intros Hq Hh. unfold ReleaseTransaction. set (rs := involved_replicas (internal t)).
  set (q1 := foldl (erase_from (txn_id t)) q rs). intros Hf.
  pose proof (erase_all_moves (txn_id t) q rs) as Hm1. fold q1 in Hm1.
  destruct (queue_loop_moves [txn_id t] st (λ s r, TryToUnblock st s.1 r s.2) (λ _ _, True))
    with rs q1 no_result q' r as (r' & -> & Hm & Hin & Hout); [|by eapply moves_homed|done|done|].
  - clear. intros q res h q' res' Hq _ (r & -> & ? & ? & ?)%(TryToUnblock_moves [txn_id t]); [|done].
    exists r. auto.
  - split.
    + by eapply moves_trans.
    + intros h. destruct (decide (h ∈ rs)) as [|Hni]; [auto|].
      intros t' l. rewrite (Hout h Hni). unfold q1. rewrite erase_all_other by done. apply Hh.
Qed.

Lemma of_home_elem h t : t ∈ of_home h [t] ↔ u32 (home (internal t)) = h.
Proof. rewrite of_home_one. case_decide; set_solver. Qed.

(** Appending to the queue of the transaction's home. *)
Lemma append_moves rel q t :
  moves rel [t] q (<[u32 (home (internal t)) := queue q (u32 (home (internal t))) ++ [t]]> q) no_result.
Proof.
  split.
  - intros h. simpl of_home. rewrite queue_insert, of_home_one. case_decide; [by subst|].
    by rewrite app_nil_r.
  - intros h t'. rewrite queue_insert, of_home_one. case_decide; [subst; auto|]. rewrite app_nil_r. auto.
Qed.

Lemma verify_moves rel st q t q' r :
  keys t ≠ [] → (∀ h, head_waits st q h) → VerifyMaster st q t = Ok (q', r) →
  moves rel [t] q q' (verify_result t r) ∧ ∀ h, head_waits st q' h.
Proof.
  intros Hk Hh. unfold VerifyMaster. destruct (keys t) as [|kv ks]; [done|]. clear Hk.
  set (h0 := u32 (home (internal t))). destruct (queue q h0) as [|t1 l1] eqn:Hq.
  - destruct (CheckCounters st t true) as [v|] eqn:Hc; cbn [mbind result_bind]; [|done].
    case_decide as Hv.
    + intros [= <- <-]. rewrite Hv. split.
      { pose proof (append_moves rel q t) as Hm. fold h0 in Hm. by rewrite Hq in Hm. }
      intros h t' l'. rewrite queue_insert. case_decide; [|apply Hh]. intros [= <- <-]. by rewrite Hc, Hv.
    + intros [= <- <-]. split; [|done]. split.
      * intros h. destruct v; simpl; [|done|]; rewrite of_home_one; case_decide as Hd.
        -- fold h0 in Hd. subst h. by rewrite Hq.
        -- by rewrite app_nil_r.
        -- apply sublist_inserts_r. reflexivity.
        -- by rewrite app_nil_r.
      * intros h t' [?|Ht]%elem_of_app; [auto|]. apply list_elem_of_filter in Ht as [_ Ht].
        apply list_elem_of_singleton in Ht as ->. destruct v; simpl; [|done|]; set_solver.
  - intros [= <- <-]. split.
    { pose proof (append_moves rel q t) as Hm. fold h0 in Hm. by rewrite Hq in Hm. }
    intros h t' l'. rewrite queue_insert. case_decide; [|apply Hh]. intros [= <- <-]. by eapply (Hh h0).
Qed.

(** The invariant of a run. *)
Record run_inv (s : run) : Prop := {
  ri_homed : homed (queues s);
  ri_heads h : head_waits (storage s) (queues s) h;
  ri_order h : of_home h (unblocked (left s)) ++ queue (queues s) h `sublist_of` of_home h (arrived s);
  ri_all t : t ∈ arrived s →
    t ∈ unblocked (left s) ∨ t ∈ should_abort (left s) ∨
    t ∈ queue (queues s) (u32 (home (internal t))) ∨ txn_id t ∈ released_ids s
}.

Lemma run_inv_moves s st q added r rel :
  run_inv s → moves rel added (queues s) q r → (∀ h, head_waits st q h) →
  run_inv {| storage := st; queues := q; arrived := arrived s ++ added;
             left := res_app (left s) r; released_ids := rel ++ released_ids s |}.
Proof.
  intros [Hhm Hhd Ho Ha] Hm Hh. split; simpl; [by eapply moves_homed|done|..]; destruct Hm as [Hmo Hma].
  - intros h. rewrite !of_home_app, <-app_assoc. etrans; [by apply sublist_app; [reflexivity|apply Hmo]|].
    rewrite app_assoc. by apply sublist_app.
  - intros t. rewrite !elem_of_app. set (h := u32 (home (internal t))).
    assert (Hcase : t ∈ queue (queues s) h ++ of_home h added → t ∈ unblocked r ∨ t ∈ should_abort r ∨
      t ∈ queue q h ∨ txn_id t ∈ rel) by apply Hma.
    rewrite elem_of_app in Hcase. intros [Ht|Ht].
    + destruct (Ha t Ht) as [?|[?|[Hq|?]]]; naive_solver.
    + assert (t ∈ of_home h added) by (by apply list_elem_of_filter). naive_solver.
Qed.

Lemma reachable_run_inv s : rm_reachable s → run_inv s.
Proof.
  intros [st Hr]. refine (rtc_ind_r (λ s, run_inv s) (run_init st) _ _ s Hr).
  { assert (Hq : ∀ h, queue ∅ h = []) by done. split; simpl.
    - intros h. by rewrite Hq.
    - intros h t l. by rewrite Hq.
    - intros h. by rewrite Hq.
    - by intros t ?%not_elem_of_nil. }
  clear. intros s s' _ Hstep Hinv. destruct Hstep as [s t q r Hk Hv|s st' k order q r Hs Ho Hv|s t q r Hv].
  - apply (verify_moves []) in Hv as [Hm Hh]; [|done|apply Hinv]. by apply (run_inv_moves s _ _ _ _ []).
  - eapply (remaster_moves []) in Hv as [Hm Hh]; [|apply Hinv|apply Hinv|done|done].
    rewrite <-(app_nil_r (arrived s)). by apply (run_inv_moves s _ _ _ _ []).
  - apply release_moves in Hv as [Hm Hh]; [|apply Hinv|apply Hinv].
    rewrite <-(app_nil_r (arrived s)). by apply (run_inv_moves s _ _ _ _ [txn_id t]).
Qed.

(** ** The guarantees *)

(** The simple remaster manager keeps the order of each region's log: at any time of
    a run, the transactions of a home it has let through, followed by those still queued,
    are in the order in which they arrived; and no transaction is lost: each one that
    arrived was let through, told to abort, is still queued, or its id was released. *)
Theorem simple_remaster_fifo (s : run) :
  rm_reachable s →
  (∀ h, of_home h (unblocked (left s)) ++ queue (queues s) h `sublist_of` of_home h (arrived s)) ∧
  (∀ t, t ∈ arrived s → t ∈ unblocked (left s) ∨ t ∈ should_abort (left s) ∨
    t ∈ queue (queues s) (u32 (home (internal t))) ∨ txn_id t ∈ released_ids s).
Proof. intros Hinv%reachable_run_inv. split; apply Hinv. Qed.

(** No transaction of the simple remaster manager is stuck: at any time of a run the
    front transaction of every queue really has a counter ahead of the storage, so it
    waits for a remaster that has not happened yet. *)
Theorem simple_remaster_not_stuck (s : run) (h : Z) (t : Transaction) (l : list Transaction) :
  rm_reachable s → queue (queues s) h = t :: l → CheckCounters (storage s) t true = Ok VM_WAITING.
Proof. intros Hinv%reachable_run_inv. apply Hinv. Qed.

(** A new key that the forwarder placed in a region other than 0 stops the process:
    with a storage that does not have the key, checking the counters of a transaction
    whose first key has counter 0 and a master other than 0 fails the [CHECK]. *)
Theorem new_key_check_fails (st : Storage) (t : Transaction) (kv : KeyValueEntry)
    (ks : list KeyValueEntry) (filter_by_home : bool) :
  keys t = kv :: ks → home_key (home (internal t)) kv = true → st !! key kv = None →
  counter (metadata (value_entry kv)) = 0%Z → key_master kv ≠ 0%Z →
  CheckCounters st t filter_by_home = Err (Fatal "Masters don't match for same key").
Proof.
  intros Hk Hh Hst Hc Hm. unfold CheckCounters. rewrite Hk. simpl. rewrite Hh, andb_false_r.
  unfold stored_metadata, Read. rewrite Hst, Hc. simpl. by rewrite decide_False.
Qed.

(** Region 0 sends two transactions on a key whose second remaster has not happened. *)
Definition ahead : Transaction :=
  make_txn 1 SINGLE_HOME 0 (kCode []) [make_entry "a" WRITE 0 1].
Definition behind : Transaction :=
  make_txn 2 SINGLE_HOME 0 (kCode []) [make_entry "b" WRITE 0 0].
Definition stored_a : Storage := {["a"%string := MakeRecord "x" 1 0]}.
Definition remastered_a : Storage := {["a"%string := MakeRecord "x" 0 1]}.

Definition waiting_run : run :=
  {| storage := stored_a; queues := {[0%Z := [ahead; behind]]}; arrived := [ahead; behind];
     left := no_result; released_ids := [] |}.

Lemma waiting_reachable : rm_reachable waiting_run.
Proof.
  exists stored_a.
  eapply rtc_l; [by apply (rm_verify _ ahead {[0%Z := [ahead]]} VM_WAITING)|].
  eapply rtc_l; [by apply (rm_verify _ behind {[0%Z := [ahead; behind]]} VM_WAITING)|].
  apply rtc_refl.
Qed.

Definition unblocked_run : run :=
  {| storage := remastered_a; queues := {[0%Z := []]}; arrived := [ahead; behind];
     left := {| unblocked := [ahead; behind]; should_abort := [] |}; released_ids := [] |}.

Lemma unblocked_reachable : rm_reachable unblocked_run.
Proof.
  destruct waiting_reachable as [st Hr]. exists st. eapply rtc_r; [exact Hr|].
  apply (rm_remaster waiting_run remastered_a "a" [0%Z] {[0%Z := []]}
    {| unblocked := [ahead; behind]; should_abort := [] |}); [|done|by vm_compute].
  intros k Hk. unfold stored_metadata, Read. cbn [storage waiting_run]. unfold stored_a, remastered_a.
  by rewrite !lookup_singleton_ne by done.
Qed.

Lemma simple_remaster_fifo_witness :
  rm_reachable unblocked_run ∧
  of_home 0 (unblocked (left unblocked_run)) `sublist_of` of_home 0 (arrived unblocked_run).
Proof.
  split; [apply unblocked_reachable|].
  destruct (simple_remaster_fifo unblocked_run unblocked_reachable) as [Ho _].
  specialize (Ho 0%Z). by rewrite app_nil_r in Ho.
Defined.

Lemma simple_remaster_not_stuck_witness :
  CheckCounters (storage waiting_run) ahead true = Ok VM_WAITING.
Proof.
  apply (simple_remaster_not_stuck waiting_run 0 ahead [behind] waiting_reachable). by vm_compute.
Defined.

Lemma new_key_check_fails_witness :
  CheckCounters ∅ (make_txn 1 SINGLE_HOME 1 (kCode []) [make_entry "a" WRITE 1 0]) true =
  Err (Fatal "Masters don't match for same key").
Proof. by apply (new_key_check_fails ∅ _ (make_entry "a" WRITE 1 0) []); vm_compute. Defined.
