(* ===== verification/PerKeyRemaster.v ===== *)
(** * The remaster manager with a queue for each key

    [module/scheduler_components/per_key_remaster_manager.cpp]: a transaction waits in the
    queues of those of its keys that are mastered at its home. As in [Remaster], the storage
    is an argument and a transaction object is identified by its value. *)
From S2P Require Import Prelude Types StringUtils Execution Remaster.

(** Lowest counters first, earliest arrivals break ties. *)
Abbreviation blocked_queue := (gmap string (list (Transaction * Z))) (only parsing).

Definition home_keys (t : Transaction) : list KeyValueEntry :=
  filter (λ kv, home_key (home (internal t)) kv = true) (keys t).

(** Another transaction is at the front of the queue of some key of the transaction. *)
Definition indirectly_blocked (q : blocked_queue) (t : Transaction) : bool :=
  existsb (λ kv,
    match q !! key kv with
    | Some ((_, c) :: _) => bool_decide (c ≤ counter (metadata (value_entry kv)))%Z
    | _ => false
    end) (keys t).

Fixpoint insert_entry (c : Z) (t : Transaction) (l : list (Transaction * Z)) : list (Transaction * Z) :=
  match l with
  | x :: l' => if decide (x.2 ≤ c)%Z then x :: insert_entry c t l' else (t, c) :: l
  | [] => [(t, c)]
  end.

Definition InsertIntoBlockedQueue (q : blocked_queue) (k : Key) (c : Z) (t : Transaction) : blocked_queue :=
  <[k := insert_entry c t (default [] (q !! k))]> q.

Definition add_to_queues (q : blocked_queue) (t : Transaction) : blocked_queue :=
  foldl (λ q kv, InsertIntoBlockedQueue q (key kv) (counter (metadata (value_entry kv))) t) q (home_keys t).

Definition pk_VerifyMaster (st : Storage) (q : blocked_queue) (t : Transaction) : result (blocked_queue * VerifyMasterResult) :=
  match keys t with
  | [] => Ok (q, VALID)
  | _ =>
    r ← CheckCounters st t true;
    match r with
    | VM_ABORT => Ok (q, VM_ABORT)
    | VALID => if indirectly_blocked q t then Ok (add_to_queues q t, VM_WAITING) else Ok (q, VALID)
    | VM_WAITING => Ok (add_to_queues q t, VM_WAITING)
    end
  end.

(** A queue that becomes empty is erased. *)
Definition set_queue (q : blocked_queue) (k : Key) (l : list (Transaction * Z)) : blocked_queue :=
  match l with [] => delete k q | _ => <[k := l]> q end.

Fixpoint erase_entry (i : TxnId) (l : list (Transaction * Z)) : list (Transaction * Z) :=
  match l with
  | [] => []
  | x :: l => if decide (txn_id x.1 = i) then l else x :: erase_entry i l
  end.

Definition erase_key (i : TxnId) (q : blocked_queue) (kv : KeyValueEntry) : blocked_queue :=
  match q !! key kv with
  | Some l => set_queue q (key kv) (erase_entry i l)
  | None => q
  end.

Definition erase_txn (q : blocked_queue) (t : Transaction) : blocked_queue := foldl (erase_key (txn_id t)) q (keys t).

(** Whether a transaction is at the front of all its queues, up to the first where it is not. *)
Fixpoint at_all_fronts (q : blocked_queue) (t : Transaction) (kvs : list KeyValueEntry) : result bool :=
  match kvs with
  | [] => Ok true
  | kv :: kvs =>
    match q !! key kv with
    | Some (x :: _) => if decide (x.1 = t) then at_all_fronts q t kvs else Ok false
    | _ => Err (Undef "Transaction was not in correct blocked_queues")
    end
  end.

Definition pop_key (q : blocked_queue) (kv : KeyValueEntry) : result blocked_queue :=
  match q !! key kv with
  | Some (_ :: l) => Ok (set_queue q (key kv) l)
  | _ => Err (Undef "pop_front")
  end.

(** [TryToUnblock]; the recursion ends because every call of itself comes after at least one
    entry left the queues. *)
Fixpoint pk_TryToUnblock (fuel : nat) (st : Storage) (k : Key) (s : blocked_queue * RemasterOccurredResult) :
    result (blocked_queue * RemasterOccurredResult) :=
  match fuel with
  | 0 => Err OutOfFuel
  | S fuel =>
    let '(q, res) := s in
    match q !! k with
    | None => Ok s
    | Some [] => Err (Undef "front of an empty list")
    | Some ((t, _) :: _) =>
      r ← CheckCounters st t true;
      match r with
      | VM_WAITING => Ok s
      | VM_ABORT =>
        '(q, res') ← rfoldl (λ s kv, pk_TryToUnblock fuel st (key kv) s) (erase_txn q t, no_result) (keys t);
        Ok (q, {| unblocked := unblocked res ++ unblocked res'; should_abort := (should_abort res ++ [t]) ++ should_abort res' |})
      | VALID =>
        front ← at_all_fronts q t (home_keys t);
        if (front : bool) then
          q ← rfoldl pop_key q (home_keys t);
          rfoldl (λ s kv, pk_TryToUnblock fuel st (key kv) s)
            (q, {| unblocked := unblocked res ++ [t]; should_abort := should_abort res |}) (home_keys t)
        else Ok s
      end
    end
  end.

Definition pk_ReleaseTransaction (fuel : nat) (st : Storage) (q : blocked_queue) (t : Transaction) :
    result (blocked_queue * RemasterOccurredResult) :=
  rfoldl (λ s kv, pk_TryToUnblock fuel st (key kv) s) (erase_txn q t, no_result) (keys t).

Definition pk_RemasterOccured (fuel : nat) (st : Storage) (q : blocked_queue) (k : Key) :
    result (blocked_queue * RemasterOccurredResult) :=
  match q !! k with None => Ok (q, no_result) | Some _ => pk_TryToUnblock fuel st k (q, no_result) end.

(** ** The invariant of the queues *)

Definition waiting (q : blocked_queue) (k : Key) (t : Transaction) : Prop := ∃ l c, q !! k = Some l ∧ (t, c) ∈ l.

Record pk_inv (q : blocked_queue) : Prop := {
  pi_nonempty k : q !! k ≠ Some [];
  pi_sorted k l : q !! k = Some l → StronglySorted (≤)%Z l.*2;
  pi_home k l t c : q !! k = Some l → (t, c) ∈ l → ∃ kv, kv ∈ home_keys t ∧ key kv = k ∧ c = counter (metadata (value_entry kv));
  pi_all k t kv : waiting q k t → kv ∈ home_keys t → waiting q (key kv) t;
  pi_once k l : q !! k = Some l → NoDup (txn_id <$> l.*1);
  pi_parts k k' t t' : waiting q k t → waiting q k' t' → txn_id t = txn_id t' → keys t = keys t';
  pi_keys k t : waiting q k t → NoDup (key <$> keys t)
}.

(** The number of entries. *)
Definition entries_of (q : blocked_queue) : nat := map_fold (λ _ l n, length l + n) 0 q.

Definition nonempty (l : list (Transaction * Z)) : option (list (Transaction * Z)) := match l with [] => None | _ => Some l end.

(** The queues without some transactions. *)
Definition kept (P : Transaction → bool) (l : list (Transaction * Z)) : list (Transaction * Z) := filter (λ x, P x.1 = false) l.

Definition prune (P : Transaction → bool) (q : blocked_queue) : blocked_queue := omap (λ l, nonempty (kept P l)) q.

Lemma lookup_prune P q k : prune P q !! k = q !! k ≫= λ l, nonempty (kept P l).
Proof. apply lookup_omap. Qed.

Lemma nonempty_Some l l' : nonempty l = Some l' ↔ l' = l ∧ l ≠ [].
Proof. destruct l; simpl; naive_solver. Qed.

Lemma prune_Some P q k l' : prune P q !! k = Some l' ↔ ∃ l, q !! k = Some l ∧ l' = kept P l ∧ l' ≠ [].
Proof.
  rewrite lookup_prune, bind_Some. split.
  - intros (l & Hl & [-> ?]%nonempty_Some). eauto.
  - intros (l & Hl & -> & ?). exists l. split; [done|]. by apply nonempty_Some.
Qed.

Lemma waiting_prune P q k t : waiting (prune P q) k t ↔ waiting q k t ∧ P t = false.
Proof.
  unfold waiting. split.
  - intros (l' & c & (l & Hl & -> & _)%prune_Some & [HP Hin]%list_elem_of_filter). eauto.
  - intros [(l & c & Hl & Hin) HP]. assert (Hin' : (t, c) ∈ kept P l) by (by apply list_elem_of_filter).
    exists (kept P l), c. split; [|done]. apply prune_Some. exists l. split_and!; [done..|]. intros E. rewrite E in Hin'. by apply not_elem_of_nil in Hin'.
Qed.

Lemma sublist_fmap' {A B} (f : A → B) l1 l2 : l1 `sublist_of` l2 → f <$> l1 `sublist_of` f <$> l2.
Proof. induction 1; simpl; by constructor. Qed.

Lemma sublist_sorted (l1 l2 : list Z) : l1 `sublist_of` l2 → StronglySorted (≤)%Z l2 → StronglySorted (≤)%Z l1.
Proof.
  induction 1 as [|x l1 l2 Hs IH|x l1 l2 Hs IH]; intros Hss; [done|..]; inversion Hss as [|?? Hss' Hall]; subst; [|auto].
  constructor; [auto|]. by eapply Forall_sublist.
Qed.

Lemma kept_sublist P l : kept P l `sublist_of` l.
Proof. apply sublist_filter. Qed.

Lemma pk_inv_prune P q : pk_inv q → pk_inv (prune P q).
Proof.
  intros [H1 H2 H3 H4 H5 H6 H7]. split.
  - intros k (l & _ & _ & Hne)%prune_Some. done.
  - intros k l' (l & Hl & -> & _)%prune_Some. eapply sublist_sorted; [|by eapply H2]. apply sublist_fmap', kept_sublist.
  - intros k l' t c (l & Hl & -> & _)%prune_Some [_ Hin]%list_elem_of_filter. by eapply H3.
  - intros k t kv [Hw HP]%waiting_prune Hkv. apply waiting_prune. split; [by eapply H4|done].
  - intros k l' (l & Hl & -> & _)%prune_Some. eapply sublist_NoDup; [by eapply H5|]. do 2 apply sublist_fmap'. apply kept_sublist.
  - intros k k' t t' [Hw _]%waiting_prune [Hw' _]%waiting_prune. by eapply H6.
  - intros k t [Hw _]%waiting_prune. by eapply H7.
Qed.

Lemma prune_prune P1 P2 q : prune P2 (prune P1 q) = prune (λ t, P1 t || P2 t) q.
Proof.
  apply map_eq. intros k. rewrite !lookup_prune. destruct (q !! k) as [l|]; [|done]. simpl.
  assert (E : kept (λ t, P1 t || P2 t) l = kept P2 (kept P1 l)).
  { unfold kept. rewrite list_filter_filter. apply list_filter_iff. intros x. rewrite orb_false_iff. naive_solver. }
  rewrite E. destruct (kept P1 l) eqn:E1; [done|]. done.
Qed.

Lemma kept_ext P1 P2 l : (∀ x, x ∈ l → P1 x.1 = P2 x.1) → kept P1 l = kept P2 l.
Proof.
  induction l as [|x l IH]; intros HP; [done|]. unfold kept. rewrite !filter_cons, (HP x) by set_solver. fold (kept P1 l) (kept P2 l).
  by rewrite IH by set_solver.
Qed.

Lemma prune_ext P1 P2 q : (∀ k t, waiting q k t → P1 t = P2 t) → prune P1 q = prune P2 q.
Proof.
  intros HP. apply map_eq. intros k. rewrite !lookup_prune. destruct (q !! k) as [l|] eqn:E; [|done]. simpl. f_equal.
  apply kept_ext. intros [t c] Hx. apply (HP k). by exists l, c.
Qed.

Lemma prune_none P q : (∀ k, q !! k ≠ Some []) → (∀ k t, waiting q k t → P t = false) → prune P q = q.
Proof.
  intros Hne HP. apply map_eq. intros k. rewrite lookup_prune. destruct (q !! k) as [l|] eqn:E; [|done]. simpl.
  assert (kept P l = l) as ->.
  { transitivity (kept (λ _, false) l); [|clear; unfold kept; induction l as [|x l IH]; [done|]; rewrite filter_cons, decide_True by done; by rewrite IH].
    apply kept_ext. intros [t c] Hx. apply (HP k). by exists l, c. }
  apply nonempty_Some. split; [done|]. intros ->. by apply (Hne k).
Qed.

Lemma entries_of_prune P q : entries_of (prune P q) = map_fold (λ _ l n, length (kept P l) + n) 0 q.
Proof.
  unfold entries_of. induction q as [|k l q Hk IH] using map_ind; [done|].
  rewrite (map_fold_insert_L (λ _ l n, length (kept P l) + n)) by (done || intros; lia). rewrite <-IH. clear IH.
  unfold prune. rewrite omap_insert. destruct (kept P l) as [|x l'] eqn:E; cbn [nonempty].
  - rewrite delete_id; [done|]. rewrite lookup_omap, Hk. done.
  - rewrite map_fold_insert_L; [done|intros; lia|]. rewrite lookup_omap, Hk. done.
Qed.

Lemma kept_length P l : length (kept P l) ≤ length l.
Proof. apply sublist_length, kept_sublist. Qed.

Lemma kept_length_lt P l x : x ∈ l → P x.1 = true → length (kept P l) < length l.
Proof.
  induction l as [|y l IH]; intros Hx HP; [by apply not_elem_of_nil in Hx|]. unfold kept. rewrite filter_cons. fold (kept P l).
  apply elem_of_cons in Hx as [->|Hx].
  - rewrite decide_False by congruence. pose proof (kept_length P l). simpl. lia.
  - specialize (IH Hx HP). case_decide; simpl; lia.
Qed.

Lemma entries_of_prune_le P q : entries_of (prune P q) ≤ entries_of q.
Proof.
  rewrite entries_of_prune. unfold entries_of. induction q as [|k l q Hk IH] using map_ind; [done|].
  rewrite !map_fold_insert_L by (done || intros; lia). pose proof (kept_length P l). lia.
Qed.

Lemma entries_of_prune_lt P q k t : waiting q k t → P t = true → entries_of (prune P q) < entries_of q.
Proof.
  intros (l & c & Hl & Hin) HP. pose proof (entries_of_prune_le P (delete k q)) as Hle. revert Hle. rewrite !entries_of_prune. unfold entries_of.
  rewrite (map_fold_delete_L (λ _ l n, length (kept P l) + n) 0 k l q) by (done || intros; lia).
  rewrite (map_fold_delete_L (λ _ l n, length l + n) 0 k l q) by (done || intros; lia).
  pose proof (kept_length_lt P l (t, c) Hin HP). lia.
Qed.

(** ** What leaves the queues *)

Lemma lookup_set_queue q k l k' : set_queue q k l !! k' = if decide (k = k') then nonempty l else q !! k'.
Proof.
  unfold set_queue. destruct l as [|x l]; case_decide; subst; cbn [nonempty].
  - apply lookup_delete_eq.
  - by apply lookup_delete_ne.
  - apply lookup_insert_eq.
  - by apply lookup_insert_ne.
Qed.

Lemma erase_fold_lookup i kvs q k :
  NoDup (key <$> kvs) →
  foldl (erase_key i) q kvs !! k = if decide (k ∈ key <$> kvs) then q !! k ≫= λ l, nonempty (erase_entry i l) else q !! k.
Proof.
  revert q. induction kvs as [|kv kvs IH]; intros q Hnd; [done|]. rewrite fmap_cons in Hnd. apply NoDup_cons in Hnd as [Hnot Hnd].
  cbn [foldl]. rewrite IH by done. rewrite fmap_cons. unfold erase_key. destruct (decide (k = key kv)) as [->|Hne].
  - rewrite decide_False by done. rewrite decide_True by set_solver. destruct (q !! key kv) as [l|] eqn:E; [|done].
    rewrite lookup_set_queue, decide_True by done. done.
  - assert (Hq : (match q !! key kv with Some l => set_queue q (key kv) (erase_entry i l) | None => q end) !! k = q !! k).
    { destruct (q !! key kv); [|done]. rewrite lookup_set_queue, decide_False by done. done. }
    rewrite Hq. destruct (decide (k ∈ key <$> kvs)); [rewrite decide_True by set_solver|rewrite decide_False by set_solver]; done.
Qed.

Definition has_id (i : TxnId) (t : Transaction) : bool := bool_decide (txn_id t = i).

Lemma erase_entry_kept i l : NoDup (txn_id <$> l.*1) → erase_entry i l = kept (has_id i) l.
Proof.
  induction l as [|x l IH]; intros Hnd; [done|]. rewrite !fmap_cons in Hnd. apply NoDup_cons in Hnd as [Hnot Hnd].
  cbn [erase_entry]. unfold kept. rewrite filter_cons. fold (kept (has_id i) l). destruct (decide (txn_id x.1 = i)) as [Hi|Hi].
  - rewrite (decide_False (P := has_id i x.1 = false)) by (unfold has_id; by rewrite bool_decide_true). subst i. rewrite <-IH by done. clear IH. induction l as [|y l IH]; [done|].
    rewrite !fmap_cons in *. apply NoDup_cons in Hnd as [_ Hnd]. cbn [erase_entry]. rewrite decide_False by set_solver. f_equal. apply IH; [set_solver|done].
  - rewrite (decide_True (P := has_id i x.1 = false)) by (unfold has_id; by rewrite bool_decide_false). by rewrite IH.
Qed.

(** Erasing a transaction erases all transactions with its id. *)
Lemma erase_txn_prune q t :
  pk_inv q → NoDup (key <$> keys t) → (∀ k t', waiting q k t' → txn_id t' = txn_id t → keys t' = keys t) →
  erase_txn q t = prune (has_id (txn_id t)) q.
Proof.
  intros Hi Hnd Hp. apply map_eq. intros k. unfold erase_txn. rewrite erase_fold_lookup by done. rewrite lookup_prune.
  destruct (q !! k) as [l|] eqn:E; [|by case_decide]. simpl. case_decide as Hk; [by rewrite erase_entry_kept by (by eapply pi_once)|].
  symmetry. transitivity (prune (has_id (txn_id t)) {[k := l]} !! k); [by rewrite lookup_prune, lookup_singleton_eq|].
  rewrite prune_none; [apply lookup_singleton_eq|..].
  - intros k' [-> Hl]%lookup_singleton_Some. subst. by apply (pi_nonempty _ Hi k').
  - intros k' t' (l' & c & [-> ->]%lookup_singleton_Some & Hin). unfold has_id. apply bool_decide_eq_false. intros Eid. apply Hk.
    destruct (pi_home _ Hi _ _ _ _ E Hin) as (kv & [_ Hkv]%list_elem_of_filter & <- & _).
    rewrite (Hp (key kv) t') in Hkv; [set_solver|by exists l', c|done].
Qed.

Lemma pop_fold_lookup t kvs q :
  NoDup (key <$> kvs) → (∀ kv, kv ∈ kvs → ∃ c l, q !! key kv = Some ((t, c) :: l)) →
  ∃ q', rfoldl pop_key q kvs = Ok q' ∧ ∀ k, q' !! k = if decide (k ∈ key <$> kvs) then q !! k ≫= λ l, nonempty (tail l) else q !! k.
Proof.
  revert q. induction kvs as [|kv kvs IH]; intros q Hnd Hf; [by eexists|]. rewrite fmap_cons in Hnd. apply NoDup_cons in Hnd as [Hnot Hnd].
  destruct (Hf kv) as (c & l & E); [set_solver|]. cbn [rfoldl]. assert (pop_key q kv = Ok (set_queue q (key kv) l)) as -> by (unfold pop_key; by rewrite E). cbn [mbind result_bind].
  destruct (IH (set_queue q (key kv) l)) as (q' & E' & Hq'); [done| |].
  { intros kv' Hkv'. rewrite lookup_set_queue, decide_False; [apply Hf; set_solver|]. intros Ek. apply Hnot. rewrite Ek. set_solver. }
  exists q'. split; [done|]. intros k. rewrite Hq', fmap_cons, lookup_set_queue. destruct (decide (k = key kv)) as [->|Hne].
  - rewrite decide_False by done. rewrite (decide_True (P := key kv = key kv)) by done. rewrite decide_True by set_solver. by rewrite E.
  - rewrite (decide_False (P := key kv = k)) by done.
    destruct (decide (k ∈ key <$> kvs)); [rewrite decide_True by set_solver|rewrite decide_False by set_solver]; done.
Qed.

Definition is_txn (t : Transaction) (t' : Transaction) : bool := bool_decide (t' = t).

Lemma kept_id_front t c l : NoDup (txn_id <$> ((t, c) :: l).*1) → kept (is_txn t) ((t, c) :: l) = l.
Proof.
  intros Hnd. unfold kept. rewrite filter_cons, decide_False by (unfold is_txn; simpl; by rewrite bool_decide_true). fold (kept (is_txn t) l).
  rewrite !fmap_cons in Hnd. apply NoDup_cons in Hnd as [Hnot _]. simpl in Hnot.
  transitivity (kept (λ _, false) l).
  - apply kept_ext. intros [t' c'] Hx. unfold is_txn. apply bool_decide_eq_false. simpl. intros ->. apply Hnot.
    apply list_elem_of_fmap_2. apply list_elem_of_fmap. by exists (t, c').
  - clear. unfold kept. induction l as [|x l IH]; [done|]. rewrite filter_cons, decide_True by done. by rewrite IH.
Qed.

(** Popping a transaction from the front of all its queues. *)
Lemma pop_prune q t :
  pk_inv q → NoDup (key <$> keys t) → (∀ kv, kv ∈ home_keys t → ∃ c l, q !! key kv = Some ((t, c) :: l)) →
  rfoldl pop_key q (home_keys t) = Ok (prune (is_txn t) q).
Proof.
  intros Hi Hnd Hf. destruct (pop_fold_lookup t (home_keys t) q) as (q' & E & Hq'); [|done|].
  { eapply sublist_NoDup; [exact Hnd|]. apply sublist_fmap', sublist_filter. }
  rewrite E. f_equal. apply map_eq. intros k. rewrite Hq', lookup_prune. destruct (decide _) as [Hk|Hk].
  - apply list_elem_of_fmap in Hk as (kv & -> & Hkv). destruct (Hf kv Hkv) as (c & l & El). rewrite El. simpl.
    rewrite kept_id_front; [done|]. by eapply pi_once.
  - destruct (q !! k) as [l|] eqn:El; [|done]. simpl. symmetry.
    transitivity (prune (is_txn t) {[k := l]} !! k); [by rewrite lookup_prune, lookup_singleton_eq|].
    rewrite prune_none; [apply lookup_singleton_eq|..].
    + intros k' [-> Hl]%lookup_singleton_Some. subst. by apply (pi_nonempty _ Hi k').
    + intros k' t' (l' & c & [-> ->]%lookup_singleton_Some & Hin). unfold is_txn. apply bool_decide_eq_false. intros ->. apply Hk.
      destruct (pi_home _ Hi _ _ _ _ El Hin) as (kv & Hkv & <- & _). set_solver.
Qed.

(** The transactions that are gone when some are unblocked and the ids of others are erased. *)
Definition gone (u a : list Transaction) (t : Transaction) : bool := bool_decide (t ∈ u ∨ txn_id t ∈ txn_id <$> a).

(** The counters of all waiting transactions can be checked. *)
Definition checkable (st : Storage) (q : blocked_queue) : Prop := ∀ k t, waiting q k t → ∃ r, CheckCounters st t true = Ok r.

Definition judged (st : Storage) (q : blocked_queue) (r : VerifyMasterResult) (t : Transaction) : Prop :=
  CheckCounters st t true = Ok r ∧ ∃ k, waiting q k t.

(** From one state to a later one some transactions leave: those that are unblocked are
    valid, and the others have the id of one that must abort. *)
Definition released (st : Storage) (s s' : blocked_queue * RemasterOccurredResult) : Prop :=
  ∃ u a, s'.1 = prune (gone u a) s.1 ∧ unblocked s'.2 = unblocked s.2 ++ u ∧ should_abort s'.2 = should_abort s.2 ++ a ∧
    Forall (judged st s.1 VALID) u ∧ Forall (judged st s.1 VM_ABORT) a.

Lemma released_refl st s : pk_inv s.1 → released st s s.
Proof.
  intros Hi. exists [], []. rewrite !app_nil_r. split_and!; try done. symmetry. apply prune_none; [by apply pi_nonempty|].
  intros k t _. unfold gone. apply bool_decide_eq_false. set_solver.
Qed.

Lemma judged_prune st q P r t : judged st (prune P q) r t → judged st q r t.
Proof. intros [Hc [k [Hw _]%waiting_prune]]. split; [done|by exists k]. Qed.

Lemma released_trans st s1 s2 s3 : released st s1 s2 → released st s2 s3 → released st s1 s3.
Proof.
  intros (u1 & a1 & Eq1 & Eu1 & Ea1 & Hu1 & Ha1) (u2 & a2 & Eq2 & Eu2 & Ea2 & Hu2 & Ha2). exists (u1 ++ u2), (a1 ++ a2).
  rewrite Eq1 in Hu2, Ha2. split_and!.
  - rewrite Eq2, Eq1, prune_prune. apply prune_ext. intros k t _. unfold gone. apply eq_true_iff_eq.
    rewrite orb_true_iff, !bool_decide_eq_true, fmap_app, !elem_of_app. naive_solver.
  - by rewrite Eu2, Eu1, app_assoc.
  - by rewrite Ea2, Ea1, app_assoc.
  - apply Forall_app. split; [done|]. eapply Forall_impl; [exact Hu2|]. intros t. apply judged_prune.
  - apply Forall_app. split; [done|]. eapply Forall_impl; [exact Ha2|]. intros t. apply judged_prune.
Qed.

Lemma released_inv st s s' : released st s s' → pk_inv s.1 → pk_inv s'.1.
Proof. intros (u & a & -> & _) Hi. by apply pk_inv_prune. Qed.

Lemma released_entries st s s' : released st s s' → entries_of s'.1 ≤ entries_of s.1.
Proof. intros (u & a & -> & _). apply entries_of_prune_le. Qed.

Lemma released_checkable st s s' : released st s s' → checkable st s.1 → checkable st s'.1.
Proof. intros (u & a & -> & _) Hc k t [Hw _]%waiting_prune. by eapply Hc. Qed.

(** One call for each key of a list. *)
Lemma unblock_all fuel st kvs s :
  (∀ k s, pk_inv s.1 → checkable st s.1 → entries_of s.1 < fuel → ∃ s', pk_TryToUnblock fuel st k s = Ok s' ∧ released st s s') →
  pk_inv s.1 → checkable st s.1 → entries_of s.1 < fuel →
  ∃ s', rfoldl (λ s kv, pk_TryToUnblock fuel st (key kv) s) s kvs = Ok s' ∧ released st s s'.
Proof.
  intros Htry. revert s. induction kvs as [|kv kvs IH]; intros s Hi Hc Hf; [exists s; split; [done|by apply released_refl]|].
  destruct (Htry (key kv) s Hi Hc Hf) as (s1 & E1 & H1). cbn [rfoldl]. rewrite E1. cbn [mbind result_bind].
  pose proof (released_entries _ _ _ H1). destruct (IH s1) as (s2 & E2 & H2); [by eapply released_inv|by eapply released_checkable|lia|].
  exists s2. split; [done|]. by eapply released_trans.
Qed.

Lemma at_all_fronts_spec q t kvs :
  (∀ kv, kv ∈ kvs → q !! key kv ≠ None ∧ q !! key kv ≠ Some []) →
  ∃ b, at_all_fronts q t kvs = Ok b ∧ (b = true → ∀ kv, kv ∈ kvs → ∃ c l, q !! key kv = Some ((t, c) :: l)).
Proof.
  induction kvs as [|kv kvs IH]; intros Hq; [exists true; split; [done|]; intros _ kv Hkv; by apply not_elem_of_nil in Hkv|].
  cbn [at_all_fronts]. destruct (q !! key kv) as [[|[t' c] l]|] eqn:E; [by destruct (Hq kv); set_solver..| |by destruct (Hq kv); set_solver].
  case_decide as Ht; [|by exists false]. simpl in Ht. subst t'. destruct IH as (b & Eb & Hb); [intros kv' Hkv'; apply Hq; set_solver|].
  exists b. split; [done|]. intros Htrue kv' [->|Hkv']%elem_of_cons; [by exists c, l|]. by apply Hb.
Qed.

(** The front transaction leaves because it is valid, or because it must abort. *)
Lemma released_valid st q res t k :
  waiting q k t → CheckCounters st t true = Ok VALID →
  released st (q, res) (prune (is_txn t) q, {| unblocked := unblocked res ++ [t]; should_abort := should_abort res |}).
Proof.
  intros Hw Hc. exists [t], []. rewrite app_nil_r. split_and!; try done; [|by apply Forall_singleton; split; [|exists k]].
  cbn [fst]. apply prune_ext. intros k' t' _. unfold is_txn, gone. apply bool_decide_ext. set_solver.
Qed.

Lemma released_abort st q res t k :
  waiting q k t → CheckCounters st t true = Ok VM_ABORT →
  released st (q, res) (prune (has_id (txn_id t)) q, {| unblocked := unblocked res; should_abort := should_abort res ++ [t] |}).
Proof.
  intros Hw Hc. exists [], [t]. rewrite app_nil_r. split_and!; try done; [|by apply Forall_singleton; split; [|exists k]].
  cbn [fst]. apply prune_ext. intros k' t' _. unfold has_id, gone. apply bool_decide_ext. set_solver.
Qed.

(** The results of a nested call are put after those there are. *)
Lemma released_append st q q' res0 res : released st (q, no_result) (q', res) →
  released st (q, res0) (q', {| unblocked := unblocked res0 ++ unblocked res; should_abort := should_abort res0 ++ should_abort res |}).
Proof.
  intros (u & a & Eq & Eu & Ea & Hu & Ha). exists u, a. cbn [fst snd unblocked should_abort no_result app] in *. by rewrite Eu, Ea.
Qed.

Lemma try_unblock_total fuel st k s :
  pk_inv s.1 → checkable st s.1 → entries_of s.1 < fuel → ∃ s', pk_TryToUnblock fuel st k s = Ok s' ∧ released st s s'.
Proof.
  revert k s. induction fuel as [|fuel IH]; intros k [q res] Hi Hc Hf; [lia|]. cbn [fst] in *. cbn [pk_TryToUnblock].
  destruct (q !! k) as [[|[t c] l]|] eqn:E; [by destruct (pi_nonempty _ Hi k)| |by eexists; split; [|by apply released_refl]].
  assert (Hw : waiting q k t) by (exists ((t, c) :: l), c; split; [done|set_solver]).
  pose proof (pi_keys _ Hi _ _ Hw) as Hnd. destruct (Hc k t Hw) as (r & Er). rewrite Er. cbn [mbind result_bind]. destruct r.
  - destruct (at_all_fronts_spec q t (home_keys t)) as (b & Eb & Hb).
    { intros kv Hkv. destruct (pi_all _ Hi _ _ _ Hw Hkv) as (l' & c' & El & Hin). rewrite El. split; [done|]. intros [= ->]. by apply not_elem_of_nil in Hin. }
    rewrite Eb. cbn [mbind result_bind]. destruct b; [|by eexists; split; [|by apply released_refl]].
    rewrite pop_prune by (done || by apply Hb). cbn [mbind result_bind]. pose proof (released_valid st q res t k Hw Er) as H1.
    assert (Hlt : entries_of (prune (is_txn t) q) < entries_of q) by (eapply entries_of_prune_lt; [done|]; unfold is_txn; by rewrite bool_decide_true).
    destruct (unblock_all fuel st (home_keys t) _ IH (released_inv _ _ _ H1 Hi) (released_checkable _ _ _ H1 Hc)) as (s' & Es & H2); [cbn [fst]; lia|].
    exists s'. split; [exact Es|]. by eapply released_trans.
  - eexists. split; [done|by apply released_refl].
  - assert (Hp : erase_txn q t = prune (has_id (txn_id t)) q).
    { apply erase_txn_prune; [done..|]. intros k' t' Hw' Eid. by eapply (pi_parts _ Hi). }
    rewrite Hp. pose proof (released_abort st q res t k Hw Er) as H1.
    assert (Hlt : entries_of (prune (has_id (txn_id t)) q) < entries_of q) by (eapply entries_of_prune_lt; [done|]; unfold has_id; by rewrite bool_decide_true).
    destruct (unblock_all fuel st (keys t) (prune (has_id (txn_id t)) q, no_result) IH) as ([q' res'] & Es & H2);
      [by apply pk_inv_prune|by apply (released_checkable _ _ _ H1 Hc)|cbn [fst]; lia|].
    rewrite Es. cbn [mbind result_bind]. eexists. split; [done|].
    eapply released_trans; [exact H1|]. by apply (released_append st _ _ {| unblocked := unblocked res; should_abort := should_abort res ++ [t] |}).
Qed.

(** ** Entering the queues *)

Lemma insert_entry_perm c t l : insert_entry c t l ≡ₚ (t, c) :: l.
Proof. induction l as [|x l IH]; [done|]. simpl. case_decide; [|done]. rewrite IH. apply Permutation_swap. Qed.

Lemma insert_entry_sorted c t l : StronglySorted (≤)%Z l.*2 → StronglySorted (≤)%Z (insert_entry c t l).*2.
Proof.
  induction l as [|x l IH]; intros Hs; [by repeat constructor|]. cbn [insert_entry]. rewrite fmap_cons in Hs. inversion Hs as [|?? Hs' Hall]; subst.
  case_decide as Hc; rewrite !fmap_cons.
  - constructor; [by apply IH|]. rewrite insert_entry_perm, fmap_cons. by constructor.
  - constructor; [by constructor|]. constructor; [simpl; lia|]. eapply Forall_impl; [exact Hall|]. simpl. lia.
Qed.

Lemma lookup_add_to_queues q t k :
  NoDup (key <$> keys t) →
  (∃ kv, kv ∈ home_keys t ∧ key kv = k ∧
     add_to_queues q t !! k = Some (insert_entry (counter (metadata (value_entry kv))) t (default [] (q !! k)))) ∨
  (k ∉ key <$> home_keys t) ∧ add_to_queues q t !! k = q !! k.
Proof.
  intros Hnd. assert (Hnd' : NoDup (key <$> home_keys t)) by (eapply sublist_NoDup; [exact Hnd|]; apply sublist_fmap', sublist_filter).
  unfold add_to_queues. generalize (home_keys t), Hnd'. clear Hnd Hnd'. intros kvs. revert q.
  induction kvs as [|kv kvs IH]; intros q Hnd; [right; split; [by apply not_elem_of_nil|done]|].
  rewrite fmap_cons in Hnd. apply NoDup_cons in Hnd as [Hnot Hnd]. cbn [foldl].
  destruct (IH (InsertIntoBlockedQueue q (key kv) (counter (metadata (value_entry kv))) t) Hnd) as [(kv' & Hkv' & <- & E)|[Hk E]]; rewrite E.
  - left. exists kv'. split; [set_solver|]. split; [done|]. unfold InsertIntoBlockedQueue. rewrite lookup_insert_ne; [done|].
    intros Ek. apply Hnot. rewrite Ek. set_solver.
  - unfold InsertIntoBlockedQueue. destruct (decide (key kv = k)) as [<-|Hne].
    + left. exists kv. split; [set_solver|]. split; [done|]. by rewrite lookup_insert_eq.
    + right. rewrite lookup_insert_ne by done. split; [set_solver|done].
Qed.

(** A transaction that may be verified: the waiting ones with its id are its parts for other homes. *)
Definition admissible (q : blocked_queue) (t : Transaction) : Prop :=
  NoDup (key <$> keys t) ∧ ∀ k t', waiting q k t' → txn_id t' = txn_id t → keys t' = keys t ∧ home (internal t') ≠ home (internal t).

Lemma waiting_add q t k t' : NoDup (key <$> keys t) →
  waiting (add_to_queues q t) k t' ↔ waiting q k t' ∨ t' = t ∧ k ∈ key <$> home_keys t.
Proof.
  intros Hnd. unfold waiting. destruct (lookup_add_to_queues q t k Hnd) as [(kv & Hkv & Ek & E)|[Hk E]]; rewrite E.
  - setoid_rewrite (inj_iff Some). split.
    + intros (l & c & <- & Hin). rewrite insert_entry_perm in Hin. apply elem_of_cons in Hin as [[= -> _]|Hin]; [right; split; [done|set_solver]|].
      left. destruct (q !! k) as [l|]; [by exists l, c|by apply not_elem_of_nil in Hin].
    + intros [(l & c & El & Hin)|[-> _]].
      * rewrite El. eexists _, c. split; [reflexivity|]. rewrite insert_entry_perm. set_solver.
      * eexists _, _. split; [reflexivity|]. rewrite insert_entry_perm. apply elem_of_cons. by left.
  - split; [by left|]. by intros [?|[_ ?]].
Qed.

Lemma NoDup_fmap_key (kvs : list KeyValueEntry) kv kv' : NoDup (key <$> kvs) → kv ∈ kvs → kv' ∈ kvs → key kv = key kv' → kv = kv'.
Proof.
  induction kvs as [|x kvs IH]; intros Hnd H1 H2 E; [by apply not_elem_of_nil in H1|]. rewrite fmap_cons in Hnd. apply NoDup_cons in Hnd as [Hnot Hnd].
  apply elem_of_cons in H1 as [->|H1], H2 as [->|H2]; [done| | |by apply IH]; destruct Hnot; [rewrite E|rewrite <-E]; by apply list_elem_of_fmap_2.
Qed.

Lemma pk_inv_add q t : pk_inv q → admissible q t → pk_inv (add_to_queues q t).
Proof.
  intros Hi [Hnd Ha]. pose proof Hi as [H1 H2 H3 H4 H5 H6 H7]. split.
  - intros k. destruct (lookup_add_to_queues q t k Hnd) as [(kv & _ & _ & E)|[_ E]]; rewrite E; [|done].
    intros [= Hl]. pose proof (insert_entry_perm (counter (metadata (value_entry kv))) t (default [] (q !! k))) as Hp. rewrite Hl in Hp. by apply Permutation_nil_cons in Hp.
  - intros k l. destruct (lookup_add_to_queues q t k Hnd) as [(kv & _ & _ & E)|[_ E]]; rewrite E; [|by apply H2].
    intros [= <-]. apply insert_entry_sorted. destruct (q !! k) eqn:El; [by eapply H2|constructor].
  - intros k l t' c. destruct (lookup_add_to_queues q t k Hnd) as [(kv & Hkv & Ek & E)|[_ E]]; rewrite E; [|by apply H3].
    intros [= <-]. rewrite insert_entry_perm. intros [[= -> ->]|Hin]%elem_of_cons; [by exists kv|].
    destruct (q !! k) as [l|] eqn:El; [by eapply H3|by apply not_elem_of_nil in Hin].
  - intros k t' kv [Hw|[-> _]]%waiting_add Hkv; [|..|done]; apply waiting_add; [done|..]; [left; by eapply H4|done|right; split; [done|set_solver]].
  - intros k l. destruct (lookup_add_to_queues q t k Hnd) as [(kv & Hkv & Ek & E)|[_ E]]; rewrite E; [|by apply H5].
    intros [= <-]. rewrite insert_entry_perm, !fmap_cons. destruct (q !! k) as [l|] eqn:El; [|apply NoDup_singleton].
    apply NoDup_cons. split; [|by eapply H5]. intros (t' & Et & ([t'' c] & -> & Hin)%list_elem_of_fmap)%list_elem_of_fmap. simpl in Et.
    destruct (Ha k t'') as [Eks Hh]; [by exists l, c|done|]. apply Hh. destruct (H3 _ _ _ _ El Hin) as (kv' & Hkv' & Ek' & _).
    apply list_elem_of_filter in Hkv as [Hkv Hin1], Hkv' as [Hkv' Hin2]. rewrite Eks in Hin2.
    assert (kv' = kv) as -> by (eapply NoDup_fmap_key; [exact Hnd|done..|congruence]).
    unfold home_key in *. bools. congruence.
  - intros k k' t1 t2 Hw1 Hw2 Eid. apply waiting_add in Hw1, Hw2; [|done..].
    destruct Hw1 as [Hw1|[-> _]], Hw2 as [Hw2|[-> _]]; [by eapply H6| | |done].
    + by destruct (Ha _ _ Hw1 Eid).
    + symmetry in Eid |- *. by destruct (Ha _ _ Hw2 Eid).
  - intros k t' [Hw|[-> _]]%waiting_add; [by eapply H7|done|done].
Qed.

(** ** Runs *)

Definition pk_fuel (q : blocked_queue) : nat := S (entries_of q).

(** A transaction that may be released: the waiting ones with its id have its keys. *)
Definition releasable (q : blocked_queue) (t : Transaction) : Prop :=
  NoDup (key <$> keys t) ∧ ∀ k t', waiting q k t' → txn_id t' = txn_id t → keys t' = keys t.

Inductive pk_step : blocked_queue → blocked_queue → Prop :=
  | pk_verify st t q q' r : admissible q t → pk_VerifyMaster st q t = Ok (q', r) → pk_step q q'
  | pk_remaster st k q q' res : checkable st q → pk_RemasterOccured (pk_fuel q) st q k = Ok (q', res) → pk_step q q'
  | pk_release st t q q' res : checkable st q → releasable q t → pk_ReleaseTransaction (pk_fuel q) st q t = Ok (q', res) → pk_step q q'.

Lemma verify_spec st q t :
  pk_inv q → admissible q t → (∃ r, CheckCounters st t true = Ok r) →
  ∃ q' r, pk_VerifyMaster st q t = Ok (q', r) ∧ pk_inv q' ∧
    match r with
    | VALID => q' = q ∧ CheckCounters st t true = Ok VALID ∧ indirectly_blocked q t = false
    | VM_ABORT => q' = q ∧ CheckCounters st t true = Ok VM_ABORT
    | VM_WAITING => ∀ k t', waiting q' k t' ↔ waiting q k t' ∨ t' = t ∧ k ∈ key <$> home_keys t
    end.
Proof.
  intros Hi Ha [r Er]. pose proof Ha as [Hnd _]. unfold pk_VerifyMaster. rewrite Er.
  assert (Hadd : pk_inv (add_to_queues q t) ∧ ∀ k t', waiting (add_to_queues q t) k t' ↔ waiting q k t' ∨ t' = t ∧ k ∈ key <$> home_keys t).
  { split; [by apply pk_inv_add|]. intros k t'. by apply waiting_add. }
  destruct (keys t) as [|kv kvs] eqn:Ek.
  - eexists _, _. split; [done|]. split; [done|]. split; [done|].
    unfold CheckCounters, indirectly_blocked in *. rewrite Ek in *. by injection Er as <-.
  - cbn [mbind result_bind]. destruct r.
    + destruct (indirectly_blocked q t) eqn:Eb; eexists _, _; (split; [reflexivity|]); [exact Hadd|done].
    + eexists _, _. split; [reflexivity|]. exact Hadd.
    + by eexists _, _.
Qed.

Lemma remaster_spec st q k :
  pk_inv q → checkable st q →
  ∃ q' res, pk_RemasterOccured (pk_fuel q) st q k = Ok (q', res) ∧ released st (q, no_result) (q', res).
Proof.
  intros Hi Hc. unfold pk_RemasterOccured. destruct (q !! k); [|eexists _, _; split; [done|by apply released_refl]].
  destruct (try_unblock_total (pk_fuel q) st k (q, no_result) Hi Hc) as ([q' res] & E & Hr); [cbn [fst]; unfold pk_fuel; lia|]. by exists q', res.
Qed.

Lemma release_spec st q t :
  pk_inv q → checkable st q → releasable q t →
  ∃ q' res, pk_ReleaseTransaction (pk_fuel q) st q t = Ok (q', res) ∧ released st (prune (has_id (txn_id t)) q, no_result) (q', res).
Proof.
  intros Hi Hc [Hnd Hp]. unfold pk_ReleaseTransaction. rewrite erase_txn_prune by done.
  destruct (unblock_all (pk_fuel q) st (keys t) (prune (has_id (txn_id t)) q, no_result)) as ([q' res] & E & Hr).
  - intros k s. apply try_unblock_total.
  - by apply pk_inv_prune.
  - intros k t' [Hw _]%waiting_prune. by eapply Hc.
  - cbn [fst]. pose proof (entries_of_prune_le (has_id (txn_id t)) q). unfold pk_fuel. lia.
  - by exists q', res.
Qed.

Lemma released_fresh st q i s' : released st (prune (has_id i) q, no_result) s' →
  Forall (λ t, txn_id t ≠ i) (unblocked s'.2 ++ should_abort s'.2).
Proof.
  intros (u & a & _ & -> & -> & Hu & Ha). cbn [snd no_result unblocked should_abort app]. apply Forall_app. split; [eapply Forall_impl; [exact Hu|]|eapply Forall_impl; [exact Ha|]];
    intros t [_ [k [_ Hid]%waiting_prune]]; unfold has_id in Hid; by apply bool_decide_eq_false in Hid.
Qed.

Lemma pk_step_inv q q' : pk_step q q' → pk_inv q → pk_inv q'.
Proof.
  destruct 1 as [st t q q' r Ha E|st k q q' res Hc E|st t q q' res Hc Hr E]; intros Hi.
  - revert E. unfold pk_VerifyMaster. destruct (keys t); [by intros [= <- _]|]. destruct (CheckCounters st t true) as [[]|]; [..|done]; cbn [mbind result_bind].
    + destruct (indirectly_blocked q t); intros [= <- _]; [by apply pk_inv_add|done].
    + intros [= <- _]. by apply pk_inv_add.
    + by intros [= <- _].
  - destruct (remaster_spec st q k Hi Hc) as (q1 & r1 & E1 & H1). rewrite E in E1. injection E1 as <- <-. exact (released_inv _ _ _ H1 Hi).
  - destruct (release_spec st q t Hi Hc Hr) as (q1 & r1 & E1 & H1). rewrite E in E1. injection E1 as <- <-.
    exact (released_inv _ _ _ H1 (pk_inv_prune _ _ Hi)).
Qed.

Lemma pk_inv_empty : pk_inv ∅.
Proof. split; try done; intros; try (destruct H as (? & ? & ? & _)); by simplify_map_eq. Qed.

Lemma pk_reachable_inv q : rtc pk_step ∅ q → pk_inv q.
Proof. intros Hr. pattern q. eapply rtc_ind_r; [| |exact Hr]; [apply pk_inv_empty|]. intros ?? _ Hs Hi. by eapply pk_step_inv. Qed.

(** C33. The remaster manager with queues for each key, in every state it can reach: its
    queues are sorted by counter, none is empty, and a transaction waits in the queues of all
    its keys that are mastered at its home. As long as no check of counters fails, every
    remaster and every release of a transaction comes to an end within the number of entries,
    without touching an empty queue: what it unblocks was waiting and is valid, what it
    aborts was waiting and is behind, and everything else stays. The released transaction is
    in no queue afterwards and not in the result. *)
Theorem per_key_queues (q : blocked_queue) :
  rtc pk_step ∅ q →
  pk_inv q ∧ ∀ st, checkable st q →
    (∀ k, ∃ q' res, pk_RemasterOccured (pk_fuel q) st q k = Ok (q', res) ∧ released st (q, no_result) (q', res)) ∧
    (∀ t, releasable q t → ∃ q' res, pk_ReleaseTransaction (pk_fuel q) st q t = Ok (q', res) ∧
       released st (prune (has_id (txn_id t)) q, no_result) (q', res) ∧
       Forall (λ t', txn_id t' ≠ txn_id t) (unblocked res ++ should_abort res)).
Proof.
  intros Hi%pk_reachable_inv. split; [done|]. intros st Hc. split; [intros k; by apply remaster_spec|].
  intros t Hr. destruct (release_spec st q t Hi Hc Hr) as (q' & res & E & H1). exists q', res. split_and!; [done..|]. exact (released_fresh _ _ _ _ H1).
Qed.

(** ** A transaction that is never woken up

    A transaction on key A of region 0 and key B of region 1 arrives, part by part, before the
    remaster that B waits for. Its part for region 0 is held back because of the queue of B,
    but enters only the queue of A. *)

Definition pk_txn (h : Z) : Transaction :=
  make_txn 100 MULTI_HOME_OR_LOCK_ONLY h (kCode []) [make_entry "A" READ 0 0; make_entry "B" WRITE 1 1].

Definition pk_before : Storage := {["A"%string := MakeRecord "x" 0 0; "B"%string := MakeRecord "y" 0 0]}.
Definition pk_after : Storage := {["A"%string := MakeRecord "x" 0 0; "B"%string := MakeRecord "y" 1 1]}.

Definition pk_first : blocked_queue := {["B"%string := [(pk_txn 1, 1%Z)]]}.
Definition pk_second : blocked_queue := {["B"%string := [(pk_txn 1, 1%Z)]; "A"%string := [(pk_txn 0, 0%Z)]]}.
Definition pk_stuck : blocked_queue := {["A"%string := [(pk_txn 0, 0%Z)]]}.

Lemma waiting_first k t : waiting pk_first k t → t = pk_txn 1.
Proof. unfold pk_first. intros (l & c & [_ <-]%lookup_singleton_Some & [= ->]%list_elem_of_singleton). done. Qed.

Lemma waiting_second k t : waiting pk_second k t → t = pk_txn 1 ∨ t = pk_txn 0.
Proof.
  intros (l & c & Hl & Hin). unfold pk_second in Hl. apply lookup_insert_Some in Hl as [[_ <-]|[_ [_ <-]%lookup_singleton_Some]];
    apply list_elem_of_singleton in Hin as [= -> _]; auto.
Qed.

Lemma pk_second_reachable : rtc pk_step ∅ pk_second.
Proof.
  assert (Hnd : ∀ h, NoDup (key <$> keys (pk_txn h))) by (intros h; apply (bool_decide_eq_true_1 _); vm_compute; reflexivity).
  eapply rtc_l; [apply (pk_verify pk_before (pk_txn 1) ∅ pk_first VM_WAITING); [|vm_compute; reflexivity]|].
  { split; [apply Hnd|]. intros k t (l & c & Hl & _). by rewrite lookup_empty in Hl. }
  eapply rtc_l; [apply (pk_verify pk_before (pk_txn 0) pk_first pk_second VM_WAITING); [|vm_compute; reflexivity]|apply rtc_refl].
  split; [apply Hnd|]. by intros k t ->%waiting_first _.
Qed.

(** The remaster manager with queues for each key can lose a transaction: after the
    remaster that the transaction waits for, its part for region 1 is unblocked, and its part
    for region 0 is valid, at the front of its only queue, and still there. A later
    transaction on key A is held back by it, although nothing is waiting for a remaster. *)
Theorem per_key_lost_wakeup :
  rtc pk_step ∅ pk_second ∧ pk_VerifyMaster pk_before pk_first (pk_txn 0) = Ok (pk_second, VM_WAITING) ∧
  pk_RemasterOccured (pk_fuel pk_second) pk_after pk_second "B" = Ok (pk_stuck, {| unblocked := [pk_txn 1]; should_abort := [] |}) ∧
  CheckCounters pk_after (pk_txn 0) true = Ok VALID ∧
  let t := make_txn 200 SINGLE_HOME 0 (kCode []) [make_entry "A" READ 0 0] in
  CheckCounters pk_after t true = Ok VALID ∧
  pk_VerifyMaster pk_after pk_stuck t = Ok ({["A"%string := [(pk_txn 0, 0%Z); (t, 0%Z)]]}, VM_WAITING).
Proof. split; [apply pk_second_reachable|]. do 3 (split; [vm_compute; reflexivity|]). cbv zeta. split; vm_compute; reflexivity. Qed.

Lemma per_key_queues_witness :
  ∃ q res, pk_RemasterOccured (pk_fuel pk_second) pk_after pk_second "B" = Ok (q, res) ∧ released pk_after (pk_second, no_result) (q, res).
Proof.
  destruct (per_key_queues pk_second pk_second_reachable) as [_ H]. destruct (H pk_after) as [Hr _]; [|exact (Hr "B"%string)].
  intros k t [-> | ->]%waiting_second; exists VALID; vm_compute; reflexivity.
Defined.
