(* ===== verification/TxnHolder.v ===== *)
(** * The transaction holder

    [module/scheduler_components/txn_holder.cpp]: a holder collects the lock-only
    transactions of one transaction, one slot per region. The first to arrive is the
    main transaction. *)
From S2P Require Import Prelude Types.

Record TxnHolder := {
  txn_id_ : TxnId;
  main_txn_idx_ : nat;
  lo_txns_ : list (option Transaction);
  remaster_result_ : option (Key * Z);
  aborting_ : bool;
  done_ : bool;
  num_lo_txns_ : Z;
  expected_num_lo_txns_ : Z;
  num_dispatches_ : Z
}.

Definition set_lo_txns (ls : list (option Transaction)) (n : Z) (h : TxnHolder) : TxnHolder :=
  {| txn_id_ := txn_id_ h; main_txn_idx_ := main_txn_idx_ h; lo_txns_ := ls;
     remaster_result_ := remaster_result_ h; aborting_ := aborting_ h; done_ := done_ h;
     num_lo_txns_ := n; expected_num_lo_txns_ := expected_num_lo_txns_ h;
     num_dispatches_ := num_dispatches_ h |}.

(** The slot of a region; the vector has [num_replicas] slots. *)
Definition slot (num_replicas : Z) (h : Z) : option nat :=
  if decide (0 ≤ h < num_replicas)%Z then Some (Z.to_nat h) else None.

Definition NewTxnHolder (num_replicas : Z) (t : Transaction) : result TxnHolder :=
  match slot num_replicas (home (internal t)) with
  | Some i =>
    Ok {| txn_id_ := txn_id t; main_txn_idx_ := i;
          lo_txns_ := <[i := Some t]> (replicate (Z.to_nat num_replicas) None);
          remaster_result_ := None; aborting_ := false; done_ := false; num_lo_txns_ := 1;
          expected_num_lo_txns_ := Z.of_nat (length (involved_replicas (internal t)));
          num_dispatches_ := 0 |}
  | None => Err (Undef "lo_txns_[main_txn_idx_]")
  end.

Definition AddLockOnlyTxn (h : TxnHolder) (t : Transaction) : result (TxnHolder * bool) :=
  let n := Z.of_nat (length (lo_txns_ h)) in
  if decide (n ≤ home (internal t))%Z then Err (Fatal "Check failed: home < lo_txns_.size()")
  else
    match slot n (home (internal t)) with
    | None => Err (Undef "lo_txns_[home]")
    | Some i =>
      match lo_txns_ h !! i with
      | Some (Some _) => Ok (h, false)
      | _ => Ok (set_lo_txns (<[i := Some t]> (lo_txns_ h)) (num_lo_txns_ h + 1) h, true)
      end
    end.

(** [txn()] *)
Definition holder_txn (h : TxnHolder) : result Transaction :=
  match lo_txns_ h !! main_txn_idx_ h with
  | Some (Some t) => Ok t
  | _ => Err (Fatal "Check failed: lo_txns_[main_txn_idx_] != nullptr")
  end.

Definition set_txn (t : Transaction) (h : TxnHolder) : TxnHolder :=
  set_lo_txns (<[main_txn_idx_ h := Some t]> (lo_txns_ h)) (num_lo_txns_ h) h.

Definition lock_only_txn (h : TxnHolder) (i : nat) : option Transaction := mjoin (lo_txns_ h !! i).

Definition SetRemasterResult (k : Key) (c : Z) (h : TxnHolder) : TxnHolder :=
  {| txn_id_ := txn_id_ h; main_txn_idx_ := main_txn_idx_ h; lo_txns_ := lo_txns_ h;
     remaster_result_ := Some (k, c); aborting_ := aborting_ h; done_ := done_ h;
     num_lo_txns_ := num_lo_txns_ h; expected_num_lo_txns_ := expected_num_lo_txns_ h;
     num_dispatches_ := num_dispatches_ h |}.

Definition SetDone (h : TxnHolder) : TxnHolder :=
  {| txn_id_ := txn_id_ h; main_txn_idx_ := main_txn_idx_ h; lo_txns_ := lo_txns_ h;
     remaster_result_ := remaster_result_ h; aborting_ := aborting_ h; done_ := true;
     num_lo_txns_ := num_lo_txns_ h; expected_num_lo_txns_ := expected_num_lo_txns_ h;
     num_dispatches_ := num_dispatches_ h |}.

Definition SetAborting (h : TxnHolder) : TxnHolder :=
  {| txn_id_ := txn_id_ h; main_txn_idx_ := main_txn_idx_ h; lo_txns_ := lo_txns_ h;
     remaster_result_ := remaster_result_ h; aborting_ := true; done_ := done_ h;
     num_lo_txns_ := num_lo_txns_ h; expected_num_lo_txns_ := expected_num_lo_txns_ h;
     num_dispatches_ := num_dispatches_ h |}.

Definition IncNumDispatches (h : TxnHolder) : TxnHolder :=
  {| txn_id_ := txn_id_ h; main_txn_idx_ := main_txn_idx_ h; lo_txns_ := lo_txns_ h;
     remaster_result_ := remaster_result_ h; aborting_ := aborting_ h; done_ := done_ h;
     num_lo_txns_ := num_lo_txns_ h; expected_num_lo_txns_ := expected_num_lo_txns_ h;
     num_dispatches_ := num_dispatches_ h + 1 |}.

Definition is_ready_for_gc (h : TxnHolder) : bool :=
  done_ h && bool_decide (num_lo_txns_ h = expected_num_lo_txns_ h).

(** ** [FinalizeAndRelease] *)

Definition set_event_home (hm : Z) (e : TransactionEventInfo) : TransactionEventInfo :=
  {| ev_event := ev_event e; ev_time := ev_time e; ev_machine := ev_machine e; ev_home := hm |}.

Definition same_event (e1 e2 : TransactionEventInfo) : bool :=
  bool_decide (ev_event e1 = ev_event e2 ∧ ev_time e1 = ev_time e2 ∧ ev_machine e1 = ev_machine e2).

(** The events of one transaction against those of the main one, from position [i]. *)
Fixpoint scan_cutoff (main : list TransactionEventInfo) (i cutoff : nat)
    (es : list TransactionEventInfo) : nat :=
  match es with
  | [] => cutoff
  | e :: es =>
    let cutoff :=
      if decide (i < cutoff) then
        match main !! i with
        | Some m => if same_event e m then cutoff else i
        | None => cutoff
        end
      else cutoff in
    scan_cutoff main (S i) cutoff es
  end.

Definition set_homes (t : Transaction) : Transaction :=
  set_internal (λ i, set_events (set_event_home (home i) <$> events i) i) t.

Definition txn_events (t : Transaction) : list TransactionEventInfo := events (internal t).

Definition find_cutoff (main : list TransactionEventInfo) (ls : list (option Transaction)) : nat :=
  foldl (λ cutoff l, match l with Some t => scan_cutoff main 0 cutoff (txn_events t) | None => cutoff end)
    (length main) ls.

(** The events after the cutoff of every transaction but the main one. *)
Fixpoint extra_events (main_idx : nat) (cutoff : nat) (i : nat) (ls : list (option Transaction)) :
    list TransactionEventInfo :=
  match ls with
  | [] => []
  | l :: ls =>
    match l with
    | Some t => if decide (i = main_idx) then [] else drop cutoff (txn_events (set_homes t))
    | None => []
    end ++ extra_events main_idx cutoff (S i) ls
  end.

Definition FinalizeAndRelease (h : TxnHolder) : result (TxnHolder * Transaction) :=
  match lo_txns_ h !! main_txn_idx_ h with
  | Some (Some main) =>
    let cutoff := find_cutoff (txn_events main) (lo_txns_ h) in
    let extra := extra_events (main_txn_idx_ h) cutoff 0 (lo_txns_ h) in
    let main' := set_internal (λ i, set_events (events i ++ extra) i) (set_homes main) in
    Ok (set_lo_txns (replicate (length (lo_txns_ h)) None) (num_lo_txns_ h) h, main')
  | _ => Err (Undef "main_txn->mutable_internal()")
  end.

(** ** No event is lost *)

(** The events of [es] from position [i] on agree with [main] below [c]. *)
Definition agrees (main : list TransactionEventInfo) (i c : nat) (es : list TransactionEventInfo) : Prop :=
  ∀ j e, es !! j = Some e → i + j < c → ∃ m, main !! (i + j) = Some m ∧ same_event e m = true.

Lemma agrees_le main i c c' es : c' ≤ c → agrees main i c es → agrees main i c' es.
Proof. intros Hc Ha j e He Hj. apply (Ha j e He). lia. Qed.

Lemma scan_cutoff_spec main i c es :
  c ≤ length main →
  scan_cutoff main i c es ≤ c ∧ agrees main i (scan_cutoff main i c es) es.
Proof.
  revert i c. induction es as [|e es IH]; intros i c Hc; simpl; [split; [done|by intros j ? ?]|].
  set (c1 := if decide (i < c) then _ else c).
  assert (Hc1 : c1 ≤ c ∧ (i < c1 → ∃ m, main !! i = Some m ∧ same_event e m = true)).
  { unfold c1. case_decide as Hi; [|split; [done|lia]].
    destruct (lookup_lt_is_Some_2 main i) as [m Hm]; [lia|]. rewrite Hm.
    destruct (same_event e m) eqn:Hs; [eauto|]. split; [lia|]. lia. }
  clearbody c1. destruct Hc1 as [Hle Hhd]. destruct (IH (S i) c1) as [Hle' Ha]; [lia|].
  split; [lia|]. intros [|j] e' He' Hj; simpl in He'.
  - simplify_eq. rewrite Nat.add_0_r in *. apply Hhd. lia.
  - destruct (Ha j e' He') as (m & Hm & Hs); [lia|]. exists m. by rewrite <-Nat.add_succ_comm.
Qed.

Lemma fold_cutoff_spec main ls c :
  c ≤ length main →
  let c' := foldl (λ cutoff l, match l with Some t => scan_cutoff main 0 cutoff (txn_events t)
                               | None => cutoff end) c ls in
  c' ≤ c ∧ ∀ t, Some t ∈ ls → agrees main 0 c' (txn_events t).
Proof.
  revert c. induction ls as [|l ls IH]; intros c Hc; simpl; [split; [done|by intros t ?%not_elem_of_nil]|].
  destruct l as [t|].
  - destruct (scan_cutoff_spec main 0 c (txn_events t) Hc) as [Hle Ha].
    destruct (IH (scan_cutoff main 0 c (txn_events t))) as [Hle' Hall]; [lia|].
    split; [lia|]. intros t' [[= ->]|Ht]%elem_of_cons; [|auto]. by eapply agrees_le.
  - destruct (IH c Hc) as [Hle Hall]. split; [done|]. intros t [?|Ht]%elem_of_cons; [done|auto].
Qed.

Lemma extra_events_elem mi c i ls j t k e :
  ls !! j = Some (Some t) → i + j ≠ mi → txn_events t !! k = Some e → c ≤ k →
  set_event_home (home (internal t)) e ∈ extra_events mi c i ls.
Proof.
  revert i j. induction ls as [|l ls IH]; intros i j Hj Hne Hk Hc; [done|]. simpl.
  apply elem_of_app. destruct j as [|j]; simpl in Hj; simplify_eq.
  - left. rewrite decide_False by lia. apply list_elem_of_lookup. exists (k - c).
    rewrite lookup_drop. replace (c + (k - c)) with k by lia.
    unfold txn_events, set_homes. simpl. rewrite list_lookup_fmap. unfold txn_events in Hk. by rewrite Hk.
  - right. apply (IH (S i) j); [done|lia|done|done].
Qed.

(** When a transaction is finished, its holder releases one transaction, with the
    events of the main transaction first; no event is lost: every event recorded on any
    of the lock-only transactions is among its events, up to the home region noted with
    it. The holder is left empty. *)
Theorem finalize_keeps_events (h h' : TxnHolder) (t : Transaction) :
  FinalizeAndRelease h = Ok (h', t) →
  (∃ main, holder_txn h = Ok main ∧ set_events [] (internal t) = set_events [] (internal main) ∧
     keys t = keys main ∧ status t = status main ∧
     txn_events (set_homes main) `prefix_of` txn_events t) ∧
  (∀ i lo e, lo_txns_ h !! i = Some (Some lo) → e ∈ txn_events lo →
     ∃ e', e' ∈ txn_events t ∧ same_event e e' = true) ∧
  Forall (.= None) (lo_txns_ h').
Proof.
  unfold FinalizeAndRelease, holder_txn.
  destruct (lo_txns_ h !! main_txn_idx_ h) as [[main|]|] eqn:Hm; [|done|done].
  intros [= <- <-]. split; [|split].
  - exists main. repeat split. by eexists.
  - intros i lo e Hi (k & Hk)%list_elem_of_lookup.
    destruct (fold_cutoff_spec (txn_events main) (lo_txns_ h) _ (Nat.le_refl _)) as [Hle Ha].
    fold (find_cutoff (txn_events main) (lo_txns_ h)) in Hle, Ha.
    set (c := find_cutoff _ _) in *. specialize (Ha lo (list_elem_of_lookup_2 _ _ _ Hi)).
    assert (Hmain : ∀ m, m ∈ txn_events main → ∃ e', e' ∈ set_event_home (home (internal main)) <$> txn_events main ∧
      same_event m e' = true).
    { intros m Hin. eexists. split; [by apply list_elem_of_fmap_2|]. by apply bool_decide_eq_true_2. }
    unfold txn_events at 1. simpl. setoid_rewrite elem_of_app.
    destruct (decide (k < c)) as [Hkc|Hkc].
    + destruct (Ha k e Hk) as (m & Hmk & Hs); [lia|].
      destruct (Hmain m) as (e' & He' & Hs'); [by eapply list_elem_of_lookup_2|].
      exists e'. split; [by left|]. unfold same_event in *. bools. apply bool_decide_eq_true_2. naive_solver congruence.
    + destruct (decide (i = main_txn_idx_ h)) as [->|Hne].
      * simplify_eq. destruct (Hmain e) as (e' & ? & ?); [by eapply list_elem_of_lookup_2|]. eauto.
      * eexists. split; [right; eapply extra_events_elem; [done|done|done|lia]|]. by apply bool_decide_eq_true_2.
  - simpl. apply Forall_replicate. done.
Qed.

(** A main transaction from region 0 and a lock-only one from region 1 that share their
    first event. *)
Definition with_events (es : list TransactionEventInfo) (t : Transaction) : Transaction :=
  set_internal (set_events es) t.

Definition example_event (ev : TransactionEvent) (time : Z) : TransactionEventInfo :=
  {| ev_event := ev; ev_time := time; ev_machine := 0; ev_home := 0 |}.

Definition example_holder : TxnHolder :=
  let mk h es := with_events es (set_internal (set_involved_replicas [0; 1]%Z)
                   (make_txn 1 MULTI_HOME_OR_LOCK_ONLY h (kCode []) [make_entry "a" WRITE h 0])) in
  match NewTxnHolder 2 (mk 0 [example_event ENTER_SERVER 1; example_event ENTER_SCHEDULER 5])%Z with
  | Ok h =>
    match AddLockOnlyTxn h (mk 1 [example_event ENTER_SERVER 1; example_event ENTER_SCHEDULER 7])%Z with
    | Ok (h, _) => h
    | Err _ => h
    end
  | Err _ => set_lo_txns [] 0 (SetDone {| txn_id_ := 0; main_txn_idx_ := 0; lo_txns_ := []; remaster_result_ := None;
      aborting_ := false; done_ := false; num_lo_txns_ := 0; expected_num_lo_txns_ := 0; num_dispatches_ := 0 |})
  end.

Lemma finalize_keeps_events_witness :
  ∃ h' t e', FinalizeAndRelease example_holder = Ok (h', t) ∧ e' ∈ txn_events t ∧
    same_event (example_event ENTER_SCHEDULER 7) e' = true.
Proof.
  destruct (FinalizeAndRelease example_holder) as [[h' t]|f] eqn:Hf; [|vm_compute in Hf; discriminate Hf].
  destruct (finalize_keeps_events _ _ _ Hf) as (_ & Hall & _).
  destruct (Hall 1 (with_events [example_event ENTER_SERVER 1; example_event ENTER_SCHEDULER 7]
    (set_internal (set_involved_replicas [0; 1]%Z)
      (make_txn 1 MULTI_HOME_OR_LOCK_ONLY 1 (kCode []) [make_entry "a" WRITE 1 0])))
    (example_event ENTER_SCHEDULER 7)) as (e' & He' & Hs).
  - reflexivity.
  - right. left.
  - exists h', t, e'. split; [done|]. split; done.
Defined.
