(* ===== verification/Worker.v ===== *)
(** * The worker

    [module/scheduler_components/worker.cpp]. A worker takes transactions from the
    scheduler, reads their local keys, exchanges the values with the other partitions,
    executes and reports back. Its messages are collected in order. The holder of a
    transaction is shared with the scheduler, so the final notice carries it.

    Parameters: the configuration, the channel of the worker, whether the build checks
    counters ([REMASTER_PROTOCOL_SIMPLE] or [_PER_KEY]), the execution, and the event
    recorder ([RECORD], which adds nothing in a build without recording). *)
From S2P Require Import Prelude Types StringUtils Config Execution Remaster TxnHolder.

Inductive Phase := READ_LOCAL_STORAGE | WAIT_REMOTE_READ | EXECUTE | FINISH.

#[global] Instance Phase_eq_dec : EqDecision Phase.
Proof. solve_decision. Defined.

Record TransactionState := {
  txn_holder : TxnHolder;
  remote_reads_waiting_on : Z;
  phase : Phase
}.

Record RemoteReadResult := {
  rrr_txn_id : TxnId;
  rrr_partition : Z;
  will_abort : bool;
  rrr_abort_reason : string;
  reads : list KeyValueEntry
}.

Inductive worker_msg :=
  | SendRemoteRead (destinations : list MachineId) (r : RemoteReadResult)
  | StartRedirect (tag : TxnId) (channel : Channel)
  | StopRedirect (tag : TxnId)
  | SendFinished (server : MachineId) (partition : Z) (t : Transaction)
  | TellScheduler (txn : TxnId) (holder : TxnHolder).

Record worker := {
  w_storage : Storage;
  txn_states_ : gmap TxnId TransactionState;
  w_out : list worker_msg
}.

Definition set_state (i : TxnId) (s : TransactionState) (w : worker) : worker :=
  {| w_storage := w_storage w; txn_states_ := <[i := s]> (txn_states_ w); w_out := w_out w |}.

Definition set_storage (st : Storage) (w : worker) : worker :=
  {| w_storage := st; txn_states_ := txn_states_ w; w_out := w_out w |}.

Definition send (m : worker_msg) (w : worker) : worker :=
  {| w_storage := w_storage w; txn_states_ := txn_states_ w; w_out := w_out w ++ [m] |}.

Definition with_txn (t : Transaction) (s : TransactionState) : TransactionState :=
  {| txn_holder := set_txn t (txn_holder s);
     remote_reads_waiting_on := remote_reads_waiting_on s; phase := phase s |}.

Definition with_phase (p : Phase) (s : TransactionState) : TransactionState :=
  {| txn_holder := txn_holder s; remote_reads_waiting_on := remote_reads_waiting_on s; phase := p |}.

Definition with_waiting (n : Z) (s : TransactionState) : TransactionState :=
  {| txn_holder := txn_holder s; remote_reads_waiting_on := n; phase := phase s |}.

Definition TxnState (w : worker) (i : TxnId) : result TransactionState :=
  from_option Ok (Err (Undef "txn_states_.end()->second")) (txn_states_ w !! i).

Definition abort_txn (reason : string) (t : Transaction) : Transaction :=
  set_abort_reason reason (set_status ABORTED t).

(** The loop over the keys: it stops at the first key that makes the transaction abort. *)
Fixpoint read_keys (st : Storage) (remaster : bool) (ks : list KeyValueEntry) :
    list KeyValueEntry * option string :=
  match ks with
  | [] => ([], None)
  | kv :: ks =>
    match Read st (key kv) with
    | Some r =>
      if decide (key_master kv = md_master (metadata_ r)) then
        let '(ks', a) := read_keys st remaster ks in
        (set_value_entry (set_value (record_to_string r) (value_entry kv)) kv :: ks', a)
      else (kv :: ks, Some "Outdated master"%string)
    | None =>
      if remaster then (kv :: ks, Some ("Remaster non-existent key " +:+ key kv)%string)
      else let '(ks', a) := read_keys st remaster ks in (kv :: ks', a)
    end
  end.

Section worker.
  Context (c : Configuration) (channel : Channel) (check_counters : bool).
  Context (execute : Transaction → Storage → result (Transaction * Storage)).
  Context (recorded : TransactionEvent → list TransactionEventInfo).

Definition RECORD (ev : TransactionEvent) (t : Transaction) : Transaction :=
  set_internal (λ i, set_events (events i ++ recorded ev) i) t.

Definition NotifyOtherPartitions (i : TxnId) (w : worker) : result worker :=
  s ← TxnState w i;
  t ← holder_txn (txn_holder s);
  match active_partitions (internal t) with
  | [] => Ok w
  | ps =>
    let aborted := bool_decide (status t = ABORTED) in
    let destinations :=
      MakeMachineId c (local_replica c) <$> filter (λ p, p ≠ local_partition c) ps in
    Ok (send (SendRemoteRead destinations
         {| rrr_txn_id := i; rrr_partition := local_partition c; will_abort := aborted;
            rrr_abort_reason := abort_reason t; reads := if aborted then [] else keys t |}) w)
  end.

(** The checks and reads of a transaction that has not been aborted. *)
Definition check_and_read (st : Storage) (t : Transaction) : result Transaction :=
  t ← (if check_counters then
         r ← CheckCounters st t false;
         match r with
         | VALID => Ok t
         | VM_ABORT => Ok (abort_txn "Outdated counter" t)
         | VM_WAITING => Err (Fatal "Transaction was sent to worker with a high counter")
         end
       else Ok t);
  let '(ks, a) := read_keys st (is_remaster t) (keys t) in
  let t := set_keys ks t in
  Ok (match a with Some reason => abort_txn reason t | None => t end).

Definition ReadLocalStorage (i : TxnId) (w : worker) : result worker :=
  s ← TxnState w i;
  t ← holder_txn (txn_holder s);
  t ← (if decide (status t ≠ ABORTED) then check_and_read (w_storage w) t else Ok t);
  let s := with_txn t s in
  w ← NotifyOtherPartitions i (set_state i s w);
  let n := if decide (local_partition c ∈ active_partitions (internal t))
           then u32 (Z.of_nat (length (involved_partitions (internal t))) - 1) else 0%Z in
  let s := with_waiting n s in
  if decide (n = 0%Z) then Ok (set_state i (with_phase EXECUTE s) w)
  else Ok (set_state i (with_phase WAIT_REMOTE_READ s) (send (StartRedirect i channel) w)).

Definition Execute (i : TxnId) (w : worker) : result worker :=
  s ← TxnState w i;
  t ← holder_txn (txn_holder s);
  match program t with
  | kCode _ =>
    '(t, st) ← (if decide (status t ≠ ABORTED) then execute t (w_storage w) else Ok (t, w_storage w));
    Ok (set_state i (with_phase FINISH (with_txn t s)) (set_storage st w))
  | kRemaster new_master _ =>
    let t := set_status COMMITTED t in
    match keys t with
    | [] => Err (Undef "txn.keys().begin()")
    | kv :: _ =>
      let record := default empty_record (Read (w_storage w) (key kv)) in
      let new_counter := u32 (counter (metadata (value_entry kv)) + 1) in
      let record := SetMetadata {| md_master := new_master; md_counter := new_counter |} record in
      let st := (Write (w_storage w) (key kv) record).1 in
      let s := with_txn t s in
      let s := {| txn_holder := SetRemasterResult (key kv) new_counter (txn_holder s);
                  remote_reads_waiting_on := remote_reads_waiting_on s; phase := FINISH |} in
      Ok (set_state i s (set_storage st w))
    end
  | PROGRAM_NOT_SET => Err (Fatal "Procedure is not set")
  end.

(** [mutable_code] and [mutable_remaster] select a member of the [oneof]. *)
Definition dummy_txn (t : Transaction) : Transaction :=
  set_program (kRemaster 0 false) (set_keys [] t).

Definition Finish (i : TxnId) (w : worker) : result worker :=
  s ← TxnState w i;
  '(h, t) ← FinalizeAndRelease (txn_holder s);
  let t := RECORD EXIT_WORKER t in
  let coordinator := coordinating_server (internal t) in
  let w :=
    if decide ((UnpackMachineId c coordinator).1 = local_replica c) then
      let t := if cp_return_dummy_txn (config_ c) then dummy_txn t else t in
      send (SendFinished coordinator (local_partition c) t) w
    else w in
  let w := send (TellScheduler i h) w in
  Ok {| w_storage := w_storage w; txn_states_ := delete i (txn_states_ w); w_out := w_out w |}.

Definition run_execute (i : TxnId) (w : worker) : result worker :=
  w ← Execute i w; Finish i w.

Definition AdvanceTransaction (i : TxnId) (w : worker) : result worker :=
  s ← TxnState w i;
  match phase s with
  | READ_LOCAL_STORAGE =>
    w ← ReadLocalStorage i w;
    s ← TxnState w i;
    match phase s with
    | WAIT_REMOTE_READ => Ok w
    | EXECUTE => run_execute i w
    | _ => Finish i w
    end
  | WAIT_REMOTE_READ => Ok w
  | EXECUTE => run_execute i w
  | FINISH => Finish i w
  end.

(** A new transaction from the scheduler: [OnCustomSocket]. *)
Definition OnTransaction (h : TxnHolder) (w : worker) : result worker :=
  t ← holder_txn h;
  let t := RECORD ENTER_WORKER t in
  let i := txn_id t in
  let s := default {| txn_holder := set_txn t h; remote_reads_waiting_on := 0; phase := READ_LOCAL_STORAGE |}
             (txn_states_ w !! i) in
  AdvanceTransaction i (set_state i (with_phase READ_LOCAL_STORAGE s) w).

(** A remote read result: [OnInternalRequestReceived]. *)
Definition OnRemoteRead (r : RemoteReadResult) (w : worker) : result worker :=
  match txn_states_ w !! rrr_txn_id r with
  | None => Ok w
  | Some s =>
    t ← holder_txn (txn_holder s);
    let t :=
      if decide (status t ≠ ABORTED) then
        if will_abort r then abort_txn (rrr_abort_reason r) t else set_keys (keys t ++ reads r) t
      else t in
    let s := with_waiting (u32 (remote_reads_waiting_on s - 1)) (with_txn t s) in
    w ← (if decide (remote_reads_waiting_on s = 0%Z) then
           if decide (phase s = WAIT_REMOTE_READ) then
             Ok (send (StopRedirect (rrr_txn_id r)) (set_state (rrr_txn_id r) (with_phase EXECUTE s) w))
           else Err (Fatal "Invalid phase")
         else Ok (set_state (rrr_txn_id r) s w));
    AdvanceTransaction (rrr_txn_id r) w
  end.
End worker.

(** ** Bookkeeping *)

Definition told_of (m : worker_msg) : list TxnId :=
  match m with TellScheduler i _ => [i] | _ => [] end.

(** The transactions reported to the scheduler, in order. *)
Definition told (w : worker) : list TxnId := w_out w ≫= told_of.

Lemma told_send m w : told (send m w) = told w ++ told_of m.
Proof. unfold told. simpl. rewrite bind_app. simpl. by rewrite app_nil_r. Qed.

Lemma TxnState_Ok w i s : TxnState w i = Ok s ↔ txn_states_ w !! i = Some s.
Proof. unfold TxnState. destruct (txn_states_ w !! i); simpl; naive_solver. Qed.

Lemma TxnState_set w i s : TxnState (set_state i s w) i = Ok s.
Proof. unfold TxnState. simpl. by rewrite lookup_insert_eq. Qed.

Lemma holder_txn_lookup h t : holder_txn h = Ok t ↔ lo_txns_ h !! main_txn_idx_ h = Some (Some t).
Proof. unfold holder_txn. destruct (lo_txns_ h !! main_txn_idx_ h) as [[]|]; naive_solver. Qed.

Lemma holder_txn_set h t t' : holder_txn h = Ok t → holder_txn (set_txn t' h) = Ok t'.
Proof.
  rewrite !holder_txn_lookup. intros Hl. simpl. apply list_lookup_insert_eq. by eapply lookup_lt_Some.
Qed.

Section facts.
  Context (c : Configuration) (channel : Channel) (check_counters : bool).
  Context (execute : Transaction → Storage → result (Transaction * Storage)).
  Context (recorded : TransactionEvent → list TransactionEventInfo).
  Abbreviation run_execute := (run_execute c execute recorded).
  Abbreviation OnTransaction := (OnTransaction c channel check_counters execute recorded).
  Abbreviation OnRemoteRead := (OnRemoteRead c channel check_counters execute recorded).

Lemma Execute_states i w w' :
  Execute execute i w = Ok w' → (∃ s, txn_states_ w' = <[i := s]> (txn_states_ w)) ∧ w_out w' = w_out w.
Proof.
  unfold Execute. destruct (TxnState w i) as [s|]; cbn [mbind result_bind]; [|done].
  destruct (holder_txn (txn_holder s)) as [t|]; cbn [mbind result_bind]; [|done].
  destruct (program t) as [|ps|nm lo]; [done| |].
  - destruct (if decide _ then _ else _) as [[t' st]|]; cbn [mbind result_bind]; [|done].
    intros [= <-]. by eauto.
  - destruct (keys (set_status COMMITTED t)); [done|]. intros [= <-]. by eauto.
Qed.

Lemma Finish_states i w w' :
  Finish c recorded i w = Ok w' → txn_states_ w' = delete i (txn_states_ w) ∧ told w' = told w ++ [i].
Proof.
  unfold Finish. destruct (TxnState w i) as [s|]; cbn [mbind result_bind]; [|done].
  destruct (FinalizeAndRelease (txn_holder s)) as [[h t]|]; cbn [mbind result_bind]; [|done].
  case_decide; intros [= <-]; (split; [done|]); unfold told; simpl; rewrite ?bind_app; simpl;
    by rewrite ?app_nil_r.
Qed.

Lemma run_execute_states i w w' :
  run_execute i w = Ok w' → txn_states_ w' = delete i (txn_states_ w) ∧ told w' = told w ++ [i].
Proof.
  unfold Worker.run_execute. destruct (Execute execute i w) as [w1|] eqn:He; cbn [mbind result_bind]; [|done].
  intros [-> Ht]%Finish_states. apply Execute_states in He as [(s & ->) Ho].
  rewrite delete_insert_eq. unfold told in *. by rewrite Ht, Ho.
Qed.

(** A transaction that waits. *)
Definition waits (s : TransactionState) : Prop :=
  phase s = WAIT_REMOTE_READ ∧ (0 < remote_reads_waiting_on s < 2 ^ 32)%Z ∧
  is_Some (mjoin (lo_txns_ (txn_holder s) !! main_txn_idx_ (txn_holder s))).

(** After a handler, a transaction either waits or has been reported and forgotten. *)
Definition settled (i : TxnId) (w w' : worker) : Prop :=
  (∃ s, txn_states_ w' = <[i := s]> (txn_states_ w) ∧ waits s ∧ told w' = told w) ∨
  (txn_states_ w' = delete i (txn_states_ w) ∧ told w' = told w ++ [i]).

(** The messages that tell of a transaction's outcome say that it is [st]. *)
Definition says (st : TransactionStatus) (m : worker_msg) : Prop :=
  match m with
  | SendFinished _ _ t => status t = st
  | SendRemoteRead _ r => will_abort r = bool_decide (st = ABORTED)
  | _ => True
  end.

Definition new_msgs (w w' : worker) (P : worker_msg → Prop) : Prop :=
  ∃ ms, w_out w' = w_out w ++ ms ∧ Forall P ms.

Lemma new_msgs_trans w w1 w2 P : new_msgs w w1 P → new_msgs w1 w2 P → new_msgs w w2 P.
Proof.
  intros (ms1 & H1 & HP1) (ms2 & H2 & HP2). exists (ms1 ++ ms2).
  rewrite H2, H1, app_assoc. split; [done|]. by apply Forall_app.
Qed.

Lemma NotifyOtherPartitions_out i w w' s t :
  txn_states_ w !! i = Some s → holder_txn (txn_holder s) = Ok t →
  NotifyOtherPartitions c i w = Ok w' →
  txn_states_ w' = txn_states_ w ∧ w_storage w' = w_storage w ∧ told w' = told w ∧
  new_msgs w w' (says (status t)).
Proof.
  intros Hs Ht. unfold NotifyOtherPartitions. apply TxnState_Ok in Hs. rewrite Hs. cbn [mbind result_bind].
  rewrite Ht. cbn [mbind result_bind]. destruct (active_partitions (internal t)).
  - intros [= <-]. repeat split. exists []. by rewrite app_nil_r.
  - intros [= <-]. repeat split; [rewrite told_send; by rewrite app_nil_r|]. eexists. split; [done|].
    by apply Forall_singleton.
Qed.
(** The transaction after its local reads, and the remote reads it then waits for. *)
Definition local_read (st : Storage) (t : Transaction) : result Transaction :=
  if decide (status t ≠ ABORTED) then check_and_read check_counters st t else Ok t.

Definition reads_needed (t : Transaction) : Z :=
  if decide (local_partition c ∈ active_partitions (internal t))
  then u32 (Z.of_nat (length (involved_partitions (internal t))) - 1) else 0%Z.

Definition read_state (h : TxnHolder) (t : Transaction) : TransactionState :=
  {| txn_holder := set_txn t h; remote_reads_waiting_on := reads_needed t;
     phase := if decide (reads_needed t = 0%Z) then EXECUTE else WAIT_REMOTE_READ |}.

Lemma ReadLocalStorage_spec i w s t w' :
  txn_states_ w !! i = Some s → holder_txn (txn_holder s) = Ok t →
  ReadLocalStorage c channel check_counters i w = Ok w' →
  ∃ t', local_read (w_storage w) t = Ok t' ∧
    txn_states_ w' = <[i := read_state (txn_holder s) t']> (txn_states_ w) ∧
    w_storage w' = w_storage w ∧ told w' = told w ∧ new_msgs w w' (says (status t')).
Proof.
  intros Hs Ht. unfold ReadLocalStorage. apply TxnState_Ok in Hs. rewrite Hs. cbn [mbind result_bind].
  rewrite Ht. cbn [mbind result_bind]. fold (local_read (w_storage w) t).
  destruct (local_read (w_storage w) t) as [t'|]; cbn [mbind result_bind]; [|done].
  destruct (NotifyOtherPartitions _ _ _) as [w1|] eqn:Hn; cbn [mbind result_bind]; [|done].
  eapply NotifyOtherPartitions_out in Hn as (Hst & Hsto & Htold & Hms);
    [|by apply lookup_insert_eq|by eapply holder_txn_set]. fold (reads_needed t').
  assert (Hrs : ∀ p, p = (if decide (reads_needed t' = 0%Z) then EXECUTE else WAIT_REMOTE_READ) →
    with_phase p (with_waiting (reads_needed t') (with_txn t' s)) = read_state (txn_holder s) t').
  { intros p ->. done. }
  case_decide as Hz; intros [= <-]; exists t'; (split; [done|]); simpl;
    (rewrite Hrs by (by rewrite ?decide_True, ?decide_False)); rewrite Hst; simpl; rewrite insert_insert_eq;
    (split; [done|split; [done|]]).
  - done.
  - split; [change (told (send (StartRedirect i channel) w1) = told w); rewrite told_send; simpl; by rewrite app_nil_r|].
    eapply new_msgs_trans; [exact Hms|]. eexists. split; [done|]. by apply Forall_singleton.
Qed.

Lemma read_state_waits h t0 t :
  holder_txn h = Ok t0 → reads_needed t ≠ 0%Z → waits (read_state h t).
Proof.
  intros Hh Hn. unfold waits, read_state. simpl. rewrite decide_False by done. split; [done|]. split.
  - unfold reads_needed in *. case_decide; [|done]. unfold u32, wrapu in *.
    pose proof (Z.mod_pos_bound (Z.of_nat (length (involved_partitions (internal t))) - 1) (2 ^ 32)). lia.
  - apply holder_txn_lookup in Hh. rewrite list_lookup_insert_eq by (by eapply lookup_lt_Some). by eexists.
Qed.

(** A new transaction is read first; if it needs no remote reads, it is executed. *)
Lemma OnTransaction_spec h t w w' :
  holder_txn h = Ok t → txn_states_ w !! txn_id t = None → OnTransaction h w = Ok w' →
  ∃ t' w1, local_read (w_storage w) (RECORD recorded ENTER_WORKER t) = Ok t' ∧
    txn_states_ w1 = <[txn_id t := read_state (set_txn (RECORD recorded ENTER_WORKER t) h) t']> (txn_states_ w) ∧
    w_storage w1 = w_storage w ∧ told w1 = told w ∧ new_msgs w w1 (says (status t')) ∧
    (if decide (reads_needed t' = 0%Z) then run_execute (txn_id t) w1 = Ok w' else w' = w1).
Proof.
  intros Hh Hnone. unfold Worker.OnTransaction. rewrite Hh. cbn [mbind result_bind].
  set (t0 := RECORD recorded ENTER_WORKER t). change (txn_id t0) with (txn_id t). rewrite Hnone. simpl default.
  set (s0 := with_phase _ _). set (w0 := set_state _ _ w).
  assert (Hw0 : TxnState w0 (txn_id t) = Ok s0) by apply TxnState_set.
  unfold AdvanceTransaction. rewrite Hw0. cbn [mbind result_bind phase with_phase s0].
  destruct (ReadLocalStorage _ _ _ _ w0) as [w1|] eqn:Hr; cbn [mbind result_bind]; [|done].
  eapply ReadLocalStorage_spec in Hr as (t' & Hl & Hst & Hsto & Htold & Hms);
    [|by apply lookup_insert_eq|by eapply holder_txn_set].
  assert (Hst' : TxnState w1 (txn_id t) = Ok (read_state (set_txn t0 h) t')).
  { apply TxnState_Ok. rewrite Hst. apply lookup_insert_eq. }
  simpl in Hst. rewrite insert_insert_eq in Hst. rewrite Hst'. cbn [mbind result_bind].
  unfold read_state at 1. cbn [phase]. intros Hw'. exists t', w1.
  repeat (split; [done|]). case_decide; [done|congruence].
Qed.

Lemma OnTransaction_settled h t w w' :
  holder_txn h = Ok t → txn_states_ w !! txn_id t = None → OnTransaction h w = Ok w' →
  settled (txn_id t) w w'.
Proof.
  intros Hh Hnone Hon. destruct (OnTransaction_spec h t w w' Hh Hnone Hon)
    as (t' & w1 & _ & Hst & _ & Htold & _ & Hw'). case_decide as Hn.
  - apply run_execute_states in Hw' as [Hs2 Ht2]. right. by rewrite Hs2, Hst, delete_insert_eq, Ht2, Htold.
  - subst w'. left. eexists. split; [done|]. split; [|done].
    eapply read_state_waits; [by eapply holder_txn_set|done].
Qed.

(** What one remote read result does to a transaction. *)
Definition apply_remote (t : Transaction) (r : RemoteReadResult) : Transaction :=
  if decide (status t ≠ ABORTED) then
    if will_abort r then abort_txn (rrr_abort_reason r) t else set_keys (keys t ++ reads r) t
  else t.

Lemma OnRemoteRead_unfold r w s t :
  txn_states_ w !! rrr_txn_id r = Some s → waits s → holder_txn (txn_holder s) = Ok t →
  let s' := with_waiting (remote_reads_waiting_on s - 1) (with_txn (apply_remote t r) s) in
  let w' := set_state (rrr_txn_id r) s' w in
  OnRemoteRead r w =
  if decide (remote_reads_waiting_on s = 1%Z)
  then run_execute (rrr_txn_id r)
         (send (StopRedirect (rrr_txn_id r)) (set_state (rrr_txn_id r) (with_phase EXECUTE s') w))
  else Ok w'.
Proof.
  intros Hs (Hp & Hn & _) Ht. simpl. unfold Worker.OnRemoteRead. rewrite Hs, Ht. cbn [mbind result_bind].
  fold (apply_remote t r).
  assert (Hu : u32 (remote_reads_waiting_on s - 1) = (remote_reads_waiting_on s - 1)%Z).
  { unfold u32, wrapu. apply Z.mod_small. lia. }
  rewrite Hu. cbn [remote_reads_waiting_on with_waiting phase with_txn]. rewrite Hp.
  destruct (decide (remote_reads_waiting_on s = 1%Z)) as [H1|H1].
  - rewrite !decide_True by (done || lia). cbn [mbind result_bind]. unfold AdvanceTransaction.
    unfold TxnState, send at 1. simpl txn_states_. rewrite lookup_insert_eq. done.
  - rewrite decide_False by lia. cbn [mbind result_bind]. unfold AdvanceTransaction.
    rewrite TxnState_set. cbn [mbind result_bind phase with_waiting with_txn]. by rewrite Hp.
Qed.
Lemma waits_holder s : waits s → ∃ t, holder_txn (txn_holder s) = Ok t.
Proof.
  intros (_ & _ & t & Ht). exists t. apply holder_txn_lookup.
  destruct (lo_txns_ _ !! _); simpl in Ht; by subst.
Qed.

Lemma waits_with_txn s t n :
  waits s → (0 < n < 2 ^ 32)%Z → waits (with_waiting n (with_txn t s)).
Proof.
  intros Hw Hn. destruct (waits_holder s Hw) as [t0 Ht0]. destruct Hw as (Hp & _ & _).
  split; [done|]. split; [done|]. apply holder_txn_lookup in Ht0. simpl.
  rewrite list_lookup_insert_eq by (by eapply lookup_lt_Some). by eexists.
Qed.

Lemma OnRemoteRead_settled r w w' s :
  txn_states_ w !! rrr_txn_id r = Some s → waits s → OnRemoteRead r w = Ok w' →
  settled (rrr_txn_id r) w w'.
Proof.
  intros Hs Hw. destruct (waits_holder s Hw) as [t Ht].
  rewrite (OnRemoteRead_unfold r w s t Hs Hw Ht). case_decide as Hn.
  - intros [Hs2 Ht2]%run_execute_states. right. simpl in Hs2. rewrite delete_insert_eq in Hs2.
    split; [done|]. rewrite Ht2, told_send. simpl. by rewrite app_nil_r.
  - intros [= <-]. left. eexists. split; [done|]. split; [|done].
    apply waits_with_txn; [done|]. destruct Hw as (_ & ? & _). lia.
Qed.

(** ** Runs of a worker *)

Inductive worker_event :=
  | EvTransaction (h : TxnHolder)
  | EvRemoteRead (r : RemoteReadResult).

Definition handle (w : worker) (e : worker_event) : result worker :=
  match e with
  | EvTransaction h => OnTransaction h w
  | EvRemoteRead r => OnRemoteRead r w
  end.

Definition dispatched_of (e : worker_event) : list TxnId :=
  match e with
  | EvTransaction h => match holder_txn h with Ok t => [txn_id t] | Err _ => [] end
  | EvRemoteRead _ => []
  end.

Definition empty_worker (st : Storage) : worker :=
  {| w_storage := st; txn_states_ := ∅; w_out := [] |}.

(** The invariant of a run. *)
Definition accounted (ids : list TxnId) (w : worker) : Prop :=
  told w ++ elements (dom (txn_states_ w)) ≡ₚ ids ∧ map_Forall (λ _, waits) (txn_states_ w).

Lemma settled_accounted ids added i w w' :
  accounted ids w → NoDup (ids ++ added) → settled i w w' →
  (added = [i] ∧ txn_states_ w !! i = None ∨ added = [] ∧ is_Some (txn_states_ w !! i)) →
  accounted (ids ++ added) w'.
Proof.
  intros [Hp Hw] Hnd Hset Hcase. assert (Hids : ∀ m : gmap Z TransactionState, dom m ≡ dom (txn_states_ w) ∖ {[i]} →
    is_Some (txn_states_ w !! i) → told w ++ [i] ++ elements (dom m) ≡ₚ ids).
  { intros m Hm Hi%elem_of_dom. rewrite <-Hp. f_equiv. rewrite Hm.
    rewrite <-(elements_singleton (C := gset Z) i), <-elements_disj_union by set_solver.
    f_equiv. intros j. destruct (decide (j = i)); set_solver. }
  destruct Hset as [(s & Hs & Hsw & Ht)|[Hs Ht]]; destruct Hcase as [[-> Hi]|[-> Hi]].
  - split; [|rewrite Hs; by apply map_Forall_insert_2]. rewrite Hs, dom_insert, Ht.
    rewrite elements_disj_union by (rewrite <-not_elem_of_dom in Hi; set_solver).
    rewrite elements_singleton. rewrite (comm (++) [i]), app_assoc. by rewrite Hp.
  - rewrite app_nil_r. split; [|rewrite Hs; by apply map_Forall_insert_2].
    rewrite Hs, Ht, dom_insert_lookup by done. done.
  - rewrite delete_id in Hs by done. split; [|by rewrite Hs].
    rewrite Hs, Ht, <-app_assoc, (comm (++) [i]), app_assoc. by rewrite Hp.
  - rewrite app_nil_r. split; [|rewrite Hs; by apply map_Forall_delete].
    rewrite Ht, <-app_assoc. apply Hids; [|done]. by rewrite Hs, dom_delete.
Qed.

Lemma worker_run_accounted evs ids w w' :
  accounted ids w → NoDup (ids ++ (evs ≫= dispatched_of)) → rfoldl handle w evs = Ok w' →
  accounted (ids ++ (evs ≫= dispatched_of)) w'.
Proof.
  revert ids w. induction evs as [|e evs IH]; intros ids w Ha Hnd Hr.
  { simpl in *. simplify_eq. by rewrite app_nil_r. }
  assert (Hd : (e :: evs) ≫= dispatched_of = dispatched_of e ++ (evs ≫= dispatched_of)) by done.
  rewrite Hd, app_assoc in *. clear Hd. revert Hr. cbn [rfoldl].
  destruct (handle w e) as [w1|] eqn:He; cbn [mbind result_bind]; [|done].
  apply IH; [|done]. pose proof Hnd as [Hnd1 _]%NoDup_app.
  destruct e as [h|r]; simpl in He, Hnd1 |- *.
  - destruct (holder_txn h) as [t|f] eqn:Hh.
    2: { unfold Worker.OnTransaction in He. by rewrite Hh in He. }
    assert (Hi : txn_states_ w !! txn_id t = None).
    { apply not_elem_of_dom. intros Hin. apply NoDup_app in Hnd1 as (_ & Hdisj & _).
      apply (Hdisj (txn_id t)); [|left]. destruct Ha as [<- _]. apply elem_of_app. right. by apply elem_of_elements. }
    eapply settled_accounted; [done|done|by eapply OnTransaction_settled|auto].
  - destruct (txn_states_ w !! rrr_txn_id r) as [s|] eqn:Hs.
    + eapply settled_accounted; [done|done| |right; eauto].
      eapply OnRemoteRead_settled; [done| |done]. destruct Ha as [_ Hw]. by eapply map_Forall_lookup_1 in Hw.
    + unfold Worker.OnRemoteRead in He. rewrite Hs in He. simplify_eq. by rewrite app_nil_r.
Qed.

(** C19. A worker neither loses nor repeats a transaction: after any sequence of dispatched
    transactions with distinct ids and of remote read results, each dispatched transaction
    either has been reported to the scheduler, once, or is waiting, and then for at least
    one more remote read. *)
Theorem worker_reports_once (st : Storage) (evs : list worker_event) (w : worker) :
  NoDup (evs ≫= dispatched_of) → rfoldl handle (empty_worker st) evs = Ok w →
  told w ++ elements (dom (txn_states_ w)) ≡ₚ evs ≫= dispatched_of ∧
  map_Forall (λ _ s, phase s = WAIT_REMOTE_READ ∧ (0 < remote_reads_waiting_on s)%Z) (txn_states_ w).
Proof.
  intros Hnd Hr. destruct (worker_run_accounted evs [] (empty_worker st) w) as [Hp Hw]; [|done|done|].
  - split; [done|apply map_Forall_empty].
  - split; [done|]. eapply map_Forall_impl; [done|]. intros i s (? & ? & _). split; [done|lia].
Qed.
(** ** Remote reads *)

Lemma settled_other i j w w' : settled i w w' → i ≠ j → txn_states_ w' !! j = txn_states_ w !! j.
Proof.
  intros [(s & -> & _)|[-> _]] Hne; [by rewrite lookup_insert_ne|by rewrite lookup_delete_ne].
Qed.

Lemma settled_waits i w w' :
  settled i w w' → map_Forall (λ _, waits) (txn_states_ w) → map_Forall (λ _, waits) (txn_states_ w').
Proof.
  intros [(s & -> & Hs & _)|[-> _]] Hw; [by apply map_Forall_insert_2|by apply map_Forall_delete].
Qed.

Definition mine (i : TxnId) (rs : list RemoteReadResult) : list RemoteReadResult :=
  filter (λ r, rrr_txn_id r = i) rs.

Lemma remote_reads_step i w s t r w' :
  map_Forall (λ _, waits) (txn_states_ w) → txn_states_ w !! i = Some s → holder_txn (txn_holder s) = Ok t →
  (Z.of_nat (length (mine i [r])) < remote_reads_waiting_on s)%Z → OnRemoteRead r w = Ok w' →
  map_Forall (λ _, waits) (txn_states_ w') ∧
  ∃ s', txn_states_ w' !! i = Some s' ∧ holder_txn (txn_holder s') = Ok (foldl apply_remote t (mine i [r])) ∧
    remote_reads_waiting_on s' = (remote_reads_waiting_on s - Z.of_nat (length (mine i [r])))%Z.
Proof.
  intros Hall Hs Ht Hlt Hr. destruct (txn_states_ w !! rrr_txn_id r) as [sr|] eqn:Hsr.
  2: { unfold Worker.OnRemoteRead in Hr. rewrite Hsr in Hr. simplify_eq. split; [done|]. exists s.
       unfold mine. rewrite filter_cons_False by naive_solver. simpl. split; [done|]. split; [done|]. lia. }
  assert (Hwr : waits sr) by (by eapply map_Forall_lookup_1 in Hall).
  pose proof (OnRemoteRead_settled r w w' sr Hsr Hwr Hr) as Hset. split; [by eapply settled_waits|].
  unfold mine in *. rewrite filter_cons in *. case_decide as Hi; simpl in *.
  - subst i. simplify_eq. rewrite (OnRemoteRead_unfold r w s t) in Hr by done.
    rewrite decide_False in Hr by lia. simplify_eq. eexists. split; [apply lookup_insert_eq|].
    split; [by eapply holder_txn_set|done].
  - exists s. rewrite (settled_other _ _ _ _ Hset) by done. split; [done|]. split; [done|]. lia.
Qed.

Lemma remote_reads_collect i rs w s t w' :
  map_Forall (λ _, waits) (txn_states_ w) → txn_states_ w !! i = Some s → holder_txn (txn_holder s) = Ok t →
  (Z.of_nat (length (mine i rs)) < remote_reads_waiting_on s)%Z →
  rfoldl (λ w r, OnRemoteRead r w) w rs = Ok w' →
  map_Forall (λ _, waits) (txn_states_ w') ∧
  ∃ s', txn_states_ w' !! i = Some s' ∧ holder_txn (txn_holder s') = Ok (foldl apply_remote t (mine i rs)) ∧
    remote_reads_waiting_on s' = (remote_reads_waiting_on s - Z.of_nat (length (mine i rs)))%Z.
Proof.
  revert w s t. induction rs as [|r rs IH]; intros w s t Hall Hs Ht Hlt Hr.
  { simpl in *. simplify_eq. split; [done|]. exists s. split; [done|]. split; [done|lia]. }
  assert (Hm : mine i (r :: rs) = mine i [r] ++ mine i rs) by (unfold mine; by rewrite <-filter_app).
  rewrite Hm, length_app in *. revert Hr. cbn [rfoldl].
  destruct (OnRemoteRead r w) as [w1|] eqn:H1; cbn [mbind result_bind]; [|done]. intros Hr.
  destruct (remote_reads_step i w s t r w1 Hall Hs Ht) as (Hall1 & s1 & Hs1 & Ht1 & Hn1); [lia|done|].
  destruct (IH w1 s1 _ Hall1 Hs1 Ht1) as (Hall2 & s2 & Hs2 & Ht2 & Hn2); [lia|done|].
  split; [done|]. exists s2. rewrite foldl_app. split; [done|]. split; [done|lia].
Qed.

(** C18. A waiting transaction is executed when the last of its remote reads arrives and not
    before, however they are interleaved with those of other transactions: while results
    are missing, the transaction has collected those that came, and the last one starts its
    execution on the keys of all of them, or on an aborted transaction if one of the other
    partitions aborted. *)
Theorem worker_collects_remote_reads (i : TxnId) (w w' : worker) (s : TransactionState)
    (t : Transaction) (rs : list RemoteReadResult) (r : RemoteReadResult) :
  map_Forall (λ _, waits) (txn_states_ w) → txn_states_ w !! i = Some s →
  holder_txn (txn_holder s) = Ok t → rrr_txn_id r = i →
  remote_reads_waiting_on s = Z.of_nat (S (length (mine i rs))) →
  rfoldl (λ w r, OnRemoteRead r w) w rs = Ok w' →
  ∃ s', txn_states_ w' !! i = Some s' ∧ phase s' = WAIT_REMOTE_READ ∧
    holder_txn (txn_holder s') = Ok (foldl apply_remote t (mine i rs)) ∧
    ∃ s'', holder_txn (txn_holder s'') = Ok (foldl apply_remote t (mine i rs ++ [r])) ∧ phase s'' = EXECUTE ∧
      OnRemoteRead r w' = run_execute i (send (StopRedirect i) (set_state i s'' w')).
Proof.
  intros Hall Hs Ht Hid Hn Hr.
  destruct (remote_reads_collect i rs w s t w' Hall Hs Ht) as (Hall' & s' & Hs' & Ht' & Hn'); [lia|done|].
  assert (Hw' : waits s') by (by eapply map_Forall_lookup_1 in Hall').
  exists s'. split; [done|]. split; [apply Hw'|]. split; [done|].
  subst i. pose proof (OnRemoteRead_unfold r w' s' _ Hs' Hw' Ht') as Hu. simpl in Hu.
  rewrite decide_True in Hu by lia. eexists. split; [|split; [|exact Hu]]; [|done].
  rewrite foldl_app. simpl. by eapply holder_txn_set.
Qed.
(** ** Aborts *)

Lemma finalize_status h h' t t' :
  holder_txn h = Ok t → FinalizeAndRelease h = Ok (h', t') → status t' = status t.
Proof.
  rewrite holder_txn_lookup. unfold FinalizeAndRelease. intros ->. by intros [= <- <-].
Qed.

(** Finishing reports the status of the transaction and leaves the storage alone. *)
Lemma Finish_says i w w' s t :
  txn_states_ w !! i = Some s → holder_txn (txn_holder s) = Ok t → Finish c recorded i w = Ok w' →
  w_storage w' = w_storage w ∧ new_msgs w w' (says (status t)).
Proof.
  intros Hs Ht. unfold Finish. apply TxnState_Ok in Hs. rewrite Hs. cbn [mbind result_bind].
  destruct (FinalizeAndRelease (txn_holder s)) as [[h' t']|] eqn:Hf; cbn [mbind result_bind]; [|done].
  pose proof (finalize_status _ _ _ _ Ht Hf) as Hst. case_decide; intros [= <-]; (split; [done|]).
  - eexists. simpl. rewrite <-app_assoc. split; [done|]. repeat constructor.
    simpl. by destruct (cp_return_dummy_txn (config_ c)).
  - eexists. simpl. split; [done|]. repeat constructor.
Qed.

Lemma run_execute_aborted i w w' s t ps :
  txn_states_ w !! i = Some s → holder_txn (txn_holder s) = Ok t → program t = kCode ps → status t = ABORTED →
  run_execute i w = Ok w' → w_storage w' = w_storage w ∧ new_msgs w w' (says ABORTED).
Proof.
  intros Hs Ht Hp Ha. unfold Worker.run_execute, Execute. pose proof Hs as Hs'%TxnState_Ok. rewrite Hs'.
  cbn [mbind result_bind]. rewrite Ht. cbn [mbind result_bind]. rewrite Hp.
  rewrite decide_False by (by rewrite Ha; intros H). cbn [mbind result_bind]. intros Hf.
  eapply Finish_says in Hf as [Hst Hms]; [|by apply lookup_insert_eq|by eapply holder_txn_set].
  simpl in Hst. rewrite Ha in Hms. split; [done|]. destruct Hms as (ms & Ho & Hms). by exists ms.
Qed.

Lemma read_keys_outdated st ks kv r :
  kv ∈ ks → Read st (key kv) = Some r → md_master (metadata_ r) ≠ key_master kv →
  (read_keys st false ks).2 = Some "Outdated master"%string.
Proof.
  induction ks as [|kv' ks IH]; intros Hin Hr Hne; [by apply not_elem_of_nil in Hin|]. simpl.
  apply elem_of_cons in Hin as [<-|Hin].
  - rewrite Hr. by rewrite decide_False by congruence.
  - destruct (Read st (key kv')) as [r'|]; [case_decide; [|done]|].
    all: destruct (read_keys st false ks) as [ks' a]; simpl; by apply IH.
Qed.

Lemma check_and_read_outdated st t t' ps kv r :
  program t = kCode ps → kv ∈ keys t → Read st (key kv) = Some r → md_master (metadata_ r) ≠ key_master kv →
  check_and_read check_counters st t = Ok t' → status t' = ABORTED ∧ program t' = kCode ps.
Proof.
  intros Hp Hin Hr Hne. unfold check_and_read.
  destruct (if check_counters then _ else _) as [t1|] eqn:H1; cbn [mbind result_bind]; [|done].
  assert (Hk : keys t1 = keys t ∧ program t1 = program t).
  { destruct check_counters; [|by simplify_eq].
    destruct (CheckCounters st t false) as [[]|]; cbn [mbind result_bind] in H1; by simplify_eq. }
  destruct Hk as [Hk Hp1]. unfold is_remaster. rewrite Hp1, Hp, Hk.
  pose proof (read_keys_outdated st (keys t) kv r Hin Hr Hne) as Ho.
  destruct (read_keys st false (keys t)) as [ks' a]. simpl in Ho. subst a. intros [= <-]. simpl.
  by rewrite Hp1, Hp.
Qed.

(** A transaction whose master information is out of date has no effect: if a record
    in the storage names another master for one of its keys, then dispatching it to a
    worker leaves the storage as it is, and everything the worker says about it, to the
    other partitions and to the coordinating server, is that it aborts. *)
Theorem worker_outdated_master (h : TxnHolder) (t : Transaction) (w w' : worker)
    (ps : list (list string)) (kv : KeyValueEntry) (r : StoredRecord) :
  holder_txn h = Ok t → status t ≠ ABORTED → program t = kCode ps → txn_states_ w !! txn_id t = None →
  kv ∈ keys t → Read (w_storage w) (key kv) = Some r → md_master (metadata_ r) ≠ key_master kv →
  OnTransaction h w = Ok w' → w_storage w' = w_storage w ∧ new_msgs w w' (says ABORTED).
Proof.
  intros Hh Hst Hp Hnone Hin Hr Hne Hon.
  destruct (OnTransaction_spec h t w w' Hh Hnone Hon) as (t' & w1 & Hl & Hs1 & Hsto & _ & Hms & Hw').
  unfold local_read in Hl. rewrite decide_True in Hl by done.
  eapply check_and_read_outdated in Hl as [Ha Hp']; [|exact Hp|exact Hin|exact Hr|exact Hne].
  rewrite Ha in Hms. case_decide; [|by subst w'].
  eapply run_execute_aborted in Hw' as [Hst2 Hms2];
    [|rewrite Hs1; by apply lookup_insert_eq|by eapply holder_txn_set, holder_txn_set|done|done].
  rewrite Hst2, Hsto. split; [done|]. by eapply new_msgs_trans.
Qed.

(** A remaster transaction that the worker has decided to abort commits all the same:
    dispatching the remaster of a key that the storage does not have creates the key, with
    the new master and the next counter, although reading it set the status to aborted. *)
Theorem worker_remaster_ignores_abort (h : TxnHolder) (t : Transaction) (w w' : worker)
    (new_master : Z) (lock_only : bool) (kv : KeyValueEntry) :
  holder_txn h = Ok t → program t = kRemaster new_master lock_only → keys t = [kv] →
  txn_states_ w !! txn_id t = None → Read (w_storage w) (key kv) = None →
  active_partitions (internal t) = [] → check_counters = false → status t = NOT_STARTED →
  OnTransaction h w = Ok w' →
  (∃ t', local_read (w_storage w) (RECORD recorded ENTER_WORKER t) = Ok t' ∧ status t' = ABORTED) ∧
  w_storage w' !! key kv =
    Some {| metadata_ := {| md_master := new_master; md_counter := u32 (counter (metadata (value_entry kv)) + 1) |};
            data_ := Some EmptyString |} ∧
  told w' = told w ++ [txn_id t].
Proof.
  intros Hh Hp Hk Hnone Hr Hact Hcc Hst Hon.
  destruct (OnTransaction_spec h t w w' Hh Hnone Hon) as (t' & w1 & Hl & Hs1 & Hsto & Htold & _ & Hw').
  assert (Ht' : status t' = ABORTED ∧ program t' = program t ∧ keys t' = [kv] ∧ internal t' = internal (RECORD recorded ENTER_WORKER t)).
  { revert Hl. unfold local_read. rewrite decide_True by (simpl; by rewrite Hst).
    unfold check_and_read. rewrite Hcc. cbn [mbind result_bind].
    unfold is_remaster. simpl program. simpl keys. rewrite Hp, Hk. simpl read_keys. rewrite Hr.
    by intros [= <-]. }
  destruct Ht' as (Ha & Hp' & Hk' & Hi'). split; [by eexists|].
  assert (Hn : reads_needed t' = 0%Z).
  { unfold reads_needed. rewrite Hi'. simpl. rewrite Hact. by rewrite decide_False by apply not_elem_of_nil. }
  rewrite decide_True in Hw' by done. pose proof Hw' as [_ Ht2]%run_execute_states. split; [|congruence].
  revert Hw'. unfold Worker.run_execute, Execute.
  assert (Hts : TxnState w1 (txn_id t) = Ok (read_state (set_txn (RECORD recorded ENTER_WORKER t) h) t')).
  { apply TxnState_Ok. rewrite Hs1. apply lookup_insert_eq. }
  rewrite Hts. cbn [mbind result_bind txn_holder read_state].
  erewrite holder_txn_set by (by eapply holder_txn_set). cbn [mbind result_bind]. rewrite Hp', Hp. simpl keys.
  rewrite Hk', Hsto, Hr. cbn [mbind result_bind]. unfold Finish at 1. unfold TxnState at 1, set_state at 1.
  simpl txn_states_. rewrite lookup_insert_eq. cbn [from_option mbind result_bind txn_holder].
  destruct (FinalizeAndRelease _) as [[h2 t2]|]; cbn [mbind result_bind]; [|done].
  case_decide; intros [= <-]; simpl; by rewrite lookup_insert_eq.
Qed.
End facts.

(** ** Examples *)

Definition example_execute : Transaction → Storage → result (Transaction * Storage) :=
  kv_Execute (λ _, 0%Z) 0.

(** A transaction held alone, over two partitions if [ps] says so. *)
Definition held (ps : list Z) (t : Transaction) : TxnHolder :=
  let t := set_internal (λ i, set_active_partitions ps (set_involved_partitions ps
             (set_involved_replicas [0%Z] i))) t in
  {| txn_id_ := txn_id t; main_txn_idx_ := 0; lo_txns_ := [Some t]; remaster_result_ := None;
     aborting_ := false; done_ := false; num_lo_txns_ := 1; expected_num_lo_txns_ := 1;
     num_dispatches_ := 1 |}.

Definition set_b : Transaction :=
  make_txn 1 SINGLE_HOME 0 (kCode [["SET"; "a"; "1"]%string]) [make_entry "a" WRITE 0 0].

Definition remote_b (i : TxnId) : RemoteReadResult :=
  {| rrr_txn_id := i; rrr_partition := 1; will_abort := false; rrr_abort_reason := EmptyString;
     reads := [make_entry "b" READ 0 0] |}.

Definition remaster_a : Transaction :=
  make_txn 2 SINGLE_HOME 0 (kRemaster 1 false) [make_entry "a" WRITE 0 0].

Definition example_events : list worker_event :=
  [EvTransaction (held [0; 1]%Z set_b); EvTransaction (held [] remaster_a);
   EvRemoteRead (remote_b 2); EvRemoteRead (remote_b 1)].

Abbreviation example_handle := (handle example_config 15 false example_execute (λ _, [])).

Lemma worker_reports_once_witness :
  ∃ w, rfoldl example_handle (empty_worker ∅) example_events = Ok w ∧ told w ≡ₚ [1; 2]%Z.
Proof.
  destruct (rfoldl example_handle (empty_worker ∅) example_events) as [w|] eqn:Hr;
    [|vm_compute in Hr; discriminate Hr].
  exists w. split; [done|].
  destruct (worker_reports_once example_config 15 false example_execute (λ _, []) ∅ example_events w) as [Hp _];
    [apply (bool_decide_eq_true_1 _); by vm_compute|done|].
  assert (Hd : txn_states_ w = ∅) by (vm_compute in Hr; by injection Hr as <-).
  rewrite Hd, dom_empty_L, elements_empty, app_nil_r in Hp. exact Hp.
Defined.

Lemma worker_collects_remote_reads_witness :
  ∃ w w' s t, rfoldl (λ w r, OnRemoteRead example_config 15 false example_execute (λ _, []) r w) w [remote_b 1] = Ok w' ∧
    txn_states_ w' !! 1%Z = Some s ∧ phase s = WAIT_REMOTE_READ ∧ holder_txn (txn_holder s) = Ok (apply_remote t (remote_b 1)) ∧
    ∃ s', phase s' = EXECUTE ∧ OnRemoteRead example_config 15 false example_execute (λ _, []) (remote_b 1) w' =
      run_execute example_config example_execute (λ _, []) 1 (send (StopRedirect 1) (set_state 1 s' w')).
Proof.
  destruct (OnTransaction example_config 15 false example_execute (λ _, []) (held [0; 1; 2]%Z set_b)
    (empty_worker ∅)) as [w|] eqn:Hr; [|vm_compute in Hr; discriminate Hr].
  destruct (txn_states_ w !! 1%Z) as [s|] eqn:Hs; [|vm_compute in Hr; injection Hr as <-; discriminate Hs].
  destruct (holder_txn (txn_holder s)) as [t|] eqn:Ht.
  2: { vm_compute in Hr. injection Hr as <-. vm_compute in Hs. injection Hs as <-. discriminate Ht. }
  destruct (rfoldl (λ w r, OnRemoteRead example_config 15 false example_execute (λ _, []) r w) w [remote_b 1]) as [w'|] eqn:Hw'.
  2: { vm_compute in Hr. injection Hr as <-. vm_compute in Hw'. discriminate Hw'. }
  destruct (worker_collects_remote_reads example_config 15 false example_execute (λ _, []) 1 w w' s t
    [remote_b 1] (remote_b 1)) as (s' & Hs' & Hp' & Ht' & s2 & _ & He & Hon); [|done|done|done| |done|].
  - apply (worker_run_accounted example_config 15 false example_execute (λ _, [])
      [EvTransaction (held [0; 1; 2]%Z set_b)] [] (empty_worker ∅) w).
    + split; [done|apply map_Forall_empty].
    + apply (bool_decide_eq_true_1 _). by vm_compute.
    + simpl rfoldl. by rewrite Hr.
  - vm_compute in Hr. injection Hr as <-. vm_compute in Hs. by injection Hs as <-.
  - exists w, w', s', t. split; [done|]. split; [done|]. split; [done|]. split; [exact Ht'|]. exists s2. split; [done|exact Hon].
Defined.

Lemma worker_outdated_master_witness :
  ∃ w', OnTransaction example_config 15 false example_execute (λ _, []) (held [] set_b)
          (empty_worker {["a"%string := MakeRecord "x" 1 1]}) = Ok w' ∧
    w_storage w' = {["a"%string := MakeRecord "x" 1 1]}.
Proof.
  destruct (OnTransaction example_config 15 false example_execute (λ _, []) (held [] set_b)
    (empty_worker {["a"%string := MakeRecord "x" 1 1]})) as [w'|] eqn:Hr; [|vm_compute in Hr; discriminate Hr].
  exists w'. split; [done|].
  destruct (worker_outdated_master example_config 15 false example_execute (λ _, [])
    (held [] set_b) (set_internal (λ i, set_active_partitions [] (set_involved_partitions []
             (set_involved_replicas [0%Z] i))) set_b)
    (empty_worker {["a"%string := MakeRecord "x" 1 1]}) w' [["SET"; "a"; "1"]%string]
    (make_entry "a" WRITE 0 0) (MakeRecord "x" 1 1)) as [Hst _]; [done..|left|done|done|done|exact Hst].
Defined.

Lemma worker_remaster_ignores_abort_witness :
  ∃ w', OnTransaction example_config 15 false example_execute (λ _, []) (held [] remaster_a)
          (empty_worker ∅) = Ok w' ∧
    is_Some (w_storage w' !! "a"%string).
Proof.
  destruct (OnTransaction example_config 15 false example_execute (λ _, []) (held [] remaster_a)
    (empty_worker ∅)) as [w'|] eqn:Hr; [|vm_compute in Hr; discriminate Hr].
  exists w'. split; [done|].
  destruct (worker_remaster_ignores_abort example_config 15 false example_execute (λ _, [])
    (held [] remaster_a) (set_internal (λ i, set_active_partitions [] (set_involved_partitions []
             (set_involved_replicas [0%Z] i))) remaster_a)
    (empty_worker ∅) w' 1 false (make_entry "a" WRITE 0 0)) as (_ & Hk & _); [done..|].
  by eexists.
Defined.
