(* ===== verification/Scheduler.v ===== *)
(** * The scheduler

    [module/scheduler.cpp], in the builds without a remaster manager (the default,
    [REMASTER_PROTOCOL_COUNTERLESS], and [_NONE]). It is a client of the lock-manager
    interface: every transaction is sent for its locks and dispatched to a worker once
    it has them all. The holders are shared with the workers, so the report of a worker
    carries the holder as the worker left it. *)
From S2P Require Import Prelude Types LockSpec Config ProtoUtils TxnHolder.
From S2P Require RMALock DDRLock.

Section scheduler.
  Context {L : Type} `{LockManager L}.
  Context (c : Configuration).
  Context (recorded : TransactionEvent → list TransactionEventInfo).

Record scheduler := {
  lock_manager_ : L;
  active_txns_ : gmap TxnId TxnHolder;
  global_log_counter_ : Z;
  (** the ids sent to the workers, in order *)
  sent : list TxnId
}.

Definition sched_init : scheduler :=
  {| lock_manager_ := lm_init; active_txns_ := ∅; global_log_counter_ := 0; sent := [] |}.

Definition set_holder (i : TxnId) (h : TxnHolder) (s : scheduler) : scheduler :=
  {| lock_manager_ := lock_manager_ s; active_txns_ := <[i := h]> (active_txns_ s);
     global_log_counter_ := global_log_counter_ s; sent := sent s |}.

Definition set_lock_manager (l : L) (s : scheduler) : scheduler :=
  {| lock_manager_ := l; active_txns_ := active_txns_ s;
     global_log_counter_ := global_log_counter_ s; sent := sent s |}.

Definition erase_txn (i : TxnId) (s : scheduler) : scheduler :=
  {| lock_manager_ := lock_manager_ s; active_txns_ := delete i (active_txns_ s);
     global_log_counter_ := global_log_counter_ s; sent := sent s |}.

Definition record_event (ev : TransactionEvent) (t : Transaction) : Transaction :=
  set_internal (λ i, set_events (events i ++ recorded ev) i) t.

(** [holder.txn()] changed in place. *)
Definition on_txn (f : Transaction → Transaction) (h : TxnHolder) : result TxnHolder :=
  t ← holder_txn h; Ok (set_txn (f t) h).

Definition add_global_log_positions (xs : list Z) (t : Transaction) : Transaction :=
  set_internal (λ i, set_global_log_positions (global_log_positions i ++ xs) i) t.

Definition Dispatch (i : TxnId) (is_fast : bool) (s : scheduler) : result scheduler :=
  match active_txns_ s !! i with
  | None => Err (Undef "active_txns_.end()->second")
  | Some h =>
    h ← on_txn (record_event (if is_fast then DISPATCHED_FAST else DISPATCHED_SLOW)) h;
    let s := set_holder i (IncNumDispatches h) s in
    Ok {| lock_manager_ := lock_manager_ s; active_txns_ := active_txns_ s;
          global_log_counter_ := global_log_counter_ s; sent := sent s ++ [i] |}
  end.

Definition dispatch_all (ids : list TxnId) (s : scheduler) : result scheduler :=
  rfoldl (λ s i, Dispatch i false s) s ids.

(** The version of the builds without the DDR lock manager. *)
Definition TriggerPreDispatchAbort (i : TxnId) (s : scheduler) : result scheduler :=
  match active_txns_ s !! i with
  | None => Err (Fatal "Check failed: active_txn_it != active_txns_.end()")
  | Some h =>
    if aborting_ h then Err (Fatal "Abort was triggered twice")
    else
      let s := set_holder i (SetAborting h) s in
      _ ← holder_txn h;
      '(l, ids) ← lm_ReleaseLocks (lock_manager_ s) i;
      s ← dispatch_all ids (set_lock_manager l s);
      match active_txns_ s !! i with
      | None => Err (Undef "txn_holder")
      | Some h =>
        h ← on_txn (set_status ABORTED) h;
        Dispatch i false (set_holder i h s)
      end
  end.

(** The transaction in slot [slot] of the holder of [i] is sent for its locks. *)
Definition SendToLockManager (i : TxnId) (slot : nat) (s : scheduler) : result scheduler :=
  match h ← active_txns_ s !! i; lock_only_txn h slot with
  | None => Err (Undef "lock_only_txn")
  | Some t =>
    let t := record_event ENTER_LOCK_MANAGER t in
    let f h := set_lo_txns (<[slot := Some t]> (lo_txns_ h)) (num_lo_txns_ h) h in
    let '(l, r) := lm_AcquireLocks (lock_manager_ s) t in
    let s := {| lock_manager_ := l; active_txns_ := alter f i (active_txns_ s);
                global_log_counter_ := global_log_counter_ s; sent := sent s |} in
    match r with
    | ACQUIRED => Dispatch i true s
    | ABORT => TriggerPreDispatchAbort i s
    | WAITING => Ok s
    end
  end.

(** The holder of an arriving transaction: a new one, or the one it joins. [None] when
    the same transaction was received before. *)
Definition place_txn (t : Transaction) (s : scheduler) : result (option TxnHolder) :=
  match active_txns_ s !! txn_id t with
  | None =>
    h ← NewTxnHolder (num_replicas c) t;
    h ← on_txn (record_event ENTER_SCHEDULER) h;
    Ok (Some h)
  | Some h =>
    '(h, added) ← AddLockOnlyTxn h t;
    if added : bool then h ← on_txn (record_event ENTER_SCHEDULER_LO) h; Ok (Some h)
    else Ok None
  end.

Definition ProcessTransaction (t : Transaction) (s : scheduler) : result scheduler :=
  placed ← place_txn t s;
  let s := {| lock_manager_ := lock_manager_ s; active_txns_ := active_txns_ s;
              global_log_counter_ := global_log_counter_ s + 1; sent := sent s |} in
  match placed with
  | None => Ok s
  | Some h =>
    h ← on_txn (add_global_log_positions [home (internal t); global_log_counter_ s]) h;
    let s := set_holder (txn_id t) h s in
    if aborting_ h then Ok (if is_ready_for_gc h then erase_txn (txn_id t) s else s)
    else SendToLockManager (txn_id t) (Z.to_nat (home (internal t))) s
  end.

(** A report of a worker: one turn of the loop of [OnCustomSocket]. *)
Definition OnWorkerDone (i : TxnId) (h : TxnHolder) (s : scheduler) : result scheduler :=
  let s := {| lock_manager_ := lock_manager_ s; active_txns_ := alter (λ _, h) i (active_txns_ s);
              global_log_counter_ := global_log_counter_ s; sent := sent s |} in
  '(l, ids) ← lm_ReleaseLocks (lock_manager_ s) i;
  s ← dispatch_all ids (set_lock_manager l s);
  match active_txns_ s !! i with
  | None => Err (Fatal "Check failed: it != active_txns_.end()")
  | Some h =>
    let h := SetDone h in
    Ok (if is_ready_for_gc h then erase_txn i s else set_holder i h s)
  end.
End scheduler.
Arguments scheduler : clear implicits.

(** ** What a lock manager sees of a transaction *)

Definition same_txn (t t' : Transaction) : Prop :=
  txn_id t' = txn_id t ∧ home (internal t') = home (internal t) ∧ program t' = program t ∧ keys t' = keys t.

(** Recorded events and log positions do not change what a lock manager does. *)
Class LockManagerFrame (L : Type) `{LockManager L} :=
  lm_acquire_frame l t t' : same_txn t t' → lm_AcquireLocks l t' = lm_AcquireLocks l t.

Lemma foldl_ext_all {A B} (f g : A → B → A) (l : list B) (a : A) :
  (∀ a b, f a b = g a b) → foldl f a l = foldl g a l.
Proof. intros Hfg. revert a. induction l as [|b l IH]; intros a; simpl; [done|]. by rewrite Hfg. Qed.

#[global] Instance rma_frame : LockManagerFrame RMALock.RMALockManager.
Proof.
  intros l t t' (Hi & Hh & Hp & Hk). cbn. unfold RMALock.AcquireLocks, RMALock.num_required_locks, is_remaster, keys_size.
  rewrite Hi, Hp, Hk. erewrite foldl_ext_all; [done|]. intros a kv.
  unfold RMALock.acquire_key, RMALock.skip_key, is_remaster. by rewrite Hi, Hp, Hh.
Qed.

#[global] Instance ddr_frame : LockManagerFrame DDRLock.DDRLockManager.
Proof.
  intros l t t' (Hi & Hh & Hp & Hk). cbn. unfold DDRLock.AcquireLocks, DDRLock.num_required_locks, is_remaster, keys_size.
  rewrite Hi, Hp, Hk. erewrite foldl_ext_all; [done|]. intros a kv.
  unfold DDRLock.request_key, DDRLock.skip_key, is_remaster. by rewrite Hi, Hp, Hh.
Qed.

(** ** Runs of the scheduler *)

Inductive sched_event :=
  | SArrive (t : Transaction)
  | SDone (i : TxnId) (h : TxnHolder).

Definition lock_event_of (e : sched_event) : lock_event :=
  match e with SArrive t => EAcquire t | SDone i _ => ERelease i end.

(** The regions from which transactions arrive. *)
Definition arrival (e : sched_event) : list (TxnId * Z) :=
  match e with SArrive t => [(txn_id t, home (internal t))] | SDone _ _ => [] end.

Section runs.
  Context {L : Type} `{LockManagerFrame L, !LockManagerCorrect L}.
  Context (c : Configuration).
  Context (recorded : TransactionEvent → list TransactionEventInfo).
  Implicit Types (s : scheduler L) (sp : lock_spec) (ps : list (TxnId * Z)).
  Abbreviation record_event := (record_event recorded).
  Abbreviation Dispatch := (Dispatch recorded).

Definition sched_step s (e : sched_event) : result (scheduler L) :=
  match e with
  | SArrive t => ProcessTransaction c recorded t s
  | SDone i h => OnWorkerDone recorded i h s
  end.

(** The holder of a transaction that is not finished. *)
Record holder_ok ps (i : TxnId) (h : TxnHolder) : Prop := {
  ho_aborting : aborting_ h = false;
  ho_main : ∃ t, holder_txn h = Ok t;
  ho_length : length (lo_txns_ h) = Z.to_nat (num_replicas c);
  ho_slots j t : lo_txns_ h !! j = Some (Some t) → (i, Z.of_nat j) ∈ ps
}.

Record sched_ok s sp ps : Prop := {
  so_rel : lm_rel (lock_manager_ s) sp;
  so_active i : is_Some (unarrived sp !! i) → ∃ h, active_txns_ s !! i = Some h ∧ holder_ok ps i h;
  so_none i : unarrived sp !! i = None → i ∉ finished sp → active_txns_ s !! i = None
}.

Lemma holder_lookup h t : holder_txn h = Ok t ↔ lo_txns_ h !! main_txn_idx_ h = Some (Some t).
Proof. unfold holder_txn. destruct (lo_txns_ h !! main_txn_idx_ h) as [[]|]; naive_solver. Qed.

(** Replacing a filled slot keeps a holder in order. *)
Lemma holder_ok_slot ps i h j t t' :
  holder_ok ps i h → lo_txns_ h !! j = Some (Some t) →
  holder_ok ps i (set_lo_txns (<[j := Some t']> (lo_txns_ h)) (num_lo_txns_ h) h).
Proof.
  intros [Ha [m Hm] Hl Hs] Hj. split; simpl; [done| |by rewrite length_insert|].
  - apply holder_lookup in Hm. destruct (decide (j = main_txn_idx_ h)) as [->|Hne].
    + exists t'. apply holder_lookup. simpl. apply list_lookup_insert_eq. by eapply lookup_lt_Some.
    + exists m. apply holder_lookup. simpl. by rewrite list_lookup_insert_ne.
  - intros j' u Hu. destruct (decide (j = j')) as [->|Hne]; [by eapply Hs|].
    rewrite list_lookup_insert_ne in Hu by done. by eapply Hs.
Qed.

Lemma on_txn_ok (f : Transaction → Transaction) ps i h :
  (∀ t, same_txn t (f t)) → holder_ok ps i h →
  ∃ h', on_txn f h = Ok h' ∧ holder_ok ps i h' ∧
    ∀ j t, lock_only_txn h j = Some t → ∃ t', lock_only_txn h' j = Some t' ∧ same_txn t t'.
Proof.
  intros Hf Hok. destruct (ho_main _ _ _ Hok) as [m Hm]. unfold on_txn. rewrite Hm. cbn [mbind result_bind].
  apply holder_lookup in Hm. eexists. split; [done|]. split; [by eapply holder_ok_slot|].
  intros j t. unfold lock_only_txn. simpl. destruct (decide (main_txn_idx_ h = j)) as [<-|Hne].
  - rewrite Hm. intros [= <-]. rewrite list_lookup_insert_eq by (by eapply lookup_lt_Some). eauto.
  - rewrite list_lookup_insert_ne by done. intros Ht. exists t. by split.
Qed.

Lemma same_txn_refl t : same_txn t t.
Proof. by split_and!. Qed.

Lemma same_txn_record ev t : same_txn t (record_event ev t).
Proof. by split_and!. Qed.

Lemma same_txn_trans t1 t2 t3 : same_txn t1 t2 → same_txn t2 t3 → same_txn t1 t3.
Proof. unfold same_txn. intuition congruence. Qed.

Lemma Dispatch_ok i b s sp ps :
  sched_ok s sp ps → is_Some (unarrived sp !! i) →
  ∃ s', Dispatch i b s = Ok s' ∧ sched_ok s' sp ps ∧ sent s' = sent s ++ [i] ∧
    lock_manager_ s' = lock_manager_ s ∧ dom (active_txns_ s') = dom (active_txns_ s).
Proof.
  intros Hok Hi. destruct (so_active _ _ _ Hok i Hi) as (h & Hh & Hho). unfold Scheduler.Dispatch. rewrite Hh.
  destruct (on_txn_ok (record_event (if b then DISPATCHED_FAST else DISPATCHED_SLOW)) ps i h)
    as (h' & -> & Hho' & _); [intros t; apply same_txn_record|done|]. cbn [mbind result_bind].
  eexists. split; [done|]. split; [|split_and!; [done|done|]].
  - split; simpl; [apply Hok| |].
    + intros j Hj. rewrite lookup_insert. case_decide as Hd; [|by apply Hok].
      subst j. eexists. split; [done|]. destruct Hho'. by split.
    + intros j Hj Hf. rewrite lookup_insert_ne by (intros ->; by rewrite Hj in Hi; destruct Hi).
      by eapply so_none.
  - simpl. apply dom_insert_lookup_L. by eexists.
Qed.

Lemma dispatch_all_ok ids s sp ps :
  sched_ok s sp ps → Forall (λ i, is_Some (unarrived sp !! i)) ids →
  ∃ s', dispatch_all recorded ids s = Ok s' ∧ sched_ok s' sp ps ∧ sent s' = sent s ++ ids ∧
    lock_manager_ s' = lock_manager_ s ∧ dom (active_txns_ s') = dom (active_txns_ s).
Proof.
  unfold dispatch_all. revert s. induction ids as [|i ids IH]; intros s Hok Hall.
  { exists s. by rewrite app_nil_r. }
  apply Forall_cons in Hall as [Hi Hall].
  destruct (Dispatch_ok i false s sp ps Hok Hi) as (s1 & H1 & Hok1 & Hs1 & Hl1 & Hd1).
  destruct (IH s1 Hok1 Hall) as (s2 & H2 & Hok2 & Hs2 & Hl2 & Hd2).
  exists s2. simpl. rewrite H1. cbn [mbind result_bind]. rewrite H2.
  split; [done|]. split; [done|]. rewrite Hs2, Hs1, Hl2, Hl1, Hd2, Hd1, <-app_assoc. done.
Qed.
(** An arriving transaction gets a slot of its own. *)
Definition placed_ok ps (t : Transaction) (h : TxnHolder) : Prop :=
  holder_ok ps (txn_id t) h ∧
  ∃ t', lock_only_txn h (Z.to_nat (home (internal t))) = Some t' ∧ same_txn t t'.

Lemma placed_on_txn (f : Transaction → Transaction) ps t h :
  (∀ t, same_txn t (f t)) → placed_ok ps t h → ∃ h', on_txn f h = Ok h' ∧ placed_ok ps t h'.
Proof.
  intros Hf [Hok (t' & Ht' & Hs)]. destruct (on_txn_ok f ps _ h Hf Hok) as (h' & Hh' & Hok' & Hsl).
  destruct (Hsl _ _ Ht') as (t2 & Ht2 & Hs2). exists h'. split; [done|]. split; [done|].
  exists t2. split; [done|]. by eapply same_txn_trans.
Qed.

Lemma NewTxnHolder_ok ps t :
  (0 ≤ home (internal t) < num_replicas c)%Z →
  ∃ h, NewTxnHolder (num_replicas c) t = Ok h ∧
    placed_ok ((txn_id t, home (internal t)) :: ps) t h.
Proof.
  intros Hh. unfold NewTxnHolder, slot. rewrite decide_True by done. eexists. split; [done|].
  assert (Hlt : Z.to_nat (home (internal t)) < Z.to_nat (num_replicas c)) by lia.
  assert (Hl : <[Z.to_nat (home (internal t)) := Some t]> (replicate (Z.to_nat (num_replicas c)) None) !!
    Z.to_nat (home (internal t)) = Some (Some t)).
  { apply list_lookup_insert_eq. by rewrite length_replicate. }
  split; [split; simpl|].
  - done.
  - exists t. by apply holder_lookup.
  - by rewrite length_insert, length_replicate.
  - intros j u. destruct (decide (Z.to_nat (home (internal t)) = j)) as [<-|Hne].
    + intros _. rewrite Z2Nat.id by lia. left.
    + rewrite list_lookup_insert_ne by done. intros Hu. apply lookup_replicate in Hu as [? _]. done.
  - exists t. unfold lock_only_txn. simpl. rewrite Hl. split; [done|apply same_txn_refl].
Qed.

Lemma AddLockOnlyTxn_ok ps t h :
  holder_ok ps (txn_id t) h → (0 ≤ home (internal t) < num_replicas c)%Z →
  (txn_id t, home (internal t)) ∉ ps →
  ∃ h', AddLockOnlyTxn h t = Ok (h', true) ∧ placed_ok ((txn_id t, home (internal t)) :: ps) t h'.
Proof.
  intros [Ha [m Hm] Hl Hs] Hh Hni. unfold AddLockOnlyTxn, slot. rewrite Hl.
  rewrite Z2Nat.id by lia. rewrite decide_False, decide_True by lia.
  assert (Hlt : Z.to_nat (home (internal t)) < length (lo_txns_ h)) by lia.
  destruct (lookup_lt_is_Some_2 _ _ Hlt) as [[u|] Hu].
  { exfalso. apply Hni. apply Hs in Hu. by rewrite Z2Nat.id in Hu by lia. }
  rewrite Hu. eexists. split; [done|]. apply holder_lookup in Hm. split; [split; simpl|].
  - done.
  - exists m. apply holder_lookup. simpl. rewrite list_lookup_insert_ne; [done|]. intros Heq. congruence.
  - by rewrite length_insert.
  - intros j v. destruct (decide (Z.to_nat (home (internal t)) = j)) as [<-|Hne].
    + intros _. rewrite Z2Nat.id by lia. left.
    + rewrite list_lookup_insert_ne by done. intros Hv%Hs. by right.
  - exists t. unfold lock_only_txn. simpl. rewrite list_lookup_insert_eq by done.
    split; [done|apply same_txn_refl].
Qed.

Lemma place_txn_ok s sp ps t :
  sched_ok s sp ps → txn_id t ∉ finished sp → (0 ≤ home (internal t) < num_replicas c)%Z →
  (txn_id t, home (internal t)) ∉ ps →
  ∃ h, place_txn c recorded t s = Ok (Some h) ∧ placed_ok ((txn_id t, home (internal t)) :: ps) t h.
Proof.
  intros Hok Hf Hh Hni. unfold place_txn. destruct (active_txns_ s !! txn_id t) as [h|] eqn:Hact.
  - destruct (unarrived sp !! txn_id t) as [n|] eqn:Hu.
    2: { by rewrite (so_none _ _ _ Hok _ Hu Hf) in Hact. }
    destruct (so_active _ _ _ Hok (txn_id t)) as (h' & Hh' & Hho); [by eexists|]. simplify_eq.
    destruct (AddLockOnlyTxn_ok ps t h Hho Hh Hni) as (h1 & -> & Hp1). cbn [mbind result_bind].
    destruct (placed_on_txn (record_event ENTER_SCHEDULER_LO)
      ((txn_id t, home (internal t)) :: ps) t h1) as (h2 & -> & Hp2);
      [intros; apply same_txn_record|done|]. by exists h2.
  - destruct (NewTxnHolder_ok ps t Hh) as (h1 & -> & Hp1). cbn [mbind result_bind].
    destruct (placed_on_txn (record_event ENTER_SCHEDULER)
      ((txn_id t, home (internal t)) :: ps) t h1) as (h2 & -> & Hp2);
      [intros; apply same_txn_record|done|]. by exists h2.
Qed.

Lemma holder_ok_weaken ps p i h : holder_ok ps i h → holder_ok (p :: ps) i h.
Proof. intros [? ? ? Hs]. split; [done..|]. intros j t Hj%Hs. by right. Qed.

(** What a step of the scheduler does: the lock manager makes its step, and what it
    returns is dispatched. *)
Definition step_ok s (e : sched_event) (s' : scheduler L) sp ps : Prop :=
  ∃ out, lm_step (lock_manager_ s) (lock_event_of e) = Ok (lock_manager_ s', out) ∧
    sent s' = sent s ++ out ∧ sched_ok s' (spec_step sp (lock_event_of e)) (arrival e ++ ps).

Lemma arrive_ok s sp ps t :
  sched_ok s sp ps → allowed sp (EAcquire t) → (0 ≤ home (internal t) < num_replicas c)%Z →
  (txn_id t, home (internal t)) ∉ ps →
  ∃ s', sched_step s (SArrive t) = Ok s' ∧ step_ok s (SArrive t) s' sp ps.
Proof.
  intros Hok Hal Hh Hni. cbn [sched_step]. unfold ProcessTransaction.
  pose proof Hal as (Hfin & _). destruct (place_txn_ok s sp ps t Hok Hfin Hh Hni) as (h & -> & Hp).
  cbn [mbind result_bind global_log_counter_]. set (ps' := (txn_id t, home (internal t)) :: ps) in *.
  destruct (placed_on_txn (add_global_log_positions [home (internal t); global_log_counter_ s + 1]%Z) ps' t h)
    as (h2 & -> & Hho & t2 & Ht2 & Hst); [by intros ?; split_and!|done|]. cbn [mbind result_bind].
  rewrite (ho_aborting _ _ _ Hho). unfold SendToLockManager. simpl active_txns_. rewrite lookup_insert_eq.
  cbn [mbind option_bind]. rewrite Ht2. simpl lock_manager_.
  set (t3 := record_event ENTER_LOCK_MANAGER t2).
  rewrite (lm_acquire_frame _ t t3) by (eapply same_txn_trans; [done|apply same_txn_record]).
  destruct (lm_rel_acquire _ _ t (so_rel _ _ _ Hok) Hal) as [Hrel Hres].
  destruct (lm_AcquireLocks (lock_manager_ s) t) as [l r] eqn:Hacq. simpl in Hrel, Hres.
  set (sp' := spec_acquire _ _ _ _) in *.
  match goal with |- context [Dispatch _ _ ?x] => set (s1 := x) end.
  assert (Hok1 : sched_ok s1 sp' ps').
  { split; simpl; [done| |].
    - intros i Hi. unfold sp', spec_acquire in Hi. simpl in Hi. rewrite lookup_insert in Hi.
      rewrite lookup_alter. destruct (decide (txn_id t = i)) as [<-|Hne].
      + rewrite lookup_insert_eq. simpl. eexists. split; [done|].
        unfold lock_only_txn in Ht2. destruct (lo_txns_ h2 !! _) as [[]|] eqn:Hj; simplify_eq/=.
        by eapply holder_ok_slot.
      + rewrite lookup_insert_ne by done. destruct (so_active _ _ _ Hok i Hi) as (h' & ? & ?).
        exists h'. split; [done|]. by apply holder_ok_weaken.
    - intros i Hi Hf. unfold sp', spec_acquire in Hi, Hf. simpl in Hi, Hf. rewrite lookup_insert in Hi.
      destruct (decide (txn_id t = i)); [done|]. rewrite lookup_alter_ne, lookup_insert_ne by done.
      by eapply so_none. }
  unfold step_ok. cbn [lock_event_of lm_step]. rewrite Hacq. subst r. case_decide as Hready.
  - destruct (Dispatch_ok (txn_id t) true s1 sp' ps' Hok1) as (s2 & -> & Hok2 & Hs2 & Hl2 & _).
    { destruct Hready as [-> _]. by eexists. }
    exists s2. split; [done|]. exists [txn_id t]. rewrite Hs2, Hl2. done.
  - exists s1. split; [done|]. exists []. rewrite app_nil_r. done.
Qed.
Lemma done_ok s sp ps i h :
  sched_ok s sp ps → allowed sp (ERelease i) →
  ∃ s', sched_step s (SDone i h) = Ok s' ∧ step_ok s (SDone i h) s' sp ps.
Proof.
  intros Hok Hready. cbn [sched_step]. unfold OnWorkerDone. simpl lock_manager_.
  destruct (lm_rel_release _ _ i (so_rel _ _ _ Hok) Hready) as (l & out & Hrel & Hl & Hnd & Hout).
  rewrite Hrel. cbn [mbind result_bind]. set (sp' := spec_release sp i) in *.
  match goal with |- context [dispatch_all _ _ ?x] => set (s1 := x) end.
  assert (Hok1 : sched_ok s1 sp' ps).
  { split; simpl; [done| |].
    - intros j Hj. unfold sp' in Hj. simpl in Hj. rewrite lookup_delete_is_Some in Hj. destruct Hj as [Hne Hj].
      rewrite lookup_alter_ne by done. by apply Hok.
    - intros j Hj Hf. unfold sp' in Hj, Hf. simpl in Hj, Hf. assert (Hne : i ≠ j) by set_solver.
      rewrite lookup_delete_ne in Hj by done. rewrite lookup_alter_ne by done.
      apply (so_none _ _ _ Hok); [done|set_solver]. }
  destruct (dispatch_all_ok out s1 sp' ps Hok1) as (s2 & -> & Hok2 & Hs2 & Hl2 & Hd2).
  { apply Forall_forall. intros j Hj%Hout. apply elem_of_filter in Hj as [[[Hr _] _] _]. by eexists. }
  assert (Hi : is_Some (active_txns_ s2 !! i)).
  { apply elem_of_dom. rewrite Hd2. simpl. apply elem_of_dom. rewrite lookup_alter, decide_True by done.
    destruct Hready as [Hu _]. destruct (so_active _ _ _ Hok i) as (h' & -> & _); [by eexists|]. by eexists. }
  destruct Hi as [h2 Hh2]. cbn [mbind result_bind]. rewrite Hh2. eexists. split; [done|]. exists out.
  cbn [lock_event_of lm_step arrival]. rewrite Hrel.
  assert (Hfin : ∀ s3, lock_manager_ s3 = lock_manager_ s2 → sent s3 = sent s2 →
    (∀ j, j ≠ i → active_txns_ s3 !! j = active_txns_ s2 !! j) →
    Ok (l, out) = Ok (lock_manager_ s3, out) ∧ sent s3 = sent s ++ out ∧ sched_ok s3 sp' ps).
  { intros s3 H3l H3s H3a. rewrite H3l, H3s, Hs2, Hl2. split_and!; [done|done|].
    split; [rewrite H3l; apply Hok2| |].
    - intros j Hj. rewrite H3a; [by apply Hok2|]. intros ->. unfold sp' in Hj. simpl in Hj.
      rewrite lookup_delete_eq in Hj. by destruct Hj.
    - intros j Hj Hf. rewrite H3a; [by apply (so_none _ _ _ Hok2)|]. intros ->. unfold sp' in Hf. set_solver. }
  destruct (is_ready_for_gc (SetDone h2)); apply Hfin; [done|done| |done|done|].
  - intros j Hne. simpl. by rewrite lookup_delete_ne.
  - intros j Hne. simpl. by rewrite lookup_insert_ne.
Qed.

(** The discipline of the logs: lock requests are as the lock managers need them, homes
    are regions of the deployment, and each region sends a transaction once. *)
Definition sched_valid (es : list sched_event) : Prop :=
  valid_trace (L := L) spec_init (lock_event_of <$> es) ∧
  NoDup (es ≫= arrival) ∧ Forall (λ p, (0 ≤ p.2 < num_replicas c)%Z) (es ≫= arrival).

Lemma sched_run_ok es s sp ps :
  sched_ok s sp ps → valid_trace sp (lock_event_of <$> es) →
  NoDup ((es ≫= arrival) ++ ps) → Forall (λ p, (0 ≤ p.2 < num_replicas c)%Z) (es ≫= arrival) →
  ∃ s' outs, rfoldl sched_step s es = Ok s' ∧
    lm_run (lock_manager_ s) (lock_event_of <$> es) = Ok (lock_manager_ s', outs) ∧
    sent s' = sent s ++ concat outs.
Proof.
  revert s sp ps. induction es as [|e es IH]; intros s sp ps Hok Hv Hnd Hall.
  { exists s, []. by rewrite app_nil_r. }
  rewrite fmap_cons in *. destruct Hv as [Hal Hv].
  assert (Hd : (e :: es) ≫= arrival = arrival e ++ (es ≫= arrival)) by done. rewrite Hd in *. clear Hd.
  apply Forall_app in Hall as [Hall1 Hall].
  assert (∃ s1, sched_step s e = Ok s1 ∧ step_ok s e s1 sp ps) as (s1 & H1 & out & Hl1 & Hs1 & Hok1).
  { destruct e as [t|i h]; [|by apply done_ok]. cbn [arrival] in Hall1. rewrite Forall_singleton in Hall1.
    apply arrive_ok; [done|done|done|]. intros Hin. apply NoDup_cons in Hnd as [Hni _]. apply Hni.
    apply elem_of_app. by right. }
  destruct (IH s1 _ (arrival e ++ ps) Hok1 Hv) as (s2 & outs & H2 & Hl2 & Hs2); [|done|].
  { eapply NoDup_Permutation_proper; [|exact Hnd]. rewrite <-app_assoc, !app_assoc. f_equiv. by rewrite (comm (++)). }
  exists s2, (out :: outs). cbn [rfoldl lm_run]. rewrite H1, Hl1. cbn [mbind result_bind]. rewrite H2, Hl2.
  cbn [mbind result_bind]. split_and!; [done|done|]. rewrite Hs2, Hs1, <-app_assoc. done.
Qed.

Lemma sched_run_init es :
  sched_valid es →
  ∃ s l outs, rfoldl sched_step sched_init es = Ok s ∧
    lm_run lm_init (lock_event_of <$> es) = Ok (l, outs) ∧ sent s = concat outs ∧
    (∀ t, t ∈ in_flight [] (lock_event_of <$> es) outs ↔ ready (spec_final (L := L) spec_init (lock_event_of <$> es)) t) ∧
    NoDup (concat outs).
Proof.
  intros (Hv & Hnd & Hall). destruct (sched_run_ok es sched_init spec_init []) as (s & outs & Hr & Hl & Hs).
  - split; [apply lm_rel_init| |done]. intros i [? Hi]. simpl in Hi. by rewrite lookup_empty in Hi.
  - done.
  - by rewrite app_nil_r.
  - done.
  - destruct (lm_run_init (L := L) _ Hv) as (l' & outs' & Hl' & _ & _ & Hfl & Hdup).
    change (lock_manager_ sched_init) with (lm_init (L := L)) in Hl. rewrite Hl in Hl'. simplify_eq.
    exists s, (lock_manager_ s), outs'. done.
Qed.
(** The transactions that workers reported. *)
Definition dones (es : list sched_event) : list TxnId :=
  es ≫= λ e, match e with SDone i _ => [i] | SArrive _ => [] end.

Lemma released_dones es : released (lock_event_of <$> es) = dones es.
Proof. induction es as [|[t|i h] es IH]; [done|done|]. rewrite fmap_cons. simpl. by f_equal. Qed.

Lemma in_flight_intro D (es : list lock_event) outs t :
  length outs = length es → t ∈ D ++ concat outs → t ∉ released es → t ∈ in_flight D es outs.
Proof.
  revert D outs. induction es as [|e es IH]; intros D [|out outs] Hlen Hin Hrel; try done.
  { simpl in *. by rewrite app_nil_r in Hin. }
  simpl in Hlen, Hin. rewrite app_assoc in Hin. destruct e as [txn|i]; simpl in *.
  - apply IH; [lia|done|done].
  - apply not_elem_of_cons in Hrel as [Hne Hrel]. apply IH; [lia| |done].
    apply elem_of_app in Hin as [Hin|Hin]; apply elem_of_app; [left|by right].
    by apply list_elem_of_filter.
Qed.

Lemma lm_run_length (l l' : L) es outs : lm_run l es = Ok (l', outs) → length outs = length es.
Proof.
  revert l outs. induction es as [|e es IH]; intros l outs; cbn [lm_run]; [by intros [= <- <-]|].
  destruct (lm_step l e) as [[l1 out]|]; cbn [mbind result_bind]; [|done].
  destruct (lm_run l1 es) as [[l2 outs']|] eqn:Hr; cbn [mbind result_bind]; [|done].
  intros [= <- <-]. simpl. f_equal. by eapply IH.
Qed.

(** C16. The scheduler, over any lock manager that meets the interface, runs without a
    failed check or access and dispatches no transaction twice. Transactions that have
    been dispatched and not reported back share a lock only to read it, and everything
    that asked for one of their locks earlier and conflicts with them has been reported
    back before. *)
Theorem scheduler_isolation (es : list sched_event) :
  sched_valid es →
  ∃ s, rfoldl sched_step sched_init es = Ok s ∧ NoDup (sent s) ∧
    (∀ k t1 t2 ty1 ty2, t1 ∈ sent s → t1 ∉ dones es → t2 ∈ sent s → t2 ∉ dones es → t1 ≠ t2 →
      (t1, ty1) ∈ history (L := L) (lock_event_of <$> es) k →
      (t2, ty2) ∈ history (L := L) (lock_event_of <$> es) k → ty1 = READ ∧ ty2 = READ) ∧
    (∀ k i j t1 t2 ty1 ty2, t2 ∈ sent s → t2 ∉ dones es → i < j → conflict ty1 ty2 = true →
      history (L := L) (lock_event_of <$> es) k !! i = Some (t1, ty1) →
      history (L := L) (lock_event_of <$> es) k !! j = Some (t2, ty2) → t1 ∈ dones es).
Proof.
  intros Hv. destruct (sched_run_init es Hv) as (s & l & outs & Hr & Hl & Hs & Hfl & Hnd).
  pose proof (lm_run_length _ _ _ _ Hl) as Hlen. destruct Hv as [Hv _].
  assert (Hready : ∀ t, t ∈ sent s → t ∉ dones es → ready (spec_final (L := L) spec_init (lock_event_of <$> es)) t).
  { intros t Ht Hd. apply Hfl. apply in_flight_intro; [done| |by rewrite released_dones]. by rewrite Hs in Ht. }
  exists s. split_and!; [done|by rewrite Hs| |].
  - intros k t1 t2 ty1 ty2 H1 D1 H2 D2 Hne. eapply exclusive_aux; eauto.
  - intros k i j t1 t2 ty1 ty2 H2 D2 Hij Hc Hi Hj. rewrite <-released_dones.
    eapply (fifo_aux (L := L) (lock_event_of <$> es) k i j); eauto.
Qed.
End runs.

(** ** Examples *)

Definition no_events : TransactionEvent → list TransactionEventInfo := λ _, [].

(** Two writers of a key; the first finishes. *)
Definition writer (i : TxnId) : Transaction :=
  set_internal (set_involved_replicas [0%Z]) (make_txn i SINGLE_HOME 0 (kCode []) [make_entry "a" WRITE 0 0]).

Definition writer_holder : TxnHolder :=
  {| txn_id_ := 1; main_txn_idx_ := 0; lo_txns_ := [None; None]; remaster_result_ := None;
     aborting_ := false; done_ := false; num_lo_txns_ := 1; expected_num_lo_txns_ := 1; num_dispatches_ := 1 |}.

Definition example_run : list sched_event :=
  [SArrive (writer 1); SArrive (writer 2); SDone 1 writer_holder].

Lemma scheduler_isolation_witness :
  ∃ s, rfoldl (sched_step (L := RMALock.RMALockManager) example_config no_events) sched_init example_run = Ok s ∧
    NoDup (sent s).
Proof.
  destruct (scheduler_isolation (L := RMALock.RMALockManager) example_config no_events example_run)
    as (s & Hr & Hnd & _).
  - split_and!.
    + apply (bool_decide_eq_true_1 _). vm_compute. reflexivity.
    + apply (bool_decide_eq_true_1 _). vm_compute. reflexivity.
    + apply (bool_decide_eq_true_1 _). vm_compute. reflexivity.
  - exists s. split; [exact Hr|exact Hnd].
Defined.

(** The remaster of key A from region 0 to region 1, as the two regions order it. *)
Definition example_remaster : Transaction :=
  set_internal (set_involved_replicas [0; 1]%Z)
    (make_txn 100 MULTI_HOME_OR_LOCK_ONLY (-1) (kRemaster 1 false) [make_entry "A" WRITE 0 0]).

Definition remaster_arrivals : list sched_event :=
  SArrive <$> omap (λ r, sub_txn (λ _, 0%Z) example_remaster r 0) [0; 1]%Z.

(** The scheduler after the arrivals, and after the worker reports with the holder it
    has finalized. *)
Definition remaster_final : result (scheduler RMALock.RMALockManager) :=
  s ← rfoldl (sched_step example_config no_events) sched_init remaster_arrivals;
  match active_txns_ s !! 100%Z with
  | Some h => '(h, _) ← FinalizeAndRelease h; sched_step example_config no_events s (SDone 100 h)
  | None => Ok s
  end.

(** A remaster transaction stays in the scheduler for ever: its sub-transactions
    announce one region where two take part, so when both have arrived and the worker
    has reported, its holder counts two lock-only transactions against one expected and
    is not removed, although its locks are released. *)
Theorem remaster_never_collected :
  ∃ s h, remaster_final = Ok s ∧ sent s = [100%Z] ∧ active_txns_ s !! 100%Z = Some h ∧
    done_ h = true ∧ num_lo_txns_ h = 2%Z ∧ expected_num_lo_txns_ h = 1%Z ∧ is_ready_for_gc h = false.
Proof.
  assert (Hv : (s ← remaster_final;
      Ok (sent s, (λ h, (done_ h, num_lo_txns_ h, expected_num_lo_txns_ h, is_ready_for_gc h)) <$>
           active_txns_ s !! 100%Z)) = Ok ([100%Z], Some (true, 2%Z, 1%Z, false))) by (vm_compute; reflexivity).
  destruct remaster_final as [s|]; cbn [mbind result_bind] in Hv; [|done].
  destruct (active_txns_ s !! 100%Z) as [h|] eqn:Hh; simplify_eq/=. by exists s, h.
Qed.
