(* ===== verification/RemasterScheduler.v ===== *)
(** * The scheduler with a remaster manager

    [module/scheduler.cpp] in the builds [REMASTER_PROTOCOL_SIMPLE] and
    [REMASTER_PROTOCOL_PER_KEY]: a transaction is first verified by the remaster manager, which
    lets it through to the lock manager, makes it wait for a remaster, or has it aborted. The
    manager is a class with two instances. The storage, which the workers change, is an
    argument of every step, and so is the order in which a hash set is visited. *)
From S2P Require Import Prelude Types LockSpec Config ProtoUtils TxnHolder Execution Remaster PerKeyRemaster Scheduler.
From S2P Require OldLock.

(** ** The interface of a remaster manager *)

Class RemasterManager (R : Type) := {
  rm_init : R;
  rm_VerifyMaster : Storage → R → Transaction → result (R * VerifyMasterResult);
  rm_RemasterOccured : Storage → R → Key → result (R * RemasterOccurredResult);
  rm_ReleaseTransaction : Storage → R → Transaction → result (R * RemasterOccurredResult);
  (** the transactions that wait *)
  rm_holds : R → Transaction → Prop
}.

(** What comes out went in, and what is let through has been checked against the storage. *)
Class RemasterManagerCorrect (R : Type) `{RemasterManager R} := {
  rm_holds_init t : ¬ rm_holds rm_init t;
  rm_verify_ok st r t r' res :
    rm_VerifyMaster st r t = Ok (r', res) →
    (∀ t', rm_holds r' t' → rm_holds r t' ∨ t' = t) ∧
    (res = VALID → keys t = [] ∨ CheckCounters st t true = Ok VALID);
  rm_remaster_ok st r k r' res :
    rm_RemasterOccured st r k = Ok (r', res) →
    (∀ t', rm_holds r' t' ∨ t' ∈ unblocked res ∨ t' ∈ should_abort res → rm_holds r t') ∧
    Forall (λ t, CheckCounters st t true = Ok VALID) (unblocked res)
}.

(** ** The scheduler *)

Record rscheduler (L R : Type) := {
  sched : scheduler L;
  remaster_manager_ : R
}.
Arguments Build_rscheduler {_ _} _ _.
Arguments sched {_ _} _.
Arguments remaster_manager_ {_ _} _.

Section remaster_scheduler.
  Context {L : Type} `{LockManager L} {R : Type} `{RemasterManager R}.
  Context (c : Configuration).
  Context (recorded : TransactionEvent → list TransactionEventInfo).
  Context (visit_ids : list TxnId → list TxnId).

Definition rs_init : rscheduler L R := {| sched := sched_init; remaster_manager_ := rm_init |}.

Definition on_sched (f : scheduler L → result (scheduler L)) (s : rscheduler L R) : result (rscheduler L R) :=
  x ← f (sched s); Ok {| sched := x; remaster_manager_ := remaster_manager_ s |}.

Definition set_manager (r : R) (s : rscheduler L R) : rscheduler L R := {| sched := sched s; remaster_manager_ := r |}.

Section calls.
  Context (trigger : TxnId → rscheduler L R → result (rscheduler L R)).

(** [SendToLockManager], for the transaction in a slot of a holder. *)
Definition rs_SendToLockManager (i : TxnId) (slot : nat) (s : rscheduler L R) : result (rscheduler L R) :=
  match h ← active_txns_ (sched s) !! i; lock_only_txn h slot with
  | None => Err (Undef "lock_only_txn")
  | Some t =>
    let t := record_event recorded ENTER_LOCK_MANAGER t in
    let f h := set_lo_txns (<[slot := Some t]> (lo_txns_ h)) (num_lo_txns_ h) h in
    let '(l, r) := lm_AcquireLocks (lock_manager_ (sched s)) t in
    let s := {| sched := {| lock_manager_ := l; active_txns_ := alter f i (active_txns_ (sched s));
                            global_log_counter_ := global_log_counter_ (sched s); sent := sent (sched s) |};
                remaster_manager_ := remaster_manager_ s |} in
    match r with
    | ACQUIRED => on_sched (Dispatch recorded i true) s
    | ABORT => trigger i s
    | WAITING => Ok s
    end
  end.

Definition send_unblocked (s : rscheduler L R) (t : Transaction) : result (rscheduler L R) :=
  rs_SendToLockManager (txn_id t) (Z.to_nat (home (internal t))) s.

Definition process_result (res : RemasterOccurredResult) (s : rscheduler L R) : result (rscheduler L R) :=
  s ← rfoldl send_unblocked s (unblocked res);
  let aborting_txn_ids := remove_dups (txn_id <$> should_abort res) in
  if decide (length (should_abort res) = length aborting_txn_ids) then
    rfoldl (λ s i, trigger i s) s (visit_ids aborting_txn_ids)
  else Err (Fatal "Duplicate transactions returned for abort").
End calls.

(** An abort can release transactions that are aborted in turn; each call marks another
    holder, so that their number is enough fuel. *)
Fixpoint rs_TriggerPreDispatchAbort (fuel : nat) (st : Storage) (i : TxnId) (s : rscheduler L R) : result (rscheduler L R) :=
  match fuel with
  | O => Err OutOfFuel
  | S fuel =>
    match active_txns_ (sched s) !! i with
    | None => Err (Fatal "Check failed: active_txn_it != active_txns_.end()")
    | Some h =>
      if aborting_ h then Err (Fatal "Abort was triggered twice")
      else
        s ← on_sched (λ x, Ok (set_holder i (SetAborting h) x)) s;
        t ← holder_txn h;
        '(r, res) ← rm_ReleaseTransaction st (remaster_manager_ s) t;
        s ← process_result (rs_TriggerPreDispatchAbort fuel st) res (set_manager r s);
        '(l, ids) ← lm_ReleaseLocks (lock_manager_ (sched s)) i;
        s ← on_sched (λ x, dispatch_all recorded ids (set_lock_manager l x)) s;
        match active_txns_ (sched s) !! i with
        | None => Err (Undef "txn_holder")
        | Some h =>
          h ← on_txn (set_status ABORTED) h;
          on_sched (λ x, Dispatch recorded i false (set_holder i h x)) s
        end
    end
  end.

Definition ProcessRemasterResult (fuel : nat) (st : Storage) (res : RemasterOccurredResult) (s : rscheduler L R) : result (rscheduler L R) :=
  process_result (rs_TriggerPreDispatchAbort fuel st) res s.

Definition SendToRemasterManager (fuel : nat) (st : Storage) (t : Transaction) (s : rscheduler L R) : result (rscheduler L R) :=
  '(r, res) ← rm_VerifyMaster st (remaster_manager_ s) t;
  let s := set_manager r s in
  match res with
  | VALID => send_unblocked (rs_TriggerPreDispatchAbort fuel st) s t
  | VM_ABORT => rs_TriggerPreDispatchAbort fuel st (txn_id t) s
  | VM_WAITING => Ok s
  end.

Definition rs_ProcessTransaction (fuel : nat) (st : Storage) (t : Transaction) (s : rscheduler L R) : result (rscheduler L R) :=
  placed ← place_txn c recorded t (sched s);
  let x := sched s in
  let s := {| sched := {| lock_manager_ := lock_manager_ x; active_txns_ := active_txns_ x;
                          global_log_counter_ := global_log_counter_ x + 1; sent := sent x |};
              remaster_manager_ := remaster_manager_ s |} in
  match placed with
  | None => Ok s
  | Some h =>
    h ← on_txn (add_global_log_positions [home (internal t); global_log_counter_ (sched s)]) h;
    let s := {| sched := set_holder (txn_id t) h (sched s); remaster_manager_ := remaster_manager_ s |} in
    if aborting_ h then
      Ok (if is_ready_for_gc h then {| sched := erase_txn (txn_id t) (sched s); remaster_manager_ := remaster_manager_ s |} else s)
    else SendToRemasterManager fuel st t s
  end.

(** A report of a worker: one turn of the loop of [OnCustomSocket]. *)
Definition rs_OnWorkerDone (fuel : nat) (st : Storage) (i : TxnId) (h : TxnHolder) (s : rscheduler L R) : result (rscheduler L R) :=
  let x := sched s in
  let x := {| lock_manager_ := lock_manager_ x; active_txns_ := alter (λ _, h) i (active_txns_ x);
              global_log_counter_ := global_log_counter_ x; sent := sent x |} in
  '(l, ids) ← lm_ReleaseLocks (lock_manager_ x) i;
  x ← dispatch_all recorded ids (set_lock_manager l x);
  let s := {| sched := x; remaster_manager_ := remaster_manager_ s |} in
  match active_txns_ x !! i with
  | None => Err (Fatal "Check failed: it != active_txns_.end()")
  | Some h =>
    s ← match remaster_result_ h with
        | Some (k, _) =>
          '(r, res) ← rm_RemasterOccured st (remaster_manager_ s) k;
          ProcessRemasterResult fuel st res (set_manager r s)
        | None => Ok s
        end;
    match active_txns_ (sched s) !! i with
    | None => Err (Undef "txn_holder")
    | Some h =>
      let h := SetDone h in
      on_sched (λ x, Ok (if is_ready_for_gc h then Scheduler.erase_txn i x else set_holder i h x)) s
    end
  end.

Inductive rs_event :=
  | RArrive (st : Storage) (t : Transaction)
  | RDone (st : Storage) (i : TxnId) (h : TxnHolder).

(** Each holder that is not yet aborting can be aborted once. *)
Definition open_holders (s : rscheduler L R) : nat :=
  size (filter (λ p, aborting_ p.2 = false) (active_txns_ (sched s))).

Definition rs_step (s : rscheduler L R) (e : rs_event) : result (rscheduler L R) :=
  match e with
  | RArrive st t => rs_ProcessTransaction (S (S (open_holders s))) st t s
  | RDone st i h => rs_OnWorkerDone (S (S (open_holders s))) st i h s
  end.
End remaster_scheduler.

(** ** The two managers *)

(** The order in which [RemasterOccured] visits the queues is that of a hash table. *)
Definition simple_remaster (order : gmap Z (list Transaction) → list Z) : RemasterManager (gmap Z (list Transaction)) := {|
  rm_init := ∅;
  rm_VerifyMaster := VerifyMaster;
  rm_RemasterOccured := λ st q k, RemasterOccured st q (order q) k;
  rm_ReleaseTransaction := ReleaseTransaction;
  rm_holds := λ q t, ∃ h, t ∈ queue q h
|}.

#[export] Instance per_key_remaster : RemasterManager (gmap string (list (Transaction * Z))) := {|
  rm_init := ∅;
  rm_VerifyMaster := pk_VerifyMaster;
  rm_RemasterOccured := λ st q k, pk_RemasterOccured (pk_fuel q) st q k;
  rm_ReleaseTransaction := λ st q t, pk_ReleaseTransaction (pk_fuel q) st q t;
  rm_holds := λ q t, ∃ k, waiting q k t
|}.

Lemma rfoldl_inv {A B} (f : B → A → result B) (P : B → Prop) l b b' :
  (∀ b a b', a ∈ l → P b → f b a = Ok b' → P b') → P b → rfoldl f b l = Ok b' → P b'.
Proof.
  revert b. induction l as [|a l IH]; intros b Hf Hb; cbn [rfoldl]; [by intros [= <-]|].
  destruct (f b a) as [b1|] eqn:E; [|done]. apply IH; [|eapply Hf; [left|done..]]. intros b2 a2 b3 Ha. apply Hf. by right.
Qed.

(** *** The simple manager *)

Definition checked (st : Storage) (t : Transaction) : Prop := CheckCounters st t true = Ok VALID.

(** What a call leaves, compared with what there was. *)
Definition from_queues (st : Storage) (q0 : gmap Z (list Transaction)) (s : gmap Z (list Transaction) * RemasterOccurredResult) : Prop :=
  (∀ t, (∃ h, t ∈ queue s.1 h) ∨ t ∈ unblocked s.2 ∨ t ∈ should_abort s.2 → ∃ h, t ∈ queue q0 h) ∧
  Forall (checked st) (unblocked s.2).

Lemma unblock_queue_checked st l res l' res' :
  unblock_queue st l res = Ok (l', res') → Forall (checked st) (unblocked res) →
  Forall (checked st) (unblocked res') ∧
  ∀ t, t ∈ l' ∨ t ∈ unblocked res' ∨ t ∈ should_abort res' → t ∈ l ∨ t ∈ unblocked res ∨ t ∈ should_abort res.
Proof.
  revert res. induction l as [|t l IH]; intros res; cbn [unblock_queue]; [by intros [= <- <-]|].
  destruct (CheckCounters st t true) as [[]|] eqn:Hc; cbn [mbind result_bind]; [| | |done].
  - intros E Hres. destruct (IH _ E) as [H1 H2]; [simpl; apply Forall_app; split; [done|by constructor]|]. split; [done|].
    intros t' Ht'%H2. simpl in Ht'. set_solver.
  - intros [= <- <-] Hres. split; [done|]. set_solver.
  - intros E Hres. destruct (IH _ E) as [H1 H2]; [done|]. split; [done|]. intros t' Ht'%H2. simpl in Ht'. set_solver.
Qed.

Lemma TryToUnblock_from st q0 s h q' res' :
  from_queues st q0 s → TryToUnblock st s.1 h s.2 = Ok (q', res') → from_queues st q0 (q', res').
Proof.
  intros [Hin Hch]. unfold TryToUnblock. destruct (s.1 !! h) as [l|] eqn:El; [|intros [= <- <-]; by split].
  destruct (unblock_queue st l s.2) as [[l' res]|] eqn:E; [|done]. cbn [mbind result_bind]. intros [= <- <-].
  destruct (unblock_queue_checked _ _ _ _ _ E Hch) as [Hch' Hin']. split; [|done]. simpl.
  assert (Hl : ∀ t, t ∈ l → ∃ h, t ∈ queue s.1 h) by (intros t Ht; exists h; unfold queue; by rewrite El).
  intros t [[h' Ht]|Ht]; apply Hin.
  - rewrite queue_insert in Ht. case_decide; [|left; by exists h']. destruct (Hin' t) as [?|?]; auto.
  - destruct (Hin' t) as [?|?]; auto.
Qed.

Definition simple_remaster_correct order : @RemasterManagerCorrect _ (simple_remaster order).
Proof.
  split.
  - intros t [h Ht]. by apply elem_of_nil in Ht.
  - intros st q t q' res. simpl. unfold VerifyMaster. destruct (keys t) eqn:Ek.
    { intros [= <- <-]. split; [by left|by left]. }
    assert (Hins : ∀ t', (∃ h, t' ∈ queue (<[u32 (home (internal t)) := queue q (u32 (home (internal t))) ++ [t]]> q) h) →
      (∃ h, t' ∈ queue q h) ∨ t' = t).
    { intros t' [h Ht']. rewrite queue_insert in Ht'. case_decide as E; [|left; by exists h].
      apply elem_of_app in Ht' as [?|?%list_elem_of_singleton]; [left; by eexists|by right]. }
    destruct (queue q (u32 (home (internal t)))) as [|x l']; [|intros [= <- <-]; by split].
    destruct (CheckCounters st t true) as [r|] eqn:Ec; [|done]. cbn [mbind result_bind].
    case_decide; intros [= <- <-]; (split; [auto|intros ->; by right]).
  - intros st q k q' res. simpl. unfold RemasterOccured. intros E.
    assert (Hf : from_queues st q (q', res)).
    { eapply (rfoldl_inv _ (from_queues st q) (order q) (q, no_result)); [|by split; [intros t [?|[[]%elem_of_nil|[]%elem_of_nil]]|constructor]|exact E].
      intros s h [q1 res1] _ Hs. unfold visit_queue. destruct (queue s.1 h) as [|t l]; [by intros [= <-]|].
      destruct (waits_for k t); [by apply TryToUnblock_from|by intros [= <-]]. }
    destruct Hf as [H1 H2]. split; [|done]. intros t' Ht'. by apply H1.
Qed.

(** *** The manager with a queue for each key *)

Definition from_keys (st : Storage) (q0 : gmap string (list (Transaction * Z)))
    (P : Transaction → Prop) (s : gmap string (list (Transaction * Z)) * RemasterOccurredResult) : Prop :=
  (∀ t, (∃ k, waiting s.1 k t) ∨ t ∈ unblocked s.2 ∨ t ∈ should_abort s.2 → (∃ k, waiting q0 k t) ∨ P t) ∧
  Forall (checked st) (unblocked s.2).

Lemma waiting_set_queue q k l t k' :
  waiting (set_queue q k l) k' t → (k' = k ∧ t ∈ l.*1) ∨ waiting q k' t.
Proof.
  intros (l' & z & Hl & Hin). unfold set_queue in Hl. destruct (decide (k' = k)) as [->|Hne].
  - left. split; [done|]. destruct l; [by rewrite lookup_delete_eq in Hl|]. rewrite lookup_insert_eq in Hl. simplify_eq.
    apply list_elem_of_fmap. by exists (t, z).
  - right. exists l', z. split; [|done]. destruct l; [by rewrite lookup_delete_ne in Hl|by rewrite lookup_insert_ne in Hl].
Qed.

Lemma waiting_erase q t t' k : waiting (PerKeyRemaster.erase_txn q t) k t' → ∃ k, waiting q k t'.
Proof.
  unfold PerKeyRemaster.erase_txn. revert q. induction (keys t) as [|kv kvs IH]; intros q Hw; [by exists k|].
  simpl in Hw. destruct (IH _ Hw) as [k1 Hw1]. clear IH Hw. unfold erase_key in Hw1.
  destruct (q !! key kv) as [l|] eqn:El; [|by exists k1].
  apply waiting_set_queue in Hw1 as [[-> Hin]|?]; [|by exists k1]. exists (key kv).
  assert (Hsub : ∀ l, t' ∈ (erase_entry (txn_id t) l).*1 → t' ∈ l.*1).
  { clear. induction l as [|x l IH]; simpl; [done|]. case_decide; [by right|]. intros [->|?]%elem_of_cons; [left|right; auto]. }
  apply Hsub, list_elem_of_fmap in Hin as ([t1 z] & -> & Hin). by exists l, z.
Qed.

Lemma waiting_pop q kv q' k t : pop_key q kv = Ok q' → waiting q' k t → waiting q k t.
Proof.
  unfold pop_key. destruct (q !! key kv) as [[|x l]|] eqn:El; [done| |done]. intros [= <-] Hw.
  apply waiting_set_queue in Hw as [[-> Hin]|?]; [|done]. apply list_elem_of_fmap in Hin as ([t1 z] & -> & Hin).
  exists (x :: l), z. split; [done|]. by right.
Qed.

Lemma waiting_pops kvs q q' k t : rfoldl pop_key q kvs = Ok q' → waiting q' k t → waiting q k t.
Proof.
  intros E. eapply (rfoldl_inv _ (λ q1, waiting q1 k t → waiting q k t)); [|done|exact E].
  intros q1 kv q2 _ IH E1 Hw. by eapply IH, waiting_pop.
Qed.

Lemma TryToUnblock_keys fuel st q0 P k s s' :
  from_keys st q0 P s → pk_TryToUnblock fuel st k s = Ok s' → from_keys st q0 P s'.
Proof.
  revert P k s s'. induction fuel as [|fuel IH]; intros P k [q res] s' Hs; [done|]. cbn [pk_TryToUnblock].
  destruct (q !! k) as [[|[t z] l]|] eqn:Eq; [done| |by intros [= <-]].
  assert (Ht : waiting q k t) by (exists ((t, z) :: l), z; split; [done|left]).
  destruct Hs as [Hin Hch]. simpl in Hin, Hch.
  destruct (CheckCounters st t true) as [[]|] eqn:Ec; cbn [mbind result_bind]; [| |  |done].
  - destruct (at_all_fronts q t (home_keys t)) as [[]|]; cbn [mbind result_bind]; [|by intros [= <-]|done].
    destruct (rfoldl pop_key q (home_keys t)) as [q1|] eqn:Ep; [|done]. cbn [mbind result_bind]. intros E.
    eapply (rfoldl_inv _ (from_keys st q0 P)); [|split|exact E].
    + intros s1 kv s2 _ Hs1 E1. exact (IH P (key kv) s1 s2 Hs1 E1).
    + simpl. intros t' Ht'. apply Hin.
      destruct Ht' as [[k' Hw]|[[?|Hx%list_elem_of_singleton]%elem_of_app|?]]; [|by auto| |by auto].
      * left. exists k'. by eapply waiting_pops.
      * left. exists k. by rewrite Hx.
    + simpl. apply Forall_app. split; [done|by constructor].
  - by intros [= <-].
  - destruct (rfoldl _ (PerKeyRemaster.erase_txn q t, no_result) (keys t)) as [[q1 res1]|] eqn:E; [|done].
    cbn [mbind result_bind]. intros [= <-].
    assert (H1 : from_keys st q0 P (q1, res1)).
    { eapply (rfoldl_inv _ (from_keys st q0 P) (keys t) (PerKeyRemaster.erase_txn q t, no_result)); [|split; [|constructor]|exact E].
      - intros s1 kv s2 _ Hs1 E1. exact (IH P (key kv) s1 s2 Hs1 E1).
      - simpl. intros t' [[k' Hw]|[[]%elem_of_nil|[]%elem_of_nil]]. apply Hin. left. by eapply waiting_erase. }
    destruct H1 as [Hin1 Hch1]. simpl in *. split; simpl; [|by apply Forall_app].
    intros t' [Hw|[[?|?]%elem_of_app|[[?|Hx%list_elem_of_singleton]%elem_of_app|?]%elem_of_app]]; try by eauto.
    rewrite Hx. eauto.
Qed.

#[export] Instance per_key_correct : RemasterManagerCorrect (gmap string (list (Transaction * Z))).
Proof.
  split.
  - intros t (k & l & z & Hl & _). cbn [rm_init per_key_remaster] in Hl. by rewrite lookup_empty in Hl.
  - intros st q t q' res. simpl. unfold pk_VerifyMaster. destruct (keys t) eqn:Ek.
    { intros [= <- <-]. split; [by left|by left]. }
    assert (Hadd : ∀ t', (∃ k, waiting (add_to_queues q t) k t') → (∃ k, waiting q k t') ∨ t' = t).
    { intros t'. unfold add_to_queues. generalize (home_keys t). intros kvs. revert q.
      induction kvs as [|kv kvs IH]; intros q; [by left|]. intros [[k1 Hw]|?]%IH; [|by right].
      destruct Hw as (l1 & z & Hl & Hin). unfold InsertIntoBlockedQueue in Hl.
      destruct (decide (key kv = k1)) as [<-|Hne]; [|rewrite lookup_insert_ne in Hl by done; left; by exists k1, l1, z].
      rewrite lookup_insert_eq in Hl. simplify_eq.
      assert (Hins : ∀ l2, (t', z) ∈ insert_entry (counter (metadata (value_entry kv))) t l2 → (t', z) ∈ l2 ∨ t' = t).
      { clear. induction l2 as [|x l2 IH]; simpl; [intros [= -> _]%list_elem_of_singleton; by right|].
        case_decide; intros [E|Hi]%elem_of_cons; [rewrite E; left; left|destruct (IH Hi) as [?|?]; [left; by right|by right]|right; congruence|by left]. }
      apply Hins in Hin as [Hin|?]; [|by right]. left. destruct (q !! key kv) as [l2|] eqn:E2; simpl in Hin; [|by apply elem_of_nil in Hin].
      by exists (key kv), l2, z. }
    destruct (CheckCounters st t true) as [[]|] eqn:Ec; cbn [mbind result_bind]; [| | |done].
    + destruct (indirectly_blocked q t); intros [= <- <-]; (split; [auto|]); [done|by right].
    + intros [= <- <-]. by split.
    + intros [= <- <-]. split; [auto|done].
  - intros st q k q' res. simpl. unfold pk_RemasterOccured. intros E.
    assert (Hf : from_keys st q (λ _, False) (q', res)).
    { assert (H0 : from_keys st q (λ _, False) (q, no_result)).
      { split; [intros t [?|[[]%elem_of_nil|[]%elem_of_nil]]; by left|constructor]. }
      destruct (q !! k); [by eapply TryToUnblock_keys|by injection E as <- <-]. }
    destruct Hf as [H1 H2]. split; [|done]. intros t' Ht'. by destruct (H1 t' Ht').
Qed.

(** ** Runs without aborts *)
Section runs.
  Context {L : Type} `{LockManagerFrame L, !LockManagerCorrect L} {R : Type} `{RemasterManagerCorrect R}.
  Context (c : Configuration).
  Context (recorded : TransactionEvent → list TransactionEventInfo).
  Context (visit_ids : list TxnId → list TxnId).
  Hypothesis visit_nil : visit_ids [] = [].
  Implicit Types (x : scheduler L) (s : rscheduler L R) (sp : lock_spec) (ps : list (TxnId * Z)) (W : Transaction → Prop).

(** The holder of a transaction has it in the slot of its region. *)
Definition has_slot x (t : Transaction) : Prop :=
  ∃ h t', active_txns_ x !! txn_id t = Some h ∧ lock_only_txn h (Z.to_nat (home (internal t))) = Some t' ∧ same_txn t t'.

(** [W]: the transactions that have not yet been sent to the lock manager. *)
Record rs_ok x sp ps W : Prop := {
  ro_rel : lm_rel (lock_manager_ x) sp;
  ro_disjoint i : is_Some (unarrived sp !! i) → i ∉ finished sp;
  ro_active i : is_Some (unarrived sp !! i) → is_Some (active_txns_ x !! i);
  ro_holders i h : active_txns_ x !! i = Some h → i ∉ finished sp → holder_ok c ps i h;
  ro_waiting t : W t → txn_id t ∉ finished sp → has_slot x t
}.

(** Changing one holder in a way that keeps its slots. *)
Lemma has_slot_insert x i h h' l g snt :
  active_txns_ x !! i = Some h →
  (∀ j t, lock_only_txn h j = Some t → ∃ t', lock_only_txn h' j = Some t' ∧ same_txn t t') →
  ∀ t, has_slot x t →
  has_slot {| lock_manager_ := l; active_txns_ := <[i := h']> (active_txns_ x); global_log_counter_ := g; sent := snt |} t.
Proof.
  intros Hi Hsl t (h1 & t1 & Hh1 & Ht1 & Hs1). unfold has_slot. simpl. destruct (decide (i = txn_id t)) as [->|Hne].
  - rewrite Hi in Hh1. simplify_eq. destruct (Hsl _ _ Ht1) as (t2 & Ht2 & Hs2). exists h', t2.
    rewrite lookup_insert_eq. split_and!; [done..|]. by eapply same_txn_trans.
  - exists h1, t1. by rewrite lookup_insert_ne.
Qed.

Lemma rs_Dispatch i b x sp ps W :
  rs_ok x sp ps W → is_Some (unarrived sp !! i) →
  ∃ x', Dispatch recorded i b x = Ok x' ∧ rs_ok x' sp ps W ∧ sent x' = sent x ++ [i] ∧ lock_manager_ x' = lock_manager_ x ∧
    dom (active_txns_ x') = dom (active_txns_ x) ∧ (∀ j, j ≠ i → active_txns_ x' !! j = active_txns_ x !! j).
Proof.
  intros Hok Hi. destruct (ro_active _ _ _ _ Hok i Hi) as [h Hh].
  pose proof (ro_holders _ _ _ _ Hok i h Hh (ro_disjoint _ _ _ _ Hok i Hi)) as Hho. unfold Dispatch. rewrite Hh.
  destruct (on_txn_ok c (record_event recorded (if b then DISPATCHED_FAST else DISPATCHED_SLOW)) ps i h)
    as (h' & -> & Hho' & Hsl); [intros t; apply same_txn_record|done|]. cbn [mbind result_bind].
  eexists. split; [done|]. split_and!; [|done..| |].
  - split; simpl; [apply Hok|apply Hok| | |].
    + intros j Hj. rewrite lookup_insert. case_decide; [by eexists|by apply Hok].
    + intros j hj. rewrite lookup_insert. case_decide as Hd; [|by apply Hok]. intros [= <-] _. subst j. by destruct Hho'.
    + intros t Ht Hf. apply (has_slot_insert x i h); [done| |by apply Hok]. intros j u Hu. by apply Hsl.
  - simpl. apply dom_insert_lookup_L. by eexists.
  - intros j Hj. simpl. by rewrite lookup_insert_ne.
Qed.

Lemma rs_dispatch_all ids x sp ps W :
  rs_ok x sp ps W → Forall (λ i, is_Some (unarrived sp !! i)) ids →
  ∃ x', dispatch_all recorded ids x = Ok x' ∧ rs_ok x' sp ps W ∧ sent x' = sent x ++ ids ∧ lock_manager_ x' = lock_manager_ x ∧
    dom (active_txns_ x') = dom (active_txns_ x) ∧ (∀ j, j ∉ ids → active_txns_ x' !! j = active_txns_ x !! j).
Proof.
  unfold dispatch_all. revert x. induction ids as [|i ids IH]; intros x Hok Hall; [exists x; by rewrite app_nil_r|].
  apply Forall_cons in Hall as [Hi Hall].
  destruct (rs_Dispatch i false x sp ps W Hok Hi) as (x1 & E1 & Hok1 & Hs1 & Hl1 & Hd1 & Ho1).
  destruct (IH x1 Hok1 Hall) as (x2 & E2 & Hok2 & Hs2 & Hl2 & Hd2 & Ho2).
  exists x2. cbn [rfoldl]. rewrite E1. cbn [mbind result_bind]. rewrite E2, Hs2, Hs1, Hl2, Hl1, Hd2, Hd1, <-app_assoc.
  split_and!; [done..|]. intros j [Hne Hj]%not_elem_of_cons. rewrite Ho2, Ho1 by done. done.
Qed.

(** A transaction that is let through makes one step of the lock manager. *)
Lemma rs_send trigger s sp ps W t :
  rs_ok (sched s) sp ps W → allowed sp (EAcquire t) → has_slot (sched s) t →
  ∃ s' out, send_unblocked recorded trigger s t = Ok s' ∧
    lm_step (lock_manager_ (sched s)) (EAcquire t) = Ok (lock_manager_ (sched s'), out) ∧
    sent (sched s') = sent (sched s) ++ out ∧ remaster_manager_ s' = remaster_manager_ s ∧
    rs_ok (sched s') (spec_step sp (EAcquire t)) ps W ∧ dom (active_txns_ (sched s')) = dom (active_txns_ (sched s)).
Proof.
  intros Hok Hal (h & t' & Hh & Ht' & Hst). unfold send_unblocked, rs_SendToLockManager. rewrite Hh. cbn [mbind option_bind].
  rewrite Ht'. set (t3 := record_event recorded ENTER_LOCK_MANAGER t').
  rewrite (lm_acquire_frame _ t t3) by (eapply same_txn_trans; [done|apply same_txn_record]).
  destruct (lm_rel_acquire _ _ t (ro_rel _ _ _ _ Hok) Hal) as [Hrel Hres].
  destruct (lm_AcquireLocks (lock_manager_ (sched s)) t) as [l r] eqn:Hacq. simpl in Hrel, Hres.
  pose proof Hal as (Hfin & _). pose proof (ro_holders _ _ _ _ Hok _ _ Hh Hfin) as Hho.
  set (h1 := set_lo_txns (<[Z.to_nat (home (internal t)) := Some t3]> (lo_txns_ h)) (num_lo_txns_ h) h).
  assert (Halt : alter (λ h, set_lo_txns (<[Z.to_nat (home (internal t)) := Some t3]> (lo_txns_ h)) (num_lo_txns_ h) h) (txn_id t) (active_txns_ (sched s)) =
    <[txn_id t := h1]> (active_txns_ (sched s))).
  { apply map_eq. intros j. destruct (decide (txn_id t = j)) as [<-|].
    - by rewrite lookup_alter_eq, lookup_insert_eq, Hh.
    - by rewrite lookup_alter_ne, lookup_insert_ne. }
  rewrite Halt. unfold lock_only_txn in Ht'. destruct (lo_txns_ h !! _) as [[u|]|] eqn:Hj; simplify_eq/=.
  set (sp' := spec_acquire _ _ _ _) in *.
  match goal with |- context [on_sched _ ?y] => set (s1 := y) end.
  assert (Hdom : dom (active_txns_ (sched s1)) = dom (active_txns_ (sched s))) by (simpl; apply dom_insert_lookup_L; by eexists).
  assert (Hok1 : rs_ok (sched s1) sp' ps W).
  { split; simpl; [done| | | |].
    - intros i. unfold sp'. simpl. destruct (decide (txn_id t = i)) as [<-|]; [done|].
      rewrite lookup_insert_ne by done. apply Hok.
    - intros i. unfold sp'. simpl. destruct (decide (txn_id t = i)) as [<-|]; [rewrite !lookup_insert_eq; by eexists|].
      rewrite !lookup_insert_ne by done. apply Hok.
    - intros i hi. destruct (decide (txn_id t = i)) as [<-|].
      + rewrite lookup_insert_eq. intros [= <-] _. by eapply holder_ok_slot.
      + rewrite lookup_insert_ne by done. apply (ro_holders _ _ _ _ Hok).
    - intros t1 Ht1 Hf. apply (has_slot_insert (sched s) (txn_id t) h); [done| |by apply Hok]. intros j v. unfold lock_only_txn. simpl.
      destruct (decide (Z.to_nat (home (internal t)) = j)) as [<-|Hne].
      + rewrite Hj, list_lookup_insert_eq by (by eapply lookup_lt_Some). intros [= <-]. eexists. split; [done|]. apply same_txn_record.
      + rewrite list_lookup_insert_ne by done. intros Hv. exists v. split; [done|apply same_txn_refl]. }
  cbn [lm_step]. rewrite Hacq. case_decide as Hready.
  - destruct (rs_Dispatch (txn_id t) true (sched s1) sp' ps W Hok1) as (x2 & E2 & Hok2 & Hs2 & Hl2 & Hd2 & _).
    { destruct Hready as [-> _]. by eexists. }
    unfold on_sched. rewrite E2. cbn [mbind result_bind]. eexists _, _. split; [done|]. simpl. rewrite Hl2, Hs2, Hd2. by split_and!.
  - exists s1, []. rewrite app_nil_r. by split_and!.
Qed.

Lemma lm_run_app (l : L) es1 es2 l1 outs1 :
  lm_run l es1 = Ok (l1, outs1) → lm_run l (es1 ++ es2) = ('(l2, outs2) ← lm_run l1 es2; Ok (l2, outs1 ++ outs2)).
Proof.
  revert l outs1. induction es1 as [|e es1 IH]; intros l outs1; cbn [lm_run app].
  { intros [= -> <-]. by destruct (lm_run l1 es2) as [[]|]. }
  destruct (lm_step l e) as [[l' out]|]; [|done]. cbn [mbind result_bind].
  destruct (lm_run l' es1) as [[l2 outs]|] eqn:E; [|done]. cbn [mbind result_bind]. intros [= -> <-]. rewrite (IH _ _ E).
  by destruct (lm_run l1 es2) as [[]|].
Qed.

(** The steps of the lock manager and what they dispatch. *)
Definition lock_steps x x' (es : list lock_event) sp sp' : Prop :=
  sp' = spec_final (L := L) sp es ∧
  ∃ outs, lm_run (lock_manager_ x) es = Ok (lock_manager_ x', outs) ∧ sent x' = sent x ++ concat outs.

Lemma lock_steps_app x1 x2 x3 es1 es2 sp1 sp2 sp3 :
  lock_steps x1 x2 es1 sp1 sp2 → lock_steps x2 x3 es2 sp2 sp3 → lock_steps x1 x3 (es1 ++ es2) sp1 sp3.
Proof.
  intros (-> & outs1 & E1 & S1) (-> & outs2 & E2 & S2). split; [unfold spec_final; by rewrite foldl_app|]. exists (outs1 ++ outs2).
  rewrite (lm_run_app _ _ _ _ _ E1), E2. cbn [mbind result_bind]. split; [done|]. by rewrite S2, S1, concat_app, app_assoc.
Qed.

Lemma lock_steps_one x x' e out sp :
  lm_step (lock_manager_ x) e = Ok (lock_manager_ x', out) → sent x' = sent x ++ out → lock_steps x x' [e] sp (spec_step sp e).
Proof.
  intros E S. split; [done|]. exists [out]. cbn [lm_run]. rewrite E. cbn [mbind result_bind concat]. by rewrite app_nil_r.
Qed.

Lemma rs_send_all trigger ts s sp ps W :
  rs_ok (sched s) sp ps W → valid_trace sp (EAcquire <$> ts) → (∀ t, t ∈ ts → W t) →
  ∃ s', rfoldl (send_unblocked recorded trigger) s ts = Ok s' ∧ remaster_manager_ s' = remaster_manager_ s ∧
    lock_steps (sched s) (sched s') (EAcquire <$> ts) sp (spec_final sp (EAcquire <$> ts)) ∧
    rs_ok (sched s') (spec_final sp (EAcquire <$> ts)) ps W ∧ dom (active_txns_ (sched s')) = dom (active_txns_ (sched s)).
Proof.
  revert s sp. induction ts as [|t ts IH]; intros s sp Hok Hv HW.
  { exists s. split_and!; [done..| |done|done]. split; [done|]. exists []. by rewrite app_nil_r. }
  rewrite fmap_cons in *. destruct Hv as [Hal Hv].
  assert (Hslot : has_slot (sched s) t) by (apply Hok; [apply HW; left|by destruct Hal]).
  destruct (rs_send trigger s sp ps W t Hok Hal Hslot) as (s1 & out & E1 & El1 & Es1 & Em1 & Hok1 & Hd1).
  destruct (IH s1 _ Hok1 Hv) as (s2 & E2 & Em2 & Hst2 & Hok2 & Hd2); [intros; apply HW; by right|].
  exists s2. cbn [rfoldl]. rewrite E1. cbn [mbind result_bind]. split_and!; [done|by rewrite Em2| |done|by rewrite Hd2].
  apply (lock_steps_app _ (sched s1) _ [EAcquire t] _ _ (spec_step sp (EAcquire t))); [by eapply lock_steps_one|done].
Qed.

(** *** Arrivals *)

Lemma AddLockOnlyTxn_keeps h t h' j u :
  AddLockOnlyTxn h t = Ok (h', true) → lock_only_txn h j = Some u → lock_only_txn h' j = Some u.
Proof.
  unfold AddLockOnlyTxn. case_decide; [done|]. destruct (slot _ _) as [i|]; [|done].
  destruct (lo_txns_ h !! i) as [[v|]|] eqn:Hi; intros [= <-] Hu; unfold lock_only_txn in *; simpl.
  - rewrite list_lookup_insert_ne; [done|]. intros ->. by rewrite Hi in Hu.
  - rewrite list_insert_ge; [done|]. by apply lookup_ge_None.
Qed.

Lemma on_txn_keeps (f : Transaction → Transaction) ps i h :
  (∀ t, same_txn t (f t)) → holder_ok c ps i h →
  ∃ h', on_txn f h = Ok h' ∧ holder_ok c ps i h' ∧
    ∀ t, (∃ t', lock_only_txn h (Z.to_nat (home (internal t))) = Some t' ∧ same_txn t t') →
         ∃ t', lock_only_txn h' (Z.to_nat (home (internal t))) = Some t' ∧ same_txn t t'.
Proof.
  intros Hf Hok. destruct (on_txn_ok c f ps i h Hf Hok) as (h' & E & Hok' & Hsl). exists h'. split_and!; [done..|].
  intros t (t1 & Ht1 & Hs1). destruct (Hsl _ _ Ht1) as (t2 & Ht2 & Hs2). exists t2. split; [done|]. by eapply same_txn_trans.
Qed.

Lemma rs_place x sp ps W t :
  rs_ok x sp ps W → txn_id t ∉ finished sp → (0 ≤ home (internal t) < num_replicas c)%Z → (txn_id t, home (internal t)) ∉ ps →
  ∃ h, place_txn c recorded t x = Ok (Some h) ∧ holder_ok c ((txn_id t, home (internal t)) :: ps) (txn_id t) h ∧
    (∃ t', lock_only_txn h (Z.to_nat (home (internal t))) = Some t' ∧ same_txn t t') ∧
    (∀ u, txn_id u = txn_id t → has_slot x u → ∃ u', lock_only_txn h (Z.to_nat (home (internal u))) = Some u' ∧ same_txn u u').
Proof.
  intros Hok Hf Hh Hni. unfold place_txn. destruct (active_txns_ x !! txn_id t) as [h0|] eqn:Hact.
  - pose proof (ro_holders _ _ _ _ Hok _ _ Hact Hf) as Hho.
    destruct (AddLockOnlyTxn_ok c ps t h0 Hho Hh Hni) as (h1 & E1 & [Hho1 Hp1]). rewrite E1. cbn [mbind result_bind].
    destruct (on_txn_keeps (record_event recorded ENTER_SCHEDULER_LO) _ _ h1 ltac:(intros; apply same_txn_record) Hho1) as (h2 & -> & Hho2 & Hk).
    exists h2. split_and!; [done..|by apply Hk|]. intros u Hu (h & u1 & Hh1 & Hu1 & Hs1). rewrite Hu, Hact in Hh1. simplify_eq.
    apply Hk. exists u1. split; [|done]. by eapply AddLockOnlyTxn_keeps.
  - destruct (NewTxnHolder_ok c ps t Hh) as (h1 & -> & [Hho1 Hp1]). cbn [mbind result_bind].
    destruct (on_txn_keeps (record_event recorded ENTER_SCHEDULER) _ _ h1 ltac:(intros; apply same_txn_record) Hho1) as (h2 & -> & Hho2 & Hk).
    exists h2. split_and!; [done..|by apply Hk|]. intros u Hu (h & u1 & Hh1 & _). by rewrite Hu, Hact in Hh1.
Qed.

(** What an event asks of the lock manager, when nothing is aborted, and the manager after it. *)
Definition rs_pass (r : R) (e : rs_event) : option (R * list lock_event) :=
  match e with
  | RArrive st t =>
    match rm_VerifyMaster st r t with
    | Ok (r', VALID) => Some (r', [EAcquire t])
    | Ok (r', VM_WAITING) => Some (r', [])
    | _ => None
    end
  | RDone st i h =>
    match remaster_result_ h with
    | None => Some (r, [ERelease i])
    | Some (k, _) =>
      match rm_RemasterOccured st r k with
      | Ok (r', res) => if decide (should_abort res = []) then Some (r', ERelease i :: (EAcquire <$> unblocked res)) else None
      | Err _ => None
      end
    end
  end.

Definition rs_arrival (e : rs_event) : list (TxnId * Z) :=
  match e with RArrive _ t => [(txn_id t, home (internal t))] | RDone _ _ _ => [] end.

Definition arrives_open sp (e : rs_event) : Prop :=
  match e with RArrive _ t => txn_id t ∉ finished sp | RDone _ _ _ => True end.

Lemma rs_ok_weaken x sp ps W W' p : rs_ok x sp ps W → (∀ t, W' t → W t) → rs_ok x sp (p :: ps) W'.
Proof.
  intros [? ? ? Hh Hw] HW. split; [done..| |].
  - intros i h Hi Hf. by apply holder_ok_weaken, Hh.
  - intros t Ht. by apply Hw, HW.
Qed.

Lemma rs_arrive st t s sp ps r evs :
  rs_ok (sched s) sp ps (rm_holds (remaster_manager_ s)) → txn_id t ∉ finished sp →
  (0 ≤ home (internal t) < num_replicas c)%Z → (txn_id t, home (internal t)) ∉ ps →
  rs_pass (remaster_manager_ s) (RArrive st t) = Some (r, evs) → valid_trace sp evs →
  ∃ s', rs_step c recorded visit_ids s (RArrive st t) = Ok s' ∧ remaster_manager_ s' = r ∧
    lock_steps (sched s) (sched s') evs sp (spec_final (L := L) sp evs) ∧
    rs_ok (sched s') (spec_final (L := L) sp evs) ((txn_id t, home (internal t)) :: ps) (rm_holds r).
Proof.
  intros Hok Hfin Hh Hni Hp Hv. cbn [rs_step rs_pass] in *. unfold rs_ProcessTransaction.
  destruct (rs_place _ _ _ _ _ Hok Hfin Hh Hni) as (h & -> & Hho & Hown & Hkeep). cbn [mbind result_bind].
  match goal with |- context [add_global_log_positions ?xs] => set (pos := xs) end.
  destruct (on_txn_keeps (add_global_log_positions pos) _ _ h ltac:(by intros ?; split_and!) Hho) as (h2 & -> & Hho2 & Hk2).
  cbn [mbind result_bind]. rewrite (ho_aborting _ _ _ _ Hho2). unfold SendToRemasterManager. cbn [remaster_manager_ sched].
  destruct (rm_VerifyMaster st (remaster_manager_ s) t) as [[r1 res]|] eqn:Ev; [|done]. cbn [mbind result_bind].
  destruct (rm_verify_ok _ _ _ _ _ Ev) as [Hholds _].
  match goal with |- context [set_manager r1 ?y] => set (s1 := set_manager r1 y) end.
  set (ps' := (txn_id t, home (internal t)) :: ps).
  assert (Hok1 : rs_ok (sched s1) sp ps' (λ u, rm_holds r1 u ∨ u = t)).
  { destruct Hok as [Hrel Hdis Hact Hhol Hwait]. split; simpl; [done|done| | |].
    - intros i Hi%Hact. destruct (decide (txn_id t = i)) as [<-|]; [rewrite lookup_insert_eq; by eexists|by rewrite lookup_insert_ne].
    - intros i hi. destruct (decide (txn_id t = i)) as [<-|].
      + rewrite lookup_insert_eq. by intros [= <-] _.
      + rewrite lookup_insert_ne by done. intros Hi Hf. by apply holder_ok_weaken, Hhol.
    - intros u Hu Hf. unfold has_slot. simpl. destruct (decide (txn_id t = txn_id u)) as [Hid|Hne].
      + rewrite <-Hid, lookup_insert_eq. exists h2.
        assert (∃ u', lock_only_txn h2 (Z.to_nat (home (internal u))) = Some u' ∧ same_txn u u') as (u' & ? & ?); [|by exists u'].
        apply Hk2. assert (Hcase : rm_holds (remaster_manager_ s) u ∨ u = t) by (destruct Hu as [Hu| ->]; [by apply Hholds|by right]).
        destruct Hcase as [Hcase| ->]; [|done]. apply Hkeep; [done|]. by apply Hwait.
      + rewrite lookup_insert_ne by done. destruct Hu as [Hu| ->]; [|done].
        destruct (Hholds _ Hu) as [Hu'| ->]; [|done]. apply (Hwait _ Hu' Hf). }
  destruct res; simplify_eq/=.
  - destruct Hv as [Hal _].
    destruct (rs_send (rs_TriggerPreDispatchAbort recorded visit_ids (S (S (open_holders s))) st) s1 sp ps' _ t Hok1 Hal) as (s2 & out & E2 & El2 & Es2 & Em2 & Hok2 & _).
    { apply Hok1; [by right|done]. }
    exists s2. split_and!; [exact E2|by rewrite Em2| |].
    + exact (lock_steps_one (sched s) (sched s2) (EAcquire t) out sp El2 Es2).
    + simpl. destruct Hok2 as [? ? ? ? Hw]. split; [done..|]. intros u Hu. apply Hw. by left.
  - exists s1. split_and!; [done..| |].
    + split; [done|]. exists []. simpl. by rewrite app_nil_r.
    + destruct Hok1 as [? ? ? ? Hw]. split; [done..|]. intros u Hu. apply Hw. by left.
Qed.

(** *** Reports *)

(** The holder of a finished transaction does not matter. *)
Lemma rs_ok_finished x x' i sp ps W :
  rs_ok x sp ps W → i ∈ finished sp → lock_manager_ x' = lock_manager_ x →
  (∀ j, j ≠ i → active_txns_ x' !! j = active_txns_ x !! j) → rs_ok x' sp ps W.
Proof.
  intros [Hrel Hdis Hact Hhol Hwait] Hi Hl Ho. split; [by rewrite Hl|done| | |].
  - intros j Hj. rewrite Ho; [auto|]. intros ->. by apply (Hdis i).
  - intros j h Hj Hf. apply Hhol; [|done]. rewrite <-Hj. symmetry. apply Ho. by intros ->.
  - intros t Ht Hf. destruct (Hwait t Ht Hf) as (h & t' & Hh & ? & ?). exists h, t'. rewrite Ho; [done|]. intros Heq. by rewrite Heq in Hf.
Qed.

Lemma rs_release i h x sp ps W :
  rs_ok x sp ps W → ready sp i →
  let x1 := {| lock_manager_ := lock_manager_ x; active_txns_ := alter (λ _, h) i (active_txns_ x);
               global_log_counter_ := global_log_counter_ x; sent := sent x |} in
  ∃ l out x2, lm_ReleaseLocks (lock_manager_ x) i = Ok (l, out) ∧ dispatch_all recorded out (set_lock_manager l x1) = Ok x2 ∧
    lock_steps x x2 [ERelease i] sp (spec_release sp i) ∧ rs_ok x2 (spec_release sp i) ps W ∧ active_txns_ x2 !! i = Some h.
Proof.
  intros Hok Hready x1. destruct (lm_rel_release _ _ i (ro_rel _ _ _ _ Hok) Hready) as (l & out & Hrel & Hl & Hnd & Hout).
  exists l, out. set (sp' := spec_release sp i) in *.
  assert (Hok1 : rs_ok (set_lock_manager l x1) sp' ps W).
  { destruct Hok as [_ Hdis Hact Hhol Hwait]. split; simpl; [done| | | |].
    - intros j [Hne Hj]%lookup_delete_is_Some. pose proof (Hdis j Hj). set_solver.
    - intros j [Hne Hj]%lookup_delete_is_Some. rewrite lookup_alter_ne by done. auto.
    - intros j hj Hj Hf. rewrite lookup_alter_ne in Hj by set_solver. apply Hhol; [done|set_solver].
    - intros t Ht Hf. destruct (Hwait t Ht) as (h1 & t1 & Hh1 & ? & ?); [set_solver|]. exists h1, t1. simpl.
      rewrite lookup_alter_ne by set_solver. done. }
  assert (Hall : Forall (λ j, is_Some (unarrived sp' !! j)) out).
  { apply Forall_forall. intros j Hj%Hout. apply elem_of_filter in Hj as [[[Hr _] _] _]. by eexists. }
  destruct (rs_dispatch_all out _ sp' ps W Hok1 Hall) as (x2 & E2 & Hok2 & Hs2 & Hl2 & Hd2 & Ho2).
  exists x2. split_and!; [done..| |done|].
  - apply (lock_steps_one x x2 (ERelease i) out sp); [|done]. cbn [lm_step]. by rewrite Hrel, Hl2.
  - rewrite Ho2.
    + simpl. destruct (ro_active _ _ _ _ Hok i) as [h0 Hh0]; [by destruct Hready as [-> _]; eexists|].
      by rewrite lookup_alter_eq, Hh0.
    + intros Hin. rewrite Forall_forall in Hall. destruct (Hall i Hin) as [? Hu]. simpl in Hu. by rewrite lookup_delete_eq in Hu.
Qed.

#[local] Instance EAcquire_inj : Inj (=) (=) EAcquire.
Proof. by intros ?? [= ->]. Qed.

Lemma rs_done st i h s sp ps r evs :
  rs_ok (sched s) sp ps (rm_holds (remaster_manager_ s)) →
  rs_pass (remaster_manager_ s) (RDone st i h) = Some (r, evs) → valid_trace sp evs →
  ∃ s', rs_step c recorded visit_ids s (RDone st i h) = Ok s' ∧ remaster_manager_ s' = r ∧
    lock_steps (sched s) (sched s') evs sp (spec_final (L := L) sp evs) ∧
    rs_ok (sched s') (spec_final (L := L) sp evs) ps (rm_holds r).
Proof.
  intros Hok Hp Hv. cbn [rs_step] in *. unfold rs_OnWorkerDone.
  assert (∃ ts, evs = ERelease i :: (EAcquire <$> ts)) as [ts ->].
  { cbn [rs_pass] in Hp. destruct (remaster_result_ h) as [[k ?]|]; [|injection Hp as <- <-; by exists []].
    destruct (rm_RemasterOccured _ _ _) as [[r1 res]|]; [|done]. case_decide; [|done]. injection Hp as <- <-. by eexists. }
  destruct Hv as [Hready Hv].
  destruct (rs_release i h (sched s) sp ps _ Hok Hready) as (l & out & x2 & Hrel & E2 & Hst & Hok2 & Hi2).
  cbn [lock_manager_]. rewrite Hrel. cbn [mbind result_bind]. rewrite E2. cbn [mbind result_bind]. rewrite Hi2.
  set (s2 := {| sched := x2; remaster_manager_ := remaster_manager_ s |}).
  set (sp2 := spec_release sp i) in *. change (spec_step sp (ERelease i)) with sp2 in Hv.
  assert (Hproc : ∃ s3, match remaster_result_ h with
      | Some (k, _) => '(r, res) ← rm_RemasterOccured st (remaster_manager_ s2) k;
          ProcessRemasterResult recorded visit_ids (S (S (open_holders s))) st res (set_manager r s2)
      | None => Ok s2 end = Ok s3 ∧ remaster_manager_ s3 = r ∧ lock_steps x2 (sched s3) (EAcquire <$> ts) sp2 (spec_final (L := L) sp2 (EAcquire <$> ts)) ∧
      rs_ok (sched s3) (spec_final (L := L) sp2 (EAcquire <$> ts)) ps (rm_holds r) ∧ dom (active_txns_ (sched s3)) = dom (active_txns_ x2)).
  { cbn [rs_pass] in Hp. destruct (remaster_result_ h) as [[k ?]|].
    - cbn [remaster_manager_ s2]. destruct (rm_RemasterOccured st (remaster_manager_ s) k) as [[r1 res]|] eqn:Er; [|done].
      case_decide as Ha; [|done]. injection Hp as <- Hts. apply list_fmap_eq_inj in Hts as <-; [|apply _].
      destruct (rm_remaster_ok _ _ _ _ _ Er) as [Hfrom _]. cbn [mbind result_bind]. unfold ProcessRemasterResult, process_result.
      destruct (rs_send_all (rs_TriggerPreDispatchAbort recorded visit_ids (S (S (open_holders s))) st) (unblocked res) (set_manager r1 s2) sp2 ps
        (rm_holds (remaster_manager_ s)) Hok2 Hv) as (s3 & E3 & Em3 & Hst3 & Hok3 & Hd3); [intros t Ht; apply Hfrom; auto|].
      rewrite E3. cbn [mbind result_bind]. rewrite Ha. cbn [fmap list_fmap remove_dups length]. rewrite decide_True by done. rewrite visit_nil.
      exists s3. split_and!; [done..| |done]. destruct Hok3 as [? ? ? ? Hw]. split; [done..|]. intros t Ht. apply Hw, Hfrom. by left.
    - injection Hp as <- Hts. symmetry in Hts. apply fmap_nil_inv in Hts as ->. exists s2. split_and!; [done..| |done|done].
      split; [done|]. exists []. simpl. by rewrite app_nil_r. }
  destruct Hproc as (s3 & E3 & Em3 & Hst3 & Hok3 & Hd3). rewrite E3. cbn [mbind result_bind].
  assert (is_Some (active_txns_ (sched s3) !! i)) as [h3 Hh3] by (apply elem_of_dom; rewrite Hd3; apply elem_of_dom; by eexists).
  rewrite Hh3. unfold on_sched. cbn [mbind result_bind]. eexists. split; [done|]. split_and!; [done| |].
  - apply (lock_steps_app _ x2 _ [ERelease i] _ _ sp2); [done|].
    destruct Hst3 as (_ & outs & El & Es). split; [done|]. exists outs. by destruct (is_ready_for_gc _).
  - apply (rs_ok_finished (sched s3) _ i); [exact Hok3| | |].
    + assert (Hin : ∀ ts sp, i ∈ finished sp → i ∈ finished (spec_final (L := L) sp (EAcquire <$> ts))).
      { clear. induction ts as [|t ts IH]; intros sp Hi; [done|]. apply IH. done. }
      apply Hin. simpl. set_solver.
    + by destruct (is_ready_for_gc _).
    + intros j Hj. destruct (is_ready_for_gc _); simpl; [by rewrite lookup_delete_ne|by rewrite lookup_insert_ne].
Qed.

(** *** Runs *)

(** The calls of the lock manager in a run. *)
Fixpoint rs_locks (r : R) (es : list rs_event) : option (list lock_event) :=
  match es with
  | [] => Some []
  | e :: es => '(r, evs) ← rs_pass r e; evs' ← rs_locks r es; Some (evs ++ evs')
  end.

(** Nothing arrives for a transaction that was reported. *)
Fixpoint rs_open (done : list TxnId) (es : list rs_event) : Prop :=
  match es with
  | [] => True
  | RArrive _ t :: es => txn_id t ∉ done ∧ rs_open done es
  | RDone _ i _ :: es => rs_open (i :: done) es
  end.

Lemma valid_trace_app sp es1 es2 : valid_trace (L := L) sp (es1 ++ es2) ↔ valid_trace sp es1 ∧ valid_trace (spec_final (L := L) sp es1) es2.
Proof. revert sp. induction es1 as [|e es1 IH]; intros sp; simpl; [naive_solver|]. rewrite IH. naive_solver. Qed.

Lemma finished_final sp es : finished (spec_final (L := L) sp es) = list_to_set (LockSpec.released es) ∪ finished sp.
Proof.
  revert sp. induction es as [|e es IH]; intros sp; [set_solver|].
  change (spec_final sp (e :: es)) with (spec_final (spec_step sp e) es). rewrite IH. destruct e as [t|i]; simpl; set_solver.
Qed.

Lemma rs_run es s sp ps done evs :
  rs_ok (sched s) sp ps (rm_holds (remaster_manager_ s)) → finished sp = list_to_set done →
  rs_locks (remaster_manager_ s) es = Some evs → valid_trace sp evs → rs_open done es →
  NoDup ((es ≫= rs_arrival) ++ ps) → Forall (λ p, (0 ≤ p.2 < num_replicas c)%Z) (es ≫= rs_arrival) →
  ∃ s', rfoldl (rs_step c recorded visit_ids) s es = Ok s' ∧
    lock_steps (sched s) (sched s') evs sp (spec_final (L := L) sp evs).
Proof.
  revert s sp ps done evs. induction es as [|e es IH]; intros s sp ps done evs Hok Hdone Hl Hv Ho Hnd Hall.
  { injection Hl as <-. exists s. split; [done|]. split; [done|]. exists []. simpl. by rewrite app_nil_r. }
  cbn [rs_locks] in Hl. destruct (rs_pass (remaster_manager_ s) e) as [[r evs1]|] eqn:Ep; [|done]. simpl in Hl.
  destruct (rs_locks r es) as [evs2|] eqn:El; [|done]. simpl in Hl. injection Hl as <-.
  apply valid_trace_app in Hv as [Hv1 Hv2].
  assert (Hd : (e :: es) ≫= rs_arrival = rs_arrival e ++ (es ≫= rs_arrival)) by done. rewrite Hd in *. clear Hd.
  apply Forall_app in Hall as [Hall1 Hall].
  assert (Hrel : LockSpec.released evs1 = match e with RDone _ i _ => [i] | RArrive _ _ => [] end).
  { assert (Hacq : ∀ ts, LockSpec.released (EAcquire <$> ts) = []) by (induction ts; done). destruct e as [st t|st i h]; cbn [rs_pass] in Ep.
    - destruct (rm_VerifyMaster _ _ _) as [[? []]|]; simplify_eq; done.
    - destruct (remaster_result_ h) as [[k ?]|]; [|by simplify_eq]. destruct (rm_RemasterOccured _ _ _) as [[? res]|]; [|done].
      case_decide; [|done]. simplify_eq. cbn [LockSpec.released]. by rewrite Hacq. }
  assert (∃ s1, rs_step c recorded visit_ids s e = Ok s1 ∧ remaster_manager_ s1 = r ∧
    lock_steps (sched s) (sched s1) evs1 sp (spec_final (L := L) sp evs1) ∧
    rs_ok (sched s1) (spec_final (L := L) sp evs1) (rs_arrival e ++ ps) (rm_holds r)) as (s1 & E1 & <- & Hst1 & Hok1).
  { destruct e as [st t|st i h]; [|by apply rs_done]. destruct Ho as [Ho _]. cbn [rs_arrival app] in Hall1.
    apply Forall_cons in Hall1 as [Hh _]. apply rs_arrive; [done|by rewrite Hdone, elem_of_list_to_set|done| |done|done].
    intros Hin. apply NoDup_cons in Hnd as [Hni _]. apply Hni. apply elem_of_app. by right. }
  destruct (IH s1 (spec_final (L := L) sp evs1) (rs_arrival e ++ ps) (match e with RDone _ i _ => i :: done | RArrive _ _ => done end) evs2 Hok1) as (s2 & E2 & Hst2).
  - rewrite finished_final, Hrel, Hdone. destruct e; simpl; set_solver.
  - done.
  - done.
  - destruct e; [by destruct Ho|done].
  - eapply NoDup_Permutation_proper; [|exact Hnd]. rewrite <-app_assoc, !app_assoc. f_equiv. by rewrite (comm (++)).
  - done.
  - exists s2. cbn [rfoldl]. rewrite E1. cbn [mbind result_bind]. split; [done|].
    eapply lock_steps_app; [exact Hst1|]. unfold spec_final in *. rewrite foldl_app. exact Hst2.
Qed.

Definition event_storage (e : rs_event) : Storage := match e with RArrive st _ => st | RDone st _ _ => st end.

(** What reaches the lock manager has been verified. *)
Lemma rs_locks_checked r es evs t :
  rs_locks r es = Some evs → EAcquire t ∈ evs → ∃ e, e ∈ es ∧ (keys t = [] ∨ CheckCounters (event_storage e) t true = Ok VALID).
Proof.
  revert r evs. induction es as [|e es IH]; intros r evs; cbn [rs_locks]; [by intros [= <-] ?%elem_of_nil|].
  destruct (rs_pass r e) as [[r1 evs1]|] eqn:Ep; [|done]. simpl. destruct (rs_locks r1 es) as [evs2|] eqn:El; [|done].
  simpl. intros [= <-] [Hin|Hin]%elem_of_app.
  2:{ destruct (IH _ _ El Hin) as (e' & ? & ?). exists e'. split; [by right|done]. }
  exists e. split; [left|]. destruct e as [st u|st i h]; cbn [rs_pass] in Ep; simpl.
  - destruct (rm_VerifyMaster st r u) as [[r2 []]|] eqn:Ev; simplify_eq; [|by apply elem_of_nil in Hin].
    apply list_elem_of_singleton in Hin as [= ->]. by apply (rm_verify_ok _ _ _ _ _ Ev).
  - destruct (remaster_result_ h) as [[k ?]|]; [|simplify_eq; by apply list_elem_of_singleton in Hin].
    destruct (rm_RemasterOccured st r k) as [[r2 res]|] eqn:Er; [|done]. case_decide; [|done]. simplify_eq.
    apply elem_of_cons in Hin as [?|(u & [= ->] & Hu)%list_elem_of_fmap]; [done|]. right.
    destruct (rm_remaster_ok _ _ _ _ _ Er) as [_ Hc]. rewrite Forall_forall in Hc. by apply Hc.
Qed.

(** C17. The scheduler together with a remaster manager and a lock manager, any that meet their
    interfaces: in a run in which the remaster manager aborts nothing, no check and no access
    fails, and what reaches the lock manager is what the remaster manager lets through,
    checked against the storage of that moment. No transaction is dispatched twice, and those
    dispatched and not reported back share a lock only to read it. *)
Theorem remaster_scheduler_isolation (es : list rs_event) (evs : list lock_event) :
  rs_locks rm_init es = Some evs → valid_trace (L := L) spec_init evs → rs_open [] es →
  NoDup (es ≫= rs_arrival) → Forall (λ p, (0 ≤ p.2 < num_replicas c)%Z) (es ≫= rs_arrival) →
  ∃ s, rfoldl (rs_step c recorded visit_ids) rs_init es = Ok s ∧ NoDup (sent (sched s)) ∧
    (∀ t, EAcquire t ∈ evs → ∃ e, e ∈ es ∧ (keys t = [] ∨ CheckCounters (event_storage e) t true = Ok VALID)) ∧
    (∀ k t1 t2 ty1 ty2, t1 ∈ sent (sched s) → t1 ∉ LockSpec.released evs → t2 ∈ sent (sched s) → t2 ∉ LockSpec.released evs → t1 ≠ t2 →
      (t1, ty1) ∈ history (L := L) evs k → (t2, ty2) ∈ history (L := L) evs k → ty1 = READ ∧ ty2 = READ).
Proof.
  intros Hl Hv Ho Hnd Hall.
  destruct (rs_run es rs_init spec_init [] [] evs) as (s & E & _ & outs & El & Es); [|done..|by rewrite app_nil_r|done|].
  { split; simpl; [apply lm_rel_init| | | |].
    - intros i [? Hi]. by rewrite lookup_empty in Hi.
    - intros i [? Hi]. by rewrite lookup_empty in Hi.
    - intros i h Hi. by rewrite lookup_empty in Hi.
    - intros t Ht. by apply rm_holds_init in Ht. }
  destruct (lm_run_init (L := L) _ Hv) as (l' & outs' & El' & _ & _ & Hfl & Hdup).
  change (lock_manager_ (sched rs_init)) with (lm_init (L := L)) in El. rewrite El in El'. simplify_eq.
  exists s. simpl in Es. rewrite Es. split_and!; [done|done|intros t; by apply (rs_locks_checked rm_init)|]. intros k t1 t2 ty1 ty2 H1' D1 H2' D2 Hne.
  assert (Hready : ∀ t, t ∈ concat outs' → t ∉ LockSpec.released evs → ready (spec_final (L := L) spec_init evs) t).
  { intros t Ht Hd. apply Hfl. apply in_flight_intro; [by eapply lm_run_length|done|done]. }
  eapply exclusive_aux; eauto.
Qed.
End runs.

(** ** Aborts come to an end *)

Definition fuel_enough {A} (r : result A) : Prop := r ≠ Err OutOfFuel.

Lemma fuel_bind {A B} (r : result A) (k : A → result B) :
  fuel_enough r → (∀ a, r = Ok a → fuel_enough (k a)) → fuel_enough (r ≫= k).
Proof. intros Hr Hk. destruct r as [a|f]; [by apply Hk|]. exact (λ E, Hr (f_equal (λ r : result B, match r with Ok _ => Err OutOfFuel | Err f => Err f end) E)). Qed.

Lemma fuel_rfoldl {A B} (f : B → A → result B) (P : B → Prop) b l :
  (∀ b a, P b → fuel_enough (f b a) ∧ ∀ b', f b a = Ok b' → P b') → P b →
  fuel_enough (rfoldl f b l) ∧ ∀ b', rfoldl f b l = Ok b' → P b'.
Proof.
  intros Hf. revert b. induction l as [|a l IH]; intros b Hb; cbn [rfoldl]; [split; [done|by intros ? [= <-]]|].
  destruct (Hf b a Hb) as [H1 H2]. destruct (f b a) as [b1|e] eqn:E; cbn [mbind result_bind]; [by apply IH, H2|].
  split; [|done]. intros [= ->]. by apply H1.
Qed.

Section abort_terminates.
  Context {L : Type} `{LockManager L} {R : Type} `{RemasterManager R}.
  Context (c : Configuration).
  Context (recorded : TransactionEvent → list TransactionEventInfo).
  Context (visit_ids : list TxnId → list TxnId).
  Hypothesis locks_fuel : ∀ (l : L) i, fuel_enough (lm_ReleaseLocks l i).
  Hypothesis verify_fuel : ∀ st (r : R) t, fuel_enough (rm_VerifyMaster st r t).
  Hypothesis occured_fuel : ∀ st (r : R) k, fuel_enough (rm_RemasterOccured st r k).
  Hypothesis release_fuel : ∀ st (r : R) t, fuel_enough (rm_ReleaseTransaction st r t).

Definition open_in (m : gmap TxnId TxnHolder) : nat := size (filter (λ p, aborting_ p.2 = false) m).

(** Replacing a holder by one with the same mark, or by a marked one. *)
Lemma open_insert m i h h' :
  m !! i = Some h → open_in (<[i := h']> m) + (if aborting_ h then 0 else 1) = open_in m + (if aborting_ h' then 0 else 1).
Proof.
  intros Hi. unfold open_in.
  assert (Hd : size (filter (λ p, aborting_ p.2 = false) (delete i m)) + (if aborting_ h then 0 else 1) =
    size (filter (λ p : TxnId * TxnHolder, aborting_ p.2 = false) m)).
  { rewrite <-(insert_delete_id m i h) at 2 by done. rewrite map_filter_insert.
    destruct (aborting_ h) eqn:Ha; simpl; rewrite ?Ha.
    - rewrite decide_False by done. rewrite delete_delete_eq. lia.
    - rewrite decide_True by done. rewrite map_size_insert_None; [lia|]. rewrite map_lookup_filter, lookup_delete_eq. done. }
  assert (Hn : size (filter (λ p : TxnId * TxnHolder, aborting_ p.2 = false) (<[i := h']> m)) =
    size (filter (λ p, aborting_ p.2 = false) (delete i m)) + (if aborting_ h' then 0 else 1)).
  { rewrite <-insert_delete_eq. rewrite map_filter_insert. destruct (aborting_ h') eqn:Ha; simpl; rewrite ?Ha.
    - rewrite decide_False by done. rewrite delete_delete_eq. lia.
    - rewrite decide_True by done. rewrite map_size_insert_None; [lia|]. rewrite map_lookup_filter, lookup_delete_eq. done. }
  lia.
Qed.

Lemma open_insert_le m i h : open_in (<[i := h]> m) ≤ S (open_in m).
Proof.
  destruct (m !! i) as [h0|] eqn:Hi; [pose proof (open_insert m i h0 h Hi); destruct (aborting_ h), (aborting_ h0); lia|].
  unfold open_in. rewrite map_filter_insert. destruct (aborting_ h) eqn:Ha; simpl; rewrite ?Ha.
  - rewrite decide_False by done. rewrite delete_id by done. lia.
  - rewrite decide_True by done. rewrite map_size_insert_None; [done|]. rewrite map_lookup_filter, Hi. done.
Qed.

Lemma on_txn_fuel (f : Transaction → Transaction) h :
  fuel_enough (on_txn f h) ∧ ∀ h', on_txn f h = Ok h' → aborting_ h' = aborting_ h.
Proof.
  unfold on_txn, holder_txn. destruct (lo_txns_ h !! main_txn_idx_ h) as [[]|]; cbn [mbind result_bind]; split; try done.
  by intros h' [= <-].
Qed.

Lemma Dispatch_fuel i b (x : scheduler L) :
  fuel_enough (Dispatch recorded i b x) ∧ ∀ x', Dispatch recorded i b x = Ok x' → open_in (active_txns_ x') = open_in (active_txns_ x).
Proof.
  unfold Dispatch. destruct (active_txns_ x !! i) as [h|] eqn:Hi; [|done].
  match goal with |- context [on_txn ?f h] => destruct (on_txn_fuel f h) as [H1' H2']; destruct (on_txn f h) as [h'|e] eqn:E end;
    cbn [mbind result_bind]; [|split; [intros [= ->]; by apply H1'|done]].
  split; [done|]. intros x' [= <-]. simpl. pose proof (open_insert (active_txns_ x) i h (IncNumDispatches h') Hi) as Ho. simpl in Ho.
  rewrite (H2' h' eq_refl) in Ho. lia.
Qed.

Lemma dispatch_all_fuel ids (x : scheduler L) :
  fuel_enough (dispatch_all recorded ids x) ∧ ∀ x', dispatch_all recorded ids x = Ok x' → open_in (active_txns_ x') = open_in (active_txns_ x).
Proof.
  apply (fuel_rfoldl _ (λ x', open_in (active_txns_ x') = open_in (active_txns_ x))); [|done].
  intros x1 i Hx1. destruct (Dispatch_fuel i false x1) as [H1' H2']. split; [done|]. intros x2 E. rewrite (H2' _ E). done.
Qed.

(** A call that ends and leaves at most as many transactions that can be aborted. *)
Definition ends (n : nat) (r : result (rscheduler L R)) : Prop :=
  fuel_enough r ∧ ∀ s', r = Ok s' → open_holders s' ≤ n.

Lemma ends_bind {A} n (r : result A) k : fuel_enough r → (∀ a, r = Ok a → ends n (k a)) → ends n (r ≫= k).
Proof. intros Hr Hk. destruct r as [a|e]; [by apply Hk|]. split; [|done]. intros [= ->]. by apply Hr. Qed.

Lemma ends_on_sched n (f : scheduler L → result (scheduler L)) s :
  fuel_enough (f (sched s)) → (∀ x, f (sched s) = Ok x → open_in (active_txns_ x) ≤ n) → ends n (on_sched f s).
Proof. intros Hf Hx. unfold on_sched. apply ends_bind; [done|]. intros x E. split; [done|]. intros s' [= <-]. by apply Hx. Qed.

Lemma send_ends trigger (s : rscheduler L R) t n :
  (∀ i s, open_holders s ≤ n → ends n (trigger i s)) → open_holders s ≤ n → ends n (send_unblocked recorded trigger s t).
Proof.
  intros Ht Hs. unfold send_unblocked, rs_SendToLockManager. destruct (active_txns_ (sched s) !! txn_id t) as [h|] eqn:Hh; [|done].
  cbn [mbind option_bind]. destruct (lock_only_txn h _) as [t'|]; [|done]. destruct (lm_AcquireLocks _ _) as [l r].
  match goal with |- context [trigger (txn_id t) ?y] => set (s1 := y) end.
  assert (Hs1 : open_holders s1 ≤ n).
  { etrans; [|exact Hs]. unfold open_holders. simpl.
    match goal with |- context [alter ?f (txn_id t) ?m] => assert (E : alter f (txn_id t) m = <[txn_id t := f h]> m) end.
    { apply map_eq. intros j. destruct (decide (txn_id t = j)) as [<-|]; [by rewrite lookup_alter_eq, lookup_insert_eq, Hh|by rewrite lookup_alter_ne, lookup_insert_ne]. }
    rewrite E. match goal with |- context [<[txn_id t := ?h']> _] => pose proof (open_insert (active_txns_ (sched s)) (txn_id t) h h' Hh) as Ho end.
    unfold open_in in Ho. simpl in Ho. lia. }
  destruct r; [|by split; [|intros s' [= <-]]|by apply Ht].
  destruct (Dispatch_fuel (txn_id t) true (sched s1)) as [H1' H2']. apply ends_on_sched; [done|]. intros x E. by rewrite (H2' _ E).
Qed.

Lemma process_ends trigger res (s : rscheduler L R) n :
  (∀ i s, open_holders s ≤ n → ends n (trigger i s)) → open_holders s ≤ n → ends n (process_result recorded visit_ids trigger res s).
Proof.
  intros Ht Hs. unfold process_result.
  destruct (fuel_rfoldl (send_unblocked recorded trigger) (λ s, open_holders s ≤ n) s (unblocked res)) as [H1' H2'];
    [intros; by apply send_ends|done|]. apply ends_bind; [done|]. intros s1 E1.
  case_decide; [|done]. apply (fuel_rfoldl _ (λ s, open_holders s ≤ n)); [|by apply H2']. intros s2 i Hs2. by apply Ht.
Qed.

Lemma abort_ends fuel st i (s : rscheduler L R) n :
  n < fuel → open_holders s ≤ n → ends n (rs_TriggerPreDispatchAbort recorded visit_ids fuel st i s).
Proof.
  revert i s n. induction fuel as [|fuel IH]; intros i s n Hn Hs; [lia|]. cbn [rs_TriggerPreDispatchAbort].
  destruct (active_txns_ (sched s) !! i) as [h|] eqn:Hi; [|done]. destruct (aborting_ h) eqn:Ha; [done|].
  apply ends_bind; [done|]. intros s0 E0. injection E0 as <-. cbn [remaster_manager_].
  pose proof (open_insert (active_txns_ (sched s)) i h (SetAborting h) Hi) as Ho. rewrite Ha in Ho. simpl in Ho.
  unfold open_holders in Hs. fold (open_in (active_txns_ (sched s))) in Hs.
  apply ends_bind; [unfold holder_txn; by destruct (lo_txns_ h !! main_txn_idx_ h) as [[]|]|]. intros t _.
  apply ends_bind; [apply release_fuel|]. intros [r res] _.
  destruct (process_ends (rs_TriggerPreDispatchAbort recorded visit_ids fuel st) res
    (set_manager r {| sched := set_holder i (SetAborting h) (sched s); remaster_manager_ := remaster_manager_ s |}) (pred n)) as [H1' H2'].
  { intros j s' Hs'. apply IH; [lia|done]. }
  { unfold open_holders. simpl. fold (open_in (<[i := SetAborting h]> (active_txns_ (sched s)))). lia. }
  apply ends_bind; [done|]. intros s1 E1. apply H2' in E1. apply ends_bind; [apply locks_fuel|]. intros [l ids] _.
  destruct (dispatch_all_fuel ids (set_lock_manager l (sched s1))) as [H3 H4].
  apply ends_bind; [unfold on_sched; apply fuel_bind; [done|]; by intros|]. intros s2 E2.
  assert (Hs2 : open_in (active_txns_ (sched s2)) ≤ pred n).
  { unfold on_sched in E2. destruct (dispatch_all _ _ _) as [x|] eqn:Ex; [|done]. injection E2 as <-. simpl. rewrite (H4 _ eq_refl). exact E1. }
  destruct (active_txns_ (sched s2) !! i) as [h2|] eqn:Hi2; [|done].
  destruct (on_txn_fuel (set_status ABORTED) h2) as [H5 H6]. apply ends_bind; [done|]. intros h3 E3. apply H6 in E3.
  destruct (Dispatch_fuel i false (set_holder i h3 (sched s2))) as [H7 H8]. apply ends_on_sched; [done|]. intros x Ex. rewrite (H8 _ Ex). simpl.
  pose proof (open_insert _ i h2 h3 Hi2) as Ho2. rewrite E3 in Ho2. destruct (aborting_ h2); lia.
Qed.

Lemma place_fuel t (x : scheduler L) : fuel_enough (place_txn c recorded t x).
Proof.
  unfold place_txn. destruct (active_txns_ x !! txn_id t) as [h|].
  - apply fuel_bind.
    + unfold AddLockOnlyTxn. case_decide; [done|]. destruct (slot _ _); [|done]. by destruct (lo_txns_ h !! _) as [[]|].
    + intros [h' []] _; [|done]. apply fuel_bind; [apply on_txn_fuel|done].
  - apply fuel_bind; [unfold NewTxnHolder; by destruct (slot _ _)|]. intros h _. apply fuel_bind; [apply on_txn_fuel|done].
Qed.

Lemma arrive_ends st t (s : rscheduler L R) : fuel_enough (rs_step c recorded visit_ids s (RArrive st t)).
Proof.
  cbn [rs_step]. unfold rs_ProcessTransaction. apply fuel_bind; [apply place_fuel|]. intros [h|] _; [|done].
  apply fuel_bind; [apply on_txn_fuel|]. intros h' _. destruct (aborting_ h'); [done|]. unfold SendToRemasterManager.
  apply fuel_bind; [apply verify_fuel|]. intros [r res] _.
  match goal with |- context [set_manager r ?y] => set (s1 := set_manager r y) end.
  assert (Hs1 : open_holders s1 ≤ S (open_holders s)) by apply open_insert_le.
  destruct res; [|done|]; [apply (send_ends _ _ _ (S (open_holders s)))|apply (abort_ends _ _ _ _ (S (open_holders s)))]; [|done|lia|done].
  intros i s2 Hs2. apply abort_ends; [lia|done].
Qed.

Lemma done_ends st i h (s : rscheduler L R) : fuel_enough (rs_step c recorded visit_ids s (RDone st i h)).
Proof.
  cbn [rs_step]. unfold rs_OnWorkerDone. apply fuel_bind; [apply locks_fuel|]. intros [l ids] _.
  match goal with |- context [dispatch_all _ ids ?y] => destruct (dispatch_all_fuel ids y) as [H1' H2']; set (x0 := y) in * end.
  apply fuel_bind; [done|]. intros x1 E1. apply H2' in E1.
  assert (Hx1 : open_in (active_txns_ x1) ≤ S (open_holders s)).
  { rewrite E1. simpl. destruct (active_txns_ (sched s) !! i) as [h0|] eqn:Hi.
    - match goal with |- context [alter ?f i ?m] => assert (E : alter f i m = <[i := h]> m) end; [|rewrite E; apply open_insert_le].
      apply map_eq. intros j. destruct (decide (i = j)) as [<-|]; [by rewrite lookup_alter_eq, lookup_insert_eq, Hi|by rewrite lookup_alter_ne, lookup_insert_ne].
    - rewrite alter_id; [unfold open_holders, open_in; lia|]. intros h1 Hh1. congruence. }
  destruct (active_txns_ x1 !! i) as [h1|]; [|done].
  apply fuel_bind.
  - destruct (remaster_result_ h1) as [[k ?]|]; [|done]. apply fuel_bind; [apply occured_fuel|]. intros [r res] _.
    apply (process_ends _ _ _ (S (open_holders s))); [|done]. intros j s2 Hs2. apply abort_ends; [lia|done].
  - intros s2 _. by destruct (active_txns_ (sched s2) !! i).
Qed.
End abort_terminates.

Lemma check_fuel st f h w ks : fuel_enough (check_keys st f h w ks).
Proof. revert w. induction ks as [|kv ks IH]; intros w; simpl; [by destruct w|]. repeat case_match; try done; apply IH. Qed.

Lemma unblock_fuel st q h res : fuel_enough (TryToUnblock st q h res).
Proof.
  unfold TryToUnblock. destruct (q !! h) as [l|]; [|done]. apply fuel_bind; [|by intros []].
  clear q h. revert res. induction l as [|t l IH]; intros res; cbn [unblock_queue]; [done|].
  apply fuel_bind; [apply check_fuel|]. intros [] _; [apply IH|done|apply IH].
Qed.

Lemma old_release_fuel visit l i : fuel_enough (OldLock.ReleaseLocks visit l i).
Proof.
  unfold OldLock.ReleaseLocks. destruct (OldLock.old_txn_info_ l !! i) as [info|]; [|done]. apply fuel_bind; [|by intros []].
  apply (fuel_rfoldl _ (λ _, True)); [|done]. intros [l1 res] k _. split; [|done]. unfold OldLock.old_release_lock.
  destruct (OldLock.old_lock_table_ l1 !! k) as [st|]; [|done]. apply fuel_bind.
  - unfold OldLock.Release. repeat case_decide; try done. destruct (OldLock.old_waiter_queue_ st) as [|[front []] q] eqn:Eq; try done.
    cbn [OldLock.grant_reads]. by destruct (OldLock.grant_reads _ _ _) as [[]].
  - intros [st' gs] _. apply fuel_bind; [|by intros []]. apply (fuel_rfoldl _ (λ _, True)); [|done].
    intros [infos out] t _. split; [|done]. unfold RMALock.grant. by destruct (infos !! t).
Qed.

(** Every step of the scheduler with the simple remaster manager and its lock manager comes to an
    end, from any state and for any event: however many aborts one abort causes, each marks
    another transaction, so that their number bounds the depth of the calls. *)
Theorem remaster_scheduler_terminates c recorded visit_ids order visit
    (s : rscheduler OldLock.OldLockManager (gmap Z (list Transaction))) (e : rs_event) :
  rs_step (H := OldLock.old_lock_manager visit) (H0 := simple_remaster order) c recorded visit_ids s e ≠ Err OutOfFuel.
Proof.
  assert (Hv : ∀ st (q : gmap Z (list Transaction)) t, fuel_enough (VerifyMaster st q t)).
  { intros st q t. unfold VerifyMaster. destruct (keys t); [done|]. destruct (queue q _); [|done].
    apply fuel_bind; [apply check_fuel|]. intros r _. by case_decide. }
  assert (Ho : ∀ st (q : gmap Z (list Transaction)) k, fuel_enough (RemasterOccured st q (order q) k)).
  { intros st q k. apply (fuel_rfoldl _ (λ _, True)); [|done]. intros [q1 res] h _. split; [|done]. unfold visit_queue. simpl.
    destruct (queue q1 h) as [|t l]; [done|]. destruct (waits_for k t); [apply unblock_fuel|done]. }
  assert (Hr : ∀ st (q : gmap Z (list Transaction)) t, fuel_enough (ReleaseTransaction st q t)).
  { intros st q t. apply (fuel_rfoldl _ (λ _, True)); [|done]. intros [q1 res] h _. split; [|done]. apply unblock_fuel. }
  destruct e as [st t|st i h].
  - exact (arrive_ends (H := OldLock.old_lock_manager visit) (H0 := simple_remaster order) c recorded visit_ids (old_release_fuel visit) Hv Hr st t s).
  - exact (done_ends (H := OldLock.old_lock_manager visit) (H0 := simple_remaster order) c recorded visit_ids (old_release_fuel visit) Ho Hr st i h s).
Qed.

(** ** The build: the simple manager over the first lock manager *)

#[export] Instance old_frame visit : @LockManagerFrame OldLock.OldLockManager (OldLock.old_lock_manager visit).
Proof.
  intros l t t' (Hi & Hh & Hp & Hk). cbn. unfold OldLock.AcquireLocks, keys_size. rewrite Hi, Hk.
  erewrite foldl_ext_all; [done|]. intros a kv. unfold OldLock.old_acquire_key, OldLock.other_home. by rewrite Hi, Hh.
Qed.

Section example.
#[local] Instance example_locks : LockManager OldLock.OldLockManager := OldLock.old_lock_manager elements.
#[local] Instance example_managers : RemasterManager (gmap Z (list Transaction)) := simple_remaster (λ q, elements (dom q)).

(** A hash set visited in the order of insertion. *)
Definition in_order (ids : list TxnId) : list TxnId := ids.

Definition part (i : TxnId) (h : Z) (p : Program) (ks : list KeyValueEntry) (rs : list Z) : Transaction :=
  set_internal (set_involved_replicas rs) (make_txn i MULTI_HOME_OR_LOCK_ONLY h p ks).

(** A remaster of A to region 0, and a transaction that knows of it and waits for it. *)
Definition move_a : Transaction := part 10 1 (kRemaster 0 false) [make_entry "A" WRITE 1 0] [1%Z].
Definition wants_a : Transaction := part 1 0 (kCode []) [make_entry "A" WRITE 0 1] [0%Z].

Definition moved_holder : TxnHolder :=
  {| txn_id_ := 10; main_txn_idx_ := 1; lo_txns_ := [None; None]; remaster_result_ := Some ("A"%string, 1%Z);
     aborting_ := false; done_ := false; num_lo_txns_ := 1; expected_num_lo_txns_ := 1; num_dispatches_ := 1 |}.

Definition store (a_master a_counter c_master c_counter d_master d_counter : Z) : Storage :=
  {["A"%string := MakeRecord "a" a_master a_counter; "B"%string := MakeRecord "b" 0 0;
    "C"%string := MakeRecord "c" c_master c_counter; "D"%string := MakeRecord "d" d_master d_counter]}.

Definition example_rs_events : list rs_event :=
  [RArrive (store 1 0 1 0 0 0) move_a; RArrive (store 1 0 1 0 0 0) wants_a; RDone (store 0 1 1 0 0 0) 10 moved_holder].

Lemma remaster_scheduler_isolation_witness :
  ∃ s, rfoldl (rs_step example_config no_events in_order) rs_init example_rs_events = Ok s ∧ sent (sched s) = [10%Z; 1%Z] ∧ NoDup (sent (sched s)).
Proof.
  destruct (remaster_scheduler_isolation (LockManagerCorrect0 := OldLock.old_correct elements (λ X, reflexivity _))
    (H2 := simple_remaster_correct (λ q, elements (dom q))) example_config no_events in_order eq_refl example_rs_events
    [EAcquire move_a; ERelease 10; EAcquire wants_a]) as (s & E & Hnd & _).
  - vm_compute. reflexivity.
  - apply (bool_decide_eq_true_1 _). vm_compute. reflexivity.
  - cbn [rs_open example_rs_events]. split_and!; [apply not_elem_of_nil..|done].
  - apply (bool_decide_eq_true_1 _). vm_compute. reflexivity.
  - apply (bool_decide_eq_true_1 _). vm_compute. reflexivity.
  - exists s. split_and!; [exact E| |exact Hnd]. vm_compute in E. injection E as <-. reflexivity.
Defined.

(** *** A transaction that is aborted twice

    The transactions 2 and 3 each take part in the regions 0 and 1. In region 0 they wait
    behind transaction 1 and turn out to be behind the storage when it is let through; in
    region 1 transaction 3 waits behind transaction 2, and it is behind the storage there as well. *)
Definition move_d : Transaction := part 11 0 (kRemaster 1 false) [make_entry "D" WRITE 0 0] [0%Z].
Definition move_c : Transaction := part 12 1 (kRemaster 0 false) [make_entry "C" WRITE 1 0] [1%Z].
Definition second_part (h : Z) : Transaction := part 2 h (kCode []) [make_entry "D" WRITE 0 0; make_entry "B" WRITE 1 1] [0%Z; 1%Z].
Definition third_part (h : Z) : Transaction := part 3 h (kCode []) [make_entry "D" READ 0 0; make_entry "C" WRITE 1 0] [0%Z; 1%Z].

Definition twice_arrivals : list rs_event :=
  RArrive (store 1 0 1 0 0 0) <$>
    [move_a; move_d; move_c; wants_a; second_part 0; second_part 1; third_part 0; third_part 1].

(** A worker reports a remaster. *)
Definition moved (st : Storage) (i : TxnId) (k : Key) (s : rscheduler OldLock.OldLockManager (gmap Z (list Transaction))) :
    result (rscheduler OldLock.OldLockManager (gmap Z (list Transaction))) :=
  match active_txns_ (sched s) !! i with
  | Some h => rs_step example_config no_events in_order s (RDone st i (SetRemasterResult k 1 h))
  | None => Ok s
  end.

Definition before_twice : result (rscheduler OldLock.OldLockManager (gmap Z (list Transaction))) :=
  s ← rfoldl (rs_step example_config no_events in_order) rs_init twice_arrivals;
  s ← moved (store 1 0 1 0 1 1) 11 "D" s;
  moved (store 1 0 0 1 1 1) 12 "C" s.

(** The scheduler with the simple remaster manager can stop the process: the report of a remaster
    can ask for the abort of two transactions of which the first abort already aborts the
    second, and the second abort then fails its check. *)
Theorem abort_triggered_twice :
  ∃ s, before_twice = Ok s ∧ moved (store 0 1 0 1 1 1) 10 "A" s = Err (Fatal "Abort was triggered twice").
Proof.
  assert (E : (s ← before_twice; moved (store 0 1 0 1 1 1) 10 "A" s) = Err (Fatal "Abort was triggered twice") ∧
    is_Some (match before_twice with Ok s => Some s | Err _ => None end)).
  { split; [vm_compute; reflexivity|]. vm_compute. by eexists. }
  destruct E as [E [s Hs]]. destruct before_twice as [s'|]; [|done]. simplify_eq. by exists s.
Qed.
End example.
