(* ===== verification/LocalLog.v ===== *)
(** * The local log

    [LocalLog] of [module/interleaver.cpp] merges the batches of the partitions of a
    region in the order that the local Paxos chose among them. *)
From S2P Require Import Prelude Types AsyncLog.

(** ** [LocalLog] *)

Record LocalLog := {
  slots_ : AsyncLog (Z * MachineId);
  batch_queues_ : gmap Z (AsyncLog BatchId);
  ready_batches_ : list (SlotId * (BatchId * MachineId))
}.

Definition empty_local_log : LocalLog :=
  {| slots_ := empty_log 0; batch_queues_ := ∅; ready_batches_ := [] |}.

(** One slot leaves the log per round, so the number of buffered slots bounds the rounds. *)
Fixpoint update_ready (fuel : nat) (l : LocalLog) : result LocalLog :=
  match fuel with
  | 0 => Ok l
  | S fuel =>
    if HasNext (slots_ l) then
      '(next_queue_id, leader) ← Peek (slots_ l);
      match batch_queues_ l !! next_queue_id with
      | None => Ok l
      | Some next_queue =>
        if HasNext next_queue then
          '(slots, (slot_id, _)) ← Next (slots_ l);
          '(next_queue, (_, b)) ← Next next_queue;
          update_ready fuel
            {| slots_ := slots; batch_queues_ := <[next_queue_id := next_queue]> (batch_queues_ l);
               ready_batches_ := ready_batches_ l ++ [(slot_id, (b, leader))] |}
        else Ok l
      end
    else Ok l
  end.

Definition UpdateReadyBatches (l : LocalLog) : result LocalLog :=
  update_ready (size (log_ (slots_ l))) l.

(** [batch_queues_[queue_id]], created when there is none. *)
Definition queue_log (l : LocalLog) (queue_id : Z) : AsyncLog BatchId :=
  default (empty_log 0) (batch_queues_ l !! queue_id).

Definition AddBatchId (l : LocalLog) (queue_id position : Z) (b : BatchId) : result LocalLog :=
  q ← Insert (queue_log l queue_id) position b;
  UpdateReadyBatches
    {| slots_ := slots_ l; batch_queues_ := <[queue_id := q]> (batch_queues_ l);
       ready_batches_ := ready_batches_ l |}.

Definition AddSlot (l : LocalLog) (slot_id : SlotId) (queue_id : Z) (leader : MachineId) :
    result LocalLog :=
  slots ← Insert (slots_ l) slot_id (queue_id, leader);
  UpdateReadyBatches
    {| slots_ := slots; batch_queues_ := batch_queues_ l; ready_batches_ := ready_batches_ l |}.

Definition HasNextBatch (l : LocalLog) : bool := bool_decide (ready_batches_ l ≠ []).

Definition NextBatch (l : LocalLog) : result (LocalLog * (SlotId * (BatchId * MachineId))) :=
  match ready_batches_ l with
  | [] => Err (Exn "NextBatch() was called when there is no batch")
  | b :: rest =>
    Ok ({| slots_ := slots_ l; batch_queues_ := batch_queues_ l; ready_batches_ := rest |}, b)
  end.

(** ** Runs of the local log *)

Inductive local_event :=
  | LBatch (queue_id position : Z) (b : BatchId)
  | LSlot (slot_id : SlotId) (queue_id : Z) (leader : MachineId)
  | LTake.

Fixpoint take_ready (fuel : nat) (l : LocalLog) :
    result (LocalLog * list (SlotId * (BatchId * MachineId))) :=
  match fuel with
  | 0 => Ok (l, [])
  | S fuel =>
    if HasNextBatch l then
      '(l, b) ← NextBatch l;
      '(l, bs) ← take_ready fuel l;
      Ok (l, b :: bs)
    else Ok (l, [])
  end.

Definition local_step (l : LocalLog) (e : local_event) :
    result (LocalLog * list (SlotId * (BatchId * MachineId))) :=
  match e with
  | LBatch q p b => l ← AddBatchId l q p b; Ok (l, [])
  | LSlot s q m => l ← AddSlot l s q m; Ok (l, [])
  | LTake => take_ready (length (ready_batches_ l)) l
  end.

Fixpoint run_local (l : LocalLog) (es : list local_event) :
    result (LocalLog * list (SlotId * (BatchId * MachineId))) :=
  match es with
  | [] => Ok (l, [])
  | e :: es =>
    '(l, xs) ← local_step l e;
    '(l, ys) ← run_local l es;
    Ok (l, xs ++ ys)
  end.

(** ** What the events tell *)

Record local_facts := {
  lf_slots : gmap Z (Z * MachineId);
  lf_queues : gmap Z (gmap Z BatchId)
}.

Definition queue_facts (F : local_facts) (q : Z) : gmap Z BatchId := default ∅ (lf_queues F !! q).

Definition local_learn (F : local_facts) (e : local_event) : local_facts :=
  match e with
  | LBatch q p b =>
    {| lf_slots := lf_slots F; lf_queues := <[q := <[p := b]> (queue_facts F q)]> (lf_queues F) |}
  | LSlot s q m => {| lf_slots := <[s := (q, m)]> (lf_slots F); lf_queues := lf_queues F |}
  | LTake => F
  end.

(** Every slot and every position of a queue is told once. *)
Definition local_fresh (F : local_facts) (e : local_event) : Prop :=
  match e with
  | LBatch q p b => queue_facts F q !! p = None ∧ (0 ≤ p < 2 ^ 32 - 1)%Z
  | LSlot s q m => lf_slots F !! s = None ∧ (0 ≤ s < 2 ^ 32 - 1)%Z
  | LTake => True
  end.

#[global] Instance local_fresh_dec F e : Decision (local_fresh F e).
Proof. destruct e; simpl; apply _. Defined.

Fixpoint local_valid (F : local_facts) (es : list local_event) : Prop :=
  match es with
  | [] => True
  | e :: es => local_fresh F e ∧ local_valid (local_learn F e) es
  end.

#[global] Instance local_valid_dec F es : Decision (local_valid F es).
Proof. revert F. induction es; intros F; simpl; apply _. Defined.

(** How many of the first [n] slots went to a queue. *)
Definition taken (F : local_facts) (n : nat) (q : Z) : nat :=
  length (filter (λ i, fst <$> lf_slots F !! Z.of_nat i = Some q) (seq 0 n)).

(** The [i]-th slot takes the next batch of its queue. *)
Definition local_stream (F : local_facts) (i : nat) : option (SlotId * (BatchId * MachineId)) :=
  '(q, leader) ← lf_slots F !! Z.of_nat i;
  b ← queue_facts F q !! Z.of_nat (taken F i q);
  Some (Z.of_nat i, (b, leader)).

Definition no_local_facts : local_facts := {| lf_slots := ∅; lf_queues := ∅ |}.

(** ** The invariant *)

Record local_inv (l : LocalLog) (F : local_facts) (outs : list (SlotId * (BatchId * MachineId))) : Prop := {
  li_slots : async_ok (slots_ l) (lf_slots F) (length outs);
  li_queues q : async_ok (queue_log l q) (queue_facts F q) (taken F (length outs) q);
  li_prefix : is_prefix (local_stream F) outs
}.

Lemma taken_S F n q :
  taken F (S n) q = taken F n q + (if decide (fst <$> lf_slots F !! Z.of_nat n = Some q) then 1 else 0).
Proof.
  unfold taken. rewrite seq_S, filter_app, length_app. simpl. f_equal. rewrite filter_cons.
  by case_decide.
Qed.

Lemma queue_log_insert l q lq q' s r :
  queue_log {| slots_ := s; batch_queues_ := <[q := lq]> (batch_queues_ l); ready_batches_ := r |} q' =
  if decide (q = q') then lq else queue_log l q'.
Proof. unfold queue_log. simpl. rewrite lookup_insert. by case_decide. Qed.

(** One round of the loop. *)
Lemma local_round l F outs q leader b :
  local_inv l F outs → lf_slots F !! Z.of_nat (length outs) = Some (q, leader) →
  queue_facts F q !! Z.of_nat (taken F (length outs) q) = Some b →
  ∃ slots lq, Next (slots_ l) = Ok (slots, (Z.of_nat (length outs), (q, leader))) ∧
    Next (queue_log l q) = Ok (lq, (Z.of_nat (taken F (length outs) q), b)) ∧
    log_ slots = delete (next_ (slots_ l)) (log_ (slots_ l)) ∧
    ∀ r, local_inv {| slots_ := slots; batch_queues_ := <[q := lq]> (batch_queues_ l); ready_batches_ := r |} F
           (outs ++ [(Z.of_nat (length outs), (b, leader))]).
Proof.
  intros [Hs Hq Hp] Hsl Hb. destruct (async_ok_next _ _ _ _ Hs Hsl) as (slots & Hns & Hs').
  destruct (async_ok_next _ _ _ _ (Hq q) Hb) as (lq & Hnq & Hq').
  exists slots, lq. split; [done|]. split; [done|]. split.
  { unfold Next in Hns. destruct (log_ (slots_ l) !! next_ (slots_ l)); by simplify_eq/=. }
  intros r. split.
  - rewrite length_app, Nat.add_1_r. done.
  - intros q'. rewrite queue_log_insert, length_app, Nat.add_1_r, taken_S, Hsl. simpl.
    case_decide as Hd.
    + subst q'. rewrite decide_True, Nat.add_1_r by done. done.
    + rewrite decide_False, Nat.add_0_r by congruence. apply Hq.
  - apply is_prefix_snoc; [done|]. unfold local_stream. rewrite Hsl. simpl. by rewrite Hb.
Qed.

Lemma local_update_ok fuel l F outs :
  local_inv l F (outs ++ ready_batches_ l) → size (log_ (slots_ l)) ≤ fuel →
  ∃ l', update_ready fuel l = Ok l' ∧ local_inv l' F (outs ++ ready_batches_ l') ∧
    local_stream F (length (outs ++ ready_batches_ l')) = None.
Proof.
  revert l. induction fuel as [|fuel IH]; intros l Hinv Hsz; cbn [update_ready].
  - exists l. split_and!; [done|done|]. unfold local_stream.
    rewrite <-(async_ok_peek _ _ _ (li_slots _ _ _ Hinv)).
    assert (log_ (slots_ l) = ∅) as -> by (apply map_size_empty_inv; lia). by rewrite lookup_empty.
  - pose proof (li_slots _ _ _ Hinv) as Hs. set (n := length (outs ++ ready_batches_ l)) in *.
    rewrite (async_ok_has_next _ _ _ Hs). case_bool_decide as Hx.
    2: { exists l. split_and!; [done|done|]. unfold local_stream. fold n.
         by destruct (lf_slots F !! Z.of_nat n); [destruct Hx; eauto|]. }
    destruct Hx as [[q leader] Hsl]. unfold Peek. rewrite (async_ok_peek _ _ _ Hs), Hsl.
    cbn [mbind result_bind]. pose proof (li_queues _ _ _ Hinv q) as Hq. fold n in Hq.
    destruct (queue_facts F q !! Z.of_nat (taken F n q)) as [b|] eqn:Hb.
    + assert (Hlq : batch_queues_ l !! q = Some (queue_log l q)).
      { unfold queue_log. destruct (batch_queues_ l !! q) as [lq|] eqn:E; [done|].
        pose proof (async_ok_peek _ _ _ Hq) as Hpk. unfold queue_log in Hpk. rewrite E in Hpk. simpl in Hpk.
        by rewrite lookup_empty, Hb in Hpk. }
      rewrite Hlq, (async_ok_has_next _ _ _ Hq), Hb, bool_decide_eq_true_2 by eauto.
      destruct (local_round l F _ q leader b Hinv Hsl Hb) as (slots & lq & -> & -> & Hdel & Hinv').
      cbn [mbind result_bind]. apply IH; [|].
      * cbn [ready_batches_]. rewrite app_assoc. apply Hinv'.
      * cbn [slots_]. rewrite Hdel, map_size_delete_Some; [lia|].
        rewrite (async_ok_peek _ _ _ Hs), Hsl. eauto.
    + assert (Hnone : local_stream F n = None) by (unfold local_stream; rewrite Hsl; simpl; by rewrite Hb).
      destruct (batch_queues_ l !! q) as [lq|] eqn:E; [|by exists l].
      assert (lq = queue_log l q) as -> by (unfold queue_log; by rewrite E).
      rewrite (async_ok_has_next _ _ _ Hq), Hb, bool_decide_eq_false_2 by (by intros [? ?]). by exists l.
Qed.

(** Learning a fact does not change what was delivered. *)
Lemma taken_learn_slot F n s q m q' :
  lf_slots F !! s = None → (∀ i, i < n → is_Some (lf_slots F !! Z.of_nat i)) →
  taken (local_learn F (LSlot s q m)) n q' = taken F n q'.
Proof.
  intros Hs Hk. unfold taken. f_equal. apply filter_ext_in. intros i Hi%elem_of_seq. simpl.
  rewrite lookup_insert_ne; [done|]. intros ->. destruct (Hk i) as [x Hx]; [lia|]. congruence.
Qed.

Lemma queue_facts_learn F q p b q' :
  queue_facts (local_learn F (LBatch q p b)) q' =
  if decide (q = q') then <[p := b]> (queue_facts F q) else queue_facts F q'.
Proof. unfold queue_facts at 1. simpl. rewrite lookup_insert. by case_decide. Qed.

Lemma local_inv_slot l F outs s q m slots :
  local_inv l F outs → lf_slots F !! s = None →
  async_ok slots (<[s := (q, m)]> (lf_slots F)) (length outs) →
  local_inv {| slots_ := slots; batch_queues_ := batch_queues_ l; ready_batches_ := ready_batches_ l |}
    (local_learn F (LSlot s q m)) outs.
Proof.
  intros [Hs Hq Hp] Hnone Hs'.
  assert (Hk : ∀ i, i < length outs → is_Some (lf_slots F !! Z.of_nat i)) by apply Hs.
  split; [done| |].
  - intros q'. rewrite taken_learn_slot by done. apply Hq.
  - intros i x Hi. pose proof (Hp i x Hi) as Hx. pose proof (lookup_lt_Some _ _ _ Hi) as Hlt.
    revert Hx. unfold local_stream. simpl lf_slots. rewrite lookup_insert_ne.
    2: { intros ->. destruct (Hk i Hlt) as [y Hy]. congruence. }
    destruct (lf_slots F !! Z.of_nat i) as [[q' m']|]; [|done]. cbn [mbind option_bind].
    rewrite taken_learn_slot; [done|done|]. intros j Hj. apply Hk. lia.
Qed.

Lemma local_inv_batch l F outs q p b lq :
  local_inv l F outs → queue_facts F q !! p = None →
  async_ok lq (<[p := b]> (queue_facts F q)) (taken F (length outs) q) →
  local_inv {| slots_ := slots_ l; batch_queues_ := <[q := lq]> (batch_queues_ l); ready_batches_ := ready_batches_ l |}
    (local_learn F (LBatch q p b)) outs.
Proof.
  intros [Hs Hq Hp] Hnone Hlq. split; [done| |].
  - intros q'. rewrite queue_log_insert, queue_facts_learn.
    change (taken (local_learn F (LBatch q p b)) (length outs) q') with (taken F (length outs) q').
    case_decide; [by subst|apply Hq].
  - eapply is_prefix_mono; [|exact Hp]. intros i x. unfold local_stream.
    change (lf_slots (local_learn F (LBatch q p b))) with (lf_slots F).
    destruct (lf_slots F !! Z.of_nat i) as [[q' m']|]; [|done]. cbn [mbind option_bind].
    rewrite queue_facts_learn. change (taken (local_learn F (LBatch q p b)) i q') with (taken F i q').
    case_decide; [subst q'|done]. rewrite lookup_insert. case_decide as Hd; [|done].
    by rewrite <-Hd, Hnone.
Qed.

Lemma take_ready_ok fuel l :
  length (ready_batches_ l) ≤ fuel →
  take_ready fuel l =
  Ok ({| slots_ := slots_ l; batch_queues_ := batch_queues_ l; ready_batches_ := [] |}, ready_batches_ l).
Proof.
  revert l. induction fuel as [|fuel IH]; intros [s q r] Hlen; simpl in *.
  - by destruct r; [|simpl in Hlen; lia].
  - unfold HasNextBatch, NextBatch. simpl. destruct r as [|x r]; [done|]. simpl in *.
    rewrite IH by (simpl; lia). done.
Qed.

(** What is known of a log between events. *)
Definition local_ok (l : LocalLog) (F : local_facts) (outs : list (SlotId * (BatchId * MachineId))) : Prop :=
  local_inv l F (outs ++ ready_batches_ l) ∧ local_stream F (length (outs ++ ready_batches_ l)) = None.

Lemma local_step_ok l F outs e :
  local_ok l F outs → local_fresh F e →
  ∃ l' xs, local_step l e = Ok (l', xs) ∧ local_ok l' (local_learn F e) (outs ++ xs) ∧
    (e = LTake → ready_batches_ l' = []).
Proof.
  intros [Hinv Hnone] Hf. destruct e as [q p b|s q m|]; cbn [local_step local_fresh] in *.
  - destruct Hf as [Hfr Hb]. unfold AddBatchId.
    destruct (async_ok_insert _ _ _ p b (li_queues _ _ _ Hinv q) Hfr Hb) as (lq & -> & Hlq).
    cbn [mbind result_bind]. unfold UpdateReadyBatches.
    destruct (local_update_ok (size (log_ (slots_ l)))
      {| slots_ := slots_ l; batch_queues_ := <[q := lq]> (batch_queues_ l); ready_batches_ := ready_batches_ l |}
      (local_learn F (LBatch q p b)) outs) as (l' & Hu & Hinv' & Hn'); [by apply local_inv_batch|done|].
    cbn [slots_] in *. rewrite Hu. cbn [mbind result_bind]. exists l', []. rewrite app_nil_r. by split.
  - destruct Hf as [Hfr Hb]. unfold AddSlot.
    destruct (async_ok_insert _ _ _ s (q, m) (li_slots _ _ _ Hinv) Hfr Hb) as (slots & -> & Hs).
    cbn [mbind result_bind]. unfold UpdateReadyBatches.
    destruct (local_update_ok (size (log_ slots))
      {| slots_ := slots; batch_queues_ := batch_queues_ l; ready_batches_ := ready_batches_ l |}
      (local_learn F (LSlot s q m)) outs) as (l' & Hu & Hinv' & Hn'); [by apply local_inv_slot|done|].
    cbn [slots_] in *. rewrite Hu. cbn [mbind result_bind]. exists l', []. rewrite app_nil_r. by split.
  - rewrite take_ready_ok by done. eexists _, _. split; [done|]. split; [|done].
    unfold local_ok. simpl. rewrite app_nil_r. split; [|done]. by destruct Hinv; split.
Qed.

Lemma run_local_ok es l F outs :
  local_ok l F outs → local_valid F es →
  ∃ l' xs, run_local l es = Ok (l', xs) ∧ local_ok l' (foldl local_learn F es) (outs ++ xs).
Proof.
  revert l F outs. induction es as [|e es IH]; intros l F outs Hok Hv; cbn [run_local].
  { exists l, []. by rewrite app_nil_r. }
  destruct Hv as [Hf Hv]. destruct (local_step_ok l F outs e Hok Hf) as (l1 & xs & -> & Hok1 & _).
  cbn [mbind result_bind]. destruct (IH l1 _ _ Hok1 Hv) as (l2 & ys & -> & Hok2).
  cbn [mbind result_bind]. eexists _, _. split; [done|]. by rewrite app_assoc.
Qed.

Lemma run_local_app l es1 es2 :
  run_local l (es1 ++ es2) =
  ('(l, xs) ← run_local l es1; '(l, ys) ← run_local l es2; Ok (l, xs ++ ys)).
Proof.
  revert l. induction es1 as [|e es1 IH]; intros l; simpl.
  { by destruct (run_local l es2) as [[]|]. }
  destruct (local_step l e) as [[l1 xs]|]; simpl; [|done]. rewrite IH.
  destruct (run_local l1 es1) as [[l2 ys]|]; simpl; [|done].
  destruct (run_local l2 es2) as [[l3 zs]|]; simpl; [|done]. by rewrite app_assoc.
Qed.

Lemma local_log_delivers (es : list local_event) :
  local_valid no_local_facts es →
  ∃ l outs, run_local empty_local_log (es ++ [LTake]) = Ok (l, outs) ∧
    longest_prefix (local_stream (foldl local_learn no_local_facts es)) outs.
Proof.
  intros Hv. assert (H0 : local_ok empty_local_log no_local_facts []).
  { split; [|done]. split; [apply async_ok_empty| |apply is_prefix_nil]. intros q. apply async_ok_empty. }
  destruct (run_local_ok es _ _ _ H0 Hv) as (l & xs & Hr & Hok). rewrite app_nil_l in Hok.
  destruct (local_step_ok l _ _ LTake Hok) as (l' & ys & Hs & [Hinv Hn] & Hnil); [done|].
  specialize (Hnil eq_refl). rewrite Hnil, app_nil_r in *.
  exists l', (xs ++ ys). rewrite run_local_app, Hr. cbn [mbind result_bind run_local]. rewrite Hs.
  cbn [mbind result_bind]. rewrite app_nil_r. split; [done|]. split; [apply Hinv|done].
Qed.

(** The local log of a region delivers the batches in the order its Paxos process
    chose: however the slots, which name a partition each, and the batches of the
    partitions arrive, and whenever the log is read, the batches read so far are the
    longest run of slots from 0 such that each slot has the next batch of its partition.
    So two machines that learn the same slots and batches deliver the same batches, with
    the same slots, in the same order. *)
Theorem local_log_in_order (es : list local_event) :
  local_valid no_local_facts es →
  ∃ l outs, run_local empty_local_log (es ++ [LTake]) = Ok (l, outs) ∧
    longest_prefix (local_stream (foldl local_learn no_local_facts es)) outs.
Proof. apply local_log_delivers. Qed.

Definition example_local : list local_event :=
  [LSlot 1 0 7; LBatch 1 0 201; LTake; LSlot 0 1 7; LBatch 0 0 101; LTake; LSlot 2 1 7; LBatch 1 1 202]%Z.

Lemma local_log_in_order_witness :
  ∃ l outs, run_local empty_local_log (example_local ++ [LTake]) = Ok (l, outs) ∧
    outs = [(0, (201, 7)); (1, (101, 7)); (2, (202, 7))]%Z.
Proof.
  destruct (local_log_in_order example_local) as (l & outs & Hr & Hlp).
  - apply (bool_decide_eq_true_1 _). vm_compute. reflexivity.
  - exists l, outs. split; [exact Hr|]. eapply longest_prefix_unique; [exact Hlp|].
    split; [|by vm_compute]. clear Hr Hlp.
    intros [|[|[|i]]] b Hb; simpl in Hb; try discriminate Hb; injection Hb as <-; vm_compute; reflexivity.
Defined.
