(* ===== verification/Interleaver.v ===== *)
(** * The interleaver

    [Interleaver] of [module/interleaver.cpp] feeds the local log of its region and one
    batch log per region with the data, orders and acknowledgements that arrive, passes
    them on to the machines that need them, and sends the transactions of the ready
    batches to the scheduler. Its messages are collected in order; one to the scheduler
    is annotated with the log it came from. *)
From S2P Require Import Prelude Types AsyncLog Config ProtoUtils.
From S2P Require LocalLog BatchLog.

Record RemoteBatchOrder := {
  rbo_batch_id : BatchId;
  rbo_slot : SlotId;
  rbo_home : Z;
  rbo_need_ack : bool
}.

Inductive inter_request :=
  | BatchReplicationAck (from : MachineId) (b : BatchId)
  | ForwardBatchData (from : MachineId) (home : Z) (home_position : Z) (batch_data : list Batch)
  | LocalBatchOrder (slot : SlotId) (queue_id : Z) (leader : MachineId)
  | ForwardRemoteOrder (from : MachineId) (o : RemoteBatchOrder).

Inductive inter_msg :=
  | PassAck (destinations : list MachineId) (b : BatchId)
  | PassData (destination : MachineId) (home : Z) (home_position : Z) (batch : Batch)
  | PassOrder (destinations : list MachineId) (o : RemoteBatchOrder)
  | AckBack (destination : MachineId) (b : BatchId)
  | ToScheduler (log : Z) (t : Transaction).

Record interleaver := {
  single_home_logs_ : gmap Z BatchLog.BatchLog;
  local_log_ : LocalLog.LocalLog;
  i_out : list inter_msg
}.

Definition inter_init : interleaver :=
  {| single_home_logs_ := ∅; local_log_ := LocalLog.empty_local_log; i_out := [] |}.

Section interleaver.
  Context (c : Configuration).
  Context (recorded : TransactionEvent → list TransactionEventInfo).
  (** the order in which [AdvanceLogs] meets the logs of an [unordered_map] *)
  Context (visit : gmap Z BatchLog.BatchLog → list Z).

Definition other_partitions : list MachineId :=
  MakeMachineId c (local_replica c) <$>
    filter (λ p, p ≠ local_partition c) (seqZ 0 (num_partitions c)).

(** [need_ack_from_replica_]: the first replicas of the replication order. *)
Definition ack_replicas : list Z :=
  take (Nat.min (length (replication_order_ c)) (Z.to_nat (u64 (replication_factor c - 1))))
    (replication_order_ c).

Definition need_ack_from_replica (r : Z) : bool := bool_decide (r ∈ ack_replicas).

Definition emit (ms : list inter_msg) (s : interleaver) : interleaver :=
  {| single_home_logs_ := single_home_logs_ s; local_log_ := local_log_ s; i_out := i_out s ++ ms |}.

Definition set_local_log (l : LocalLog.LocalLog) (s : interleaver) : interleaver :=
  {| single_home_logs_ := single_home_logs_ s; local_log_ := l; i_out := i_out s |}.

(** [single_home_logs_[home]] is created when there is none. *)
Definition home_log (s : interleaver) (h : Z) : BatchLog.BatchLog :=
  default BatchLog.empty_batch_log (single_home_logs_ s !! h).

Definition on_home_log (h : Z) (f : BatchLog.BatchLog → result BatchLog.BatchLog) (s : interleaver) :
    result interleaver :=
  l ← f (home_log s h);
  Ok {| single_home_logs_ := <[h := l]> (single_home_logs_ s); local_log_ := local_log_ s; i_out := i_out s |}.

Definition record_batch (ev : TransactionEvent) (b : Batch) : Batch :=
  {| batch_id := batch_id b; transactions := transactions b; transaction_type := transaction_type b;
     batch_events := batch_events b ++ recorded ev |}.

Definition record_txn (ev : TransactionEvent) (t : Transaction) : Transaction :=
  set_internal (λ i, set_events (events i ++ recorded ev) i) t.

Definition ProcessBatchReplicationAck (from : MachineId) (b : BatchId) (s : interleaver) :
    result interleaver :=
  let s := if decide ((UnpackMachineId c from).1 ≠ local_replica c)
           then emit [PassAck other_partitions b] s else s in
  on_home_log (local_replica c) (λ l, BatchLog.AckReplication l b) s.

(** The partitions of a remote batch, taken from the last to the first: the local one is
    kept and each other one is sent to its machine. [p] is the number of the last. *)
Fixpoint distribute (home home_position : Z) (p : Z) (rev_data : list Batch) (mine : option Batch) :
    option Batch * list inter_msg :=
  match rev_data with
  | [] => (mine, [])
  | b :: rest =>
    if decide (p = local_partition c) then distribute home home_position (u32 (p - 1)) rest (Some b)
    else
      let '(mine, ms) := distribute home home_position (u32 (p - 1)) rest mine in
      (mine, PassData (MakeMachineId c (local_replica c) p) home home_position b :: ms)
  end.

Definition ProcessForwardBatchData (from : MachineId) (home home_position : Z) (data : list Batch)
    (s : interleaver) : result interleaver :=
  let '(from_replica, from_partition) := UnpackMachineId c from in
  '(mine, ms) ←
    (if decide (from_replica = local_replica c) then Ok (last data, [])
     else if decide (Z.of_nat (length data) = num_partitions c) then
       Ok (distribute home home_position (u32 (num_partitions c - 1)) (reverse data) None)
     else Err (Fatal "Check failed: batch_data_size() == num_partitions()"));
  match mine with
  | None => Err (Undef "my_batch->id()")
  | Some b =>
    let b := record_batch ENTER_INTERLEAVER_IN_BATCH b in
    let s := emit ms s in
    s ← (if decide (home = local_replica c) then
           l ← LocalLog.AddBatchId (local_log_ s) from_partition (u32 home_position) (batch_id b);
           Ok (set_local_log l s)
         else Ok s);
    on_home_log home (λ l, BatchLog.AddBatch l b) s
  end.

Definition ProcessLocalOrder (slot : SlotId) (queue_id : Z) (leader : MachineId) (s : interleaver) :
    result interleaver :=
  l ← LocalLog.AddSlot (local_log_ s) slot queue_id leader;
  Ok (set_local_log l s).

Definition ProcessRemoteOrder (from : MachineId) (o : RemoteBatchOrder) (s : interleaver) :
    result interleaver :=
  let s :=
    if decide ((UnpackMachineId c from).1 ≠ local_replica c) then
      emit (PassOrder other_partitions o ::
            (if rbo_need_ack o then [AckBack from (rbo_batch_id o)] else [])) s
    else s in
  on_home_log (rbo_home o) (λ l, BatchLog.AddSlot l (rbo_slot o) (rbo_batch_id o) 0) s.

(** ** [AdvanceLogs] *)

(** The machines that get the order of a local batch from its leader. *)
Definition order_destinations (ack : bool) : list MachineId :=
  (λ rep, MakeMachineId c rep
     ((u32 (rep + num_replicas c - local_replica c) `mod` num_replicas c) `mod` num_partitions c)%Z) <$>
  filter (λ rep, rep ≠ local_replica c ∧ need_ack_from_replica rep = ack) (seqZ 0 (num_replicas c)).

Definition advance_local (s : interleaver) (x : SlotId * (BatchId * MachineId)) : result interleaver :=
  let '(slot_id, (b, leader)) := x in
  let order ack := {| rbo_batch_id := b; rbo_slot := slot_id; rbo_home := local_replica c; rbo_need_ack := ack |} in
  let s :=
    if decide (local_machine_id c = leader) then
      emit [PassOrder (order_destinations false) (order false); PassOrder (order_destinations true) (order true)] s
    else s in
  on_home_log (local_replica c) (λ l, BatchLog.AddSlot l slot_id b (replication_factor c - 1)) s.

Definition EmitBatch (h : Z) (b : Batch) : list inter_msg :=
  (λ t, ToScheduler h (record_txn EXIT_INTERLEAVER t)) <$> Unbatch b.

Definition advance_home (s : interleaver) (h : Z) : result interleaver :=
  '(l, bs) ← BatchLog.take_batches (length (BatchLog.ready_batches_ (home_log s h))) (home_log s h);
  let s := {| single_home_logs_ := <[h := l]> (single_home_logs_ s); local_log_ := local_log_ s; i_out := i_out s |} in
  Ok (emit (bs ≫= λ sb, EmitBatch h sb.2) s).

(** The local log hands out all of its ready batches, then each batch log does. *)
Definition AdvanceLogs (s : interleaver) : result interleaver :=
  '(l, xs) ← LocalLog.take_ready (length (LocalLog.ready_batches_ (local_log_ s))) (local_log_ s);
  s ← rfoldl advance_local (set_local_log l s) xs;
  rfoldl advance_home s (visit (single_home_logs_ s)).

Definition process (r : inter_request) (s : interleaver) : result interleaver :=
  match r with
  | BatchReplicationAck from b => ProcessBatchReplicationAck from b s
  | ForwardBatchData from home pos data => ProcessForwardBatchData from home pos data s
  | LocalBatchOrder slot queue_id leader => ProcessLocalOrder slot queue_id leader s
  | ForwardRemoteOrder from o => ProcessRemoteOrder from o s
  end.

(** [OnInternalRequestReceived] *)
Definition OnRequest (s : interleaver) (r : inter_request) : result interleaver :=
  s ← process r s; AdvanceLogs s.
(** ** The events each log gets *)

Definition data_batch (from : MachineId) (home home_position : Z) (data : list Batch) : option Batch :=
  if decide ((UnpackMachineId c from).1 = local_replica c) then last data
  else data !! Z.to_nat (local_partition c).

(** The event of the local log in a request. *)
Definition local_of (r : inter_request) : list LocalLog.local_event :=
  match r with
  | ForwardBatchData from home pos data =>
    match data_batch from home pos data with
    | Some b => if decide (home = local_replica c)
                then [LocalLog.LBatch (UnpackMachineId c from).2 (u32 pos) (batch_id b)] else []
    | None => []
    end
  | LocalBatchOrder slot q leader => [LocalLog.LSlot slot q leader]
  | _ => []
  end.

(** The event of the batch log of a region in a request. *)
Definition home_of (r : inter_request) (h : Z) : list BatchLog.batch_event :=
  match r with
  | BatchReplicationAck _ b => if decide (h = local_replica c) then [BatchLog.BAck b] else []
  | ForwardBatchData from home pos data =>
    match data_batch from home pos data with
    | Some b => if decide (h = home) then [BatchLog.BAdd (record_batch ENTER_INTERLEAVER_IN_BATCH b)] else []
    | None => []
    end
  | ForwardRemoteOrder _ o =>
    if decide (h = rbo_home o) then [BatchLog.BSlot (rbo_slot o) (rbo_batch_id o) 0] else []
  | LocalBatchOrder _ _ _ => []
  end.

(** What the local log delivers becomes slots of the region's own batch log. *)
Definition slot_event (x : SlotId * (BatchId * MachineId)) : BatchLog.batch_event :=
  BatchLog.BSlot x.1 x.2.1 (replication_factor c - 1).

Definition slot_events (xs : list (SlotId * (BatchId * MachineId))) (h : Z) : list BatchLog.batch_event :=
  if decide (h = local_replica c) then slot_event <$> xs else [].

Fixpoint home_events (l : LocalLog.LocalLog) (rs : list inter_request) (h : Z) :
    list BatchLog.batch_event :=
  match rs with
  | [] => []
  | r :: rs =>
    match LocalLog.run_local l (local_of r ++ [LocalLog.LTake]) with
    | Ok (l, xs) => home_of r h ++ slot_events xs h ++ home_events l rs h
    | Err _ => []
    end
  end.

(** A batch from a remote region comes with all of its partitions. *)
Definition request_ok (r : inter_request) : Prop :=
  match r with
  | ForwardBatchData from home pos data =>
    if decide ((UnpackMachineId c from).1 = local_replica c) then data ≠ []
    else Z.of_nat (length data) = num_partitions c
  | _ => True
  end.

(** The transactions sent to the scheduler from the log of a region. *)
Definition scheduled_of (h : Z) (m : inter_msg) : list Transaction :=
  match m with ToScheduler h' t => if decide (h = h') then [t] else [] | _ => [] end.

Definition scheduled (h : Z) (ms : list inter_msg) : list Transaction := ms ≫= scheduled_of h.

Definition batch_txns (sb : SlotId * Batch) : list Transaction :=
  record_txn EXIT_INTERLEAVER <$> Unbatch sb.2.

(** ** The invariant *)

Record inter_inv (s : interleaver) (F : Z → BatchLog.facts) (outs : Z → list (SlotId * Batch)) : Prop := {
  ii_inv h : BatchLog.batch_inv (home_log s h) (F h) (outs h);
  ii_settled h : BatchLog.settled (home_log s h) (F h) (outs h);
  ii_out h : scheduled h (i_out s) = outs h ≫= batch_txns
}.

Definition learn_at (h : Z) (e : BatchLog.batch_event) (F : Z → BatchLog.facts) : Z → BatchLog.facts :=
  λ h', if decide (h = h') then BatchLog.learn (F h') e else F h'.

Lemma scheduled_app h ms1 ms2 : scheduled h (ms1 ++ ms2) = scheduled h ms1 ++ scheduled h ms2.
Proof. apply bind_app. Qed.

Lemma inter_inv_emit s F outs ms :
  (∀ h, scheduled h ms = []) → inter_inv s F outs → inter_inv (emit ms s) F outs.
Proof.
  intros Hms [Hi Hs Ho]. split; [done|done|]. intros h. simpl. by rewrite scheduled_app, Hms, app_nil_r.
Qed.

Lemma home_log_insert h l s ll o h' :
  home_log {| single_home_logs_ := <[h := l]> (single_home_logs_ s); local_log_ := ll; i_out := o |} h' =
  if decide (h = h') then l else home_log s h'.
Proof. unfold home_log. simpl. rewrite lookup_insert. by case_decide. Qed.

(** An operation on one batch log that is a step of it. *)
Lemma on_home_log_ok s F outs h e f :
  inter_inv s F outs → BatchLog.fresh (F h) e →
  (∀ l, BatchLog.batch_step l e = (l ← f l; Ok (l, []))) →
  ∃ s', on_home_log h f s = Ok s' ∧ inter_inv s' (learn_at h e F) outs ∧ local_log_ s' = local_log_ s.
Proof.
  intros [Hi Hs Ho] Hf Hstep.
  destruct (BatchLog.batch_step_ok _ _ _ e (Hi h) (Hs h) Hf) as (l & xs & Hr & Hi' & Hs' & _).
  rewrite Hstep in Hr. unfold on_home_log. destruct (f (home_log s h)) as [l'|]; cbn [mbind result_bind] in *; [|done].
  simplify_eq. rewrite app_nil_r in *. eexists. split; [done|]. split; [|done]. unfold learn_at.
  split; intros h'; rewrite ?home_log_insert; [| |apply Ho]; case_decide; subst; auto.
Qed.
(** The configuration is one the constructor accepts. *)
Definition conf_ok : Prop :=
  (0 ≤ local_partition c < num_partitions c)%Z ∧ (num_partitions c < 2 ^ 32)%Z.

Lemma distribute_spec home pos p rd mine :
  conf_ok → (rd ≠ [] → p = Z.of_nat (length rd) - 1)%Z → (Z.of_nat (length rd) < 2 ^ 32)%Z →
  (distribute home pos p rd mine).1 =
    match reverse rd !! Z.to_nat (local_partition c) with Some b => Some b | None => mine end ∧
  ∀ h, scheduled h (distribute home pos p rd mine).2 = [].
Proof.
  intros [Hlp Hnp]. revert p mine. induction rd as [|b rest IH]; intros p mine Hp Hlen; [done|].
  specialize (Hp ltac:(done)). cbn [length distribute] in *. rewrite reverse_cons.
  assert (Hp' : (rest ≠ [] → u32 (p - 1) = Z.of_nat (length rest) - 1)%Z).
  { intros Hne. destruct rest; [done|]. cbn [length] in *. unfold u32, wrapu. rewrite Z.mod_small; lia. }
  case_decide as Hd.
  - destruct (IH (u32 (p - 1)) (Some b) Hp') as [-> Hs]; [lia|]. split; [|done].
    rewrite lookup_ge_None_2 by (rewrite length_reverse; lia).
    rewrite lookup_app_r by (rewrite length_reverse; lia). rewrite length_reverse.
    by replace (Z.to_nat (local_partition c) - length rest) with 0 by lia.
  - specialize (IH (u32 (p - 1)) mine Hp' ltac:(lia)).
    destruct (distribute home pos (u32 (p - 1)) rest mine) as [m ms]. simpl in *. destruct IH as [-> Hs].
    split; [|done]. destruct (decide (Z.to_nat (local_partition c) < length rest)).
    + by rewrite lookup_app_l by (by rewrite length_reverse).
    + rewrite (lookup_ge_None_2 (reverse rest)) by (rewrite length_reverse; lia).
      rewrite lookup_app_r, length_reverse by (rewrite length_reverse; lia).
      by rewrite (lookup_ge_None_2 [b]) by (simpl; lia).
Qed.

(** The parts of a step on the logs' facts. *)
Definition learn_all (es : Z → list BatchLog.batch_event) (F : Z → BatchLog.facts) : Z → BatchLog.facts :=
  λ h, foldl BatchLog.learn (F h) (es h).

Lemma inter_inv_ext s F F' outs : (∀ h, F h = F' h) → inter_inv s F outs → inter_inv s F' outs.
Proof. intros HF [Hi Hs Ho]. split; intros h; rewrite <-?HF; auto. Qed.

(** What [process] does: one step of the local log and one of a batch log. *)
Definition process_ok (r : inter_request) (s s' : interleaver) (F : Z → BatchLog.facts)
    (outs : Z → list (SlotId * Batch)) : Prop :=
  inter_inv s' (learn_all (home_of r) F) outs ∧
  LocalLog.run_local (local_log_ s) (local_of r) = Ok (local_log_ s', []).

Lemma process_data_ok from home pos data s F outs LF louts :
  conf_ok → inter_inv s F outs → LocalLog.local_ok (local_log_ s) LF louts →
  let r := ForwardBatchData from home pos data in
  request_ok r → (∀ h, BatchLog.fresh_events (F h) (home_of r h)) → LocalLog.local_valid LF (local_of r) →
  ∃ s', process r s = Ok s' ∧ process_ok r s s' F outs.
Proof.
  intros Hc Hinv Hl r Hok Hf Hlv. unfold process, r, ProcessForwardBatchData, process_ok, request_ok in *.
  set (db := data_batch from home pos data).
  assert (∃ b ms, db = Some b ∧ (∀ h, scheduled h ms = []) ∧
    (if decide ((UnpackMachineId c from).1 = local_replica c) then Ok (last data, [])
     else if decide (Z.of_nat (length data) = num_partitions c)
     then Ok (distribute home pos (u32 (num_partitions c - 1)) (reverse data) None)
     else Err (Fatal "Check failed: batch_data_size() == num_partitions()")) = Ok (Some b, ms)) as (b & ms & Hdb & Hms & He).
  { unfold db, data_batch. case_decide as Hfr.
    - destruct (last data) as [b|] eqn:Hlast; [by exists b, []|]. by apply last_None in Hlast.
    - rewrite decide_True by done. pose proof Hc as [Hlp Hnp].
      destruct (distribute_spec home pos (u32 (num_partitions c - 1)) (reverse data) None Hc) as [H1 H2].
      { intros _. rewrite length_reverse. unfold u32, wrapu. rewrite Z.mod_small; lia. }
      { rewrite length_reverse. lia. }
      rewrite reverse_involutive in H1.
      destruct (lookup_lt_is_Some_2 data (Z.to_nat (local_partition c))) as [b Hb]; [lia|].
      rewrite Hb in H1 |- *. exists b, (distribute home pos (u32 (num_partitions c - 1)) (reverse data) None).2.
      split; [done|]. split; [done|]. clear -H1. destruct (distribute _ _ _ _ _) as [m ms]. simpl in *. by subst. }
  destruct (UnpackMachineId c from) as [fr fp] eqn:Hun. simpl in He. rewrite He. cbn [mbind result_bind].
  set (b' := record_batch ENTER_INTERLEAVER_IN_BATCH b).
  assert (Hho : ∀ h, home_of r h = if decide (h = home) then [BatchLog.BAdd b'] else []).
  { intros h. unfold r, home_of. fold db. by rewrite Hdb. }
  assert (Hlo : local_of r = if decide (home = local_replica c) then [LocalLog.LBatch fp (u32 pos) (batch_id b)] else []).
  { unfold r, local_of. fold db. by rewrite Hdb, Hun. }
  fold r. fold r in Hlv. rewrite Hlo in Hlv |- *.
  assert (∃ ll, LocalLog.run_local (local_log_ s) (if decide (home = local_replica c)
      then [LocalLog.LBatch fp (u32 pos) (batch_id b)] else []) = Ok (ll, []) ∧
    (if decide (home = local_replica c) then
       l ← LocalLog.AddBatchId (local_log_ (emit ms s)) fp (u32 pos) (batch_id b'); Ok (set_local_log l (emit ms s))
     else Ok (emit ms s)) = Ok (set_local_log ll (emit ms s))) as (ll & Hrl & ->).
  { destruct (decide (home = local_replica c)); [|by exists (local_log_ s)]. destruct Hlv as [Hlf _].
    destruct (LocalLog.local_step_ok _ _ _ _ Hl Hlf) as (ll & xs & Hst & _). cbn [LocalLog.local_step] in Hst.
    change (local_log_ (emit ms s)) with (local_log_ s). change (batch_id b') with (batch_id b).
    cbn [LocalLog.run_local LocalLog.local_step].
    destruct (LocalLog.AddBatchId _ _ _ _) as [ll'|]; cbn [mbind result_bind] in *; [|done]. simplify_eq. by exists ll. }
  cbn [mbind result_bind].
  destruct (on_home_log_ok (set_local_log ll (emit ms s)) F outs home (BatchLog.BAdd b') (λ l, BatchLog.AddBatch l b'))
    as (s' & -> & Hinv' & Hl').
  - apply (inter_inv_emit _ _ _ ms) in Hinv; [|done]. by destruct Hinv; split.
  - specialize (Hf home). fold r in Hf. rewrite Hho, decide_True in Hf by done. apply Hf.
  - done.
  - exists s'. split; [done|]. rewrite Hl', Hrl. split; [|done]. eapply inter_inv_ext; [|exact Hinv'].
    intros h. unfold learn_at, learn_all. rewrite Hho.
    destruct (decide (home = h)); [by rewrite decide_True|by rewrite decide_False by congruence].
Qed.
Lemma process_request_ok r s F outs LF louts :
  conf_ok → inter_inv s F outs → LocalLog.local_ok (local_log_ s) LF louts → request_ok r →
  (∀ h, BatchLog.fresh_events (F h) (home_of r h)) → LocalLog.local_valid LF (local_of r) →
  ∃ s', process r s = Ok s' ∧ process_ok r s s' F outs.
Proof.
  intros Hc Hinv Hl Hok Hf Hlv. destruct r as [from b|from home pos data|slot q leader|from o].
  - unfold process, ProcessBatchReplicationAck. set (s1 := if decide _ then _ else s).
    assert (inter_inv s1 F outs ∧ local_log_ s1 = local_log_ s) as [Hinv1 Hl1].
    { unfold s1. case_decide; [|done]. split; [|done]. by apply inter_inv_emit. }
    specialize (Hf (local_replica c)). simpl in Hf. rewrite decide_True in Hf by done. destruct Hf as [Hf _].
    destruct (on_home_log_ok s1 F outs (local_replica c) (BatchLog.BAck b) (λ l, BatchLog.AckReplication l b))
      as (s' & -> & Hinv' & Hl'); [done|done|done|].
    exists s'. split; [done|]. split; [|simpl; by rewrite Hl', Hl1]. eapply inter_inv_ext; [|exact Hinv'].
    intros h. unfold learn_at, learn_all. simpl.
    destruct (decide (local_replica c = h)); [by rewrite decide_True|by rewrite decide_False by congruence].
  - by eapply process_data_ok.
  - destruct Hlv as [Hlf _]. destruct (LocalLog.local_step_ok _ _ _ _ Hl Hlf) as (ll & xs & Hst & _).
    unfold process, ProcessLocalOrder. cbn [LocalLog.local_step] in Hst. unfold process_ok. cbn [local_of LocalLog.run_local LocalLog.local_step].
    destruct (LocalLog.AddSlot _ _ _ _) as [ll'|]; cbn [mbind result_bind] in *; [|done]. simplify_eq.
    eexists. split; [done|]. split; [|done]. by destruct Hinv; split.
  - unfold process, ProcessRemoteOrder. set (s1 := if decide _ then _ else s).
    assert (inter_inv s1 F outs ∧ local_log_ s1 = local_log_ s) as [Hinv1 Hl1].
    { unfold s1. case_decide; [|done]. split; [|done]. apply inter_inv_emit; [|done].
      intros h. by destruct (rbo_need_ack o). }
    specialize (Hf (rbo_home o)). simpl in Hf. rewrite decide_True in Hf by done. destruct Hf as [Hf _].
    destruct (on_home_log_ok s1 F outs (rbo_home o) (BatchLog.BSlot (rbo_slot o) (rbo_batch_id o) 0)
      (λ l, BatchLog.AddSlot l (rbo_slot o) (rbo_batch_id o) 0)) as (s' & -> & Hinv' & Hl'); [done|done|done|].
    exists s'. split; [done|]. split; [|simpl; by rewrite Hl', Hl1]. eapply inter_inv_ext; [|exact Hinv'].
    intros h. unfold learn_at, learn_all. simpl.
    destruct (decide (rbo_home o = h)); [by rewrite decide_True|by rewrite decide_False by congruence].
Qed.

Lemma advance_local_one x s F outs :
  inter_inv s F outs → BatchLog.fresh (F (local_replica c)) (slot_event x) →
  ∃ s', advance_local s x = Ok s' ∧ inter_inv s' (learn_at (local_replica c) (slot_event x) F) outs ∧
    local_log_ s' = local_log_ s.
Proof.
  intros Hinv Hf. destruct x as [slot [b leader]]. unfold advance_local.
  match goal with |- context [on_home_log _ _ ?x] => set (s1 := x) end.
  assert (inter_inv s1 F outs ∧ local_log_ s1 = local_log_ s) as [Hinv1 Hl1].
  { unfold s1. case_decide; [|done]. split; [|done]. by apply inter_inv_emit. }
  destruct (on_home_log_ok s1 F outs (local_replica c) (slot_event (slot, (b, leader)))
    (λ l, BatchLog.AddSlot l slot b (replication_factor c - 1))) as (s2 & -> & Hinv2 & Hl2); [done|done|done|].
  exists s2. split_and!; [done|done|congruence].
Qed.

Lemma advance_local_ok xs s F outs :
  inter_inv s F outs → BatchLog.fresh_events (F (local_replica c)) (slot_event <$> xs) →
  ∃ s', rfoldl advance_local s xs = Ok s' ∧ inter_inv s' (learn_all (slot_events xs) F) outs ∧
    local_log_ s' = local_log_ s.
Proof.
  revert s F. induction xs as [|x xs IH]; intros s F Hinv Hf.
  { exists s. split; [done|]. split; [|done]. eapply inter_inv_ext; [|exact Hinv]. intros h.
    unfold learn_all, slot_events. by case_decide. }
  rewrite fmap_cons in Hf. destruct Hf as [Hf1 Hf]. cbn [rfoldl].
  destruct (advance_local_one x s F outs Hinv Hf1) as (s2 & -> & Hinv2 & Hl2).
  cbn [mbind result_bind]. destruct (IH s2 _ Hinv2) as (s' & -> & Hinv' & Hl').
  { unfold learn_at. by rewrite decide_True. }
  exists s'. split; [done|]. split; [|congruence]. eapply inter_inv_ext; [|exact Hinv']. intros h.
  unfold learn_all, slot_events, learn_at.
  destruct (decide (h = local_replica c)); [by rewrite decide_True|by rewrite decide_False by congruence].
Qed.

Lemma scheduled_emit h h' bs :
  scheduled h (bs ≫= λ sb, EmitBatch h' sb.2) = if decide (h = h') then bs ≫= batch_txns else [].
Proof.
  assert (Hone : ∀ sb : SlotId * Batch, scheduled h (EmitBatch h' sb.2) = if decide (h = h') then batch_txns sb else []).
  { intros sb. unfold EmitBatch, batch_txns, scheduled. generalize (Unbatch sb.2) as ts. intros ts.
    induction ts as [|t ts IH]; [by case_decide|]. rewrite !fmap_cons, bind_cons, IH.
    cbn [scheduled_of]. by case_decide. }
  induction bs as [|sb bs IH]; [by case_decide|]. rewrite !bind_cons, scheduled_app, Hone, IH. by case_decide.
Qed.

Definition ready_at (s : interleaver) (h : Z) : list (SlotId * BatchId) :=
  BatchLog.ready_batches_ (home_log s h).

Lemma advance_home_ok s F outs h :
  inter_inv s F outs →
  ∃ s' outs', advance_home s h = Ok s' ∧ inter_inv s' F outs' ∧ local_log_ s' = local_log_ s ∧
    ready_at s' h = [] ∧ ∀ h', h' ≠ h → ready_at s' h' = ready_at s h'.
Proof.
  intros [Hi Hs Ho]. unfold advance_home.
  destruct (BatchLog.batch_step_ok _ _ _ BatchLog.BTake (Hi h) (Hs h) I) as (l & bs & Hr & Hi' & Hs' & Hre).
  simpl in Hr. rewrite Hr. cbn [mbind result_bind].
  eexists _, (λ h', if decide (h = h') then outs h' ++ bs else outs h'). split; [done|].
  unfold ready_at. split; [split; intros h'|split; [done|split]].
  - unfold emit, home_log. simpl. rewrite lookup_insert. case_decide; [by subst|apply Hi].
  - unfold emit, home_log. simpl. rewrite lookup_insert. case_decide; [by subst|apply Hs].
  - simpl. rewrite scheduled_app, scheduled_emit, Ho. destruct (decide (h = h')) as [->|].
    + rewrite decide_True by done. by rewrite bind_app.
    + by rewrite decide_False, app_nil_r by congruence.
  - unfold home_log. simpl. rewrite lookup_insert_eq. simpl. by apply Hre.
  - intros h' Hne. unfold home_log. simpl. by rewrite lookup_insert_ne.
Qed.

Lemma advance_homes_ok hs s F outs :
  inter_inv s F outs → (∀ h, h ∉ hs → ready_at s h = []) →
  ∃ s' outs', rfoldl advance_home s hs = Ok s' ∧ inter_inv s' F outs' ∧ local_log_ s' = local_log_ s ∧
    ∀ h, ready_at s' h = [].
Proof.
  revert s outs. induction hs as [|h hs IH]; intros s outs Hinv Hre.
  { exists s, outs. split_and!; [done..|]. intros h. apply Hre. apply not_elem_of_nil. }
  cbn [rfoldl]. destruct (advance_home_ok s F outs h Hinv) as (s1 & outs1 & -> & Hinv1 & Hl1 & Hr1 & Hr1').
  cbn [mbind result_bind]. destruct (IH s1 outs1 Hinv1) as (s' & outs' & -> & Hinv' & Hl' & Hr').
  - intros h' Hni. destruct (decide (h' = h)) as [->|Hne]; [done|]. rewrite Hr1' by done.
    apply Hre. by apply not_elem_of_cons.
  - exists s', outs'. split_and!; [done|done|congruence|done].
Qed.
Lemma AdvanceLogs_ok s F outs LF louts :
  (∀ m, visit m ≡ₚ elements (dom m)) →
  inter_inv s F outs → LocalLog.local_ok (local_log_ s) LF louts →
  (∀ xs l, LocalLog.run_local (local_log_ s) [LocalLog.LTake] = Ok (l, xs) →
    BatchLog.fresh_events (F (local_replica c)) (slot_event <$> xs)) →
  ∃ s' xs outs', AdvanceLogs s = Ok s' ∧
    LocalLog.run_local (local_log_ s) [LocalLog.LTake] = Ok (local_log_ s', xs) ∧
    LocalLog.local_ok (local_log_ s') LF (louts ++ xs) ∧
    inter_inv s' (learn_all (slot_events xs) F) outs' ∧ ∀ h, ready_at s' h = [].
Proof.
  intros Hvis Hinv Hl Hf. unfold AdvanceLogs.
  destruct (LocalLog.local_step_ok _ _ _ LocalLog.LTake Hl I) as (l & xs & Hst & Hl' & _).
  assert (Hrun : LocalLog.run_local (local_log_ s) [LocalLog.LTake] = Ok (l, xs)).
  { cbn [LocalLog.run_local]. rewrite Hst. cbn [mbind result_bind]. by rewrite app_nil_r. }
  cbn [LocalLog.local_step] in Hst. rewrite Hst. cbn [mbind result_bind].
  destruct (advance_local_ok xs (set_local_log l s) F outs) as (s1 & -> & Hinv1 & Hl1).
  { by destruct Hinv; split. }
  { by eapply Hf. }
  cbn [mbind result_bind].
  destruct (advance_homes_ok (visit (single_home_logs_ s1)) s1 _ outs Hinv1) as (s2 & outs2 & -> & Hinv2 & Hl2 & Hr2).
  { intros h Hni. rewrite Hvis, elem_of_elements, not_elem_of_dom in Hni. unfold ready_at, home_log. by rewrite Hni. }
  exists s2, xs, outs2. rewrite Hl2, Hl1. split_and!; done.
Qed.

Lemma fresh_events_app F es1 es2 :
  BatchLog.fresh_events F (es1 ++ es2) ↔
  BatchLog.fresh_events F es1 ∧ BatchLog.fresh_events (foldl BatchLog.learn F es1) es2.
Proof. revert F. induction es1 as [|e es1 IH]; intros F; simpl; [naive_solver|]. rewrite IH. naive_solver. Qed.

Lemma local_valid_app F es1 es2 :
  LocalLog.local_valid F (es1 ++ es2) ↔
  LocalLog.local_valid F es1 ∧ LocalLog.local_valid (foldl LocalLog.local_learn F es1) es2.
Proof. revert F. induction es1 as [|e es1 IH]; intros F; simpl; [naive_solver|]. rewrite IH. naive_solver. Qed.

(** Between requests every batch log has been emptied. *)
Lemma inter_run_ok rs s F outs LF louts :
  conf_ok → (∀ m, visit m ≡ₚ elements (dom m)) →
  inter_inv s F outs → (∀ h, ready_at s h = []) → LocalLog.local_ok (local_log_ s) LF louts →
  Forall request_ok rs → LocalLog.local_valid LF (rs ≫= local_of) →
  (∀ h, BatchLog.fresh_events (F h) (home_events (local_log_ s) rs h)) →
  ∃ s' outs', rfoldl OnRequest s rs = Ok s' ∧
    inter_inv s' (learn_all (home_events (local_log_ s) rs) F) outs' ∧ ∀ h, ready_at s' h = [].
Proof.
  intros Hc Hvis. revert s F outs LF louts. induction rs as [|r rs IH]; intros s F outs LF louts Hinv Hre Hl Hok Hlv Hf.
  { exists s, outs. done. }
  apply Forall_cons in Hok as [Hok1 Hok]. rewrite bind_cons in Hlv. apply local_valid_app in Hlv as [Hlv1 Hlv].
  destruct (LocalLog.run_local_ok (local_of r) _ _ _ Hl Hlv1) as (l1 & ys & Hr1 & Hl1).
  cbn [home_events] in Hf. setoid_rewrite LocalLog.run_local_app in Hf. setoid_rewrite Hr1 in Hf.
  cbn [mbind result_bind] in Hf.
  assert (Hf1 : ∀ h, BatchLog.fresh_events (F h) (home_of r h)).
  { intros h. specialize (Hf h). destruct (LocalLog.run_local l1 [LocalLog.LTake]) as [[l2 xs]|] eqn:E.
    - cbn [mbind result_bind] in Hf. by apply fresh_events_app in Hf as [? _].
    - destruct (LocalLog.local_step_ok _ _ _ LocalLog.LTake Hl1 I) as (? & ? & Hst & _).
      cbn [LocalLog.run_local] in E. by rewrite Hst in E. }
  cbn [rfoldl]. change (OnRequest s r) with (s1 ← process r s; AdvanceLogs s1).
  destruct (process_request_ok r s F outs LF louts Hc Hinv Hl Hok1 Hf1 Hlv1) as (s1 & -> & Hinv1 & Hl1').
  rewrite Hr1 in Hl1'. injection Hl1' as -> ->. rewrite app_nil_r in Hl1. cbn [mbind result_bind].
  destruct (AdvanceLogs_ok s1 _ outs _ _ Hvis Hinv1 Hl1) as (s2 & xs & outs2 & -> & Hr2 & Hl2 & Hinv2 & Hre2).
  { intros xs l2 E. specialize (Hf (local_replica c)). rewrite E in Hf. cbn [mbind result_bind] in Hf.
    apply fresh_events_app in Hf as [_ Hf]. apply fresh_events_app in Hf as [Hf _].
    unfold slot_events in Hf. by rewrite decide_True in Hf. }
  rewrite Hr2 in Hf. cbn [mbind result_bind] in Hf. cbn [mbind result_bind].
  destruct (IH s2 _ outs2 _ _ Hinv2 Hre2 Hl2 Hok Hlv) as (s3 & outs3 & -> & Hinv3 & Hre3).
  { intros h. specialize (Hf h). apply fresh_events_app in Hf as [_ Hf]. by apply fresh_events_app in Hf as [_ Hf]. }
  exists s3, outs3. split; [done|]. split; [|done]. eapply inter_inv_ext; [|exact Hinv3]. intros h.
  unfold learn_all. cbn [home_events]. rewrite LocalLog.run_local_app, Hr1. cbn [mbind result_bind]. rewrite Hr2.
  cbn [mbind result_bind]. by rewrite !foldl_app.
Qed.

(** C6. The interleaver of a machine sends the scheduler, for every region, the transactions
    of that region's log in the order of the log, whatever the order in which data, orders
    and acknowledgements arrive and however the logs are visited: they are the transactions
    of the longest run of slots from 0 whose batches are known and replicated, where the
    slots of its own region are those its local log delivers. No request fails. *)
Theorem interleaver_in_order (rs : list inter_request) :
  conf_ok → (∀ m, visit m ≡ₚ elements (dom m)) → Forall request_ok rs →
  LocalLog.local_valid LocalLog.no_local_facts (rs ≫= local_of) →
  (∀ h, BatchLog.fresh_events BatchLog.no_facts (home_events LocalLog.empty_local_log rs h)) →
  ∃ s, rfoldl OnRequest inter_init rs = Ok s ∧
    ∀ h, ∃ outs, scheduled h (i_out s) = outs ≫= batch_txns ∧
      longest_prefix (BatchLog.batch_stream
        (foldl BatchLog.learn BatchLog.no_facts (home_events LocalLog.empty_local_log rs h))) outs.
Proof.
  intros Hc Hvis Hok Hlv Hf.
  destruct (inter_run_ok rs inter_init (λ _, BatchLog.no_facts) (λ _, []) LocalLog.no_local_facts [])
    as (s & outs & Hr & [Hi Hs Ho] & Hre); try done.
  - split; intros h; [apply BatchLog.batch_inv_init|done|done].
  - split; [|done]. split; [apply async_ok_empty| |apply is_prefix_nil]. intros q. apply async_ok_empty.
  - exists s. split; [done|]. intros h. exists (outs h). split; [apply Ho|].
    eapply BatchLog.batch_inv_stream; [apply Hi|apply Hs|apply Hre].
Qed.
End interleaver.

(** Machine 2 is partition 0 of region 1: a batch of its own region and one from region 0. *)
Definition empty_batch (i : BatchId) : Batch :=
  {| batch_id := i; transactions := [make_txn (10 * i) SINGLE_HOME 0 (kCode []) []];
     transaction_type := SINGLE_HOME; batch_events := [] |}.

Definition example_requests : list inter_request :=
  [ForwardRemoteOrder 0 {| rbo_batch_id := 100; rbo_slot := 0; rbo_home := 0; rbo_need_ack := true |};
   LocalBatchOrder 0 1 2;
   ForwardBatchData 0 0 0 [empty_batch 100; empty_batch 100];
   BatchReplicationAck 0 200;
   ForwardBatchData 3 1 0 [empty_batch 200]].

Definition visit_dom (m : gmap Z BatchLog.BatchLog) : list Z := elements (dom m).

Lemma home_events_other c recorded l rs h :
  h ≠ local_replica c → Forall (λ r, home_of c recorded r h = []) rs → home_events c recorded l rs h = [].
Proof.
  intros Hne. revert l. induction rs as [|r rs IH]; intros l Hall; [done|]. cbn [home_events].
  apply Forall_cons in Hall as [H1 Hall]. destruct (LocalLog.run_local l _) as [[l' xs]|]; [|done].
  rewrite H1, IH by done. unfold slot_events. by rewrite decide_False.
Qed.

Lemma interleaver_in_order_witness :
  ∃ s outs, rfoldl (OnRequest example_config (λ _, []) visit_dom) inter_init example_requests = Ok s ∧
    scheduled 0 (i_out s) = outs ≫= batch_txns (λ _, []).
Proof.
  destruct (interleaver_in_order example_config (λ _, []) visit_dom example_requests) as (s & Hr & Hall).
  - by split.
  - done.
  - repeat constructor; by vm_compute.
  - apply (bool_decide_eq_true_1 _). vm_compute. reflexivity.
  - intros h. destruct (decide (h = 0%Z)) as [->|]; [|destruct (decide (h = 1%Z)) as [->|]].
    + apply (bool_decide_eq_true_1 _). vm_compute. reflexivity.
    + apply (bool_decide_eq_true_1 _). vm_compute. reflexivity.
    + rewrite home_events_other; [done|done|]. repeat constructor; simpl; rewrite ?decide_False by done; done.
  - destruct (Hall 0%Z) as (outs & Ho & _). exists s, outs. split; [exact Hr|exact Ho].
Defined.
