(* ===== verification/Paxos.v ===== *)
(** * Paxos with a fixed leader

    [Leader] and [Acceptor] of [paxos/], joined by [SimulatedMultiPaxos], and the two
    processes of [module/consensus.cpp] that are built on it: one orders the batches of
    the partitions of a region, the other the batches of multi-home transactions. A group
    of nodes is a step relation over a network that may reorder messages, or keep the
    order of each link. *)
From S2P Require Import Prelude Types Config.
From S2P Require LocalLog.

Definition kPaxosDefaultLeaderPosition : nat := 0.

(** ** Messages *)

Inductive paxos_request :=
  | PaxosPropose (value : Z)
  | PaxosAcceptRequest (ballot : Z) (slot : SlotId) (value : Z)
  | PaxosCommitRequest (slot : SlotId) (value : Z) (leader : Z).

Inductive paxos_response :=
  | PaxosAcceptResponse (ballot : Z) (slot : SlotId)
  | PaxosCommitResponse (slot : SlotId).

Inductive paxos_msg := Request (r : paxos_request) | Response (r : paxos_response).

(** What a handler does: it sends a message or calls the virtual [OnCommit]. *)
Inductive paxos_out :=
  | Sent (to : MachineId) (m : paxos_msg)
  | Committed (slot : Z) (value : Z) (leader : MachineId).

#[global] Instance paxos_request_eq_dec : EqDecision paxos_request.
Proof. solve_decision. Defined.
#[global] Instance paxos_response_eq_dec : EqDecision paxos_response.
Proof. solve_decision. Defined.
#[global] Instance paxos_msg_eq_dec : EqDecision paxos_msg.
Proof. solve_decision. Defined.

(** ** The leader *)

Record PaxosInstance := {
  pi_ballot : Z;
  pi_value : Z;
  num_accepts : Z;
  num_commits : Z
}.

(** [ballot_] stays uninitialized on a machine outside of the group. *)
Record Leader := {
  members_ : list MachineId;
  acceptors_ : list MachineId;
  me_ : MachineId;
  is_elected_ : bool;
  is_member_ : bool;
  elected_leader_ : MachineId;
  next_empty_slot_ : SlotId;
  ballot_ : option Z;
  instances_ : gmap SlotId PaxosInstance
}.

(** The largest odd number up to the number of members, in [size_t] arithmetic. *)
Definition num_acceptors (members : list MachineId) : Z :=
  u64 (u64 (Z.of_nat (length members) - 1) `div` 2 * 2 + 1).

Definition MakeLeader (members : list MachineId) (me : MachineId) : result Leader :=
  match members !! kPaxosDefaultLeaderPosition with
  | None => Err (Undef "members_[i]")
  | Some elected =>
    if decide (num_acceptors members ≤ Z.of_nat (length members))%Z then
      let position := fst <$> list_find (λ m, m = me) members in
      Ok {| members_ := members; acceptors_ := take (Z.to_nat (num_acceptors members)) members;
            me_ := me; is_elected_ := bool_decide (position = Some kPaxosDefaultLeaderPosition);
            is_member_ := bool_decide (is_Some position); elected_leader_ := elected;
            next_empty_slot_ := 0; ballot_ := (λ p, u32 (Z.of_nat p)) <$> position; instances_ := ∅ |}
    else Err (Undef "members_[i]")
  end.

Definition set_instances (n : SlotId) (ins : gmap SlotId PaxosInstance) (l : Leader) : Leader :=
  {| members_ := members_ l; acceptors_ := acceptors_ l; me_ := me_ l; is_elected_ := is_elected_ l;
     is_member_ := is_member_ l; elected_leader_ := elected_leader_ l; next_empty_slot_ := n;
     ballot_ := ballot_ l; instances_ := ins |}.

(** [try_emplace] keeps the instance of a slot that has one. *)
Definition StartNewInstance (l : Leader) (v : Z) : result (Leader * list paxos_out) :=
  match ballot_ l with
  | None => Err (Undef "ballot_")
  | Some b =>
    let slot := next_empty_slot_ l in
    let ins :=
      match instances_ l !! slot with
      | Some _ => instances_ l
      | None => <[slot := {| pi_ballot := b; pi_value := v; num_accepts := 0; num_commits := 0 |}]> (instances_ l)
      end in
    Ok (set_instances (u32 (slot + 1)) ins l,
        (λ a, Sent a (Request (PaxosAcceptRequest b slot v))) <$> acceptors_ l)
  end.

(** The parameters of [OnCommit] are [uint32_t], [uint32_t] and [int]. *)
Definition Leader_ProcessCommitRequest (l : Leader) (slot : SlotId) (v leader : Z) : Leader * list paxos_out :=
  (if decide (next_empty_slot_ l ≤ slot)%Z then set_instances (u32 (slot + 1)) (instances_ l) l else l,
   [Committed slot (u32 v) (i32 leader)]).

Definition Leader_HandleRequest (l : Leader) (r : paxos_request) : result (Leader * list paxos_out) :=
  match r with
  | PaxosPropose v =>
    if is_elected_ l then StartNewInstance l v
    else Ok (l, [Sent (elected_leader_ l) (Request r)])
  | PaxosCommitRequest slot v leader => Ok (Leader_ProcessCommitRequest l slot v leader)
  | PaxosAcceptRequest _ _ _ => Ok (l, [])
  end.

(** The slot of a commit response is read from its [paxos_accept] field, which is unset
    and so gives 0. *)
Definition Leader_HandleResponse (l : Leader) (r : paxos_response) : Leader * list paxos_out :=
  match r with
  | PaxosAcceptResponse _ slot =>
    match instances_ l !! slot with
    | None => (l, [])
    | Some i =>
      let i := {| pi_ballot := pi_ballot i; pi_value := pi_value i; num_accepts := num_accepts i + 1;
                  num_commits := num_commits i |} in
      (set_instances (next_empty_slot_ l) (<[slot := i]> (instances_ l)) l,
       if decide (num_accepts i = Z.of_nat (length (acceptors_ l)) `div` 2 + 1)%Z then
         (λ m, Sent m (Request (PaxosCommitRequest slot (pi_value i) (u32 (me_ l))))) <$> members_ l
       else [])
    end
  | PaxosCommitResponse _ =>
    let slot := 0%Z in
    match instances_ l !! slot with
    | None => (l, [])
    | Some i =>
      let i := {| pi_ballot := pi_ballot i; pi_value := pi_value i; num_accepts := num_accepts i;
                  num_commits := num_commits i + 1 |} in
      (set_instances (next_empty_slot_ l)
         (if decide (num_commits i = Z.of_nat (length (members_ l))) then delete slot (instances_ l)
          else <[slot := i]> (instances_ l)) l, [])
    end
  end.

(** ** The acceptor *)

Record Acceptor := { a_ballot_ : Z }.

Definition ProcessAcceptRequest (a : Acceptor) (ballot : Z) (slot : SlotId) (from : MachineId) :
    Acceptor * list paxos_out :=
  if decide (ballot < a_ballot_ a)%Z then (a, [])
  else ({| a_ballot_ := ballot |}, [Sent from (Response (PaxosAcceptResponse ballot slot))]).

Definition ProcessCommitRequest (slot : SlotId) (from : MachineId) : list paxos_out :=
  [Sent from (Response (PaxosCommitResponse slot))].

Definition Acceptor_HandleRequest (a : Acceptor) (from : MachineId) (r : paxos_request) :
    Acceptor * list paxos_out :=
  match r with
  | PaxosAcceptRequest ballot slot _ => ProcessAcceptRequest a ballot slot from
  | PaxosCommitRequest slot _ _ => (a, ProcessCommitRequest slot from)
  | PaxosPropose _ => (a, [])
  end.

(** ** A node *)

Record SimulatedMultiPaxos := { leader_ : Leader; acceptor_ : Acceptor }.

Definition MakePaxos (members : list MachineId) (me : MachineId) : result SimulatedMultiPaxos :=
  l ← MakeLeader members me;
  Ok {| leader_ := l; acceptor_ := {| a_ballot_ := 0 |} |}.

Definition OnInternalRequestReceived (nd : SimulatedMultiPaxos) (from : MachineId) (r : paxos_request) :
    result (SimulatedMultiPaxos * list paxos_out) :=
  '(l, outs1) ← Leader_HandleRequest (leader_ nd) r;
  let '(a, outs2) := Acceptor_HandleRequest (acceptor_ nd) from r in
  Ok ({| leader_ := l; acceptor_ := a |}, outs1 ++ outs2).

Definition OnInternalResponseReceived (nd : SimulatedMultiPaxos) (r : paxos_response) :
    SimulatedMultiPaxos * list paxos_out :=
  let '(l, outs) := Leader_HandleResponse (leader_ nd) r in
  ({| leader_ := l; acceptor_ := acceptor_ nd |}, outs).

Definition on_message (nd : SimulatedMultiPaxos) (from : MachineId) (m : paxos_msg) :
    result (SimulatedMultiPaxos * list paxos_out) :=
  match m with
  | Request r => OnInternalRequestReceived nd from r
  | Response r => Ok (OnInternalResponseReceived nd r)
  end.

(** ** The two processes *)

Definition GetMembers (c : Configuration) : list MachineId :=
  MakeMachineId c (local_replica c) <$> seqZ 0 (num_partitions c).

Definition GetMembersForGlobal (c : Configuration) : list MachineId :=
  (λ rep, MakeMachineId c rep 0) <$> seqZ 0 (num_replicas c).

Definition multihome_orderers (c : Configuration) : list MachineId :=
  (λ rep, MakeMachineId c rep (leader_partition_for_multi_home_ordering c)) <$> seqZ 0 (num_replicas c).

(** The order of a batch of multi-home transactions: destinations, slot and batch id. *)
Definition GlobalPaxos_OnCommit (c : Configuration) (slot value : Z) (leader : MachineId) :
    option (list MachineId * (SlotId * BatchId)) :=
  if decide (local_machine_id c ≠ leader) then None
  else Some (multihome_orderers c, (slot, value)).

(** The order sent to the interleaver of the same machine. *)
Definition LocalPaxos_OnCommit (slot value : Z) (leader : MachineId) : LocalLog.local_event :=
  LocalLog.LSlot slot value leader.

(** ** A group of nodes *)

Record packet := { p_from : MachineId; p_to : MachineId; p_msg : paxos_msg }.

(** The last two fields are history: the values of the instances that the elected leader
    started, in order, and the accept responses it received. *)
Record world := {
  w_nodes : gmap MachineId SimulatedMultiPaxos;
  w_net : list packet;
  w_commits : list (MachineId * (Z * Z * MachineId));
  w_started : list Z;
  w_acks : list (MachineId * SlotId)
}.

Definition sent_by (m : MachineId) (o : paxos_out) : list packet :=
  match o with Sent to x => [{| p_from := m; p_to := to; p_msg := x |}] | Committed _ _ _ => [] end.

Definition committed_by (m : MachineId) (o : paxos_out) : list (MachineId * (Z * Z * MachineId)) :=
  match o with Sent _ _ => [] | Committed s v l => [(m, (s, v, l))] end.

Definition new_started (leader : MachineId) (p : packet) : list Z :=
  match p_msg p with
  | Request (PaxosPropose v) => if decide (p_to p = leader) then [v] else []
  | _ => []
  end.

Definition new_acks (p : packet) : list (MachineId * SlotId) :=
  match p_msg p with Response (PaxosAcceptResponse _ s) => [(p_from p, s)] | _ => [] end.

Definition same_link (p q : packet) : Prop := p_from p = p_from q ∧ p_to p = p_to q.

#[global] Instance same_link_dec p q : Decision (same_link p q).
Proof. unfold same_link. apply _. Defined.

Section group.
  Context (members : list MachineId).
  (** every machine that runs a node of this process; those outside of the group only
      forward proposals *)
  Context (machines : list MachineId).
  (** whether messages between two machines arrive in the order they were sent *)
  Context (fifo : bool).

Definition the_leader : MachineId := default 0%Z (members !! kPaxosDefaultLeaderPosition).

Definition after_delivery (w : world) (n1 n2 : list packet) (p : packet) (nd : SimulatedMultiPaxos)
    (outs : list paxos_out) : world :=
  {| w_nodes := <[p_to p := nd]> (w_nodes w);
     w_net := n1 ++ n2 ++ (outs ≫= sent_by (p_to p));
     w_commits := w_commits w ++ (outs ≫= committed_by (p_to p));
     w_started := w_started w ++ new_started the_leader p;
     w_acks := w_acks w ++ new_acks p |}.

(** One message is delivered. *)
Inductive deliver : world → world → Prop :=
  | deliver_packet w n1 p n2 nd nd' outs :
      w_net w = n1 ++ p :: n2 →
      (fifo = true → Forall (λ q, ¬ same_link q p) n1) →
      w_nodes w !! p_to p = Some nd →
      on_message nd (p_from p) (p_msg p) = Ok (nd', outs) →
      deliver w (after_delivery w n1 n2 p nd' outs).

(** A module on machine [from] proposes a value to the node of machine [m]. *)
Definition propose (from m : MachineId) (v : Z) (w : world) : world :=
  {| w_nodes := w_nodes w;
     w_net := w_net w ++ [{| p_from := from; p_to := m; p_msg := Request (PaxosPropose v) |}];
     w_commits := w_commits w; w_started := w_started w; w_acks := w_acks w |}.

Inductive paxos_step : world → world → Prop :=
  | step_propose w from m v : m ∈ machines → paxos_step w (propose from m v w)
  | step_deliver w w' : deliver w w' → paxos_step w w'.

(** The nodes as their constructors make them, and nothing sent. *)
Definition initial (w : world) : Prop :=
  (∀ m, match w_nodes w !! m with
        | Some nd => m ∈ machines ∧ MakePaxos members m = Ok nd
        | None => m ∉ machines
        end) ∧
  w_net w = [] ∧ w_commits w = [] ∧ w_started w = [] ∧ w_acks w = [].

Definition reachable (w : world) : Prop := ∃ w0, initial w0 ∧ rtc paxos_step w0 w.

(** A group of distinct machines, whose ids fit in an [int]. *)
Record group_ok : Prop := {
  go_ne : members ≠ [];
  go_nodup : NoDup members;
  go_sub m : m ∈ members → m ∈ machines ∧ (0 ≤ m < 2 ^ 31)%Z;
  go_len : (Z.of_nat (length members) < 2 ^ 31)%Z
}.

Definition acceptors : list MachineId := take (Z.to_nat (num_acceptors members)) members.

Definition majority : nat := length acceptors / 2 + 1.

(** ** The invariant *)

(** The slots of the accept requests on their way to an acceptor, and of the responses on
    their way from it. *)
Definition req_slot (a : MachineId) (p : packet) : option SlotId :=
  match p_msg p with
  | Request (PaxosAcceptRequest _ s _) => if decide (p_to p = a) then Some s else None
  | _ => None
  end.

Definition res_slot (a : MachineId) (p : packet) : option SlotId :=
  match p_msg p with
  | Response (PaxosAcceptResponse _ s) => if decide (p_from p = a) then Some s else None
  | _ => None
  end.

Definition acked_slot (a : MachineId) (x : MachineId * SlotId) : option SlotId :=
  if decide (x.1 = a) then Some x.2 else None.

(** All that happened to the instances at an acceptor. *)
Definition slots_at (w : world) (a : MachineId) : list SlotId :=
  omap (acked_slot a) (w_acks w) ++ omap (res_slot a) (w_net w) ++ omap (req_slot a) (w_net w).

Definition same_slots (l1 l2 : list SlotId) : Prop := if fifo then l1 = l2 else l1 ≡ₚ l2.

(** How many acceptors' responses for a slot have arrived. *)
Definition accepts (w : world) (s : SlotId) : nat :=
  length (filter (λ a, (a, s) ∈ w_acks w) acceptors).

Definition is_commit (m : MachineId) (s : SlotId) (p : packet) : Prop :=
  match p_msg p with
  | Request (PaxosCommitRequest s' _ _) => p_to p = m ∧ s' = s
  | _ => False
  end.

#[global] Instance is_commit_dec m s p : Decision (is_commit m s p).
Proof. unfold is_commit. repeat case_match; apply _. Defined.

(** Commit requests on their way to a machine plus commits reported by it. *)
Definition commits (w : world) (m : MachineId) (s : SlotId) : nat :=
  length (filter (is_commit m s) (w_net w)) +
  length (filter (λ x, x.1 = m ∧ x.2.1.1 = s) (w_commits w)).

Definition slot_value (w : world) (s : SlotId) (v : Z) : Prop :=
  (0 ≤ s)%Z ∧ w_started w !! Z.to_nat s = Some v.

Definition packet_ok (w : world) (chosen : list SlotId) (p : packet) : Prop :=
  p_to p ∈ machines ∧
  match p_msg p with
  | Request (PaxosPropose _) => True
  | Request (PaxosAcceptRequest b s v) => p_from p = the_leader ∧ b = 0%Z ∧ p_to p ∈ acceptors
  | Request (PaxosCommitRequest s v l) =>
    p_from p = the_leader ∧ p_to p ∈ members ∧ l = the_leader ∧ slot_value w s v ∧ s ∈ chosen
  | Response (PaxosAcceptResponse _ s) => p_to p = the_leader ∧ p_from p ∈ acceptors
  | Response (PaxosCommitResponse s) => p_to p = the_leader ∧ s ∈ chosen
  end.

Definition node_ok (m : MachineId) (nd : SimulatedMultiPaxos) : Prop :=
  let l := leader_ nd in
  members_ l = members ∧ acceptors_ l = acceptors ∧ me_ l = m ∧
  is_elected_ l = bool_decide (m = the_leader) ∧ elected_leader_ l = the_leader ∧
  (m = the_leader → ballot_ l = Some 0%Z) ∧ a_ballot_ (acceptor_ nd) = 0%Z.

(** The instances of the elected leader. *)
Record instances_ok (w : world) (chosen : list SlotId) (l : Leader) : Prop := {
  io_next : next_empty_slot_ l = Z.of_nat (length (w_started w));
  io_value s i : instances_ l !! s = Some i →
    slot_value w s (pi_value i) ∧ num_accepts i = Z.of_nat (accepts w s) ∧
    (s ∈ chosen ↔ majority ≤ accepts w s);
  io_kept s v : slot_value w s v → s ≠ 0%Z → is_Some (instances_ l !! s);
  io_first v : slot_value w 0 v → instances_ l !! 0%Z = None → fifo = true → 0%Z ∈ chosen
}.

Record paxos_inv (w : world) (chosen : list SlotId) : Prop := {
  pv_nodes m : match w_nodes w !! m with Some nd => m ∈ machines ∧ node_ok m nd | None => m ∉ machines end;
  pv_leader nd : w_nodes w !! the_leader = Some nd → instances_ok w chosen (leader_ nd);
  pv_packets : Forall (packet_ok w chosen) (w_net w);
  pv_slots a : a ∈ acceptors → same_slots (slots_at w a) (seqZ 0 (Z.of_nat (length (w_started w))));
  pv_chosen s : s ∈ chosen → majority ≤ accepts w s;
  pv_commits m s : m ∈ members → commits w m s = if decide (s ∈ chosen) then 1 else 0;
  pv_values x : x ∈ w_commits w → x.1 ∈ members ∧
    ∃ v, slot_value w x.2.1.1 v ∧ x.2.1.2 = u32 v ∧ x.2.2 = the_leader
}.

(** ** Facts about the group *)

Lemma group_acceptors : group_ok →
  num_acceptors members = (Z.of_nat (length members - 1) `div` 2 * 2 + 1)%Z ∧
  NoDup acceptors ∧ (∀ a, a ∈ acceptors → a ∈ members) ∧ 0 < length acceptors ∧
  (num_acceptors members ≤ Z.of_nat (length members))%Z.
Proof.
  intros [Hne Hnd _ Hlen]. destruct members as [|m0 ms] eqn:E; [done|]. rewrite <-E in *.
  assert (Hm : 0 < length members) by (rewrite E; simpl; lia).
  assert (Hn : num_acceptors members = (Z.of_nat (length members - 1) `div` 2 * 2 + 1)%Z).
  { unfold num_acceptors, wrapu. rewrite (Z.mod_small (_ - 1)) by lia.
    replace (Z.of_nat (length members) - 1)%Z with (Z.of_nat (length members - 1)) by lia.
    pose proof (Z.mul_div_le (Z.of_nat (length members - 1)) 2 ltac:(lia)).
    pose proof (Z.div_pos (Z.of_nat (length members - 1)) 2 ltac:(lia) ltac:(lia)).
    rewrite Z.mod_small; lia. }
  pose proof (Z.mul_div_le (Z.of_nat (length members - 1)) 2 ltac:(lia)).
  pose proof (Z.div_pos (Z.of_nat (length members - 1)) 2 ltac:(lia) ltac:(lia)).
  split_and!; [done| | | |lia].
  - eapply sublist_NoDup; [exact Hnd|apply sublist_take].
  - intros a Ha. eapply elem_of_submseteq; [exact Ha|]. apply sublist_submseteq, sublist_take.
  - unfold acceptors. rewrite length_take, Hn. lia.
Qed.

Lemma the_leader_member : group_ok → members !! kPaxosDefaultLeaderPosition = Some the_leader ∧ the_leader ∈ members.
Proof.
  intros [Hne _ _ _]. unfold the_leader, kPaxosDefaultLeaderPosition. destruct members; [done|]. split; [done|left].
Qed.

Lemma leader_roundtrip : group_ok → u32 the_leader = the_leader ∧ i32 the_leader = the_leader.
Proof.
  intros Hg. destruct (the_leader_member Hg) as [_ Hin]. destruct (go_sub Hg _ Hin) as [_ ?].
  split; [apply u32_small|apply i32_small]; lia.
Qed.

Lemma MakePaxos_ok m : group_ok →
  ∃ nd, MakePaxos members m = Ok nd ∧ node_ok m nd ∧ next_empty_slot_ (leader_ nd) = 0%Z ∧ instances_ (leader_ nd) = ∅.
Proof.
  intros Hg. destruct (group_acceptors Hg) as (_ & _ & _ & _ & Hle). destruct (the_leader_member Hg) as [Hl _].
  unfold MakePaxos, MakeLeader. rewrite Hl. rewrite decide_True by done. cbn [mbind result_bind].
  eexists. split; [done|]. split; [|done]. unfold node_ok. simpl. split_and!; try done.
  - apply bool_decide_ext. unfold the_leader, kPaxosDefaultLeaderPosition in *.
    destruct members as [|m0 ms]; [done|]. simpl. split.
    + case_decide; [done|]. by destruct (list_find _ ms) as [[]|].
    + intros ->. by rewrite decide_True.
  - intros ->. unfold the_leader, kPaxosDefaultLeaderPosition. destruct members as [|m0 ms]; [by destruct Hg|].
    simpl. by rewrite decide_True.
Qed.

(** ** Counting *)

Lemma omap_fmap_one {A B} (f : MachineId → A) (g : A → option B) (l : list MachineId) (a : MachineId) (b : B) :
  NoDup l → a ∈ l → g (f a) = Some b → (∀ x, x ∈ l → x ≠ a → g (f x) = None) → omap g (f <$> l) = [b].
Proof.
  induction 1 as [|x l Hx Hnd IH]; intros Hin Ha Hn; [by apply not_elem_of_nil in Hin|].
  rewrite fmap_cons, omap_cons. destruct (decide (x = a)) as [->|Hne].
  - rewrite Ha, omap_nil_iff; [done|]. intros y (z & -> & Hz)%list_elem_of_fmap.
    apply Hn; [by right|]. by intros ->.
  - rewrite Hn by (done || left). apply elem_of_cons in Hin as [?|Hin]; [done|].
    apply IH; [done|done|]. intros y Hy. apply Hn. by right.
Qed.

Lemma same_slots_move A R Q1 Q2 s l :
  (fifo = true → Q1 = []) → same_slots (A ++ R ++ Q1 ++ s :: Q2) l →
  same_slots (A ++ (R ++ [s]) ++ Q1 ++ Q2) l.
Proof.
  unfold same_slots. destruct fifo; intros Hf.
  - rewrite Hf by done. by rewrite <-app_assoc.
  - intros <-. f_equiv. rewrite <-app_assoc. f_equiv. by rewrite <-Permutation_middle.
Qed.

Lemma same_slots_ack A R1 R2 Q s l :
  (fifo = true → R1 = []) → same_slots (A ++ (R1 ++ s :: R2) ++ Q) l →
  same_slots ((A ++ [s]) ++ (R1 ++ R2) ++ Q) l.
Proof.
  unfold same_slots. destruct fifo; intros Hf.
  - rewrite Hf by done. intros <-. simpl. by rewrite <-app_assoc.
  - intros <-. rewrite <-app_assoc. f_equiv. rewrite <-!app_assoc. simpl. by rewrite <-Permutation_middle.
Qed.

Lemma same_slots_new A R Q s l l' :
  l' = l ++ [s] → same_slots (A ++ R ++ Q) l → same_slots (A ++ R ++ Q ++ [s]) l'.
Proof. intros ->. unfold same_slots. destruct fifo; [intros <-|intros <-]; by rewrite !app_assoc. Qed.

Lemma same_slots_perm l l' : same_slots l l' → l ≡ₚ l'.
Proof. unfold same_slots. destruct fifo; [by intros ->|done]. Qed.

(** On links that keep their order, the first accept request or response of a link is the
    oldest one of its acceptor. *)
Lemma req_slot_first w chosen a n1 p :
  Forall (packet_ok w chosen) n1 → Forall (λ q, ¬ same_link q p) n1 →
  p_from p = the_leader → p_to p = a → omap (req_slot a) n1 = [].
Proof.
  intros Hok Hf H1 H2. apply omap_nil_iff. intros q Hq.
  pose proof (proj1 (Forall_forall _ _) Hok q Hq) as [_ Hqo].
  pose proof (proj1 (Forall_forall _ _) Hf q Hq) as Hqf. unfold req_slot. repeat case_match; try done.
  destruct Hqf. split; [|congruence]. destruct Hqo as [-> _]. done.
Qed.

Lemma res_slot_first w chosen a n1 p :
  Forall (packet_ok w chosen) n1 → Forall (λ q, ¬ same_link q p) n1 →
  p_from p = a → p_to p = the_leader → omap (res_slot a) n1 = [].
Proof.
  intros Hok Hf H1 H2. apply omap_nil_iff. intros q Hq.
  pose proof (proj1 (Forall_forall _ _) Hok q Hq) as [_ Hqo].
  pose proof (proj1 (Forall_forall _ _) Hf q Hq) as Hqf. unfold res_slot. repeat case_match; try done.
  destruct Hqf. split; [congruence|]. destruct Hqo as [-> _]. done.
Qed.

Lemma instances_ok_ext w w' chosen l :
  w_started w' = w_started w → w_acks w' = w_acks w → instances_ok w chosen l → instances_ok w' chosen l.
Proof. intros Hs Ha [H1 H2 H3 H4]. by split; unfold slot_value, accepts; rewrite ?Hs, ?Ha. Qed.

Section invariant.
  Context (w : world) (chosen : list SlotId).
  Hypothesis Hg : group_ok.
  Hypothesis Hinv : paxos_inv w chosen.

Lemma slots_at_perm a : a ∈ acceptors → slots_at w a ≡ₚ seqZ 0 (Z.of_nat (length (w_started w))).
Proof. intros Ha. eapply same_slots_perm. by apply Hinv. Qed.

Lemma acked_range a s : a ∈ acceptors → (a, s) ∈ w_acks w → (0 ≤ s < Z.of_nat (length (w_started w)))%Z.
Proof.
  intros Ha Hs. assert (s ∈ slots_at w a) as Hin.
  { unfold slots_at. apply elem_of_app. left. apply list_elem_of_omap. exists (a, s).
    split; [done|]. unfold acked_slot. by rewrite decide_True. }
  rewrite slots_at_perm in Hin by done. apply elem_of_seqZ in Hin. lia.
Qed.

Lemma accepts_range s : 0 < accepts w s → (0 ≤ s < Z.of_nat (length (w_started w)))%Z.
Proof.
  unfold accepts. intros Hpos. destruct (filter _ acceptors) as [|a l] eqn:E; [simpl in Hpos; lia|].
  assert (a ∈ filter (λ a, (a, s) ∈ w_acks w) acceptors) as Ha by (rewrite E; left).
  apply list_elem_of_filter in Ha as [Hs Ha]. by eapply acked_range.
Qed.

Lemma chosen_range s : s ∈ chosen → (0 ≤ s < Z.of_nat (length (w_started w)))%Z.
Proof. intros Hs. apply accepts_range. pose proof (pv_chosen _ _ Hinv s Hs). unfold majority in *. lia. Qed.

Lemma leader_node : ∃ nd, w_nodes w !! the_leader = Some nd ∧ node_ok the_leader nd ∧ instances_ok w chosen (leader_ nd).
Proof.
  pose proof (pv_nodes _ _ Hinv the_leader) as Hn. destruct (the_leader_member Hg) as [_ Hm].
  destruct (go_sub Hg _ Hm) as [Hm' _]. destruct (w_nodes w !! the_leader) as [nd|] eqn:E; [|done].
  exists nd. split_and!; [done|apply Hn|]. by apply Hinv.
Qed.

(** A packet that concerns no instance. *)
Definition inert (p : packet) : Prop :=
  match p_msg p with
  | Request (PaxosPropose _) | Response (PaxosCommitResponse _) => True
  | _ => False
  end.

Lemma inert_req a p : inert p → req_slot a p = None.
Proof. unfold inert, req_slot. by repeat case_match. Qed.
Lemma inert_res a p : inert p → res_slot a p = None.
Proof. unfold inert, res_slot. by repeat case_match. Qed.
Lemma inert_commit m s p : inert p → ¬ is_commit m s p.
Proof. unfold inert, is_commit. repeat case_match; naive_solver. Qed.

(** Packets that concern no instance come and go. *)
Lemma inert_net net1 net2 (extra : list packet) (drop : list packet) :
  Forall inert extra → Forall inert drop →
  (∀ a, omap (req_slot a) (net1 ++ net2 ++ extra) = omap (req_slot a) (net1 ++ drop ++ net2)) ∧
  (∀ a, omap (res_slot a) (net1 ++ net2 ++ extra) = omap (res_slot a) (net1 ++ drop ++ net2)) ∧
  (∀ m s, filter (is_commit m s) (net1 ++ net2 ++ extra) = filter (is_commit m s) (net1 ++ drop ++ net2)).
Proof.
  rewrite !Forall_forall. intros He Hd. split_and!.
  - intros a. rewrite !omap_app, (omap_nil_iff _ extra), (omap_nil_iff _ drop), app_nil_r; [done|..];
      intros x Hx; apply inert_req; auto.
  - intros a. rewrite !omap_app, (omap_nil_iff _ extra), (omap_nil_iff _ drop), app_nil_r; [done|..];
      intros x Hx; apply inert_res; auto.
  - intros m s. rewrite !filter_app, (filter_none _ extra), (filter_none _ drop), app_nil_r; [done|..];
      intros x Hx; apply inert_commit; auto.
Qed.

(** A world that differs only in inert packets and in the nodes. *)
Lemma paxos_inv_inert w' n1 n2 extra drop :
  w_net w = n1 ++ drop ++ n2 → w_net w' = n1 ++ n2 ++ extra →
  Forall inert extra → Forall inert drop → Forall (packet_ok w' chosen) extra →
  w_commits w' = w_commits w → w_started w' = w_started w → w_acks w' = w_acks w →
  (∀ m, match w_nodes w' !! m with Some nd => m ∈ machines ∧ node_ok m nd | None => m ∉ machines end) →
  (∀ nd, w_nodes w' !! the_leader = Some nd → instances_ok w' chosen (leader_ nd)) →
  paxos_inv w' chosen.
Proof.
  intros Hn Hn' He Hd Hpe Hc Hs Ha Hno Hle.
  destruct (inert_net n1 n2 extra drop He Hd) as (H1 & H2 & H3).
  assert (Hp : ∀ p, packet_ok w chosen p → packet_ok w' chosen p).
  { intros p. unfold packet_ok, slot_value. by rewrite Hs. }
  split; [done|done| | | | |].
  - pose proof (pv_packets _ _ Hinv) as Hpk. rewrite Hn in Hpk. rewrite Hn'.
    rewrite !Forall_app in Hpk |- *. destruct Hpk as (Hp1 & Hp2 & Hp3).
    split_and!; [by eapply Forall_impl..|done].
  - intros a Hin. unfold slots_at. rewrite Hn', H1, H2, Ha, Hs, <-Hn. by apply Hinv.
  - intros s Hin. unfold accepts. rewrite Ha. by apply Hinv.
  - intros m s Hm. unfold commits. rewrite Hn', H3, Hc, <-Hn. by apply Hinv.
  - intros x. rewrite Hc. intros (Hm & v & Hx)%(pv_values _ _ Hinv). split; [done|]. exists v.
    unfold slot_value. by rewrite Hs.
Qed.

(** A node changes to one of the same identity. *)
Lemma nodes_insert m nd : m ∈ machines → node_ok m nd → ∀ m',
  match <[m := nd]> (w_nodes w) !! m' with Some nd => m' ∈ machines ∧ node_ok m' nd | None => m' ∉ machines end.
Proof.
  intros Hm Hnd m'. rewrite lookup_insert. case_decide; [by subst|]. apply Hinv.
Qed.

Lemma leader_insert w' chosen' m nd' :
  (m = the_leader → instances_ok w' chosen' (leader_ nd')) →
  (m ≠ the_leader → ∀ l, instances_ok w chosen l → instances_ok w' chosen' l) →
  ∀ nd, <[m := nd']> (w_nodes w) !! the_leader = Some nd → instances_ok w' chosen' (leader_ nd).
Proof.
  intros H1 H2 nd. rewrite lookup_insert. destruct (decide (m = the_leader)) as [Hd|Hd].
  - intros Heq. injection Heq as <-. auto.
  - intros Hnd. apply H2; [done|]. by apply Hinv.
Qed.

Lemma propose_ok from m v : m ∈ machines → paxos_inv (propose from m v w) chosen.
Proof.
  intros Hm. set (p := {| p_from := from; p_to := m; p_msg := Request (PaxosPropose v) |}).
  apply (paxos_inv_inert _ (w_net w) [] [p] []); try done.
  - by rewrite app_nil_r.
  - by rewrite Forall_singleton.
  - by rewrite Forall_singleton.
  - apply Hinv.
  - intros nd Hnd. apply (instances_ok_ext w); [done..|by apply Hinv].
Qed.

(** The facts common to every delivery. *)
Lemma delivered_node n1 p n2 nd :
  w_net w = n1 ++ p :: n2 → w_nodes w !! p_to p = Some nd →
  p_to p ∈ machines ∧ node_ok (p_to p) nd ∧ packet_ok w chosen p ∧ Forall (packet_ok w chosen) (n1 ++ n2).
Proof.
  intros Hn Hnd. pose proof (pv_nodes _ _ Hinv (p_to p)) as Hno. rewrite Hnd in Hno. destruct Hno as [Hm Hno].
  pose proof (pv_packets _ _ Hinv) as Hp. rewrite Hn, Forall_app, Forall_cons in Hp.
  split_and!; [done|done|apply Hp|]. rewrite Forall_app. split; apply Hp.
Qed.

(** A proposal is forwarded. *)
Lemma deliver_forward n1 from m v n2 nd :
  m ≠ the_leader →
  let p := {| p_from := from; p_to := m; p_msg := Request (PaxosPropose v) |} in
  w_net w = n1 ++ p :: n2 → w_nodes w !! m = Some nd →
  ∃ nd' outs, on_message nd from (Request (PaxosPropose v)) = Ok (nd', outs) ∧ paxos_inv (after_delivery w n1 n2 p nd' outs) chosen.
Proof.
  intros Hne p Hn Hnd. destruct (delivered_node _ _ _ _ Hn Hnd) as (Hm & Hno & Hp & Hps).
  pose proof Hno as (Hme & Hac & Hmm & Hel & Hle & Hba & Hab). rewrite bool_decide_eq_false_2 in Hel by done.
  unfold on_message, OnInternalRequestReceived, Leader_HandleRequest. rewrite Hel.
  cbn [mbind result_bind]. rewrite Hle. eexists _, _. split; [done|].
  destruct (the_leader_member Hg) as [_ Hl]. destruct (go_sub Hg _ Hl) as [Hl' _].
  assert (Hns : new_started the_leader p = []) by (unfold new_started; simpl; by rewrite decide_False).
  eapply (paxos_inv_inert _ n1 n2 [_] [p]); simpl; rewrite ?Hns, ?app_nil_r; try done.
  - by rewrite Forall_singleton.
  - by rewrite Forall_singleton.
  - by rewrite Forall_singleton.
  - apply nodes_insert; [done|]. by destruct nd.
  - intros nd'. rewrite lookup_insert_ne by done. intros Hnd'. apply (instances_ok_ext w); simpl;
      rewrite ?Hns, ?app_nil_r; [done..|by apply Hinv].
Qed.

(** The elected leader starts an instance: the requests go to the acceptors, in whose
    histories the new slot is the last. *)
Definition accept_requests (n : SlotId) (v : Z) : list packet :=
  (λ a, {| p_from := the_leader; p_to := a; p_msg := Request (PaxosAcceptRequest 0 n v) |}) <$> acceptors.

Section start.
  Context (w' : world) (n1 n2 : list packet) (p : packet) (v : Z) (l : Leader).
Let n := Z.of_nat (length (w_started w)).
  Hypothesis Hn : w_net w = n1 ++ p :: n2.
  Hypothesis Hp : inert p.
  Hypothesis Hn' : w_net w' = n1 ++ n2 ++ accept_requests n v.
  Hypothesis Hst : w_started w' = w_started w ++ [v].
  Hypothesis Hak : w_acks w' = w_acks w.
  Hypothesis Hcom : w_commits w' = w_commits w.

Lemma start_value s x : slot_value w s x → slot_value w' s x.
Proof. intros [Hs Hx]. split; [done|]. rewrite Hst. by apply lookup_app_l_Some. Qed.

Lemma start_value_inv s x : slot_value w' s x → slot_value w s x ∨ s = n.
Proof.
  intros [Hs Hx]. rewrite Hst in Hx. apply lookup_app_Some in Hx as [?|[? Hx]]; [by left; split|].
  apply list_lookup_singleton_Some in Hx as [? _]. right. unfold n. lia.
Qed.

Lemma start_accepts s : accepts w' s = accepts w s.
Proof. unfold accepts. by rewrite Hak. Qed.

Lemma start_no_accepts : accepts w n = 0.
Proof. destruct (accepts w n) eqn:E; [done|]. pose proof (accepts_range n ltac:(lia)). unfold n in *. lia. Qed.

Lemma start_slots a : a ∈ acceptors → same_slots (slots_at w' a) (seqZ 0 (Z.of_nat (length (w_started w')))).
Proof.
  intros Ha. destruct (group_acceptors Hg) as (_ & Hna & _). pose proof (pv_slots _ _ Hinv a Ha) as Hs.
  unfold slots_at in *. rewrite Hn', Hak, Hst, length_app. rewrite Hn in Hs. rewrite !omap_app in *.
  rewrite !omap_cons, inert_req, inert_res in Hs by done.
  rewrite (omap_nil_iff (res_slot a) (accept_requests n v)), app_nil_r
    by (by intros ? (? & -> & _)%list_elem_of_fmap).
  unfold accept_requests. rewrite (omap_fmap_one _ (req_slot a) acceptors a n); [|done|done|..].
  - rewrite (app_assoc (omap (req_slot a) n1)). eapply same_slots_new; [|exact Hs].
    rewrite Nat2Z.inj_add, seqZ_app by lia. done.
  - unfold req_slot. simpl. by rewrite decide_True.
  - intros x _ Hx. unfold req_slot. simpl. by rewrite decide_False.
Qed.

Lemma start_instances nd :
  instances_ok w chosen (leader_ nd) →
  instances_ok w' chosen (set_instances (n + 1) (<[n := {| pi_ballot := 0; pi_value := v; num_accepts := 0;
    num_commits := 0 |}]> (instances_ (leader_ nd))) (leader_ nd)).
Proof.
  intros [H1 H2 H3 H4]. split; simpl.
  - rewrite Hst, length_app. unfold n. simpl. lia.
  - intros s i. rewrite lookup_insert, start_accepts. case_decide as Hd.
    + intros [= <-]. rewrite <-Hd, start_no_accepts. simpl. split_and!; [|done|].
      * split; [unfold n; lia|]. rewrite Hst. unfold n. rewrite Nat2Z.id. by rewrite lookup_app_r, Nat.sub_diag.
      * split; [intros Hc%(pv_chosen _ _ Hinv); by rewrite start_no_accepts in Hc|unfold majority; lia].
    + intros (Hv & ? & ?)%H2. split; [by apply start_value|done].
  - intros s x [Hx| ->]%start_value_inv Hs; rewrite lookup_insert; case_decide; [done| |done|done]. by eapply H3.
  - intros x Hx. rewrite lookup_insert. case_decide; [done|]. apply start_value_inv in Hx as [Hx|]; [|congruence].
    by apply (H4 x).
Qed.

Lemma start_inv nd' :
  w_nodes w' = <[the_leader := nd']> (w_nodes w) → node_ok the_leader nd' → the_leader ∈ machines →
  instances_ok w' chosen (leader_ nd') → paxos_inv w' chosen.
Proof.
  intros Hno Hok Hm Hins. destruct (group_acceptors Hg) as (_ & _ & Hsub & _). split.
  - rewrite Hno. by apply nodes_insert.
  - intros nd2. rewrite Hno, lookup_insert_eq. by intros [= <-].
  - assert (Hk : ∀ q, packet_ok w chosen q → packet_ok w' chosen q).
    { intros q [Hq1 Hq2]. split; [done|]. repeat case_match; try done. naive_solver eauto using start_value. }
    pose proof (pv_packets _ _ Hinv) as Hps. rewrite Hn, Forall_app, Forall_cons in Hps. destruct Hps as (H1 & _ & H2).
    rewrite Hn', !Forall_app. split_and!; [by eapply Forall_impl..|]. apply Forall_fmap, Forall_forall.
    intros a Ha. split; simpl; [|done]. by apply Hsub, (go_sub Hg) in Ha as [].
  - apply start_slots.
  - intros s Hs. rewrite start_accepts. by apply Hinv.
  - intros m s Hmm. rewrite <-(pv_commits _ _ Hinv m s Hmm). unfold commits. rewrite Hcom, Hn, Hn'.
    rewrite !filter_app, filter_cons, decide_False by (by apply inert_commit).
    rewrite (filter_none _ (accept_requests n v)), app_nil_r; [done|]. intros q (a & -> & _)%list_elem_of_fmap.
    unfold is_commit. by intros [].
  - intros x. rewrite Hcom. intros (Hx & y & Hy & ?)%(pv_values _ _ Hinv). split; [done|]. exists y.
    split; [by apply start_value|done].
Qed.
End start.

Lemma sent_to_all (m : MachineId) (f : MachineId → paxos_msg) (l : list MachineId) :
  ((λ a, Sent a (f a)) <$> l) ≫= sent_by m = (λ a, {| p_from := m; p_to := a; p_msg := f a |}) <$> l ∧
  ((λ a, Sent a (f a)) <$> l) ≫= committed_by m = [].
Proof. induction l as [|a l [IH1 IH2]]; [done|]. rewrite !fmap_cons, !bind_cons, IH1, IH2. done. Qed.

Lemma deliver_start n1 from v n2 nd :
  let p := {| p_from := from; p_to := the_leader; p_msg := Request (PaxosPropose v) |} in
  w_net w = n1 ++ p :: n2 → w_nodes w !! the_leader = Some nd →
  (Z.of_nat (length (w_started w)) + 1 < 2 ^ 32)%Z →
  ∃ nd' outs, on_message nd from (Request (PaxosPropose v)) = Ok (nd', outs) ∧
    paxos_inv (after_delivery w n1 n2 p nd' outs) chosen.
Proof.
  intros p Hn Hnd Hlt. destruct (delivered_node _ p _ _ Hn Hnd) as (Hm & Hno & Hp & Hps).
  pose proof Hno as (Hme & Hac & Hmm & Hel & Hle & Hba & Hab). rewrite bool_decide_eq_true_2 in Hel by done.
  pose proof (pv_leader _ _ Hinv nd Hnd) as Hins. pose proof Hins as [H1 H2 _ _].
  set (n := Z.of_nat (length (w_started w))) in *.
  assert (Hnone : instances_ (leader_ nd) !! n = None).
  { apply eq_None_not_Some. intros [i [[_ Hi] _]%H2]. apply lookup_lt_Some in Hi. unfold n in Hi. lia. }
  unfold on_message, OnInternalRequestReceived, Leader_HandleRequest, StartNewInstance.
  rewrite Hel, (Hba eq_refl), H1, Hnone, Hac. cbn [mbind result_bind Acceptor_HandleRequest].
  eexists _, _. split; [done|]. rewrite app_nil_r, u32_small by lia.
  destruct (sent_to_all the_leader (λ _, Request (PaxosAcceptRequest 0 n v)) acceptors) as [Hs1 Hs2].
  match goal with |- paxos_inv ?x _ => set (w' := x) end.
  assert (Hst : w_started w' = w_started w ++ [v]) by (unfold w', after_delivery, new_started; simpl; by rewrite decide_True).
  assert (Hak : w_acks w' = w_acks w) by (unfold w'; simpl; by rewrite app_nil_r).
  eapply (start_inv w' n1 n2 p v); try done.
  - unfold w'. cbn [w_net after_delivery p_to p]. by rewrite Hs1.
  - unfold w'. cbn [w_commits after_delivery p_to p]. by rewrite Hs2, app_nil_r.
  - by apply start_instances.
Qed.

(** An acceptor answers an accept request. *)
Lemma deliver_accept_request n1 a s v b n2 nd :
  let p := {| p_from := the_leader; p_to := a; p_msg := Request (PaxosAcceptRequest b s v) |} in
  w_net w = n1 ++ p :: n2 → (fifo = true → Forall (λ q, ¬ same_link q p) n1) → w_nodes w !! a = Some nd →
  ∃ nd' outs, on_message nd the_leader (p_msg p) = Ok (nd', outs) ∧
    paxos_inv (after_delivery w n1 n2 p nd' outs) chosen.
Proof.
  intros p Hn Hf Hnd. destruct (delivered_node _ p _ _ Hn Hnd) as (Hm & Hno & [_ Hp] & Hps).
  pose proof Hno as (Hme & Hac & Hmm & Hel & Hle & Hba & Hab). destruct Hp as (_ & -> & Hain).
  unfold p, on_message, OnInternalRequestReceived, Leader_HandleRequest, Acceptor_HandleRequest, ProcessAcceptRequest.
  cbn [p_msg mbind result_bind]. rewrite Hab, decide_False by lia. eexists _, _. split; [done|]. fold p.
  set (r := {| p_from := a; p_to := the_leader; p_msg := Response (PaxosAcceptResponse 0 s) |}).
  assert (Hr : packet_ok w chosen r).
  { destruct (the_leader_member Hg) as [_ Hl]. destruct (go_sub Hg _ Hl) as [Hl' _]. by split. }
  match goal with |- paxos_inv ?x _ => set (w' := x) end.
  assert (Hn' : w_net w' = n1 ++ n2 ++ [r]) by done.
  assert (Hst : w_started w' = w_started w) by apply app_nil_r.
  assert (Hak : w_acks w' = w_acks w) by apply app_nil_r.
  assert (Hco : w_commits w' = w_commits w) by apply app_nil_r.
  assert (Hk : ∀ q, packet_ok w chosen q → packet_ok w' chosen q).
  { intros q. unfold packet_ok, slot_value. by rewrite Hst. }
  split.
  - by apply nodes_insert.
  - apply (leader_insert w' chosen a).
    + intros ->. apply (instances_ok_ext w); [done..|exact (pv_leader _ _ Hinv nd Hnd)].
    + intros _ l. by apply instances_ok_ext.
  - rewrite Hn', app_assoc, Forall_app, Forall_singleton. split; [|by apply Hk]. by eapply Forall_impl.
  - intros a' Ha'. pose proof (pv_slots _ _ Hinv a' Ha') as Hs. unfold slots_at in *.
    rewrite Hn', Hak, Hst. rewrite Hn in Hs. rewrite !omap_app in *. rewrite !omap_cons in Hs. rewrite !omap_cons.
    change (req_slot a' r) with (None : option SlotId). change (res_slot a' p) with (None : option SlotId) in Hs.
    cbn [omap list_omap] in Hs |- *.
    unfold req_slot at 2 in Hs. unfold res_slot at 3. cbn [p r p_msg p_to p_from] in Hs |- *.
    destruct (decide (a = a')) as [->|]; [|by rewrite !app_nil_r].
    rewrite app_nil_r, (app_assoc (omap (res_slot a') n1)). apply same_slots_move; [|done].
    intros Hff. apply Forall_app in Hps as [Hps _]. by eapply req_slot_first; [|apply Hf| |].
  - intros s' Hs'. unfold accepts. rewrite Hak. by apply Hinv.
  - intros m s' Hmm'. rewrite <-(pv_commits _ _ Hinv m s' Hmm'). unfold commits. rewrite Hco, Hn, Hn'.
    rewrite !filter_app, !filter_cons. rewrite (decide_False (P := is_commit m s' p)) by (by intros []).
    rewrite (decide_False (P := is_commit m s' r)) by (by intros []). by rewrite app_nil_r.
  - intros x. rewrite Hco. intros (Hx & y & Hy & ?)%(pv_values _ _ Hinv). split; [done|]. exists y.
    unfold slot_value. by rewrite Hst.
Qed.

(** A member reports a commit and answers the leader. *)
Lemma deliver_commit_request n1 m s v l n2 nd :
  let p := {| p_from := the_leader; p_to := m; p_msg := Request (PaxosCommitRequest s v l) |} in
  w_net w = n1 ++ p :: n2 → w_nodes w !! m = Some nd →
  ∃ nd' outs, on_message nd the_leader (p_msg p) = Ok (nd', outs) ∧
    paxos_inv (after_delivery w n1 n2 p nd' outs) chosen.
Proof.
  intros p Hn Hnd. destruct (delivered_node _ p _ _ Hn Hnd) as (Hm & Hno & [_ Hp] & Hps).
  pose proof Hno as (Hme & Hac & Hmm & Hel & Hle & Hba & Hab). destruct Hp as (_ & Hmin & -> & Hsv & Hch).
  cbn [p p_msg on_message]. unfold OnInternalRequestReceived, Leader_HandleRequest, Leader_ProcessCommitRequest.
  cbn [mbind result_bind Acceptor_HandleRequest ProcessCommitRequest]. eexists _, _. split; [done|]. fold p.
  destruct (leader_roundtrip Hg) as [_ ->].
  set (r := {| p_from := m; p_to := the_leader; p_msg := Response (PaxosCommitResponse s) |}).
  assert (Hr : packet_ok w chosen r).
  { destruct (the_leader_member Hg) as [_ Hl]. destruct (go_sub Hg _ Hl) as [Hl' _]. by split. }
  match goal with |- paxos_inv ?x _ => set (w' := x) end.
  assert (Hn' : w_net w' = n1 ++ n2 ++ [r]) by done.
  assert (Hst : w_started w' = w_started w) by apply app_nil_r.
  assert (Hak : w_acks w' = w_acks w) by apply app_nil_r.
  assert (Hco : w_commits w' = w_commits w ++ [(m, (s, u32 v, the_leader))]) by done.
  assert (Hk : ∀ q, packet_ok w chosen q → packet_ok w' chosen q).
  { intros q. unfold packet_ok, slot_value. by rewrite Hst. }
  split.
  - apply nodes_insert; [done|]. unfold node_ok. simpl. by destruct (decide (next_empty_slot_ (leader_ nd) ≤ s)%Z).
  - apply (leader_insert w' chosen m).
    + intros ->. apply (instances_ok_ext w); [done..|]. pose proof (pv_leader _ _ Hinv nd Hnd) as Hi. simpl.
      rewrite decide_False; [done|]. rewrite (io_next _ _ _ Hi). destruct Hsv as [? Hsv%lookup_lt_Some]. lia.
    + intros _ l. by apply instances_ok_ext.
  - rewrite Hn', app_assoc, Forall_app, Forall_singleton. split; [|by apply Hk]. by eapply Forall_impl.
  - intros a Ha. pose proof (pv_slots _ _ Hinv a Ha) as Hs. unfold slots_at in *.
    rewrite Hn', Hak, Hst. rewrite Hn in Hs. rewrite !omap_app in *. rewrite !omap_cons in Hs. rewrite !omap_cons.
    cbn [req_slot res_slot p r p_msg omap list_omap] in Hs |- *. by rewrite !app_nil_r.
  - intros s' Hs'. unfold accepts. rewrite Hak. by apply Hinv.
  - intros m' s' Hmm'. rewrite <-(pv_commits _ _ Hinv m' s' Hmm'). unfold commits. rewrite Hco, Hn, Hn'.
    rewrite !filter_app, !filter_cons, !length_app. rewrite (decide_False (P := is_commit m' s' r)) by (by intros []).
    unfold is_commit at 5. cbn [p p_msg p_to fst snd].
    destruct (decide (m = m' ∧ s = s')); simpl; lia.
  - intros x. rewrite Hco, elem_of_app, list_elem_of_singleton. intros [(Hx & y & Hy & ?)%(pv_values _ _ Hinv)| ->].
    + split; [done|]. exists y. unfold slot_value. by rewrite Hst.
    + split; [done|]. exists v. unfold slot_value. by rewrite Hst.
Qed.

(** The leader learns that an acceptor accepted. *)
Section ack.
  Context (w' : world) (n1 n2 : list packet) (a : MachineId) (s b : Z).
Let p := {| p_from := a; p_to := the_leader; p_msg := Response (PaxosAcceptResponse b s) |}.
Definition commit_requests (v : Z) : list packet :=
    (λ m, {| p_from := the_leader; p_to := m; p_msg := Request (PaxosCommitRequest s v the_leader) |}) <$> members.
  Hypothesis Ha : a ∈ acceptors.
  Hypothesis Hn : w_net w = n1 ++ p :: n2.
  Hypothesis Hak : w_acks w' = w_acks w ++ [(a, s)].

Lemma ack_new : (a, s) ∉ w_acks w ∧ (0 ≤ s < Z.of_nat (length (w_started w)))%Z.
Proof.
  pose proof (slots_at_perm a Ha) as Hs. unfold slots_at in Hs. rewrite Hn, !omap_app, !omap_cons in Hs.
  unfold res_slot at 2 in Hs. cbn [p p_msg p_from] in Hs. rewrite decide_True in Hs by done.
  assert (Hin : s ∈ omap (res_slot a) n1 ++ s :: omap (res_slot a) n2).
  { apply elem_of_app. right. left. }
  split.
  - intros Hack. assert (NoDup (seqZ 0 (Z.of_nat (length (w_started w))))) as Hnd by apply NoDup_seqZ.
    rewrite <-Hs in Hnd. apply NoDup_app in Hnd as (_ & Hd & _). apply (Hd s).
    + apply list_elem_of_omap. exists (a, s). split; [done|]. unfold acked_slot. by rewrite decide_True.
    + apply elem_of_app. by left.
  - assert (s ∈ seqZ 0 (Z.of_nat (length (w_started w)))) as Hr; [|apply elem_of_seqZ in Hr; lia].
    rewrite <-Hs. apply elem_of_app. right. apply elem_of_app. by left.
Qed.

Lemma ack_accepts : accepts w' s = S (accepts w s) ∧ ∀ s', s' ≠ s → accepts w' s' = accepts w s'.
Proof.
  destruct ack_new as [Hnew _]. destruct (group_acceptors Hg) as (_ & Hna & _). unfold accepts. rewrite Hak. split.
  - apply (length_filter_drop_one _ _ _ a); [done|done|set_solver|]. intros x.
    rewrite elem_of_app, list_elem_of_singleton. split; [|naive_solver]. intros Hx. split; [by left|]. by intros ->.
  - intros s' Hne. f_equal. apply filter_ext_in. intros x _. rewrite elem_of_app, list_elem_of_singleton. naive_solver.
Qed.

Lemma ack_accepts_mono s' : accepts w s' ≤ accepts w' s'.
Proof. destruct ack_accepts as [H1 H2]. destruct (decide (s' = s)) as [->|]; [lia|]. by rewrite H2. Qed.

  Context (extra : list packet) (chosen' : list SlotId).
  Hypothesis Hf : fifo = true → Forall (λ q, ¬ same_link q p) n1.
  Hypothesis Hn' : w_net w' = n1 ++ n2 ++ extra.
  Hypothesis Hst : w_started w' = w_started w.
  Hypothesis Hcom : w_commits w' = w_commits w.
  (** either the last missing response arrived or nothing is sent *)
  Hypothesis Hextra :
    (chosen' = chosen ∧ extra = []) ∨
    (chosen' = s :: chosen ∧ s ∉ chosen ∧ majority = S (accepts w s) ∧
     ∃ v, slot_value w s v ∧ extra = commit_requests v).

Lemma ack_slots a' : a' ∈ acceptors → same_slots (slots_at w' a') (seqZ 0 (Z.of_nat (length (w_started w')))).
Proof.
  intros Ha'. pose proof (pv_slots _ _ Hinv a' Ha') as Hs. pose proof (pv_packets _ _ Hinv) as Hps.
  rewrite Hn, Forall_app in Hps. destruct Hps as [Hps _]. unfold slots_at in *. rewrite Hn', Hak, Hst.
  rewrite Hn in Hs. rewrite !omap_app in *. rewrite !omap_cons in Hs.
  assert (∀ f, f = req_slot a' ∨ f = res_slot a' → omap f extra = []) as He.
  { intros f Hff. apply omap_nil_iff. intros q Hq. destruct Hextra as [[_ ->]|(_ & _ & _ & v & _ & ->)];
      [by apply not_elem_of_nil in Hq|]. apply list_elem_of_fmap in Hq as (m & -> & _). by destruct Hff as [-> | ->]. }
  rewrite !He, !app_nil_r by auto. change (req_slot a' p) with (None : option SlotId) in Hs. cbn [omap list_omap] in *.
  unfold res_slot at 2 in Hs. cbn [p p_msg p_from] in Hs. unfold acked_slot at 2. cbn [fst snd].
  destruct (decide (a = a')) as [<-|]; [|by rewrite app_nil_r]. apply same_slots_ack; [|done].
  intros Hff. by eapply res_slot_first; [|apply Hf| |].
Qed.

Lemma ack_chosen s' : s' ∈ chosen' → majority ≤ accepts w' s'.
Proof.
  intros Hs'. destruct ack_accepts as [H1 H2].
  assert (s' ∈ chosen ∨ s' = s ∧ majority = S (accepts w s)) as [Hc|[-> ->]].
  { destruct Hextra as [[-> _]|(-> & _ & ? & _)]; [by left|]. apply elem_of_cons in Hs' as [->|]; auto. }
  - etrans; [by apply Hinv|apply ack_accepts_mono].
  - lia.
Qed.

Lemma ack_commits m s' : m ∈ members → commits w' m s' = if decide (s' ∈ chosen') then 1 else 0.
Proof.
  intros Hm. pose proof (pv_commits _ _ Hinv m s' Hm) as Hc. unfold commits in *. rewrite Hn', Hcom. rewrite Hn in Hc.
  rewrite !filter_app, filter_cons, !length_app in *. rewrite (decide_False (P := is_commit m s' p)) in Hc by (by intros []).
  destruct Hextra as [[-> ->]|(-> & Hs & _ & v & _ & ->)]; [simpl; lia|].
  assert (length (filter (is_commit m s') (commit_requests v)) = if decide (s' = s) then 1 else 0) as Hl.
  { unfold commit_requests. destruct (decide (s' = s)) as [->|].
    - pose proof (go_nodup Hg) as Hnd. clear -Hm Hnd. induction Hnd as [|x l Hx Hnd IH]; [by apply not_elem_of_nil in Hm|].
      rewrite fmap_cons, filter_cons. unfold is_commit at 1. cbn [p_msg p_to]. destruct (decide (x = m ∧ s = s)) as [[-> _]|Hd].
      + simpl. rewrite filter_none; [done|]. intros q (y & -> & Hy)%list_elem_of_fmap Hq. cbn in Hq. destruct Hq as [-> _]. done.
      + apply IH. apply elem_of_cons in Hm as [->|]; [|done]. by destruct Hd.
    - rewrite filter_none; [done|]. intros q (y & -> & Hy)%list_elem_of_fmap Hq. cbn in Hq. destruct Hq. congruence. }
  rewrite Hl. destruct (decide (s' = s)) as [->|].
  - rewrite decide_False in Hc by done. rewrite decide_True by left. lia.
  - rewrite (decide_ext (s' ∈ s :: chosen) (s' ∈ chosen)); [lia|]. rewrite elem_of_cons. naive_solver.
Qed.

Lemma ack_inv nd' :
  w_nodes w' = <[the_leader := nd']> (w_nodes w) → node_ok the_leader nd' → the_leader ∈ machines →
  instances_ok w' chosen' (leader_ nd') → paxos_inv w' chosen'.
Proof.
  intros Hno Hok Hm Hins. split.
  - rewrite Hno. by apply nodes_insert.
  - intros nd2. rewrite Hno, lookup_insert_eq. intros Heq. by injection Heq as <-.
  - assert (Hk : ∀ q, packet_ok w chosen q → packet_ok w' chosen' q).
    { intros q [Hq1 Hq2]. split; [done|]. unfold slot_value. rewrite Hst.
      assert (∀ x, x ∈ chosen → x ∈ chosen'). { destruct Hextra as [[-> _]|(-> & _)]; [done|by right]. }
      repeat case_match; naive_solver. }
    pose proof (pv_packets _ _ Hinv) as Hps. rewrite Hn, Forall_app, Forall_cons in Hps. destruct Hps as (H1 & _ & H2).
    rewrite Hn', !Forall_app. split_and!; [by eapply Forall_impl..|].
    destruct Hextra as [[_ ->]|(-> & _ & _ & v & Hv & ->)]; [done|]. apply Forall_fmap, Forall_forall.
    intros m Hmm. destruct (go_sub Hg m Hmm) as [Hmm' _]. split; simpl; [done|]. unfold slot_value. rewrite Hst.
    destruct Hv as [Hv1 Hv2]. split_and!; try done. left.
  - apply ack_slots.
  - apply ack_chosen.
  - apply ack_commits.
  - intros x. rewrite Hcom. intros (Hx & y & Hy & ?)%(pv_values _ _ Hinv). split; [done|]. exists y.
    unfold slot_value. by rewrite Hst.
Qed.

Lemma ack_instances l i :
  instances_ok w chosen l → instances_ l !! s = Some i →
  (s ∈ chosen' ↔ majority ≤ S (accepts w s)) →
  instances_ok w' chosen' (set_instances (next_empty_slot_ l) (<[s := {| pi_ballot := pi_ballot i;
    pi_value := pi_value i; num_accepts := num_accepts i + 1; num_commits := num_commits i |}]> (instances_ l)) l).
Proof.
  intros [H1 H2 H3 H4] Hi Hiff. destruct ack_accepts as [Hac1 Hac2]. split; simpl; unfold slot_value; rewrite ?Hst.
  - done.
  - intros s' i'. rewrite lookup_insert. case_decide as Hd.
    + intros Heq. injection Heq as <-. subst s'. destruct (H2 _ _ Hi) as ([Hv1 Hv2] & Hna & _). simpl.
      rewrite Hac1. split_and!; [done|done|lia|..]; apply Hiff.
    + intros Hi'. destruct (H2 _ _ Hi') as (Hv & Hna & Hc). rewrite Hac2 by done. split; [done|]. split; [done|].
      destruct Hextra as [[-> _]|(-> & _)]; [done|]. rewrite <-Hc, elem_of_cons. naive_solver.
  - intros s' v Hv Hne. rewrite lookup_insert. case_decide; [done|]. by eapply H3.
  - intros v Hv. rewrite lookup_insert. case_decide; [done|]. intros Hnone Hff. specialize (H4 v Hv Hnone Hff).
    destruct Hextra as [[-> _]|(-> & _)]; [done|by right].
Qed.
End ack.

Lemma majority_Z : Z.of_nat majority = (Z.of_nat (length acceptors) `div` 2 + 1)%Z.
Proof. unfold majority. rewrite Nat2Z.inj_add, Nat2Z.inj_div. done. Qed.

Lemma deliver_accept_response n1 a b s n2 nd :
  let p := {| p_from := a; p_to := the_leader; p_msg := Response (PaxosAcceptResponse b s) |} in
  w_net w = n1 ++ p :: n2 → (fifo = true → Forall (λ q, ¬ same_link q p) n1) → w_nodes w !! the_leader = Some nd →
  ∃ nd' outs chosen', on_message nd a (p_msg p) = Ok (nd', outs) ∧
    paxos_inv (after_delivery w n1 n2 p nd' outs) chosen'.
Proof.
  intros p Hn Hf Hnd. destruct (delivered_node _ p _ _ Hn Hnd) as (Hm & Hno & [_ [_ Ha]] & Hps).
  pose proof Hno as (Hme & Hac & Hmm & Hel & Hle & Hba & Hab). pose proof (pv_leader _ _ Hinv nd Hnd) as Hi.
  cbn [p p_msg p_from p_to on_message] in *. unfold OnInternalResponseReceived, Leader_HandleResponse.
  destruct (instances_ (leader_ nd) !! s) as [i|] eqn:Hs; cycle 1.
  { eexists _, _, chosen. split; [done|].
    match goal with |- paxos_inv ?x _ => set (w' := x) end.
    assert (Hst : w_started w' = w_started w) by apply app_nil_r.
    eapply (ack_inv w' n1 n2 a s b Ha Hn eq_refl [] chosen); try done; [by apply app_nil_r|by left|].
    destruct (ack_new n1 n2 a s b Ha Hn) as [_ Hrange]. destruct Hi as [H1 H2 H3 H4].
    destruct (ack_accepts w' n1 n2 a s b Ha Hn eq_refl) as [_ Hac2].
    assert (Hs0 : s = 0%Z). { destruct (decide (s = 0%Z)); [done|]. destruct (lookup_lt_is_Some_2 (w_started w) (Z.to_nat s)) as [v Hv]; [lia|].
      destruct (H3 s v) as [i Hii]; [split; [lia|done]|done|congruence]. }
    split; cbn [leader_]; unfold slot_value; rewrite ?Hst; try done. intros s' i' Hi'. rewrite Hac2; [by apply H2|]. congruence. }
  destruct (io_value _ _ _ Hi s i Hs) as (Hv & Hna & Hc). rewrite Hac, Hme, Hmm, <-majority_Z.
  cbn [num_accepts pi_value]. destruct (leader_roundtrip Hg) as [-> _].
  set (full := decide _). eexists _, _, (if full then s :: chosen else chosen). split; [done|].
  match goal with |- paxos_inv ?x _ => set (w' := x) end.
  assert (Hst : w_started w' = w_started w) by apply app_nil_r.
  destruct (sent_to_all the_leader (λ _, Request (PaxosCommitRequest s (pi_value i) the_leader)) members) as [Hs1 Hs2].
  assert (Hextra : ((if full then s :: chosen else chosen) = chosen ∧ (if full then commit_requests s (pi_value i) else []) = []) ∨
     ((if full then s :: chosen else chosen) = s :: chosen ∧ s ∉ chosen ∧ majority = S (accepts w s) ∧
     ∃ v, slot_value w s v ∧ (if full then commit_requests s (pi_value i) else []) = commit_requests s v)).
  { destruct full as [Hd|]; [right|by left]. split_and!; [done|rewrite Hc; lia|lia|]. by exists (pi_value i). }
  assert (Hnet : w_net w' = n1 ++ n2 ++ (if full then commit_requests s (pi_value i) else [])).
  { unfold w'. cbn [w_net after_delivery p_to p]. destruct full; [by rewrite Hs1|done]. }
  assert (Hcom : w_commits w' = w_commits w).
  { unfold w'. cbn [w_commits after_delivery p_to p]. destruct full; [by rewrite Hs2, app_nil_r|apply app_nil_r]. }
  eapply ack_inv with (extra := if full then commit_requests s (pi_value i) else []); try done.
  eapply ack_instances with (extra := if full then commit_requests s (pi_value i) else []); try done. destruct full.
  - split; [lia|]. intros. left.
  - rewrite Hc. lia.
Qed.

(** On links that keep their order no slot is accepted before an earlier one. *)
Lemma accepts_first s : fifo = true → (0 ≤ s)%Z → accepts w s ≤ accepts w 0.
Proof.
  intros Hf Hs. unfold accepts. apply submseteq_length, sublist_submseteq.
  assert (∀ l, (∀ a, a ∈ l → a ∈ acceptors) →
    filter (λ a, (a, s) ∈ w_acks w) l `sublist_of` filter (λ a, (a, 0%Z) ∈ w_acks w) l) as Hsub.
  { induction l as [|a l IH]; intros Hl; [done|]. rewrite !filter_cons.
    assert (IH' := IH (λ x Hx, Hl x (list_elem_of_further _ _ _ Hx))).
    destruct (decide ((a, s) ∈ w_acks w)) as [Hin|].
    - rewrite decide_True; [by apply sublist_skip|].
      pose proof (pv_slots _ _ Hinv a (Hl a (list_elem_of_here _ _))) as Ha. unfold same_slots, slots_at in Ha. rewrite Hf in Ha.
      assert (s ∈ omap (acked_slot a) (w_acks w)) as Hsin.
      { apply list_elem_of_omap. exists (a, s). split; [done|]. unfold acked_slot. by rewrite decide_True. }
      destruct (omap (acked_slot a) (w_acks w)) as [|x xs] eqn:E; [by apply not_elem_of_nil in Hsin|].
      assert (x = 0%Z) as ->.
      { destruct (length (w_started w)) as [|k]; [done|]. rewrite seqZ_cons in Ha by lia. by injection Ha. }
      assert (0%Z ∈ omap (acked_slot a) (w_acks w)) as H0 by (rewrite E; left).
      apply list_elem_of_omap in H0 as ([a0 s0] & H0 & Heq). unfold acked_slot in Heq. case_decide; simplify_eq/=. done.
    - case_decide; [by apply sublist_cons|done]. }
  by apply Hsub.
Qed.

(** A commit response only touches the instance of slot 0. *)
Lemma deliver_commit_response n1 from s n2 nd :
  let p := {| p_from := from; p_to := the_leader; p_msg := Response (PaxosCommitResponse s) |} in
  w_net w = n1 ++ p :: n2 → w_nodes w !! the_leader = Some nd →
  ∃ nd' outs, on_message nd from (p_msg p) = Ok (nd', outs) ∧ paxos_inv (after_delivery w n1 n2 p nd' outs) chosen.
Proof.
  intros p Hn Hnd. destruct (delivered_node _ p _ _ Hn Hnd) as (Hm & Hno & [_ [_ Hs]] & Hps).
  pose proof (pv_leader _ _ Hinv nd Hnd) as Hi. pose proof Hi as [H1 H2 H3 H4].
  cbn [p p_msg p_from p_to on_message] in *. unfold OnInternalResponseReceived, Leader_HandleResponse.
  assert (Hgoal : ∀ l, instances_ok w chosen l → node_ok the_leader {| leader_ := l; acceptor_ := acceptor_ nd |} →
    paxos_inv (after_delivery w n1 n2 p {| leader_ := l; acceptor_ := acceptor_ nd |} []) chosen).
  { intros l Hl Hok. apply (paxos_inv_inert _ n1 n2 [] [p]); simpl; rewrite ?app_nil_r; try done.
    - by rewrite Forall_singleton.
    - by apply nodes_insert.
    - intros nd2. rewrite lookup_insert_eq. intros Heq. injection Heq as <-.
      by apply (instances_ok_ext w); simpl; rewrite ?app_nil_r. }
  destruct (instances_ (leader_ nd) !! 0%Z) as [i|] eqn:H0; cbn [num_commits].
  2:{ eexists _, _. split; [done|]. apply Hgoal; [done|]. by destruct nd. }
  eexists _, _. split; [done|]. apply Hgoal; [|by destruct Hno]. destruct (H2 _ _ H0) as (Hv & Hna & Hc).
  case_decide as Hd; split; simpl; try done.
  - intros s' i' Hi'. apply lookup_delete_Some in Hi' as [_ Hi']. by apply H2.
  - intros s' v Hv' Hne. rewrite lookup_delete_ne by done. by eapply H3.
  - intros v _ _ Hf. apply Hc. etrans; [exact (pv_chosen _ _ Hinv s Hs)|]. apply accepts_first; [done|].
    by apply chosen_range in Hs as [].
  - intros s' i'. rewrite lookup_insert. case_decide; [|by apply H2]. intros Heq. injection Heq as <-. by subst s'.
  - intros s' v Hv' Hne. rewrite lookup_insert_ne by done. by eapply H3.
  - intros v _. by rewrite lookup_insert_eq.
Qed.
End invariant.

(** ** Every reachable world is described by the invariant *)

Lemma deliver_ok w chosen n1 p n2 :
  group_ok → paxos_inv w chosen → w_net w = n1 ++ p :: n2 →
  (fifo = true → Forall (λ q, ¬ same_link q p) n1) →
  (Z.of_nat (length (w_started w ++ new_started the_leader p)) < 2 ^ 32)%Z →
  ∃ nd nd' outs chosen', w_nodes w !! p_to p = Some nd ∧ on_message nd (p_from p) (p_msg p) = Ok (nd', outs) ∧
    paxos_inv (after_delivery w n1 n2 p nd' outs) chosen'.
Proof.
  intros Hg Hinv Hn Hf Hlt. pose proof (pv_packets _ _ Hinv) as Hps. rewrite Hn, Forall_app, Forall_cons in Hps.
  destruct Hps as (_ & Hp & _). pose proof Hp as [Hto Hp']. pose proof (pv_nodes _ _ Hinv (p_to p)) as Hnd.
  destruct (w_nodes w !! p_to p) as [nd|] eqn:E; [|done]. exists nd. clear Hnd.
  destruct p as [from to msg]; cbn [p_from p_to p_msg] in *. destruct msg as [[v|b s v|s v l]|[b s|s]].
  - destruct (decide (to = the_leader)) as [->|Hne].
    + destruct (deliver_start w chosen Hg Hinv n1 from v n2 nd Hn E) as (nd' & outs & ? & ?); [|by exists nd', outs, chosen].
      unfold new_started in Hlt. simpl in Hlt. rewrite decide_True, length_app in Hlt by done. simpl in Hlt. lia.
    + destruct (deliver_forward w chosen Hg Hinv n1 from to v n2 nd Hne Hn E) as (nd' & outs & ? & ?). by exists nd', outs, chosen.
  - destruct Hp' as (-> & -> & _).
    destruct (deliver_accept_request w chosen Hg Hinv n1 to s v 0 n2 nd Hn Hf E) as (nd' & outs & ? & ?). by exists nd', outs, chosen.
  - destruct Hp' as (-> & _).
    destruct (deliver_commit_request w chosen Hg Hinv n1 to s v l n2 nd Hn E) as (nd' & outs & ? & ?). by exists nd', outs, chosen.
  - destruct Hp' as (-> & _).
    destruct (deliver_accept_response w chosen Hg Hinv n1 from b s n2 nd Hn Hf E) as (nd' & outs & chosen' & ? & ?).
    by exists nd', outs, chosen'.
  - destruct Hp' as (-> & _).
    destruct (deliver_commit_response w chosen Hinv n1 from s n2 nd Hn E) as (nd' & outs & ? & ?). by exists nd', outs, chosen.
Qed.

Lemma initial_inv w : group_ok → initial w → paxos_inv w [].
Proof.
  intros Hg (Hno & Hn & Hc & Hs & Ha). split.
  - intros m. specialize (Hno m). destruct (w_nodes w !! m) as [nd|]; [|done]. destruct Hno as [? Hnd]. split; [done|].
    destruct (MakePaxos_ok m Hg) as (nd' & Hnd' & Hok & _). congruence.
  - intros nd Hnd. specialize (Hno the_leader). rewrite Hnd in Hno. destruct Hno as [_ Hno].
    destruct (MakePaxos_ok the_leader Hg) as (nd' & Hnd' & Hok & Hnx & Hem). assert (nd' = nd) as -> by congruence.
    split; unfold slot_value; rewrite ?Hs, ?Hem.
    + done.
    + intros s i. by rewrite lookup_empty.
    + intros s v [_ Hv]. by rewrite lookup_nil in Hv.
    + intros v [_ Hv]. by rewrite lookup_nil in Hv.
  - by rewrite Hn.
  - intros a _. unfold slots_at, same_slots. rewrite Hn, Hs, Ha. by destruct fifo.
  - by intros s ?%not_elem_of_nil.
  - intros m s _. unfold commits. by rewrite Hn, Hc.
  - rewrite Hc. by intros x ?%not_elem_of_nil.
Qed.

Lemma reachable_inv w :
  group_ok → reachable w → (Z.of_nat (length (w_started w)) < 2 ^ 32)%Z → ∃ chosen, paxos_inv w chosen.
Proof.
  intros Hg (w0 & H0 & Hr). revert w Hr. refine (rtc_ind_r _ w0 _ _).
  - intros _. exists []. by apply initial_inv.
  - intros w w' _ Hstep IH Hlt. destruct Hstep as [w from m v Hm|w w' Hd].
    + destruct (IH Hlt) as [chosen Hinv]. exists chosen. by apply propose_ok.
    + destruct Hd as [w n1 p n2 nd nd' outs Hn Hf Hnd Hmsg]. simpl in Hlt.
      destruct IH as [chosen Hinv]; [rewrite length_app in Hlt; lia|].
      destruct (deliver_ok w chosen n1 p n2 Hg Hinv Hn Hf Hlt) as (nd2 & nd2' & outs' & chosen' & H1 & H2 & H3).
      exists chosen'. congruence.
Qed.

(** ** Deliveries end *)

(** How many deliveries a message can cause. *)
Definition weight (p : packet) : nat :=
  let k := length members in
  match p_msg p with
  | Request (PaxosPropose _) =>
    length acceptors * (2 * k + 2) + (if decide (p_to p = the_leader) then 1 else 2)
  | Request (PaxosAcceptRequest _ _ _) => 2 * k + 2
  | Request (PaxosCommitRequest _ _ _) => 2
  | Response (PaxosAcceptResponse _ _) => 2 * k + 1
  | Response (PaxosCommitResponse _) => 1
  end.

Definition net_weight (net : list packet) : nat := sum_list_with weight net.

Lemma net_weight_all m (f : MachineId → paxos_msg) (l : list MachineId) c :
  (∀ a, weight {| p_from := m; p_to := a; p_msg := f a |} = c) →
  net_weight (((λ a, Sent a (f a)) <$> l) ≫= sent_by m) = length l * c.
Proof.
  intros Hc. destruct (sent_to_all m f l) as [-> _]. unfold net_weight.
  induction l as [|a l IH]; [done|]. rewrite fmap_cons. simpl. rewrite IH, Hc. done.
Qed.

Lemma on_message_weight m nd p nd' outs :
  node_ok m nd → p_to p = m → on_message nd (p_from p) (p_msg p) = Ok (nd', outs) →
  net_weight (outs ≫= sent_by m) < weight p.
Proof.
  intros (Hme & Hac & Hmm & Hel & Hle & Hba & Hab) Hto. unfold weight. rewrite Hto.
  destruct (p_msg p) as [[v|b s v|s v l]|[b s|s]]; unfold on_message, OnInternalRequestReceived; simpl.
  - rewrite Hel. destruct (decide (m = the_leader)) as [->|Hne].
    + rewrite bool_decide_eq_true_2 by done. unfold StartNewInstance. rewrite Hba by done. simpl.
      intros Heq; simplify_eq/=. rewrite Hac, app_nil_r, (net_weight_all _ _ _ (2 * length members + 2)) by done. lia.
    + rewrite bool_decide_eq_false_2 by done. simpl. intros Heq; simplify_eq/=. rewrite Hle. simpl.
      unfold net_weight, weight. simpl. rewrite decide_True by done. lia.
  - unfold ProcessAcceptRequest. destruct (decide (b < a_ballot_ (acceptor_ nd))%Z); intros Heq; simplify_eq/=; unfold net_weight, weight; simpl; lia.
  - intros Heq; simplify_eq/=. unfold net_weight, weight. simpl. lia.
  - unfold OnInternalResponseReceived, Leader_HandleResponse. destruct (instances_ (leader_ nd) !! s) as [i|]; intros Heq; simplify_eq/=; [|unfold net_weight; simpl; lia].
    rewrite Hme. match goal with |- context [decide ?P] => destruct (decide P) end; [|unfold net_weight; simpl; lia]. rewrite (net_weight_all _ _ _ 2) by done. lia.
  - unfold OnInternalResponseReceived, Leader_HandleResponse. destruct (instances_ (leader_ nd) !! 0%Z) as [i|]; intros Heq; simplify_eq/=; unfold net_weight; simpl; lia.
Qed.

Lemma deliver_weight w w' chosen :
  paxos_inv w chosen → deliver w w' → net_weight (w_net w') < net_weight (w_net w).
Proof.
  intros Hinv Hd. revert Hinv. destruct Hd as [w n1 p n2 nd nd' outs Hn Hf Hnd Hmsg]. intros Hinv. pose proof (pv_nodes _ _ Hinv (p_to p)) as Hno.
  rewrite Hnd in Hno. destruct Hno as [_ Hno]. pose proof (on_message_weight _ _ _ _ _ Hno eq_refl Hmsg) as Hw.
  unfold net_weight in *. simpl. rewrite Hn, !sum_list_with_app. simpl. lia.
Qed.

Lemma deliver_started w w' : deliver w w' → length (w_started w) ≤ length (w_started w').
Proof. intros []. simpl. rewrite length_app. lia. Qed.

Lemma deliver_reachable w w' : reachable w → deliver w w' → reachable w'.
Proof. intros (w0 & H0 & Hr) Hd. exists w0. split; [done|]. eapply rtc_r; [done|by constructor]. Qed.

Lemma nsteps_started n w w' : nsteps deliver n w w' → length (w_started w) ≤ length (w_started w').
Proof. induction 1 as [|n w1 w2 w3 Hd _ IH]; [done|]. apply deliver_started in Hd. lia. Qed.

(** ** Agreement *)

(** C7. Paxos safety, on a network that may or may not reorder messages. When members of a
    group report commits, reports of the same slot carry the same value and leader; no
    member reports a slot twice; the value is the one with which the elected leader
    started the slot (cut to the 32 bits of the callback), and a majority of the acceptors
    had accepted it. (Slot numbers have 32 bits, so fewer instances may be started.) *)
Theorem paxos_agreement w :
  group_ok → reachable w → (Z.of_nat (length (w_started w)) < 2 ^ 32)%Z →
  (∀ x y, x ∈ w_commits w → y ∈ w_commits w → x.2.1.1 = y.2.1.1 → x.2 = y.2) ∧
  (∀ m s, length (filter (λ x, x.1 = m ∧ x.2.1.1 = s) (w_commits w)) ≤ 1) ∧
  (∀ m s v l, (m, (s, v, l)) ∈ w_commits w →
    m ∈ members ∧ l = the_leader ∧ (∃ v', w_started w !! Z.to_nat s = Some v' ∧ v = u32 v') ∧
    ∃ q, NoDup q ∧ length acceptors < 2 * length q ∧ ∀ a, a ∈ q → a ∈ acceptors ∧ (a, s) ∈ w_acks w).
Proof.
  intros Hg Hr Hlt. destruct (reachable_inv w Hg Hr Hlt) as [chosen Hinv].
  assert (Hm : ∀ m s, (∃ x, x ∈ w_commits w ∧ x.1 = m ∧ x.2.1.1 = s) → s ∈ chosen ∧
    length (filter (λ x, x.1 = m ∧ x.2.1.1 = s) (w_commits w)) ≤ 1).
  { intros m s (x & Hx & <- & <-). destruct (pv_values _ _ Hinv x Hx) as [Hm _].
    pose proof (pv_commits _ _ Hinv x.1 x.2.1.1 Hm) as Hc. unfold commits in Hc.
    assert (0 < length (filter (λ y, y.1 = x.1 ∧ y.2.1.1 = x.2.1.1) (w_commits w))) as Hpos.
    { destruct (filter _ (w_commits w)) eqn:E; [|simpl; lia].
      apply (filter_nil_not_elem_of _ _ x) in E; [done|done]. }
    case_decide; [split; [done|lia]|lia]. }
  split_and!.
  - intros [m1 [[s1 v1] l1]] [m2 [[s2 v2] l2]] H1 H2 Heq. simpl in *. subst.
    destruct (pv_values _ _ Hinv _ H1) as (_ & v1' & [_ Hs1] & E1 & E1'), (pv_values _ _ Hinv _ H2) as (_ & v2' & [_ Hs2] & E2 & E2').
    simpl in *. congruence.
  - intros m s. destruct (filter _ (w_commits w)) as [|x l] eqn:E; [simpl; lia|]. rewrite <-E. apply Hm.
    assert (x ∈ filter (λ x, x.1 = m ∧ x.2.1.1 = s) (w_commits w)) as Hx by (rewrite E; left).
    apply list_elem_of_filter in Hx as [[? ?] ?]. by exists x.
  - intros m s v l Hx. destruct (pv_values _ _ Hinv _ Hx) as (Hmm & v' & [_ Hs] & E1 & E2). simpl in *.
    split_and!; [done|done|by exists v'|]. destruct (Hm m s) as [Hch _]; [by exists (m, (s, v, l))|].
    apply (pv_chosen _ _ Hinv) in Hch. destruct (group_acceptors Hg) as (_ & Hnd & _).
    exists (filter (λ a, (a, s) ∈ w_acks w) acceptors). split_and!.
    + by apply NoDup_filter.
    + unfold accepts in Hch. unfold majority in Hch. pose proof (Nat.div_mod_eq (length acceptors) 2).
      pose proof (Nat.mod_upper_bound (length acceptors) 2). lia.
    + intros a [? ?]%list_elem_of_filter. done.
Qed.

(** C9. Deliveries end: however messages are delivered, their number is bounded by the
    weight of the messages in the network, and as long as a message is left some node can
    handle one without failing. *)
Theorem paxos_terminates w n w' :
  group_ok → reachable w → nsteps deliver n w w' → (Z.of_nat (length (w_started w')) + 1 < 2 ^ 32)%Z →
  n + net_weight (w_net w') ≤ net_weight (w_net w) ∧ (w_net w' = [] ∨ ∃ w'', deliver w' w'').
Proof.
  intros Hg Hr Hn Hlt. induction Hn as [w|n w w1 w' Hd Hn IH].
  - split; [lia|]. destruct (reachable_inv w Hg Hr ltac:(lia)) as [chosen Hinv].
    destruct (w_net w) as [|p net] eqn:E; [by left|right].
    destruct (deliver_ok w chosen [] p net Hg Hinv E) as (nd & nd' & outs & ? & Hnd & Hmsg & _); [done| |].
    { rewrite length_app. unfold new_started. repeat case_match; simpl; lia. }
    eexists. by eapply (deliver_packet w [] p net).
  - pose proof (nsteps_started _ _ _ Hn) as Hle. pose proof (deliver_started _ _ Hd).
    destruct (reachable_inv w Hg Hr ltac:(lia)) as [chosen Hinv]. pose proof (deliver_weight _ _ _ Hinv Hd).
    destruct IH as [? ?]; [by eapply deliver_reachable|done|]. split; [lia|done].
Qed.

Lemma quiescent_chosen w chosen s v :
  group_ok → paxos_inv w chosen → w_net w = [] → slot_value w s v → (s = 0%Z → fifo = true) → s ∈ chosen.
Proof.
  intros Hg Hinv Hn [Hs Hv] Hf. destruct (leader_node w chosen Hg Hinv) as (nd & Hnd & _ & [H1 H2 H3 H4]).
  destruct (instances_ (leader_ nd) !! s) as [i|] eqn:E.
  - apply (H2 _ _ E). unfold accepts. rewrite (filter_all (λ a, (a, s) ∈ w_acks w) acceptors).
    + destruct (group_acceptors Hg) as (_ & _ & _ & Hpos & _). unfold majority.
      pose proof (Nat.div_lt (length acceptors) 2 ltac:(lia) ltac:(lia)). lia.
    + intros a Ha. pose proof (slots_at_perm w chosen Hinv a Ha) as Hp. unfold slots_at in Hp. rewrite Hn in Hp.
      simpl in Hp. rewrite !app_nil_r in Hp. assert (s ∈ omap (acked_slot a) (w_acks w)) as Hin.
      { rewrite Hp. apply elem_of_seqZ. apply lookup_lt_Some in Hv. lia. }
      apply list_elem_of_omap in Hin as ([a0 s0] & Hin & Heq). unfold acked_slot in Heq. case_decide; simplify_eq/=. done.
  - destruct (decide (s = 0%Z)) as [->|Hne]; [by apply (H4 v); auto; split|].
    destruct (H3 s v) as [i Hi]; [done|done|congruence].
Qed.

(** C10. Paxos delivers: when links keep the order of messages and all messages have been
    delivered, every member has reported every slot that the leader started. *)
Theorem paxos_delivers w m i v :
  fifo = true → group_ok → reachable w → (Z.of_nat (length (w_started w)) < 2 ^ 32)%Z →
  w_net w = [] → m ∈ members → w_started w !! i = Some v →
  (m, (Z.of_nat i, u32 v, the_leader)) ∈ w_commits w.
Proof.
  intros Hf Hg Hr Hlt Hn Hm Hv. destruct (reachable_inv w Hg Hr Hlt) as [chosen Hinv].
  assert (Hsv : slot_value w (Z.of_nat i) v) by (split; [lia|by rewrite Nat2Z.id]).
  pose proof (quiescent_chosen w chosen _ v Hg Hinv Hn Hsv (λ _, Hf)) as Hc.
  pose proof (pv_commits _ _ Hinv m (Z.of_nat i) Hm) as Hco. unfold commits in Hco. rewrite Hn, decide_True in Hco by done.
  destruct (filter _ (w_commits w)) as [|x l] eqn:E; [done|].
  assert (x ∈ filter (λ x, x.1 = m ∧ x.2.1.1 = Z.of_nat i) (w_commits w)) as Hx by (rewrite E; left).
  apply list_elem_of_filter in Hx as [[H1 H2] Hx]. destruct (pv_values _ _ Hinv x Hx) as (_ & v' & [_ Hv'] & H3 & H4).
  rewrite H2, Nat2Z.id in Hv'. assert (v' = v) as -> by congruence. destruct x as [m' [[s' v''] l']]. simpl in *. by subst.
Qed.

(** The leader never forgets an instance other than the first: [HandleResponse] takes
    the slot of a commit response from the wrong field, which is 0, so the instances of
    all other slots stay in [instances_] even after every member has committed them. *)
Theorem paxos_instances_leak w nd s :
  group_ok → reachable w → (Z.of_nat (length (w_started w)) < 2 ^ 32)%Z →
  w_nodes w !! the_leader = Some nd → (0 < s < Z.of_nat (length (w_started w)))%Z →
  is_Some (instances_ (leader_ nd) !! s).
Proof.
  intros Hg Hr Hlt Hnd Hs. destruct (reachable_inv w Hg Hr Hlt) as [chosen Hinv].
  destruct (lookup_lt_is_Some_2 (w_started w) (Z.to_nat s)) as [v Hv]; [lia|].
  apply (io_kept _ _ _ (pv_leader _ _ Hinv nd Hnd) s v); [split; [lia|done]|lia].
Qed.

(** ** Running a group *)

Fixpoint make_nodes (ms : list MachineId) : gmap MachineId SimulatedMultiPaxos :=
  match ms with
  | [] => ∅
  | m :: ms => match MakePaxos members m with Ok nd => <[m := nd]> (make_nodes ms) | Err _ => make_nodes ms end
  end.

Definition boot : world :=
  {| w_nodes := make_nodes machines; w_net := []; w_commits := []; w_started := []; w_acks := [] |}.

(** The oldest message is delivered, up to [n] times. *)
Fixpoint run_oldest (n : nat) (w : world) : world :=
  match n with
  | 0 => w
  | S n =>
    match w_net w with
    | [] => w
    | p :: n2 =>
      match w_nodes w !! p_to p with
      | Some nd =>
        match on_message nd (p_from p) (p_msg p) with
        | Ok (nd', outs) => run_oldest n (after_delivery w [] n2 p nd' outs)
        | Err _ => w
        end
      | None => w
      end
    end
  end.

Lemma run_oldest_deliver n w : ∃ k, nsteps deliver k w (run_oldest n w).
Proof.
  revert w. induction n as [|n IH]; intros w; simpl; [exists 0; constructor|].
  destruct (w_net w) as [|p n2] eqn:E; [exists 0; constructor|].
  destruct (w_nodes w !! p_to p) as [nd|] eqn:E1; [|exists 0; constructor].
  destruct (on_message _ _ _) as [[nd' outs]|] eqn:E2; [|exists 0; constructor].
  destruct (IH (after_delivery w [] n2 p nd' outs)) as [k Hk]. exists (S k).
  econstructor; [|exact Hk]. by eapply (deliver_packet w [] p n2).
Qed.

Lemma make_nodes_lookup ms m : group_ok →
  match make_nodes ms !! m with Some nd => m ∈ ms ∧ MakePaxos members m = Ok nd | None => m ∉ ms end.
Proof.
  intros Hg. induction ms as [|m0 ms IH]; simpl; [rewrite lookup_empty; apply not_elem_of_nil|].
  destruct (MakePaxos_ok m0 Hg) as (nd & Hnd & _). rewrite Hnd, lookup_insert.
  destruct (decide (m0 = m)) as [->|Hne].
  - split; [left|done].
  - destruct (make_nodes ms !! m); [destruct IH; split; [by right|done]|]. by apply not_elem_of_cons.
Qed.

Lemma boot_initial : group_ok → initial boot.
Proof. intros Hg. split; [|done]. intros m. by apply make_nodes_lookup. Qed.

Lemma nsteps_reachable n w w' : reachable w → nsteps deliver n w w' → reachable w'.
Proof. intros Hr Hn. induction Hn; [done|]. by eauto using deliver_reachable. Qed.
End group.

(** Three members and a machine outside of the group; two machines propose. *)
Definition example_members : list MachineId := [0; 1; 2]%Z.
Definition example_machines : list MachineId := [0; 1; 2; 3]%Z.

Lemma example_group : group_ok example_members example_machines.
Proof.
  split; [done| |intros m Hm|done].
  - apply (bool_decide_eq_true_1 _). vm_compute. reflexivity.
  - unfold example_members, example_machines in *. set_unfold. lia.
Qed.

Definition proposed_world : world :=
  propose 3 3 70 (propose 1 1 50 (boot example_members example_machines)).

Definition example_world : world := run_oldest example_members 100 proposed_world.

Lemma proposed_reachable : reachable example_members example_machines true proposed_world.
Proof.
  exists (boot example_members example_machines). split; [apply boot_initial, example_group|].
  apply (rtc_l _ _ (propose 1 1 50 (boot example_members example_machines))); [|apply rtc_once];
    apply step_propose; unfold example_machines; set_solver.
Qed.

Lemma example_reachable : reachable example_members example_machines true example_world.
Proof.
  destruct (run_oldest_deliver example_members true 100 proposed_world) as [k Hk].
  eapply nsteps_reachable; [apply proposed_reachable|exact Hk].
Qed.

Lemma example_net : w_net example_world = [].
Proof. vm_compute. reflexivity. Qed.

Lemma example_started : w_started example_world = [50; 70]%Z.
Proof. vm_compute. reflexivity. Qed.

Lemma example_commits : w_commits example_world =
  [(0, (0, 50, 0)); (1, (0, 50, 0)); (2, (0, 50, 0)); (0, (1, 70, 0)); (1, (1, 70, 0)); (2, (1, 70, 0))]%Z.
Proof. vm_compute. reflexivity. Qed.

Lemma paxos_agreement_witness :
  (∃ x, x ∈ w_commits example_world) ∧
  ∀ x y, x ∈ w_commits example_world → y ∈ w_commits example_world → x.2.1.1 = y.2.1.1 → x.2 = y.2.
Proof.
  split.
  - rewrite example_commits. eexists. left.
  - apply (paxos_agreement example_members example_machines true example_world).
    + apply example_group.
    + apply example_reachable.
    + rewrite example_started. done.
Defined.

Lemma paxos_terminates_witness :
  ∃ n, nsteps (deliver example_members true) n proposed_world example_world ∧
    n ≤ net_weight example_members (w_net proposed_world).
Proof.
  destruct (run_oldest_deliver example_members true 100 proposed_world) as [n Hn]. exists n. split; [exact Hn|].
  destruct (paxos_terminates example_members example_machines true proposed_world n example_world) as [Hle _].
  - apply example_group.
  - apply proposed_reachable.
  - exact Hn.
  - rewrite example_started. done.
  - lia.
Defined.

Lemma paxos_delivers_witness :
  (2%Z, (Z.of_nat 1, u32 70, the_leader example_members)) ∈ w_commits example_world.
Proof.
  apply (paxos_delivers example_members example_machines true example_world 2 1 70).
  - reflexivity.
  - apply example_group.
  - apply example_reachable.
  - rewrite example_started. done.
  - exact example_net.
  - unfold example_members. set_solver.
  - rewrite example_started. done.
Defined.

Lemma paxos_instances_leak_witness :
  ∃ nd, w_nodes example_world !! the_leader example_members = Some nd ∧ w_net example_world = [] ∧
    is_Some (instances_ (leader_ nd) !! 1%Z).
Proof.
  destruct (reachable_inv example_members example_machines true example_world) as [chosen Hinv];
    [apply example_group|apply example_reachable|rewrite example_started; done|].
  destruct (leader_node _ _ _ _ _ example_group Hinv) as (nd & Hnd & _). exists nd. split; [exact Hnd|]. split; [exact example_net|].
  apply (paxos_instances_leak example_members example_machines true example_world nd 1).
  - apply example_group.
  - apply example_reachable.
  - rewrite example_started. done.
  - exact Hnd.
  - rewrite example_started. simpl. lia.
Defined.
