(* ===== verification/RegionLog.v ===== *)
(** * The log of a region

    The local Paxos of a region and the local logs of its machines together: every machine
    delivers the batches of the region in one common order. *)
From S2P Require Import Prelude Types AsyncLog.
From S2P Require Paxos LocalLog.
Import LocalLog.

(** The order messages that the Paxos process of a machine sent to its interleaver. *)
Definition orders (w : Paxos.world) (m : MachineId) : list local_event :=
  (λ x, Paxos.LocalPaxos_OnCommit x.2.1.1 x.2.1.2 x.2.2) <$> filter (λ x, x.1 = m) (Paxos.w_commits w).

Definition is_order (e : local_event) : Prop := match e with LSlot _ _ _ => True | _ => False end.

#[global] Instance is_order_dec e : Decision (is_order e).
Proof. destruct e; apply _. Defined.

Definition order_slot (e : local_event) : option SlotId :=
  match e with LSlot s _ _ => Some s | _ => None end.

Definition batch_position (e : local_event) : option (Z * Z) :=
  match e with LBatch q p _ => Some (q, p) | _ => None end.

(** The batches of each partition come with distinct positions. *)
Definition batches_ok (es : list local_event) : Prop :=
  NoDup (omap batch_position es) ∧ ∀ q p b, LBatch q p b ∈ es → (0 ≤ p < 2 ^ 32 - 1)%Z.

#[global] Instance local_event_eq_dec : EqDecision local_event.
Proof. solve_decision. Defined.

(** ** Valid events *)

Lemma local_valid_intro es F :
  NoDup (omap order_slot es) → NoDup (omap batch_position es) →
  (∀ s q l, LSlot s q l ∈ es → lf_slots F !! s = None ∧ (0 ≤ s < 2 ^ 32 - 1)%Z) →
  (∀ q p b, LBatch q p b ∈ es → queue_facts F q !! p = None ∧ (0 ≤ p < 2 ^ 32 - 1)%Z) →
  local_valid F es.
Proof.
  revert F. induction es as [|e es IH]; intros F Hs Hb HFs HFb; [done|]. split.
  - destruct e as [q p b|s q l|]; [apply (HFb q p b); left|apply (HFs s q l); left|done].
  - rewrite !omap_cons in *. apply IH.
    + destruct e; simpl in Hs; try done. by apply NoDup_cons in Hs as [].
    + destruct e; simpl in Hb; try done. by apply NoDup_cons in Hb as [].
    + intros s q l Hin. destruct (HFs s q l) as [HF Hr]; [by right|]. split; [|done]. destruct e as [q' p b|s' q' l'|]; [done| |done].
      simpl in *. rewrite lookup_insert_ne; [done|]. intros ->. apply NoDup_cons in Hs as [Hs _]. destruct Hs.
      apply list_elem_of_omap. by exists (LSlot s q l).
    + intros q p b Hin. destruct (HFb q p b) as [HF Hr]; [by right|]. split; [|done]. destruct e as [q' p' b'|s' q' l'|]; [|done|done].
      simpl in *. unfold queue_facts in *. simpl. rewrite lookup_insert. case_decide; [subst|done]. simpl.
      rewrite lookup_insert_ne; [done|]. intros ->. apply NoDup_cons in Hb as [Hb _]. destruct Hb.
      apply list_elem_of_omap. by exists (LBatch q p b).
Qed.

(** ** What the events of a machine tell *)

Lemma learn_slots es F s q l :
  lf_slots (foldl local_learn F es) !! s = Some (q, l) → lf_slots F !! s = Some (q, l) ∨ LSlot s q l ∈ es.
Proof.
  revert F. induction es as [|e es IH]; intros F; [by left|]. simpl. intros [Hl|Hl]%IH; [|by right; right].
  destruct e as [| s' q' l'|]; [by left| |by left]. simpl in Hl. rewrite lookup_insert in Hl.
  case_decide; [|by left]. simplify_eq. right. left.
Qed.

Lemma learn_queues es F q p b :
  queue_facts (foldl local_learn F es) q !! p = Some b → queue_facts F q !! p = Some b ∨ LBatch q p b ∈ es.
Proof.
  revert F. induction es as [|e es IH]; intros F; [by left|]. simpl. intros [Hl|Hl]%IH; [|by right; right].
  destruct e as [q' p' b'| |]; [|by left|by left]. unfold queue_facts in *. simpl in Hl. rewrite lookup_insert in Hl.
  case_decide; [subst|by left]. simpl in Hl. rewrite lookup_insert in Hl. case_decide; [|by left]. simplify_eq. right. left.
Qed.

Lemma queue_facts_none q : queue_facts no_local_facts q = ∅.
Proof. unfold queue_facts. simpl. by rewrite lookup_empty. Qed.

(** ** Compatible knowledge gives compatible logs *)

Lemma taken_agree F1 F2 n q :
  (∀ i, i < n → lf_slots F1 !! Z.of_nat i = lf_slots F2 !! Z.of_nat i) → taken F1 n q = taken F2 n q.
Proof.
  intros Hag. unfold taken. f_equal. apply filter_ext_in. intros i Hi. apply elem_of_seq in Hi.
  rewrite Hag by lia. done.
Qed.

Lemma logs_agree F1 F2 outs1 outs2 :
  (∀ s x y, lf_slots F1 !! s = Some x → lf_slots F2 !! s = Some y → x = y) →
  (∀ q p x y, queue_facts F1 q !! p = Some x → queue_facts F2 q !! p = Some y → x = y) →
  is_prefix (local_stream F1) outs1 → is_prefix (local_stream F2) outs2 →
  ∀ i x y, outs1 !! i = Some x → outs2 !! i = Some y → x = y.
Proof.
  intros Hs Hq H1 H2 i x y Hx Hy.
  assert (Hk : ∀ F outs n z, is_prefix (local_stream F) outs → outs !! n = Some z →
    ∀ j, j ≤ n → is_Some (lf_slots F !! Z.of_nat j)).
  { intros F outs n z Hp Hn j Hj. destruct (lookup_lt_is_Some_2 outs j) as [u Hu].
    { apply lookup_lt_Some in Hn. lia. }
    apply Hp in Hu. unfold local_stream in Hu. by destruct (lf_slots F !! Z.of_nat j). }
  assert (Hag : ∀ j, j ≤ i → lf_slots F1 !! Z.of_nat j = lf_slots F2 !! Z.of_nat j).
  { intros j Hj. destruct (Hk F1 outs1 i x H1 Hx j Hj) as [u Hu], (Hk F2 outs2 i y H2 Hy j Hj) as [v Hv].
    rewrite Hu, Hv. f_equal. by eapply Hs. }
  apply H1 in Hx. apply H2 in Hy. unfold local_stream in Hx, Hy. rewrite <-Hag in Hy by done.
  destruct (lf_slots F1 !! Z.of_nat i) as [[q l]|]; simpl in *; [|done].
  rewrite (taken_agree F2 F1) in Hy by (intros; symmetry; apply Hag; lia).
  destruct (queue_facts F1 q !! _) as [b1|] eqn:E1; simpl in *; [|done].
  destruct (queue_facts F2 q !! _) as [b2|] eqn:E2; simpl in *; [|done]. rewrite (Hq _ _ _ _ E1 E2) in Hx. congruence.
Qed.

Lemma agree_prefix {A} (l1 l2 : list A) :
  (∀ i x y, l1 !! i = Some x → l2 !! i = Some y → x = y) → l1 `prefix_of` l2 ∨ l2 `prefix_of` l1.
Proof.
  revert l2. induction l1 as [|x l1 IH]; intros [|y l2] Hag; [left; done|left; apply prefix_nil|right; apply prefix_nil|].
  rewrite (Hag 0 x y eq_refl eq_refl). destruct (IH l2) as [?|?]; [|left; by apply prefix_cons|right; by apply prefix_cons].
  intros i. apply (Hag (S i)).
Qed.

(** ** The orders of a machine *)

Section region.
  Context (members machines : list MachineId) (fifo : bool) (w : Paxos.world).
  Hypothesis Hg : Paxos.group_ok members machines.
  Hypothesis Hr : Paxos.reachable members machines fifo w.
  Hypothesis Hlt : (Z.of_nat (length (Paxos.w_started w)) < 2 ^ 32)%Z.

Lemma orders_elem m s q l :
  LSlot s q l ∈ orders w m → (m, (s, q, l)) ∈ Paxos.w_commits w.
Proof.
  unfold orders. intros ([m' [[s' q'] l']] & Heq & Hx)%list_elem_of_fmap. apply list_elem_of_filter in Hx as [Hm Hx].
  simpl in *. unfold Paxos.LocalPaxos_OnCommit in Heq. by simplify_eq.
Qed.

Lemma orders_values m s q l :
  LSlot s q l ∈ orders w m → (0 ≤ s < Z.of_nat (length (Paxos.w_started w)))%Z ∧
    ∃ v, Paxos.w_started w !! Z.to_nat s = Some v ∧ q = u32 v ∧ l = Paxos.the_leader members.
Proof.
  intros Hin%orders_elem. destruct (Paxos.reachable_inv _ _ _ w Hg Hr Hlt) as [chosen Hinv].
  destruct (Paxos.pv_values _ _ _ _ _ Hinv _ Hin) as (_ & v & [Hs Hv] & Hq & Hl). simpl in *.
  apply lookup_lt_Some in Hv as Hlen. split; [lia|]. by exists v.
Qed.

Lemma orders_once m : m ∈ members → NoDup (omap order_slot (orders w m)).
Proof.
  intros Hm. destruct (Paxos.reachable_inv _ _ _ w Hg Hr Hlt) as [chosen Hinv].
  pose proof (λ s, Paxos.pv_commits _ _ _ _ _ Hinv m s Hm) as Hc.
  assert (Hle : ∀ s, length (filter (λ x, x.1 = m ∧ x.2.1.1 = s) (Paxos.w_commits w)) ≤ 1).
  { intros s. specialize (Hc s). unfold Paxos.commits in Hc. case_decide; lia. }
  clear Hc Hinv. unfold orders. induction (Paxos.w_commits w) as [|x l IH]; [constructor|].
  assert (IH' : NoDup (omap order_slot ((λ x, Paxos.LocalPaxos_OnCommit x.2.1.1 x.2.1.2 x.2.2) <$> filter (λ x, x.1 = m) l))).
  { apply IH. intros s. specialize (Hle s). rewrite filter_cons in Hle. case_decide; simpl in Hle; lia. }
  rewrite filter_cons. case_decide as Hx; [|done]. rewrite fmap_cons, omap_cons. simpl. apply NoDup_cons. split; [|done].
  intros (e & He & Hs)%list_elem_of_omap. apply list_elem_of_fmap in He as (y & -> & Hy). simpl in Hs. injection Hs as Hs.
  apply list_elem_of_filter in Hy as [Hym Hy]. specialize (Hle x.2.1.1). rewrite filter_cons, decide_True in Hle by done.
  simpl in Hle. assert (y ∈ filter (λ x0, x0.1 = m ∧ x0.2.1.1 = x.2.1.1) l) as Hf by (by apply list_elem_of_filter).
  destruct (filter _ l) in Hf, Hle; [by apply not_elem_of_nil in Hf|simpl in Hle; lia].
Qed.

(** The orders among the events of a machine are those of its Paxos process, in any order
    and mixed with its batches in any way. *)
Definition hears (m : MachineId) (es : list local_event) : Prop := filter is_order es ≡ₚ orders w m.

Lemma omap_order_filter (es : list local_event) : omap order_slot (filter is_order es) = omap order_slot es.
Proof. induction es as [|[]]; [done|simpl; done|by simpl; f_equal|done]. Qed.

Lemma hears_valid m es :
  m ∈ members → hears m es → batches_ok es → local_valid no_local_facts es.
Proof.
  intros Hm Hh [Hb Hbr]. apply local_valid_intro; [|done| |].
  - rewrite <-omap_order_filter, Hh. by apply orders_once.
  - intros s q l Hin. split; [done|]. assert (LSlot s q l ∈ orders w m) as Ho.
    { rewrite <-Hh. by apply list_elem_of_filter. }
    apply orders_values in Ho as [? _]. lia.
  - intros q p b Hin. rewrite queue_facts_none. split; [done|]. by eapply Hbr.
Qed.

Lemma hears_slots m es s q l :
  hears m es → lf_slots (foldl local_learn no_local_facts es) !! s = Some (q, l) → LSlot s q l ∈ orders w m.
Proof.
  intros Hh [Hl|Hl]%learn_slots; [done|]. rewrite <-Hh. by apply list_elem_of_filter.
Qed.

(** C8. One order per region. Let two machines of a region hear the orders of their Paxos
    processes and the batches of the partitions, in any sequence, where they agree on the
    batch at each position of a partition. Then both local logs work without failure, and
    of what the two deliver (slot, batch and leader) one is a prefix of the other. *)
Theorem region_logs_agree (m1 m2 : MachineId) (es1 es2 : list local_event) :
  m1 ∈ members → m2 ∈ members → hears m1 es1 → hears m2 es2 → batches_ok es1 → batches_ok es2 →
  (∀ q p b b', LBatch q p b ∈ es1 → LBatch q p b' ∈ es2 → b = b') →
  ∃ l1 outs1 l2 outs2,
    run_local empty_local_log (es1 ++ [LTake]) = Ok (l1, outs1) ∧
    run_local empty_local_log (es2 ++ [LTake]) = Ok (l2, outs2) ∧
    (outs1 `prefix_of` outs2 ∨ outs2 `prefix_of` outs1).
Proof.
  intros Hm1 Hm2 Hh1 Hh2 Hb1 Hb2 Hag.
  destruct (local_log_delivers es1) as (l1 & outs1 & Hr1 & [Hp1 _]); [by apply (hears_valid m1)|].
  destruct (local_log_delivers es2) as (l2 & outs2 & Hr2 & [Hp2 _]); [by apply (hears_valid m2)|].
  exists l1, outs1, l2, outs2. split; [done|]. split; [done|]. apply agree_prefix.
  eapply logs_agree; [| |exact Hp1|exact Hp2].
  - intros s [q1 k1] [q2 k2] (_ & v1 & ? & -> & ->)%(hears_slots m1 es1)%orders_values
      (_ & v2 & ? & -> & ->)%(hears_slots m2 es2)%orders_values; [|done|done]. congruence.
  - intros q p x y [Hx|Hx]%learn_queues [Hy|Hy]%learn_queues; rewrite ?queue_facts_none in *; try done. by eapply Hag.
Qed.
End region.

(** The two machines hear the same orders in different sequences, one of them less. *)
Definition example_hear1 : list local_event :=
  [LBatch 50 0 1000; LSlot 1 70 0; LBatch 70 0 1001; LSlot 0 50 0]%Z.
Definition example_hear2 : list local_event :=
  [LSlot 0 50 0; LSlot 1 70 0; LBatch 50 0 1000]%Z.

Lemma region_logs_agree_witness :
  ∃ l1 outs1 l2 outs2,
    run_local empty_local_log (example_hear1 ++ [LTake]) = Ok (l1, outs1) ∧
    run_local empty_local_log (example_hear2 ++ [LTake]) = Ok (l2, outs2) ∧
    (outs1 `prefix_of` outs2 ∨ outs2 `prefix_of` outs1).
Proof.
  apply (region_logs_agree Paxos.example_members Paxos.example_machines true Paxos.example_world
    Paxos.example_group Paxos.example_reachable) with (m1 := 0%Z) (m2 := 2%Z).
  - rewrite Paxos.example_started. done.
  - unfold Paxos.example_members. set_solver.
  - unfold Paxos.example_members. set_solver.
  - unfold hears, orders. rewrite Paxos.example_commits. simpl. apply Permutation_swap.
  - unfold hears, orders. rewrite Paxos.example_commits. done.
  - split; [apply (bool_decide_eq_true_1 _); vm_compute; reflexivity|]. unfold example_hear1. intros q p b. set_unfold.
    intros Hin. naive_solver lia.
  - split; [apply (bool_decide_eq_true_1 _); vm_compute; reflexivity|]. unfold example_hear2. intros q p b. set_unfold.
    intros Hin. naive_solver lia.
  - unfold example_hear1, example_hear2. intros q p b b'. set_unfold. naive_solver.
Defined.

