(* ===== verification/Sequencer.v ===== *)
(** * The sequencer

    [Sequencer] of [module/sequencer.cpp] puts the transactions of its machine into
    batches, one part per partition, proposes the batches to the local Paxos and sends
    their data. Its timed callbacks are a list of pending actions. *)
From S2P Require Import Prelude Types Config ProtoUtils Stats.

Definition kMaxNumMachines : Z := 100.

Record ForwardBatchData := {
  fbd_home : Z;
  fbd_home_position : Z;
  fbd_batch_data : list Batch
}.

Inductive seq_action :=
  | BatchLater (t : Transaction)
  | Flush
  | SendDelayed (destinations : list MachineId) (data : ForwardBatchData).

Inductive seq_msg :=
  | Propose (value : Z)
  | ToLocalLog (destination : MachineId) (data : ForwardBatchData)
  | ToInterleaver (destinations : list MachineId) (data : ForwardBatchData).

#[global] Instance seq_action_flush_dec (a : seq_action) : Decision (a = Flush).
Proof. destruct a; [right; done|left; done|right; done]. Defined.

Record sequencer := {
  batches_ : list (list Batch);
  batch_id_counter_ : BatchId;
  current_batch_size_ : Z;
  total_batch_size_ : Z;
  seq_stats : batch_stats;
  callbacks : list seq_action;
  seq_out : list seq_msg
}.

Section sequencer.
  Context (c : Configuration).
  Context (part : Key → Z).
  Context (recorded : TransactionEvent → list TransactionEventInfo).
  (** the draws of [is_delayed], one per batch *)
  Context (is_delayed : BatchId → bool).

(** [batch_id()] with the value of the counter. *)
Definition seq_batch_id (counter : BatchId) : BatchId :=
  u64 (counter * kMaxNumMachines + local_machine_id c).

Definition empty_part (counter : BatchId) : Batch :=
  {| batch_id := seq_batch_id counter; transactions := []; transaction_type := SINGLE_HOME; batch_events := [] |}.

Definition NewBatch (s : sequencer) : sequencer :=
  let counter := u64 (batch_id_counter_ s + 1) in
  {| batches_ := batches_ s ++ [replicate (Z.to_nat (num_partitions c)) (empty_part counter)];
     batch_id_counter_ := counter; current_batch_size_ := 0; total_batch_size_ := total_batch_size_ s;
     seq_stats := seq_stats s; callbacks := callbacks s; seq_out := seq_out s |}.

Definition StartOver (s : sequencer) : sequencer :=
  NewBatch {| batches_ := []; batch_id_counter_ := batch_id_counter_ s;
              current_batch_size_ := current_batch_size_ s; total_batch_size_ := 0;
              seq_stats := seq_stats s; callbacks := callbacks s; seq_out := seq_out s |}.

Definition seq_init : sequencer :=
  StartOver {| batches_ := []; batch_id_counter_ := 0; current_batch_size_ := 0; total_batch_size_ := 0;
               seq_stats := no_stats; callbacks := []; seq_out := [] |}.

Definition add_txn (t : Transaction) (b : Batch) : Batch :=
  {| batch_id := batch_id b; transactions := transactions b ++ [t];
     transaction_type := transaction_type b; batch_events := batch_events b |}.

(** One involved partition: its part of the transaction joins its part of the batch. *)
Definition add_partition (t : Transaction) (batch : list Batch) (p : Z) : result (list Batch) :=
  match GeneratePartitionedTxn part t p with
  | None => Ok batch
  | Some new_txn =>
    match batch !! Z.to_nat p with
    | None => Err (Undef "current_batch[p]")
    | Some b => Ok (<[Z.to_nat p := add_txn new_txn b]> batch)
    end
  end.

(** What is batched: a multi-home transaction becomes the lock-only one of this region. *)
Definition sequenced (t : Transaction) : Transaction :=
  let t := set_internal (λ i, set_events (events i ++ recorded ENTER_SEQUENCER) i) t in
  if decide (txn_type (internal t) = MULTI_HOME_OR_LOCK_ONLY)
  then GenerateLockOnlyTxn t (local_replica c) else t.

Definition BatchTxn (t : Transaction) (s : sequencer) : result sequencer :=
  let t := sequenced t in
  match last (batches_ s) with
  | None => Err (Undef "batches_.back()")
  | Some current =>
    current ← rfoldl (add_partition t) current (involved_partitions (internal t));
    let current_size := (current_batch_size_ s + 1)%Z in
    let total_size := (total_batch_size_ s + 1)%Z in
    let s :=
      {| batches_ := take (length (batches_ s) - 1) (batches_ s) ++ [current];
         batch_id_counter_ := batch_id_counter_ s; current_batch_size_ := current_size;
         total_batch_size_ := total_size; seq_stats := seq_stats s;
         callbacks := callbacks s ++ (if decide (total_size = 1%Z) then [Flush] else []);
         seq_out := seq_out s |} in
    Ok (if decide (0 < sequencer_batch_size c ∧ sequencer_batch_size c ≤ current_size)%Z then NewBatch s else s)
  end.

Definition NewBatchForwardingMessage (batch : list Batch) (home_position : Z) : ForwardBatchData :=
  {| fbd_home := local_replica c; fbd_home_position := u32 home_position; fbd_batch_data := batch |}.

Definition record_exit (b : Batch) : Batch :=
  {| batch_id := batch_id b; transactions := transactions b; transaction_type := transaction_type b;
     batch_events := batch_events b ++ recorded EXIT_SEQUENCER_IN_BATCH |}.

(** One machine of every other region. *)
Definition replica_destinations (home_position : Z) : list MachineId :=
  (λ rep, MakeMachineId c rep
     (if sequencer_rrr c then u32 home_position `mod` num_partitions c
      else (u32 (rep + num_replicas c - local_replica c) `mod` num_replicas c) `mod` num_partitions c)%Z) <$>
  filter (λ rep, rep ≠ local_replica c) (seqZ 0 (num_replicas c)).

(** The proposal of one batch and its data for the machines of the region. *)
Definition send_local (batch : list Batch) (home_position : Z) : list seq_msg :=
  Propose (local_partition c) ::
  zip_with (λ p b, ToLocalLog (MakeMachineId c (local_replica c) p)
                     (NewBatchForwardingMessage [record_exit b] home_position))
    (seqZ 0 (num_partitions c)) batch.

(** The loop of [SendBatches]. A delayed batch ends it. *)
Fixpoint send_loop (home_position : Z) (batches : list (list Batch)) : list seq_msg * list seq_action :=
  match batches with
  | [] => ([], [])
  | batch :: rest =>
    let data := NewBatchForwardingMessage (record_exit <$> batch) home_position in
    let destinations := replica_destinations home_position in
    if bool_decide (replication_delay_pct c ≠ 0%Z) && is_delayed (default 0%Z (batch_id <$> head batch))
    then (send_local batch home_position, [SendDelayed destinations data])
    else
      let '(msgs, actions) := send_loop (home_position + 1) rest in
      (send_local batch home_position ++ ToInterleaver destinations data :: msgs, actions)
  end.

Definition SendBatches (s : sequencer) : sequencer :=
  let home_position := i32 (batch_id_counter_ s - Z.of_nat (length (batches_ s))) in
  let '(msgs, actions) := send_loop home_position (batches_ s) in
  {| batches_ := batches_ s; batch_id_counter_ := batch_id_counter_ s;
     current_batch_size_ := current_batch_size_ s; total_batch_size_ := total_batch_size_ s;
     seq_stats := count_batch (total_batch_size_ s) (seq_stats s);
     callbacks := callbacks s ++ actions; seq_out := seq_out s ++ msgs |}.

(** A transaction arrives. *)
Definition OnForwardTxn (t : Transaction) (s : sequencer) : result sequencer :=
  if decide (0 < sequencer_delay_ms (internal t))%Z then
    Ok {| batches_ := batches_ s; batch_id_counter_ := batch_id_counter_ s;
          current_batch_size_ := current_batch_size_ s; total_batch_size_ := total_batch_size_ s;
          seq_stats := seq_stats s; callbacks := callbacks s ++ [BatchLater t]; seq_out := seq_out s |}
  else BatchTxn t s.

Definition fire (a : seq_action) (s : sequencer) : result sequencer :=
  match a with
  | BatchLater t => BatchTxn t s
  | Flush => Ok (StartOver (SendBatches s))
  | SendDelayed ds data =>
    Ok {| batches_ := batches_ s; batch_id_counter_ := batch_id_counter_ s;
          current_batch_size_ := current_batch_size_ s; total_batch_size_ := total_batch_size_ s;
          seq_stats := seq_stats s; callbacks := callbacks s; seq_out := seq_out s ++ [ToInterleaver ds data] |}
  end.

Definition drop_callback (i : nat) (s : sequencer) : sequencer :=
  {| batches_ := batches_ s; batch_id_counter_ := batch_id_counter_ s;
     current_batch_size_ := current_batch_size_ s; total_batch_size_ := total_batch_size_ s;
     seq_stats := seq_stats s; callbacks := delete i (callbacks s); seq_out := seq_out s |}.

(** A pending callback runs: the [i]-th one. *)
Definition OnTimer (i : nat) (s : sequencer) : result sequencer :=
  match callbacks s !! i with
  | None => Ok s
  | Some a => fire a (drop_callback i s)
  end.

(** A statistics request. *)
Definition OnStats (level : Z) (s : sequencer) : result sequencer :=
  '(st, _) ← ProcessStatsRequest level (seq_stats s);
  Ok {| batches_ := batches_ s; batch_id_counter_ := batch_id_counter_ s;
        current_batch_size_ := current_batch_size_ s; total_batch_size_ := total_batch_size_ s;
        seq_stats := st; callbacks := callbacks s; seq_out := seq_out s |}.

Inductive seq_event := STxn (t : Transaction) | STimer (i : nat) | SStats (level : Z).

Definition seq_step (s : sequencer) (e : seq_event) : result sequencer :=
  match e with
  | STxn t => OnForwardTxn t s
  | STimer i => OnTimer i s
  | SStats level => OnStats level s
  end.

(** ** Runs *)

(** The transactions that an event batches. *)
Definition batched_by (s : sequencer) (e : seq_event) : list Transaction :=
  match e with
  | STxn t => if decide (0 < sequencer_delay_ms (internal t))%Z then [] else [t]
  | STimer i => match callbacks s !! i with Some (BatchLater t) => [t] | _ => [] end
  | SStats _ => []
  end.

Fixpoint seq_run (s : sequencer) (es : list seq_event) : result (sequencer * list Transaction) :=
  match es with
  | [] => Ok (s, [])
  | e :: es =>
    s' ← seq_step s e;
    '(s'', ts) ← seq_run s' es;
    Ok (s'', batched_by s e ++ ts)
  end.

(** ** What is expected *)

(** The part of a transaction for a partition, once per mention of the partition. *)
Definition parts (p : nat) (t : Transaction) : list Transaction :=
  involved_partitions (internal (sequenced t)) ≫= λ q,
    if decide (Z.to_nat q = p) then option_list (GeneratePartitionedTxn part (sequenced t) q) else [].

Definition txns_at (p : nat) (batch : list Batch) : list Transaction :=
  match batch !! p with Some b => transactions b | None => [] end.

(** The messages of the batch at a position. *)
Definition batch_msgs (pos : nat) (batch : list Batch) : list seq_msg :=
  send_local batch (Z.of_nat pos) ++
  [ToInterleaver (replica_destinations (Z.of_nat pos))
     (NewBatchForwardingMessage (record_exit <$> batch) (Z.of_nat pos))].

(** The messages by which the batch at a position leaves: one proposal, of the number of this
    partition; to every machine of the region the part of its partition, and nothing else; and
    all parts to one machine of every other region. *)
Definition batch_sent (pos : nat) (batch : list Batch) (ms : list seq_msg) : Prop :=
  let data bs := {| fbd_home := local_replica c; fbd_home_position := Z.of_nat pos; fbd_batch_data := bs |} in
  ∃ locals destinations,
    ms = [Propose (local_partition c)] ++ locals ++ [ToInterleaver destinations (data (record_exit <$> batch))] ∧
    Forall2 (λ p m, ∃ b, batch !! Z.to_nat p = Some b ∧ m = ToLocalLog (MakeMachineId c (local_replica c) p) (data [record_exit b]))
      (seqZ 0 (num_partitions c)) locals ∧
    Forall2 (λ rep d, ∃ p, (0 ≤ p < num_partitions c)%Z ∧ d = MakeMachineId c rep p)
      (filter (λ rep, rep ≠ local_replica c) (seqZ 0 (num_replicas c))) destinations.

Definition txn_ok (t : Transaction) : Prop :=
  Forall (λ p, 0 ≤ p < num_partitions c)%Z (involved_partitions (internal t)).

Definition event_ok (e : seq_event) : Prop :=
  match e with STxn t => txn_ok t | _ => True end.

Definition action_ok (a : seq_action) : Prop :=
  match a with BatchLater t => txn_ok t | Flush => True | SendDelayed _ _ => False end.

(** [sent] are the batches already sent, [hist] the transactions batched so far. *)
Record seq_inv (s : sequencer) (sent : list (list Batch)) (hist : list Transaction) : Prop := {
  si_count : batch_id_counter_ s = Z.of_nat (length (sent ++ batches_ s));
  si_some : batches_ s ≠ [];
  si_parts i b : (sent ++ batches_ s) !! i = Some b →
    length b = Z.to_nat (num_partitions c) ∧ ∀ x, x ∈ b → batch_id x = seq_batch_id (Z.of_nat (S i));
  si_txns p : p < Z.to_nat (num_partitions c) → (sent ++ batches_ s) ≫= txns_at p = hist ≫= parts p;
  si_out : seq_out s = concat (imap batch_msgs sent);
  si_total : (0 ≤ total_batch_size_ s)%Z;
  si_actions : Forall action_ok (callbacks s);
  si_flush : length (filter (λ a, a = Flush) (callbacks s)) = if decide (total_batch_size_ s = 0%Z) then 0 else 1;
  si_stats : (Z.of_nat (length (stat_batch_sizes_ (seq_stats s))) ≤ batch_id_counter_ s)%Z
}.

Lemma sequenced_partitions t :
  involved_partitions (internal (sequenced t)) = involved_partitions (internal t).
Proof.
  unfold sequenced, GenerateLockOnlyTxn. repeat (case_decide || case_match); done.
Qed.

(** ** Batching one transaction *)

Lemma bind_one {A B} (f : A → list B) (x : A) : [x] ≫= f = f x.
Proof. rewrite bind_cons. apply app_nil_r. Qed.


Lemma add_partition_ok t p cur :
  (0 ≤ p < Z.of_nat (length cur))%Z →
  ∃ cur', add_partition t cur p = Ok cur' ∧ length cur' = length cur ∧
    (batch_id <$> cur') = (batch_id <$> cur) ∧
    ∀ q, q < length cur → txns_at q cur' = txns_at q cur ++
      (if decide (Z.to_nat p = q) then option_list (GeneratePartitionedTxn part t p) else []).
Proof.
  intros Hp. unfold add_partition. destruct (GeneratePartitionedTxn part t p) as [x|] eqn:E.
  - destruct (lookup_lt_is_Some_2 cur (Z.to_nat p)) as [b Hb]; [lia|]. rewrite Hb. eexists. split; [done|].
    rewrite length_insert. split; [done|]. split.
    + rewrite list_fmap_insert. simpl. apply list_insert_id. by rewrite list_lookup_fmap, Hb.
    + intros q Hq. unfold txns_at. destruct (decide (Z.to_nat p = q)) as [<-|].
      * rewrite list_lookup_insert_eq by lia. by rewrite Hb.
      * rewrite list_lookup_insert_ne by done. by rewrite app_nil_r.
  - exists cur. split_and!; try done. intros q _. case_decide; by rewrite app_nil_r.
Qed.

Lemma add_partitions_ok t ps cur :
  Forall (λ p, 0 ≤ p < Z.of_nat (length cur))%Z ps →
  ∃ cur', rfoldl (add_partition t) cur ps = Ok cur' ∧ length cur' = length cur ∧
    (batch_id <$> cur') = (batch_id <$> cur) ∧
    ∀ q, q < length cur → txns_at q cur' = txns_at q cur ++
      (ps ≫= λ p, if decide (Z.to_nat p = q) then option_list (GeneratePartitionedTxn part t p) else []).
Proof.
  revert cur. induction ps as [|p ps IH]; intros cur Hps.
  { exists cur. split_and!; try done. intros. by rewrite app_nil_r. }
  apply Forall_cons in Hps as [Hp Hps]. cbn [rfoldl].
  destruct (add_partition_ok t p cur Hp) as (cur1 & -> & Hl1 & Hi1 & Ht1). cbn [mbind result_bind].
  destruct (IH cur1) as (cur2 & -> & Hl2 & Hi2 & Ht2); [by rewrite Hl1|].
  exists cur2. split; [done|]. split; [congruence|]. split; [congruence|]. intros q Hq.
  rewrite Ht2, Ht1 by congruence. rewrite bind_cons, app_assoc. done.
Qed.

Lemma last_split {A} (l : list A) (x : A) : last l = Some x → l = take (length l - 1) l ++ [x].
Proof.
  intros Hl. destruct (last_Some l x) as [H _]. destruct (H Hl) as [l' ->].
  rewrite length_app. simpl. replace (length l' + 1 - 1) with (length l') by lia. by rewrite take_app_length.
Qed.

Lemma new_part_ok n counter :
  (replicate n (empty_part counter)) ≫= (λ _, ([] : list Transaction)) = [] ∧
  ∀ p, txns_at p (replicate n (empty_part counter)) = [].
Proof.
  split; [by induction n|]. intros p. unfold txns_at. destruct (replicate n _ !! p) eqn:E; [|done].
  apply lookup_replicate in E as [-> _]. done.
Qed.

Lemma NewBatch_ok s sent hist :
  (batch_id_counter_ s + 1 < 2 ^ 31)%Z →
  (batches_ s ≠ [] → seq_inv s sent hist) →
  (batches_ s = [] → batch_id_counter_ s = Z.of_nat (length sent) ∧
     (∀ i b, sent !! i = Some b →
       length b = Z.to_nat (num_partitions c) ∧ ∀ x, x ∈ b → batch_id x = seq_batch_id (Z.of_nat (S i))) ∧
     (∀ p, p < Z.to_nat (num_partitions c) → sent ≫= txns_at p = hist ≫= parts p) ∧
     seq_out s = concat (imap batch_msgs sent) ∧ (0 ≤ total_batch_size_ s)%Z ∧ Forall action_ok (callbacks s) ∧
     length (filter (λ a, a = Flush) (callbacks s)) = (if decide (total_batch_size_ s = 0%Z) then 0 else 1) ∧
     (Z.of_nat (length (stat_batch_sizes_ (seq_stats s))) ≤ batch_id_counter_ s + 1)%Z) →
  seq_inv (NewBatch s) sent hist.
Proof.
  intros Hb Hinv Hnil.
  assert (Hcommon : batch_id_counter_ s = Z.of_nat (length (sent ++ batches_ s)) ∧
     (∀ i b, (sent ++ batches_ s) !! i = Some b →
       length b = Z.to_nat (num_partitions c) ∧ ∀ x, x ∈ b → batch_id x = seq_batch_id (Z.of_nat (S i))) ∧
     (∀ p, p < Z.to_nat (num_partitions c) → (sent ++ batches_ s) ≫= txns_at p = hist ≫= parts p) ∧
     seq_out s = concat (imap batch_msgs sent) ∧ (0 ≤ total_batch_size_ s)%Z ∧ Forall action_ok (callbacks s) ∧
     length (filter (λ a, a = Flush) (callbacks s)) = (if decide (total_batch_size_ s = 0%Z) then 0 else 1) ∧
     (Z.of_nat (length (stat_batch_sizes_ (seq_stats s))) ≤ batch_id_counter_ s + 1)%Z).
  { destruct (decide (batches_ s = [])) as [E|E].
    - rewrite E, app_nil_r. auto.
    - destruct (Hinv E) as [H1 H2 H3 H4 H5 H6 H7 H8 H9]. split_and!; try done. lia. }
  destruct Hcommon as (H1 & H3 & H4 & H5 & H6 & H7 & H8 & H9).
  assert (Hu : u64 (batch_id_counter_ s + 1) = (batch_id_counter_ s + 1)%Z) by (unfold wrapu; rewrite Z.mod_small; lia).
  split; simpl; rewrite ?Hu; try done.
  - rewrite app_assoc, length_app. simpl. lia.
  - by destruct (batches_ s).
  - intros i b. rewrite app_assoc. intros [Hi|[Hi Hx]]%lookup_app_Some; [by apply H3|].
    apply list_lookup_singleton_Some in Hx as [Hi' <-]. rewrite length_replicate. split; [done|].
    intros x Hx. apply elem_of_replicate in Hx as [-> _]. simpl. f_equal. lia.
  - intros p Hp. rewrite app_assoc, bind_app, H4 by done. rewrite bind_one.
    destruct (new_part_ok (Z.to_nat (num_partitions c)) (batch_id_counter_ s + 1)) as [_ ->]. by rewrite !app_nil_r.
Qed.

Lemma BatchTxn_ok t s sent hist :
  seq_inv s sent hist → txn_ok t → (batch_id_counter_ s + 1 < 2 ^ 31)%Z →
  ∃ s', BatchTxn t s = Ok s' ∧ seq_inv s' sent (hist ++ [t]) ∧ (batch_id_counter_ s' ≤ batch_id_counter_ s + 1)%Z.
Proof.
  intros [H1 H2 H3 H4 H5 H6 H7 H8 H9] Ht Hb. unfold BatchTxn.
  destruct (last (batches_ s)) as [cur|] eqn:Hlast; [|by apply last_None in Hlast].
  pose proof (last_split _ _ Hlast) as Hsplit. set (pre := take (length (batches_ s) - 1) (batches_ s)) in *.
  destruct (H3 (length (sent ++ pre)) cur) as [Hlen Hid].
  { rewrite Hsplit, app_assoc. by rewrite lookup_app_r, Nat.sub_diag. }
  destruct (add_partitions_ok (sequenced t) (involved_partitions (internal (sequenced t))) cur) as (cur' & -> & Hl' & Hi' & Ht').
  { rewrite sequenced_partitions. eapply Forall_impl; [exact Ht|]. simpl. intros p Hp. lia. }
  cbn [mbind result_bind].
  match goal with |- context [NewBatch ?x] => set (s1 := x) end.
  assert (Hinv1 : seq_inv s1 sent (hist ++ [t])).
  { rewrite Hsplit in H1, H3, H4. rewrite app_assoc in H1, H3. split; simpl; try done.
    - rewrite H1, app_assoc, !length_app. done.
    - by destruct pre.
    - intros i b. rewrite app_assoc. intros [Hi|[Hi Hx]]%lookup_app_Some.
      + apply H3. by apply lookup_app_l_Some.
      + apply list_lookup_singleton_Some in Hx as [Hi0 <-]. rewrite Hl'. split; [done|].
        assert (i = length (sent ++ pre)) as -> by lia. intros x Hx. apply (list_elem_of_fmap_2 batch_id) in Hx.
        rewrite Hi' in Hx. apply list_elem_of_fmap in Hx as (y & -> & Hy). by apply Hid.
    - intros p Hp. specialize (H4 p Hp). rewrite !bind_app, !bind_one in *. rewrite (Ht' p) by lia.
      rewrite <-H4. unfold parts. by rewrite !app_assoc.
    - lia.
    - apply Forall_app. split; [done|]. destruct (decide ((total_batch_size_ s + 1)%Z = 1%Z)); repeat constructor.
    - rewrite filter_app, length_app, H8. repeat case_decide; simpl; lia. }
  eexists. split; [done|]. match goal with |- context [decide ?P] => destruct (decide P) end; [|split; [done|simpl; lia]]. split.
  - apply NewBatch_ok; [done|done|]. intros Hnil. by destruct Hinv1.
  - simpl. unfold wrapu. rewrite Z.mod_small; lia.
Qed.

(** ** Sending *)

Lemma imap_concat_shift (f : nat → list Batch → list seq_msg) (k : nat) (l1 l2 : list (list Batch)) :
  length l1 = k → concat (imap f (l1 ++ l2)) = concat (imap f l1) ++ concat (imap (λ i, f (k + i)) l2).
Proof. intros <-. rewrite imap_app, concat_app. done. Qed.

Lemma send_loop_ok batches k :
  replication_delay_pct c = 0%Z →
  send_loop (Z.of_nat k) batches = (concat (imap (λ i, batch_msgs (k + i)) batches), []).
Proof.
  intros Hd. revert k. induction batches as [|b bs IH]; intros k; [done|].
  cbn [send_loop]. rewrite bool_decide_eq_false_2 by congruence. cbn [andb].
  replace (Z.of_nat k + 1)%Z with (Z.of_nat (S k)) by lia. rewrite IH. rewrite imap_cons. simpl. f_equal.
  rewrite Nat.add_0_r. unfold batch_msgs at 2. rewrite <-app_assoc. simpl. do 4 f_equal. apply imap_ext.
  intros i x _. simpl. by rewrite Nat.add_succ_r.
Qed.

Lemma pending_delete i s a :
  callbacks s !! i = Some a → Forall action_ok (callbacks s) →
  action_ok a ∧ Forall action_ok (delete i (callbacks s)) ∧
  length (filter (λ a, a = Flush) (callbacks s)) =
    length (filter (λ a, a = Flush) (delete i (callbacks s))) + (if decide (a = Flush) then 1 else 0).
Proof.
  intros Hi Hok. pose proof (delete_Permutation _ _ _ Hi) as Hp. rewrite Hp in Hok.
  apply Forall_cons in Hok as [Ha Hok]. split_and!; [done|done|].
  rewrite (Permutation_length (filter_Permutation _ _ _ Hp)), filter_cons. case_decide; simpl; lia.
Qed.

Lemma flush_ok s i sent hist :
  replication_delay_pct c = 0%Z → (batch_id_counter_ s + 1 < 2 ^ 31)%Z →
  seq_inv s sent hist → callbacks s !! i = Some Flush →
  let s' := StartOver (SendBatches (drop_callback i s)) in
  seq_inv s' (sent ++ batches_ s) hist ∧ batch_id_counter_ s' = (batch_id_counter_ s + 1)%Z.
Proof.
  intros Hd Hb [H1 H2 H3 H4 H5 H6 H7 H8 H9] Hi.
  destruct (pending_delete _ _ _ Hi H7) as (_ & Hok & Hcount). rewrite decide_True in Hcount by done.
  assert (Hpos : i32 (batch_id_counter_ s - Z.of_nat (length (batches_ s))) = Z.of_nat (length sent)).
  { rewrite H1, length_app. rewrite i32_small; rewrite H1, length_app in Hb; lia. }
  unfold StartOver, SendBatches. cbn [drop_callback batches_ batch_id_counter_ seq_out callbacks total_batch_size_
    current_batch_size_ seq_stats]. rewrite Hpos, send_loop_ok by done. rewrite app_nil_r. split.
  - apply NewBatch_ok; [done|done|]. intros _. cbn [batches_ batch_id_counter_ seq_out callbacks total_batch_size_ seq_stats].
    split_and!; try done.
    + rewrite H5. by rewrite (imap_concat_shift _ (length sent)).
    + destruct (decide (total_batch_size_ s = 0%Z)); rewrite decide_True by done; lia.
    + unfold count_batch. destruct (collecting_stats_ (seq_stats s)); simpl; [rewrite length_app; simpl; lia|lia].
  - simpl. unfold wrapu. rewrite Z.mod_small; lia.
Qed.

Lemma Percentiles_ok l : (Z.of_nat (length l) * 100 < 2 ^ 64)%Z → ∃ r, Percentiles l = Ok r.
Proof.
  intros Hb. destruct (decide (l = [])) as [->|Hne]; [by exists []|].
  destruct (Percentiles_spec l Hne Hb) as (r & ? & _). by exists r.
Qed.

Lemma seq_step_ok s e sent hist :
  replication_delay_pct c = 0%Z → (batch_id_counter_ s + 1 < 2 ^ 31)%Z →
  seq_inv s sent hist → event_ok e →
  ∃ s' sent', seq_step s e = Ok s' ∧ seq_inv s' sent' (hist ++ batched_by s e) ∧
    (batch_id_counter_ s' ≤ batch_id_counter_ s + 1)%Z.
Proof.
  intros Hd Hb Hinv He. destruct e as [t|i|level]; simpl.
  - unfold OnForwardTxn. case_decide as Hdel.
    + eexists _, sent. split; [done|]. rewrite app_nil_r. split; [|simpl; lia].
      destruct Hinv as [H1 H2 H3 H4 H5 H6 H7 H8 H9]. split; simpl; try done.
      * apply Forall_app. split; [done|]. by apply Forall_singleton.
      * rewrite filter_app, length_app, filter_cons, decide_False by done. simpl. lia.
    + destruct (BatchTxn_ok t s sent hist Hinv He Hb) as (s' & ? & ? & ?). by exists s', sent.
  - unfold OnTimer. destruct (callbacks s !! i) as [a|] eqn:Hi.
    2:{ exists s, sent. rewrite app_nil_r. split_and!; [done|done|lia]. }
    pose proof Hinv as [H1 H2 H3 H4 H5 H6 H7 H8 H9].
    destruct (pending_delete _ _ _ Hi H7) as (Ha & Hok & Hcount). destruct a as [t| |ds data]; [| |done].
    + rewrite decide_False in Hcount by done. simpl.
      destruct (BatchTxn_ok t (drop_callback i s) sent hist) as (s' & -> & ? & ?); [|done|done|by exists s', sent].
      split; simpl; try done. by rewrite <-H8, Hcount, Nat.add_0_r.
    + destruct (flush_ok s i sent hist Hd Hb Hinv Hi) as [? Hc]. simpl. eexists _, _. split; [done|].
      rewrite app_nil_r. split; [done|]. rewrite Hc. lia.
  - destruct Hinv as [H1 H2 H3 H4 H5 H6 H7 H8 H9]. unfold OnStats, ProcessStatsRequest.
    destruct (Percentiles_ok (stat_batch_sizes_ (seq_stats s))) as [r ->]; [lia|]. cbn [mbind result_bind].
    eexists _, sent. split; [done|]. rewrite app_nil_r. split; [|simpl; lia]. split; simpl; try done. lia.
Qed.

Lemma seq_init_inv : seq_inv seq_init [] [].
Proof.
  split; simpl; try done.
  - intros i b Hi. apply list_lookup_singleton_Some in Hi as [-> <-]. rewrite length_replicate. split; [done|].
    intros x Hx. apply elem_of_replicate in Hx as [-> _]. done.
  - intros p _. transitivity (txns_at p (replicate (Z.to_nat (num_partitions c)) (empty_part (u64 (0 + 1)))));
      [apply (bind_one (txns_at p))|apply new_part_ok].
Qed.

Lemma seq_run_ok es s sent hist :
  replication_delay_pct c = 0%Z → (batch_id_counter_ s + Z.of_nat (length es) < 2 ^ 31)%Z →
  seq_inv s sent hist → Forall event_ok es →
  ∃ s' ts sent', seq_run s es = Ok (s', ts) ∧ seq_inv s' sent' (hist ++ ts) ∧ (batch_id_counter_ s' < 2 ^ 31)%Z.
Proof.
  intros Hd. revert s sent hist. induction es as [|e es IH]; intros s sent hist Hb Hinv Hes.
  { exists s, [], sent. rewrite app_nil_r. simpl in Hb. split_and!; [done..|lia]. }
  apply Forall_cons in Hes as [He Hes]. simpl in Hb.
  destruct (seq_step_ok s e sent hist Hd ltac:(lia) Hinv He) as (s1 & sent1 & Hs1 & Hinv1 & Hc1).
  destruct (IH s1 sent1 _ ltac:(lia) Hinv1 Hes) as (s2 & ts & sent2 & Hs2 & Hinv2 & Hc2).
  exists s2, (batched_by s e ++ ts), sent2. cbn [seq_run]. rewrite Hs1. cbn [mbind result_bind]. rewrite Hs2.
  cbn [mbind result_bind]. by rewrite app_assoc.
Qed.

Lemma batch_msgs_sent pos batch :
  (0 < num_partitions c)%Z → length batch = Z.to_nat (num_partitions c) → (Z.of_nat pos < 2 ^ 31)%Z →
  batch_sent pos batch (batch_msgs pos batch).
Proof.
  intros Hnp Hlen Hpos. assert (Hu : u32 (Z.of_nat pos) = Z.of_nat pos) by (unfold wrapu; apply Z.mod_small; lia).
  unfold batch_sent, batch_msgs, send_local, NewBatchForwardingMessage. rewrite Hu. eexists _, _. split_and!; [done| |].
  - apply Forall2_same_length_lookup. rewrite length_zip_with, length_seqZ, Hlen, Nat.min_id. split; [done|].
    intros i p m [-> Hi]%lookup_seqZ Hm. apply lookup_zip_with_Some in Hm as (q & b & -> & [-> _]%lookup_seqZ & Hb).
    exists b. by rewrite Z.add_0_l, Nat2Z.id.
  - apply Forall2_fmap_r, Forall_Forall2_diag, Forall_forall. intros rep _. simpl.
    eexists. split; [|done]. destruct (sequencer_rrr c); apply Z.mod_pos_bound; lia.
Qed.

(** C14. Without the delay experiment ([replication_delay_pct] is 0) the sequencer loses, repeats
    and reorders nothing. After any sequence of transactions, timer expirations and statistics
    requests, all that was sent is, for consecutive positions from 0, one batch each: one
    proposal to the local Paxos process, whose value is the number of this partition; the part
    of every partition to its machine of this region; and all parts to one machine of every
    other region. The batches have the ids of their positions; what was sent and what still
    waits holds, for each partition, its part of every batched transaction in the order of
    batching; and a timer is pending exactly while some transaction waits. *)
Theorem sequencer_batches (es : list seq_event) :
  replication_delay_pct c = 0%Z → (0 < num_partitions c)%Z → (Z.of_nat (length es) < 2 ^ 31 - 1)%Z → Forall event_ok es →
  ∃ s ts sent mss, seq_run seq_init es = Ok (s, ts) ∧
    seq_out s = concat mss ∧ length mss = length sent ∧
    (∀ i b ms, sent !! i = Some b → mss !! i = Some ms → batch_sent i b ms) ∧
    (∀ p, p < Z.to_nat (num_partitions c) → (sent ++ batches_ s) ≫= txns_at p = ts ≫= parts p) ∧
    (∀ i b, (sent ++ batches_ s) !! i = Some b →
      length b = Z.to_nat (num_partitions c) ∧ ∀ x, x ∈ b → batch_id x = seq_batch_id (Z.of_nat (S i))) ∧
    (Flush ∈ callbacks s ↔ total_batch_size_ s ≠ 0%Z).
Proof.
  intros Hd Hnp Hb Hes. destruct (seq_run_ok es seq_init [] [] Hd) as (s & ts & sent & Hr & [H1 H2 H3 H4 H5 H6 H7 H8 H9] & Hc).
  { simpl. change (u64 (0 + 1)) with 1%Z. lia. }
  { apply seq_init_inv. }
  { done. }
  exists s, ts, sent, (imap batch_msgs sent). split_and!; try done; [by rewrite length_imap| |].
  - intros i b ms Hi. rewrite list_lookup_imap, Hi. intros [= <-].
    assert (Hib : (sent ++ batches_ s) !! i = Some b) by (by apply lookup_app_l_Some).
    apply batch_msgs_sent; [done|by apply (H3 i)|]. apply lookup_lt_Some in Hib. lia.
  - split.
    + intros Hin Hz. rewrite decide_True in H8 by done. apply nil_length_inv in H8.
      apply (filter_nil_not_elem_of _ _ Flush) in H8; done.
    + intros Hz. rewrite decide_False in H8 by done. destruct (filter _ (callbacks s)) as [|a l] eqn:E; [done|].
      assert (a ∈ filter (λ a, a = Flush) (callbacks s)) as Ha by (rewrite E; left).
      apply list_elem_of_filter in Ha as [-> Ha]. done.
Qed.

(** A delayed batch takes the rest of its flush with it. When the delay experiment picks
    the first of several waiting batches, the others are neither proposed nor sent, now or
    later: the sequencer starts over behind them, so their positions stay empty and their
    transactions are lost. *)
Theorem delayed_batch_drops_rest (s : sequencer) (b : list Batch) (rest : list (list Batch)) :
  batches_ s = b :: rest → replication_delay_pct c ≠ 0%Z → is_delayed (default 0%Z (batch_id <$> head b)) = true →
  (0 ≤ batch_id_counter_ s - Z.of_nat (length (batches_ s)))%Z → (batch_id_counter_ s + 1 < 2 ^ 31)%Z →
  let pos := (batch_id_counter_ s - Z.of_nat (length (batches_ s)))%Z in
  let s' := StartOver (SendBatches s) in
  seq_out s' = seq_out s ++ send_local b pos ∧
  callbacks s' = callbacks s ++ [SendDelayed (replica_destinations pos) (NewBatchForwardingMessage (record_exit <$> b) pos)] ∧
  (batch_id_counter_ s' - Z.of_nat (length (batches_ s')) = pos + 1 + Z.of_nat (length rest))%Z ∧
  (∀ p, batches_ s' ≫= txns_at p = []).
Proof.
  intros Hbs Hd Hdel H0 Hb. cbn zeta. unfold StartOver, SendBatches. rewrite i32_small by lia.
  assert (Hloop : ∀ pos, send_loop pos (batches_ s) =
    (send_local b pos, [SendDelayed (replica_destinations pos) (NewBatchForwardingMessage (record_exit <$> b) pos)])).
  { intros pos. rewrite Hbs. cbn [send_loop]. rewrite bool_decide_eq_true_2 by done. by rewrite Hdel. }
  rewrite Hloop. cbn -[Z.of_nat Z.add Z.sub replicate]. rewrite Hbs in *. split_and!; try done.
  - unfold wrapu. rewrite Z.mod_small by (cbn [length] in *; lia). cbn [length] in *. lia.
  - intros p. etrans; [apply (bind_one (txns_at p))|apply new_part_ok].
Qed.
End sequencer.

(** Two transactions for two partitions, with one transaction per batch. *)
Definition seq_config (delay_pct : Z) : Configuration := {|
  config_ := {|
    cp_protocol := "tcp";
    cp_replicas := cp_replicas example_proto; cp_broker_ports := [2021%Z]; cp_server_port := 2023;
    cp_forwarder_port := 2024; cp_sequencer_port := 2025; cp_num_partitions := 2;
    cp_partitioning := kHashPartitioning 1; cp_num_workers := 0; cp_mh_orderer_batch_duration := 1;
    cp_forwarder_batch_duration := 1; cp_sequencer_batch_duration := 5; cp_sequencer_batch_size := 1;
    cp_sequencer_rrr := false; cp_replication_factor := 2; cp_replication_order := ["1"; "0,1"];
    cp_delay_pct := delay_pct; cp_delay_amount_ms := 10; cp_enabled_events := [];
    cp_bypass_mh_orderer := false; cp_cpu_pinnings := []; cp_return_dummy_txn := false; cp_recv_retries := 0;
    cp_execution_type := KEY_VALUE; cp_synchronized_batching := false; cp_sample_rate := 100;
    cp_broker_rcvbuf := 0; cp_long_sender_sndbuf := 0 |};
  local_address_ := "b0"; local_replica_ := 1; local_partition_ := 0;
  all_addresses_ := ["a0"; "a1"; "b0"; "b1"]; replication_order_ := [0%Z]
|}.

Definition seq_part (k : Key) : Z := if decide (k = "A"%string) then 0 else 1.

Definition seq_txn (i : TxnId) : Transaction :=
  set_internal (set_involved_partitions [0; 1]%Z)
    (make_txn i SINGLE_HOME 1 (kCode []) [make_entry "A" WRITE 1 0; make_entry "B" READ 1 0]).

Lemma sequencer_batches_witness :
  ∃ s ts sent mss, seq_run (seq_config 0) seq_part (λ _, []) (λ _, false) (seq_init (seq_config 0))
      [STxn (seq_txn 1); STxn (seq_txn 2); STimer 0] = Ok (s, ts) ∧
    seq_out s = concat mss ∧ (∀ i b ms, sent !! i = Some b → mss !! i = Some ms → batch_sent (seq_config 0) (λ _, []) i b ms) ∧
    (sent ++ batches_ s) ≫= txns_at 1 = ts ≫= parts (seq_config 0) seq_part (λ _, []) 1.
Proof.
  destruct (sequencer_batches (seq_config 0) seq_part (λ _, []) (λ _, false)
    [STxn (seq_txn 1); STxn (seq_txn 2); STimer 0]) as (s & ts & sent & mss & Hr & Ho & _ & Hs & Ht & _).
  - reflexivity.
  - reflexivity.
  - done.
  - repeat constructor; simpl; done.
  - exists s, ts, sent, mss. split; [exact Hr|]. split; [exact Ho|]. split; [exact Hs|]. apply Ht. apply Nat.ltb_lt. reflexivity.
Defined.

Definition delayed_state : sequencer :=
  match seq_run (seq_config 50) seq_part (λ _, []) (λ _, true) (seq_init (seq_config 50))
      [STxn (seq_txn 1); STxn (seq_txn 2)] with
  | Ok (s, _) => s
  | Err _ => seq_init (seq_config 50)
  end.

Lemma delayed_batch_drops_rest_witness :
  ∃ b1 b2 b3, batches_ delayed_state = [b1; b2; b3] ∧ txns_at 0 b2 ≠ [] ∧
    seq_out (StartOver (seq_config 50) (SendBatches (seq_config 50) (λ _, []) (λ _, true) delayed_state)) =
    send_local (seq_config 50) (λ _, []) b1 0.
Proof.
  destruct (batches_ delayed_state) as [|b1 [|b2 [|b3 [|]]]] eqn:E; try (by vm_compute in E).
  exists b1, b2, b3. split; [reflexivity|]. split.
  - clear -E. vm_compute in E. injection E as <- <- <-. done.
  - destruct (delayed_batch_drops_rest (seq_config 50) (λ _, []) (λ _, true) delayed_state b1 [b2; b3] E) as [Ho _].
    + done.
    + reflexivity.
    + rewrite E. vm_compute. done.
    + vm_compute. done.
    + rewrite Ho, E. reflexivity.
Defined.
