(* ===== verification/MultiHomeOrderer.v ===== *)
(** * The multi-home orderer

    [MultiHomeOrderer] of [module/multi_home_orderer.cpp]: it collects multi-home
    transactions into batches, one per region they involve, has the batches ordered by the
    global Paxos, and hands the transactions of ordered batches to its sequencer. *)
From S2P Require Import Prelude Types AsyncLog Config ProtoUtils Stats.
From S2P Require BatchLog Paxos Interleaver.
From S2P Require Import Sequencer.

Inductive mho_msg :=
  | ProposeGlobal (destination : MachineId) (value : Z)
  | ToOrderer (destination : MachineId) (batch : Batch)
  | ToSequencer (t : Transaction).

(** A pointer of [batch_per_rep_] is null after its batch was sent. *)
Record mh_orderer := {
  batch_per_rep_ : list (option Batch);
  mh_counter : BatchId;
  batch_size_ : Z;
  multi_home_batch_log_ : BatchLog.BatchLog;
  mh_stats : batch_stats;
  flushes : nat;
  mh_out : list mho_msg
}.

Section orderer.
  Context (c : Configuration).
  Context (recorded : TransactionEvent → list TransactionEventInfo).

Definition mh_batch_id (counter : BatchId) : BatchId := u64 (counter * kMaxNumMachines + local_machine_id c).

Definition empty_mh_batch (counter : BatchId) : Batch :=
  {| batch_id := mh_batch_id counter; transactions := []; transaction_type := MULTI_HOME_OR_LOCK_ONLY;
     batch_events := [] |}.

Definition NewBatch (s : mh_orderer) : mh_orderer :=
  let counter := u64 (mh_counter s + 1) in
  {| batch_per_rep_ := (λ _, Some (empty_mh_batch counter)) <$> batch_per_rep_ s;
     mh_counter := counter; batch_size_ := 0; multi_home_batch_log_ := multi_home_batch_log_ s;
     mh_stats := mh_stats s; flushes := flushes s; mh_out := mh_out s |}.

Definition mh_init : mh_orderer :=
  NewBatch {| batch_per_rep_ := replicate (Z.to_nat (num_replicas c)) None; mh_counter := 0; batch_size_ := 0;
              multi_home_batch_log_ := BatchLog.empty_batch_log; mh_stats := no_stats; flushes := 0; mh_out := [] |}.

Definition add_replica (t : Transaction) (batches : list (option Batch)) (r : Z) :
    result (list (option Batch)) :=
  match batches !! Z.to_nat r with
  | Some (Some b) => Ok (<[Z.to_nat r := Some (add_txn t b)]> batches)
  | _ => Err (Undef "batch_per_rep_[replicas[i]]")
  end.

Definition AddToBatch (t : Transaction) (s : mh_orderer) : result mh_orderer :=
  match involved_replicas (internal t) with
  | [] => Err (Undef "replicas[replicas.size() - 1]")
  | replicas =>
    batches ← rfoldl (add_replica t) (batch_per_rep_ s) replicas;
    let size := (batch_size_ s + 1)%Z in
    Ok {| batch_per_rep_ := batches; mh_counter := mh_counter s; batch_size_ := size;
          multi_home_batch_log_ := multi_home_batch_log_ s; mh_stats := mh_stats s;
          flushes := flushes s + (if decide (size = 1%Z) then 1 else 0); mh_out := mh_out s |}
  end.

(** The batches go out with their proposal. *)
Definition batch_out (rep : Z) (b : option Batch) : list mho_msg :=
  match b with
  | Some b => [ToOrderer (MakeMachineId c rep (leader_partition_for_multi_home_ordering c)) b]
  | None => []
  end.

Definition SendBatch (s : mh_orderer) : mh_orderer :=
  {| batch_per_rep_ := (λ _, None) <$> batch_per_rep_ s; mh_counter := mh_counter s; batch_size_ := batch_size_ s;
     multi_home_batch_log_ := multi_home_batch_log_ s;
     mh_stats := count_batch (batch_size_ s) (mh_stats s); flushes := flushes s;
     mh_out := mh_out s ++
       ProposeGlobal (MakeMachineId c (leader_replica_for_multi_home_ordering c) 0) (mh_batch_id (mh_counter s)) ::
       concat (zip_with batch_out (seqZ 0 (num_replicas c)) (batch_per_rep_ s)) |}.

Definition exit_txn (t : Transaction) : Transaction :=
  set_internal (λ i, set_events (events i ++ recorded EXIT_MULTI_HOME_ORDERER) i) t.

Definition with_log (l : BatchLog.BatchLog) (ms : list mho_msg) (s : mh_orderer) : mh_orderer :=
  {| batch_per_rep_ := batch_per_rep_ s; mh_counter := mh_counter s; batch_size_ := batch_size_ s;
     multi_home_batch_log_ := l; mh_stats := mh_stats s; flushes := flushes s; mh_out := mh_out s ++ ms |}.

Definition AdvanceLog (s : mh_orderer) : result mh_orderer :=
  let l := multi_home_batch_log_ s in
  '(l, bs) ← BatchLog.take_batches (length (BatchLog.ready_batches_ l)) l;
  Ok (with_log l (bs ≫= λ sb, (λ t, ToSequencer (exit_txn t)) <$> Unbatch sb.2) s).

Definition enter_batch (b : Batch) : Batch :=
  {| batch_id := batch_id b; transactions := transactions b; transaction_type := transaction_type b;
     batch_events := batch_events b ++ recorded ENTER_MULTI_HOME_ORDERER_IN_BATCH |}.

Definition ProcessForwardBatchData (data : list Batch) (s : mh_orderer) : result mh_orderer :=
  match last data with
  | None => Err (Undef "batch_data.ReleaseLast()")
  | Some b =>
    l ← BatchLog.AddBatch (multi_home_batch_log_ s) (enter_batch b);
    AdvanceLog (with_log l [] s)
  end.

Definition ProcessForwardBatchOrder (slot : SlotId) (b : BatchId) (s : mh_orderer) : result mh_orderer :=
  l ← BatchLog.AddSlot (multi_home_batch_log_ s) slot b 0;
  AdvanceLog (with_log l [] s).

Definition OnStats (level : Z) (s : mh_orderer) : result mh_orderer :=
  '(st, _) ← ProcessStatsRequest level (mh_stats s);
  Ok {| batch_per_rep_ := batch_per_rep_ s; mh_counter := mh_counter s; batch_size_ := batch_size_ s;
        multi_home_batch_log_ := multi_home_batch_log_ s; mh_stats := st; flushes := flushes s;
        mh_out := mh_out s |}.

Inductive mho_event :=
  | MTxn (t : Transaction)
  | MData (data : list Batch)
  | MOrder (slot : SlotId) (b : BatchId)
  | MTimer
  | MStats (level : Z).

(** The transaction as it enters. *)
Definition entered (t : Transaction) : Transaction :=
  set_internal (λ i, set_events (events i ++ recorded ENTER_MULTI_HOME_ORDERER) i) t.

(** [OnInternalRequestReceived] and the timed callback, which runs when one is pending. *)
Definition mho_step (s : mh_orderer) (e : mho_event) : result mh_orderer :=
  match e with
  | MTxn t => AddToBatch (entered t) s
  | MData data => ProcessForwardBatchData data s
  | MOrder slot b => ProcessForwardBatchOrder slot b s
  | MTimer =>
    match flushes s with
    | 0 => Ok s
    | S n =>
      Ok (NewBatch (SendBatch
        {| batch_per_rep_ := batch_per_rep_ s; mh_counter := mh_counter s; batch_size_ := batch_size_ s;
           multi_home_batch_log_ := multi_home_batch_log_ s; mh_stats := mh_stats s; flushes := n;
           mh_out := mh_out s |}))
    end
  | MStats level => OnStats level s
  end.

(** ** What is expected *)

(** The batch log's events. *)
Definition log_event (e : mho_event) : list BatchLog.batch_event :=
  match e with
  | MData data => match last data with Some b => [BatchLog.BAdd (enter_batch b)] | None => [] end
  | MOrder slot b => [BatchLog.BSlot slot b 0]
  | _ => []
  end.

Definition event_ok (e : mho_event) : Prop :=
  match e with
  | MTxn t => involved_replicas (internal t) ≠ [] ∧
              Forall (λ r, 0 ≤ r < num_replicas c)%Z (involved_replicas (internal t))
  | MData data => data ≠ []
  | _ => True
  end.

Definition new_txn (e : mho_event) : list Transaction := match e with MTxn t => [t] | _ => [] end.

(** A transaction joins the batch of each region it involves. *)
Definition copies (r : nat) (t : Transaction) : list Transaction :=
  involved_replicas (internal t) ≫= λ q, if decide (Z.to_nat q = r) then [entered t] else [].

Definition txns_for (r : nat) (batch : list (option Batch)) : list Transaction :=
  match batch !! r with Some (Some b) => transactions b | _ => [] end.

Definition is_sequenced (m : mho_msg) : list Transaction := match m with ToSequencer t => [t] | _ => [] end.
Definition is_batched (m : mho_msg) : list mho_msg := match m with ToSequencer _ => [] | _ => [m] end.

(** The messages of the [i]-th batch. *)
Definition sent_msgs (i : nat) (batch : list (option Batch)) : list mho_msg :=
  ProposeGlobal (MakeMachineId c (leader_replica_for_multi_home_ordering c) 0) (mh_batch_id (Z.of_nat (S i))) ::
  concat (zip_with batch_out (seqZ 0 (num_replicas c)) batch).

Definition ordered_txns (sb : SlotId * Batch) : list Transaction := exit_txn <$> Unbatch sb.2.

Record mho_inv (s : mh_orderer) (F : BatchLog.facts) (outs : list (SlotId * Batch))
    (sent : list (list (option Batch))) (hist : list Transaction) : Prop := {
  mi_log : BatchLog.batch_inv (multi_home_batch_log_ s) F outs;
  mi_settled : BatchLog.settled (multi_home_batch_log_ s) F outs;
  mi_ready : BatchLog.ready_batches_ (multi_home_batch_log_ s) = [];
  mi_count : mh_counter s = Z.of_nat (S (length sent));
  mi_batch i batch : (sent ++ [batch_per_rep_ s]) !! i = Some batch →
    length batch = Z.to_nat (num_replicas c) ∧
    ∀ r, r < Z.to_nat (num_replicas c) → ∃ b, batch !! r = Some (Some b) ∧ batch_id b = mh_batch_id (Z.of_nat (S i));
  mi_txns r : r < Z.to_nat (num_replicas c) → (sent ++ [batch_per_rep_ s]) ≫= txns_for r = hist ≫= copies r;
  mi_sequenced : mh_out s ≫= is_sequenced = outs ≫= ordered_txns;
  mi_sent : mh_out s ≫= is_batched = concat (imap sent_msgs sent);
  mi_size : (0 ≤ batch_size_ s)%Z;
  mi_flush : flushes s = if decide (batch_size_ s = 0%Z) then 0 else 1;
  mi_stats : (Z.of_nat (length (stat_batch_sizes_ (mh_stats s))) < mh_counter s)%Z
}.

(** ** Batching *)

Lemma add_replicas_ok t rs batches :
  Forall (λ r, 0 ≤ r < Z.of_nat (length batches))%Z rs → Forall is_Some batches →
  ∃ batches', rfoldl (add_replica t) batches rs = Ok batches' ∧ length batches' = length batches ∧
    (∀ r b, batches !! r = Some (Some b) → ∃ b', batches' !! r = Some (Some b') ∧ batch_id b' = batch_id b) ∧
    ∀ r, txns_for r batches' = txns_for r batches ++ (rs ≫= λ q, if decide (Z.to_nat q = r) then [t] else []).
Proof.
  revert batches. induction rs as [|r rs IH]; intros batches Hrs Hsome.
  { exists batches. split_and!; try done; [naive_solver|]. intros q. by rewrite app_nil_r. }
  apply Forall_cons in Hrs as [Hr Hrs]. cbn [rfoldl]. unfold add_replica at 2.
  destruct (lookup_lt_is_Some_2 batches (Z.to_nat r)) as [o Ho]; [lia|]. rewrite Ho.
  destruct (Forall_lookup_1 _ _ _ _ Hsome Ho) as [b ->]. cbn [mbind result_bind].
  destruct (IH (<[Z.to_nat r := Some (add_txn t b)]> batches)) as (bs & -> & Hl & Hid & Ht).
  - by rewrite length_insert.
  - apply Forall_insert; [done|by eexists].
  - exists bs. rewrite length_insert in Hl. split_and!; try done.
    + intros q b0 Hq. destruct (decide (Z.to_nat r = q)) as [<-|Hne].
      * rewrite Ho in Hq. injection Hq as <-. apply (Hid (Z.to_nat r) (add_txn t b)).
        apply list_lookup_insert_eq. lia.
      * apply Hid. by rewrite list_lookup_insert_ne.
    + intros q. rewrite Ht, bind_cons, app_assoc. f_equal. unfold txns_for.
      destruct (decide (Z.to_nat r = q)) as [<-|Hne].
      * rewrite list_lookup_insert_eq by lia. by rewrite Ho.
      * rewrite list_lookup_insert_ne by done. by rewrite app_nil_r.
Qed.

Lemma AddToBatch_ok t s F outs sent hist :
  mho_inv s F outs sent hist → event_ok (MTxn t) →
  ∃ s', AddToBatch (entered t) s = Ok s' ∧ mho_inv s' F outs sent (hist ++ [t]) ∧ mh_counter s' = mh_counter s.
Proof.
  intros [H1 H2 H3 H4 H5 H6 H7 H8 H9 H10 H11] [Hne Hr]. unfold AddToBatch.
  change (involved_replicas (internal (entered t))) with (involved_replicas (internal t)).
  destruct (H5 (length sent) (batch_per_rep_ s)) as [Hlen Hb]; [by rewrite lookup_app_r, Nat.sub_diag|].
  destruct (add_replicas_ok (entered t) (involved_replicas (internal t)) (batch_per_rep_ s)) as (bs & Hf & Hl & Hid & Ht).
  { eapply Forall_impl; [exact Hr|]. simpl. intros r ?. lia. }
  { apply Forall_lookup. intros i o Hi. destruct (Hb i) as (b & Hb' & _); [apply lookup_lt_Some in Hi; lia|].
    rewrite Hi in Hb'. injection Hb' as ->. by eexists. }
  destruct (involved_replicas (internal t)) as [|r0 rs] eqn:E; [done|]. rewrite <-E in *. rewrite Hf. cbn [mbind result_bind].
  eexists. split; [done|]. split; [|done]. split; simpl; try done.
  - intros i batch [Hi|[Hi Hx]]%lookup_app_Some; [apply H5; by apply lookup_app_l_Some|].
    apply list_lookup_singleton_Some in Hx as [Hi0 <-]. split; [congruence|]. intros r Hrr.
    destruct (Hb r Hrr) as (b & Hb1 & Hb2). destruct (Hid r b Hb1) as (b' & Hb' & Hb2'). exists b'. split; [done|].
    rewrite Hb2', Hb2. do 2 f_equal. lia.
  - intros r Hrr. specialize (H6 r Hrr). rewrite !bind_app, !bind_one in *. rewrite Ht, <-H6. unfold copies.
    by rewrite app_assoc.
  - lia.
  - rewrite H10. destruct (decide (batch_size_ s = 0%Z)); repeat match goal with |- context [decide ?P] => destruct (decide P) end; lia.
Qed.

(** ** The timer *)

Lemma is_batched_sent i batch : sent_msgs i batch ≫= is_batched = sent_msgs i batch ∧ sent_msgs i batch ≫= is_sequenced = [].
Proof.
  assert (Hb : ∀ l, Forall (λ m, is_batched m = [m] ∧ is_sequenced m = []) l → l ≫= is_batched = l ∧ l ≫= is_sequenced = []).
  { induction 1 as [|m l [H1 H2] _ [IH1 IH2]]; [done|]. rewrite !bind_cons, H1, H2, IH1, IH2. done. }
  apply Hb. constructor; [done|]. apply Forall_concat, Forall_forall. intros l Hl.
  apply list_elem_of_lookup in Hl as [j Hj]. apply lookup_zip_with_Some in Hj as (r & b & -> & _ & _).
  destruct b; repeat constructor.
Qed.

Lemma timer_ok s F outs sent hist :
  mho_inv s F outs sent hist → (mh_counter s + 1 < 2 ^ 63)%Z →
  ∃ s' sent', mho_step s MTimer = Ok s' ∧ mho_inv s' F outs sent' hist ∧ (mh_counter s' ≤ mh_counter s + 1)%Z.
Proof.
  intros Hinv Hb. pose proof Hinv as [H1 H2 H3 H4 H5 H6 H7 H8 H9 H10 H11]. simpl.
  destruct (flushes s) as [|n] eqn:Hfl; [exists s, sent; split_and!; [done|done|lia]|].
  eexists _, (sent ++ [batch_per_rep_ s]). split; [done|].
  assert (Hu : u64 (mh_counter s + 1) = (mh_counter s + 1)%Z) by (unfold wrapu; rewrite Z.mod_small; lia).
  assert (n = 0) as -> by (destruct (decide (batch_size_ s = 0%Z)); lia).
  destruct (H5 (length sent) (batch_per_rep_ s)) as [Hlen _]; [by rewrite lookup_app_r, Nat.sub_diag|].
  split; [|simpl; lia]. split; cbn [NewBatch SendBatch multi_home_batch_log_ mh_counter batch_per_rep_ mh_out batch_size_ flushes mh_stats]; rewrite ?Hu; try done.
  - rewrite length_app, H4. simpl. lia.
  - intros i batch [Hi|[Hi Hx]]%lookup_app_Some; [by apply H5|].
    apply list_lookup_singleton_Some in Hx as [Hi0 <-]. rewrite !length_fmap. split; [done|]. intros r Hr.
    rewrite !list_lookup_fmap. destruct (lookup_lt_is_Some_2 (batch_per_rep_ s) r) as [o Ho]; [lia|]. rewrite Ho. simpl.
    eexists. split; [done|]. simpl. f_equal. rewrite H4. rewrite length_app in Hi0, Hi. simpl in *. lia.
  - intros r Hr. rewrite bind_app, (H6 r Hr), bind_one. unfold txns_for. rewrite !list_lookup_fmap.
    destruct (batch_per_rep_ s !! r); simpl; by rewrite app_nil_r.
  - destruct (is_batched_sent (length sent) (batch_per_rep_ s)) as [_ Hs]. rewrite bind_app, H7.
    unfold sent_msgs in Hs. rewrite H4. rewrite Hs. by rewrite app_nil_r.
  - destruct (is_batched_sent (length sent) (batch_per_rep_ s)) as [Hs _]. rewrite bind_app, H8.
    unfold sent_msgs in Hs. rewrite H4, Hs. rewrite imap_app, concat_app. simpl. rewrite Nat.add_0_r, app_nil_r. done.
  - unfold count_batch. destruct (collecting_stats_ (mh_stats s)); simpl; [rewrite length_app; simpl; lia|lia].
Qed.

(** ** The log *)

Lemma with_log_inv s l ms F F' outs xs sent hist :
  mho_inv s F outs sent hist → BatchLog.batch_inv l F' (outs ++ xs) → BatchLog.settled l F' (outs ++ xs) →
  BatchLog.ready_batches_ l = [] → ms ≫= is_batched = [] → ms ≫= is_sequenced = xs ≫= ordered_txns →
  mho_inv (with_log l ms s) F' (outs ++ xs) sent hist.
Proof.
  intros [H1 H2 H3 H4 H5 H6 H7 H8 H9 H10 H11] Hl Hs Hr Hb Hq. split; simpl; try done.
  - by rewrite !bind_app, H7, Hq.
  - by rewrite bind_app, Hb, app_nil_r.
Qed.

Lemma emitted_msgs xs :
  let ms := xs ≫= λ sb : SlotId * Batch, (λ t, ToSequencer (exit_txn t)) <$> Unbatch sb.2 in
  ms ≫= is_batched = [] ∧ ms ≫= is_sequenced = xs ≫= ordered_txns.
Proof.
  assert (H1 : ∀ ts, ((λ t, ToSequencer (exit_txn t)) <$> ts) ≫= is_batched = [] ∧
    ((λ t, ToSequencer (exit_txn t)) <$> ts) ≫= is_sequenced = exit_txn <$> ts).
  { induction ts as [|t ts [IH1 IH2]]; [done|]. rewrite !fmap_cons, !bind_cons, IH1, IH2. done. }
  induction xs as [|x xs [IH1 IH2]]; [done|]. cbn zeta in *. rewrite !bind_cons, !bind_app, IH1, IH2.
  destruct (H1 (Unbatch x.2)) as [-> ->]. done.
Qed.

(** An event of the log, after which the log is emptied. *)
Lemma log_step_ok s e f F outs sent hist :
  mho_inv s F outs sent hist → BatchLog.fresh F e →
  (∀ l, BatchLog.batch_step l e = (l ← f l; Ok (l, []))) →
  ∃ s' outs', (l ← f (multi_home_batch_log_ s); AdvanceLog (with_log l [] s)) = Ok s' ∧
    mho_inv s' (BatchLog.learn F e) outs' sent hist ∧ mh_counter s' = mh_counter s.
Proof.
  intros Hinv Hf Hstep. pose proof Hinv as [H1 H2 H3 _ _ _ _ _ _ _ _].
  destruct (BatchLog.batch_step_ok _ _ _ e H1 H2 Hf) as (l & ys & Hst & Hl & Hse & _). rewrite Hstep in Hst.
  destruct (f (multi_home_batch_log_ s)) as [l'|]; cbn [mbind result_bind] in *; [|done]. injection Hst as -> <-.
  rewrite app_nil_r in *. unfold AdvanceLog. cbn [with_log multi_home_batch_log_].
  destruct (BatchLog.batch_step_ok _ _ _ BatchLog.BTake Hl Hse I) as (l2 & xs & Hst2 & Hl2 & Hse2 & Hr2).
  simpl in Hst2. rewrite Hst2. cbn [mbind result_bind]. eexists _, (outs ++ xs). split; [done|]. split; [|done].
  destruct (emitted_msgs xs) as [Hm1 Hm2].
  eapply (with_log_inv _ l2 _ _ _ _ xs) in Hinv; [|exact Hl2|exact Hse2|by apply Hr2|exact Hm1|exact Hm2].
  unfold with_log in *. simpl. by rewrite app_nil_r.
Qed.

Lemma mho_step_ok s e F outs sent hist :
  mho_inv s F outs sent hist → event_ok e → BatchLog.fresh_events F (log_event e) → (mh_counter s + 1 < 2 ^ 56)%Z →
  ∃ s' outs' sent', mho_step s e = Ok s' ∧
    mho_inv s' (foldl BatchLog.learn F (log_event e)) outs' sent' (hist ++ new_txn e) ∧
    (mh_counter s' ≤ mh_counter s + 1)%Z.
Proof.
  intros Hinv He Hf Hb. destruct e as [t|data|slot b| |level]; simpl in *; rewrite ?app_nil_r.
  - destruct (AddToBatch_ok t s F outs sent hist Hinv He) as (s' & ? & ? & ?). exists s', outs, sent. split_and!; [done|done|lia].
  - unfold ProcessForwardBatchData. destruct (last data) as [b|] eqn:E; [|by apply last_None in E].
    destruct Hf as [Hf _]. destruct (log_step_ok s (BatchLog.BAdd (enter_batch b)) (λ l, BatchLog.AddBatch l (enter_batch b))
      F outs sent hist Hinv Hf) as (s' & outs' & ? & ? & ?); [done|]. exists s', outs', sent. split_and!; [done|done|lia].
  - destruct Hf as [Hf _]. destruct (log_step_ok s (BatchLog.BSlot slot b 0) (λ l, BatchLog.AddSlot l slot b 0)
      F outs sent hist Hinv Hf) as (s' & outs' & ? & ? & ?); [done|]. exists s', outs', sent. split_and!; [done|done|lia].
  - destruct (timer_ok s F outs sent hist Hinv ltac:(lia)) as (s' & sent' & ? & ? & ?). by exists s', outs, sent'.
  - pose proof Hinv as [H1 H2 H3 H4 H5 H6 H7 H8 H9 H10 H11]. unfold OnStats, ProcessStatsRequest.
    destruct (Percentiles_ok (stat_batch_sizes_ (mh_stats s))) as [r ->]; [lia|]. cbn [mbind result_bind].
    eexists _, outs, sent. split; [done|]. split; [|simpl; lia]. split; simpl; try done. lia.
Qed.

Lemma mh_init_inv : mho_inv mh_init BatchLog.no_facts [] [] [].
Proof.
  split; try done.
  - apply BatchLog.batch_inv_init.
  - intros i batch Hi. apply list_lookup_singleton_Some in Hi as [-> <-]. simpl. rewrite length_fmap, length_replicate.
    split; [done|]. intros r Hr. rewrite list_lookup_fmap, lookup_replicate_2 by done. by eexists.
  - intros r Hr. transitivity (txns_for r (batch_per_rep_ mh_init)); [apply (bind_one (txns_for r))|].
    unfold txns_for. simpl. rewrite list_lookup_fmap, lookup_replicate_2 by done. done.
Qed.

Lemma mho_run_ok es s F outs sent hist :
  mho_inv s F outs sent hist → Forall event_ok es → BatchLog.fresh_events F (es ≫= log_event) →
  (mh_counter s + Z.of_nat (length es) < 2 ^ 56)%Z →
  ∃ s' outs' sent', rfoldl mho_step s es = Ok s' ∧
    mho_inv s' (foldl BatchLog.learn F (es ≫= log_event)) outs' sent' (hist ++ (es ≫= new_txn)).
Proof.
  revert s F outs sent hist. induction es as [|e es IH]; intros s F outs sent hist Hinv Hes Hf Hb.
  { exists s, outs, sent. by rewrite app_nil_r. }
  apply Forall_cons in Hes as [He Hes]. rewrite bind_cons in Hf. apply Interleaver.fresh_events_app in Hf as [Hf1 Hf].
  cbn [length] in Hb. destruct (mho_step_ok s e F outs sent hist Hinv He Hf1 ltac:(lia)) as (s1 & outs1 & sent1 & Hs1 & Hinv1 & Hc1).
  destruct (IH s1 _ outs1 sent1 _ Hinv1 Hes Hf ltac:(lia)) as (s2 & outs2 & sent2 & Hs2 & Hinv2).
  exists s2, outs2, sent2. cbn [rfoldl]. rewrite Hs1. cbn [mbind result_bind]. rewrite Hs2. split; [done|].
  rewrite !bind_cons, foldl_app, app_assoc. done.
Qed.

(** C15. The multi-home orderer. For any sequence of transactions, data, orders, timer
    expirations and statistics requests, no call fails. Its sequencer gets the transactions of
    the longest run of slots of the global order whose batches have arrived, in that order.
    Every flush sends one proposal with the next batch id and one batch of this id per
    region, and what was sent and what still waits holds, for each region, the transactions
    that involve it, in their order; a timer is pending exactly while a transaction waits. *)
Theorem multi_home_orderer_spec (es : list mho_event) :
  Forall event_ok es → BatchLog.fresh_events BatchLog.no_facts (es ≫= log_event) → (Z.of_nat (length es) < 2 ^ 55)%Z →
  ∃ s outs sent, rfoldl mho_step mh_init es = Ok s ∧
    mh_out s ≫= is_sequenced = outs ≫= ordered_txns ∧
    longest_prefix (BatchLog.batch_stream (foldl BatchLog.learn BatchLog.no_facts (es ≫= log_event))) outs ∧
    mh_out s ≫= is_batched = concat (imap sent_msgs sent) ∧
    (∀ r, r < Z.to_nat (num_replicas c) →
      (sent ++ [batch_per_rep_ s]) ≫= txns_for r = (es ≫= new_txn) ≫= copies r) ∧
    (flushes s = 0 ↔ batch_size_ s = 0%Z).
Proof.
  intros Hes Hf Hb. destruct (mho_run_ok es mh_init _ _ _ _ mh_init_inv Hes Hf) as (s & outs & sent & Hr & Hinv).
  { change (mh_counter mh_init) with 1%Z. lia. }
  pose proof Hinv as [H1 H2 H3 H4 H5 H6 H7 H8 H9 H10 H11]. exists s, outs, sent.
  split; [done|]. split; [done|]. split; [by eapply BatchLog.batch_inv_stream|]. split; [done|]. split; [done|]. split.
  - intros E. rewrite E in H10. by destruct (decide (batch_size_ s = 0%Z)).
  - intros E. by rewrite E in H10.
Qed.

Lemma learn_slot_keep es F s x :
  BatchLog.fresh_events F es → BatchLog.f_slots F !! s = Some x →
  BatchLog.f_slots (foldl BatchLog.learn F es) !! s = Some x.
Proof.
  revert F. induction es as [|e es IH]; intros F Hf Hs; [done|]. destruct Hf as [Hf1 Hf]. simpl. apply IH; [done|].
  destruct e as [b|s' b rf|b|]; try done. simpl in *. rewrite lookup_insert_ne; [done|]. intros ->. destruct Hf1. congruence.
Qed.

Lemma learn_slot_in es F s b rf :
  BatchLog.fresh_events F es → BatchLog.BSlot s b rf ∈ es →
  BatchLog.f_slots (foldl BatchLog.learn F es) !! s = Some (b, rf) ∧ (0 ≤ s)%Z.
Proof.
  revert F. induction es as [|e es IH]; intros F Hf Hin; [by apply not_elem_of_nil in Hin|]. destruct Hf as [Hf1 Hf]. simpl.
  apply elem_of_cons in Hin as [<-|Hin]; [|by apply IH]. split; [|apply Hf1]. apply learn_slot_keep; [done|].
  simpl. apply lookup_insert_eq.
Qed.

Lemma learn_batch_none es F b :
  BatchLog.f_batches F !! b = None → (∀ x, BatchLog.BAdd x ∈ es → batch_id x ≠ b) →
  BatchLog.f_batches (foldl BatchLog.learn F es) !! b = None.
Proof.
  revert F. induction es as [|e es IH]; intros F HF Hno; [done|]. simpl. apply IH; [|intros x Hx; apply Hno; by right].
  destruct e as [x|s' b' rf|b'|]; try done. simpl. rewrite lookup_insert_ne; [done|]. apply Hno. left.
Qed.

(** Batch ids are cut to 32 bits on their way through the global Paxos. If the id [b] of
    a batch needs more and its commit at a slot reaches the orderer as the commit callback
    gives it, then, unless a batch with the cut id happens to exist, nothing from this slot
    on is ever handed to the sequencer. *)
Theorem global_order_truncates (es : list mho_event) (l : Paxos.Leader) (slot b v leader : Z) (m : MachineId) :
  (2 ^ 32 ≤ b)%Z →
  Paxos.Committed slot v m ∈ (Paxos.Leader_ProcessCommitRequest l slot b leader).2 →
  Forall event_ok es → BatchLog.fresh_events BatchLog.no_facts (es ≫= log_event) → (Z.of_nat (length es) < 2 ^ 55)%Z →
  MOrder slot v ∈ es → (∀ data x, MData data ∈ es → last data = Some x → batch_id x ≠ v) →
  v ≠ b ∧
  ∃ s outs, rfoldl mho_step mh_init es = Ok s ∧ mh_out s ≫= is_sequenced = outs ≫= ordered_txns ∧
    (Z.of_nat (length outs) ≤ slot)%Z.
Proof.
  intros Hb Hc Hes Hf Hlen Hin Hno. simpl in Hc. apply list_elem_of_singleton in Hc. injection Hc as -> _.
  assert (Hvb : u32 b ≠ b) by (unfold wrapu; pose proof (Z.mod_pos_bound b (2 ^ 32)); lia).
  split; [done|]. destruct (mho_run_ok es mh_init _ _ _ _ mh_init_inv Hes Hf) as (s & outs & sent & Hr & Hinv).
  { change (mh_counter mh_init) with 1%Z. lia. }
  pose proof Hinv as [H1 H2 H3 _ _ _ H7 _ _ _ _]. exists s, outs. split_and!; [done|done|].
  destruct (BatchLog.batch_inv_stream _ _ _ H1 H2 H3) as [Hp _].
  destruct (decide (Z.of_nat (length outs) ≤ slot)%Z) as [|Hgt]; [done|].
  assert (Hslot : BatchLog.BSlot slot (u32 b) 0 ∈ es ≫= log_event).
  { apply list_elem_of_bind. exists (MOrder slot (u32 b)). split; [left|done]. }
  destruct (learn_slot_in _ _ _ _ _ Hf Hslot) as [Hs H0].
  destruct (lookup_lt_is_Some_2 outs (Z.to_nat slot)) as [x Hx]; [lia|]. apply Hp in Hx. exfalso.
  unfold BatchLog.batch_stream in Hx. rewrite Z2Nat.id, Hs in Hx by lia. simpl in Hx.
  rewrite learn_batch_none in Hx; [done|done|].
  intros batch (e & He & Hine)%list_elem_of_bind. destruct e as [|data| | |]; simpl in He; try (by apply not_elem_of_nil in He).
  - destruct (last data) as [y|] eqn:E; [|by apply not_elem_of_nil in He]. apply list_elem_of_singleton in He.
    injection He as ->. simpl. by eapply Hno.
  - by apply list_elem_of_singleton in He.
Qed.
End orderer.

Definition mho_txn (i : TxnId) : Transaction :=
  set_internal (set_involved_replicas [0; 1]%Z)
    (make_txn i MULTI_HOME_OR_LOCK_ONLY (-1) (kCode []) [make_entry "A" WRITE 0 0; make_entry "B" WRITE 1 0]).

Definition mho_batch (i : BatchId) : Batch :=
  {| batch_id := i; transactions := [mho_txn i]; transaction_type := MULTI_HOME_OR_LOCK_ONLY; batch_events := [] |}.

Definition example_mho_events : list mho_event :=
  [MTxn (mho_txn 1); MOrder 1 300; MData [mho_batch 300]; MTxn (mho_txn 2); MTimer; MStats 1; MData [mho_batch 200]; MOrder 0 200].

Lemma multi_home_orderer_spec_witness :
  ∃ s outs, rfoldl (mho_step example_config (λ _, [])) (mh_init example_config) example_mho_events = Ok s ∧
    mh_out s ≫= is_sequenced = outs ≫= ordered_txns (λ _, []).
Proof.
  destruct (multi_home_orderer_spec example_config (λ _, []) example_mho_events) as (s & outs & sent & Hr & Ho & _).
  - repeat constructor; done.
  - apply (bool_decide_eq_true_1 _). vm_compute. reflexivity.
  - done.
  - exists s, outs. split; [exact Hr|exact Ho].
Defined.

(** The 42949673rd batch of machine 0 has the id 4294967300. *)
Lemma global_order_truncates_witness :
  ∃ s outs, rfoldl (mho_step example_config (λ _, [])) (mh_init example_config) [MData [mho_batch 4294967300]; MOrder 0 4] = Ok s ∧
    mh_out s ≫= is_sequenced = outs ≫= ordered_txns (λ _, []) ∧ (Z.of_nat (length outs) ≤ 0)%Z.
Proof.
  destruct (Paxos.MakePaxos Paxos.example_members 0) as [nd|] eqn:E; [|by vm_compute in E].
  apply (global_order_truncates example_config (λ _, []) [MData [mho_batch 4294967300]; MOrder 0 4]
    (Paxos.leader_ nd) 0 4294967300 4 0 0).
  - lia.
  - apply list_elem_of_here.
  - repeat constructor; done.
  - apply (bool_decide_eq_true_1 _). vm_compute. reflexivity.
  - done.
  - set_solver.
  - intros data x Hin Hl. apply elem_of_cons in Hin as [Hin|Hin]; [|by apply list_elem_of_singleton in Hin].
    injection Hin as ->. simpl in Hl. injection Hl as <-. done.
Defined.
