(* ===== verification/Server.v ===== *)
(** * The server

    [Server] of [module/server.cpp] takes the requests of clients, gives each an id, and
    answers a transaction when all of its partitions have reported. Sockets are lists: a
    message to a client carries the id it answers. *)
From S2P Require Import Prelude Types Config ProtoUtils Sequencer.

Inductive api_request :=
  | ApiTxn (t : Transaction)
  | ApiStats (module : ModuleId) (level : Z)
  | ApiMetrics (prefix : string)
  | ApiNotSet.

(** The statistics of the server itself, or those another module sent as JSON. *)
Inductive stats_json :=
  | ServerStats (counter : Z) (num_pending num_finished : nat)
      (pending : option (list (TxnId * Z))) (finished : option (list TxnId))
  | ModuleStats (json : string).

Inductive api_response :=
  | TxnResponse (t : Transaction)
  | StatsResponse (stats : stats_json)
  | MetricsResponse.

Inductive server_msg :=
  | ToForwarder (t : Transaction)
  | ToModule (module : ModuleId) (id : TxnId) (level : Z)
  | SignalTo (m : MachineId)
  | ToClient (id : TxnId) (identity : string) (stream_id : Z) (res : api_response).

Record FinishedTransaction := { req_ : option Transaction; remaining_partitions_ : Z }.

Record PendingResponse := { pr_identity : string; pr_stream_id : Z }.

Record server := {
  txn_id_counter_ : Z;
  pending_responses_ : gmap TxnId PendingResponse;
  finished_txns_ : gmap TxnId FinishedTransaction;
  offline_machines_ : gset MachineId;
  server_out : list server_msg
}.

Definition ValidateTransaction (t : Transaction) : Transaction :=
  if decide (keys t = []) then set_abort_reason "Txn accesses no key" (set_status ABORTED t)
  else set_status NOT_STARTED t.

(** A sub-transaction joins the ones that came before it; the result tells whether it was
    the last one. *)
Definition AddSubTxn (f : FinishedTransaction) (t : Transaction) (part : Z) :
    result (FinishedTransaction * bool) :=
  let remaining := u64 (remaining_partitions_ f - 1) in
  txn ← match req_ f with
        | None => Ok (set_internal (set_involved_partitions [part]) t)
        | Some txn =>
          txn ← MergeTransaction txn t;
          Ok (set_internal (λ i, set_involved_partitions (involved_partitions i ++ [part]) i) txn)
        end;
  Ok ({| req_ := Some txn; remaining_partitions_ := remaining |}, bool_decide (remaining = 0%Z)).

Section server.
  Context (c : Configuration).
  Context (recorded : TransactionEvent → list TransactionEventInfo).

Definition record_event (ev : TransactionEvent) (t : Transaction) : Transaction :=
  set_internal (λ i, set_events (events i ++ recorded ev) i) t.

(** [Initialize]: every other machine counts as offline and is told that this one is not. *)
Definition other_machines : list MachineId :=
  filter (λ m, m ≠ local_machine_id c) (all_machine_ids c).

Definition server_init : server :=
  {| txn_id_counter_ := 0; pending_responses_ := ∅; finished_txns_ := ∅;
     offline_machines_ := list_to_set other_machines; server_out := SignalTo <$> other_machines |}.

Definition emit (ms : list server_msg) (s : server) : server :=
  {| txn_id_counter_ := txn_id_counter_ s; pending_responses_ := pending_responses_ s;
     finished_txns_ := finished_txns_ s; offline_machines_ := offline_machines_ s;
     server_out := server_out s ++ ms |}.

Definition set_pending (p : gmap TxnId PendingResponse) (s : server) : server :=
  {| txn_id_counter_ := txn_id_counter_ s; pending_responses_ := p; finished_txns_ := finished_txns_ s;
     offline_machines_ := offline_machines_ s; server_out := server_out s |}.

Definition set_finished (f : gmap TxnId FinishedTransaction) (s : server) : server :=
  {| txn_id_counter_ := txn_id_counter_ s; pending_responses_ := pending_responses_ s; finished_txns_ := f;
     offline_machines_ := offline_machines_ s; server_out := server_out s |}.

(** The id that a value of the counter gives. *)
Definition id_of (counter : Z) : TxnId := u64 (counter * kMaxNumMachines + local_machine_id c).

Definition NextTxnId (s : server) : server * TxnId :=
  let counter := u64 (txn_id_counter_ s + 1) in
  ({| txn_id_counter_ := counter; pending_responses_ := pending_responses_ s;
      finished_txns_ := finished_txns_ s; offline_machines_ := offline_machines_ s; server_out := server_out s |},
   id_of counter).

Definition SendResponseToClient (id : TxnId) (res : api_response) (s : server) : server :=
  match pending_responses_ s !! id with
  | None => s
  | Some p => set_pending (delete id (pending_responses_ s)) (emit [ToClient id (pr_identity p) (pr_stream_id p) res] s)
  end.

Definition SendTxnToClient (t : Transaction) (s : server) : server :=
  let t := record_event EXIT_SERVER_TO_CLIENT t in
  SendResponseToClient (txn_id t) (TxnResponse t) s.

Definition OnStatsResponse (id : TxnId) (json : stats_json) (s : server) : server :=
  SendResponseToClient id (StatsResponse json) s.

Definition ServerProcessStats (id : TxnId) (level : Z) (s : server) : server :=
  OnStatsResponse id
    (ServerStats (txn_id_counter_ s) (size (pending_responses_ s)) (size (finished_txns_ s))
       (if decide (1 ≤ i32 level)%Z then Some ((λ p, (p.1, pr_stream_id p.2)) <$> map_to_list (pending_responses_ s)) else None)
       (if decide (1 ≤ i32 level)%Z then Some (map_to_list (finished_txns_ s)).*1 else None)) s.

Definition OnClientRequest (identity : string) (stream_id : Z) (r : api_request) (s : server) : result server :=
  let '(s, txn_id) := NextTxnId s in
  match pending_responses_ s !! txn_id with
  | Some _ => Err (Fatal "Duplicate transaction id")
  | None =>
    let s := set_pending (<[txn_id := {| pr_identity := identity; pr_stream_id := stream_id |}]> (pending_responses_ s)) s in
    match r with
    | ApiTxn t =>
      let t := set_internal (λ i, set_coordinating_server (u32 (local_machine_id c)) (set_id txn_id i)) t in
      let t := ValidateTransaction (record_event ENTER_SERVER t) in
      if decide (status t = ABORTED) then Ok (SendTxnToClient t s)
      else Ok (emit [ToForwarder (record_event EXIT_SERVER_TO_FORWARDER t)] s)
    | ApiStats module level =>
      match module with
      | SERVER => Ok (ServerProcessStats txn_id level s)
      | FORWARDER | MHORDERER | SEQUENCER | SCHEDULER => Ok (emit [ToModule module txn_id level] s)
      | _ => Ok s
      end
    | ApiMetrics _ => Ok (SendResponseToClient txn_id MetricsResponse s)
    | ApiNotSet => Ok (set_pending (delete txn_id (pending_responses_ s)) s)
    end
  end.

Definition ProcessFinishedSubtxn (from : MachineId) (t : Transaction) (s : server) : result server :=
  let t := record_event RETURN_TO_SERVER t in
  let id := txn_id t in
  match pending_responses_ s !! id with
  | None => Ok s
  | Some _ =>
    let part := (UnpackMachineId c from).2 in
    let f := default {| req_ := None; remaining_partitions_ := Z.of_nat (length (involved_partitions (internal t))) |}
               (finished_txns_ s !! id) in
    '(f, last_one) ← AddSubTxn f t part;
    let s := set_finished (<[id := f]> (finished_txns_ s)) s in
    if (last_one : bool) then
      match req_ f with
      | Some txn => Ok (set_finished (delete id (finished_txns_ s)) (SendTxnToClient txn s))
      | None => Err (Undef "ReleaseTxn")
      end
    else Ok s
  end.

Inductive server_event :=
  | Client (identity : string) (stream_id : Z) (r : api_request)
  | Signal (from : MachineId)
  | FinishedSubtxn (from : MachineId) (t : Transaction)
  | StatsReply (id : TxnId) (json : string).

Definition server_step (s : server) (e : server_event) : result server :=
  match e with
  | Client identity stream_id r => OnClientRequest identity stream_id r s
  | Signal from =>
    Ok {| txn_id_counter_ := txn_id_counter_ s; pending_responses_ := pending_responses_ s;
          finished_txns_ := finished_txns_ s; offline_machines_ := offline_machines_ s ∖ {[from]};
          server_out := server_out s |}
  | FinishedSubtxn from t => ProcessFinishedSubtxn from t s
  | StatsReply id json => Ok (OnStatsResponse id (ModuleStats json) s)
  end.

(** ** What is expected *)

(** The sub-transactions of one transaction among the events, with their partitions. *)
Definition sub_of (id : TxnId) (e : server_event) : list (Z * Transaction) :=
  match e with
  | FinishedSubtxn from t =>
    if decide (txn_id t = id) then [((UnpackMachineId c from).2, record_event RETURN_TO_SERVER t)] else []
  | _ => []
  end.

Definition answers_of (id : TxnId) (m : server_msg) : list (string * Z * api_response) :=
  match m with
  | ToClient id' identity stream res => if decide (id' = id) then [(identity, stream, res)] else []
  | _ => []
  end.

Definition answers (id : TxnId) (s : server) : list (string * Z * api_response) := server_out s ≫= answers_of id.

(** All of the sub-transactions merged, in the order of their arrival. *)
Definition add_part (part : Z) (t : Transaction) : Transaction :=
  set_internal (λ i, set_involved_partitions (involved_partitions i ++ [part]) i) t.

Fixpoint merge_rest (t : Transaction) (subs : list (Z * Transaction)) : result Transaction :=
  match subs with
  | [] => Ok t
  | (p, t') :: subs => t ← MergeTransaction t t'; merge_rest (add_part p t) subs
  end.

Definition merge_subs (subs : list (Z * Transaction)) : option Transaction :=
  match subs with
  | [] => None
  | (p, t) :: subs =>
    match merge_rest (set_internal (set_involved_partitions [p]) t) subs with Ok m => Some m | Err _ => None end
  end.

Definition quiet (id : TxnId) (e : server_event) : Prop :=
  match e with StatsReply id' _ => id' ≠ id | _ => True end.

(** How many partitions the first sub-transaction announces. *)
Definition announced (subs : list (Z * Transaction)) : nat :=
  match subs with [] => 1 | (_, t) :: _ => length (involved_partitions (internal t)) end.

(** Where the transaction [id] is after the sub-transactions [subs], when the answers to
    it before were [before]. *)
Definition collecting (id : TxnId) (p : PendingResponse) (before : list (string * Z * api_response))
    (subs : list (Z * Transaction)) (s : server) : Prop :=
  if decide (length subs < announced subs) then
    pending_responses_ s !! id = Some p ∧ answers id s = before ∧
    match subs with
    | [] => finished_txns_ s !! id = None
    | _ => ∃ m, merge_subs subs = Some m ∧ txn_id m = id ∧
        finished_txns_ s !! id = Some {| req_ := Some m;
          remaining_partitions_ := Z.of_nat (announced subs) - Z.of_nat (length subs) |}
    end
  else
    pending_responses_ s !! id = None ∧ finished_txns_ s !! id = None ∧
    ∃ m, merge_subs (take (announced subs) subs) = Some m ∧
      answers id s = before ++ [(pr_identity p, pr_stream_id p, TxnResponse (record_event EXIT_SERVER_TO_CLIENT m))].

(** ** Ids *)

Definition ids_fit (counter : Z) : Prop := (0 ≤ local_machine_id c < 2 ^ 31)%Z ∧ (0 ≤ counter < 2 ^ 57)%Z.

Lemma id_of_inj k1 k2 : ids_fit k1 → ids_fit k2 → id_of k1 = id_of k2 → k1 = k2.
Proof.
  intros [Hm H1] [_ H2]. unfold id_of, kMaxNumMachines, wrapu. rewrite !Z.mod_small by lia. lia.
Qed.

Lemma next_counter s : ids_fit (txn_id_counter_ s + 1) → (0 ≤ txn_id_counter_ s)%Z →
  u64 (txn_id_counter_ s + 1) = (txn_id_counter_ s + 1)%Z.
Proof. intros [_ H] ?. unfold wrapu. rewrite Z.mod_small; lia. Qed.

(** ** Events that concern other transactions *)

Definition same_for (id : TxnId) (s s' : server) : Prop :=
  pending_responses_ s' !! id = pending_responses_ s !! id ∧
  finished_txns_ s' !! id = finished_txns_ s !! id ∧ answers id s' = answers id s ∧
  txn_id_counter_ s' = txn_id_counter_ s.

Lemma respond_other id id' res s : id' ≠ id → same_for id s (SendResponseToClient id' res s).
Proof.
  intros Hne. unfold SendResponseToClient. destruct (pending_responses_ s !! id') as [p|]; [|by split_and!].
  split_and!; try done; simpl.
  - by rewrite lookup_delete_ne.
  - unfold answers. simpl. rewrite bind_app, bind_one. simpl. rewrite decide_False by done. by rewrite app_nil_r.
Qed.

Lemma same_for_trans id s1 s2 s3 : same_for id s1 s2 → same_for id s2 s3 → same_for id s1 s3.
Proof. intros (?&?&?&?) (?&?&?&?). split_and!; congruence. Qed.

Lemma emit_other id ms s : ms ≫= answers_of id = [] → same_for id s (emit ms s).
Proof. intros Hm. split_and!; try done. unfold answers. simpl. by rewrite bind_app, Hm, app_nil_r. Qed.

Lemma client_other id identity stream r s s' :
  let id' := id_of (u64 (txn_id_counter_ s + 1)) in
  id' ≠ id → OnClientRequest identity stream r s = Ok s' →
  pending_responses_ s' !! id = pending_responses_ s !! id ∧
  finished_txns_ s' !! id = finished_txns_ s !! id ∧ answers id s' = answers id s ∧
  txn_id_counter_ s' = u64 (txn_id_counter_ s + 1).
Proof.
  intros id' Hne. unfold OnClientRequest, NextTxnId. cbn [pending_responses_]. fold id'.
  destruct (pending_responses_ s !! id'); [done|].
  match goal with |- context [set_pending ?p ?x] => set (s1 := set_pending p x) end.
  assert (Hs1 : pending_responses_ s1 !! id = pending_responses_ s !! id ∧ finished_txns_ s1 !! id = finished_txns_ s !! id ∧
    answers id s1 = answers id s ∧ txn_id_counter_ s1 = u64 (txn_id_counter_ s + 1)).
  { split_and!; try done. simpl. by rewrite lookup_insert_ne. }
  assert (Hgo : ∀ s2, same_for id s1 s2 → pending_responses_ s2 !! id = pending_responses_ s !! id ∧
    finished_txns_ s2 !! id = finished_txns_ s !! id ∧ answers id s2 = answers id s ∧
    txn_id_counter_ s2 = u64 (txn_id_counter_ s + 1)).
  { intros s2 (?&?&?&?). destruct Hs1 as (?&?&?&?). split_and!; congruence. }
  destruct r as [t|module level|pre|].
  - match goal with |- context [decide (status ?x = ABORTED)] => set (t1 := x) end.
    destruct (decide (status t1 = ABORTED)); intros [= <-]; apply Hgo; [|by apply emit_other].
    apply respond_other. unfold t1, ValidateTransaction. by case_decide.
  - destruct module; intros [= <-]; try (by apply Hgo; split_and!); apply Hgo; try (by apply emit_other).
    by apply respond_other.
  - intros [= <-]. apply Hgo. by apply respond_other.
  - intros [= <-]. apply Hgo. split_and!; try done. simpl. by rewrite lookup_delete_ne.
Qed.

(** ** Well-formed servers *)

Definition issued (s : server) (id : TxnId) : Prop := ∃ k, (0 < k ≤ txn_id_counter_ s)%Z ∧ id = id_of k.

Record server_wf (s : server) : Prop := {
  sw_counter : (0 ≤ txn_id_counter_ s)%Z;
  sw_pending id p : pending_responses_ s !! id = Some p → issued s id;
  sw_finished id f : finished_txns_ s !! id = Some f →
    issued s id ∧ ∀ m, req_ f = Some m → txn_id m = id;
  sw_answers id : answers id s ≠ [] → issued s id
}.

Lemma merge_id t1 t2 m : MergeTransaction t1 t2 = Ok m → txn_id m = txn_id t1.
Proof. unfold MergeTransaction. repeat case_decide; intros [= <-]; done. Qed.

Lemma AddSubTxn_id f t p f' l :
  AddSubTxn f t p = Ok (f', l) → (∀ m, req_ f = Some m → txn_id m = txn_id t) →
  ∃ m, req_ f' = Some m ∧ txn_id m = txn_id t.
Proof.
  unfold AddSubTxn. intros H Hf. destruct (req_ f) as [m|]; cbn [mbind result_bind] in H.
  - destruct (MergeTransaction m t) as [m'|] eqn:E; cbn [mbind result_bind] in H; [|done]. injection H as <- _.
    eexists. split; [done|]. apply merge_id in E. change (txn_id m' = txn_id t). rewrite E. by apply Hf.
  - injection H as <- _. by eexists.
Qed.

Lemma finished_other id from t s s' :
  server_wf s → txn_id t ≠ id → ProcessFinishedSubtxn from t s = Ok s' → same_for id s s'.
Proof.
  intros Hwf Hne. unfold ProcessFinishedSubtxn. change (txn_id (record_event RETURN_TO_SERVER t)) with (txn_id t).
  destruct (pending_responses_ s !! txn_id t); [|intros [= <-]; by split_and!].
  destruct (AddSubTxn _ _ _) as [[f l]|] eqn:E; cbn [mbind result_bind]; [|done].
  set (s1 := set_finished (<[txn_id t := f]> (finished_txns_ s)) s).
  assert (H1 : same_for id s s1) by (split_and!; try done; simpl; by rewrite lookup_insert_ne).
  apply AddSubTxn_id in E as (txn & Hr & Hid).
  2:{ intros m Hm. destruct (finished_txns_ s !! txn_id t) as [f0|] eqn:Ef; [|done]. by apply (sw_finished s Hwf _ _ Ef). }
  destruct l; [|intros [= <-]; done]. rewrite Hr. intros [= <-]. eapply same_for_trans; [exact H1|].
  assert (H2 : same_for id s1 (SendTxnToClient txn s1)).
  { apply respond_other. change (txn_id txn ≠ id). by rewrite Hid. }
  eapply same_for_trans; [exact H2|]. split_and!; try done. simpl. rewrite lookup_delete_ne by done.
  destruct H2 as (_ & H2 & _). by rewrite H2.
Qed.

Lemma stats_other id id' json s : id' ≠ id → same_for id s (OnStatsResponse id' json s).
Proof. intros. by apply respond_other. Qed.

Lemma server_step_other id s e s' :
  server_wf s → ids_fit (txn_id_counter_ s + 1) → issued s id → sub_of id e = [] → quiet id e →
  server_step s e = Ok s' →
  pending_responses_ s' !! id = pending_responses_ s !! id ∧
  finished_txns_ s' !! id = finished_txns_ s !! id ∧ answers id s' = answers id s.
Proof.
  intros Hwf Hfit (k & Hk & ->) Hsub Hq. destruct e as [identity stream r|from|from t|id' json]; simpl in *.
  - intros Hr. apply (client_other (id_of k)) in Hr as (? & ? & ? & _); [done|].
    rewrite next_counter by (done || apply Hwf). intros Heq%id_of_inj; [lia|done|].
    destruct Hfit. split; [done|lia].
  - intros [= <-]. done.
  - case_decide; [done|]. intros Hr. apply (finished_other (id_of k)) in Hr as (? & ? & ? & _); done.
  - intros [= <-]. by destruct (stats_other (id_of k) id' (ModuleStats json) s Hq) as (? & ? & ? & _).
Qed.

(** *** Steps keep servers well-formed *)

Lemma wf_mono s s' :
  server_wf s → (txn_id_counter_ s ≤ txn_id_counter_ s')%Z →
  (∀ id, pending_responses_ s' !! id = pending_responses_ s !! id ∧ finished_txns_ s' !! id = finished_txns_ s !! id ∧
     answers id s' = answers id s ∨ issued s' id ∧ ∀ f m, finished_txns_ s' !! id = Some f → req_ f = Some m → txn_id m = id) →
  server_wf s'.
Proof.
  intros [H1 H2 H3 H4] Hc Hid.
  assert (Hi : ∀ id, issued s id → issued s' id) by (intros id (k & ? & ->); exists k; split; [lia|done]).
  split; [lia|..].
  - intros id p Hp. destruct (Hid id) as [(E & _)|[? _]]; [|done]. rewrite E in Hp. eauto.
  - intros id f Hf. destruct (Hid id) as [(_ & E & _)|[? Hf']]; [|split; eauto]. rewrite E in Hf.
    destruct (H3 id f Hf). eauto.
  - intros id Ha. destruct (Hid id) as [(_ & _ & E)|[? _]]; [|done]. rewrite E in Ha. eauto.
Qed.

Lemma client_counter identity stream r s s' :
  OnClientRequest identity stream r s = Ok s' → finished_txns_ s' = finished_txns_ s ∧
  txn_id_counter_ s' = u64 (txn_id_counter_ s + 1).
Proof.
  unfold OnClientRequest, NextTxnId. cbn [pending_responses_]. destruct (pending_responses_ s !! _); [done|].
  assert (Hr : ∀ id res s0, finished_txns_ (SendResponseToClient id res s0) = finished_txns_ s0 ∧
    txn_id_counter_ (SendResponseToClient id res s0) = txn_id_counter_ s0).
  { intros id res s0. unfold SendResponseToClient. by destruct (pending_responses_ s0 !! id). }
  destruct r as [t|module level|pre|].
  - match goal with |- context [decide (status ?x = ABORTED)] => destruct (decide (status x = ABORTED)) end;
      intros [= <-]; [|done]. unfold SendTxnToClient.
    match goal with |- context [SendResponseToClient ?a ?b ?d] => by destruct (Hr a b d) as [-> ->] end.
  - destruct module; intros [= <-]; try done. unfold ServerProcessStats, OnStatsResponse.
    match goal with |- context [SendResponseToClient ?a ?b ?d] => by destruct (Hr a b d) as [-> ->] end.
  - intros [= <-]. match goal with |- context [SendResponseToClient ?a ?b ?d] => by destruct (Hr a b d) as [-> ->] end.
  - intros [= <-]. done.
Qed.

Lemma respond_counter id res s :
  txn_id_counter_ (SendResponseToClient id res s) = txn_id_counter_ s ∧
  finished_txns_ (SendResponseToClient id res s) = finished_txns_ s.
Proof. unfold SendResponseToClient. by destruct (pending_responses_ s !! id). Qed.

Lemma finished_wf from t s s' :
  server_wf s → ProcessFinishedSubtxn from t s = Ok s' →
  server_wf s' ∧ txn_id_counter_ s' = txn_id_counter_ s.
Proof.
  intros Hwf Hr. pose proof (λ id Hne, finished_other id from t s s' Hwf Hne Hr) as Hother.
  unfold ProcessFinishedSubtxn in Hr. change (txn_id (record_event RETURN_TO_SERVER t)) with (txn_id t) in Hr.
  destruct (pending_responses_ s !! txn_id t) as [p|] eqn:Hp; [|injection Hr as <-; done].
  pose proof (sw_pending s Hwf _ _ Hp) as Hiss.
  destruct (AddSubTxn _ _ _) as [[f l]|] eqn:E; cbn [mbind result_bind] in Hr; [|done].
  apply AddSubTxn_id in E as (txn & Hrq & Hid).
  2:{ intros m Hm. destruct (finished_txns_ s !! txn_id t) as [f0|] eqn:Ef; [|done]. by apply (sw_finished s Hwf _ _ Ef). }
  change (txn_id txn = txn_id t) in Hid.
  assert (Hc : txn_id_counter_ s' = txn_id_counter_ s).
  { destruct l; [|by injection Hr as <-]. rewrite Hrq in Hr. injection Hr as <-. unfold SendTxnToClient. simpl.
    match goal with |- context [SendResponseToClient ?a ?b ?d] => destruct (respond_counter a b d) as [-> _] end. done. }
  split; [|done]. apply (wf_mono s); [done|lia|]. intros id. destruct (decide (txn_id t = id)) as [<-|Hne].
  - right. split; [destruct Hiss as (k & ? & ->); exists k; split; [lia|done]|].
    intros f' m. destruct l.
    + rewrite Hrq in Hr. injection Hr as <-. simpl. by rewrite lookup_delete_eq.
    + injection Hr as <-. simpl. rewrite lookup_insert_eq. intros [= <-] Hm. congruence.
  - left. destruct (Hother id Hne) as (?&?&?&_). done.
Qed.

Lemma server_step_wf s e s' :
  server_wf s → ids_fit (txn_id_counter_ s + 1) → server_step s e = Ok s' →
  server_wf s' ∧ (txn_id_counter_ s ≤ txn_id_counter_ s' ≤ txn_id_counter_ s + 1)%Z.
Proof.
  intros Hwf Hfit. pose proof Hwf as [H1 H2 H3 H4]. destruct e as [identity stream r|from|from t|id' json]; simpl.
  - intros Hr. destruct (client_counter _ _ _ _ _ Hr) as [Hf Hc]. rewrite next_counter in Hc by done.
    split; [|lia]. apply (wf_mono s); [done|lia|]. intros id.
    destruct (decide (id_of (u64 (txn_id_counter_ s + 1)) = id)) as [<-|Hne].
    + right. rewrite next_counter by done. split; [exists (txn_id_counter_ s + 1)%Z; split; [lia|done]|].
      intros f m Hf'. rewrite Hf in Hf'. by apply (H3 _ _ Hf').
    + left. by destruct (client_other id _ _ _ _ _ Hne Hr) as (?&?&?&_).
  - intros [= <-]. split; [|simpl; lia]. by apply (wf_mono s); [done|simpl; lia|left].
  - intros Hr. destruct (finished_wf from t s s' Hwf Hr) as [? ->]. split; [done|lia].
  - intros [= <-]. unfold OnStatsResponse. destruct (respond_counter id' (StatsResponse (ModuleStats json)) s) as [Hc Hf].
    split; [|lia]. apply (wf_mono s); [done|lia|]. intros id. destruct (decide (id' = id)) as [<-|Hne].
    + destruct (pending_responses_ s !! id') as [p|] eqn:Hp.
      * right. destruct (H2 _ _ Hp) as (k & Hk & Hid). split; [exists k; split; [lia|done]|].
        intros f m Hf'. rewrite Hf in Hf'. by apply (H3 _ _ Hf').
      * left. unfold SendResponseToClient. by rewrite Hp.
    + left. by destruct (respond_other id id' (StatsResponse (ModuleStats json)) s Hne) as (?&?&?&_).
Qed.

Lemma server_init_wf : server_wf server_init.
Proof.
  split; simpl; try done. intros id Ha. destruct Ha. unfold answers. simpl. clear.
  induction other_machines as [|m l IH]; [done|]. rewrite fmap_cons, bind_cons, IH. done.
Qed.

(** ** Collecting the sub-transactions of one transaction *)

Lemma merge_rest_app t subs1 subs2 :
  merge_rest t (subs1 ++ subs2) = (t ← merge_rest t subs1; merge_rest t subs2).
Proof.
  revert t. induction subs1 as [|[p t'] subs1 IH]; intros t; [done|]. simpl.
  destruct (MergeTransaction t t'); cbn [mbind result_bind]; [|done]. apply IH.
Qed.

Lemma announced_app subs x : subs ≠ [] → announced (subs ++ [x]) = announced subs.
Proof. by destruct subs. Qed.

(** What [AddSubTxn] makes of the next sub-transaction. *)
Lemma add_next id p before subs s t part f l :
  collecting id p before subs s → length subs < announced subs → txn_id t = id →
  0 < announced (subs ++ [(part, t)]) → (Z.of_nat (announced (subs ++ [(part, t)])) < 2 ^ 64)%Z →
  AddSubTxn (default {| req_ := None; remaining_partitions_ := Z.of_nat (length (involved_partitions (internal t))) |}
    (finished_txns_ s !! id)) t part = Ok (f, l) →
  ∃ m, merge_subs (subs ++ [(part, t)]) = Some m ∧ txn_id m = id ∧
    let left := (Z.of_nat (announced (subs ++ [(part, t)])) - Z.of_nat (length (subs ++ [(part, t)])))%Z in
    f = {| req_ := Some m; remaining_partitions_ := left |} ∧ l = bool_decide (left = 0%Z) ∧ (0 ≤ left)%Z.
Proof.
  intros Hc Hlt Hid Hpos Hb. unfold collecting in Hc. rewrite decide_True in Hc by done. destruct Hc as (_ & _ & Hc).
  destruct subs as [|[p0 t0] subs].
  - rewrite Hc. cbn [from_option Datatypes.id announced app length] in *. unfold AddSubTxn. cbn [req_ remaining_partitions_ mbind result_bind].
    unfold wrapu. rewrite Z.mod_small by lia. intros [= <- <-]. eexists. split; [done|].
    split; [exact Hid|]. split; [reflexivity|]. split; [reflexivity|]. lia.
  - destruct Hc as (m & Hm & Hmid & Hf). rewrite Hf. unfold AddSubTxn. cbn [from_option Datatypes.id req_ remaining_partitions_].
    destruct (MergeTransaction m t) as [m'|] eqn:E; cbn [mbind result_bind]; [|done].
    cbn [announced app] in *. cbn [length] in *. unfold wrapu. rewrite Z.mod_small by lia.
    intros [= <- <-]. exists (add_part part m'). split.
    + unfold merge_subs in *. rewrite merge_rest_app. destruct (merge_rest _ subs) as [m1|] eqn:E1; [|done].
      injection Hm as ->. cbn [mbind result_bind merge_rest]. rewrite E. done.
    + apply merge_id in E. change (txn_id (add_part part m')) with (txn_id m'). rewrite length_app. cbn [length].
      replace (Z.of_nat (length (involved_partitions (internal t0))) - Z.of_nat (S (length subs)) - 1)%Z with
        (Z.of_nat (length (involved_partitions (internal t0))) - Z.of_nat (S (length subs + 1)))%Z by lia.
      split; [congruence|]. split; [done|]. split; [done|]. lia.
Qed.

Lemma collecting_step id p before subs s from t s' :
  let x := ((UnpackMachineId c from).2, record_event RETURN_TO_SERVER t) in
  collecting id p before subs s → txn_id t = id → 0 < announced (subs ++ [x]) →
  (Z.of_nat (announced (subs ++ [x])) < 2 ^ 64)%Z →
  ProcessFinishedSubtxn from t s = Ok s' → collecting id p before (subs ++ [x]) s'.
Proof.
  intros x Hc Hid Hpos Hb Hr. unfold ProcessFinishedSubtxn in Hr.
  change (txn_id (record_event RETURN_TO_SERVER t)) with (txn_id t) in Hr. rewrite Hid in Hr.
  destruct (decide (length subs < announced subs)) as [Hlt|Hge].
  - assert (Hp : pending_responses_ s !! id = Some p ∧ answers id s = before).
    { unfold collecting in Hc. rewrite decide_True in Hc by done. destruct Hc as (? & ? & _). done. }
    destruct Hp as [Hp Ha]. rewrite Hp in Hr. destruct (AddSubTxn _ _ _) as [[f l]|] eqn:E; cbn [mbind result_bind] in Hr; [|done].
    apply (add_next id p before subs s (record_event RETURN_TO_SERVER t) (UnpackMachineId c from).2 f l Hc Hlt Hid Hpos Hb) in E as (m & Hm & Hmid & -> & -> & Hleft).
    fold x in Hm, Hr, Hleft. unfold collecting. case_bool_decide as Hz.
    + rewrite decide_False by lia. cbn [req_] in Hr. injection Hr as <-. unfold SendTxnToClient, SendResponseToClient.
      change (txn_id (record_event EXIT_SERVER_TO_CLIENT m)) with (txn_id m). rewrite Hmid. cbn [set_finished pending_responses_].
      rewrite Hp. simpl. rewrite !lookup_delete_eq. split; [done|]. split; [done|]. exists m. rewrite take_ge by lia.
      split; [done|]. unfold answers in *. simpl. rewrite bind_app, Ha, bind_one. simpl. by rewrite decide_True.
    + rewrite decide_True by lia. injection Hr as <-. simpl. split; [done|]. split; [done|].
      destruct (subs ++ [x]) eqn:Es; [by destruct subs|]. exists m. split; [done|]. split; [done|]. by rewrite lookup_insert_eq.
  - assert (Hne : subs ≠ []) by (intros ->; simpl in Hge; lia). unfold collecting in Hc |- *. rewrite announced_app by done.
    rewrite decide_False in Hc by done. rewrite decide_False by (rewrite length_app; lia).
    destruct Hc as (Hp & Hf & m & Hm & Ha). rewrite Hp in Hr. injection Hr as <-. split; [done|]. split; [done|].
    exists m. rewrite take_app_le by lia. done.
Qed.

Lemma collecting_other id p before subs s s' :
  pending_responses_ s' !! id = pending_responses_ s !! id → finished_txns_ s' !! id = finished_txns_ s !! id →
  answers id s' = answers id s → collecting id p before subs s → collecting id p before subs s'.
Proof. intros H1 H2 H3. unfold collecting. by rewrite H1, H2, H3. Qed.

Lemma collecting_run id p before es s s' subs :
  server_wf s → issued s id → collecting id p before subs s → rfoldl server_step s es = Ok s' →
  ids_fit (txn_id_counter_ s + Z.of_nat (length es)) → Forall (quiet id) es →
  (subs ++ (es ≫= sub_of id) ≠ [] → 0 < announced (subs ++ (es ≫= sub_of id))) →
  (Z.of_nat (announced (subs ++ (es ≫= sub_of id))) < 2 ^ 64)%Z →
  collecting id p before (subs ++ (es ≫= sub_of id)) s'.
Proof.
  revert s subs. induction es as [|e es IH]; intros s subs Hwf Hi Hc Hr Hfit Hq Hpos Hb.
  { cbn in Hr. injection Hr as <-. by rewrite app_nil_r in *. }
  cbn [rfoldl] in Hr. destruct (server_step s e) as [s1|] eqn:E; cbn [mbind result_bind] in Hr; [|done].
  apply Forall_cons in Hq as [Hq1 Hq]. rewrite bind_cons in *. cbn [length] in Hfit.
  assert (Hfit1 : ids_fit (txn_id_counter_ s + 1)). { destruct Hfit as [? Hf]. pose proof (sw_counter s Hwf). split; [done|lia]. }
  destruct (server_step_wf s e s1 Hwf Hfit1 E) as [Hwf1 Hc1].
  assert (Hi1 : issued s1 id) by (destruct Hi as (k & ? & ->); exists k; split; [lia|done]).
  assert (Hfit2 : ids_fit (txn_id_counter_ s1 + Z.of_nat (length es))).
  { destruct Hfit as [? Hf]. pose proof (sw_counter s1 Hwf1). split; [done|lia]. }
  destruct (sub_of id e) as [|x xs] eqn:Es.
  - destruct (server_step_other id s e s1 Hwf Hfit1 Hi Es Hq1 E) as (?&?&?).
    apply (IH s1 subs); try done. by eapply collecting_other.
  - destruct e as [| |from t|]; try done. cbn [sub_of] in Es. case_decide as Hid; [|done]. injection Es as <- <-.
    rewrite app_assoc in *. apply (IH s1); try done. cbn [server_step] in E.
    assert (Hann : announced (subs ++ [((UnpackMachineId c from).2, record_event RETURN_TO_SERVER t)]) =
      announced ((subs ++ [((UnpackMachineId c from).2, record_event RETURN_TO_SERVER t)]) ++ (es ≫= sub_of id))).
    { destruct subs as [|[? ?] ?]; done. }
    eapply collecting_step; [exact Hc|done|rewrite Hann; apply Hpos; by destruct subs|by rewrite Hann|exact E].
Qed.

(** ** No duplicate ids *)

Definition no_duplicate (f : fault) : Prop := f ≠ Fatal "Duplicate transaction id".

Lemma server_step_fault s e f :
  server_wf s → ids_fit (txn_id_counter_ s + 1) → server_step s e = Err f → no_duplicate f.
Proof.
  intros Hwf Hfit. destruct e as [identity stream r|from|from t|id' json]; simpl; try done.
  - unfold OnClientRequest, NextTxnId. cbn [pending_responses_]. rewrite next_counter by (done || apply Hwf).
    destruct (pending_responses_ s !! id_of (txn_id_counter_ s + 1)) as [p|] eqn:E.
    + apply (sw_pending s Hwf) in E as (k & Hk & Heq%id_of_inj); [lia|done|]. destruct Hfit. split; [done|lia].
    + destruct r as [t|module level|pre|]; try done; [|by destruct module].
      match goal with |- context [decide (status ?x = ABORTED)] => by destruct (decide (status x = ABORTED)) end.
  - unfold ProcessFinishedSubtxn. destruct (pending_responses_ s !! _); [|done].
    match goal with |- context [AddSubTxn ?a ?b ?d] => destruct (AddSubTxn a b d) as [[f' l]|f'] eqn:E end; cbn [mbind result_bind].
    + destruct l; [|done]. destruct (req_ f'); [done|]. by intros [= <-].
    + intros [= <-]. unfold AddSubTxn in E. destruct (req_ _) as [m|]; cbn [mbind result_bind] in E; [|done].
      destruct (MergeTransaction m _) as [|f0] eqn:Em; cbn [mbind result_bind] in E; [done|]. injection E as <-.
      unfold MergeTransaction in Em. repeat case_decide; by simplify_eq.
Qed.

Lemma respond_out id res s : server_out s `prefix_of` server_out (SendResponseToClient id res s).
Proof. unfold SendResponseToClient. destruct (pending_responses_ s !! id); [by eexists|done]. Qed.

Lemma server_step_out s e s' : server_step s e = Ok s' → server_out s `prefix_of` server_out s'.
Proof.
  destruct e as [identity stream r|from|from t|id' json]; simpl.
  - unfold OnClientRequest, NextTxnId. cbn [pending_responses_]. destruct (pending_responses_ s !! _); [done|].
    destruct r as [t|module level|pre|].
    + match goal with |- context [decide (status ?x = ABORTED)] => destruct (decide (status x = ABORTED)) end;
        intros [= <-]; [|by eexists]. unfold SendTxnToClient. etrans; [|apply respond_out]. done.
    + destruct module; intros [= <-]; try done; try (by eexists). etrans; [|apply respond_out]. done.
    + intros [= <-]. etrans; [|apply respond_out]. done.
    + intros [= <-]. done.
  - intros [= <-]. done.
  - unfold ProcessFinishedSubtxn. destruct (pending_responses_ s !! _); [|by intros [= <-]].
    match goal with |- context [AddSubTxn ?a ?b ?d] => destruct (AddSubTxn a b d) as [[f l]|] end; cbn [mbind result_bind]; [|done].
    destruct l; [|by intros [= <-]]. destruct (req_ f); [|done]. intros [= <-]. simpl. etrans; [|apply respond_out]. done.
  - intros [= <-]. apply respond_out.
Qed.

Lemma server_out_mono es s s' m : rfoldl server_step s es = Ok s' → m ∈ server_out s → m ∈ server_out s'.
Proof.
  revert s. induction es as [|e es IH]; intros s Hr Hm; cbn [rfoldl] in Hr; [by injection Hr as <-|].
  destruct (server_step s e) as [s1|] eqn:E; cbn [mbind result_bind] in Hr; [|done].
  apply (IH s1 Hr). apply server_step_out in E as [k ->]. apply elem_of_app. by left.
Qed.

Lemma server_run_wf es s s' :
  server_wf s → ids_fit (txn_id_counter_ s + Z.of_nat (length es)) → rfoldl server_step s es = Ok s' →
  server_wf s' ∧ (txn_id_counter_ s ≤ txn_id_counter_ s' ≤ txn_id_counter_ s + Z.of_nat (length es))%Z.
Proof.
  revert s. induction es as [|e es IH]; intros s Hwf Hfit Hr; cbn [rfoldl length] in *.
  { injection Hr as <-. split; [done|lia]. }
  destruct (server_step s e) as [s1|] eqn:E; cbn [mbind result_bind] in Hr; [|done].
  pose proof (sw_counter s Hwf). destruct Hfit as [Hm Hfit].
  destruct (server_step_wf s e s1 Hwf) as [Hwf1 Hc1]; [split; [done|lia]|done|].
  destruct (IH s1 Hwf1) as [Hwf2 Hc2]; [split; [done|lia]|done|]. split; [done|lia].
Qed.

(** Fresh ids: the check for duplicates in [OnCustomSocket] never fails. *)
Lemma server_no_duplicate_ids es f :
  ids_fit (Z.of_nat (length es)) → rfoldl server_step server_init es = Err f → no_duplicate f.
Proof.
  intros Hfit. assert (Hgo : ∀ es s, server_wf s → ids_fit (txn_id_counter_ s + Z.of_nat (length es)) →
    rfoldl server_step s es = Err f → no_duplicate f).
  { clear. intros es. induction es as [|e es IH]; intros s Hwf [Hm Hfit] Hr; cbn [rfoldl length] in *; [done|].
    pose proof (sw_counter s Hwf). destruct (server_step s e) as [s1|f1] eqn:E; cbn [mbind result_bind] in Hr.
    - destruct (server_step_wf s e s1 Hwf) as [Hwf1 Hc1]; [split; [done|lia]|done|].
      apply (IH s1); [done|split; [done|lia]|done].
    - injection Hr as ->. eapply server_step_fault; [exact Hwf|split; [done|lia]|exact E]. }
  by apply (Hgo es server_init server_init_wf).
Qed.

(** C11. The server answers each transaction once. After any events, let a client send a
    transaction that accesses some key. It is forwarded under a fresh id, and whatever
    happens next, the server has given no answer to this id while fewer sub-transactions
    have returned than the first of them announced partitions; with the last one it sends
    exactly one answer, to this client and stream, with the merge of these
    sub-transactions in the order of their return, and forgets the transaction, so that
    later sub-transactions are ignored. *)
Theorem server_answers_once es1 es2 identity stream t s1 s2 :
  let id := id_of (txn_id_counter_ s1 + 1) in
  let subs := es2 ≫= sub_of id in
  rfoldl server_step server_init es1 = Ok s1 → keys t ≠ [] →
  rfoldl server_step s1 (Client identity stream (ApiTxn t) :: es2) = Ok s2 →
  ids_fit (Z.of_nat (length es1 + length es2) + 1) → Forall (quiet id) es2 →
  (subs ≠ [] → 0 < announced subs) → (Z.of_nat (announced subs) < 2 ^ 64)%Z →
  (∃ t', ToForwarder t' ∈ server_out s2 ∧ txn_id t' = id ∧ keys t' = keys t) ∧
  collecting id {| pr_identity := identity; pr_stream_id := stream |} [] subs s2.
Proof.
  intros id subs Hr1 Hk Hr2 Hfit Hq Hpos Hb. destruct Hfit as [Hm Hfit].
  destruct (server_run_wf es1 server_init s1 server_init_wf) as [Hwf1 Hc1]; [split; [done|simpl; lia]|done|].
  change (txn_id_counter_ server_init) with 0%Z in Hc1.
  assert (Hfit1 : ids_fit (txn_id_counter_ s1 + 1)) by (split; [done|lia]).
  cbn [rfoldl] in Hr2. destruct (server_step s1 _) as [s3|] eqn:E; cbn [mbind result_bind] in Hr2; [|done].
  destruct (server_step_wf _ _ _ Hwf1 Hfit1 E) as [Hwf3 Hc3]. cbn [server_step] in E.
  destruct (client_counter _ _ _ _ _ E) as [Hf3 Hc3']. rewrite next_counter in Hc3' by (done || lia).
  assert (Hnew : ¬ issued s1 id).
  { intros (k & Hk' & Heq%id_of_inj); [lia|done|split; [done|lia]]. }
  unfold OnClientRequest, NextTxnId in E. cbn [pending_responses_] in E. rewrite next_counter in E by (done || lia). fold id in E.
  destruct (pending_responses_ s1 !! id) as [p|] eqn:Ep; [done|].
  match type of E with context [decide (status ?x = ABORTED)] => set (t1 := x) in E end.
  assert (Ht1 : txn_id t1 = id ∧ keys t1 = keys t ∧ status t1 = NOT_STARTED).
  { unfold t1, ValidateTransaction. rewrite decide_False by done. done. }
  destruct Ht1 as (Hid1 & Hk1 & Hst1). rewrite decide_False in E by (rewrite Hst1; done).
  assert (Hcol : collecting id {| pr_identity := identity; pr_stream_id := stream |} [] [] s3).
  { unfold collecting. simpl. injection E as <-. simpl. rewrite lookup_insert_eq. split; [done|]. split.
    - unfold answers. simpl. rewrite bind_app, bind_one. simpl. rewrite app_nil_r.
      destruct (decide (answers id s1 = [])) as [Ha|Ha]; [exact Ha|]. destruct Hnew. by apply (sw_answers s1 Hwf1).
    - apply eq_None_not_Some. intros [f Hf]. destruct Hnew. by apply (sw_finished s1 Hwf1) in Hf as [? _]. }
  assert (Hfwd : ToForwarder (record_event EXIT_SERVER_TO_FORWARDER t1) ∈ server_out s3).
  { injection E as <-. simpl. apply elem_of_app. right. left. }
  assert (Hi3 : issued s3 id) by (exists (txn_id_counter_ s1 + 1)%Z; split; [lia|done]).
  split.
  - exists (record_event EXIT_SERVER_TO_FORWARDER t1). split; [|done]. by eapply server_out_mono.
  - eapply (collecting_run id _ [] es2 s3 s2 []); try done. split; [done|lia].
Qed.
End server.

(** A client's transaction on two partitions; both report, and one report comes again. *)
Definition client_txn : Transaction := make_txn 0 UNKNOWN 0 (kCode []) [make_entry "A" WRITE 1 0; make_entry "B" READ 1 0].

Definition sub_txn_of (k : Key) : Transaction :=
  set_status COMMITTED (set_internal (set_involved_partitions [0; 1]%Z)
    (make_txn 102 SINGLE_HOME 1 (kCode []) [make_entry k WRITE 1 0])).

Definition server_events : list server_event :=
  [Signal 0; FinishedSubtxn 2 (sub_txn_of "A"); Client "y" 4 (ApiMetrics "p"); FinishedSubtxn 3 (sub_txn_of "B");
   FinishedSubtxn 3 (sub_txn_of "B")].

Lemma server_answers_once_witness :
  ∃ s2, rfoldl (server_step example_config (λ _, [])) (server_init example_config)
      (Client "x" 7 (ApiTxn client_txn) :: server_events) = Ok s2 ∧
    collecting (λ _, []) 102 {| pr_identity := "x"; pr_stream_id := 7 |} []
      (server_events ≫= sub_of example_config (λ _, []) 102) s2.
Proof.
  destruct (rfoldl (server_step example_config (λ _, [])) (server_init example_config)
    (Client "x" 7 (ApiTxn client_txn) :: server_events)) as [s2|] eqn:E; [|by vm_compute in E].
  exists s2. split; [reflexivity|].
  destruct (server_answers_once example_config (λ _, []) [] server_events "x" 7 client_txn (server_init example_config) s2)
    as [_ Hc].
  - reflexivity.
  - discriminate.
  - exact E.
  - split; vm_compute; split; congruence.
  - repeat constructor.
  - intros _. apply Nat.ltb_lt. vm_compute. reflexivity.
  - vm_compute. reflexivity.
  - exact Hc.
Defined.
