(* ===== verification/Report.v ===== *)
(** * Statistics as JSON documents

    The lock managers and the scheduler report their state as a JSON object
    ([GetStats] of the three lock managers, [ProcessStatsRequest] of
    [module/scheduler.cpp]) with the helpers of [common/json_utils.h]. The JSON library is
    a class with the laws that its documentation gives; the order in which an
    [unordered_map] is visited is an argument. What a lock manager reports is a view of its
    state: the clients of the report are proved against the view. *)
From Stdlib Require Import Ascii.
From S2P Require Import Prelude Types LockSpec TxnHolder Scheduler.
From S2P Require RMALock DDRLock OldLock.

(** ** The JSON library

    [rapidjson]'s values. Reading a value as another type, or a member that an object does
    not have, breaks an assertion of the library. *)
Class JsonLib (J : Type) := {
  jnum : Z → J;
  jbool : bool → J;
  jstr : string → J;
  EmptyArray : J;
  PushBack : J → J → J;
  EmptyObject : J;
  AddMember : J → string → J → J;
  GetUint : J → result Z;
  GetInt : J → result Z;
  GetBool : J → result bool;
  GetString : J → result string;
  GetArray : J → result (list J);
  IsObject : J → bool;
  HasMember : J → string → bool;
  Member : J → string → result J;
  Write : J → string;
  Parse : string → J
}.

Class JsonLaws (J : Type) `{JsonLib J} := {
  GetUint_num z : (0 ≤ z < 2 ^ 32)%Z → GetUint (jnum z) = Ok z;
  GetUint_large z : (2 ^ 32 ≤ z)%Z → ∃ f, GetUint (jnum z) = Err f;
  GetInt_num z : (- 2 ^ 31 ≤ z < 2 ^ 31)%Z → GetInt (jnum z) = Ok z;
  GetBool_bool b : GetBool (jbool b) = Ok b;
  GetString_str s : GetString (jstr s) = Ok s;
  GetArray_empty : GetArray EmptyArray = Ok [];
  GetArray_push a l v : GetArray a = Ok l → GetArray (PushBack a v) = Ok (l ++ [v]);
  IsObject_empty : IsObject EmptyObject = true;
  IsObject_add o k v : IsObject o = true → IsObject (AddMember o k v) = true;
  HasMember_empty k : HasMember EmptyObject k = false;
  HasMember_add o k k' v : IsObject o = true →
    HasMember (AddMember o k v) k' = bool_decide (k = k') || HasMember o k';
  Member_add o k v : IsObject o = true → HasMember o k = false → Member (AddMember o k v) k = Ok v;
  Member_other o k k' v : IsObject o = true → k ≠ k' → Member (AddMember o k v) k' = Member o k';
  Member_missing o k : IsObject o = true → HasMember o k = false → ∃ f, Member o k = Err f;
  Parse_Write v : Parse (Write v) = v
}.

(** The visit of an [unordered_map]. *)
Class MapVisit (K : Type) `{Countable K} := {
  visit_map {A} : gmap K A → list (K * A);
  visit_map_perm {A} (m : gmap K A) : visit_map m ≡ₚ map_to_list m
}.

(** ** Statistic keys of [common/constants.h] *)
Definition ALL_TXNS := "all_txns".
Definition NUM_ALL_TXNS := "num_all_txns".
Definition NUM_LOCKED_KEYS := "num_locked_keys".
Definition LOCK_MANAGER_TYPE := "lock_manager_type".
Definition NUM_TXNS_WAITING_FOR_LOCK := "num_txns_waiting_for_lock".
Definition NUM_WAITING_FOR_PER_TXN := "num_waiting_for_per_txn".
Definition LOCK_TABLE := "lock_table".
Definition WAITED_BY_GRAPH := "waited_by_graph".
Definition TXN_ID := "id".
Definition TXN_DONE := "done".
Definition TXN_ABORTING := "aborting".
Definition TXN_NUM_LO := "num_lo".
Definition TXN_NUM_DISPATCHES := "num_dispatches".
Definition TXN_EXPECTED_NUM_LO := "expected_num_lo".
Definition TXN_MULTI_HOME := "multi_home".
Definition TXN_MULTI_PARTITION := "multi_partition".

(** [c_str()], read up to the first null character. *)
Fixpoint c_str (s : string) : string :=
  match s with
  | EmptyString => EmptyString
  | String a s => if decide (a = zero) then EmptyString else String a (c_str s)
  end.

Definition mode_num (m : LockMode) : Z := match m with UNLOCKED => 0 | LOCK_READ => 1 | LOCK_WRITE => 2 end.

Section report.
  Context {J : Type} `{JsonLib J}.

Definition ToJsonArray {A} (container : list A) (fn : A → J) : J :=
  foldl (λ json_array v, PushBack json_array (fn v)) EmptyArray container.

Definition ToJsonArrayOfKeyValue {A} (container : list (Z * A)) (value_fn : A → J) : J :=
  foldl (λ json_array entry,
    PushBack json_array (PushBack (PushBack EmptyArray (jnum entry.1)) (value_fn entry.2))) EmptyArray container.

(** ** The lock managers *)

Class LockManagerStats (L : Type) := GetStats : J → Z → L → J.

(** The entry of a lock that has holders and waiters. *)
Definition lock_entry (key : string) (mode : LockMode) (holders : list TxnId) (waiters : list (TxnId * LockMode)) : J :=
  PushBack (PushBack (PushBack (PushBack EmptyArray (jstr (c_str key))) (jnum (mode_num mode)))
    (ToJsonArray holders jnum)) (ToJsonArrayOfKeyValue waiters (λ v, jnum (mode_num v))).

  Context `{!MapVisit Z, !MapVisit string}.

Definition rma_GetStats (stats : J) (level : Z) (l : RMALock.RMALockManager) : J :=
  let stats := AddMember stats LOCK_MANAGER_TYPE (jnum 0) in
  let stats := AddMember stats NUM_TXNS_WAITING_FOR_LOCK (jnum (Z.of_nat (size (RMALock.txn_info_ l)))) in
  let stats :=
    if decide (1 ≤ level)%Z then
      AddMember stats NUM_WAITING_FOR_PER_TXN
        (ToJsonArrayOfKeyValue (visit_map (RMALock.txn_info_ l)) (λ info, jnum (RMALock.num_waiting_for info)))
    else stats in
  let stats := AddMember stats NUM_LOCKED_KEYS (jnum (RMALock.num_locked_keys_ l)) in
  if decide (2 ≤ level)%Z then
    let lock_table :=
      foldl (λ lock_table '(key, lock_state),
        if decide (RMALock.mode lock_state = UNLOCKED) then lock_table
        else PushBack lock_table (lock_entry key (RMALock.mode lock_state) (RMALock.holders_ lock_state)
                                    (RMALock.waiter_queue_ lock_state)))
        EmptyArray (visit_map (RMALock.lock_table_ l)) in
    AddMember stats LOCK_TABLE lock_table
  else stats.

Definition ddr_GetStats (stats : J) (level : Z) (l : DDRLock.DDRLockManager) : J :=
  let stats := AddMember stats LOCK_MANAGER_TYPE (jnum 1) in
  let stats := AddMember stats NUM_TXNS_WAITING_FOR_LOCK (jnum (Z.of_nat (size (DDRLock.txn_info_ l)))) in
  let stats :=
    if decide (1 ≤ level)%Z then
      let waited_by_graph :=
        foldl (λ graph '(txn_id, info),
          PushBack graph (PushBack (PushBack EmptyArray (jnum txn_id)) (ToJsonArray (DDRLock.waited_by info) jnum)))
          EmptyArray (visit_map (DDRLock.txn_info_ l)) in
      AddMember stats WAITED_BY_GRAPH waited_by_graph
    else stats in
  if decide (2 ≤ level)%Z then
    let lock_table :=
      foldl (λ lock_table '(key, lock_state),
        PushBack lock_table
          (PushBack (PushBack (PushBack EmptyArray (jstr (c_str key)))
             (jnum (default 0%Z (DDRLock.write_lock_requester_ lock_state))))
             (ToJsonArray (DDRLock.read_lock_requesters_ lock_state) jnum)))
        EmptyArray (visit_map (DDRLock.lock_table_ l)) in
    AddMember stats LOCK_TABLE lock_table
  else stats.

  (** the visit of the [unordered_set] of holders *)
  Context (visit_holders : gset TxnId → list TxnId).

Definition old_GetStats (stats : J) (level : Z) (l : OldLock.OldLockManager) : J :=
  let stats := AddMember stats LOCK_MANAGER_TYPE (jnum 0) in
  let stats := AddMember stats NUM_TXNS_WAITING_FOR_LOCK (jnum (Z.of_nat (size (OldLock.old_txn_info_ l)))) in
  let stats :=
    if decide (1 ≤ level)%Z then
      AddMember stats NUM_WAITING_FOR_PER_TXN
        (ToJsonArrayOfKeyValue (visit_map (OldLock.old_txn_info_ l)) (λ info, jnum (RMALock.num_waiting_for info)))
    else stats in
  let stats := AddMember stats NUM_LOCKED_KEYS (jnum (OldLock.old_num_locked_keys_ l)) in
  if decide (2 ≤ level)%Z then
    let lock_table :=
      foldl (λ lock_table '(key, lock_state),
        if decide (OldLock.old_mode lock_state = UNLOCKED) then lock_table
        else PushBack lock_table (lock_entry key (OldLock.old_mode lock_state)
                                    (visit_holders (OldLock.old_holders_ lock_state))
                                    (OldLock.old_waiter_queue_ lock_state)))
        EmptyArray (visit_map (OldLock.old_lock_table_ l)) in
    AddMember stats LOCK_TABLE lock_table
  else stats.

(** ** The scheduler *)

Definition txn_stats (entry : TxnId * TxnHolder) : result J :=
  let '(txn_id, holder) := entry in
  txn ← holder_txn holder;
  let txn_obj := AddMember EmptyObject TXN_ID (jnum txn_id) in
  let txn_obj := AddMember txn_obj TXN_DONE (jbool (done_ holder)) in
  let txn_obj := AddMember txn_obj TXN_ABORTING (jbool (aborting_ holder)) in
  let txn_obj := AddMember txn_obj TXN_NUM_LO (jnum (num_lo_txns_ holder)) in
  let txn_obj := AddMember txn_obj TXN_EXPECTED_NUM_LO (jnum (expected_num_lo_txns_ holder)) in
  let txn_obj := AddMember txn_obj TXN_NUM_DISPATCHES (jnum (num_dispatches_ holder)) in
  let txn_obj := AddMember txn_obj TXN_MULTI_HOME
                   (jbool (bool_decide (txn_type (internal txn) = MULTI_HOME_OR_LOCK_ONLY))) in
  Ok (AddMember txn_obj TXN_MULTI_PARTITION (jbool (bool_decide (1 < length (involved_partitions (internal txn)))))).

(** The request carries an unsigned level, which the scheduler reads as an [int] and the
    lock manager as unsigned again. The answer carries the id of the request. *)
Definition ProcessStatsRequest {L} `{!LockManagerStats L} (id : TxnId) (req_level : Z) (s : scheduler L) :
    result (TxnId * string) :=
  let level := i32 req_level in
  let stats := AddMember EmptyObject NUM_ALL_TXNS (jnum (Z.of_nat (size (active_txns_ s)))) in
  let stats :=
    if decide (level = 0%Z) then
      AddMember stats ALL_TXNS (ToJsonArray (visit_map (active_txns_ s)) (λ p, jnum p.1))
    else stats in
  stats ←
    if decide (1 ≤ level)%Z then
      txns ← rfoldl (λ txns p, txn_obj ← txn_stats p; Ok (PushBack txns txn_obj)) EmptyArray (visit_map (active_txns_ s));
      Ok (AddMember stats ALL_TXNS txns)
    else Ok stats;
  Ok (id, Write (GetStats stats (u32 level) (lock_manager_ s))).
End report.

(** ** Arrays and objects *)

Section documents.
  Context {J : Type} `{JsonLaws J}.

(** The object with these members, in this order. *)
Definition obj (ms : list (string * J)) : J := foldl (λ o m, AddMember o m.1 m.2) EmptyObject ms.

Definition arr (l : list J) : J := foldl PushBack EmptyArray l.

Lemma GetArray_arr l : GetArray (arr l) = Ok l.
Proof.
  unfold arr. induction l as [|v l IH] using rev_ind; [apply GetArray_empty|].
  rewrite foldl_snoc. by apply GetArray_push.
Qed.

Lemma ToJsonArray_arr {A} (l : list A) (fn : A → J) : ToJsonArray l fn = arr (fn <$> l).
Proof. unfold ToJsonArray, arr. by rewrite foldl_fmap. Qed.

Lemma ToJsonArrayOfKeyValue_arr {A} (l : list (Z * A)) (fn : A → J) :
  ToJsonArrayOfKeyValue l fn = arr ((λ e, arr [jnum e.1; fn e.2]) <$> l).
Proof. unfold ToJsonArrayOfKeyValue, arr. by rewrite foldl_fmap. Qed.

Lemma foldl_push_filter {A} (P : A → Prop) `{!∀ x, Decision (P x)} (f : A → J) l a :
  foldl (λ a x, if decide (P x) then a else PushBack a (f x)) a l =
  foldl PushBack a (f <$> filter (λ x, ¬ P x) l).
Proof.
  revert a. induction l as [|x l IH]; intros a; [done|]. rewrite filter_cons. simpl.
  destruct (decide (P x)); [rewrite decide_False by tauto|rewrite decide_True by tauto]; apply IH.
Qed.

Lemma IsObject_obj ms : IsObject (obj ms) = true.
Proof.
  unfold obj. induction ms as [|m ms IH] using rev_ind; [apply IsObject_empty|].
  rewrite foldl_snoc. by apply IsObject_add.
Qed.

Lemma AddMember_obj ms k v : AddMember (obj ms) k v = obj (ms ++ [(k, v)]).
Proof. unfold obj. by rewrite foldl_snoc. Qed.

Lemma HasMember_obj ms k : HasMember (obj ms) k = bool_decide (k ∈ ms.*1).
Proof.
  induction ms as [|[k' v] ms IH] using rev_ind; [apply HasMember_empty|].
  rewrite <-AddMember_obj, HasMember_add by apply IsObject_obj. rewrite IH, fmap_app. simpl.
  rewrite <-bool_decide_or. apply bool_decide_ext. rewrite elem_of_app, list_elem_of_singleton. naive_solver.
Qed.

(** An object whose member names differ gives each member. *)
Lemma Member_obj ms k v : NoDup ms.*1 → (k, v) ∈ ms → Member (obj ms) k = Ok v.
Proof.
  induction ms as [|[k' v'] ms IH] using rev_ind; [intros _ Hin; by apply elem_of_nil in Hin|].
  rewrite fmap_app. intros Hnd [Hin|Hin%list_elem_of_singleton]%elem_of_app; rewrite <-AddMember_obj.
  - apply NoDup_app in Hnd as (Hnd & Hno & _). rewrite Member_other; [by apply IH|apply IsObject_obj|].
    intros ->. apply (Hno k); [by apply (list_elem_of_fmap_2 fst _ (k, v))|simpl; by left].
  - simplify_eq. apply Member_add; [apply IsObject_obj|]. rewrite HasMember_obj. apply bool_decide_eq_false.
    apply NoDup_app in Hnd as (_ & Hno & _). intros Hk. apply (Hno _ Hk). simpl. by left.
Qed.

Lemma Member_obj_missing ms k : k ∉ ms.*1 → ∃ f, Member (obj ms) k = Err f.
Proof.
  intros Hk. apply Member_missing; [apply IsObject_obj|]. rewrite HasMember_obj. by apply bool_decide_eq_false.
Qed.
End documents.

(** ** What a lock manager reports

    [QueueView]: the lock managers with queues report how many locks each transaction
    waits for and the holders and waiters of each lock that is taken; [GraphView]: the one
    with a graph reports its edges and the tails of the queues. *)
Inductive lock_view :=
  | QueueView (waiting : list (TxnId * Z)) (locked : Z)
      (table : list (string * LockMode * list TxnId * list (TxnId * LockMode)))
  | GraphView (edges : list (TxnId * list TxnId)) (table : list (string * Z * list TxnId)).

Section views.
  Context {J : Type} `{JsonLib J}.

Definition view_type (v : lock_view) : Z := match v with QueueView _ _ _ => 0 | GraphView _ _ => 1 end.

Definition view_waiting (v : lock_view) : Z :=
  match v with QueueView w _ _ => Z.of_nat (length w) | GraphView e _ => Z.of_nat (length e) end.

(** The members that a report at a level adds to a document. *)
Definition view_members (level : Z) (v : lock_view) : list (string * J) :=
  [(LOCK_MANAGER_TYPE, jnum (view_type v)); (NUM_TXNS_WAITING_FOR_LOCK, jnum (view_waiting v))] ++
  match v with
  | QueueView waiting locked table =>
    (if decide (1 ≤ level)%Z
     then [(NUM_WAITING_FOR_PER_TXN, arr ((λ e, arr [jnum e.1; jnum e.2]) <$> waiting))] else []) ++
    [(NUM_LOCKED_KEYS, jnum locked)] ++
    (if decide (2 ≤ level)%Z
     then [(LOCK_TABLE, arr ((λ '(k, m, hs, ws), arr [jstr (c_str k); jnum (mode_num m); arr (jnum <$> hs);
             arr ((λ w : TxnId * LockMode, arr [jnum w.1; jnum (mode_num w.2)]) <$> ws)]) <$> table))] else [])
  | GraphView edges table =>
    (if decide (1 ≤ level)%Z
     then [(WAITED_BY_GRAPH, arr ((λ e, arr [jnum e.1; arr (jnum <$> e.2)]) <$> edges))] else []) ++
    (if decide (2 ≤ level)%Z
     then [(LOCK_TABLE, arr ((λ '(k, w, rs), arr [jstr (c_str k); jnum w; arr (jnum <$> rs)]) <$> table))] else [])
  end.

(** A lock manager promises that what it adds to a report is a view of its state. *)
Class LockReport (L : Type) `{!LockManagerStats (J := J) L} := {
  lm_view : L → lock_view;
  GetStats_view ms level l : GetStats (obj ms) level l = obj (ms ++ view_members level (lm_view l))
}.
End views.

(** ** The three lock managers keep the promise *)

Section instances.
  Context {J : Type} `{JsonLaws J, !MapVisit Z, !MapVisit string}.

Definition rma_view (l : RMALock.RMALockManager) : lock_view :=
  QueueView ((λ e, (e.1, RMALock.num_waiting_for e.2)) <$> visit_map (RMALock.txn_info_ l)) (RMALock.num_locked_keys_ l)
    ((λ e, (e.1, RMALock.mode e.2, RMALock.holders_ e.2, RMALock.waiter_queue_ e.2)) <$>
       filter (λ e, RMALock.mode e.2 ≠ UNLOCKED) (visit_map (RMALock.lock_table_ l))).

Definition ddr_view (l : DDRLock.DDRLockManager) : lock_view :=
  GraphView ((λ e, (e.1, DDRLock.waited_by e.2)) <$> visit_map (DDRLock.txn_info_ l))
    ((λ e, (e.1, default 0%Z (DDRLock.write_lock_requester_ e.2), DDRLock.read_lock_requesters_ e.2)) <$>
       visit_map (DDRLock.lock_table_ l)).

  Context (visit_holders : gset TxnId → list TxnId).

Definition old_view (l : OldLock.OldLockManager) : lock_view :=
  QueueView ((λ e, (e.1, RMALock.num_waiting_for e.2)) <$> visit_map (OldLock.old_txn_info_ l)) (OldLock.old_num_locked_keys_ l)
    ((λ e, (e.1, OldLock.old_mode e.2, visit_holders (OldLock.old_holders_ e.2), OldLock.old_waiter_queue_ e.2)) <$>
       filter (λ e, OldLock.old_mode e.2 ≠ UNLOCKED) (visit_map (OldLock.old_lock_table_ l))).

Lemma size_visit {A} (m : gmap Z A) : size m = length (visit_map m).
Proof. by rewrite visit_map_perm, length_map_to_list. Qed.

Lemma foldl_pair_ext {A B C} (f g : C → A * B → C) l c :
  (∀ c a b, f c (a, b) = g c (a, b)) → foldl f c l = foldl g c l.
Proof. intros Hfg. revert c. induction l as [|[a b] l IH]; intros c; [done|]. simpl. by rewrite Hfg, IH. Qed.

Lemma lock_entry_arr k m hs ws :
  lock_entry k m hs ws = arr [jstr (c_str k); jnum (mode_num m); arr (jnum <$> hs);
    arr ((λ w : TxnId * LockMode, arr [jnum w.1; jnum (mode_num w.2)]) <$> ws)].
Proof. unfold lock_entry. by rewrite ToJsonArray_arr, ToJsonArrayOfKeyValue_arr. Qed.

#[export] Instance rma_stats : LockManagerStats RMALock.RMALockManager := rma_GetStats.
#[export] Instance ddr_stats : LockManagerStats DDRLock.DDRLockManager := ddr_GetStats.
#[export] Instance old_stats : LockManagerStats OldLock.OldLockManager := old_GetStats visit_holders.

Lemma lock_table_arr {A} (mode : A → LockMode) (holders : A → list TxnId) (waiters : A → list (TxnId * LockMode))
    (l : list (string * A)) :
  foldl (λ t '(key, st), if decide (mode st = UNLOCKED) then t
                         else PushBack t (lock_entry key (mode st) (holders st) (waiters st))) EmptyArray l =
  arr ((λ '(k, m, hs, ws), arr [jstr (c_str k); jnum (mode_num m); arr (jnum <$> hs);
          arr ((λ w : TxnId * LockMode, arr [jnum w.1; jnum (mode_num w.2)]) <$> ws)]) <$>
       ((λ e, (e.1, mode e.2, holders e.2, waiters e.2)) <$> filter (λ e, mode e.2 ≠ UNLOCKED) l)).
Proof.
  rewrite <-list_fmap_compose. unfold arr at 1. rewrite <-(foldl_push_filter (λ e, mode e.2 = UNLOCKED)).
  apply foldl_pair_ext. intros t k st. simpl. case_decide; [done|]. by rewrite lock_entry_arr.
Qed.

Lemma pairs_arr {A B} (f g : A → B → J) (l : list (A * B)) :
  (∀ x y, f x y = g x y) →
  foldl (λ a '(x, y), PushBack a (f x y)) EmptyArray l = arr ((λ e, g e.1 e.2) <$> l).
Proof. intros Hfg. unfold arr. rewrite foldl_fmap. apply foldl_pair_ext. intros. simpl. by rewrite Hfg. Qed.

#[export] Program Instance rma_report : LockReport RMALock.RMALockManager := {| lm_view := rma_view |}.
Next Obligation.
  intros ms level l. unfold GetStats, rma_stats, rma_GetStats, view_members, rma_view.
  rewrite lock_table_arr, ToJsonArrayOfKeyValue_arr, <-!list_fmap_compose, !AddMember_obj. simpl view_type. simpl view_waiting.
  rewrite length_fmap, <-size_visit. do 2 case_decide; rewrite ?AddMember_obj, <-!app_assoc; done.
Qed.

#[export] Program Instance old_report : LockReport OldLock.OldLockManager := {| lm_view := old_view |}.
Next Obligation.
  intros ms level l. unfold GetStats, old_stats, old_GetStats, view_members, old_view.
  rewrite (lock_table_arr _ (λ st, visit_holders (OldLock.old_holders_ st))), ToJsonArrayOfKeyValue_arr,
    <-!list_fmap_compose, !AddMember_obj.
  simpl view_type. simpl view_waiting.
  rewrite length_fmap, <-size_visit. do 2 case_decide; rewrite ?AddMember_obj, <-!app_assoc; done.
Qed.

#[export] Program Instance ddr_report : LockReport DDRLock.DDRLockManager := {| lm_view := ddr_view |}.
Next Obligation.
  intros ms level l. unfold GetStats, ddr_stats, ddr_GetStats, view_members, ddr_view.
  rewrite (pairs_arr _ (λ i info, arr [jnum i; arr (jnum <$> DDRLock.waited_by info)]))
    by (intros; by rewrite ToJsonArray_arr).
  rewrite (pairs_arr _ (λ k st, arr [jstr (c_str k); jnum (default 0%Z (DDRLock.write_lock_requester_ st));
    arr (jnum <$> DDRLock.read_lock_requesters_ st)])) by (intros; by rewrite ToJsonArray_arr).
  rewrite !AddMember_obj, <-!list_fmap_compose. simpl view_type. simpl view_waiting. rewrite length_fmap, <-size_visit.
  do 2 case_decide; rewrite ?AddMember_obj, <-!app_assoc; done.
Qed.
End instances.

(** ** A JSON library

    Values as trees, and a writer and a parser between them: the laws can be met. *)
Inductive json :=
  | JNum (z : Z)
  | JBool (b : bool)
  | JStr (s : string)
  | JArr (l : list json)
  | JObj (l : list (string * json)).

Fixpoint json_tree (j : json) : gen_tree (Z + bool + string) :=
  match j with
  | JNum z => GenLeaf (inl (inl z))
  | JBool b => GenLeaf (inl (inr b))
  | JStr s => GenLeaf (inr s)
  | JArr l => GenNode 0 (json_tree <$> l)
  | JObj l => GenNode 1 ((λ p, GenNode 0 [GenLeaf (inr p.1); json_tree p.2]) <$> l)
  end.

Fixpoint tree_json (t : gen_tree (Z + bool + string)) : json :=
  match t with
  | GenLeaf (inl (inl z)) => JNum z
  | GenLeaf (inl (inr b)) => JBool b
  | GenLeaf (inr s) => JStr s
  | GenNode 0 l => JArr (tree_json <$> l)
  | GenNode _ l =>
    JObj ((λ t, match t with GenNode _ [GenLeaf (inr k); v] => (k, tree_json v) | _ => (EmptyString, JNum 0) end) <$> l)
  end.

Lemma tree_json_tree : ∀ j, tree_json (json_tree j) = j.
Proof.
  fix IH 1. intros [z|b|s|l|l]; [done..| |]; simpl; f_equal.
  - induction l as [|j l IHl]; [done|]. simpl. f_equal; [apply IH|apply IHl].
  - induction l as [|[k j] l IHl]; [done|]. simpl. f_equal; [f_equal; apply IH|apply IHl].
Qed.

(** Positive numbers as strings of digits. *)
Fixpoint pos_text (p : positive) : string :=
  match p with xH => EmptyString | xO p => String "0" (pos_text p) | xI p => String "1" (pos_text p) end.

Fixpoint text_pos (s : string) : positive :=
  match s with
  | EmptyString => xH
  | String a s => if decide (a = "0"%char) then xO (text_pos s) else xI (text_pos s)
  end.

Lemma text_pos_text p : text_pos (pos_text p) = p.
Proof. induction p as [p IH|p IH|]; [..|done]; simpl; by rewrite IH. Qed.

Definition json_write (j : json) : string := pos_text (encode (json_tree j)).

Definition json_parse (s : string) : json :=
  match decode (A := gen_tree (Z + bool + string)) (text_pos s) with Some t => tree_json t | None => JObj [] end.

#[export] Instance json_lib : JsonLib json := {|
  jnum := JNum; jbool := JBool; jstr := JStr;
  EmptyArray := JArr []; PushBack a v := match a with JArr l => JArr (l ++ [v]) | _ => a end;
  EmptyObject := JObj []; AddMember o k v := match o with JObj l => JObj (l ++ [(k, v)]) | _ => o end;
  GetUint v := match v with
    | JNum z => if decide (0 ≤ z < 2 ^ 32)%Z then Ok z else Err (Undef "IsUint()") | _ => Err (Undef "IsUint()") end;
  GetInt v := match v with
    | JNum z => if decide (- 2 ^ 31 ≤ z < 2 ^ 31)%Z then Ok z else Err (Undef "IsInt()") | _ => Err (Undef "IsInt()") end;
  GetBool v := match v with JBool b => Ok b | _ => Err (Undef "IsBool()") end;
  GetString v := match v with JStr s => Ok s | _ => Err (Undef "IsString()") end;
  GetArray v := match v with JArr l => Ok l | _ => Err (Undef "IsArray()") end;
  IsObject v := match v with JObj _ => true | _ => false end;
  HasMember v k := match v with JObj l => bool_decide (k ∈ l.*1) | _ => false end;
  Member v k := match v with
    | JObj l => match list_find (λ p, p.1 = k) l with Some (_, p) => Ok p.2 | None => Err (Undef "FindMember()") end
    | _ => Err (Undef "IsObject()") end;
  Write := json_write; Parse := json_parse
|}.

Lemma list_find_absent (k : string) (l : list (string * json)) : k ∉ l.*1 → list_find (λ p, p.1 = k) l = None.
Proof.
  intros Hk. apply list_find_None, Forall_forall. intros [k' v] Hin. simpl. intros ->. apply Hk.
  by apply (list_elem_of_fmap_2 fst _ (k, v)).
Qed.

#[export] Instance json_laws : JsonLaws json.
Proof.
  split; simpl.
  - intros z Hz. by rewrite decide_True.
  - intros z Hz. rewrite decide_False by lia. by eexists.
  - intros z Hz. by rewrite decide_True.
  - done.
  - done.
  - done.
  - intros a l v. destruct a; by intros [= <-].
  - done.
  - by intros [].
  - done.
  - intros [| | | |l] k k' v; [done..|]. intros _. rewrite fmap_app. simpl. rewrite <-bool_decide_or. apply bool_decide_ext.
    rewrite elem_of_app, list_elem_of_singleton. naive_solver.
  - intros [| | | |l] k v; [done..|]. intros _ Hk%bool_decide_eq_false.
    rewrite list_find_app_r by by apply list_find_absent. simpl. by rewrite decide_True.
  - intros [| | | |l] k k' v; [done..|]. intros _ Hk.
    destruct (list_find (λ p, p.1 = k') l) as [[i p]|] eqn:E; [by rewrite (list_find_app_l _ _ _ _ _ E)|].
    rewrite list_find_app_r by done. simpl. by rewrite decide_False.
  - intros [| | | |l] k; [done..|]. intros _ Hk%bool_decide_eq_false. rewrite list_find_absent by done. by eexists.
  - intros v. unfold json_parse, json_write. by rewrite text_pos_text, decode_encode, tree_json_tree.
Qed.

#[export] Program Instance visit_in_order K `{Countable K} : MapVisit K := {| visit_map A m := map_to_list m |}.
Next Obligation. done. Qed.
