(* ===== verification/TxnText.v ===== *)
(** * Transactions as text, and their comparison

    The stream operators, [ToReadable] and the comparison operators of
    [common/proto_utils.cpp]. What is written to a stream is a string. The comparison looks
    at the visible part of a transaction only, so it is an equivalence coarser than
    equality. *)
From Stdlib Require Import Ascii.
From S2P Require Import Prelude Types.

(** ** Text *)

Definition nl : string := String "010" EmptyString.
Definition tab : string := String "009" EmptyString.

Definition cat (l : list string) : string := foldr String.append EmptyString l.

(** A signed number. *)
Definition int_str (z : Z) : string := if decide (z < 0)%Z then ("-" +:+ to_string (- z))%string else to_string z.

(** A [bool], without [boolalpha]. *)
Definition bool_str (b : bool) : string := if b then "1" else "0".

(** [setw]: spaces on the left up to the width; with [left], on the right. *)
Definition blanks (n : nat) (s : string) : string := cat (replicate (n - String.length s) " ").
Definition setw (n : nat) (s : string) : string := (blanks n s +:+ s)%string.
Definition setw_left (n : nat) (s : string) : string := (s +:+ blanks n s)%string.

(** [ENUM_NAME] *)
Definition status_name (s : TransactionStatus) : string :=
  match s with NOT_STARTED => "NOT_STARTED" | COMMITTED => "COMMITTED" | ABORTED => "ABORTED" end.
Definition key_type_name (k : KeyType) : string := match k with READ => "READ" | WRITE => "WRITE" end.
Definition txn_type_name (k : TransactionType) : string :=
  match k with
  | UNKNOWN => "UNKNOWN" | SINGLE_HOME => "SINGLE_HOME" | MULTI_HOME_OR_LOCK_ONLY => "MULTI_HOME_OR_LOCK_ONLY"
  end.
Definition event_name (e : TransactionEvent) : string :=
  match e with
  | ALL => "ALL" | ENTER_SERVER => "ENTER_SERVER" | EXIT_SERVER_TO_FORWARDER => "EXIT_SERVER_TO_FORWARDER"
  | ENTER_FORWARDER => "ENTER_FORWARDER" | EXIT_FORWARDER_TO_SEQUENCER => "EXIT_FORWARDER_TO_SEQUENCER"
  | EXIT_FORWARDER_TO_MULTI_HOME_ORDERER => "EXIT_FORWARDER_TO_MULTI_HOME_ORDERER"
  | ENTER_MULTI_HOME_ORDERER => "ENTER_MULTI_HOME_ORDERER"
  | ENTER_MULTI_HOME_ORDERER_IN_BATCH => "ENTER_MULTI_HOME_ORDERER_IN_BATCH"
  | EXIT_MULTI_HOME_ORDERER_IN_BATCH => "EXIT_MULTI_HOME_ORDERER_IN_BATCH"
  | EXIT_MULTI_HOME_ORDERER => "EXIT_MULTI_HOME_ORDERER"
  | ENTER_SEQUENCER => "ENTER_SEQUENCER" | ENTER_SEQUENCER_IN_BATCH => "ENTER_SEQUENCER_IN_BATCH"
  | EXIT_SEQUENCER_IN_BATCH => "EXIT_SEQUENCER_IN_BATCH"
  | ENTER_INTERLEAVER_IN_BATCH => "ENTER_INTERLEAVER_IN_BATCH" | EXIT_INTERLEAVER => "EXIT_INTERLEAVER"
  | ENTER_SCHEDULER => "ENTER_SCHEDULER" | ENTER_SCHEDULER_LO => "ENTER_SCHEDULER_LO"
  | ENTER_LOCK_MANAGER => "ENTER_LOCK_MANAGER" | DISPATCHED => "DISPATCHED"
  | DISPATCHED_FAST => "DISPATCHED_FAST" | DISPATCHED_SLOW => "DISPATCHED_SLOW"
  | ENTER_WORKER => "ENTER_WORKER" | EXIT_WORKER => "EXIT_WORKER"
  | RETURN_TO_SERVER => "RETURN_TO_SERVER" | EXIT_SERVER_TO_CLIENT => "EXIT_SERVER_TO_CLIENT"
  end.

(** ** Printing *)

(** [std::isprint] of the default locale. *)
Definition isprint (c : ascii) : bool := let n := nat_of_ascii c in bool_decide (32 ≤ n ∧ n ≤ 126).

Definition hex_digit (n : nat) : ascii :=
  ascii_of_nat (if decide (n < 10) then 48 + n else 87 + n).

(** [std::hex] of a byte, without leading zeros. *)
Definition hex_byte (n : nat) : string :=
  if decide (n < 16) then String (hex_digit n) EmptyString
  else String (hex_digit (n / 16)) (String (hex_digit (n mod 16)) EmptyString).

Fixpoint ToReadable (s : string) : string :=
  match s with
  | EmptyString => EmptyString
  | String c s =>
    if isprint c then String c (ToReadable s)
    else (String "\" (hex_byte (nat_of_ascii c)) +:+ ToReadable s)%string
  end.

Definition print_metadata (m : MasterMetadata) : string :=
  cat ["("; to_string (master m); ", "; to_string (counter m); ")"].

Definition print_procedures (code : list (list string)) : string :=
  cat ((λ p, (cat ((λ arg, arg +:+ " ")%string <$> p) +:+ nl)%string) <$> code).

Definition print_key (kv : KeyValueEntry) : string :=
  let v := value_entry kv in
  cat ["["; key_type_name (type v); "] "; ToReadable (key kv); nl;
       tab; "Value: "; ToReadable (value v); nl;
       if decide (type v = WRITE) then cat [tab; "New value: "; ToReadable (new_value v); nl] else EmptyString;
       tab; "Metadata: "; print_metadata (metadata v); nl].

Definition print_numbers (l : list Z) : string := cat ((λ p, to_string p +:+ " ")%string <$> l).

Definition print_transaction (txn : Transaction) : string :=
  cat ["Transaction ID: "; to_string (id (internal txn)); nl;
       "Status: "; status_name (status txn); nl;
       if decide (status txn = ABORTED) then cat ["Abort reason: "; abort_reason txn; nl] else EmptyString;
       "Key set:"; nl;
       cat (print_key <$> keys txn);
       if decide (deleted_keys txn = []) then EmptyString
       else cat ("Deleted keys: " :: ((λ k, cat [tab; ToReadable k; nl]) <$> deleted_keys txn));
       "Type: "; txn_type_name (txn_type (internal txn)); nl;
       match program txn with
       | kCode code => cat ["Code:"; nl; print_procedures code]
       | kRemaster new_master _ => cat ["New master: "; to_string new_master; nl]
       | PROGRAM_NOT_SET => cat ["New master: "; to_string 0; nl]
       end;
       "Coordinating server: "; to_string (coordinating_server (internal txn)); nl;
       "Involved partitions: "; print_numbers (involved_partitions (internal txn)); nl;
       "Involved replicas: "; print_numbers (involved_replicas (internal txn)); nl].

(** ** Comparing *)

Definition metadata_eq (m1 m2 : MasterMetadata) : bool :=
  bool_decide (master m1 = master m2) && bool_decide (counter m1 = counter m2).

Definition value_entry_eq (v1 v2 : ValueEntry) : bool :=
  bool_decide (value v1 = value v2) && bool_decide (new_value v1 = new_value v2) &&
  bool_decide (type v1 = type v2) && metadata_eq (metadata v1) (metadata v2).

Definition key_value_eq (kv1 kv2 : KeyValueEntry) : bool :=
  bool_decide (key kv1 = key kv2) && value_entry_eq (value_entry kv1) (value_entry kv2).

(** [program_case()], a number. *)
Definition program_case (p : Program) : nat :=
  match p with PROGRAM_NOT_SET => 0 | kCode _ => 1 | kRemaster _ _ => 2 end.

Fixpoint keys_eq (l1 l2 : list KeyValueEntry) : bool :=
  match l1, l2 with
  | kv1 :: l1, kv2 :: l2 => if negb (key_value_eq kv1 kv2) then false else keys_eq l1 l2
  | _, _ => true
  end.

Definition txn_eq (txn1 txn2 : Transaction) : bool :=
  let ok := bool_decide (status txn1 = status txn2) && bool_decide (length (keys txn1) = length (keys txn2)) &&
            bool_decide (program_case (program txn1) = program_case (program txn2)) &&
            bool_decide (abort_reason txn1 = abort_reason txn2) &&
            bool_decide (id (internal txn1) = id (internal txn2)) &&
            bool_decide (txn_type (internal txn1) = txn_type (internal txn2)) in
  if negb ok then false else keys_eq (keys txn1) (keys txn2).

(** ** What is proved *)

#[global] Instance append_assoc : Assoc (=) String.append.
Proof.
  intros s1 s2 s3. induction s1 as [|c s1 IH]; [done|].
  change (String c (s1 +:+ (s2 +:+ s3)) = String c ((s1 +:+ s2) +:+ s3)). by rewrite IH.
Qed.

Lemma isprint_hex_byte n : n < 256 → Forall (λ c, isprint c = true) (chars (hex_byte n)).
Proof.
  intros Hn. assert (Hall : forallb (λ n, forallb isprint (chars (hex_byte n))) (seq 0 256) = true) by (vm_compute; done).
  rewrite forallb_forall in Hall. specialize (Hall n). rewrite forallb_forall in Hall.
  apply Forall_forall. intros c Hc. apply Hall; apply list_elem_of_In; [apply elem_of_seq; lia|done].
Qed.

(** Readable text is printable, whatever the bytes. *)
Lemma ToReadable_printable s : Forall (λ c, isprint c = true) (chars (ToReadable s)).
Proof.
  induction s as [|c s IH]; [constructor|]. cbn [ToReadable]. destruct (isprint c) eqn:E; [by constructor|].
  rewrite chars_app. apply Forall_app_2; [|done]. constructor; [done|]. apply isprint_hex_byte, nat_ascii_bounded.
Qed.

(** Text without special bytes is left alone. *)
Lemma ToReadable_id s : Forall (λ c, isprint c = true) (chars s) → ToReadable s = s.
Proof.
  induction s as [|c s IH]; [done|]. intros [Hc Hs]%Forall_cons. cbn [ToReadable]. rewrite Hc. f_equal. by apply IH.
Qed.

(** The part of a transaction that the comparison sees. An entry without metadata counts
    as one with the default. *)
Definition visible_entry (kv : KeyValueEntry) : string * string * string * KeyType * MasterMetadata :=
  (key kv, value (value_entry kv), new_value (value_entry kv), type (value_entry kv), metadata (value_entry kv)).

Definition visible (t : Transaction) :=
  (status t, program_case (program t), abort_reason t, id (internal t), txn_type (internal t), visible_entry <$> keys t).

Lemma key_value_eq_spec kv1 kv2 : key_value_eq kv1 kv2 = true ↔ visible_entry kv1 = visible_entry kv2.
Proof.
  unfold key_value_eq, value_entry_eq, metadata_eq, visible_entry.
  rewrite !andb_true_iff, !bool_decide_eq_true.
  destruct (metadata (value_entry kv1)), (metadata (value_entry kv2)); simpl. naive_solver congruence.
Qed.

Lemma keys_eq_spec l1 l2 :
  length l1 = length l2 → keys_eq l1 l2 = true ↔ visible_entry <$> l1 = visible_entry <$> l2.
Proof.
  revert l2. induction l1 as [|kv1 l1 IH]; intros [|kv2 l2]; simpl; try done.
  intros [= Hl]. pose proof (key_value_eq_spec kv1 kv2) as Hkv. destruct (key_value_eq kv1 kv2); simpl.
  - rewrite IH by done. split; intros Heq; [f_equal; [by apply Hkv|done]|by simplify_eq].
  - split; [done|]. intros [= Hv]. exfalso. enough (false = true) by done. apply Hkv. unfold visible_entry. congruence.
Qed.

(** [operator==] decides that the visible parts agree. *)
Lemma txn_eq_spec t1 t2 : txn_eq t1 t2 = true ↔ visible t1 = visible t2.
Proof.
  unfold txn_eq, visible. destruct (decide (length (keys t1) = length (keys t2))) as [Hl|Hl].
  - rewrite (bool_decide_true _ Hl), andb_true_r.
    assert (∀ b x, (if negb b then false else x) = b && x) as -> by (by intros [] []).
    rewrite !andb_true_iff, !bool_decide_eq_true, (keys_eq_spec _ _ Hl). naive_solver congruence.
  - rewrite (bool_decide_false _ Hl), andb_false_r. simpl. split; [done|].
    intros Hv. exfalso. apply Hl. assert (Hk : visible_entry <$> keys t1 = visible_entry <$> keys t2) by congruence.
    apply (f_equal length) in Hk. by rewrite !length_fmap in Hk.
Qed.

#[global] Instance txn_eq_equivalence : Equivalence (λ t1 t2, txn_eq t1 t2 = true).
Proof.
  split; [intros t|intros t1 t2|intros t1 t2 t3]; rewrite !txn_eq_spec; congruence.
Qed.
