(* ===== verification/Client.v ===== *)
(** * The command-line client

    [service/client.cpp]: the [txn] command reads a transaction from a JSON file and sends
    it, the [stats] command asks a module for its statistics and prints the report. Standard
    output is the string that is written to it. *)
From Stdlib Require Import Ascii.
From S2P Require Import Prelude Types LockSpec Config ProtoUtils TxnHolder TxnText Stats Scheduler Sequencer Server Report.
From S2P Require RMALock DDRLock OldLock.

Definition LockModeStr (mode : Z) : string :=
  if decide (mode = 0)%Z then "UNLOCKED"
  else if decide (mode = 1)%Z then "READ"
  else if decide (mode = 2)%Z then "WRITE" else "<error>".

(** Statistic keys of the server *)
Definition TXN_ID_COUNTER := "txn_id_counter".
Definition NUM_PENDING_RESPONSES := "num_pending_responses".
Definition NUM_PARTIALLY_FINISHED_TXNS := "num_partially_finished_txns".
Definition PENDING_RESPONSES := "pending_responses".
Definition PARTIALLY_FINISHED_TXNS := "partially_finished_txns".

(** Statistic keys of the modules that make batches *)
Definition FORW_BATCH_SIZE_PCTLS := "forw_batch_size_pctls".
Definition FORW_BATCH_DURATION_MS_PCTLS := "forw_batch_duration_ms_pctls".
Definition MHO_BATCH_SIZE_PCTLS := "mho_batch_size_pctls".
Definition MHO_BATCH_DURATION_MS_PCTLS := "mho_batch_duration_ms_pctls".
Definition SEQ_BATCH_SIZE_PCTLS := "seq_batch_size_pctls".
Definition SEQ_BATCH_DURATION_MS_PCTLS := "seq_batch_duration_ms_pctls".

Section client.
  Context {J : Type} `{JsonLib J}.
  (** [FLAGS_truncate] *)
  Context (truncate : Z).

(** [TRUNCATED_FOR_EACH], with the value of its counter. *)
Fixpoint TRUNCATED_FOR_EACH (body : J → result string) (counter : Z) (l : list J) : result string :=
  match l with
  | [] => Ok EmptyString
  | it :: l =>
    let counter := (counter + 1)%Z in
    if decide (truncate ≤ counter)%Z then Ok ("(truncated)" +:+ nl)%string
    else s ← body it; rest ← TRUNCATED_FOR_EACH body counter l; Ok (s +:+ rest)%string
  end.

(** [entry[i]] of an array; an index out of its range breaks an assertion. *)
Definition at_index (entry : list J) (i : nat) : result J :=
  from_option Ok (Err (Undef "index < data_.a.size")) (entry !! i).

Definition uint_member (o : J) (k : string) : result Z := v ← Member o k; GetUint v.
Definition int_member (o : J) (k : string) : result Z := v ← Member o k; GetInt v.
Definition bool_member (o : J) (k : string) : result bool := v ← Member o k; GetBool v.
Definition array_member (o : J) (k : string) : result (list J) := v ← Member o k; GetArray v.
Definition uint_at (entry : list J) (i : nat) : result Z := v ← at_index entry i; GetUint v.

(** A number followed by a blank. *)
Definition print_id (v : J) : result string := n ← GetUint v; Ok (to_string n +:+ " ")%string.

(** ** [stats server] *)

Definition pending_line (txn stream : Z) : string := cat ["("; to_string txn; ", "; to_string stream; ")"; nl].

Definition print_pending (entry : J) : result string :=
  e ← GetArray entry; txn ← uint_at e 0;
  e ← GetArray entry; stream ← uint_at e 1;
  Ok (pending_line txn stream).

Definition PrintServerStats (stats : J) (level : Z) : result string :=
  counter ← uint_member stats TXN_ID_COUNTER;
  num_pending ← uint_member stats NUM_PENDING_RESPONSES;
  pending ←
    if decide (1 ≤ level)%Z then
      l ← array_member stats PENDING_RESPONSES;
      s ← TRUNCATED_FOR_EACH print_pending 0 l;
      Ok (cat ["List of pending responses (txn_id, stream_id):"; nl; s; nl])
    else Ok EmptyString;
  num_finished ← uint_member stats NUM_PARTIALLY_FINISHED_TXNS;
  finished ←
    if decide (1 ≤ level)%Z then
      l ← array_member stats PARTIALLY_FINISHED_TXNS;
      s ← TRUNCATED_FOR_EACH print_id 0 l;
      Ok (cat ["List of partially finished txns: "; s; nl])
    else Ok EmptyString;
  Ok (cat ["Txn id counter: "; to_string counter; nl; "Pending responses: "; to_string num_pending; nl; pending;
           "Partially finished txns: "; to_string num_finished; nl; finished; nl]).

(** ** [stats scheduler] *)

Definition txn_line (id : Z) (is_done is_aborting : bool) (num_lo expected dispatches : Z) (mh mp : bool) : string :=
  cat [tab; TXN_ID; ": "; to_string id; ", "; TXN_DONE; ": "; bool_str is_done; ", ";
       TXN_ABORTING; ": "; bool_str is_aborting; ", "; TXN_NUM_LO; ": "; int_str num_lo; ", ";
       TXN_EXPECTED_NUM_LO; ": "; int_str expected; ", "; TXN_NUM_DISPATCHES; ": "; int_str dispatches; ", ";
       TXN_MULTI_HOME; ": "; bool_str mh; ", "; TXN_MULTI_PARTITION; ": "; bool_str mp; nl].

Definition print_txn (txn : J) : result string :=
  i ← uint_member txn TXN_ID;
  is_done ← bool_member txn TXN_DONE;
  is_aborting ← bool_member txn TXN_ABORTING;
  num_lo ← int_member txn TXN_NUM_LO;
  expected ← int_member txn TXN_EXPECTED_NUM_LO;
  dispatches ← int_member txn TXN_NUM_DISPATCHES;
  mh ← bool_member txn TXN_MULTI_HOME;
  mp ← bool_member txn TXN_MULTI_PARTITION;
  Ok (txn_line i is_done is_aborting num_lo expected dispatches mh mp).

Definition waiting_line (txn n : Z) : string := cat [setw 10 (to_string txn); setw 18 (int_str n); nl].

Definition print_waiting (it : J) : result string :=
  entry ← GetArray it;
  txn ← uint_at entry 0;
  v ← at_index entry 1; n ← GetInt v;
  Ok (waiting_line txn n).

Definition edges_line (txn : Z) (waiters : string) : string := cat [setw 10 (to_string txn); tab; waiters; nl].

Definition print_edges (it : J) : result string :=
  entry ← GetArray it;
  txn ← uint_at entry 0;
  v ← at_index entry 1; l ← GetArray v;
  s ← TRUNCATED_FOR_EACH print_id 0 l;
  Ok (edges_line txn s).

Definition waiter_text (txn mode : Z) : string := cat ["("; to_string txn; ", "; LockModeStr mode; ") "].

Definition print_waiter (waiter : J) : result string :=
  txn_and_mode ← GetArray waiter;
  txn ← uint_at txn_and_mode 0;
  mode ← uint_at txn_and_mode 1;
  Ok (waiter_text txn mode).

Definition queue_line (key : string) (mode : Z) (holders waiters : string) : string :=
  cat ["Key: "; key; ". Mode: "; LockModeStr mode; nl; tab; "Holders: "; holders; nl; tab; "Waiters: "; waiters; nl].

Definition print_queue (it : J) : result string :=
  entry ← GetArray it;
  mode ← uint_at entry 1;
  v ← at_index entry 0; key ← GetString v;
  v ← at_index entry 2; l ← GetArray v;
  holders ← rmap print_id l;
  v ← at_index entry 3; l ← GetArray v;
  waiters ← TRUNCATED_FOR_EACH print_waiter 0 l;
  Ok (queue_line key mode (cat holders) waiters).

Definition tail_line (key : string) (write : Z) (requesters : string) : string :=
  cat ["Key: "; key; nl; tab; "Write: "; to_string write; nl; tab; "Reads: "; requesters; nl].

Definition print_tail (it : J) : result string :=
  entry ← GetArray it;
  v ← at_index entry 0; key ← GetString v;
  write ← uint_at entry 1;
  v ← at_index entry 2; l ← GetArray v;
  requesters ← TRUNCATED_FOR_EACH print_id 0 l;
  Ok (tail_line key write requesters).

Definition waiting_title : string := cat [setw 10 "Txn"; setw 18 "# waiting for"; nl].
Definition edges_title : string := cat [setw 10 "Txn"; tab; "Txns waiting for this txn"; nl].
Definition dependencies_title : string := cat [nl; nl; "TRANSACTION DEPENDENCIES"; nl; nl].
Definition table_title : string := cat [nl; nl; "LOCK TABLE"; nl; nl].

Definition scheduler_text (num_all : Z) (txns : string) (waiting : Z) (locked deps table : string) : string :=
  cat ["Number of active txns: "; to_string num_all; nl; nl; "ACTIVE TRANSACTIONS"; nl; nl; txns; nl;
       "Waiting txns: "; to_string waiting; nl; locked; deps; table; nl].

Definition PrintSchedulerStats (stats : J) (level : Z) : result string :=
  num_all ← uint_member stats NUM_ALL_TXNS;
  txns ←
    if decide (level = 0%Z) then l ← array_member stats ALL_TXNS; TRUNCATED_FOR_EACH print_id 0 l
    else if decide (1 ≤ level)%Z then l ← array_member stats ALL_TXNS; TRUNCATED_FOR_EACH print_txn 0 l
    else Ok EmptyString;
  waiting ← uint_member stats NUM_TXNS_WAITING_FOR_LOCK;
  lock_man_type ← int_member stats LOCK_MANAGER_TYPE;
  locked ←
    if decide (lock_man_type = 0%Z) then
      n ← uint_member stats NUM_LOCKED_KEYS; Ok (cat ["Locked keys: "; to_string n; nl])
    else Ok EmptyString;
  deps ←
    if decide (1 ≤ level)%Z then
      s ← if decide (lock_man_type = 0%Z) then
            l ← array_member stats NUM_WAITING_FOR_PER_TXN;
            s ← TRUNCATED_FOR_EACH print_waiting 0 l; Ok (waiting_title +:+ s)%string
          else
            l ← array_member stats WAITED_BY_GRAPH;
            s ← TRUNCATED_FOR_EACH print_edges 0 l; Ok (edges_title +:+ s)%string;
      Ok (dependencies_title +:+ s)%string
    else Ok EmptyString;
  table ←
    if decide (2 ≤ level)%Z then
      l ← array_member stats LOCK_TABLE;
      s ← TRUNCATED_FOR_EACH (if decide (lock_man_type = 0%Z) then print_queue else print_tail) 0 l;
      Ok (table_title +:+ s)%string
    else Ok EmptyString;
  Ok (scheduler_text num_all txns waiting locked deps table).

(** ** [stats forwarder], [stats mhorderer], [stats sequencer]

    The three functions differ in the keys they read. A duration is a [float]:
    [float_text] reads it and writes it with three digits. *)
  Context (float_text : J → result string).

Definition pctl_lines (text : J → result string) (pctls : list J) : result string :=
  lines ← rmap (λ ip : nat * Z, v ← at_index pctls ip.1; s ← text v; Ok (cat [setw 4 (int_str ip.2); ": "; s; nl]))
            (imap pair kPctlLevels);
  Ok (cat lines).

Definition print_batch_stats (duration_key size_key : string) (stats : J) : result string :=
  batch_duration_ms_pctls ← array_member stats duration_key;
  batch_size_pctls ← array_member stats size_key;
  durations ← if decide (length batch_duration_ms_pctls = 0) then Ok (cat [tab; "No data"; nl])
              else pctl_lines float_text batch_duration_ms_pctls;
  sizes ← if decide (length batch_size_pctls = 0) then Ok (cat [tab; "No data"; nl])
          else pctl_lines (λ v, n ← GetInt v; Ok (int_str n)) batch_size_pctls;
  Ok (cat ["Batch duration percentiles (ms)"; nl; durations; nl; "Batch size percentiles"; nl; sizes]).

Definition PrintForwarderStats (stats : J) (level : Z) : result string :=
  print_batch_stats FORW_BATCH_DURATION_MS_PCTLS FORW_BATCH_SIZE_PCTLS stats.

Definition PrintMHOrdererStats (stats : J) (level : Z) : result string :=
  print_batch_stats MHO_BATCH_DURATION_MS_PCTLS MHO_BATCH_SIZE_PCTLS stats.

Definition PrintSequencerStats (stats : J) (level : Z) : result string :=
  print_batch_stats SEQ_BATCH_DURATION_MS_PCTLS SEQ_BATCH_SIZE_PCTLS stats.

(** ** The [stats] command *)

Definition STATS_MODULES (module : string) : option (ModuleId * (J → Z → result string)) :=
  if decide (module = "server") then Some (SERVER, PrintServerStats)
  else if decide (module = "forwarder") then Some (FORWARDER, PrintForwarderStats)
  else if decide (module = "mhorderer") then Some (MHORDERER, PrintMHOrdererStats)
  else if decide (module = "sequencer") then Some (SEQUENCER, PrintSequencerStats)
  else if decide (module = "scheduler") then Some (SCHEDULER, PrintSchedulerStats)
  else None.

(** What the command sends, if anything, and what it prints for the JSON text of the reply;
    [None] is a reply that cannot be read. *)
Definition ExecuteStats (module : string) (level : Z) : option (api_request * (option string → result string)) :=
  '(api_enum, print_func) ← STATS_MODULES module;
  Some (ApiStats api_enum level,
        λ reply, match reply with
                 | None => Err (Fatal "Malformed response")
                 | Some json => print_func (Parse json) level
                 end).

(** ** The [txn] command *)

Definition key_of (type : KeyType) (v : J) : result KeyMetadata :=
  k ← GetString v; Ok {| km_key := c_str k; km_type := type; km_metadata := None |}.

Definition args_of (proc_json : J) : result (list string) :=
  l ← GetArray proc_json; rmap (λ arg_json, s ← GetString arg_json; Ok (c_str s)) l.

Definition txn_of_json (d : J) : result Transaction :=
  write_set_arr ← array_member d "write_set";
  writes ← rmap (key_of WRITE) write_set_arr;
  read_set_arr ← array_member d "read_set";
  reads ← rmap (key_of READ) read_set_arr;
  let keys := writes ++ reads in
  if HasMember d "new_master" then
    new_master ← int_member d "new_master";
    MakeTransaction keys [] (Some new_master) 0
  else
    code_json ← array_member d "code";
    code ← rmap args_of code_json;
    MakeTransaction keys code None 0.

Definition event_line (e : TransactionEventInfo) : string :=
  cat [setw_left 40 (event_name (ev_event e)); setw 8 (int_str (ev_machine e)); setw 22 (int_str (ev_time e));
       setw 7 (int_str (ev_home e)); nl].

Definition event_title : string :=
  cat [setw_left 40 "Tracing event"; setw 8 "Machine"; setw 22 "Time"; setw 7 "Home"; nl].

Definition reply_text (txn : Transaction) : string :=
  (print_transaction txn +:+
   if decide (events (internal txn) = []) then EmptyString
   else (event_title +:+ cat (event_line <$> events (internal txn))))%string.

(** [repeat] replies are read; [None] is one that cannot be read. While a reply has not come
    the command waits. *)
Fixpoint await_replies (repeat : nat) (replies : list (option Transaction)) : result string :=
  match repeat with
  | 0 => Ok EmptyString
  | S repeat =>
    match replies with
    | Some txn :: replies => s ← await_replies repeat replies; Ok (reply_text txn +:+ s)%string
    | None :: _ => Err (Fatal "Malformed response")
    | [] => Err OutOfFuel
    end
  end.

(** The requests that are sent and what is printed. [None] is a file that cannot be opened
    or parsed. *)
Definition ExecuteTxn (repeat : nat) (no_wait : bool) (file : option J) (replies : list (option Transaction)) :
    result (list api_request * string) :=
  match file with
  | None => Ok ([], EmptyString)
  | Some d =>
    txn ← txn_of_json d;
    out ← if no_wait then Ok EmptyString else await_replies repeat replies;
    Ok (replicate repeat (ApiTxn txn), out)
  end.
End client.

(** The JSON text of the server's own report, [ProcessStatsRequest] of [module/server.cpp]. *)
Definition stats_text {J} `{JsonLib J} (r : stats_json) : string :=
  match r with
  | ModuleStats json => json
  | ServerStats counter num_pending num_finished pending finished =>
    let stats := AddMember EmptyObject TXN_ID_COUNTER (jnum counter) in
    let stats := AddMember stats NUM_PENDING_RESPONSES (jnum (Z.of_nat num_pending)) in
    let stats := AddMember stats NUM_PARTIALLY_FINISHED_TXNS (jnum (Z.of_nat num_finished)) in
    let stats := match pending with
      | Some l => AddMember stats PENDING_RESPONSES (ToJsonArrayOfKeyValue l jnum) | None => stats end in
    let stats := match finished with
      | Some l => AddMember stats PARTIALLY_FINISHED_TXNS (ToJsonArray l jnum) | None => stats end in
    Write stats
  end.

(** ** What the user reads *)

Definition uint32 (z : Z) : Prop := (0 ≤ z < 2 ^ 32)%Z.
Definition int32 (z : Z) : Prop := (- 2 ^ 31 ≤ z < 2 ^ 31)%Z.

Section text.
  Context (truncate : Z).

(** A list cut to fewer than [truncate] entries. *)
Definition shown_from {A} (counter : Z) (f : A → string) (l : list A) : string :=
  if decide (counter + Z.of_nat (length l) < truncate ∨ l = [])%Z then cat (f <$> l)
  else (cat (f <$> take (Z.to_nat (truncate - 1 - counter)) l) +:+ ("(truncated)" +:+ nl))%string.

Definition shown {A} (f : A → string) (l : list A) : string := shown_from 0 f l.

Definition id_text (i : Z) : string := (to_string i +:+ " ")%string.

Definition holder_line (e : TxnId * TxnHolder) : string :=
  match holder_txn e.2 with
  | Ok t => txn_line e.1 (done_ e.2) (aborting_ e.2) (num_lo_txns_ e.2) (expected_num_lo_txns_ e.2) (num_dispatches_ e.2)
              (bool_decide (txn_type (internal t) = MULTI_HOME_OR_LOCK_ONLY))
              (bool_decide (1 < length (involved_partitions (internal t))))
  | Err _ => EmptyString
  end.

Definition locked_text (v : lock_view) : string :=
  match v with QueueView _ locked _ => cat ["Locked keys: "; to_string locked; nl] | GraphView _ _ => EmptyString end.

Definition deps_text (v : lock_view) : string :=
  match v with
  | QueueView waiting _ _ => (waiting_title +:+ shown (λ e, waiting_line e.1 e.2) waiting)%string
  | GraphView edges _ => (edges_title +:+ shown (λ e, edges_line e.1 (shown id_text e.2)) edges)%string
  end.

Definition table_text (v : lock_view) : string :=
  match v with
  | QueueView _ _ table =>
    shown (λ '(k, m, hs, ws), queue_line (c_str k) (mode_num m) (cat (id_text <$> hs))
             (shown (λ w : TxnId * LockMode, waiter_text w.1 (mode_num w.2)) ws)) table
  | GraphView _ table => shown (λ '(k, w, rs), tail_line (c_str k) w (shown id_text rs)) table
  end.

(** The text for an active set and a view of the lock manager. *)
Definition report_text (level : Z) (active : list (TxnId * TxnHolder)) (v : lock_view) : string :=
  scheduler_text (Z.of_nat (length active))
    (if decide (level = 0%Z) then shown (λ e, id_text e.1) active else shown holder_line active)
    (view_waiting v) (locked_text v)
    (if decide (1 ≤ level)%Z then (dependencies_title +:+ deps_text v)%string else EmptyString)
    (if decide (2 ≤ level)%Z then (table_title +:+ table_text v)%string else EmptyString).
End text.

(** The numbers that the client reads into 32 bits. *)
Definition view_fits (v : lock_view) : Prop :=
  uint32 (view_waiting v) ∧
  match v with
  | QueueView waiting locked table =>
    uint32 locked ∧ Forall (λ e, uint32 e.1 ∧ int32 e.2) waiting ∧
    Forall (λ '(k, m, hs, ws), Forall uint32 hs ∧ Forall (λ w : TxnId * LockMode, uint32 w.1) ws) table
  | GraphView edges table =>
    Forall (λ e, uint32 e.1 ∧ Forall uint32 e.2) edges ∧
    Forall (λ '(k, w, rs), uint32 w ∧ Forall uint32 rs) table
  end.

Definition holder_fits (e : TxnId * TxnHolder) : Prop :=
  uint32 e.1 ∧ int32 (num_lo_txns_ e.2) ∧ int32 (expected_num_lo_txns_ e.2) ∧ int32 (num_dispatches_ e.2) ∧
  ∃ t, holder_txn e.2 = Ok t.

#[global] Instance uint32_dec z : Decision (uint32 z).
Proof. unfold uint32. apply _. Defined.
#[global] Instance int32_dec z : Decision (int32 z).
Proof. unfold int32. apply _. Defined.
#[global] Instance holder_ok_dec h : Decision (∃ t, holder_txn h = Ok t).
Proof. destruct (holder_txn h) as [t|f]; [left; by exists t|right; by intros [t [=]]]. Defined.
#[global] Instance holder_fits_dec e : Decision (holder_fits e).
Proof. unfold holder_fits. apply _. Defined.
#[global] Instance view_fits_dec v : Decision (view_fits v).
Proof. unfold view_fits. destruct v; apply _. Defined.

(** One read of the client's. *)
Ltac run := unfold at_index; cbn [mbind result_bind lookup list_lookup from_option].

(** A member of a list of members that is written out. *)
Ltac find_member :=
  lazymatch goal with
  | |- _ ∈ _ :: _ => first [apply list_elem_of_here|apply list_elem_of_further; find_member]
  | |- _ ∈ _ ++ _ => apply elem_of_app; first [left; find_member|right; find_member]
  end.

Section printing.
  Context {J : Type} `{JsonLaws J} (truncate : Z).

Lemma TRUNCATED_FOR_EACH_from {A} (body : J → result string) (f : A → string) (g : A → J) l counter :
  (∀ x, x ∈ l → body (g x) = Ok (f x)) →
  TRUNCATED_FOR_EACH truncate body counter (g <$> l) = Ok (shown_from truncate counter f l).
Proof.
  revert counter. induction l as [|x l IH]; intros counter Hb.
  { unfold shown_from. by rewrite decide_True by tauto. }
  cbn [fmap list_fmap TRUNCATED_FOR_EACH]. unfold shown_from. cbn [length].
  destruct (decide (truncate ≤ counter + 1)%Z) as [Ht|Ht].
  - rewrite decide_False by (intros [?|?]; [lia|done]).
    replace (Z.to_nat (truncate - 1 - counter)) with 0 by lia. done.
  - rewrite Hb by set_solver. cbn [mbind result_bind].
    rewrite IH by set_solver. cbn [mbind result_bind]. unfold shown_from. do 2 f_equal.
    replace (Z.to_nat (truncate - 1 - counter)) with (S (Z.to_nat (truncate - 1 - (counter + 1)))) by lia.
    destruct (decide (_ ∨ l = [])) as [Hl|Hl].
    + rewrite decide_True by (left; destruct Hl as [?| ->]; simpl; lia). done.
    + rewrite decide_False by (intros [?|?]; [apply Hl; left; lia|done]).
      cbn [take fmap list_fmap cat foldr]. by rewrite (assoc_L String.append).
Qed.

Lemma TRUNCATED_FOR_EACH_shown {A} (body : J → result string) (f : A → string) (g : A → J) l :
  (∀ x, x ∈ l → body (g x) = Ok (f x)) →
  TRUNCATED_FOR_EACH truncate body 0 (g <$> l) = Ok (shown truncate f l).
Proof. apply TRUNCATED_FOR_EACH_from. Qed.

Lemma uint_member_obj ms k z : NoDup ms.*1 → (k, jnum z) ∈ ms → uint32 z → uint_member (obj ms) k = Ok z.
Proof. intros Hnd Hin Hz. unfold uint_member. rewrite (Member_obj ms k _ Hnd Hin). by apply GetUint_num. Qed.

Lemma int_member_obj ms k z : NoDup ms.*1 → (k, jnum z) ∈ ms → int32 z → int_member (obj ms) k = Ok z.
Proof. intros Hnd Hin Hz. unfold int_member. rewrite (Member_obj ms k _ Hnd Hin). by apply GetInt_num. Qed.

Lemma bool_member_obj ms k b : NoDup ms.*1 → (k, jbool b) ∈ ms → bool_member (obj ms) k = Ok b.
Proof. intros Hnd Hin. unfold bool_member. rewrite (Member_obj ms k _ Hnd Hin). by apply GetBool_bool. Qed.

Lemma array_member_obj ms k l : NoDup ms.*1 → (k, arr l) ∈ ms → array_member (obj ms) k = Ok l.
Proof. intros Hnd Hin. unfold array_member. rewrite (Member_obj ms k _ Hnd Hin). by apply GetArray_arr. Qed.

(** *** The entries of a report *)

Lemma print_id_num i : uint32 i → print_id (jnum i) = Ok (id_text i).
Proof. intros Hi. unfold print_id. by rewrite GetUint_num. Qed.

Lemma uint_at_num l i z : l !! i = Some (jnum z) → uint32 z → uint_at l i = Ok z.
Proof. intros Hl Hz. unfold uint_at, at_index. rewrite Hl. by apply GetUint_num. Qed.

Lemma print_ids l : Forall uint32 l → TRUNCATED_FOR_EACH truncate print_id 0 (jnum <$> l) = Ok (shown truncate id_text l).
Proof.
  rewrite Forall_forall. intros Hl. apply (TRUNCATED_FOR_EACH_shown _ id_text). intros x Hx. by apply print_id_num, Hl.
Qed.

Lemma print_all_ids l : Forall uint32 l → rmap print_id (jnum <$> l) = Ok (id_text <$> l).
Proof.
  induction 1 as [|i l Hi Hl IH]; [done|]. cbn [fmap list_fmap rmap]. rewrite print_id_num by done. run.
  by rewrite IH.
Qed.

Lemma print_pending_arr txn stream : uint32 txn → uint32 stream →
  print_pending (arr [jnum txn; jnum stream]) = Ok (pending_line txn stream).
Proof.
  intros Ht Hs. unfold print_pending. rewrite GetArray_arr. cbn [mbind result_bind].
  by rewrite (uint_at_num _ 0 txn), (uint_at_num _ 1 stream).
Qed.

Lemma print_waiting_arr txn n : uint32 txn → int32 n → print_waiting (arr [jnum txn; jnum n]) = Ok (waiting_line txn n).
Proof.
  intros Ht Hn. unfold print_waiting. rewrite GetArray_arr. cbn [mbind result_bind].
  rewrite (uint_at_num _ 0 txn) by done. run. by rewrite GetInt_num.
Qed.

Lemma print_edges_arr txn l : uint32 txn → Forall uint32 l →
  print_edges truncate (arr [jnum txn; arr (jnum <$> l)]) = Ok (edges_line txn (shown truncate id_text l)).
Proof.
  intros Ht Hl. unfold print_edges. rewrite GetArray_arr. cbn [mbind result_bind].
  rewrite (uint_at_num _ 0 txn) by done. run. rewrite GetArray_arr. run. by rewrite print_ids.
Qed.

Lemma mode_num_uint32 m : uint32 (mode_num m).
Proof. unfold uint32. destruct m; simpl; lia. Qed.

Lemma print_waiter_arr (w : TxnId * LockMode) : uint32 w.1 →
  print_waiter (arr [jnum w.1; jnum (mode_num w.2)]) = Ok (waiter_text w.1 (mode_num w.2)).
Proof.
  intros Hw. unfold print_waiter. rewrite GetArray_arr. cbn [mbind result_bind].
  rewrite (uint_at_num _ 0 w.1) by done. cbn [mbind result_bind].
  by rewrite (uint_at_num _ 1 (mode_num w.2)) by (done || apply mode_num_uint32).
Qed.

Lemma print_queue_arr k m hs ws : Forall uint32 hs → Forall (λ w : TxnId * LockMode, uint32 w.1) ws →
  print_queue truncate (arr [jstr (c_str k); jnum (mode_num m); arr (jnum <$> hs);
    arr ((λ w : TxnId * LockMode, arr [jnum w.1; jnum (mode_num w.2)]) <$> ws)]) =
  Ok (queue_line (c_str k) (mode_num m) (cat (id_text <$> hs))
        (shown truncate (λ w : TxnId * LockMode, waiter_text w.1 (mode_num w.2)) ws)).
Proof.
  intros Hh Hw. rewrite Forall_forall in Hw. unfold print_queue. rewrite GetArray_arr. cbn [mbind result_bind].
  rewrite (uint_at_num _ 1 (mode_num m)) by (done || apply mode_num_uint32). run. rewrite GetString_str. run.
  rewrite (GetArray_arr (jnum <$> hs)). run. rewrite print_all_ids by done. run. rewrite ?GetArray_arr. run.
  rewrite (TRUNCATED_FOR_EACH_shown print_waiter (λ w : TxnId * LockMode, waiter_text w.1 (mode_num w.2)))
    by (intros w Hin; by apply print_waiter_arr, Hw).
  done.
Qed.

Lemma print_tail_arr k w rs : uint32 w → Forall uint32 rs →
  print_tail truncate (arr [jstr (c_str k); jnum w; arr (jnum <$> rs)]) = Ok (tail_line (c_str k) w (shown truncate id_text rs)).
Proof.
  intros Hw Hr. unfold print_tail. rewrite GetArray_arr. run. rewrite GetString_str. run.
  rewrite (uint_at_num _ 1 w) by done. run. rewrite GetArray_arr. run. by rewrite print_ids.
Qed.

(** *** A transaction *)

Definition txn_members (e : TxnId * TxnHolder) (t : Transaction) : list (string * J) :=
  [(TXN_ID, jnum e.1); (TXN_DONE, jbool (done_ e.2)); (TXN_ABORTING, jbool (aborting_ e.2));
   (TXN_NUM_LO, jnum (num_lo_txns_ e.2)); (TXN_EXPECTED_NUM_LO, jnum (expected_num_lo_txns_ e.2));
   (TXN_NUM_DISPATCHES, jnum (num_dispatches_ e.2));
   (TXN_MULTI_HOME, jbool (bool_decide (txn_type (internal t) = MULTI_HOME_OR_LOCK_ONLY)));
   (TXN_MULTI_PARTITION, jbool (bool_decide (1 < length (involved_partitions (internal t)))))].

Lemma txn_stats_obj e t : holder_txn e.2 = Ok t → txn_stats e = Ok (obj (txn_members e t)).
Proof. intros Ht. unfold txn_stats. destruct e as [i h]. simpl in Ht. by rewrite Ht. Qed.

Definition holder_json (e : TxnId * TxnHolder) : J := match txn_stats e with Ok j => j | Err _ => EmptyObject end.

Lemma txn_members_NoDup e t : NoDup (txn_members e t).*1.
Proof. apply (bool_decide_unpack _). by vm_compute. Qed.

Lemma print_txn_holder e : holder_fits e → print_txn (holder_json e) = Ok (holder_line e).
Proof.
  intros (Hi & Hn & He & Hd & t & Ht). unfold holder_json, holder_line. rewrite (txn_stats_obj e t Ht), Ht.
  pose proof (txn_members_NoDup e t) as Hnd. unfold print_txn.
  rewrite (uint_member_obj _ TXN_ID e.1) by (done || set_solver). run.
  rewrite (bool_member_obj _ TXN_DONE (done_ e.2)) by (done || set_solver). run.
  rewrite (bool_member_obj _ TXN_ABORTING (aborting_ e.2)) by (done || set_solver). run.
  rewrite (int_member_obj _ TXN_NUM_LO (num_lo_txns_ e.2)) by (done || set_solver). run.
  rewrite (int_member_obj _ TXN_EXPECTED_NUM_LO (expected_num_lo_txns_ e.2)) by (done || set_solver). run.
  rewrite (int_member_obj _ TXN_NUM_DISPATCHES (num_dispatches_ e.2)) by (done || set_solver). run.
  rewrite (bool_member_obj _ TXN_MULTI_HOME (bool_decide (txn_type (internal t) = MULTI_HOME_OR_LOCK_ONLY)))
    by (done || set_solver). run.
  by rewrite (bool_member_obj _ TXN_MULTI_PARTITION (bool_decide (1 < length (involved_partitions (internal t)))))
    by (done || set_solver).
Qed.

Lemma rfoldl_push {A} (f : A → result J) (g : A → J) l a :
  (∀ x, x ∈ l → f x = Ok (g x)) →
  rfoldl (λ a x, o ← f x; Ok (PushBack a o)) a l = Ok (foldl PushBack a (g <$> l)).
Proof.
  revert a. induction l as [|x l IH]; intros a Hf; [done|]. cbn [rfoldl]. rewrite Hf by set_solver.
  cbn [mbind result_bind]. apply IH. set_solver.
Qed.

(** *** The report of the scheduler *)

Definition report_members (level : Z) (active : list (TxnId * TxnHolder)) (v : lock_view) : list (string * J) :=
  [(NUM_ALL_TXNS, jnum (Z.of_nat (length active)));
   (ALL_TXNS, arr (if decide (level = 0%Z) then (λ e, jnum e.1) <$> active else holder_json <$> active))] ++
  view_members level v.

Lemma report_members_NoDup level active v : NoDup (report_members level active v).*1.
Proof.
  unfold report_members, view_members.
  destruct v; repeat case_decide; apply (bool_decide_unpack _); vm_compute; done.
Qed.

  Context (level : Z) (active : list (TxnId * TxnHolder)) (v : lock_view).

Lemma print_active :
  (0 ≤ level)%Z → Forall holder_fits active →
  (if decide (level = 0%Z)
   then l ← array_member (obj (report_members level active v)) ALL_TXNS; TRUNCATED_FOR_EACH truncate print_id 0 l
   else if decide (1 ≤ level)%Z
   then l ← array_member (obj (report_members level active v)) ALL_TXNS; TRUNCATED_FOR_EACH truncate print_txn 0 l
   else Ok EmptyString) =
  Ok (if decide (level = 0%Z) then shown truncate (λ e, id_text e.1) active else shown truncate holder_line active).
Proof.
  intros Hl Hact. rewrite Forall_forall in Hact. pose proof (report_members_NoDup level active v) as Hnd.
  destruct (decide (level = 0%Z)) as [E|E] eqn:Ed; [|rewrite (decide_True (P := (1 ≤ level)%Z)) by lia].
  - rewrite (array_member_obj _ ALL_TXNS ((λ e, jnum e.1) <$> active)); [run|done|unfold report_members; rewrite Ed; set_solver].
    apply (TRUNCATED_FOR_EACH_shown print_id (λ e, id_text e.1)). intros e He. apply print_id_num. by apply Hact.
  - rewrite (array_member_obj _ ALL_TXNS (holder_json <$> active)); [run|done|unfold report_members; rewrite Ed; set_solver].
    apply TRUNCATED_FOR_EACH_shown. intros e He. by apply print_txn_holder, Hact.
Qed.

Lemma in_report k j : (k, j) ∈ view_members level v → (k, j) ∈ report_members level active v.
Proof. intros Hin. unfold report_members. apply elem_of_app. by right. Qed.

Lemma print_locked : view_fits v →
  (if decide (view_type v = 0%Z)
   then n ← uint_member (obj (report_members level active v)) NUM_LOCKED_KEYS;
        Ok (cat ["Locked keys: "; to_string n; nl])
   else Ok EmptyString) = Ok (locked_text v).
Proof.
  intros [_ Hv]. pose proof (report_members_NoDup level active v) as Hnd. destruct v as [waiting locked table|]; [|done].
  simpl view_type. rewrite decide_True by done. destruct Hv as [Hlk _].
  rewrite (uint_member_obj _ NUM_LOCKED_KEYS locked); [done|done| |done].
  unfold report_members, view_members. set_solver.
Qed.

Lemma print_deps : view_fits v →
  (if decide (1 ≤ level)%Z then
     s ← if decide (view_type v = 0%Z) then
           l ← array_member (obj (report_members level active v)) NUM_WAITING_FOR_PER_TXN;
           s ← TRUNCATED_FOR_EACH truncate print_waiting 0 l; Ok (waiting_title +:+ s)%string
         else
           l ← array_member (obj (report_members level active v)) WAITED_BY_GRAPH;
           s ← TRUNCATED_FOR_EACH truncate (print_edges truncate) 0 l; Ok (edges_title +:+ s)%string;
     Ok (dependencies_title +:+ s)%string
   else Ok EmptyString) =
  Ok (if decide (1 ≤ level)%Z then (dependencies_title +:+ deps_text truncate v)%string else EmptyString).
Proof.
  intros [_ Hv]. pose proof (report_members_NoDup level active v) as Hnd.
  destruct (decide (1 ≤ level)%Z) as [Hl|]; [|done]. destruct v as [waiting locked table|edges table]; simpl view_type.
  - destruct Hv as (_ & Hw & _). rewrite Forall_forall in Hw. rewrite decide_True by done.
    erewrite array_member_obj; [run|done|unfold report_members, view_members; rewrite (decide_True (P := (1 ≤ level)%Z)) by done; find_member].
    rewrite (TRUNCATED_FOR_EACH_shown _ (λ e, waiting_line e.1 e.2)); [done|].
    intros e He. by apply print_waiting_arr; apply Hw.
  - destruct Hv as (He & _). rewrite Forall_forall in He. rewrite decide_False by done.
    erewrite array_member_obj; [run|done|unfold report_members, view_members; rewrite (decide_True (P := (1 ≤ level)%Z)) by done; find_member].
    rewrite (TRUNCATED_FOR_EACH_shown _ (λ e, edges_line e.1 (shown truncate id_text e.2))); [done|].
    intros e Hin. by apply print_edges_arr; apply He.
Qed.

Lemma print_table : view_fits v →
  (if decide (2 ≤ level)%Z then
     l ← array_member (obj (report_members level active v)) LOCK_TABLE;
     s ← TRUNCATED_FOR_EACH truncate (if decide (view_type v = 0%Z) then print_queue truncate else print_tail truncate) 0 l;
     Ok (table_title +:+ s)%string
   else Ok EmptyString) =
  Ok (if decide (2 ≤ level)%Z then (table_title +:+ table_text truncate v)%string else EmptyString).
Proof.
  intros [_ Hv]. pose proof (report_members_NoDup level active v) as Hnd.
  destruct (decide (2 ≤ level)%Z) as [Hl|]; [|done]. destruct v as [waiting locked table|edges table]; simpl view_type.
  - destruct Hv as (_ & _ & Ht). rewrite Forall_forall in Ht. rewrite decide_True by done.
    erewrite array_member_obj; [run|done|unfold report_members, view_members; rewrite (decide_True (P := (2 ≤ level)%Z)) by done; find_member].
    erewrite TRUNCATED_FOR_EACH_shown; [done|].
    intros [[[k m] hs] ws] Hin. destruct (Ht _ Hin) as [Hh Hws]. by apply print_queue_arr.
  - destruct Hv as (_ & Ht). rewrite Forall_forall in Ht. rewrite decide_False by done.
    erewrite array_member_obj; [run|done|unfold report_members, view_members; rewrite (decide_True (P := (2 ≤ level)%Z)) by done; find_member].
    erewrite TRUNCATED_FOR_EACH_shown; [done|].
    intros [[k w] rs] Hin. destruct (Ht _ Hin) as [Hw Hr]. by apply print_tail_arr.
Qed.

Lemma PrintSchedulerStats_members :
  (0 ≤ level)%Z → uint32 (Z.of_nat (length active)) → Forall holder_fits active → view_fits v →
  PrintSchedulerStats truncate (obj (report_members level active v)) level = Ok (report_text truncate level active v).
Proof.
  intros Hl Hlen Hact [Hw Hv]. pose proof (report_members_NoDup level active v) as Hnd. unfold PrintSchedulerStats.
  rewrite (uint_member_obj _ NUM_ALL_TXNS (Z.of_nat (length active))) by (done || set_solver). run.
  rewrite print_active by done. run.
  rewrite (uint_member_obj _ NUM_TXNS_WAITING_FOR_LOCK (view_waiting v)) by (done || set_solver). run.
  rewrite (int_member_obj _ LOCK_MANAGER_TYPE (view_type v)) by (done || (by destruct v) || set_solver). run.
  rewrite print_locked, print_deps, print_table by done. done.
Qed.
End printing.

Section monitoring.
  Context {J : Type} `{JsonLaws J, !MapVisit Z, !MapVisit string}.
  Context {L : Type} `{!LockManagerStats (J := J) L, !LockReport L}.
  Context (truncate : Z).

Lemma txn_stats_holder e : holder_fits e → txn_stats e = Ok (holder_json e).
Proof. intros (_ & _ & _ & _ & t & Ht). unfold holder_json. by rewrite (txn_stats_obj e t Ht). Qed.

Lemma ProcessStatsRequest_members i level (s : scheduler L) :
  (0 ≤ level < 2 ^ 31)%Z → level = 0%Z ∨ Forall holder_fits (visit_map (active_txns_ s)) →
  ProcessStatsRequest i level s =
    Ok (i, Write (obj (report_members level (visit_map (active_txns_ s)) (lm_view (lock_manager_ s))))).
Proof.
  intros Hl Hact. unfold ProcessStatsRequest.
  rewrite wraps_id by lia. assert (u32 level = level) as -> by (unfold wrapu; rewrite Z.mod_small; lia).
  rewrite size_visit. change EmptyObject with (obj (J := J) []). rewrite !AddMember_obj. unfold report_members.
  destruct (decide (level = 0%Z)) as [->|Hne].
  - rewrite decide_False by lia. cbn [mbind result_bind].
    rewrite ToJsonArray_arr, ?AddMember_obj. by rewrite GetStats_view, <-!app_assoc.
  - rewrite decide_True by lia. destruct Hact as [?|Hact]; [done|]. rewrite Forall_forall in Hact.
    rewrite (rfoldl_push txn_stats holder_json) by (intros e He; by apply txn_stats_holder, Hact).
    cbn [mbind result_bind]. rewrite ?AddMember_obj. by rewrite GetStats_view, <-!app_assoc.
Qed.

Lemma id_of_large c n :
  (0 ≤ local_machine_id c < kMaxNumMachines)%Z → (42949673 ≤ n < 2 ^ 57)%Z → (2 ^ 32 ≤ id_of c n)%Z.
Proof.
  intros Hm Hn. unfold id_of, wrapu. unfold kMaxNumMachines in *. rewrite Z.mod_small by lia. lia.
Qed.

Lemma TRUNCATED_FOR_EACH_fault (body : J → result string) l x counter :
  x ∈ l → (∃ f, body x = Err f) → (counter + Z.of_nat (length l) < truncate)%Z →
  ∃ f, TRUNCATED_FOR_EACH truncate body counter l = Err f.
Proof.
  intros Hx [f Hf]. revert counter. induction l as [|y l IH]; intros counter; [by apply elem_of_nil in Hx|].
  cbn [TRUNCATED_FOR_EACH length]. intros Ht. rewrite decide_False by lia.
  apply elem_of_cons in Hx as [->|Hx]; [rewrite Hf; by eexists|].
  destruct (body y); cbn; [|by eexists]. destruct (IH Hx (counter + 1)%Z) as [f' ->]; [lia|]. by eexists.
Qed.
End monitoring.

Section round_trip.
  Context {J : Type} `{JsonLaws J, !MapVisit Z, !MapVisit string}.
  Context {L : Type} `{!LockManagerStats (J := J) L, !LockReport L}.
  Context (truncate : Z) (float_text : J → result string) (c : Configuration).
  Context (recorded : TransactionEvent → list TransactionEventInfo).

(** C12. The [stats scheduler] command, with any of the lock managers: the request of the
    client goes to the scheduler under a new id, the report comes back to the client that
    asked, the server forgets the request, and what the client reads is the state of the
    scheduler: its active transactions and the view of its lock manager, cut to the lengths
    the user asked for. This is for a level below 2^31, a new id that no other request is
    waiting under, and a report that fits the types of the client: the ids of the transactions
    and all counts within 32 bits ([holder_fits], [view_fits]). Beyond these the client reads
    other numbers or fails ([stats_large_id], [stats_negative_level]). *)
Theorem stats_scheduler_round_trip (identity : string) (stream_id level : Z) (srv : server) (s : scheduler L) :
  let i := id_of c (u64 (txn_id_counter_ srv + 1)) in
  pending_responses_ srv !! i = None → (0 ≤ level < 2 ^ 31)%Z →
  uint32 (Z.of_nat (size (active_txns_ s))) → Forall holder_fits (visit_map (active_txns_ s)) →
  view_fits (lm_view (lock_manager_ s)) →
  ∃ req print srv1 json,
    ExecuteStats truncate float_text "scheduler" level = Some (req, print) ∧
    OnClientRequest c recorded identity stream_id req srv = Ok srv1 ∧
    server_out srv1 = server_out srv ++ [ToModule SCHEDULER i level] ∧
    ProcessStatsRequest i level s = Ok (i, json) ∧
    server_out (OnStatsResponse i (ModuleStats json) srv1) =
      server_out srv1 ++ [ToClient i identity stream_id (StatsResponse (ModuleStats json))] ∧
    pending_responses_ (OnStatsResponse i (ModuleStats json) srv1) = pending_responses_ srv ∧
    print (Some (stats_text (J := J) (ModuleStats json))) =
      Ok (report_text truncate level (visit_map (active_txns_ s)) (lm_view (lock_manager_ s))).
Proof.
  intros i Hi Hl Hsz Hact Hv. do 4 eexists. split; [reflexivity|].
  split. { unfold OnClientRequest. cbn [NextTxnId pending_responses_]. fold i. by rewrite Hi. }
  split; [done|]. split; [by apply ProcessStatsRequest_members; [|right]|].
  unfold OnStatsResponse, SendResponseToClient. cbn. rewrite lookup_insert_eq. cbn.
  split; [done|]. split; [by rewrite delete_insert_id|].
  rewrite Parse_Write. apply PrintSchedulerStats_members; [lia|by rewrite <-size_visit|done..].
Qed.

(** The [stats server] command: the server answers itself, and the request being answered
    counts as pending. *)
Definition server_report (level : Z) (pending : list (TxnId * Z)) (finished : list TxnId) (counter : Z) : string :=
  cat ["Txn id counter: "; to_string counter; nl; "Pending responses: "; to_string (Z.of_nat (length pending)); nl;
       if decide (1 ≤ level)%Z
       then cat ["List of pending responses (txn_id, stream_id):"; nl;
                 shown truncate (λ e, pending_line e.1 e.2) pending; nl] else EmptyString;
       "Partially finished txns: "; to_string (Z.of_nat (length finished)); nl;
       if decide (1 ≤ level)%Z
       then cat ["List of partially finished txns: "; shown truncate id_text finished; nl] else EmptyString; nl].

Lemma PrintServerStats_text level pending finished counter :
  uint32 counter → uint32 (Z.of_nat (length pending)) → uint32 (Z.of_nat (length finished)) →
  Forall (λ e, uint32 e.1 ∧ uint32 e.2) pending → Forall uint32 finished →
  PrintServerStats truncate (Parse (J := J) (stats_text (J := J)
    (ServerStats counter (length pending) (length finished)
       (if decide (1 ≤ level)%Z then Some pending else None) (if decide (1 ≤ level)%Z then Some finished else None)))) level =
  Ok (server_report level pending finished counter).
Proof.
  intros Hc Hp Hf Hpend Hfin. rewrite Forall_forall in Hpend. unfold stats_text, server_report.
  change EmptyObject with (obj (J := J) []). rewrite !AddMember_obj.
  destruct (decide (1 ≤ level)%Z) eqn:El.
  all: rewrite ?ToJsonArrayOfKeyValue_arr, ?ToJsonArray_arr, ?AddMember_obj, Parse_Write; cbn [app].
  all: match goal with |- PrintServerStats _ (obj ?m) _ = _ => assert (Hnd : NoDup m.*1)
         by (apply (bool_decide_unpack _); vm_compute; done) end.
  all: unfold PrintServerStats; rewrite ?El.
  all: rewrite (uint_member_obj _ TXN_ID_COUNTER counter) by (done || find_member); run.
  all: rewrite (uint_member_obj _ NUM_PENDING_RESPONSES (Z.of_nat (length pending))) by (done || find_member); run.
  2: { by rewrite (uint_member_obj _ NUM_PARTIALLY_FINISHED_TXNS (Z.of_nat (length finished))) by (done || find_member). }
  erewrite (array_member_obj _ PENDING_RESPONSES); [run|done|find_member].
  rewrite (TRUNCATED_FOR_EACH_shown truncate print_pending (λ e, pending_line e.1 e.2))
    by (intros e He; by apply print_pending_arr; apply Hpend). run.
  rewrite (uint_member_obj _ NUM_PARTIALLY_FINISHED_TXNS (Z.of_nat (length finished))) by (done || find_member). run.
  erewrite (array_member_obj _ PARTIALLY_FINISHED_TXNS); [run|done|find_member]. by rewrite print_ids.
Qed.

(** The client reads ids into 32 bits, and the ids of a server pass that after
    42,949,673 requests: with such a transaction in the scheduler the client cannot print
    the report, although the scheduler sends it. *)
Theorem stats_large_id (i n : Z) (h : TxnHolder) (s : scheduler L) :
  (0 ≤ local_machine_id c < kMaxNumMachines)%Z → (42949673 ≤ n < 2 ^ 57)%Z →
  active_txns_ s !! id_of c n = Some h → (Z.of_nat (size (active_txns_ s)) < truncate < 2 ^ 31)%Z →
  ∃ json f, ProcessStatsRequest i 0 s = Ok (i, json) ∧ PrintSchedulerStats truncate (Parse (J := J) json) 0 = Err f.
Proof.
  intros Hm Hn Hh Hsz. pose proof (id_of_large c n Hm Hn) as Hbig.
  pose proof (report_members_NoDup 0 (visit_map (active_txns_ s)) (lm_view (lock_manager_ s))) as Hnd.
  assert (He : (id_of c n, h) ∈ visit_map (active_txns_ s)) by by rewrite visit_map_perm, elem_of_map_to_list.
  destruct (TRUNCATED_FOR_EACH_fault truncate print_id ((λ e, jnum e.1) <$> visit_map (active_txns_ s)) (jnum (id_of c n)) 0)
    as [f Hf].
  { by apply (list_elem_of_fmap_2 (λ e : TxnId * TxnHolder, jnum e.1) _ (id_of c n, h)). }
  { unfold print_id. destruct (GetUint_large _ Hbig) as [f ->]. by eexists. }
  { rewrite length_fmap, <-size_visit. lia. }
  eexists _, f. split; [apply ProcessStatsRequest_members; [lia|by left]|].
  rewrite Parse_Write. unfold PrintSchedulerStats.
  rewrite (uint_member_obj _ NUM_ALL_TXNS (Z.of_nat (length (visit_map (active_txns_ s)))));
    [run|done|unfold report_members; find_member|].
  2:{ rewrite <-size_visit. unfold uint32. lia. }
  rewrite decide_True by done. rewrite (array_member_obj _ ALL_TXNS ((λ e, jnum e.1) <$> visit_map (active_txns_ s)));
    [run|done|unfold report_members; rewrite decide_True by done; find_member].
  by rewrite Hf.
Qed.

(** A level that is negative as an [int] gives a report without transactions, which the
    client, for which the level is large, cannot print. *)
Lemma stats_negative_level (i level : Z) (s : scheduler L) :
  (2 ^ 31 ≤ level < 2 ^ 32)%Z → uint32 (Z.of_nat (size (active_txns_ s))) →
  ∃ json f, ProcessStatsRequest i level s = Ok (i, json) ∧ PrintSchedulerStats truncate (Parse (J := J) json) level = Err f.
Proof.
  intros Hl Hsz. assert (Hw : i32 level = (level - 2 ^ 32)%Z).
  { unfold wraps. replace (level + 2 ^ (32 - 1))%Z with ((level - 2 ^ 31) + 1 * 2 ^ 32)%Z by lia.
    rewrite Z.mod_add, Z.mod_small by lia. lia. }
  set (ms := [(NUM_ALL_TXNS, jnum (Z.of_nat (size (active_txns_ s))))] ++
             view_members (u32 (level - 2 ^ 32)) (lm_view (lock_manager_ s))).
  assert (Hms : NoDup ms.*1 ∧ ALL_TXNS ∉ ms.*1).
  { unfold ms, view_members. destruct (lm_view (lock_manager_ s));
      repeat case_decide; split; apply (bool_decide_unpack _); vm_compute; done. }
  destruct Hms as [Hnd Hall]. destruct (Member_obj_missing (J := J) ms ALL_TXNS Hall) as [f Hf].
  exists (Write (obj ms)), f. split.
  { unfold ProcessStatsRequest. rewrite Hw, decide_False, decide_False by lia. cbn [mbind result_bind].
    change EmptyObject with (obj (J := J) []). by rewrite AddMember_obj, GetStats_view. }
  rewrite Parse_Write. unfold PrintSchedulerStats.
  rewrite (uint_member_obj ms NUM_ALL_TXNS (Z.of_nat (size (active_txns_ s)))); [run|done|unfold ms; find_member|done].
  rewrite decide_False, decide_True by lia. unfold array_member. by rewrite Hf.
Qed.
End round_trip.

(** ** The [txn] command *)

Section txn_command.
  Context {J : Type} `{JsonLaws J}.

(** A string without null characters, as every C string. *)
Definition plain (s : string) : Prop := c_str s = s.

Lemma keys_of_json type ks :
  Forall plain ks →
  rmap (key_of type) (jstr <$> ks) = Ok ((λ k, {| km_key := k; km_type := type; km_metadata := None |}) <$> ks).
Proof.
  induction 1 as [|k ks Hk Hks IH]; [done|]. rewrite !fmap_cons. cbn [rmap].
  assert (key_of type (jstr k) = Ok {| km_key := k; km_type := type; km_metadata := None |}) as ->.
  { unfold key_of. rewrite GetString_str. run. by rewrite Hk. }
  run. by rewrite IH.
Qed.

Lemma args_of_json args : Forall plain args → args_of (arr (jstr <$> args)) = Ok args.
Proof.
  intros Hp. unfold args_of. rewrite GetArray_arr. run.
  induction Hp as [|a args Ha Hp IH]; [done|]. rewrite fmap_cons. cbn [rmap]. rewrite GetString_str. run. by rewrite IH, Ha.
Qed.

Lemma code_of_json code :
  Forall (Forall plain) code → rmap args_of ((λ p, arr (jstr <$> p)) <$> code) = Ok code.
Proof.
  induction 1 as [|p code Hp Hc IH]; [done|]. rewrite fmap_cons. cbn [rmap]. rewrite args_of_json by done. run. by rewrite IH.
Qed.

Lemma await_replies_all (ts : list Transaction) :
  await_replies (length ts) (Some <$> ts) = Ok (cat (reply_text <$> ts)).
Proof. induction ts as [|t ts IH]; [done|]. rewrite fmap_cons. cbn [length await_replies]. rewrite IH. done. Qed.

(** The entry of a key before its home is known. *)
Definition new_entry (type : KeyType) (k : Key) : KeyValueEntry :=
  {| key := k; value_entry := {| value := EmptyString; new_value := EmptyString; Types.type := type; opt_metadata := None |} |}.

(** The [txn] command sends the transaction of the file as often as the user asked:
    the keys of the write set and then of the read set, with their types and no metadata,
    and the procedures of the file in order; and it prints one reply for each request. The
    members of the file may stand in any order, beside others. *)
Theorem txn_command (file : list (string * J)) (writes reads : list string) (code : list (list string))
    (replies : list Transaction) :
  NoDup file.*1 → ("write_set", arr (jstr <$> writes)) ∈ file → ("read_set", arr (jstr <$> reads)) ∈ file →
  ("code", arr ((λ p, arr (jstr <$> p)) <$> code)) ∈ file → "new_master" ∉ file.*1 → code ≠ [] →
  Forall plain writes → Forall plain reads → Forall (Forall plain) code →
  ∃ t, ExecuteTxn (length replies) false (Some (Parse (Write (obj file)))) (Some <$> replies) =
         Ok (replicate (length replies) (ApiTxn t), cat (reply_text <$> replies)) ∧
       keys t = (new_entry WRITE <$> writes) ++ (new_entry READ <$> reads) ∧ program t = kCode code ∧
       txn_type (internal t) = UNKNOWN.
Proof.
  intros Hnd Hw Hr Hc Hm Hne Pw Pr Pc. unfold ExecuteTxn, txn_of_json. rewrite Parse_Write.
  rewrite (array_member_obj _ _ _ Hnd Hw). run. rewrite keys_of_json by done. run.
  rewrite (array_member_obj _ _ _ Hnd Hr). run. rewrite keys_of_json by done. run.
  rewrite HasMember_obj, bool_decide_false by done. rewrite (array_member_obj _ _ _ Hnd Hc). run.
  rewrite code_of_json by done. run.
  edestruct MakeTransaction_unknown as (t & Ht & Hk & Hp & Hty); [|rewrite Ht].
  { apply Forall_app_2; apply Forall_fmap, Forall_true; done. }
  run. rewrite await_replies_all. run. eexists. split; [done|]. rewrite Hk, fmap_app, <-!list_fmap_compose.
  split; [done|]. by destruct code.
Qed.
End txn_command.

(** ** Examples *)

(** Two writers of a key, the second of which waits. *)
Definition shown_txns : list Transaction :=
  [make_txn 101 SINGLE_HOME 0 (kCode [["SET"; "a"; "1"]]) [make_entry "a" WRITE 0 0];
   make_txn 201 SINGLE_HOME 0 (kCode [["SET"; "a"; "2"]]) [make_entry "a" WRITE 0 0]].

Definition shown_after (ts : list Transaction) : scheduler RMALock.RMALockManager :=
  match rfoldl (λ s t, ProcessTransaction example_config (λ _, []) t s) sched_init ts with
  | Ok s => s
  | Err _ => sched_init
  end.

Lemma shown_view :
  lm_view (lock_manager_ (shown_after shown_txns)) =
  QueueView [(101, 0); (201, 1)]%Z 1 [("a:0", LOCK_WRITE, [101%Z], [(201%Z, LOCK_WRITE)])].
Proof. vm_compute. reflexivity. Qed.

Lemma stats_scheduler_round_trip_witness :
  ∃ req print srv1 text,
    ExecuteStats (J := json) 50 (λ _, Ok EmptyString) "scheduler" 2 = Some (req, print) ∧
    OnClientRequest example_config (λ _, []) "x" 7 req (server_init example_config) = Ok srv1 ∧
    print (Some text) =
      Ok (report_text 50 2 (visit_map (active_txns_ (shown_after shown_txns)))
            (QueueView [(101, 0); (201, 1)]%Z 1 [("a:0", LOCK_WRITE, [101%Z], [(201%Z, LOCK_WRITE)])])).
Proof.
  destruct (stats_scheduler_round_trip (J := json) 50 (λ _, Ok EmptyString) example_config (λ _, []) "x" 7 2
    (server_init example_config) (shown_after shown_txns)) as (req & print & srv1 & j & Hq & Hr & _ & _ & _ & _ & Hp).
  - vm_compute. reflexivity.
  - lia.
  - vm_compute. split; [discriminate|reflexivity].
  - apply (bool_decide_eq_true_1 _). vm_compute. reflexivity.
  - apply (bool_decide_eq_true_1 _). vm_compute. reflexivity.
  - exists req, print, srv1, j. split; [exact Hq|]. split; [exact Hr|]. rewrite <-shown_view. exact Hp.
Defined.

(** The transaction of the 42,949,673rd request of a machine. *)
Definition late_scheduler : scheduler RMALock.RMALockManager :=
  shown_after [make_txn (id_of example_config 42949673) SINGLE_HOME 0 (kCode []) [make_entry "a" WRITE 0 0]].

Lemma late_holder : ∃ h, active_txns_ late_scheduler !! id_of example_config 42949673 = Some h.
Proof.
  destruct (active_txns_ late_scheduler !! id_of example_config 42949673) as [h|] eqn:E; [by exists h|].
  exfalso. revert E. vm_compute. discriminate.
Qed.

Lemma stats_large_id_witness :
  ∃ text f, ProcessStatsRequest (J := json) 9 0 late_scheduler = Ok (9%Z, text) ∧
    PrintSchedulerStats 50 (Parse (J := json) text) 0 = Err f.
Proof.
  destruct late_holder as [h Hh]. apply (stats_large_id (J := json) 50 example_config 9 42949673 h late_scheduler).
  - vm_compute. split; [discriminate|reflexivity].
  - split; [discriminate|reflexivity].
  - exact Hh.
  - vm_compute. split; reflexivity.
Defined.

(** The "Copy" example of [src/examples]. *)
Definition copy_file : list (string * json) :=
  [("read_set", arr (jstr <$> ["0"; "1"])); ("write_set", arr (jstr <$> ["3"; "4"]));
   ("code", arr ((λ p, arr (jstr <$> p)) <$> [["COPY"; "0"; "3"]; ["COPY"; "1"; "4"]]))].

Lemma txn_command_witness :
  ∃ t, ExecuteTxn (J := json) 1 false (Some (Parse (Write (obj copy_file)))) [Some (writer 5)] =
         Ok ([ApiTxn t], cat [reply_text (writer 5)]) ∧
       keys t = [new_entry WRITE "3"; new_entry WRITE "4"; new_entry READ "0"; new_entry READ "1"].
Proof.
  destruct (txn_command (J := json) copy_file ["3"; "4"] ["0"; "1"] [["COPY"; "0"; "3"]; ["COPY"; "1"; "4"]] [writer 5])
    as (t & He & Hk & _).
  - apply (bool_decide_eq_true_1 _). vm_compute. reflexivity.
  - unfold copy_file. find_member.
  - unfold copy_file. find_member.
  - unfold copy_file. find_member.
  - apply (bool_decide_eq_true_1 _). vm_compute. reflexivity.
  - discriminate.
  - repeat constructor.
  - repeat constructor.
  - repeat constructor.
  - exists t. split; [exact He|exact Hk].
Defined.

(** A transaction that has all its locks counts as one that waits for locks. *)
Lemma waiting_counts_holders :
  sent (shown_after (take 1 shown_txns)) = [101%Z] ∧
  view_waiting (lm_view (lock_manager_ (shown_after (take 1 shown_txns)))) = 1%Z.
Proof. by vm_compute. Qed.
