(* ===== verification/Forwarder.v ===== *)
(** * The forwarder

    [Forwarder] of [module/forwarder.cpp] finds the master of every key of a transaction, in
    its own storage or by asking the forwarders of the other partitions, and sends the
    transaction on by its type. The storage, which changes over time, is an argument of the
    handlers that read it. *)
From S2P Require Import Prelude Types Config ProtoUtils Stats Sequencer.

Record LookupMasterRequest := { lr_txn_ids : list TxnId; lr_keys : list Key }.

Definition empty_lookup : LookupMasterRequest := {| lr_txn_ids := []; lr_keys := [] |}.

Record LookupMasterResponse := { rs_txn_ids : list TxnId; rs_results : list (Key * MasterMetadata) }.

Inductive fwd_msg :=
  | LocalSequencer (t : Transaction)
  | Sequencers (destinations : list MachineId) (t : Transaction)
  | Orderer (t : Transaction)
  | Lookup (destination : MachineId) (r : LookupMasterRequest)
  | LookupReply (destination : MachineId) (r : LookupMasterResponse).

Record forwarder := {
  pending_transactions_ : gmap TxnId Transaction;
  partitioned_lookup_request_ : list LookupMasterRequest;
  fwd_batch_size_ : Z;
  fwd_stats : batch_stats;
  fwd_flushes : nat;
  fwd_out : list fwd_msg
}.

Definition is_invalid_argument (f : fault) : bool :=
  match f with Exn w => String.prefix "std::invalid_argument" w | _ => false end.

Section forwarder.
  Context (c : Configuration).
  Context (compute_partition : Key → result Z).
  (** [metadata_initializer_->Compute] *)
  Context (initial_metadata : Key → Metadata).
  Context (recorded : TransactionEvent → list TransactionEventInfo).
  (** the draw of [ChooseRandomPartition] *)
  Context (choose : list Z → Z).

Definition part (k : Key) : Z := match compute_partition k with Ok p => p | Err _ => 0 end.

Definition fwd_record (ev : TransactionEvent) (t : Transaction) : Transaction :=
  set_internal (λ i, set_events (events i ++ recorded ev) i) t.

Definition fwd_init : forwarder :=
  {| pending_transactions_ := ∅; partitioned_lookup_request_ := replicate (Z.to_nat (num_partitions c)) empty_lookup;
     fwd_batch_size_ := 0; fwd_stats := no_stats; fwd_flushes := 0; fwd_out := [] |}.

Definition fwd_emit (ms : list fwd_msg) (s : forwarder) : forwarder :=
  {| pending_transactions_ := pending_transactions_ s; partitioned_lookup_request_ := partitioned_lookup_request_ s;
     fwd_batch_size_ := fwd_batch_size_ s; fwd_stats := fwd_stats s; fwd_flushes := fwd_flushes s;
     fwd_out := fwd_out s ++ ms |}.

Definition set_pending (p : gmap TxnId Transaction) (s : forwarder) : forwarder :=
  {| pending_transactions_ := p; partitioned_lookup_request_ := partitioned_lookup_request_ s;
     fwd_batch_size_ := fwd_batch_size_ s; fwd_stats := fwd_stats s; fwd_flushes := fwd_flushes s;
     fwd_out := fwd_out s |}.

Definition ChooseRandomPartition (t : Transaction) : result Z :=
  match involved_partitions (internal t) with
  | [] => Err (Undef "involved_partitions(idx(rg))")
  | ps => Ok (choose ps)
  end.

(** The message by which a transaction leaves. *)
Definition Forward (t : Transaction) : result (list fwd_msg) :=
  t ← PopulateInvolvedReplicas t;
  match txn_type (internal t) with
  | SINGLE_HOME =>
    match keys t with
    | [] => Err (Undef "txn->keys().begin()")
    | kv :: _ =>
      let home_replica := key_master kv in
      if decide (home_replica = local_replica c) then
        Ok [LocalSequencer (fwd_record EXIT_FORWARDER_TO_SEQUENCER t)]
      else
        partition ← ChooseRandomPartition t;
        Ok [Sequencers [MakeMachineId c home_replica partition] (fwd_record EXIT_FORWARDER_TO_SEQUENCER t)]
    end
  | MULTI_HOME_OR_LOCK_ONLY =>
    let t := fwd_record EXIT_FORWARDER_TO_MULTI_HOME_ORDERER t in
    if bypass_mh_orderer c then
      p ← ChooseRandomPartition t;
      Ok [Sequencers ((λ rep, MakeMachineId c rep p) <$> involved_replicas (internal t)) t]
    else Ok [Orderer t]
  | UNKNOWN => Ok []
  end.

Definition to_master (m : Metadata) : MasterMetadata := {| master := md_master m; counter := md_counter m |}.

(** The metadata this partition knows of one of its keys. *)
Definition local_metadata (look : Key → option Metadata) (k : Key) : MasterMetadata :=
  to_master (default (initial_metadata k) (look k)).

Definition add_lookup (p : nat) (ids : list TxnId) (ks : list Key) (rs : list LookupMasterRequest) :
    result (list LookupMasterRequest) :=
  match rs !! p with
  | Some r => Ok (<[p := {| lr_txn_ids := lr_txn_ids r ++ ids; lr_keys := lr_keys r ++ ks |}]> rs)
  | None => Err (Undef "partitioned_lookup_request_[partition]")
  end.

(** The loop over the keys: the keys with the metadata known here, the lookup requests, and
    whether a request is needed. *)
Definition scan_key (look : Key → option Metadata) (st : list KeyValueEntry * list LookupMasterRequest * bool)
    (kv : KeyValueEntry) : result (list KeyValueEntry * list LookupMasterRequest * bool) :=
  let '(ks, rs, need) := st in
  let p := part (key kv) in
  if decide (p = local_partition c) then
    Ok (ks ++ [set_value_entry (set_metadata (local_metadata look (key kv)) (value_entry kv)) kv], rs, need)
  else
    rs ← add_lookup (Z.to_nat p) [] [key kv] rs;
    Ok (ks ++ [kv], rs, true).

(** The first exception that the partition of a key raises. *)
Fixpoint partition_fault (ks : list KeyValueEntry) : option fault :=
  match ks with
  | [] => None
  | kv :: ks => match compute_partition (key kv) with Err f => Some f | Ok _ => partition_fault ks end
  end.

Definition ProcessForwardTxn (look : Key → option Metadata) (t : Transaction) (s : forwarder) : result forwarder :=
  let t := fwd_record ENTER_FORWARDER t in
  match partition_fault (keys t) with
  | Some f => if is_invalid_argument f then Ok s else Err f
  | None =>
    t ← PopulateInvolvedPartitions part (Z.to_nat (num_partitions c)) t;
    '(ks, rs, need) ← rfoldl (scan_key look) ([], partitioned_lookup_request_ s, false) (keys t);
    let t := set_keys ks t in
    let s := {| pending_transactions_ := pending_transactions_ s; partitioned_lookup_request_ := rs;
                fwd_batch_size_ := fwd_batch_size_ s; fwd_stats := fwd_stats s; fwd_flushes := fwd_flushes s;
                fwd_out := fwd_out s |} in
    if (need : bool) then
      rs ← rfoldl (λ rs p, if decide (p ≠ local_partition c) then add_lookup (Z.to_nat p) [txn_id t] [] rs else Ok rs)
             rs (involved_partitions (internal t));
      let size := (fwd_batch_size_ s + 1)%Z in
      Ok {| pending_transactions_ := <[txn_id t := t]> (pending_transactions_ s);
            partitioned_lookup_request_ := rs; fwd_batch_size_ := size; fwd_stats := fwd_stats s;
            fwd_flushes := fwd_flushes s + (if decide (size = 1%Z) then 1 else 0); fwd_out := fwd_out s |}
    else
      ms ← Forward (SetTransactionType t).1;
      Ok (fwd_emit ms s)
  end.

(** A request that names a transaction is sent and cleared. *)
Definition send_lookup (p : Z) (r : LookupMasterRequest) : list fwd_msg :=
  if decide (lr_txn_ids r = []) then [] else [Lookup (MakeMachineId c (local_replica c) p) r].

Definition clear_sent (r : LookupMasterRequest) : LookupMasterRequest :=
  if decide (lr_txn_ids r = []) then r else empty_lookup.

Definition SendLookupMasterRequestBatch (s : forwarder) : forwarder :=
  {| pending_transactions_ := pending_transactions_ s;
     partitioned_lookup_request_ := clear_sent <$> partitioned_lookup_request_ s;
     fwd_batch_size_ := 0; fwd_stats := count_batch (fwd_batch_size_ s) (fwd_stats s); fwd_flushes := fwd_flushes s;
     fwd_out := fwd_out s ++
       concat (zip_with send_lookup (seqZ 0 (num_partitions c)) (partitioned_lookup_request_ s)) |}.

Fixpoint lookup_results (look : Key → option Metadata) (ks : list Key) : result (list (Key * MasterMetadata)) :=
  match ks with
  | [] => Ok []
  | k :: ks =>
    p ← compute_partition k;
    rest ← lookup_results look ks;
    Ok (if decide (p = local_partition c) then (k, local_metadata look k) :: rest else rest)
  end.

Definition ProcessLookUpMasterRequest (look : Key → option Metadata) (from : MachineId) (r : LookupMasterRequest)
    (s : forwarder) : result forwarder :=
  results ← lookup_results look (lr_keys r);
  Ok (fwd_emit [LookupReply from {| rs_txn_ids := lr_txn_ids r; rs_results := results |}] s).

(** [index]: the last result of a key. *)
Definition result_of (results : list (Key * MasterMetadata)) (k : Key) : option MasterMetadata :=
  snd <$> last (filter (λ x, x.1 = k) results).

Definition fill_key (results : list (Key * MasterMetadata)) (kv : KeyValueEntry) : KeyValueEntry :=
  if has_metadata (value_entry kv) then kv
  else match result_of results (key kv) with
       | Some m => set_value_entry (set_metadata m (value_entry kv)) kv
       | None => kv
       end.

Definition OnResponseTxn (results : list (Key * MasterMetadata)) (s : forwarder) (id : TxnId) : result forwarder :=
  match pending_transactions_ s !! id with
  | None => Ok s
  | Some t =>
    let '(t, ty) := SetTransactionType (set_keys (fill_key results <$> keys t) t) in
    if decide (ty ≠ UNKNOWN) then
      ms ← Forward t;
      Ok (fwd_emit ms (set_pending (delete id (pending_transactions_ s)) s))
    else Ok (set_pending (<[id := t]> (pending_transactions_ s)) s)
  end.

Definition OnInternalResponseReceived (r : LookupMasterResponse) (s : forwarder) : result forwarder :=
  rfoldl (OnResponseTxn (rs_results r)) s (rs_txn_ids r).

Definition OnStats (level : Z) (s : forwarder) : result forwarder :=
  '(st, _) ← ProcessStatsRequest level (fwd_stats s);
  Ok {| pending_transactions_ := pending_transactions_ s; partitioned_lookup_request_ := partitioned_lookup_request_ s;
        fwd_batch_size_ := fwd_batch_size_ s; fwd_stats := st; fwd_flushes := fwd_flushes s; fwd_out := fwd_out s |}.

Inductive fwd_event :=
  | FTxn (look : Key → option Metadata) (t : Transaction)
  | FLookup (look : Key → option Metadata) (from : MachineId) (r : LookupMasterRequest)
  | FReply (r : LookupMasterResponse)
  | FTimer
  | FStats (level : Z).

Definition fwd_step (s : forwarder) (e : fwd_event) : result forwarder :=
  match e with
  | FTxn look t => ProcessForwardTxn look t s
  | FLookup look from r => ProcessLookUpMasterRequest look from r s
  | FReply r => OnInternalResponseReceived r s
  | FTimer =>
    match fwd_flushes s with
    | 0 => Ok s
    | S n =>
      Ok (SendLookupMasterRequestBatch
        {| pending_transactions_ := pending_transactions_ s; partitioned_lookup_request_ := partitioned_lookup_request_ s;
           fwd_batch_size_ := fwd_batch_size_ s; fwd_stats := fwd_stats s; fwd_flushes := n; fwd_out := fwd_out s |})
    end
  | FStats level => OnStats level s
  end.

(** ** What is expected *)

Definition shape (t : Transaction) : list (Key * KeyType) := (λ kv, (key kv, key_type kv)) <$> keys t.

Definition complete (t : Transaction) : Prop := Forall (λ kv, has_metadata (value_entry kv) = true) (keys t).

(** The transaction that a message carries on its way. *)
Definition departed (m : fwd_msg) : option Transaction :=
  match m with
  | LocalSequencer t | Sequencers _ t | Orderer t => Some t
  | _ => None
  end.

(** The masters of the keys agree and the transaction does not remaster. *)
Definition homed (t : Transaction) (h : Z) : Prop := is_remaster t = false ∧ Forall (λ kv, key_master kv = h) (keys t).

(** The regions that take part: those of the keys' masters, and the new master of a remaster. *)
Definition takes_part (t : Transaction) (rep : Z) : Prop :=
  (∃ kv, kv ∈ keys t ∧ key_master kv = rep) ∨ ∃ b, program t = kRemaster rep b.

(** The transaction has no single home, and its involved replicas are the regions that take part, each once. *)
Definition multi_homed (t : Transaction) : Prop :=
  (∀ h, ¬ homed t h) ∧ NoDup (involved_replicas (internal t)) ∧ ∀ rep, rep ∈ involved_replicas (internal t) ↔ takes_part t rep.

(** A transaction leaves with the master of all of its keys: if it has a single home, for a
    sequencer of that region, on this machine when it is the local one; and else for the
    global order, or, if that is bypassed, for one sequencer of every region that takes part. *)
Definition routed (m : fwd_msg) : Prop :=
  match m with
  | LocalSequencer t => complete t ∧ homed t (local_replica c)
  | Sequencers ds t =>
    complete t ∧ ∃ p, p ∈ involved_partitions (internal t) ∧
      ((∃ h, h ≠ local_replica c ∧ homed t h ∧ ds = [MakeMachineId c h p]) ∨
       (bypass_mh_orderer c = true ∧ multi_homed t ∧ ds = (λ rep, MakeMachineId c rep p) <$> involved_replicas (internal t)))
  | Orderer t => complete t ∧ bypass_mh_orderer c = false ∧ multi_homed t
  | _ => True
  end.

Definition departures (id : TxnId) (ms : list fwd_msg) : list Transaction :=
  filter (λ t, txn_id t = id) (omap departed ms).

Definition accepted (e : fwd_event) : list Transaction :=
  match e with
  | FTxn _ t => match partition_fault (keys t) with Some _ => [] | None => [t] end
  | _ => []
  end.

Definition event_ok (e : fwd_event) : Prop :=
  match e with
  | FTxn _ t =>
    keys t ≠ [] ∧ involved_partitions (internal t) = [] ∧ involved_replicas (internal t) = [] ∧
    match partition_fault (keys t) with
    | Some f => is_invalid_argument f = true
    | None => Forall (λ kv, 0 ≤ part (key kv) < num_partitions c)%Z (keys t)
    end
  | FLookup _ _ r => Forall (λ k, ∃ p, compute_partition k = Ok p) (lr_keys r)
  | _ => True
  end.

(** The forwarder of the key's partition is or will be asked for the key. *)
Definition asked (s : forwarder) (id : TxnId) (k : Key) : Prop :=
  (∃ r, partitioned_lookup_request_ s !! Z.to_nat (part k) = Some r ∧ id ∈ lr_txn_ids r ∧ k ∈ lr_keys r) ∨
  (∃ r, Lookup (MakeMachineId c (local_replica c) (part k)) r ∈ fwd_out s ∧ id ∈ lr_txn_ids r ∧ k ∈ lr_keys r).

(** The entry of a key on its way, from the one the client sent: a key of this partition has the
    metadata of the local storage when the transaction came; another one keeps what it came
    with, or got the metadata that a reply has for it. *)
Definition entry_from (es : list fwd_event) (look : Key → option Metadata) (kv0 kv : KeyValueEntry) : Prop :=
  key kv = key kv0 ∧ key_type kv = key_type kv0 ∧
  ((part (key kv0) = local_partition c ∧ opt_metadata (value_entry kv) = Some (local_metadata look (key kv0))) ∨
   (part (key kv0) ≠ local_partition c ∧ opt_metadata (value_entry kv) = opt_metadata (value_entry kv0)) ∨
   (part (key kv0) ≠ local_partition c ∧ opt_metadata (value_entry kv0) = None ∧
    ∃ r m, FReply r ∈ es ∧ result_of (rs_results r) (key kv0) = Some m ∧ opt_metadata (value_entry kv) = Some m)).

Definition accounted (es : list fwd_event) (t' : Transaction) : Prop :=
  ∃ look t, FTxn look t ∈ es ∧ txn_id t' = txn_id t ∧ Forall2 (entry_from es look) (keys t) (keys t').

Definition masters_told (es : list fwd_event) (s : forwarder) : Prop :=
  (∀ id t, pending_transactions_ s !! id = Some t → accounted es t) ∧ (∀ t, t ∈ omap departed (fwd_out s) → accounted es t).

Record fwd_inv (s : forwarder) (hist : list Transaction) : Prop := {
  fi_len : length (partitioned_lookup_request_ s) = Z.to_nat (num_partitions c);
  fi_pending id t : pending_transactions_ s !! id = Some t →
    txn_id t = id ∧ keys t ≠ [] ∧ involved_partitions (internal t) ≠ [] ∧ involved_replicas (internal t) = [];
  fi_routed m : m ∈ fwd_out s → routed m;
  fi_once t : t ∈ hist →
    (∃ t', pending_transactions_ s !! txn_id t = Some t' ∧ shape t' = shape t ∧ departures (txn_id t) (fwd_out s) = []) ∨
    (pending_transactions_ s !! txn_id t = None ∧ ∃ t', departures (txn_id t) (fwd_out s) = [t'] ∧ shape t' = shape t);
  fi_fresh id : id ∉ txn_id <$> hist → pending_transactions_ s !! id = None ∧ departures id (fwd_out s) = [];
  fi_asked id t kv : pending_transactions_ s !! id = Some t → kv ∈ keys t → has_metadata (value_entry kv) = false →
    (0 ≤ part (key kv) < num_partitions c)%Z ∧ asked s id (key kv);
  fi_size : (0 ≤ fwd_batch_size_ s)%Z;
  fi_flush : fwd_flushes s = if decide (fwd_batch_size_ s = 0%Z) then 0 else 1;
  fi_empty : fwd_batch_size_ s = 0%Z → Forall (λ r, lr_txn_ids r = []) (partitioned_lookup_request_ s);
  fi_hist : (Z.of_nat (length (stat_batch_sizes_ (fwd_stats s))) + fwd_batch_size_ s ≤ Z.of_nat (length hist))%Z
}.

(** ** Preparing a transaction *)

Lemma populate_partitions_ok np t :
  Forall (λ kv, 0 ≤ part (key kv) < Z.of_nat np)%Z (keys t) →
  ∃ t', PopulateInvolvedPartitions part np t = Ok t' ∧ keys t' = keys t ∧ txn_id t' = txn_id t ∧
    program t' = program t ∧ involved_replicas (internal t') = involved_replicas (internal t) ∧
    (∀ kv, kv ∈ keys t → part (key kv) ∈ involved_partitions (internal t')) ∧
    (∀ p, p ∈ involved_partitions (internal t') → p ∈ involved_partitions (internal t) ∨ (0 ≤ p < Z.of_nat np)%Z).
Proof.
  intros Hall. unfold PopulateInvolvedPartitions.
  set (mark := λ (acc : list bool * list bool) (kv : KeyValueEntry), _).
  assert (Hgo : ∀ ks acc, Forall (λ kv, 0 ≤ part (key kv) < Z.of_nat np)%Z ks → length acc.1 = np →
    ∃ acc', rfoldl mark acc ks = Ok acc' ∧ length acc'.1 = np ∧
      (∀ p, acc.1 !! p = Some true → acc'.1 !! p = Some true) ∧
      ∀ kv, kv ∈ ks → acc'.1 !! Z.to_nat (part (key kv)) = Some true).
  { induction ks as [|kv ks IH]; intros [inv act] Hks Hlen; simpl in Hlen.
    { exists (inv, act). split_and!; try done. by intros kv ?%not_elem_of_nil. }
    apply Forall_cons in Hks as [Hkv Hks]. cbn [rfoldl]. unfold mark at 2. rewrite decide_True by lia. cbn [mbind result_bind].
    set (acc1 := (<[Z.to_nat (part (key kv)) := true]> inv, _)).
    destruct (IH acc1 Hks) as (acc' & -> & Hl & Hm & Hk); [simpl; by rewrite length_insert|].
    exists acc'. split_and!; try done.
    - intros p Hp. apply Hm. simpl in *. destruct (decide (Z.to_nat (part (key kv)) = p)) as [<-|].
      + apply list_lookup_insert_eq. lia.
      + by rewrite list_lookup_insert_ne.
    - intros kv' [->|Hin]%elem_of_cons; [|by apply Hk]. apply Hm. simpl. apply list_lookup_insert_eq. lia. }
  destruct (Hgo (keys t) (replicate np false, replicate np false)) as ([inv act] & -> & Hl & _ & Hk); [done|simpl; by rewrite length_replicate|].
  cbn [mbind result_bind]. eexists. split; [done|]. simpl in *. split_and!; try done.
  - intros kv Hkv. apply elem_of_app. right. apply elem_of_true_indices. exists (Z.to_nat (part (key kv))).
    split; [by apply Hk|]. rewrite Forall_forall in Hall. specialize (Hall kv Hkv). simpl in *. lia.
  - intros p [Hp|Hp]%elem_of_app; [by left|]. right. apply elem_of_true_indices in Hp as (j & Hj & ->).
    apply lookup_lt_Some in Hj. lia.
Qed.

Lemma add_lookup_ok p ids ks rs :
  p < length rs →
  ∃ rs', add_lookup p ids ks rs = Ok rs' ∧ length rs' = length rs ∧
    ∀ q r, rs !! q = Some r → ∃ r', rs' !! q = Some r' ∧
      lr_txn_ids r' = lr_txn_ids r ++ (if decide (q = p) then ids else []) ∧
      lr_keys r' = lr_keys r ++ (if decide (q = p) then ks else []).
Proof.
  intros Hp. unfold add_lookup. destruct (lookup_lt_is_Some_2 rs p Hp) as [r Hr]. rewrite Hr.
  eexists. split; [done|]. rewrite length_insert. split; [done|]. intros q r0 Hq.
  destruct (decide (q = p)) as [->|Hne].
  - rewrite list_lookup_insert_eq by done. rewrite Hr in Hq. injection Hq as ->. by eexists.
  - rewrite list_lookup_insert_ne by done. exists r0. by rewrite !app_nil_r.
Qed.

(** A key after the scan. *)
Definition scanned (look : Key → option Metadata) (kv : KeyValueEntry) : KeyValueEntry :=
  if decide (part (key kv) = local_partition c)
  then set_value_entry (set_metadata (local_metadata look (key kv)) (value_entry kv)) kv else kv.

Definition grown (rs rs' : list LookupMasterRequest) : Prop :=
  length rs' = length rs ∧
  ∀ q r, rs !! q = Some r → ∃ r', rs' !! q = Some r' ∧
    (∀ i, i ∈ lr_txn_ids r → i ∈ lr_txn_ids r') ∧ (∀ k, k ∈ lr_keys r → k ∈ lr_keys r').

Lemma grown_refl rs : grown rs rs.
Proof. split; [done|]. intros q r Hr. by exists r. Qed.

Lemma grown_trans rs1 rs2 rs3 : grown rs1 rs2 → grown rs2 rs3 → grown rs1 rs3.
Proof.
  intros [L1 H1] [L2 H2]. split; [congruence|]. intros q r Hr. destruct (H1 q r Hr) as (r2 & Hr2 & ? & ?).
  destruct (H2 q r2 Hr2) as (r3 & Hr3 & ? & ?). exists r3. auto.
Qed.

Lemma scan_keys_ok look ks ks0 rs need :
  Forall (λ kv, 0 ≤ part (key kv) < Z.of_nat (length rs))%Z ks →
  ∃ rs', rfoldl (scan_key look) (ks0, rs, need) ks =
      Ok (ks0 ++ (scanned look <$> ks), rs', need || existsb (λ kv, bool_decide (part (key kv) ≠ local_partition c)) ks) ∧
    grown rs rs' ∧ (lr_txn_ids <$> rs') = (lr_txn_ids <$> rs) ∧
    ∀ kv, kv ∈ ks → part (key kv) ≠ local_partition c →
      ∃ r, rs' !! Z.to_nat (part (key kv)) = Some r ∧ key kv ∈ lr_keys r.
Proof.
  revert ks0 rs need. induction ks as [|kv ks IH]; intros ks0 rs need Hks.
  { exists rs. rewrite app_nil_r, orb_false_r. split_and!; try done; [apply grown_refl|]. by intros ? ?%not_elem_of_nil. }
  apply Forall_cons in Hks as [Hkv Hks]. cbn [rfoldl]. unfold scan_key at 2. cbn [existsb].
  rewrite fmap_cons. unfold scanned at 1. destruct (decide (part (key kv) = local_partition c)) as [Hl|Hl].
  - cbn [mbind result_bind]. rewrite bool_decide_eq_false_2 by auto. cbn [orb].
    destruct (IH (ks0 ++ [set_value_entry (set_metadata (local_metadata look (key kv)) (value_entry kv)) kv]) rs need Hks)
      as (rs' & -> & Hg & Hi & Hk).
    exists rs'. rewrite <-app_assoc. split_and!; try done; [apply Hg..|].
    intros kv' [->|Hin]%elem_of_cons Hne; [done|by apply Hk].
  - destruct (add_lookup_ok (Z.to_nat (part (key kv))) [] [key kv] rs) as (rs1 & -> & Hl1 & H1); [lia|].
    cbn [mbind result_bind]. rewrite bool_decide_eq_true_2 by done. cbn [orb].
    assert (Hg1 : grown rs rs1).
    { split; [done|]. intros q r Hr. destruct (H1 q r Hr) as (r' & Hr' & Hi & Hk). exists r'.
      rewrite Hi, Hk. split_and!; [done|set_solver|set_solver]. }
    assert (Hi1 : (lr_txn_ids <$> rs1) = (lr_txn_ids <$> rs)).
    { apply list_eq. intros q. rewrite !list_lookup_fmap. destruct (rs !! q) as [r|] eqn:Hr.
      - destruct (H1 q r Hr) as (r' & -> & Hi & _). simpl. rewrite Hi. case_decide; by rewrite app_nil_r.
      - apply lookup_ge_None in Hr. by rewrite (lookup_ge_None_2 rs1) by congruence. }
    destruct (IH (ks0 ++ [kv]) rs1 true) as (rs' & -> & Hg & Hi & Hk); [by rewrite Hl1|].
    exists rs'. rewrite <-app_assoc, orb_true_r. split_and!; [done|by eapply grown_trans|congruence|].
    intros kv' [->|Hin]%elem_of_cons Hne; [|by apply Hk].
    destruct (lookup_lt_is_Some_2 rs (Z.to_nat (part (key kv)))) as [r Hr]; [lia|].
    destruct (H1 _ r Hr) as (r1 & Hr1 & _ & Hk1). rewrite decide_True in Hk1 by done.
    destruct (proj2 Hg _ r1 Hr1) as (r2 & Hr2 & _ & Hk2). exists r2. split; [done|]. apply Hk2. rewrite Hk1. set_solver.
Qed.

Lemma name_ids_ok id ps rs :
  Forall (λ p, 0 ≤ p < Z.of_nat (length rs))%Z ps →
  ∃ rs', rfoldl (λ rs p, if decide (p ≠ local_partition c) then add_lookup (Z.to_nat p) [id] [] rs else Ok rs) rs ps = Ok rs' ∧
    grown rs rs' ∧
    ∀ p, p ∈ ps → p ≠ local_partition c → ∃ r, rs' !! Z.to_nat p = Some r ∧ id ∈ lr_txn_ids r.
Proof.
  revert rs. induction ps as [|p ps IH]; intros rs Hps.
  { exists rs. split; [done|]. split; [apply grown_refl|]. by intros ? ?%not_elem_of_nil. }
  apply Forall_cons in Hps as [Hp Hps]. cbn [rfoldl]. destruct (decide (p ≠ local_partition c)) as [Hne|Heq].
  - destruct (add_lookup_ok (Z.to_nat p) [id] [] rs) as (rs1 & -> & Hl1 & H1); [lia|]. cbn [mbind result_bind].
    destruct (IH rs1) as (rs' & -> & Hg & Hi); [by rewrite Hl1|]. exists rs'. split; [done|].
    assert (Hg1 : grown rs rs1).
    { split; [done|]. intros q r Hr. destruct (H1 q r Hr) as (r' & Hr' & Hi' & Hk'). exists r'.
      rewrite Hi', Hk'. split_and!; [done|set_solver|set_solver]. }
    split; [by eapply grown_trans|]. intros q [->|Hin]%elem_of_cons Hq; [|by apply Hi].
    destruct (lookup_lt_is_Some_2 rs (Z.to_nat p)) as [r Hr]; [lia|].
    destruct (H1 _ r Hr) as (r1 & Hr1 & Hi1 & _). rewrite decide_True in Hi1 by done.
    destruct (proj2 Hg _ r1 Hr1) as (r2 & Hr2 & Hi2 & _). exists r2. split; [done|]. apply Hi2. rewrite Hi1. set_solver.
  - cbn [mbind result_bind]. destruct (IH rs Hps) as (rs' & -> & Hg & Hi). exists rs'. split; [done|]. split; [done|].
    intros q [->|Hin]%elem_of_cons Hq; [done|by apply Hi].
Qed.

(** ** Departing *)

Lemma type_keeps t :
  txn_id (SetTransactionType t).1 = txn_id t ∧ keys (SetTransactionType t).1 = keys t ∧
  program (SetTransactionType t).1 = program t ∧
  involved_partitions (internal (SetTransactionType t).1) = involved_partitions (internal t) ∧
  involved_replicas (internal (SetTransactionType t).1) = involved_replicas (internal t) ∧
  txn_type (internal (SetTransactionType t).1) = (SetTransactionType t).2.
Proof. unfold SetTransactionType. repeat case_match; simpl in *; simplify_eq/=; done. Qed.

Lemma complete_cases t :
  ((SetTransactionType t).2 ≠ UNKNOWN ↔ keys t ≠ [] ∧ complete t) ∧
  ((SetTransactionType t).2 = SINGLE_HOME → ∃ h, homed t h) ∧
  ((SetTransactionType t).2 = MULTI_HOME_OR_LOCK_ONLY → ∀ h, ¬ homed t h).
Proof.
  pose proof (set_transaction_type_aux t) as Hs. destruct (SetTransactionType t) as [t1 ty]. destruct Hs as (_ & _ & H1 & H2 & _).
  simpl. split_and!.
  - rewrite H1. unfold complete. split.
    + intros Hn. split; [naive_solver|]. apply Forall_forall. intros kv Hkv. apply not_false_is_true. intros Hf.
      apply Hn. right. apply Exists_exists. by exists kv.
    + intros [Hk Hc] [?|(kv & Hkv & Hf)%Exists_exists]; [done|]. rewrite Forall_forall in Hc. rewrite (Hc kv Hkv) in Hf. done.
  - intros (_ & _ & Hr & h & Hh)%H2. by exists h.
  - intros -> h [Hr Hh]. assert (¬ (keys t = [] ∨ Exists (λ kv, has_metadata (value_entry kv) = false) (keys t))) as Hn
      by (by rewrite <-H1).
    assert (MULTI_HOME_OR_LOCK_ONLY = SINGLE_HOME); [|done]. apply H2. split_and!; [tauto| |done|by exists h].
    apply Forall_forall. intros kv Hkv. apply not_false_is_true. intros Hf. apply Hn. right. apply Exists_exists. by exists kv.
Qed.

Lemma complete_forallb t : complete t → forallb (λ kv, has_metadata (value_entry kv)) (keys t) = true.
Proof. unfold complete. rewrite forallb_forall, Forall_forall. intros H x Hx%list_elem_of_In. by apply H. Qed.

(** What [PopulateInvolvedReplicas] adds. *)
Lemma regions_multi_homed t ir :
  (∀ h, ¬ homed t h) →
  ir = sort_unique ((key_master <$> keys t) ++ match program t with kRemaster m _ => [m] | _ => [] end) →
  involved_replicas (internal t) = ir → multi_homed t.
Proof.
  intros Hn -> Hir. split; [done|]. rewrite Hir. split; [apply sort_unique_NoDup|]. intros rep.
  rewrite elem_of_sort_unique, elem_of_app, list_elem_of_fmap. unfold takes_part. destruct (program t); set_solver.
Qed.

Lemma Forward_ok t :
  (∀ l, l ≠ [] → choose l ∈ l) → (SetTransactionType t).2 ≠ UNKNOWN → involved_partitions (internal t) ≠ [] →
  involved_replicas (internal t) = [] →
  ∃ m t', Forward (SetTransactionType t).1 = Ok [m] ∧ departed m = Some t' ∧ txn_id t' = txn_id t ∧
    shape t' = shape t ∧ routed m.
Proof.
  intros Hch Hty Hp Hnr. destruct (complete_cases t) as ([Hc _] & Hsh & Hmh). destruct (Hc Hty) as [Hk Hcm].
  destruct (type_keeps t) as (Hid & Hks & Hpr & Hip & Hir & Htt). rewrite Hnr in Hir.
  assert (Hho : ∀ h, homed (SetTransactionType t).1 h ↔ homed t h) by (intros h; unfold homed, is_remaster; by rewrite Hpr, Hks).
  set (t1 := (SetTransactionType t).1) in *. set (ty := (SetTransactionType t).2) in *. clearbody t1 ty.
  assert (Hcm1 : complete t1) by (unfold complete; by rewrite Hks).
  assert (Hshape : shape t1 = shape t) by (unfold shape; by rewrite Hks).
  unfold Forward, PopulateInvolvedReplicas. rewrite Htt. unfold ChooseRandomPartition.
  destruct ty; [done| |].
  - destruct (keys t1) as [|kv ks] eqn:Ek; [congruence|]. rewrite <-Ek in *.
    assert (Hm : has_metadata (value_entry kv) = true).
    { unfold complete in Hcm1. rewrite Ek in Hcm1. by apply Forall_cons in Hcm1 as [? _]. }
    rewrite Hm. cbn [mbind result_bind]. simpl. rewrite Htt, Ek. destruct (Hsh eq_refl) as [h Hh%Hho].
    assert (Hkh : key_master kv = h) by (destruct Hh as [_ Hh]; rewrite Ek in Hh; by apply Forall_cons in Hh as [? _]).
    case_decide as Hl.
    + eexists _, _. do 4 (split; [done|]). split; [done|]. rewrite <-Hl, Hkh. exact Hh.
    + rewrite Hip. destruct (involved_partitions (internal t)) as [|p0 ps] eqn:Ep; [done|]. cbn [mbind result_bind].
      eexists _, _. do 4 (split; [done|]). split; [done|]. exists (choose (p0 :: ps)). simpl. rewrite Hip.
      split; [by apply Hch|]. left. exists h. rewrite Hkh in *. split; [done|]. split; [exact Hh|done].
  - rewrite complete_forallb by done. cbn [mbind result_bind]. simpl. rewrite Htt, Hir. cbn [app].
    assert (Hmulti : ∀ t2, keys t2 = keys t1 → program t2 = program t1 → involved_replicas (internal t2) =
        sort_unique ((key_master <$> keys t1) ++ match program t1 with kRemaster m _ => [m] | _ => [] end) → multi_homed t2).
    { intros t2 Hk2 Hp2 Hi2. eapply regions_multi_homed; [|done|by rewrite Hk2, Hp2].
      intros h H2. apply (Hmh eq_refl h), Hho. unfold homed, is_remaster in *. by rewrite <-Hp2, <-Hk2. }
    destruct (bypass_mh_orderer c) eqn:Hby.
    + rewrite Hip. destruct (involved_partitions (internal t)) as [|p0 ps] eqn:Ep; [done|]. cbn [mbind result_bind].
      eexists _, _. do 4 (split; [done|]). split; [done|]. exists (choose (p0 :: ps)). simpl. rewrite Hip.
      split; [by apply Hch|]. right. split; [done|]. split; [by apply Hmulti; simpl; rewrite ?Hir|by rewrite Hir].
    + eexists _, _. do 4 (split; [done|]). split; [done|]. split; [done|]. by apply Hmulti; simpl; rewrite ?Hir.
Qed.

Lemma departures_snoc id ms m t : departed m = Some t →
  departures id (ms ++ [m]) = departures id ms ++ (if decide (txn_id t = id) then [t] else []).
Proof. intros Hm. unfold departures. rewrite omap_app, filter_app, omap_cons, Hm. rewrite filter_cons. by case_decide. Qed.

Lemma departures_none id ms ms' : omap departed ms' = [] → departures id (ms ++ ms') = departures id ms.
Proof. intros Hm. unfold departures. by rewrite omap_app, Hm, app_nil_r. Qed.

(** The transaction [id] leaves, from among those that wait. *)
Lemma depart_inv s hist id t m t' :
  fwd_inv s hist → pending_transactions_ s !! id = Some t → departed m = Some t' → txn_id t' = id → shape t' = shape t →
  routed m → fwd_inv (fwd_emit [m] (set_pending (delete id (pending_transactions_ s)) s)) hist.
Proof.
  intros [H1 H2 H3 H4 H5 H6 H7 H8 H9 H10] Hp Hm Hid Hsh Hro. split; simpl; try done.
  - intros i x. rewrite lookup_delete_Some. intros [_ Hx]. by apply H2.
  - intros x [Hx|Hx]%elem_of_app; [by apply H3|]. apply list_elem_of_singleton in Hx as ->. done.
  - intros t0 Ht0. rewrite (departures_snoc _ _ _ t') by done. destruct (decide (txn_id t0 = id)) as [E|E].
    + right. rewrite E in *. rewrite lookup_delete_eq. split; [done|]. rewrite decide_True by done. exists t'.
      destruct (H4 t0 Ht0) as [(t2 & Ht2 & Hs2 & Hd2)|[Hn _]]; rewrite E in *; [|congruence].
      rewrite Hd2. split; [done|]. congruence.
    + rewrite decide_False by congruence. rewrite app_nil_r, lookup_delete_ne by done. by apply H4.
  - intros i Hi. destruct (H5 i Hi) as [Hn Hd]. assert (i ≠ id) by (intros ->; congruence).
    rewrite lookup_delete_ne by done. split; [done|]. rewrite (departures_snoc _ _ _ t') by done.
    rewrite decide_False by congruence. by rewrite app_nil_r.
  - intros i x kv. rewrite lookup_delete_Some. intros [_ Hx] Hkv Hmd. destruct (H6 i x kv Hx Hkv Hmd) as [Hr Ha].
    split; [done|]. destruct Ha as [Ha|(r & Hr' & Ha)]; [by left|]. right. exists r. split; [|done]. simpl. set_solver.
Qed.

Lemma fill_key_keeps results kv :
  key (fill_key results kv) = key kv ∧ key_type (fill_key results kv) = key_type kv ∧
  (has_metadata (value_entry (fill_key results kv)) = false → has_metadata (value_entry kv) = false).
Proof. unfold fill_key. destruct (has_metadata (value_entry kv)) eqn:E; [naive_solver|]. by destruct (result_of results (key kv)). Qed.

Lemma OnResponseTxn_ok results s id hist :
  (∀ l, l ≠ [] → choose l ∈ l) → fwd_inv s hist →
  ∃ s', OnResponseTxn results s id = Ok s' ∧ fwd_inv s' hist.
Proof.
  intros Hch Hinv. unfold OnResponseTxn. destruct (pending_transactions_ s !! id) as [t|] eqn:Hp; [|by exists s].
  destruct (fi_pending _ _ Hinv id t Hp) as (Hid & Hk & Hip & Hir). set (tf := set_keys (fill_key results <$> keys t) t).
  assert (Hsf : shape tf = shape t).
  { unfold shape, tf. simpl. rewrite <-list_fmap_compose. apply list_fmap_ext. intros i kv _. simpl.
    destruct (fill_key_keeps results kv) as (-> & -> & _). done. }
  destruct (type_keeps tf) as (Hid1 & Hk1 & Hpr1 & Hip1 & Hir1 & Hty1). pose proof (Forward_ok tf Hch) as Hfwd.
  destruct (SetTransactionType tf) as [t1 ty] eqn:Est. simpl in *. destruct (decide (ty ≠ UNKNOWN)) as [Hty|Hty].
  - destruct (Hfwd Hty Hip Hir) as (m & t' & -> & Hm & Hidm & Hsm & Hro). cbn [mbind result_bind]. eexists. split; [done|].
    eapply depart_inv; [done|done|exact Hm|by rewrite Hidm|by rewrite Hsm|done].
  - eexists. split; [done|]. destruct Hinv as [H1 H2 H3 H4 H5 H6 H7 H8 H9 H10]. split; simpl; try done.
    + intros i x. rewrite lookup_insert. destruct (decide (id = i)) as [E|E]; [|apply H2]. intros [= <-]. subst i.
      rewrite Hid1, Hk1, Hip1, Hir1. split; [done|]. split; [|done]. simpl. by destruct (keys t).
    + intros t0 Ht0. destruct (decide (txn_id t0 = id)) as [E|E].
      * left. rewrite E. rewrite lookup_insert_eq. exists t1. split; [done|].
        destruct (H4 t0 Ht0) as [(t2 & Ht2 & Hs2 & Hd2)|[Hn _]]; rewrite E in *; [|congruence].
        split; [|done]. assert (t2 = t) as -> by congruence. rewrite <-Hs2, <-Hsf. unfold shape. by rewrite Hk1.
      * rewrite lookup_insert_ne by done. by apply H4.
    + intros i Hi. destruct (H5 i Hi) as [Hn Hd]. assert (i ≠ id) by (intros ->; congruence). by rewrite lookup_insert_ne.
    + intros i x kv. rewrite lookup_insert. destruct (decide (id = i)) as [E|E]; [|apply H6]. intros [= <-] Hkv Hmd. subst i. rewrite Hk1 in Hkv.
      simpl in Hkv. apply list_elem_of_fmap in Hkv as (kv0 & -> & Hkv0). destruct (fill_key_keeps results kv0) as (-> & _ & Hm0).
      apply (H6 id t kv0 Hp Hkv0). by apply Hm0.
Qed.

Lemma OnResponse_ok results ids s hist :
  (∀ l, l ≠ [] → choose l ∈ l) → fwd_inv s hist →
  ∃ s', rfoldl (OnResponseTxn results) s ids = Ok s' ∧ fwd_inv s' hist.
Proof.
  intros Hch. revert s. induction ids as [|id ids IH]; intros s Hinv; [by exists s|]. cbn [rfoldl].
  destruct (OnResponseTxn_ok results s id hist Hch Hinv) as (s1 & -> & Hinv1). cbn [mbind result_bind]. by apply IH.
Qed.

(** ** The handlers keep the invariant *)

Lemma asked_grown s s' id k :
  grown (partitioned_lookup_request_ s) (partitioned_lookup_request_ s') →
  (∀ m, m ∈ fwd_out s → m ∈ fwd_out s') → asked s id k → asked s' id k.
Proof.
  intros [_ Hg] Ho [(r & Hr & Hi & Hk)|(r & Hr & Hi & Hk)].
  - left. destruct (Hg _ r Hr) as (r' & Hr' & Hi' & Hk'). exists r'. auto.
  - right. exists r. auto.
Qed.

Lemma Forall_ids_nil (rs rs' : list LookupMasterRequest) :
  (lr_txn_ids <$> rs') = (lr_txn_ids <$> rs) → Forall (λ r, lr_txn_ids r = []) rs → Forall (λ r, lr_txn_ids r = []) rs'.
Proof.
  intros E H. assert (H' : Forall (λ l, l = []) (lr_txn_ids <$> rs')) by (rewrite E; by apply Forall_fmap).
  by apply Forall_fmap in H'.
Qed.

(** A transaction enters and leaves at once. *)
Lemma enter_depart s hist t rs m t' :
  fwd_inv s hist → txn_id t ∉ txn_id <$> hist → grown (partitioned_lookup_request_ s) rs →
  (lr_txn_ids <$> rs) = (lr_txn_ids <$> partitioned_lookup_request_ s) →
  departed m = Some t' → txn_id t' = txn_id t → shape t' = shape t → routed m →
  fwd_inv {| pending_transactions_ := pending_transactions_ s; partitioned_lookup_request_ := rs;
             fwd_batch_size_ := fwd_batch_size_ s; fwd_stats := fwd_stats s; fwd_flushes := fwd_flushes s;
             fwd_out := fwd_out s ++ [m] |} (hist ++ [t]).
Proof.
  intros [H1 H2 H3 H4 H5 H6 H7 H8 H9 H10] Hf Hg Hids Hm Hid Hsh Hro. destruct (H5 _ Hf) as [Hn Hd].
  split; simpl; try done.
  - by rewrite (proj1 Hg).
  - intros x [Hx|Hx]%elem_of_app; [by apply H3|]. apply list_elem_of_singleton in Hx as ->. done.
  - intros t0 [Ht0|Ht0]%elem_of_app.
    + rewrite (departures_snoc _ _ _ t') by done. rewrite decide_False; [|intros E; apply Hf; rewrite <-Hid, E; by apply list_elem_of_fmap_2].
      rewrite app_nil_r. by apply H4.
    + apply list_elem_of_singleton in Ht0 as ->. right. split; [done|]. exists t'.
      rewrite (departures_snoc _ _ _ t') by done. rewrite decide_True by done. by rewrite Hd.
  - intros i. rewrite fmap_app, not_elem_of_app. intros [Hi Hi2]. destruct (H5 i Hi) as [? ?]. split; [done|].
    rewrite (departures_snoc _ _ _ t') by done. rewrite decide_False; [by rewrite app_nil_r|]. simpl in Hi2. set_solver.
  - intros i x kv Hx Hkv Hmd. destruct (H6 i x kv Hx Hkv Hmd) as [? Ha]. split; [done|].
    eapply asked_grown; [| |exact Ha]; [done|]. simpl. set_solver.
  - intros Hz. eapply Forall_ids_nil; [exact Hids|]. by apply H9.
  - rewrite length_app. simpl. lia.
Qed.

(** A transaction enters and waits. *)
Lemma enter_wait s hist t t' rs :
  fwd_inv s hist → txn_id t ∉ txn_id <$> hist → grown (partitioned_lookup_request_ s) rs →
  txn_id t' = txn_id t → shape t' = shape t → keys t' ≠ [] → involved_partitions (internal t') ≠ [] → involved_replicas (internal t') = [] →
  (∀ kv, kv ∈ keys t' → has_metadata (value_entry kv) = false → (0 ≤ part (key kv) < num_partitions c)%Z ∧
     ∃ r, rs !! Z.to_nat (part (key kv)) = Some r ∧ txn_id t ∈ lr_txn_ids r ∧ key kv ∈ lr_keys r) →
  fwd_inv {| pending_transactions_ := <[txn_id t' := t']> (pending_transactions_ s); partitioned_lookup_request_ := rs;
             fwd_batch_size_ := fwd_batch_size_ s + 1; fwd_stats := fwd_stats s;
             fwd_flushes := fwd_flushes s + (if decide (fwd_batch_size_ s + 1 = 1)%Z then 1 else 0);
             fwd_out := fwd_out s |} (hist ++ [t]).
Proof.
  intros [H1 H2 H3 H4 H5 H6 H7 H8 H9 H10] Hf Hg Hid Hsh Hk Hip Hir Hask. destruct (H5 _ Hf) as [Hn Hd]. rewrite Hid.
  split; simpl; try done.
  - by rewrite (proj1 Hg).
  - intros i x. rewrite lookup_insert. destruct (decide (txn_id t = i)) as [E|E]; [|apply H2]. intros [= <-]. by subst.
  - intros t0 [Ht0|Ht0]%elem_of_app.
    + rewrite lookup_insert_ne; [by apply H4|]. intros E. apply Hf. rewrite E. by apply list_elem_of_fmap_2.
    + apply list_elem_of_singleton in Ht0 as ->. left. exists t'. by rewrite lookup_insert_eq.
  - intros i. rewrite fmap_app, not_elem_of_app. intros [Hi Hi2]. destruct (H5 i Hi) as [? ?]. split; [|done].
    rewrite lookup_insert_ne; [done|]. simpl in Hi2. set_solver.
  - intros i x kv. rewrite lookup_insert. destruct (decide (txn_id t = i)) as [E|E].
    + intros [= <-] Hkv Hmd. subst i. destruct (Hask kv Hkv Hmd) as [? Ha]. split; [done|]. by left.
    + intros Hx Hkv Hmd. destruct (H6 i x kv Hx Hkv Hmd) as [? Ha]. split; [done|]. by eapply asked_grown; [| |exact Ha].
  - lia.
  - rewrite H8. destruct (decide (fwd_batch_size_ s = 0%Z)), (decide (fwd_batch_size_ s + 1 = 1)%Z),
      (decide (fwd_batch_size_ s + 1 = 0)%Z); lia.
  - lia.
  - rewrite length_app. simpl. lia.
Qed.

Lemma scanned_keeps look kv :
  key (scanned look kv) = key kv ∧ key_type (scanned look kv) = key_type kv ∧
  (part (key kv) = local_partition c → has_metadata (value_entry (scanned look kv)) = true).
Proof. unfold scanned. destruct (decide _); naive_solver. Qed.

Lemma scanned_shape look (ks : list KeyValueEntry) : (λ kv, (key kv, key_type kv)) <$> (scanned look <$> ks) = (λ kv, (key kv, key_type kv)) <$> ks.
Proof.
  rewrite <-list_fmap_compose. apply list_fmap_ext. intros i kv _. simpl. by destruct (scanned_keeps look kv) as (-> & -> & _).
Qed.

Lemma ProcessForwardTxn_ok look t s hist :
  (∀ l, l ≠ [] → choose l ∈ l) → fwd_inv s hist → event_ok (FTxn look t) →
  (partition_fault (keys t) = None → txn_id t ∉ txn_id <$> hist) →
  ∃ s', ProcessForwardTxn look t s = Ok s' ∧ fwd_inv s' (hist ++ accepted (FTxn look t)).
Proof.
  intros Hch Hinv (Hk & Hip0 & Hir0 & Hpf) Hfresh. unfold ProcessForwardTxn, accepted.
  change (keys (fwd_record ENTER_FORWARDER t)) with (keys t).
  destruct (partition_fault (keys t)) as [f|] eqn:Hfault.
  { rewrite Hpf. exists s. by rewrite app_nil_r. }
  specialize (Hfresh eq_refl).
  destruct (populate_partitions_ok (Z.to_nat (num_partitions c)) (fwd_record ENTER_FORWARDER t)) as (t1 & -> & Hk1 & Hid1 & Hpr1 & Hir1 & Hin & Hps).
  { eapply Forall_impl; [exact Hpf|]. intros kv. simpl. lia. }
  simpl in Hk1, Hid1, Hpr1, Hir1, Hin, Hps. rewrite Hip0 in Hps. rewrite Hir0 in Hir1. cbn [mbind result_bind]. rewrite Hk1.
  destruct (scan_keys_ok look (keys t) [] (partitioned_lookup_request_ s) false) as (rs & -> & Hg & Hids & Hks).
  { rewrite (fi_len _ _ Hinv). eapply Forall_impl; [exact Hpf|]. intros kv. simpl. lia. }
  cbn [mbind result_bind orb app]. set (t2 := set_keys (scanned look <$> keys t) t1).
  assert (Hsh : shape t2 = shape t) by apply scanned_shape.
  assert (Hip : involved_partitions (internal t2) ≠ []).
  { destruct (keys t) as [|kv ks]; [done|]. intros E. specialize (Hin kv (list_elem_of_here _ _)). simpl in E. rewrite E in Hin.
    by apply not_elem_of_nil in Hin. }
  assert (Hk2 : keys t2 ≠ []) by (simpl; by destruct (keys t)).
  destruct (existsb _ (keys t)) eqn:Hneed.
  - destruct (name_ids_ok (txn_id t2) (involved_partitions (internal t2)) rs) as (rs' & -> & Hg' & Hi).
    { apply Forall_forall. intros p Hp. rewrite (proj1 Hg), (fi_len _ _ Hinv). destruct (Hps p Hp) as [?%not_elem_of_nil|?]; [done|lia]. }
    cbn [mbind result_bind]. eexists. split; [done|]. apply (enter_wait s hist t t2 rs'); try done; [by eapply grown_trans|].
    intros kv Hkv Hmd. simpl in Hkv. apply list_elem_of_fmap in Hkv as (kv0 & -> & Hkv0).
    destruct (scanned_keeps look kv0) as (-> & _ & Hloc). rewrite Forall_forall in Hpf. split; [by apply Hpf|].
    assert (Hne : part (key kv0) ≠ local_partition c) by (intros E; by rewrite Hloc in Hmd).
    destruct (Hks kv0 Hkv0 Hne) as (r & Hr & Hkr). destruct (proj2 Hg' _ r Hr) as (r' & Hr' & _ & Hk').
    destruct (Hi _ (Hin kv0 Hkv0) Hne) as (r'' & Hr'' & Hi''). assert (r'' = r') as -> by congruence. exists r'.
    split; [done|]. split; [|by apply Hk']. change (txn_id t2 = txn_id t) in Hid1. by rewrite <-Hid1.
  - destruct (Forward_ok t2 Hch) as (m & t' & -> & Hm & Hid & Hs & Hro); [|done|done|].
    { apply complete_cases. split; [done|]. apply Forall_forall. intros kv Hkv. simpl in Hkv.
      apply list_elem_of_fmap in Hkv as (kv0 & -> & Hkv0). apply (scanned_keeps look kv0). apply dec_stable. intros Hne.
      apply not_true_iff_false in Hneed. apply Hneed, existsb_exists. exists kv0. split; [by apply list_elem_of_In|].
      by apply bool_decide_eq_true_2. }
    cbn [mbind result_bind]. eexists. split; [done|]. eapply (enter_depart s hist t rs m t'); try done; [|congruence].
    rewrite Hid. done.
Qed.

Lemma sent_lookups (rs : list LookupMasterRequest) p r :
  rs !! p = Some r → length rs = Z.to_nat (num_partitions c) → lr_txn_ids r ≠ [] →
  Lookup (MakeMachineId c (local_replica c) (Z.of_nat p)) r ∈ concat (zip_with send_lookup (seqZ 0 (num_partitions c)) rs).
Proof.
  intros Hr Hl Hne. apply list_elem_of_In, in_concat. exists [Lookup (MakeMachineId c (local_replica c) (Z.of_nat p)) r]. split; [|by left].
  apply list_elem_of_In, list_elem_of_lookup. exists p. rewrite lookup_zip_with, Hr.
  rewrite (lookup_seqZ_lt 0 (num_partitions c) p); [|apply lookup_lt_Some in Hr; lia]. simpl.
  unfold send_lookup. by rewrite decide_False.
Qed.

Lemma sent_lookups_only (rs : list LookupMasterRequest) m :
  m ∈ concat (zip_with send_lookup (seqZ 0 (num_partitions c)) rs) → departed m = None ∧ routed m.
Proof.
  intros (l & Hl & Hm)%list_elem_of_In%in_concat. apply list_elem_of_In, elem_of_lookup_zip_with in Hl as (p & x & r & -> & _ & _).
  apply list_elem_of_In in Hm. unfold send_lookup in Hm. case_decide; [by apply not_elem_of_nil in Hm|].
  apply list_elem_of_singleton in Hm as ->. done.
Qed.

Lemma omap_none {A B} (f : A → option B) l : (∀ x, x ∈ l → f x = None) → omap f l = [].
Proof. induction l as [|x l IH]; intros H; [done|]. rewrite omap_cons, (H x), IH; set_solver. Qed.

(** Messages that carry no transaction do not matter. *)
Lemma emit_keeps s hist ms :
  fwd_inv s hist → (∀ m, m ∈ ms → departed m = None ∧ routed m) → fwd_inv (fwd_emit ms s) hist.
Proof.
  intros [H1 H2 H3 H4 H5 H6 H7 H8 H9 H10] Hms.
  assert (Hd : ∀ i, departures i (fwd_out s ++ ms) = departures i (fwd_out s)).
  { intros i. apply departures_none, omap_none. intros m Hm. by apply Hms. }
  split; simpl; try done.
  - intros m [Hm|Hm]%elem_of_app; [by apply H3|by apply Hms].
  - intros t Ht. rewrite Hd. by apply H4.
  - intros i Hi. rewrite Hd. by apply H5.
  - intros i x kv Hx Hkv Hmd. destruct (H6 i x kv Hx Hkv Hmd) as [? Ha]. split; [done|].
    eapply asked_grown; [| |exact Ha]; [apply grown_refl|]. simpl. set_solver.
Qed.

Lemma FTimer_ok s hist : fwd_inv s hist → ∃ s', fwd_step s FTimer = Ok s' ∧ fwd_inv s' hist.
Proof.
  intros Hinv. cbn [fwd_step]. pose proof (fi_flush _ _ Hinv) as Hfl. pose proof (fi_size _ _ Hinv) as Hsz.
  destruct (fwd_flushes s) as [|n] eqn:Hf; [by exists s|]. eexists. split; [done|].
  destruct (decide (fwd_batch_size_ s = 0%Z)) as [E|E]; [done|]. assert (n = 0) as -> by lia.
  set (ms := concat (zip_with send_lookup (seqZ 0 (num_partitions c)) (partitioned_lookup_request_ s))).
  destruct (emit_keeps s hist ms Hinv (sent_lookups_only _)) as [H1 H2 H3 H4 H5 H6 H7 H8 H9 H10].
  pose proof (fi_len _ _ Hinv) as Hlen. pose proof (fi_hist _ _ Hinv) as Hh.
  split; unfold SendLookupMasterRequestBatch; simpl in *; try done.
  - by rewrite length_fmap.
  - intros i x kv Hx Hkv Hmd. destruct (H6 i x kv Hx Hkv Hmd) as [Hr Ha]. split; [done|].
    destruct Ha as [(r & Hl & Hi & Hk)|Ha]; [|by right]. right. exists r. split; [|done]. simpl. apply elem_of_app. right.
    rewrite <-(Z2Nat.id (part (key kv))) by lia. apply sent_lookups; [done|done|]. intros E'. simpl in Hi. rewrite E' in Hi.
    by apply not_elem_of_nil in Hi.
  - intros _. apply Forall_fmap, Forall_true. intros r. simpl. unfold clear_sent. by destruct (decide (lr_txn_ids r = [])).
  - unfold count_batch. destruct (collecting_stats_ (fwd_stats s)); simpl; rewrite ?length_app; simpl; lia.
Qed.

Lemma fwd_step_ok s e hist :
  (∀ l, l ≠ [] → choose l ∈ l) → (Z.of_nat (length hist) * 100 < 2 ^ 64)%Z → fwd_inv s hist → event_ok e →
  NoDup (txn_id <$> (hist ++ accepted e)) →
  ∃ s', fwd_step s e = Ok s' ∧ fwd_inv s' (hist ++ accepted e).
Proof.
  intros Hch Hb Hinv Hok Hnd. destruct e as [look t|look from r|r| |level].
  - apply ProcessForwardTxn_ok; try done. intros Hpf. cbn [accepted] in Hnd. rewrite Hpf, fmap_app in Hnd.
    apply NoDup_app in Hnd as (_ & Hnd & _). intros Hin. apply (Hnd _ Hin). simpl. set_solver.
  - cbn [fwd_step accepted]. rewrite app_nil_r. unfold ProcessLookUpMasterRequest.
    assert (Hl : ∃ rs, lookup_results look (lr_keys r) = Ok rs).
    { simpl in Hok. induction Hok as [|k ks [p Hp] _ [rs IH]]; [by exists []|]. simpl. rewrite Hp. cbn [mbind result_bind].
      rewrite IH. by eexists. }
    destruct Hl as [rs ->]. cbn [mbind result_bind]. eexists. split; [done|]. apply emit_keeps; [done|].
    intros m Hm. apply list_elem_of_singleton in Hm as ->. done.
  - cbn [fwd_step accepted]. rewrite app_nil_r. by apply OnResponse_ok.
  - cbn [accepted]. rewrite app_nil_r. by apply FTimer_ok.
  - cbn [fwd_step accepted]. rewrite app_nil_r. unfold OnStats, ProcessStatsRequest. pose proof (fi_hist _ _ Hinv). pose proof (fi_size _ _ Hinv).
    destruct (Percentiles_ok (stat_batch_sizes_ (fwd_stats s))) as [p ->]; [lia|]. cbn [mbind result_bind].
    eexists. split; [done|]. destruct Hinv as [H1 H2 H3 H4 H5 H6 H7 H8 H9 H10]. split; simpl; try done. lia.
Qed.

Lemma fwd_run_ok es s hist :
  (∀ l, l ≠ [] → choose l ∈ l) → (Z.of_nat (length hist + length es) * 100 < 2 ^ 64)%Z →
  fwd_inv s hist → Forall event_ok es →
  NoDup (txn_id <$> (hist ++ (es ≫= accepted))) →
  ∃ s', rfoldl fwd_step s es = Ok s' ∧ fwd_inv s' (hist ++ (es ≫= accepted)).
Proof.
  intros Hch. revert s hist. induction es as [|e es IH]; intros s hist Hb Hinv Hes Hnd.
  { exists s. by rewrite app_nil_r. }
  apply Forall_cons in Hes as [He Hes]. rewrite bind_cons, app_assoc in Hnd |- *.
  destruct (fwd_step_ok s e hist) as (s1 & Hs1 & Hinv1); [done|simpl in Hb; lia|done|done|by rewrite fmap_app in Hnd; apply NoDup_app in Hnd as [? _]|].
  cbn [rfoldl]. rewrite Hs1. cbn [mbind result_bind]. apply IH; try done.
  assert (length (accepted e) ≤ 1) by (destruct e; simpl; try lia; case_match; simpl; lia).
  rewrite length_app. simpl in Hb. lia.
Qed.

Lemma fwd_init_inv : fwd_inv fwd_init [].
Proof.
  split; simpl; try done.
  - by rewrite length_replicate.
  - by intros m ?%not_elem_of_nil.
  - by intros t ?%not_elem_of_nil.
  - intros _. apply Forall_forall. intros r [-> _]%elem_of_replicate. done.
Qed.

(** ** Where the masters come from *)

Lemma entry_from_mono es es' look kv0 kv : (∀ e, e ∈ es → e ∈ es') → entry_from es look kv0 kv → entry_from es' look kv0 kv.
Proof.
  intros Hsub (Hk & Ht & H). split; [done|]. split; [done|]. destruct H as [H|[H|(Hl & Hn & r & m & Hr & H)]]; [by left|by right; left|].
  right; right. split; [done|]. split; [done|]. exists r, m. split; [by apply Hsub|done].
Qed.

Lemma accounted_mono es es' t : (∀ e, e ∈ es → e ∈ es') → accounted es t → accounted es' t.
Proof.
  intros Hsub (look & t0 & H0 & Hid & HF). exists look, t0. split; [by apply Hsub|]. split; [done|].
  eapply Forall2_impl; [exact HF|]. intros kv0 kv. by apply entry_from_mono.
Qed.

Lemma Forward_departs t ms t' : Forward t = Ok ms → t' ∈ omap departed ms → keys t' = keys t ∧ txn_id t' = txn_id t.
Proof.
  unfold Forward, PopulateInvolvedReplicas, ChooseRandomPartition. intros H Hin.
  repeat (case_match; simplify_eq/=); try (apply list_elem_of_singleton in Hin as ->; done); by apply not_elem_of_nil in Hin.
Qed.

Lemma accounted_keys es t t' : keys t' = keys t → txn_id t' = txn_id t → accounted es t → accounted es t'.
Proof. unfold accounted. intros -> ->. done. Qed.

Lemma fill_key_from es results look kv0 kv :
  (∃ r, FReply r ∈ es ∧ rs_results r = results) → entry_from es look kv0 kv → entry_from es look kv0 (fill_key results kv).
Proof.
  intros (r & Hr & Hres) (Hk & Ht & H). destruct (fill_key_keeps results kv) as (Hk' & Ht' & _).
  split; [by rewrite Hk'|]. split; [by rewrite Ht'|]. unfold fill_key in *. destruct (has_metadata (value_entry kv)) eqn:Hmd; [done|].
  destruct (result_of results (key kv)) as [m|] eqn:Em; [|done]. unfold has_metadata in Hmd.
  destruct (opt_metadata (value_entry kv)) eqn:Eo; [done|]. destruct H as [[? ?]|[[Hl H]|(Hl & Hn & r' & m' & _ & _ & ?)]]; [done| |done].
  right; right. split; [done|]. split; [done|]. exists r, m. rewrite Hk in Em. by rewrite Hres.
Qed.

Lemma masters_reply es results ids s s' :
  (∃ r, FReply r ∈ es ∧ rs_results r = results) → masters_told es s →
  rfoldl (OnResponseTxn results) s ids = Ok s' → masters_told es s'.
Proof.
  intros Hr. revert s. induction ids as [|id ids IH]; intros s Hs; simpl; [by intros [= <-]|].
  destruct (OnResponseTxn results s id) as [s1|] eqn:E1; simpl; [|done]. apply IH. clear IH.
  unfold OnResponseTxn in E1. destruct (pending_transactions_ s !! id) as [t|] eqn:Hp; [|by simplify_eq].
  set (tf := set_keys (fill_key results <$> keys t) t) in *.
  assert (Htf : accounted es tf).
  { destruct (proj1 Hs id t Hp) as (look & t0 & H0 & Hid & HF). exists look, t0. split; [done|]. split; [done|].
    unfold tf. simpl. rewrite <-(list_fmap_id (keys t0)). apply Forall2_fmap. eapply Forall2_impl; [exact HF|].
    intros kv0 kv. by apply fill_key_from. }
  destruct (type_keeps tf) as (Hid1 & Hk1 & _). destruct (SetTransactionType tf) as [t1 ty]. simpl in Hid1, Hk1.
  assert (Ht1 : accounted es t1) by (by apply (accounted_keys es tf)). case_decide.
  - destruct (Forward t1) as [ms|] eqn:Ef; simpl in E1; [|done]. injection E1 as <-. split; simpl.
    + intros i x [_ Hx]%lookup_delete_Some. by apply (proj1 Hs i).
    + intros x. rewrite omap_app. intros [Hx|Hx]%elem_of_app; [by apply Hs|].
      destruct (Forward_departs _ _ _ Ef Hx) as [? ?]. by eapply accounted_keys.
  - injection E1 as <-. split; simpl; [|apply Hs]. intros i x [[_ <-]|[_ Hx]]%lookup_insert_Some; [done|by apply (proj1 Hs i)].
Qed.

Lemma scanned_from es look t kv : FTxn look t ∈ es → entry_from es look kv (scanned look kv).
Proof.
  intros He. destruct (scanned_keeps look kv) as (Hk & Ht & _). split; [done|]. split; [done|]. unfold scanned.
  destruct (decide (part (key kv) = local_partition c)); [by left|by right; left].
Qed.

Lemma masters_txn es look t s s' hist :
  FTxn look t ∈ es → fwd_inv s hist → event_ok (FTxn look t) → masters_told es s →
  ProcessForwardTxn look t s = Ok s' → masters_told es s'.
Proof.
  intros He Hinv (Hk & _ & _ & Hpf) Hs. unfold ProcessForwardTxn.
  change (keys (fwd_record ENTER_FORWARDER t)) with (keys t). destruct (partition_fault (keys t)) as [f|] eqn:Hfault.
  { rewrite Hpf. by intros [= <-]. }
  destruct (populate_partitions_ok (Z.to_nat (num_partitions c)) (fwd_record ENTER_FORWARDER t)) as (t1 & -> & Hk1 & Hid1 & _).
  { eapply Forall_impl; [exact Hpf|]. intros kv. simpl. lia. }
  simpl in Hk1, Hid1. cbn [mbind result_bind]. rewrite Hk1.
  destruct (scan_keys_ok look (keys t) [] (partitioned_lookup_request_ s) false) as (rs & -> & _).
  { rewrite (fi_len _ _ Hinv). eapply Forall_impl; [exact Hpf|]. intros kv. simpl. lia. }
  cbn [mbind result_bind orb app]. set (t2 := set_keys (scanned look <$> keys t) t1).
  assert (Ht2 : accounted es t2).
  { exists look, t. split; [done|]. split; [done|]. unfold t2. simpl. rewrite <-(list_fmap_id (keys t)) at 1. apply Forall2_fmap.
    apply Forall_Forall2_diag, Forall_true. intros kv. by eapply scanned_from. }
  destruct (existsb _ (keys t)).
  - destruct (rfoldl _ rs _) as [rs'|]; simpl; [|done]. intros [= <-]. split; simpl; [|apply Hs].
    intros i x [[_ <-]|[_ Hx]]%lookup_insert_Some; [done|by apply (proj1 Hs i)].
  - destruct (type_keeps t2) as (Hid2 & Hk2 & _). destruct (Forward _) as [ms|] eqn:Ef; simpl; [|done]. intros [= <-].
    split; simpl; [apply Hs|]. intros x. rewrite omap_app. intros [Hx|Hx]%elem_of_app; [by apply Hs|].
    destruct (Forward_departs _ _ _ Ef Hx) as [? ?]. eapply accounted_keys; [| |exact Ht2]; congruence.
Qed.

Lemma masters_step es s e s' hist :
  e ∈ es → fwd_inv s hist → event_ok e → masters_told es s → fwd_step s e = Ok s' → masters_told es s'.
Proof.
  intros He Hinv Hok Hs. destruct e as [look t|look from r|r| |level]; cbn [fwd_step].
  - by eapply masters_txn.
  - unfold ProcessLookUpMasterRequest. destruct (lookup_results _ _); simpl; [|done]. intros [= <-].
    split; simpl; [apply Hs|]. rewrite omap_app, app_nil_r. apply Hs.
  - unfold OnInternalResponseReceived. apply masters_reply; [|done]. by exists r.
  - destruct (fwd_flushes s); intros [= <-]; [done|]. split; simpl; [apply Hs|]. rewrite omap_app, (omap_none departed (concat _)).
    + rewrite app_nil_r. apply Hs.
    + intros m Hm. by apply sent_lookups_only in Hm as [? _].
  - unfold OnStats. destruct (ProcessStatsRequest level (fwd_stats s)) as [[st x]|]; simpl; [|done]. by intros [= <-].
Qed.

Lemma masters_run es all s s' hist :
  (∀ l, l ≠ [] → choose l ∈ l) → (Z.of_nat (length hist + length es) * 100 < 2 ^ 64)%Z →
  fwd_inv s hist → Forall event_ok es → NoDup (txn_id <$> (hist ++ (es ≫= accepted))) →
  (∀ e, e ∈ es → e ∈ all) → masters_told all s → rfoldl fwd_step s es = Ok s' → masters_told all s'.
Proof.
  intros Hch. revert s hist. induction es as [|e es IH]; intros s hist Hb Hinv Hes Hnd Hsub Hs; [by intros [= <-]|].
  apply Forall_cons in Hes as [He Hes]. rewrite bind_cons, app_assoc in Hnd.
  destruct (fwd_step_ok s e hist) as (s1 & Hs1 & Hinv1); [done|simpl in Hb; lia|done|done|by rewrite fmap_app in Hnd; apply NoDup_app in Hnd as [? _]|].
  cbn [rfoldl]. rewrite Hs1. cbn [mbind result_bind]. eapply (IH s1 (hist ++ accepted e)); try done.
  - assert (length (accepted e) ≤ 1) by (destruct e; simpl; try lia; case_match; simpl; lia).
    rewrite length_app. simpl in Hb. lia.
  - set_solver.
  - eapply masters_step; [|exact Hinv|done|done|done]. set_solver.
Qed.

(** ** A reply that knows every missing master *)

Lemma OnResponseTxn_pending results s s' id id' :
  OnResponseTxn results s id = Ok s' →
  (id ≠ id' → pending_transactions_ s' !! id' = pending_transactions_ s !! id') ∧
  (pending_transactions_ s !! id' = None → pending_transactions_ s' !! id' = None).
Proof.
  unfold OnResponseTxn. destruct (pending_transactions_ s !! id) as [t|] eqn:Hp; [|by intros [= <-]].
  destruct (SetTransactionType _) as [t1 ty]. destruct (decide (ty ≠ UNKNOWN)).
  - destruct (Forward t1); simpl; [|done]. intros [= <-]. simpl. split; [apply lookup_delete_ne|].
    intros Hn. apply lookup_delete_None. by right.
  - intros [= <-]. simpl. split; [apply lookup_insert_ne|]. intros Hn. rewrite lookup_insert_ne; [done|]. intros ->. congruence.
Qed.

Lemma OnResponse_none results ids s s' id :
  rfoldl (OnResponseTxn results) s ids = Ok s' → pending_transactions_ s !! id = None → pending_transactions_ s' !! id = None.
Proof.
  revert s. induction ids as [|i ids IH]; intros s; simpl; [by intros [= <-]|].
  destruct (OnResponseTxn results s i) as [s1|] eqn:H1; simpl; [|done]. intros Hr Hn. eapply IH; [exact Hr|].
  by apply (OnResponseTxn_pending results s s1 i id H1).
Qed.

Lemma filled_complete results t :
  (∀ kv, kv ∈ keys t → has_metadata (value_entry kv) = false → is_Some (result_of results (key kv))) →
  complete (set_keys (fill_key results <$> keys t) t).
Proof.
  intros Hres. unfold complete. simpl. apply Forall_fmap, Forall_forall. intros kv Hkv. simpl. unfold fill_key.
  destruct (has_metadata (value_entry kv)) eqn:E; [done|]. by destruct (Hres kv Hkv E) as [m ->].
Qed.

Lemma reply_departs results ids s s' id t hist :
  fwd_inv s hist → rfoldl (OnResponseTxn results) s ids = Ok s' → id ∈ ids →
  pending_transactions_ s !! id = Some t →
  (∀ kv, kv ∈ keys t → has_metadata (value_entry kv) = false → is_Some (result_of results (key kv))) →
  (∀ l, l ≠ [] → choose l ∈ l) →
  pending_transactions_ s' !! id = None.
Proof.
  intros Hinv Hrun Hin Hp Hres Hch. revert s Hinv Hrun Hp. induction ids as [|i ids IH]; intros s Hinv; [by apply not_elem_of_nil in Hin|].
  simpl. destruct (OnResponseTxn_ok results s i hist Hch Hinv) as (s1 & H1 & Hinv1). rewrite H1. cbn [mbind result_bind].
  intros Hrun Hp. destruct (decide (i = id)) as [->|Hne].
  - eapply OnResponse_none; [exact Hrun|]. unfold OnResponseTxn in H1. rewrite Hp in H1.
    destruct (fi_pending _ _ Hinv id t Hp) as (_ & Hk & Hip & _). set (tf := set_keys (fill_key results <$> keys t) t) in *.
    assert (Hty : (SetTransactionType tf).2 ≠ UNKNOWN).
    { apply complete_cases. split; [simpl; by destruct (keys t)|]. by apply filled_complete. }
    destruct (SetTransactionType tf) as [t1 ty]. simpl in Hty. rewrite decide_True in H1 by done.
    destruct (Forward t1); simpl in H1; [|done]. injection H1 as <-. simpl. apply lookup_delete_eq.
  - apply (IH ltac:(set_solver) s1 Hinv1 Hrun). rewrite <-Hp. by apply (OnResponseTxn_pending results s s1 i id H1).
Qed.
End forwarder.

(** C13. Over any run of the forwarder every transaction with valid keys is either still
    waiting or was sent on exactly once, with its keys in order. What was sent on knows the
    master of all of its keys: for a key of this partition the one in the storage when the
    transaction came, for another the one it came with or one that a reply told. It went where its
    masters demand: if they agree and it is no remaster, to the sequencer of this
    machine when they are the local region and else to one sequencer of theirs; if not,
    to the global order, or, when that is bypassed, to one sequencer of exactly the regions
    that take part. And once no flush is outstanding, the forwarder of the partition
    of every key whose master a waiting transaction lacks has been asked for that key in its
    name. *)
Theorem forwarder_routes c cp init recorded choose es :
  (∀ l, l ≠ [] → choose l ∈ l) → (Z.of_nat (length es) * 100 < 2 ^ 64)%Z →
  Forall (event_ok c cp) es → NoDup (txn_id <$> (es ≫= accepted cp)) →
  ∃ s, rfoldl (fwd_step c cp init recorded choose) (fwd_init c) es = Ok s ∧
    (∀ t, t ∈ es ≫= accepted cp →
      (∃ t', pending_transactions_ s !! txn_id t = Some t' ∧ shape t' = shape t ∧ departures (txn_id t) (fwd_out s) = []) ∨
      (pending_transactions_ s !! txn_id t = None ∧ ∃ t', departures (txn_id t) (fwd_out s) = [t'] ∧ shape t' = shape t)) ∧
    (∀ m, m ∈ fwd_out s → routed c m) ∧
    (∀ m t', m ∈ fwd_out s → departed m = Some t' → ∃ look t, FTxn look t ∈ es ∧ txn_id t' = txn_id t ∧
      Forall2 (entry_from c cp init es look) (keys t) (keys t')) ∧
    (∀ id t kv, fwd_flushes s = 0 → pending_transactions_ s !! id = Some t → kv ∈ keys t →
      has_metadata (value_entry kv) = false →
      ∃ r, Lookup (MakeMachineId c (local_replica c) (part cp (key kv))) r ∈ fwd_out s ∧
        id ∈ lr_txn_ids r ∧ key kv ∈ lr_keys r).
Proof.
  intros Hch Hb Hes Hnd. destruct (fwd_run_ok c cp init recorded choose es (fwd_init c) []) as (s & Hr & Hinv); try done.
  { apply fwd_init_inv. }
  exists s. split; [done|]. split; [apply (fi_once _ _ _ _ Hinv)|]. split; [apply (fi_routed _ _ _ _ Hinv)|]. split.
  { assert (Hm : masters_told c cp init es s).
    { eapply (masters_run c cp init recorded choose es es (fwd_init c) s []); try done; [apply fwd_init_inv|].
      split; simpl; [done|]. by intros t ?%not_elem_of_nil. }
    intros m t' Hin Hd. apply Hm. apply list_elem_of_omap. by exists m. }
  intros id t kv Hfl Hp Hkv Hmd. destruct (fi_asked _ _ _ _ Hinv id t kv Hp Hkv Hmd) as [_ [(r & Hr' & Hi & _)|Ha]]; [|done].
  pose proof (fi_flush _ _ _ _ Hinv) as Hf. destruct (decide (fwd_batch_size_ s = 0%Z)) as [E|E]; [|lia].
  pose proof (fi_empty _ _ _ _ Hinv E) as He. rewrite Forall_lookup in He. rewrite (He _ _ Hr') in Hi. by apply not_elem_of_nil in Hi.
Qed.

(** C40. A waiting transaction leaves with the reply that names it and holds the master of
    every key it lacks: after that reply it is no longer pending and was sent on exactly
    once. *)
Theorem forwarder_completes c cp init recorded choose es s r t0 t :
  (∀ l, l ≠ [] → choose l ∈ l) → (Z.of_nat (length es) * 100 < 2 ^ 64)%Z →
  Forall (event_ok c cp) es → NoDup (txn_id <$> (es ≫= accepted cp)) →
  rfoldl (fwd_step c cp init recorded choose) (fwd_init c) es = Ok s →
  t0 ∈ es ≫= accepted cp → pending_transactions_ s !! txn_id t0 = Some t → txn_id t0 ∈ rs_txn_ids r →
  (∀ kv, kv ∈ keys t → has_metadata (value_entry kv) = false → is_Some (result_of (rs_results r) (key kv))) →
  ∃ s' t', fwd_step c cp init recorded choose s (FReply r) = Ok s' ∧
    pending_transactions_ s' !! txn_id t0 = None ∧ departures (txn_id t0) (fwd_out s') = [t'] ∧ shape t' = shape t0.
Proof.
  intros Hch Hb Hes Hnd Hrun Ht0 Hp Hin Hres.
  destruct (fwd_run_ok c cp init recorded choose es (fwd_init c) []) as (s1 & Hr & Hinv); try done.
  { apply fwd_init_inv. }
  rewrite Hrun in Hr. injection Hr as <-. simpl in Hinv. cbn [fwd_step]. unfold OnInternalResponseReceived.
  destruct (OnResponse_ok c cp recorded choose (rs_results r) (rs_txn_ids r) s _ Hch Hinv) as (s' & Hs' & Hinv').
  assert (Hn : pending_transactions_ s' !! txn_id t0 = None) 
    by exact (reply_departs c cp recorded choose _ _ s s' _ t _ Hinv Hs' Hin Hp Hres Hch).
  destruct (fi_once _ _ _ _ Hinv' t0 Ht0) as [(t1 & Ht1 & _)|[_ (t1 & Hd & Hs)]]; [congruence|].
  exists s', t1. done.
Qed.

(** ** Witnesses *)

Definition fwd_cp (k : Key) : result Z := Ok (if decide (k = "A") then 0 else 1)%Z.
Definition fwd_init_md (k : Key) : Metadata := {| md_master := 1; md_counter := 0 |}.
Definition fwd_choose (l : list Z) : Z := List.hd 0%Z l.

Lemma fwd_choose_in l : l ≠ [] → fwd_choose l ∈ l.
Proof. destruct l; [done|]. intros _. apply list_elem_of_here. Qed.

Definition unread_entry (k : Key) : KeyValueEntry :=
  {| key := k; value_entry := {| value := EmptyString; new_value := EmptyString; type := WRITE; opt_metadata := None |} |}.

Definition fwd_txn (i : TxnId) (ks : list Key) : Transaction := make_txn i UNKNOWN (-1) (kCode []) (unread_entry <$> ks).

Definition example_fwd_events : list fwd_event :=
  [FTxn (λ _, None) (fwd_txn 1 ["A"; "B"]); FTxn (λ _, None) (fwd_txn 2 ["A"]); FTimer].

Lemma example_fwd_ok : Forall (event_ok example_config fwd_cp) example_fwd_events.
Proof.
  repeat constructor; try done; simpl; repeat constructor; unfold num_partitions; simpl; vm_compute; done.
Qed.

Lemma example_fwd_nodup : NoDup (txn_id <$> (example_fwd_events ≫= accepted fwd_cp)).
Proof. apply (bool_decide_eq_true_1 _). vm_compute. reflexivity. Qed.

Lemma forwarder_routes_witness :
  ∃ s, rfoldl (fwd_step example_config fwd_cp fwd_init_md (λ _, []) fwd_choose) (fwd_init example_config) example_fwd_events = Ok s ∧
    ∀ m, m ∈ fwd_out s → routed example_config m.
Proof.
  destruct (forwarder_routes example_config fwd_cp fwd_init_md (λ _, []) fwd_choose example_fwd_events) as (s & Hr & _ & Hm & _).
  - apply fwd_choose_in.
  - vm_compute. done.
  - apply example_fwd_ok.
  - apply example_fwd_nodup.
  - exists s. split; [exact Hr|exact Hm].
Defined.

Definition example_fwd_state : forwarder :=
  match rfoldl (fwd_step example_config fwd_cp fwd_init_md (λ _, []) fwd_choose) (fwd_init example_config) example_fwd_events with
  | Ok s => s
  | Err _ => fwd_init example_config
  end.

Definition example_reply : LookupMasterResponse :=
  {| rs_txn_ids := [1%Z]; rs_results := [("B", {| master := 0; counter := 3 |})] |}.

Lemma forwarder_completes_witness :
  ∃ s' t', fwd_step example_config fwd_cp fwd_init_md (λ _, []) fwd_choose example_fwd_state (FReply example_reply) = Ok s' ∧
    pending_transactions_ s' !! 1%Z = None ∧ departures 1 (fwd_out s') = [t'] ∧ shape t' = shape (fwd_txn 1 ["A"; "B"]).
Proof.
  destruct (pending_transactions_ example_fwd_state !! 1%Z) as [t|] eqn:Hp; [|vm_compute in Hp; done].
  apply (forwarder_completes example_config fwd_cp fwd_init_md (λ _, []) fwd_choose example_fwd_events
    example_fwd_state example_reply (fwd_txn 1 ["A"; "B"]) t).
  - apply fwd_choose_in.
  - vm_compute. done.
  - apply example_fwd_ok.
  - apply example_fwd_nodup.
  - vm_compute. reflexivity.
  - apply list_elem_of_here.
  - exact Hp.
  - apply list_elem_of_here.
  - vm_compute in Hp. injection Hp as <-. intros kv Hkv. repeat (apply elem_of_cons in Hkv as [->|Hkv]; [vm_compute; eauto; done|]).
    by apply not_elem_of_nil in Hkv.
Defined.
