(* ===== verification/Scalar.v ===== *)
(** * Column types and scalars of TPC-C

    [execution/tpcc/types.h] and [execution/tpcc/scalar.h]. The memory of a scalar is a list
    of bytes; integers are little-endian, as on the machines this code is built for. *)
From Stdlib Require Import Ascii.
From S2P Require Import Prelude Types Sharder.

Inductive DataTypeName := INT8 | INT16 | INT32 | INT64 | FIXED_TEXT.

Inductive DataType := Int8Type | Int16Type | Int32Type | Int64Type | FixedTextType (width : nat).

#[global] Instance DataTypeName_eq_dec : EqDecision DataTypeName.
Proof. solve_decision. Defined.
#[global] Instance DataType_eq_dec : EqDecision DataType.
Proof. solve_decision. Defined.

Definition type_name (ty : DataType) : DataTypeName :=
  match ty with
  | Int8Type => INT8
  | Int16Type => INT16
  | Int32Type => INT32
  | Int64Type => INT64
  | FixedTextType _ => FIXED_TEXT
  end.

Definition type_size (ty : DataType) : nat :=
  match ty with
  | Int8Type => 1
  | Int16Type => 2
  | Int32Type => 4
  | Int64Type => 8
  | FixedTextType w => w
  end.

(** [operator==] of data types. *)
Definition type_eqb (dt1 dt2 : DataType) : bool :=
  if decide (type_name dt1 ≠ type_name dt2) then false
  else if decide (type_name dt1 = FIXED_TEXT ∧ type_size dt1 ≠ type_size dt2) then false
  else true.

(** The width of a text is that of its type; the buffer can have another length. *)
Inductive Scalar :=
  | Int8Scalar (v : Z)
  | Int16Scalar (v : Z)
  | Int32Scalar (v : Z)
  | Int64Scalar (v : Z)
  | FixedTextScalar (width : nat) (buffer : list ascii).

#[global] Instance Scalar_eq_dec : EqDecision Scalar.
Proof. solve_decision. Defined.

Definition scalar_type (s : Scalar) : DataType :=
  match s with
  | Int8Scalar _ => Int8Type
  | Int16Scalar _ => Int16Type
  | Int32Scalar _ => Int32Type
  | Int64Scalar _ => Int64Type
  | FixedTextScalar w _ => FixedTextType w
  end.

(** The constructors convert their argument. *)
Definition MakeInt8Scalar (v : Z) : Scalar := Int8Scalar (i8 v).
Definition MakeInt16Scalar (v : Z) : Scalar := Int16Scalar (i16 v).
Definition MakeInt32Scalar (v : Z) : Scalar := Int32Scalar (i32 v).
Definition MakeInt64Scalar (v : Z) : Scalar := Int64Scalar (i64 v).

Definition MakeFixedTextScalar (ty : DataType) (data : list ascii) : result Scalar :=
  match ty with
  | FixedTextType w =>
    if decide (length data = w) then Ok (FixedTextScalar w data) else Err (Fatal "Size does not match")
  | _ => Err (Fatal "Check failed: type->name() == DataTypeName::FIXED_TEXT")
  end.

(** ** Memory *)

Definition byte_of (z : Z) : ascii := ascii_of_N (Z.to_N (z `mod` 256)).

Fixpoint le_bytes (n : nat) (z : Z) : list ascii :=
  match n with
  | 0 => []
  | S n => byte_of z :: le_bytes n (z `div` 256)
  end.

Fixpoint le_value (l : list ascii) : Z :=
  match l with
  | [] => 0
  | c :: l => uchar c + 256 * le_value l
  end.

(** The [n] bytes at an offset of the memory of a string, whose contents are followed by
    one null character; further reads have no meaning. *)
Definition read_bytes (l : list ascii) (off n : nat) : result (list ascii) :=
  if decide (off + n ≤ length l + 1) then Ok (take n (drop off (l ++ [zero])))
  else Err (Undef "read past the end of a string").

(** [std::string(data(), type->size())] *)
Definition scalar_bytes (s : Scalar) : result (list ascii) :=
  match s with
  | Int8Scalar v => Ok (le_bytes 1 v)
  | Int16Scalar v => Ok (le_bytes 2 v)
  | Int32Scalar v => Ok (le_bytes 4 v)
  | Int64Scalar v => Ok (le_bytes 8 v)
  | FixedTextScalar w b => read_bytes b 0 w
  end.

(** [MakeScalar(type, data + off)] *)
Definition MakeScalar (ty : DataType) (data : list ascii) (off : nat) : result Scalar :=
  l ← read_bytes data off (type_size ty);
  match ty with
  | Int8Type => Ok (MakeInt8Scalar (le_value l))
  | Int16Type => Ok (MakeInt16Scalar (le_value l))
  | Int32Type => Ok (MakeInt32Scalar (le_value l))
  | Int64Type => Ok (MakeInt64Scalar (le_value l))
  | FixedTextType _ => MakeFixedTextScalar ty l
  end.

(** [operator==] of scalars; the types are singletons. *)
Definition scalar_eqb (s1 s2 : Scalar) : bool :=
  match s1, s2 with
  | Int8Scalar v1, Int8Scalar v2 | Int16Scalar v1, Int16Scalar v2
  | Int32Scalar v1, Int32Scalar v2 | Int64Scalar v1, Int64Scalar v2 => bool_decide (v1 = v2)
  | FixedTextScalar w1 b1, FixedTextScalar w2 b2 => bool_decide (w1 = w2) && bool_decide (b1 = b2)
  | _, _ => false
  end.

(** [UncheckedCast<T>(s)->value]: a cast to another type has no meaning. *)
Definition as_int8 (s : Scalar) : result Z :=
  match s with Int8Scalar v => Ok v | _ => Err (Undef "UncheckedCast<Int8Scalar>") end.
Definition as_int16 (s : Scalar) : result Z :=
  match s with Int16Scalar v => Ok v | _ => Err (Undef "UncheckedCast<Int16Scalar>") end.
Definition as_int32 (s : Scalar) : result Z :=
  match s with Int32Scalar v => Ok v | _ => Err (Undef "UncheckedCast<Int32Scalar>") end.
Definition as_int64 (s : Scalar) : result Z :=
  match s with Int64Scalar v => Ok v | _ => Err (Undef "UncheckedCast<Int64Scalar>") end.
Definition as_text (s : Scalar) : result (list ascii) :=
  match s with FixedTextScalar _ b => Ok b | _ => Err (Undef "UncheckedCast<FixedTextScalar>") end.

(** ** Well-formed scalars *)

Definition fits_signed (n : nat) (v : Z) : Prop := (- 2 ^ (8 * Z.of_nat n - 1) ≤ v < 2 ^ (8 * Z.of_nat n - 1))%Z.

Definition scalar_ok (s : Scalar) : Prop :=
  match s with
  | Int8Scalar v => fits_signed 1 v
  | Int16Scalar v => fits_signed 2 v
  | Int32Scalar v => fits_signed 4 v
  | Int64Scalar v => fits_signed 8 v
  | FixedTextScalar w b => length b = w
  end.

#[global] Instance scalar_ok_dec s : Decision (scalar_ok s).
Proof. destruct s; unfold scalar_ok, fits_signed; apply _. Defined.

(** The bytes of a well-formed scalar. *)
Definition raw (s : Scalar) : list ascii :=
  match s with
  | Int8Scalar v => le_bytes 1 v
  | Int16Scalar v => le_bytes 2 v
  | Int32Scalar v => le_bytes 4 v
  | Int64Scalar v => le_bytes 8 v
  | FixedTextScalar _ b => b
  end.

Lemma uchar_byte z : uchar (byte_of z) = (z `mod` 256)%Z.
Proof.
  unfold uchar, byte_of. pose proof (Z.mod_pos_bound z 256 ltac:(lia)).
  unfold nat_of_ascii. rewrite N_ascii_embedding by lia. lia.
Qed.

Lemma le_bytes_length n z : length (le_bytes n z) = n.
Proof. revert z. induction n; intros z; simpl; [done|]. by rewrite IHn. Qed.

Lemma le_value_bytes n z : le_value (le_bytes n z) = (z `mod` 2 ^ (8 * Z.of_nat n))%Z.
Proof.
  revert z. induction n as [|n IH]; intros z; [simpl; by rewrite Z.mod_1_r|].
  change (le_value (le_bytes (S n) z)) with (uchar (byte_of z) + 256 * le_value (le_bytes n (z `div` 256)))%Z.
  rewrite uchar_byte, IH. replace (8 * Z.of_nat (S n))%Z with (8 + 8 * Z.of_nat n)%Z by lia.
  rewrite Z.pow_add_r by lia. change (2 ^ 8)%Z with 256%Z. rewrite Z.rem_mul_r by lia. done.
Qed.

Lemma wraps_mod n v :
  0 < n → fits_signed n v → wraps (8 * Z.of_nat n) (v `mod` 2 ^ (8 * Z.of_nat n)) = v.
Proof.
  intros Hn Hv. unfold fits_signed, wraps in *. set (w := (8 * Z.of_nat n)%Z) in *.
  assert (Hw : (2 ^ w = 2 * 2 ^ (w - 1))%Z) by (rewrite <-Z.pow_succ_r by lia; f_equal; lia).
  rewrite Z.add_mod_idemp_l by lia. rewrite Z.mod_small by lia. lia.
Qed.

Lemma le_bytes_inj n v w : 0 < n → fits_signed n v → fits_signed n w → le_bytes n v = le_bytes n w → v = w.
Proof.
  intros Hn Hv Hw E. rewrite <-(wraps_mod n v), <-(wraps_mod n w) by done. by rewrite <-!le_value_bytes, E.
Qed.

Lemma raw_length s : scalar_ok s → length (raw s) = type_size (scalar_type s).
Proof. destruct s; simpl; try (intros; apply le_bytes_length); done. Qed.

Lemma scalar_bytes_ok s : scalar_ok s → scalar_bytes s = Ok (raw s).
Proof.
  destruct s as [v|v|v|v|w b]; try done. simpl. intros <-. unfold read_bytes. rewrite decide_True by lia.
  by rewrite drop_0, take_app_length.
Qed.

Lemma raw_inj s1 s2 : scalar_type s1 = scalar_type s2 → scalar_ok s1 → scalar_ok s2 → raw s1 = raw s2 → s1 = s2.
Proof.
  destruct s1, s2; simpl; try done; intros Ht H1 H2 E; f_equal; try congruence;
    (eapply le_bytes_inj; [|exact H1|exact H2|exact E]; lia).
Qed.

Lemma read_bytes_mid l1 l2 l3 : read_bytes (l1 ++ l2 ++ l3) (length l1) (length l2) = Ok l2.
Proof.
  unfold read_bytes. rewrite !length_app. rewrite decide_True by lia. rewrite <-!app_assoc, drop_app_length.
  by rewrite take_app_length.
Qed.

(** Reading back the bytes of a scalar. *)
Lemma MakeScalar_raw s l1 l3 :
  scalar_ok s → MakeScalar (scalar_type s) (l1 ++ raw s ++ l3) (length l1) = Ok s.
Proof.
  intros Hs. unfold MakeScalar. rewrite <-raw_length by done. rewrite read_bytes_mid. cbn [mbind result_bind].
  destruct s as [v|v|v|v|w b]; cbn [scalar_type raw];
    unfold MakeInt8Scalar, MakeInt16Scalar, MakeInt32Scalar, MakeInt64Scalar; rewrite ?le_value_bytes.
  - do 2 f_equal. by apply (wraps_mod 1); [lia|].
  - do 2 f_equal. by apply (wraps_mod 2); [lia|].
  - do 2 f_equal. by apply (wraps_mod 4); [lia|].
  - do 2 f_equal. by apply (wraps_mod 8); [lia|].
  - simpl in *. by rewrite decide_True.
Qed.

Lemma wraps_fits n z : 0 < n → fits_signed n (wraps (8 * Z.of_nat n) z).
Proof.
  intros Hn. unfold fits_signed, wraps. set (w := (8 * Z.of_nat n)%Z) in *.
  assert (Hw : (2 ^ w = 2 * 2 ^ (w - 1))%Z) by (rewrite <-Z.pow_succ_r by lia; f_equal; lia).
  pose proof (Z.mod_pos_bound (z + 2 ^ (w - 1)) (2 ^ w) ltac:(lia)). lia.
Qed.

Lemma MakeInt8Scalar_ok v : scalar_ok (MakeInt8Scalar v).
Proof. apply (wraps_fits 1). lia. Qed.
Lemma MakeInt16Scalar_ok v : scalar_ok (MakeInt16Scalar v).
Proof. apply (wraps_fits 2). lia. Qed.
Lemma MakeInt32Scalar_ok v : scalar_ok (MakeInt32Scalar v).
Proof. apply (wraps_fits 4). lia. Qed.
Lemma MakeInt64Scalar_ok v : scalar_ok (MakeInt64Scalar v).
Proof. apply (wraps_fits 8). lia. Qed.

Lemma scalar_eqb_eq s1 s2 : scalar_eqb s1 s2 = true ↔ s1 = s2.
Proof. destruct s1, s2; simpl; rewrite ?andb_true_iff, ?bool_decide_eq_true; naive_solver. Qed.
