(* ===== verification/Network.v ===== *)
(** * Messages between machines

    [connection/zmq_utils.h], [connection/sender.cpp], [connection/broker.cpp],
    [connection/poller.cpp], [module/base/networked_module.cpp] and [module/base/module.cpp].
    A ZeroMQ socket delivers messages; which message is next is an input of each loop. The
    bytes of a protocol buffer are given by the arguments [pack] and [unpack]; what the modules
    exchange beyond pings and redirections is an argument type. *)
From Stdlib Require Import Ascii.
From S2P Require Import Prelude Types StringUtils Config Scalar.

Definition kForwarderChannel : Channel := 2.
Definition kSequencerChannel : Channel := 3.

(** ** Addresses *)

Definition MakeInProcChannelAddress (chan : Channel) : string := "inproc://channel_" +:+ to_string chan.

Definition MakeRemoteAddress (protocol addr : string) (port : Z) (binding : bool) : string :=
  protocol +:+ "://" +:+ (if binding && bool_decide (protocol = "tcp"%string) then "*"%string else addr) +:+ ":" +:+ to_string port.

(** ** [Broker] *)

Record Broker := { br_config : Configuration; br_channels_ : list (Channel * bool); br_running_ : bool }.

Definition AddChannel (chan : Channel) (send_raw : bool) (b : Broker) : result Broker :=
  if br_running_ b then Err (Fatal "Cannot add new channel. The broker has already been running")
  else Ok {| br_config := br_config b; br_channels_ := br_channels_ b ++ [(chan, send_raw)]; br_running_ := false |}.

Definition MakeChannel (broker_num : Z) : Channel := kBrokerChannel + broker_num.

(** Where a worker sends its redirections: the broker thread with the last port. *)
Definition redirect_channel (c : Configuration) : Channel := MakeChannel (Z.of_nat (length (cp_broker_ports (config_ c))) - 1).

(** The threads that are started: their internal and external endpoints and their channels. *)
Definition StartInNewThreads (b : Broker) : list (string * string * list (Channel * bool)) * Broker :=
  if br_running_ b then ([], b)
  else
    let c := config_ (br_config b) in
    (imap (λ i port, (MakeInProcChannelAddress (MakeChannel (Z.of_nat i)),
             MakeRemoteAddress (cp_protocol c) (local_address_ (br_config b)) port true, br_channels_ b)) (cp_broker_ports c),
     {| br_config := br_config b; br_channels_ := br_channels_ b; br_running_ := true |}).

Definition broker_Stop (b : Broker) : Broker :=
  {| br_config := br_config b; br_channels_ := br_channels_ b; br_running_ := false |}.

(** ** [Poller]

    Instants are in nanoseconds, timeouts in microseconds. A callback changes the state of
    the module and can add callbacks; [fire] tells what it does. *)
Section poller.
  Context {S CB : Type} (fire : CB → S → S * list (Z * CB)).

Definition TimedCallback : Type := Z * CB.

Definition AddTimedCallback (now timeout : Z) (cb : CB) (timed_callbacks_ : list TimedCallback) : list TimedCallback :=
  timed_callbacks_ ++ [((now + 1000 * timeout)%Z, cb)].

Fixpoint shortest_timeout_from (now : Z) (timed_callbacks_ : list TimedCallback) (shortest_timeout : option Z) : option Z :=
  match timed_callbacks_ with
  | [] => shortest_timeout
  | (at_, _) :: evs =>
    if decide (at_ ≤ now)%Z then Some 0%Z
    else if from_option (λ t, bool_decide (at_ - now < 1000 * t)%Z) true shortest_timeout
    then shortest_timeout_from now evs (Some ((at_ - now) `quot` 1000)%Z)
    else shortest_timeout_from now evs shortest_timeout
  end.

(** The argument of [zmq::poll], in milliseconds. *)
Definition poll_argument (shortest_timeout : option Z) : Z := from_option (λ t, t `quot` 1000)%Z (-1)%Z shortest_timeout.

(** The loop over the list; a callback that is added is at the end of the list, which the loop
    has not reached. *)
Fixpoint process_callbacks (fuel : nat) (now : Z) (todo kept : list TimedCallback) (s : S) : result (list TimedCallback * S) :=
  match todo with
  | [] => Ok (kept, s)
  | (at_, cb) :: todo =>
    match fuel with
    | O => Err OutOfFuel
    | Datatypes.S fuel =>
      if decide (at_ ≤ now)%Z then let '(s, added) := fire cb s in process_callbacks fuel now (todo ++ added) kept s
      else process_callbacks fuel now todo (kept ++ [(at_, cb)]) s
    end
  end.

(** [rc]: what the poll returns for its argument; [later]: the clock after it. *)
Definition NextEvent (fuel : nat) (poll_timeout_ : option Z) (now later : Z) (rc : Z → Z) (dont_wait : bool)
    (timed_callbacks_ : list TimedCallback) (s : S) : result (bool * list TimedCallback * S) :=
  let may_have_msg :=
    if dont_wait then true
    else bool_decide (0 < rc (poll_argument (shortest_timeout_from now timed_callbacks_ poll_timeout_)))%Z in
  '(timed_callbacks_, s) ← process_callbacks fuel later timed_callbacks_ [] s;
  Ok (may_have_msg, timed_callbacks_, s).
End poller.

(** ** [ModuleRunner] *)
Section runner.
  Context {M : Type} (SetUp : M → M) (Loop : M → M * bool).

Record ModuleRunner := { module_ : M; running_ : bool; setup_ : bool }.

Definition runner_Stop (r : ModuleRunner) : ModuleRunner :=
  {| module_ := module_ r; running_ := false; setup_ := setup_ r |}.

Fixpoint run_loop (fuel : nat) (r : ModuleRunner) : result ModuleRunner :=
  if running_ r then
    match fuel with
    | O => Err OutOfFuel
    | S fuel =>
      let '(m, stop) := Loop (module_ r) in
      let r := {| module_ := m; running_ := running_ r; setup_ := setup_ r |} in
      run_loop fuel (if stop then runner_Stop r else r)
    end
  else Ok r.

Definition runner_Run (fuel : nat) (r : ModuleRunner) : result ModuleRunner :=
  run_loop fuel (if setup_ r then r
                 else {| module_ := SetUp (module_ r); running_ := running_ r; setup_ := true |}).

Definition runner_Start (fuel : nat) (r : ModuleRunner) : result ModuleRunner :=
  if running_ r then Err (Exn "The module has already started")
  else runner_Run fuel {| module_ := module_ r; running_ := true; setup_ := setup_ r |}.
End runner.

Section network.
  Context {P : Type}.

(** ** Envelopes *)

Inductive Request :=
  | Ping (time target from_channel : Z)
  | BrokerRedirect (tag channel : Z) (stop : bool)
  | OtherRequest (p : P).

Inductive Response :=
  | Pong (time target : Z)
  | OtherResponse (p : P).

Inductive EnvelopeType :=
  | TYPE_NOT_SET
  | kRequest (r : Request)
  | kResponse (r : Response)
  | kRaw (raw : list ascii).

Record Envelope := { env_type : EnvelopeType; from : Z }.

Definition set_from (m : MachineId) (e : Envelope) : Envelope := {| env_type := env_type e; from := u32 m |}.

Definition empty_envelope : Envelope := {| env_type := TYPE_NOT_SET; from := 0 |}.

(** [unpack]: what is in a new envelope after the bytes are read, and whether that succeeded. *)
Context (pack : Envelope → list ascii) (unpack : list ascii → Envelope * bool).

(** ** Frames: the sender's machine id, the receiver's channel, the packed message *)

Definition header_sz : nat := 12.

Definition SendAddressedBuffer (body : list ascii) (from_machine_id : MachineId) (to_chan : Channel) : list ascii :=
  le_bytes 4 from_machine_id ++ le_bytes 8 to_chan ++ body.

Definition SendSerializedProto (e : Envelope) (from_machine_id : MachineId) (to_chan : Channel) : list ascii :=
  SendAddressedBuffer (pack e) from_machine_id to_chan.

Definition ParseMachineId (msg : list ascii) : option MachineId :=
  if decide (length msg < 4) then None else Some (i32 (le_value (take 4 msg))).

Definition ParseChannel (msg : list ascii) : option Channel :=
  if decide (length msg < header_sz) then None else Some (le_value (take 8 (drop 4 msg))).

Definition DeserializeProto (msg : list ascii) : Envelope * bool :=
  if decide (length msg < header_sz) then (empty_envelope, false) else unpack (drop header_sz msg).

Definition DeserializeEnvelope (msg : list ascii) : option Envelope :=
  let '(e, ok) := DeserializeProto msg in
  if ok then Some (set_from (default (-1)%Z (ParseMachineId msg)) e) else None.

(** ** [Sender] *)

(** What a call puts on a socket: the endpoint it is connected to and what is sent. *)
Inductive sending :=
  | ToRemote (endpoint : string) (msg : list ascii)
  | ToLocal (endpoint : string) (e : Envelope).

Record Sender := {
  sd_config : Configuration;
  machine_id_and_port_to_sockets_ : gmap Z string;
  local_channel_to_socket_ : gmap Z string
}.

Definition remote_port (c : Configuration) (channel : Channel) : result Z :=
  let ports := cp_broker_ports (config_ c) in
  if decide (kMaxChannel ≤ channel)%Z then from_option Ok (Err (Undef "broker_ports")) (last ports)
  else if decide (channel = kForwarderChannel) then Ok (cp_forwarder_port (config_ c))
  else if decide (channel = kSequencerChannel) then Ok (cp_sequencer_port (config_ c))
  else from_option Ok (Err (Undef "broker_ports")) (head ports).

(** [static_cast<uint64_t>(machine_id) << 32 | port] *)
Definition machine_id_and_port (m : MachineId) (port : Z) : Z := Z.lor (u64 (u64 m * 2 ^ 32)) port.

Definition GetRemoteSocket (s : Sender) (m : MachineId) (channel : Channel) : result (string * Sender) :=
  port ← remote_port (sd_config s) channel;
  match machine_id_and_port_to_sockets_ s !! machine_id_and_port m port with
  | Some endpoint => Ok (endpoint, s)
  | None =>
    match guard (0 ≤ m)%Z;; address_of_machine (sd_config s) m with
    | None => Err (Undef "all_addresses_[machine_id]")
    | Some addr =>
      let endpoint := MakeRemoteAddress (cp_protocol (config_ (sd_config s))) addr port false in
      Ok (endpoint, {| sd_config := sd_config s;
            machine_id_and_port_to_sockets_ := <[machine_id_and_port m port := endpoint]> (machine_id_and_port_to_sockets_ s);
            local_channel_to_socket_ := local_channel_to_socket_ s |})
    end
  end.

(** [Send(const Envelope&, MachineId, Channel)] *)
Definition send_remote (e : Envelope) (m : MachineId) (channel : Channel) (s : Sender) : result (list sending * Sender) :=
  '(endpoint, s) ← GetRemoteSocket s m channel;
  Ok ([ToRemote endpoint (SendSerializedProto e (local_machine_id (sd_config s)) channel)], s).

(** [Send(EnvelopePtr&&, Channel)] *)
Definition send_local (e : Envelope) (channel : Channel) (s : Sender) : list sending * Sender :=
  let endpoint := default (MakeInProcChannelAddress channel) (local_channel_to_socket_ s !! channel) in
  ([ToLocal endpoint (set_from (local_machine_id (sd_config s)) e)],
   {| sd_config := sd_config s; machine_id_and_port_to_sockets_ := machine_id_and_port_to_sockets_ s;
      local_channel_to_socket_ := <[channel := endpoint]> (local_channel_to_socket_ s) |}).

(** [Send(EnvelopePtr&&, MachineId, Channel)] *)
Definition send_to (e : Envelope) (m : MachineId) (channel : Channel) (s : Sender) : result (list sending * Sender) :=
  if decide (m = local_machine_id (sd_config s)) then Ok (send_local e channel s) else send_remote e m channel s.

(** [Send(const Envelope&, vector, Channel)]: serialized once. *)
Definition send_buffer (body : list ascii) (channel : Channel) (st : list sending * Sender) (m : MachineId) :
    result (list sending * Sender) :=
  '(endpoint, s) ← GetRemoteSocket st.2 m channel;
  Ok (st.1 ++ [ToRemote endpoint (SendAddressedBuffer body (local_machine_id (sd_config s)) channel)], s).

Definition send_remote_all (e : Envelope) (ms : list MachineId) (channel : Channel) (s : Sender) : result (list sending * Sender) :=
  rfoldl (send_buffer (pack e) channel) ([], s) ms.

(** [Send(EnvelopePtr&&, vector, Channel)]: the local machine last, and once. *)
Definition send_all (e : Envelope) (ms : list MachineId) (channel : Channel) (s : Sender) : result (list sending * Sender) :=
  let local := local_machine_id (sd_config s) in
  '(out, s) ← rfoldl (send_buffer (pack e) channel) ([], s) (filter (λ m, m ≠ local) ms);
  if decide (local ∈ ms) then let '(out', s) := send_local e channel s in Ok (out ++ out', s) else Ok (out, s).

(** ** [BrokerThread] *)

Record RedirectEntry := { rd_to : option Channel; pending_msgs : list (list ascii) }.

(** [forwarded]: the calls of [ForwardMessage], with the channel of their socket. *)
Record BrokerThread := {
  channels_ : gmap Z bool;
  redirect_ : gmap Z RedirectEntry;
  recv_retries_start_ : Z;
  recv_retries_ : Z;
  forwarded : list (Channel * list ascii)
}.

(** A channel that is listed twice keeps its first entry. *)
Definition make_channels (channels : list (Channel * bool)) : gmap Z bool :=
  foldl (λ m '(chan, send_raw), if decide (is_Some (m !! chan)) then m else <[chan := send_raw]> m) ∅ channels.

Definition MakeBrokerThread (channels : list (Channel * bool)) (recv_retries_start : Z) : BrokerThread :=
  {| channels_ := make_channels channels; redirect_ := ∅; recv_retries_start_ := recv_retries_start; recv_retries_ := 0; forwarded := [] |}.

(** [ForwardMessage]: what goes to the module, if anything. *)
Definition ForwardMessage (send_raw : bool) (msg : list ascii) : option Envelope :=
  let machine_id := default (-1)%Z (ParseMachineId msg) in
  if send_raw then Some (set_from machine_id {| env_type := kRaw msg; from := 0 |})
  else
    let '(e, ok) := DeserializeProto msg in
    if ok then Some (set_from machine_id e) else None.

Definition set_redirect (r : gmap Z RedirectEntry) (b : BrokerThread) : BrokerThread :=
  {| channels_ := channels_ b; redirect_ := r; recv_retries_start_ := recv_retries_start_ b;
     recv_retries_ := recv_retries_ b; forwarded := forwarded b |}.

Definition forward (chan : Channel) (msgs : list (list ascii)) (b : BrokerThread) : BrokerThread :=
  {| channels_ := channels_ b; redirect_ := redirect_ b; recv_retries_start_ := recv_retries_start_ b;
     recv_retries_ := recv_retries_ b; forwarded := forwarded b ++ (pair chan <$> msgs) |}.

Definition set_retries (n : Z) (b : BrokerThread) : BrokerThread :=
  {| channels_ := channels_ b; redirect_ := redirect_ b; recv_retries_start_ := recv_retries_start_ b;
     recv_retries_ := n; forwarded := forwarded b |}.

Definition no_redirect : RedirectEntry := {| rd_to := None; pending_msgs := [] |}.

(** To the channel, if there is one. *)
Definition to_channel (chan : Channel) (msg : list ascii) (b : BrokerThread) : BrokerThread :=
  if decide (is_Some (channels_ b !! chan)) then forward chan [msg] b else b.

Definition HandleIncomingMessage (msg : list ascii) (b : BrokerThread) : BrokerThread :=
  match ParseChannel msg with
  | None => b
  | Some tag_or_chan_id =>
    if decide (kMaxChannel ≤ tag_or_chan_id)%Z then
      let entry := default no_redirect (redirect_ b !! tag_or_chan_id) in
      match rd_to entry with
      | None =>
        set_redirect (<[tag_or_chan_id := {| rd_to := None; pending_msgs := pending_msgs entry ++ [msg] |}]> (redirect_ b)) b
      | Some chan => to_channel chan msg (set_redirect (<[tag_or_chan_id := entry]> (redirect_ b)) b)
      end
    else to_channel tag_or_chan_id msg b
  end.

(** The internal message; the flag tells whether the loop goes on to its end. *)
Definition HandleInternal (e : Envelope) (b : BrokerThread) : BrokerThread * bool :=
  match env_type e with
  | kRequest (BrokerRedirect tag channel stop) =>
    if stop then (set_redirect (delete tag (redirect_ b)) b, false)
    else if decide (is_Some (channels_ b !! channel)) then
      let entry := default no_redirect (redirect_ b !! tag) in
      (set_redirect (<[tag := {| rd_to := Some channel; pending_msgs := [] |}]> (redirect_ b)) (forward channel (pending_msgs entry) b), true)
    else (b, false)
  | _ => (b, false)
  end.

(** One round: whether the poll found something, and what the two sockets give. *)
Definition broker_Loop (polled : bool) (external : option (list ascii)) (internal : option Envelope) (b : BrokerThread) : BrokerThread :=
  if bool_decide (recv_retries_ b ≤ 0)%Z && negb polled then b
  else
    let b := match external with Some msg => HandleIncomingMessage msg (set_retries (recv_retries_start_ b) b) | None => b end in
    let '(b, go_on) := match internal with Some e => HandleInternal e (set_retries (recv_retries_start_ b) b) | None => (b, true) end in
    if go_on && bool_decide (0 < recv_retries_ b)%Z then set_retries (recv_retries_ b - 1) b else b.

(** ** [NetworkedModule] *)

(** What a module does with an envelope. *)
Inductive reaction :=
  | OnInternalRequest (e : Envelope)
  | OnInternalResponse (e : Envelope)
  | SendEnvelopeTo (e : Envelope) (m : MachineId) (channel : Channel).

Definition unwrap (e : Envelope) : Envelope :=
  match env_type e with
  | kRaw raw =>
    let '(e', ok) := DeserializeProto raw in
    if ok then set_from (from e) e' else e'
  | _ => e
  end.

(** The flag tells whether there was an envelope. *)
Definition OnEnvelopeReceived (wrapped_env : option Envelope) : list reaction * bool :=
  match wrapped_env with
  | None => ([], false)
  | Some wrapped =>
    let e := unwrap wrapped in
    (match env_type e with
     | kRequest (Ping time target from_channel) =>
       [SendEnvelopeTo {| env_type := kResponse (Pong time target); from := 0 |} (i32 (from e)) from_channel]
     | kRequest _ => [OnInternalRequest e]
     | kResponse _ => [OnInternalResponse e]
     | _ => []
     end, true)
  end.

(** One round: whether the poller may have a message, what the two sockets give (there is
    only one for a module without a port), and what the module's own sockets do. *)
Definition module_Loop (may_have_msg : bool) (inproc : option Envelope) (outproc : option (option (list ascii)))
    (custom : list reaction * bool) (retries_start retries : Z) : list reaction * Z :=
  if may_have_msg then
    let '(r1, b1) := OnEnvelopeReceived inproc in
    let '(r2, b2) := OnEnvelopeReceived (mjoin outproc ≫= DeserializeEnvelope) in
    let '(r3, b3) := custom in
    let retries := if b1 || b2 || b3 then retries_start else retries in
    (r1 ++ r2 ++ r3, if decide (0 < retries)%Z then (retries - 1)%Z else retries)
  else ([], retries).
End network.

(** ** The poller fires what is due *)
Section poller_correct.
  Context {S CB : Type} (fire : CB → S → S * list (Z * CB)).

Lemma shortest_timeout_bound now evs acc :
  from_option (λ t, 0 ≤ t)%Z True acc →
  match shortest_timeout_from (CB := CB) now evs acc with
  | None => evs = [] ∧ acc = None
  | Some t => (0 ≤ t)%Z ∧ from_option (λ t', t ≤ t')%Z True acc ∧
      Forall (λ ev, 1000 * t ≤ Z.max 0 (ev.1 - now))%Z evs
  end.
Proof.
  revert acc. induction evs as [|[at_ cb] evs IH]; intros acc Ha; simpl.
  { destruct acc; simpl in *; [split_and!; [done|lia|constructor]|done]. }
  destruct (decide (at_ ≤ now)%Z) as [Hle|Hgt].
  { split_and!; [lia|by destruct acc|]. apply Forall_true. intros; lia. }
  pose proof (Z.quot_pos (at_ - now) 1000 ltac:(lia) ltac:(lia)).
  pose proof (Z.mul_quot_le (at_ - now) 1000 ltac:(lia) ltac:(lia)).
  destruct (from_option _ true acc) eqn:E.
  - specialize (IH (Some ((at_ - now) `quot` 1000)%Z) ltac:(done)).
    destruct (shortest_timeout_from _ _ _) as [t|]; [|by destruct IH].
    destruct IH as (? & Hq & ?). simpl in Hq. split_and!; [done| |constructor; [simpl; lia|done]].
    destruct acc; [|done]. simpl in *. apply bool_decide_eq_true in E. lia.
  - destruct acc as [a|]; [|done]. simpl in E. apply bool_decide_eq_false in E.
    specialize (IH (Some a) Ha). destruct (shortest_timeout_from _ _ _) as [t|]; [|by destruct IH].
    destruct IH as (? & Hq & ?). simpl in *. split_and!; [done|lia|constructor; [simpl; lia|done]].
Qed.

(** What firing the due callbacks of a list leaves: the state and the callbacks they add. *)
Definition fire_due (now : Z) (st : S * list (Z * CB)) (ev : Z * CB) : S * list (Z * CB) :=
  if decide (ev.1 ≤ now)%Z then let '(s, added) := fire ev.2 st.1 in (s, st.2 ++ added) else st.

Lemma process_not_due fuel now todo kept s :
  Forall (λ ev, now < ev.1)%Z todo → length todo ≤ fuel →
  process_callbacks fire fuel now todo kept s = Ok (kept ++ todo, s).
Proof.
  intros H. revert fuel kept. induction H as [|[at_ cb] todo ? ? IH]; intros fuel kept Hf; simpl in *.
  { destruct fuel; simpl; by rewrite app_nil_r. }
  destruct fuel as [|fuel]; [lia|]. simpl. destruct (decide (at_ ≤ now)%Z) as [?|_]; [lia|].
  rewrite IH by lia. by rewrite <-app_assoc.
Qed.

Lemma process_due now todo later kept s :
  (∀ cb s, Forall (λ ev, now < ev.1)%Z (fire cb s).2) → Forall (λ ev, now < ev.1)%Z later →
  ∃ n, ∀ fuel, n ≤ fuel →
    process_callbacks fire fuel now (todo ++ later) kept s =
    Ok (kept ++ filter (λ ev, now < ev.1)%Z todo ++ (foldl (fire_due now) (s, later) todo).2, (foldl (fire_due now) (s, later) todo).1).
Proof.
  intros Hfire. revert later kept s. induction todo as [|[at_ cb] todo IH]; intros later kept s Hl.
  { exists (length later). intros fuel Hf. simpl. by rewrite process_not_due. }
  rewrite filter_cons. simpl. unfold fire_due at 2 4. simpl.
  destruct (decide (at_ ≤ now)%Z) as [Hle|Hgt].
  - destruct (decide (now < at_)%Z) as [?|_]; [lia|].
    pose proof (Hfire cb s) as Hn. destruct (fire cb s) as [s' added] eqn:E.
    destruct (IH (later ++ added) kept s') as [n Hn']; [by apply Forall_app|].
    exists (Datatypes.S n). intros [|fuel] Hf; [lia|]. simpl.
    destruct (decide (at_ ≤ now)%Z) as [_|?]; [|lia]. rewrite E, <-app_assoc. apply Hn'. lia.
  - destruct (decide (now < at_)%Z) as [_|?]; [|lia].
    destruct (IH later (kept ++ [(at_, cb)]) s Hl) as [n Hn].
    exists (Datatypes.S n). intros [|fuel] Hf; [lia|]. simpl.
    destruct (decide (at_ ≤ now)%Z) as [?|_]; [lia|]. rewrite Hn by lia. by rewrite <-!app_assoc.
Qed.

(** A call of [NextEvent] returns, whatever the callbacks add for later; it has fired the
    callbacks that were due, each once, in the order they were added, and keeps the others
    followed by the new ones. The poll before it never lasts past the instant of a callback,
    nor past the poller's own timeout. *)
Theorem next_event_fires poll_timeout now later rc dont_wait evs s :
  (∀ cb s, Forall (λ ev, later < ev.1)%Z (fire cb s).2) → from_option (λ t, 0 ≤ t)%Z True poll_timeout →
  let wait := poll_argument (shortest_timeout_from now evs poll_timeout) in
  (∃ n, ∀ fuel, n ≤ fuel →
    NextEvent fire fuel poll_timeout now later rc dont_wait evs s =
    Ok (dont_wait || bool_decide (0 < rc wait)%Z,
        filter (λ ev, later < ev.1)%Z evs ++ (foldl (fire_due later) (s, []) evs).2, (foldl (fire_due later) (s, []) evs).1)) ∧
  (evs ≠ [] → 0 ≤ wait)%Z ∧
  Forall (λ ev, wait * 1000000 ≤ Z.max 0 (ev.1 - now))%Z evs ∧
  from_option (λ t, wait * 1000 ≤ t)%Z True poll_timeout.
Proof.
  intros Hfire Hp. cbv zeta. pose proof (shortest_timeout_bound now evs poll_timeout Hp) as Hs. split.
  - destruct (process_due later evs [] [] s Hfire) as [n Hn]; [constructor|]. exists n. intros fuel Hf.
    unfold NextEvent. rewrite app_nil_r in Hn. rewrite Hn by done. simpl. by destruct dont_wait.
  - unfold poll_argument. destruct (shortest_timeout_from _ _ _) as [t|]; simpl.
    + destruct Hs as (Ht & Hq & Hall).
      pose proof (Z.quot_pos t 1000 Ht ltac:(lia)). pose proof (Z.mul_quot_le t 1000 Ht ltac:(lia)).
      split_and!; [done| |destruct poll_timeout; simpl in *; [lia|done]].
      eapply Forall_impl; [exact Hall|]. intros ev ?. cbv beta in *. lia.
    + destruct Hs as [-> ->]. split_and!; [done|constructor|done].
Qed.
End poller_correct.

(** A callback that adds another one, 2 ms later. *)
Lemma next_event_fires_witness :
  let fire := λ (cb : nat) (s : list nat), (s ++ [cb], if decide (cb = 7) then [(7000000%Z, 8)] else []) in
  ∃ n, NextEvent fire n None 0 5000000 (λ _, 0%Z) false [(6000000%Z, 5); (5000000%Z, 7); (1%Z, 9)] [] =
    Ok (false, [(6000000%Z, 5); (7000000%Z, 8)], [7; 9]).
Proof.
  intros fire. destruct (next_event_fires fire None 0 5000000 (λ _, 0%Z) false [(6000000%Z, 5); (5000000%Z, 7); (1%Z, 9)] []) as [[n H] _].
  - intros cb s. unfold fire. simpl. destruct (decide (cb = 7)); repeat constructor.
  - done.
  - exists n. rewrite H by done. reflexivity.
Defined.

(** ** The runner sets up once and stops when told *)
Section runner_correct.
  Context {M : Type} (SetUp : M → M) (Loop : M → M * bool).

Definition after (n : nat) (m : M) : M := Nat.iter n (λ m, (Loop m).1) m.

Lemma run_loop_stops n fuel r :
  running_ r = true → (∀ i, i < n → (Loop (after i (module_ r))).2 = false) → (Loop (after n (module_ r))).2 = true → n < fuel →
  run_loop Loop fuel r = Ok {| module_ := after (S n) (module_ r); running_ := false; setup_ := setup_ r |}.
Proof.
  revert fuel r. induction n as [|n IH]; intros fuel r Hr Hi Hn Hf; destruct fuel as [|fuel]; try lia; cbn [run_loop]; rewrite Hr.
  - simpl in *. destruct (Loop (module_ r)) as [m' stop]. simpl in *. subst. by destruct fuel.
  - pose proof (Hi 0 ltac:(lia)) as H0. simpl in H0.
    assert (Hs : ∀ k, after (S k) (module_ r) = after k (Loop (module_ r)).1) by (intros k; unfold after; by rewrite Nat.iter_succ_r).
    rewrite Hs in Hn. assert (Hi' : ∀ i, i < n → (Loop (after i (Loop (module_ r)).1)).2 = false).
    { intros i ?. rewrite <-Hs. apply Hi. lia. }
    rewrite (Hs (S n)). clear Hs.
    destruct (Loop (module_ r)) as [m' stop]. cbn [fst snd] in *. subst. rewrite IH; [done..|lia].
Qed.

Lemma runner_starts_once n fuel r :
  let m := if setup_ r then module_ r else SetUp (module_ r) in
  running_ r = false → (∀ i, i < n → (Loop (after i m)).2 = false) → (Loop (after n m)).2 = true → n < fuel →
  runner_Start SetUp Loop fuel r = Ok {| module_ := after (S n) m; running_ := false; setup_ := true |}.
Proof.
  intros m Hr Hi Hn Hf. unfold runner_Start, runner_Run. rewrite Hr. simpl.
  subst m. destruct (setup_ r); by rewrite (run_loop_stops n).
Qed.
End runner_correct.

(** ** The broker's redirections *)
Section broker_correct.
  Context {P : Type}.
  Notation Envelope := (@Envelope P).

(** What a thread has received, in the order it handled it. *)
Inductive received := External (msg : list ascii) | Internal (e : Envelope).

Definition round (polled : bool) (external : option (list ascii)) (internal : option Envelope) (b : BrokerThread) : list received :=
  if bool_decide (recv_retries_ b ≤ 0)%Z && negb polled then []
  else option_list (External <$> external) ++ option_list (Internal <$> internal).

Inductive broker_reach (channels : list (Channel * bool)) (start : Z) : list received → BrokerThread → Prop :=
  | broker_init : broker_reach channels start [] (MakeBrokerThread channels start)
  | broker_round h b polled external internal :
      broker_reach channels start h b →
      broker_reach channels start (h ++ round polled external internal b) (broker_Loop polled external internal b).

(** A tag by itself: what went through, what waits, and where it goes. *)
Record tag_state := { tg_sent : list (Channel * list ascii); tg_pending : list (list ascii); tg_to : option Channel }.

Definition tag_step (channels : gmap Z bool) (tag : Z) (t : tag_state) (r : received) : tag_state :=
  match r with
  | External msg =>
    if decide (ParseChannel msg = Some tag) then
      match tg_to t with
      | Some c => {| tg_sent := tg_sent t ++ [(c, msg)]; tg_pending := tg_pending t; tg_to := Some c |}
      | None => {| tg_sent := tg_sent t; tg_pending := tg_pending t ++ [msg]; tg_to := None |}
      end
    else t
  | Internal {| env_type := kRequest (BrokerRedirect tag' c stop) |} =>
    if decide (tag' = tag) then
      if stop then {| tg_sent := tg_sent t; tg_pending := []; tg_to := None |}
      else if decide (is_Some (channels !! c)) then
        {| tg_sent := tg_sent t ++ (pair c <$> tg_pending t); tg_pending := []; tg_to := Some c |}
      else t
    else t
  | _ => t
  end.

Definition tag_init : tag_state := {| tg_sent := []; tg_pending := []; tg_to := None |}.

Definition via (tag : Z) (l : list (Channel * list ascii)) : list (Channel * list ascii) :=
  filter (λ cm, ParseChannel cm.2 = Some tag) l.

Definition entry_of (tag : Z) (b : BrokerThread) : RedirectEntry := default no_redirect (redirect_ b !! tag).

Definition tag_of (tag : Z) (b : BrokerThread) : tag_state :=
  {| tg_sent := via tag (forwarded b); tg_pending := pending_msgs (entry_of tag b); tg_to := rd_to (entry_of tag b) |}.

Definition arrivals (tag : Z) (h : list received) : list (list ascii) :=
  omap (λ r, match r with
             | External msg => if decide (ParseChannel msg = Some tag) then Some msg else None
             | Internal _ => None
             end) h.

Record broker_inv (channels : gmap Z bool) (h : list received) (b : BrokerThread) : Prop := {
  bi_channels : channels_ b = channels;
  bi_pending tag : Forall (λ m, ParseChannel m = Some tag) (pending_msgs (entry_of tag b));
  bi_low tag : (tag < kMaxChannel)%Z → pending_msgs (entry_of tag b) = [];
  bi_to tag c : rd_to (entry_of tag b) = Some c → is_Some (channels !! c);
  bi_tags tag : (kMaxChannel ≤ tag)%Z → tag_of tag b = foldl (tag_step channels tag) tag_init h;
  bi_direct c : (c < kMaxChannel)%Z →
    via c (forwarded b) = if decide (is_Some (channels !! c)) then pair c <$> arrivals c h else []
}.

Lemma via_app tag l1 l2 : via tag (l1 ++ l2) = via tag l1 ++ via tag l2.
Proof. apply filter_app. Qed.

Lemma via_cons tag (cm : Channel * list ascii) l :
  via tag (cm :: l) = if decide (ParseChannel cm.2 = Some tag) then cm :: via tag l else via tag l.
Proof. unfold via. by rewrite filter_cons. Qed.

Lemma via_pending tag tag' (c : Channel) l :
  Forall (λ m, ParseChannel m = Some tag') l → via tag (pair c <$> l) = if decide (tag = tag') then pair c <$> l else [].
Proof.
  induction 1 as [|m l Hm Hl IH]; [by case_decide|].
  rewrite fmap_cons, via_cons, IH. simpl. rewrite Hm.
  destruct (decide (Some tag' = Some tag)) as [[= ->]|]; destruct (decide (tag = _)); simplify_eq; done.
Qed.

Lemma entry_insert tag tag' e b :
  entry_of tag (set_redirect (<[tag' := e]> (redirect_ b)) b) = if decide (tag = tag') then e else entry_of tag b.
Proof.
  unfold entry_of. simpl. case_decide; [subst; by rewrite lookup_insert_eq|by rewrite lookup_insert_ne].
Qed.

Lemma entry_forward tag c l b : entry_of tag (forward c l b) = entry_of tag b.
Proof. done. Qed.

Lemma broker_inv_retries channels h n b : broker_inv channels h b → broker_inv channels h (set_retries n b).
Proof. by intros []; constructor. Qed.

Lemma arrivals_app tag h1 h2 : arrivals tag (h1 ++ h2) = arrivals tag h1 ++ arrivals tag h2.
Proof. apply omap_app. Qed.

(** A message with a known channel, or for a tag that has one. *)
Lemma forwarded_one c c' (chan : Channel) msg b :
  ParseChannel msg = Some c' → via c (forwarded (forward chan [msg] b)) = via c (forwarded b) ++ if decide (c = c') then [(chan, msg)] else [].
Proof.
  intros Hc. simpl. rewrite via_app. f_equal. rewrite via_cons. simpl. rewrite Hc.
  destruct (decide (c = c')), (decide (Some c' = Some c)); simplify_eq; done.
Qed.

Lemma arrivals_external tag msg :
  arrivals tag [External msg] = if decide (ParseChannel msg = Some tag) then [msg] else [].
Proof. unfold arrivals. simpl. by case_decide. Qed.

Lemma incoming_inv channels h msg b :
  broker_inv channels h b → broker_inv channels (h ++ [External msg]) (HandleIncomingMessage msg b).
Proof.
  intros [Hch Hp Hlow Hto Htags Hdir]. unfold HandleIncomingMessage.
  destruct (ParseChannel msg) as [t|] eqn:Ht.
  2:{ constructor; [done..| |]; intros tag ?.
      - rewrite foldl_app, <-Htags by done. simpl. by rewrite Ht.
      - rewrite arrivals_app, arrivals_external, Ht, app_nil_r. by apply Hdir. }
  destruct (decide (kMaxChannel ≤ t)%Z) as [Hmax|Hmax].
  - fold (entry_of t b). destruct (rd_to (entry_of t b)) as [c|] eqn:Er.
    + assert (Hc : is_Some (channels !! c)) by eauto.
      unfold to_channel. simpl. rewrite Hch. destruct (decide (is_Some (channels !! c))) as [_|?]; [|done].
      constructor; [done| | | | |].
      * intros tag. rewrite entry_forward, entry_insert. case_decide; subst; apply Hp.
      * intros tag Htag. rewrite entry_forward, entry_insert. case_decide; subst; by apply Hlow.
      * intros tag c'. rewrite entry_forward, entry_insert. case_decide; subst; apply Hto.
      * intros tag Htag. rewrite foldl_app, <-Htags by done. unfold tag_of at 1.
        rewrite (forwarded_one tag t) by done. rewrite entry_forward, entry_insert. simpl. rewrite Ht.
        destruct (decide (Some t = Some tag)), (decide (tag = t)); simplify_eq; rewrite ?Er, ?app_nil_r; done.
      * intros c' Hlt. rewrite (forwarded_one c' t) by done. rewrite arrivals_app, arrivals_external, Ht. simpl.
        destruct (decide (c' = t)); [lia|]. destruct (decide (Some t = Some c')) as [[= ->]|_]; [lia|].
        rewrite !app_nil_r. by apply Hdir.
    + constructor; [done| | | | |].
      * intros tag. rewrite entry_insert. case_decide; subst; [|apply Hp]. simpl. apply Forall_app; split; [apply Hp|by constructor].
      * intros tag Htag. rewrite entry_insert. case_decide; subst; [lia|by apply Hlow].
      * intros tag c'. rewrite entry_insert. case_decide; subst; [done|apply Hto].
      * intros tag Htag. rewrite foldl_app, <-Htags by done. unfold tag_of. rewrite entry_insert. simpl. rewrite Ht.
        destruct (decide (Some t = Some tag)), (decide (tag = t)); simplify_eq; rewrite ?Er; done.
      * intros c' Hlt. rewrite arrivals_app, arrivals_external, Ht. simpl.
        destruct (decide (Some t = Some c')) as [[= ->]|_]; [lia|]. rewrite app_nil_r. by apply Hdir.
  - unfold to_channel. rewrite Hch.
    assert (Hst : ∀ tag, (kMaxChannel ≤ tag)%Z → tag_of tag b = foldl (tag_step channels tag) tag_init (h ++ [External msg])).
    { intros tag Htag. rewrite foldl_app, <-Htags by done. simpl. rewrite Ht.
      by destruct (decide (Some t = Some tag)); simplify_eq. }
    assert (Har : ∀ c, arrivals c (h ++ [External msg]) = arrivals c h ++ if decide (c = t) then [msg] else []).
    { intros c. rewrite arrivals_app, arrivals_external, Ht.
      destruct (decide (Some t = Some c)), (decide (c = t)); simplify_eq; done. }
    destruct (decide (is_Some (channels !! t))) as [Hc|Hc].
    + constructor; [done..| |].
      * intros tag Htag. rewrite <-Hst by done. unfold tag_of. rewrite (forwarded_one tag t) by done.
        destruct (decide (tag = t)); [lia|]. by rewrite app_nil_r.
      * intros c' Hlt. rewrite (forwarded_one c' t), Har, Hdir by done.
        destruct (decide (c' = t)) as [->|]; [|by rewrite !app_nil_r].
        destruct (decide (is_Some (channels !! t))); [|done]. by rewrite fmap_app.
    + constructor; [done..|]. intros c' Hlt. rewrite Har, Hdir by done.
      destruct (decide (c' = t)) as [->|]; [|by rewrite !app_nil_r]. by destruct (decide (is_Some (channels !! t))).
Qed.

Lemma internal_inv channels h e b :
  broker_inv channels h b → broker_inv channels (h ++ [Internal e]) (HandleInternal e b).1.
Proof.
  intros [Hch Hp Hlow Hto Htags Hdir]. unfold HandleInternal.
  assert (Hdir' : ∀ c, (c < kMaxChannel)%Z → via c (forwarded b) =
    if decide (is_Some (channels !! c)) then pair c <$> arrivals c (h ++ [Internal e]) else []).
  { intros c Hc. rewrite arrivals_app, app_nil_r. by apply Hdir. }
  destruct (env_type e) as [|[| tag c stop|]| |] eqn:Ee;
    try (constructor; [done..| |done]; intros tag' ?; rewrite foldl_app, <-Htags by done; simpl; destruct e; simpl in Ee; by rewrite Ee).
  destruct stop.
  - constructor; [done| | | | |done].
    + intros tag'. unfold entry_of. simpl. destruct (decide (tag = tag')) as [<-|]; [rewrite lookup_delete_eq; constructor|].
      rewrite lookup_delete_ne by done. apply Hp.
    + intros tag' ?. unfold entry_of. simpl. destruct (decide (tag = tag')) as [<-|]; [by rewrite lookup_delete_eq|].
      rewrite lookup_delete_ne by done. by apply Hlow.
    + intros tag' c'. unfold entry_of. simpl. destruct (decide (tag = tag')) as [<-|]; [rewrite lookup_delete_eq; done|].
      rewrite lookup_delete_ne by done. apply Hto.
    + intros tag' ?. rewrite foldl_app, <-Htags by done. destruct e. simpl in Ee. subst env_type0. simpl. unfold tag_of, entry_of. simpl.
      destruct (decide (tag = tag')) as [<-|]; [by rewrite lookup_delete_eq|]. by rewrite lookup_delete_ne.
  - rewrite Hch. destruct (decide (is_Some (channels !! c))) as [Hc|Hc]; simpl.
    + fold (entry_of tag b). constructor; [done| | | | |].
      * intros tag'. rewrite (entry_insert tag' tag _ (forward c _ b)). case_decide; [constructor|apply Hp].
      * intros tag' ?. rewrite (entry_insert tag' tag _ (forward c _ b)). case_decide; [done|by apply Hlow].
      * intros tag' c'. rewrite (entry_insert tag' tag _ (forward c _ b)). case_decide; [by intros [= <-]|apply Hto].
      * intros tag' ?. rewrite foldl_app, <-Htags by done. destruct e. simpl in Ee. subst env_type0. simpl. unfold tag_of at 1.
        rewrite (entry_insert tag' tag _ (forward c _ b)). simpl. rewrite via_app, (via_pending _ tag) by done.
        destruct (decide (tag' = tag)) as [->|]; [|by destruct (decide (tag = tag')); rewrite ?app_nil_r].
        destruct (decide (tag = tag)); [|done]. by destruct (decide (is_Some (channels !! c))).
      * intros c' Hlt. simpl. rewrite via_app, (via_pending _ tag) by done. rewrite Hdir' by done.
        destruct (decide (c' = tag)) as [->|]; [rewrite Hlow by done|]; by rewrite app_nil_r.
    + constructor; [done..| |done]. intros tag' ?. rewrite foldl_app, <-Htags by done. destruct e. simpl in Ee. subst env_type0. simpl.
      destruct (decide (tag = tag')); [|done]. by destruct (decide (is_Some (channels !! c))).
Qed.

Lemma round_inv channels h polled external internal b :
  broker_inv channels h b →
  broker_inv channels (h ++ round polled external internal b) (broker_Loop polled external internal b).
Proof.
  intros H. unfold round, broker_Loop. destruct (bool_decide _ && negb polled); [by rewrite app_nil_r|].
  rewrite (assoc_L (++)). set (h' := h ++ option_list (External <$> external)).
  set (b' := match external with Some msg => _ | None => b end).
  assert (H' : broker_inv channels h' b').
  { subst h' b'. destruct external; simpl; [by apply incoming_inv, broker_inv_retries|by rewrite app_nil_r]. }
  assert (H'' : ∀ e, broker_inv channels (h' ++ [Internal e]) (HandleInternal e (set_retries (recv_retries_start_ b') b')).1).
  { intros e. by apply internal_inv, broker_inv_retries. }
  destruct internal as [e|]; simpl.
  - specialize (H'' e). destruct (HandleInternal e _) as [b'' go_on]. simpl in H''.
    destruct (go_on && _); [by apply broker_inv_retries|done].
  - rewrite app_nil_r. destruct (bool_decide _); [by apply broker_inv_retries|done].
Qed.

Lemma broker_reach_inv channels start h b : broker_reach channels start h b → broker_inv (make_channels channels) h b.
Proof.
  induction 1; [|by apply round_inv].
  constructor; unfold tag_of, entry_of; simpl; intros; try done. by case_decide.
Qed.

Definition stops (tag : Z) (r : received) : bool :=
  match r with
  | Internal {| env_type := kRequest (BrokerRedirect tag' _ true) |} => bool_decide (tag' = tag)
  | _ => false
  end.

Lemma tag_fifo channels tag h :
  let t := foldl (tag_step channels tag) tag_init h in
  Forall (λ r, stops tag r = false) h →
  (tg_sent t).*2 ++ tg_pending t = arrivals tag h ∧ (is_Some (tg_to t) → tg_pending t = []).
Proof.
  cbv zeta. induction h as [|r h IH] using rev_ind; intros Hs; [by split; [|intros []]|].
  apply Forall_app in Hs as [Hs Hr]. apply Forall_cons_1 in Hr as [Hr _]. specialize (IH Hs).
  rewrite foldl_app, arrivals_app. simpl. set (t := foldl _ _ h) in *. clearbody t. destruct IH as [IH Hto].
  destruct r as [msg|[[|[|tag' c stop|]| |] fr]]; simpl in *; rewrite ?app_nil_r; try done.
  - destruct (decide (ParseChannel msg = Some tag)); [|by rewrite app_nil_r].
    destruct (tg_to t) as [c|]; simpl; rewrite <-IH.
    + rewrite fmap_app, Hto by done. by rewrite !app_nil_r.
    + split; [by rewrite <-app_assoc|by intros []].
  - destruct (decide (tag' = tag)) as [->|]; [|done].
    destruct stop; [by rewrite bool_decide_true in Hr|]. destruct (decide (is_Some (channels !! c))); [|done].
    simpl. split; [|done]. rewrite fmap_app, app_nil_r, <-IH. f_equal. rewrite <-list_fmap_compose. apply list_fmap_id.
Qed.

(** C21. A broker thread forwards the messages of a tag, as long as the redirection is not
    stopped, exactly once and in the order they came: those that came before the redirection
    wait for it, and none waits after it. Tags do not disturb each other, and the messages of an
    ordinary channel all go to that channel, in order. *)
Theorem broker_redirects channels start h b :
  broker_reach channels start h b →
  (∀ tag, (kMaxChannel ≤ tag)%Z →
    tag_of tag b = foldl (tag_step (make_channels channels) tag) tag_init h ∧
    (Forall (λ r, stops tag r = false) h →
      (via tag (forwarded b)).*2 ++ pending_msgs (entry_of tag b) = arrivals tag h ∧
      (is_Some (rd_to (entry_of tag b)) → pending_msgs (entry_of tag b) = []))) ∧
  (∀ c, (c < kMaxChannel)%Z → is_Some (make_channels channels !! c) → via c (forwarded b) = pair c <$> arrivals c h).
Proof.
  intros [_ _ _ _ Htags Hdir]%broker_reach_inv. split.
  - intros tag Htag. specialize (Htags tag Htag). split; [done|]. intros Hs.
    pose proof (tag_fifo (make_channels channels) tag h Hs) as Hf. by rewrite <-Htags in Hf.
  - intros c Hc Hk. rewrite Hdir by done. by destruct (decide _).
Qed.
End broker_correct.

(** Two messages of a tag, the redirection between them; and one for channel 4. *)
Definition example_frame (chan : Channel) (body : string) : list ascii := SendAddressedBuffer (String.list_ascii_of_string body) 1 chan.

Lemma broker_redirects_witness :
  ∃ (h : list (@received unit)) b,
    broker_reach [(4%Z, false); (16%Z, true)] 2 h b ∧
    (via 100 (forwarded b)).*2 = [example_frame 100 "a"; example_frame 100 "c"] ∧
    via 4 (forwarded b) = [(4%Z, example_frame 4 "b")].
Proof.
  pose proof (broker_init (P := unit) [(4%Z, false); (16%Z, true)] 2) as H0.
  pose proof (broker_round _ _ _ _ true (Some (example_frame 100 "a")) None H0) as H1.
  pose proof (broker_round _ _ _ _ true (Some (example_frame 4 "b")) None H1) as H2.
  pose proof (broker_round _ _ _ _ true (Some (example_frame 100 "c"))
    (Some {| env_type := kRequest (BrokerRedirect 100 16 false); from := 0 |}) H2) as H3.
  eexists _, _. split; [exact H3|]. destruct (broker_redirects _ _ _ _ H3) as [Ht Hc]. split.
  - destruct (Ht 100%Z) as [_ Hf]; [done|]. destruct Hf as [Hf Hp]; [vm_compute; repeat constructor|].
    rewrite Hp, app_nil_r in Hf by (vm_compute; eauto). rewrite Hf. vm_compute. reflexivity.
  - rewrite (Hc 4%Z); [vm_compute; reflexivity|done|vm_compute; eauto].
Defined.

(** ** A message reaches its module *)
Section delivery.
  Context {P : Type} (pack : @Envelope P → list ascii) (unpack : list ascii → @Envelope P * bool).

Definition is_int (z : Z) : Prop := (- 2 ^ 31 ≤ z < 2 ^ 31)%Z.

Lemma frame_machine body m c : is_int m → ParseMachineId (SendAddressedBuffer body m c) = Some m.
Proof.
  intros Hm. unfold ParseMachineId, SendAddressedBuffer.
  rewrite decide_False by (rewrite length_app, le_bytes_length; lia).
  rewrite take_app_le by (by rewrite le_bytes_length). rewrite take_ge by (by rewrite le_bytes_length).
  rewrite le_value_bytes. f_equal. apply (wraps_mod 4); [lia|exact Hm].
Qed.

Lemma frame_header body m c : length (SendAddressedBuffer body m c) = header_sz + length body.
Proof. unfold SendAddressedBuffer. rewrite !length_app, !le_bytes_length. reflexivity. Qed.

Lemma frame_channel body m c : (0 ≤ c < 2 ^ 64)%Z → ParseChannel (SendAddressedBuffer body m c) = Some c.
Proof.
  intros Hc. unfold ParseChannel. rewrite decide_False by (rewrite frame_header; lia).
  unfold SendAddressedBuffer. rewrite drop_app_length' by (by rewrite le_bytes_length).
  rewrite take_app_length' by (by rewrite le_bytes_length). rewrite le_value_bytes. f_equal. by apply Z.mod_small.
Qed.

Lemma frame_body body m c : DeserializeProto unpack (SendAddressedBuffer body m c) = unpack body.
Proof.
  unfold DeserializeProto. rewrite decide_False by (rewrite frame_header; lia).
  unfold SendAddressedBuffer. rewrite (assoc_L (++)), drop_app_length'; [done|].
  rewrite length_app, !le_bytes_length. reflexivity.
Qed.

Lemma key_value m port : is_int m → (0 ≤ port < 2 ^ 32)%Z → machine_id_and_port m port = ((m `mod` 2 ^ 32) * 2 ^ 32 + port)%Z.
Proof.
  intros Hm Hp. unfold machine_id_and_port, wrapu.
  assert (E : (((m `mod` 2 ^ 64) * 2 ^ 32) `mod` 2 ^ 64 = (m `mod` 2 ^ 32) * 2 ^ 32)%Z).
  { rewrite Z.mul_mod_idemp_l by lia. change (2 ^ 64)%Z with (2 ^ 32 * 2 ^ 32)%Z. rewrite Z.mul_mod_distr_r by lia. reflexivity. }
  rewrite E, <-Z.shiftl_mul_pow2, <-Z.add_lor_land by lia.
  enough (Z.land (Z.shiftl (m `mod` 2 ^ 32) 32) port = 0%Z) as -> by lia.
  apply Z.bits_inj'. intros n Hn. rewrite Z.land_spec, Z.bits_0.
  destruct (decide (n < 32)%Z); [by rewrite Z.shiftl_spec_low|].
  rewrite <-(Z.mod_small port (2 ^ 32)), Z.mod_pow2_bits_high by lia. apply andb_false_r.
Qed.

Lemma key_inj m port m' port' :
  is_int m → is_int m' → (0 ≤ port < 2 ^ 32)%Z → (0 ≤ port' < 2 ^ 32)%Z →
  machine_id_and_port m port = machine_id_and_port m' port' → m = m' ∧ port = port'.
Proof.
  intros Hm Hm' Hp Hp'. rewrite !key_value by done. intros E.
  assert (port = port' ∧ (m `mod` 2 ^ 32 = m' `mod` 2 ^ 32)%Z) as [-> Em] by lia. split; [|done].
  rewrite <-(wraps_mod 4 m), <-(wraps_mod 4 m'); [|lia|exact Hm'|lia|exact Hm]. f_equal. exact Em.
Qed.

(** Where a message for a channel of a machine has to go. *)
Definition endpoint_of (c : Configuration) (m : MachineId) (channel : Channel) : option string :=
  match remote_port c channel, address_of_machine c m with
  | Ok port, Some addr => Some (MakeRemoteAddress (cp_protocol (config_ c)) addr port false)
  | _, _ => None
  end.

(** The ports are [uint32_t]; the constructor checks that there is a broker. *)
Definition ports_ok (c : Configuration) : Prop :=
  cp_broker_ports (config_ c) ≠ [] ∧ Forall (λ p, 0 ≤ p < 2 ^ 32)%Z (cp_broker_ports (config_ c)) ∧
  (0 ≤ cp_forwarder_port (config_ c) < 2 ^ 32)%Z ∧ (0 ≤ cp_sequencer_port (config_ c) < 2 ^ 32)%Z.

(** A socket is connected to the machine and the port it is kept for. *)
Record sender_ok (s : Sender) : Prop := {
  so_remote m port ep : is_int m → (0 ≤ port < 2 ^ 32)%Z →
    machine_id_and_port_to_sockets_ s !! machine_id_and_port m port = Some ep →
    ∃ addr, address_of_machine (sd_config s) m = Some addr ∧ ep = MakeRemoteAddress (cp_protocol (config_ (sd_config s))) addr port false;
  so_local channel ep : local_channel_to_socket_ s !! channel = Some ep → ep = MakeInProcChannelAddress channel
}.

Lemma remote_port_ok c channel : ports_ok c → ∃ port, remote_port c channel = Ok port ∧ (0 ≤ port < 2 ^ 32)%Z.
Proof.
  intros (Hne & Hall & Hf & Hs). unfold remote_port. rewrite Forall_forall in Hall.
  repeat case_decide; eauto.
  - destruct (last _) as [p|] eqn:E; [|by apply last_None in E]. exists p. split; [done|]. apply Hall. by apply last_Some_elem_of.
  - destruct (cp_broker_ports (config_ c)) as [|p ps]; [done|]. exists p. split; [done|]. apply Hall. left.
Qed.

Lemma GetRemoteSocket_ok s m channel addr :
  sender_ok s → ports_ok (sd_config s) → (0 ≤ m < 2 ^ 31)%Z → address_of_machine (sd_config s) m = Some addr →
  ∃ ep s', GetRemoteSocket s m channel = Ok (ep, s') ∧ endpoint_of (sd_config s) m channel = Some ep ∧
    sender_ok s' ∧ sd_config s' = sd_config s.
Proof.
  intros [Hr Hl] Hp Hm Ha. destruct (remote_port_ok _ channel Hp) as (port & Eport & Hport).
  unfold GetRemoteSocket, endpoint_of. rewrite Eport, Ha. simpl. assert (Hi : is_int m) by (unfold is_int; lia).
  destruct (_ !! machine_id_and_port m port) as [ep|] eqn:E.
  - destruct (Hr _ _ _ Hi Hport E) as (addr' & Ha' & ->). rewrite Ha in Ha'. simplify_eq. eexists _, s. by split_and!.
  - rewrite option_guard_True by lia. eexists _, _. split_and!; [done..| |done].
    constructor; [|exact Hl]. simpl. intros m' port' ep Hi' Hport'. rewrite lookup_insert_Some. intros [[Ek <-]|[_ ?]]; [|by apply Hr].
    destruct (key_inj m port m' port' Hi Hi' Hport Hport' Ek) as [-> ->]. eauto.
Qed.

Lemma send_local_ok e channel s :
  sender_ok s → ∃ s', send_local (P := P) e channel s = ([ToLocal (MakeInProcChannelAddress channel) (set_from (local_machine_id (sd_config s)) e)], s') ∧
    sender_ok s' ∧ sd_config s' = sd_config s.
Proof.
  intros [Hr Hl]. unfold send_local.
  assert (E : default (MakeInProcChannelAddress channel) (local_channel_to_socket_ s !! channel) = MakeInProcChannelAddress channel).
  { destruct (_ !! _) eqn:E; [by apply Hl|done]. }
  rewrite E. eexists. split_and!; [done| |done]. constructor; [exact Hr|]. simpl. intros c ep.
  rewrite lookup_insert_Some. intros [[-> <-]|[_ ?]]; [done|by apply Hl].
Qed.

(** The message a machine gets from [Send] of a list. *)
Definition frame_for (c : Configuration) (e : @Envelope P) (channel : Channel) (m : MachineId) : option (@sending P) :=
  ep ← endpoint_of c m channel; Some (ToRemote ep (SendSerializedProto pack e (local_machine_id c) channel)).

Lemma send_buffers e channel ms out s :
  sender_ok s → ports_ok (sd_config s) →
  Forall (λ m, 0 ≤ m < 2 ^ 31 ∧ is_Some (address_of_machine (sd_config s) m))%Z ms →
  ∃ outs s', rfoldl (send_buffer (pack e) channel) (out, s) ms = Ok (out ++ outs, s') ∧
    Forall2 (λ m o, frame_for (sd_config s) e channel m = Some o) ms outs ∧ sender_ok s' ∧ sd_config s' = sd_config s.
Proof.
  intros Hs Hp. revert out s Hs Hp. induction ms as [|m ms IH]; intros out s Hs Hp Hall.
  { exists [], s. simpl. rewrite app_nil_r. by split_and!. }
  apply Forall_cons in Hall as [[Hm [addr Ha]] Hall].
  destruct (GetRemoteSocket_ok s m channel addr Hs Hp Hm Ha) as (ep & s1 & E & Hep & Hs1 & Hc).
  assert (Estep : send_buffer (pack e) channel (out, s) m =
    Ok (out ++ [ToRemote (P := P) ep (SendAddressedBuffer (pack e) (local_machine_id (sd_config s1)) channel)], s1)).
  { unfold send_buffer. cbn [fst snd]. by rewrite E. }
  cbn [rfoldl]. rewrite Estep. cbn [mbind result_bind].
  destruct (IH (out ++ [ToRemote ep (SendAddressedBuffer (pack e) (local_machine_id (sd_config s1)) channel)]) s1) as (outs & s2 & E2 & Hm2 & Hs2 & Hc2);
    rewrite ?Hc; [done..|].
  rewrite Hc in *. eexists _, s2. rewrite E2. split_and!; [by rewrite <-app_assoc| |done..].
  constructor; [|done]. unfold frame_for. by rewrite Hep.
Qed.

Hypothesis unpack_pack : ∀ e, unpack (pack e) = (e, true).

Definition is_raw (e : @Envelope P) : bool := match env_type e with kRaw _ => true | _ => false end.

Lemma set_from_u32 m (e : @Envelope P) : set_from (u32 m) e = set_from m e.
Proof. unfold set_from, wrapu. by rewrite Z.mod_mod. Qed.

(** The two ways in: a module with a port of its own, and a channel of the broker. *)
Lemma received_by_module e m channel :
  is_int m → DeserializeEnvelope unpack (SendSerializedProto pack e m channel) = Some (set_from m e).
Proof.
  intros Hm. unfold DeserializeEnvelope, SendSerializedProto. rewrite frame_body, unpack_pack, frame_machine by done. done.
Qed.

Lemma received_by_channel e m channel send_raw :
  is_int m → is_raw e = false →
  ∃ w, ForwardMessage unpack send_raw (SendSerializedProto pack e m channel) = Some w ∧
    OnEnvelopeReceived unpack (Some w) = OnEnvelopeReceived unpack (Some (set_from m e)).
Proof.
  intros Hm He. unfold ForwardMessage, SendSerializedProto. rewrite frame_machine by done. simpl. destruct send_raw.
  - eexists. split; [done|]. unfold OnEnvelopeReceived, unwrap. simpl. rewrite frame_body, unpack_pack, set_from_u32.
    unfold is_raw in He. simpl. destruct (env_type e) eqn:Q; simpl; by rewrite ?Q.
  - rewrite frame_body, unpack_pack. by eexists.
Qed.

(** The broker threads of the machine a message is sent to: the one that is bound to the port,
    and, for a tag, the one the workers tell about their redirections. *)
Lemma bound_thread c channels channel port addr :
  remote_port c channel = Ok port → channel ≠ kForwarderChannel → channel ≠ kSequencerChannel → local_address_ c = addr →
  let i := if decide (kMaxChannel ≤ channel)%Z then pred (length (cp_broker_ports (config_ c))) else 0 in
  (StartInNewThreads {| br_config := c; br_channels_ := channels; br_running_ := false |}).1 !! i =
  Some (MakeInProcChannelAddress (MakeChannel (Z.of_nat i)), MakeRemoteAddress (cp_protocol (config_ c)) addr port true, channels).
Proof.
  intros Hp Hf Hs <-. simpl. rewrite list_lookup_imap. unfold remote_port in Hp.
  destruct (decide (kMaxChannel ≤ channel)%Z).
  - rewrite last_lookup in Hp. destruct (_ !! _) eqn:E; simpl in *; [|done]. by simplify_eq.
  - destruct (decide (channel = kForwarderChannel)), (decide (channel = kSequencerChannel)); try done.
    destruct (cp_broker_ports (config_ c)); simpl in *; [done|by simplify_eq].
Qed.

(** A thread that has the channel forwards a message for it; one for a tag goes to the channel
    that the tag was redirected to. *)
Lemma handle_to_channel channels channel frame b :
  ParseChannel frame = Some channel → channels_ b = make_channels channels →
  ((channel < kMaxChannel)%Z → is_Some (make_channels channels !! channel) →
    forwarded (HandleIncomingMessage frame b) = forwarded b ++ [(channel, frame)]) ∧
  ((kMaxChannel ≤ channel)%Z → ∀ chan entry, is_Some (make_channels channels !! chan) →
    redirect_ b !! channel = Some entry → rd_to entry = Some chan →
    forwarded (HandleIncomingMessage frame b) = forwarded b ++ [(chan, frame)]).
Proof.
  intros Hp Hc. unfold HandleIncomingMessage. rewrite Hp. split.
  - intros Hlt Hs. rewrite decide_False by lia. unfold to_channel. by rewrite Hc, decide_True.
  - intros Hge chan entry Hs He Ht. rewrite decide_True by lia. rewrite He. simpl. rewrite Ht. unfold to_channel. simpl.
    by rewrite Hc, decide_True.
Qed.

(** C20. A module's message to another machine arrives: [Send] puts one frame on the socket of
    the machine and of the port that serves the channel, whatever was sent before. The forwarder and
    the sequencer have ports of their own. For another module it is the port of the first broker
    thread, which forwards the frame to the channel; for a tag of a worker it is the port of the very
    thread that the workers of that machine send their redirections to, and this thread forwards
    the frame to the channel that the tag is redirected to. What the module there reacts
    to is the envelope that was sent, marked with the machine it came from, both through a port of
    its own and through the broker, raw or not. *)
Theorem message_delivery e m channel s addr c' channels :
  sender_ok s → ports_ok (sd_config s) → (0 ≤ m < 2 ^ 31)%Z → (0 ≤ channel < 2 ^ 64)%Z →
  address_of_machine (sd_config s) m = Some addr → is_int (local_machine_id (sd_config s)) →
  m ≠ local_machine_id (sd_config s) → is_raw e = false →
  config_ c' = config_ (sd_config s) → local_address_ c' = addr →
  let from := local_machine_id (sd_config s) in
  ∃ port frame s',
    send_to pack e m channel s = Ok ([ToRemote (MakeRemoteAddress (cp_protocol (config_ c')) addr port false) frame], s') ∧
    sender_ok s' ∧ ParseChannel frame = Some channel ∧
    DeserializeEnvelope unpack frame = Some (set_from from e) ∧
    (∀ send_raw, ∃ w, ForwardMessage unpack send_raw frame = Some w ∧
      OnEnvelopeReceived unpack (Some w) = OnEnvelopeReceived unpack (Some (set_from from e))) ∧
    if decide (channel = kForwarderChannel) then port = cp_forwarder_port (config_ c')
    else if decide (channel = kSequencerChannel) then port = cp_sequencer_port (config_ c')
    else ∃ i internal,
      (StartInNewThreads {| br_config := c'; br_channels_ := channels; br_running_ := false |}).1 !! i =
        Some (internal, MakeRemoteAddress (cp_protocol (config_ c')) addr port true, channels) ∧
      (∀ b, channels_ b = make_channels channels →
        if decide (channel < kMaxChannel)%Z
        then is_Some (make_channels channels !! channel) →
             forwarded (HandleIncomingMessage frame b) = forwarded b ++ [(channel, frame)]
        else ∀ chan entry, is_Some (make_channels channels !! chan) → redirect_ b !! channel = Some entry → rd_to entry = Some chan →
             forwarded (HandleIncomingMessage frame b) = forwarded b ++ [(chan, frame)]) ∧
      if decide (channel < kMaxChannel)%Z then i = 0
      else ∀ redirect worker, sender_ok worker → ∃ worker',
             send_local (P := P) redirect (redirect_channel c') worker =
               ([ToLocal internal (set_from (local_machine_id (sd_config worker)) redirect)], worker').
Proof.
  intros Hs Hp Hm Hch Ha Hl Hne He Ec Eaddr. cbv zeta.
  destruct (GetRemoteSocket_ok s m channel addr Hs Hp Hm Ha) as (ep & s' & E & Hep & Hs' & Hc').
  destruct (remote_port_ok _ channel Hp) as (port & Eport & _). unfold endpoint_of in Hep. rewrite Eport, Ha in Hep. simplify_eq.
  assert (Eport' : remote_port c' channel = Ok port) by (unfold remote_port in *; by rewrite Ec).
  exists port, (SendSerializedProto pack e (local_machine_id (sd_config s)) channel), s'. split_and!.
  - unfold send_to, send_remote. destruct (decide (m = _)) as [?|_]; [done|]. rewrite E. cbn [mbind result_bind]. by rewrite Hc', Ec.
  - done.
  - by apply frame_channel.
  - by apply received_by_module.
  - intros. by apply received_by_channel.
  - destruct (decide (channel = kForwarderChannel)) as [->|]; [by injection Eport' as <-|].
    destruct (decide (channel = kSequencerChannel)) as [->|]; [by injection Eport' as <-|].
    pose proof (bound_thread c' channels channel port _ Eport' ltac:(done) ltac:(done) ltac:(done)) as Hb. cbv zeta in Hb.
    eexists _, _. split; [exact Hb|]. split.
    + intros b Hb'. destruct (handle_to_channel channels channel (SendSerializedProto pack e (local_machine_id (sd_config s)) channel) b)
        as [H1 H2]; [by apply frame_channel|done|].
      destruct (decide (channel < kMaxChannel)%Z); [by apply H1|apply H2; lia].
    + destruct (decide (channel < kMaxChannel)%Z); [by rewrite decide_False by lia|]. rewrite decide_True by lia.
      intros redirect worker Hw. destruct (send_local_ok redirect (redirect_channel c') worker Hw) as (w' & E' & _).
      exists w'. rewrite E'. do 3 f_equal. unfold redirect_channel. do 2 f_equal.
      assert (cp_broker_ports (config_ c') ≠ []) by (rewrite Ec; apply Hp). destruct (cp_broker_ports (config_ c')); [done|simpl; lia].
Qed.

(** [Send] to several machines: one frame for each other machine, in the order of the list, and
    the envelope itself to the local channel if this machine is among them. *)
Lemma send_all_ok e ms channel s :
  sender_ok s → ports_ok (sd_config s) →
  Forall (λ m, 0 ≤ m < 2 ^ 31 ∧ is_Some (address_of_machine (sd_config s) m))%Z ms →
  let local := local_machine_id (sd_config s) in
  ∃ outs s', send_all pack e ms channel s =
      Ok (outs ++ (if decide (local ∈ ms) then [ToLocal (MakeInProcChannelAddress channel) (set_from local e)] else []), s') ∧
    Forall2 (λ m o, frame_for (sd_config s) e channel m = Some o) (filter (λ m, m ≠ local) ms) outs ∧ sender_ok s'.
Proof.
  intros Hs Hp Hall. cbv zeta.
  destruct (send_buffers e channel (filter (λ m, m ≠ local_machine_id (sd_config s)) ms) [] s Hs Hp) as (outs & s1 & E & Hf & Hs1 & Hc).
  { rewrite Forall_forall in *. intros m [_ ?]%list_elem_of_filter. auto. }
  unfold send_all. rewrite E. cbn [mbind result_bind app]. destruct (send_local_ok e channel s1 Hs1) as (s2 & E2 & Hs2 & _).
  rewrite Hc in E2. destruct (decide _); [rewrite E2; by exists outs, s2|]. exists outs, s1. by rewrite app_nil_r.
Qed.
End delivery.

(** Messages without other contents, and a way to write them. *)
Definition wire_code (e : @Envelope unit) : Z * (unit + (Z * Z * Z + Z * Z * bool + unit) + (Z * Z + unit) + list ascii) :=
  (from e, match env_type e with
           | TYPE_NOT_SET => inl (inl (inl ()))
           | kRequest (Ping t g c) => inl (inl (inr (inl (inl (t, g, c)))))
           | kRequest (BrokerRedirect t c s) => inl (inl (inr (inl (inr (t, c, s)))))
           | kRequest (OtherRequest _) => inl (inl (inr (inr ())))
           | kResponse (Pong t g) => inl (inr (inl (t, g)))
           | kResponse (OtherResponse _) => inl (inr (inr ()))
           | kRaw r => inr r
           end).

Definition wire_decode (x : Z * (unit + (Z * Z * Z + Z * Z * bool + unit) + (Z * Z + unit) + list ascii)) : @Envelope unit :=
  {| from := x.1;
     env_type := match x.2 with
                 | inl (inl (inl _)) => TYPE_NOT_SET
                 | inl (inl (inr (inl (inl (t, g, c))))) => kRequest (Ping t g c)
                 | inl (inl (inr (inl (inr (t, c, s))))) => kRequest (BrokerRedirect t c s)
                 | inl (inl (inr (inr _))) => kRequest (OtherRequest ())
                 | inl (inr (inl (t, g))) => kResponse (Pong t g)
                 | inl (inr (inr _)) => kResponse (OtherResponse ())
                 | inr r => kRaw r
                 end |}.

Fixpoint positive_bytes (p : positive) : list ascii :=
  match p with
  | xH => []
  | xO p => "0"%char :: positive_bytes p
  | xI p => "1"%char :: positive_bytes p
  end.

Fixpoint bytes_positive (l : list ascii) : positive :=
  match l with
  | [] => xH
  | c :: l => if decide (c = "1"%char) then xI (bytes_positive l) else xO (bytes_positive l)
  end.

Definition wire_pack (e : @Envelope unit) : list ascii := positive_bytes (encode (wire_code e)).

Definition wire_unpack (l : list ascii) : @Envelope unit * bool :=
  match decode (bytes_positive l) with Some x => (wire_decode x, true) | None => (empty_envelope, false) end.

Lemma wire_roundtrip e : wire_unpack (wire_pack e) = (e, true).
Proof.
  unfold wire_unpack, wire_pack. assert (E : ∀ p, bytes_positive (positive_bytes p) = p) by (induction p; simpl; congruence).
  rewrite E, decode_encode. f_equal. by destruct e as [[|[|?|[]]|[|[]]|] ?].
Qed.

Definition example_sender (c : Configuration) : Sender :=
  {| sd_config := c; machine_id_and_port_to_sockets_ := ∅; local_channel_to_socket_ := ∅ |}.

(** Machine 2 sends a ping to the channel 4 of machine 1, which answers it. *)
Lemma message_delivery_witness :
  let e := {| env_type := kRequest (Ping 7 1 4); from := 0 |} in
  let c' := {| config_ := example_proto; local_address_ := "a1"; local_replica_ := 0; local_partition_ := 1;
               all_addresses_ := ["a0"; "a1"; "b0"; "b1"]; replication_order_ := [] |} in
  ∃ port frame s' w,
    send_to wire_pack e 1 4 (example_sender example_config) = Ok ([ToRemote (MakeRemoteAddress "tcp" "a1" port false) frame], s') ∧
    ForwardMessage wire_unpack true frame = Some w ∧
    OnEnvelopeReceived wire_unpack (Some w) = ([SendEnvelopeTo {| env_type := kResponse (Pong 7 1); from := 0 |} 2 4], true).
Proof.
  intros e c'.
  destruct (message_delivery wire_pack wire_unpack wire_roundtrip e 1 4 (example_sender example_config) "a1" c' [])
    as (port & frame & s' & E & _ & _ & _ & Hw & _).
  - by constructor.
  - split_and!; [done|repeat constructor; done|done..].
  - done.
  - done.
  - reflexivity.
  - vm_compute. by split.
  - by vm_compute.
  - reflexivity.
  - reflexivity.
  - reflexivity.
  - destruct (Hw true) as (w & Ew & Eo). exists port, frame, s', w. split_and!; [|done|rewrite Eo; vm_compute; reflexivity].
    by rewrite E.
Defined.
