(* ===== verification/StorageAdapter.v ===== *)
(** * Storage adapters of TPC-C

    [execution/tpcc/storage_adapter.h] and [storage_adapter.cpp]: the interface through
    which tables reach stored values, and its implementations over a transaction, over the
    keys a transaction will need, and over the storage. *)
From stdpp Require Import fin_map_dom.
From S2P Require Import Prelude Types Execution.

(** ** The interface *)

Class StorageAdapter (A : Type) := {
  sa_Read : Key → M A (option Value);
  sa_Insert : Key → Value → M A bool;
  sa_Update : Key → (Value → result Value) → M A bool;
  sa_Delete : Key → M A bool
}.

(** ** [TxnStorageAdapter] *)

Record TxnStorageAdapter := { ta_txn : Transaction; ta_index : gmap string nat }.

(** [emplace] keeps the first position of a key. *)
Definition emplace (m : gmap string nat) (x : nat * KeyValueEntry) : gmap string nat :=
  match m !! key x.2 with Some _ => m | None => <[key x.2 := x.1]> m end.

Definition MakeTxnStorageAdapter (t : Transaction) : TxnStorageAdapter :=
  {| ta_txn := t; ta_index := foldl emplace ∅ (imap pair (keys t)) |}.

Definition CheckIndexSize (a : TxnStorageAdapter) : result unit :=
  if decide (size (ta_index a) = length (keys (ta_txn a))) then Ok ()
  else Err (Fatal "Size of key list in the transaction has changed").

Definition set_txn_keys (ks : list KeyValueEntry) (a : TxnStorageAdapter) : TxnStorageAdapter :=
  {| ta_txn := set_keys ks (ta_txn a); ta_index := ta_index a |}.

Definition ta_Read (k : Key) : M TxnStorageAdapter (option Value) := λ a,
  _ ← CheckIndexSize a;
  match ta_index a !! k with
  | None => Ok (None, a)
  | Some i => v ← entry_at (keys (ta_txn a)) i; Ok (Some (value v), a)
  end.

Definition ta_Insert (k : Key) (x : Value) : M TxnStorageAdapter bool := λ a,
  _ ← CheckIndexSize a;
  match ta_index a !! k with
  | None => Ok (false, a)
  | Some i =>
    v ← entry_at (keys (ta_txn a)) i;
    if decide (type v ≠ WRITE) then Ok (false, a)
    else Ok (true, set_txn_keys (set_entry_at (keys (ta_txn a)) i (set_new_value x v)) a)
  end.

Definition ta_Update (k : Key) (update_fn : Value → result Value) : M TxnStorageAdapter bool := λ a,
  _ ← CheckIndexSize a;
  match ta_index a !! k with
  | None => Ok (false, a)
  | Some i =>
    v ← entry_at (keys (ta_txn a)) i;
    if decide (type v ≠ WRITE ∨ value v = EmptyString) then Ok (false, a)
    else x ← update_fn (value v);
         Ok (true, set_txn_keys (set_entry_at (keys (ta_txn a)) i (set_new_value x v)) a)
  end.

(** The loop of [Delete] moves the entry at [i] to the end. *)
Fixpoint shift_loop (n i : nat) (ks : list KeyValueEntry) (index : gmap string nat) :
    result (list KeyValueEntry * gmap string nat) :=
  match n with
  | 0 => Ok (ks, index)
  | S n =>
    match ks !! i, ks !! S i with
    | Some x, Some y => shift_loop n (S i) (<[S i := x]> (<[i := y]> ks)) (<[key y := i]> index)
    | _, _ => Err (Undef "Transaction::mutable_keys")
    end
  end.

Definition ta_Delete (k : Key) : M TxnStorageAdapter bool := λ a,
  _ ← CheckIndexSize a;
  match ta_index a !! k with
  | None => Ok (false, a)
  | Some i =>
    let ks := keys (ta_txn a) in
    '(ks, index) ← shift_loop (length ks - 1 - i) i ks (ta_index a);
    Ok (true,
        {| ta_txn := set_deleted_keys (deleted_keys (ta_txn a) ++ [k])
                       (set_keys (take (length ks - 1) ks) (ta_txn a));
           ta_index := delete k index |})
  end.

#[global] Instance TxnStorageAdapter_ops : StorageAdapter TxnStorageAdapter :=
  {| sa_Read := ta_Read; sa_Insert := ta_Insert; sa_Update := ta_Update; sa_Delete := ta_Delete |}.

(** ** [TxnKeyGenStorageAdapter] *)

Record TxnKeyGenStorageAdapter := {
  kg_txn : Transaction;
  kg_index : gmap string KeyType;
  finalized_ : bool
}.

Definition MakeKeyGen (t : Transaction) : TxnKeyGenStorageAdapter :=
  {| kg_txn := t; kg_index := ∅; finalized_ := false |}.

(** [insert] keeps the type a key has. *)
Definition NewReadKey (k : Key) (a : TxnKeyGenStorageAdapter) : TxnKeyGenStorageAdapter :=
  if finalized_ a then a
  else match kg_index a !! k with
  | Some _ => a
  | None => {| kg_txn := kg_txn a; kg_index := <[k := READ]> (kg_index a); finalized_ := false |}
  end.

Definition NewWriteKey (k : Key) (a : TxnKeyGenStorageAdapter) : TxnKeyGenStorageAdapter :=
  if finalized_ a then a
  else {| kg_txn := kg_txn a; kg_index := <[k := WRITE]> (kg_index a); finalized_ := false |}.

#[global] Instance TxnKeyGenStorageAdapter_ops : StorageAdapter TxnKeyGenStorageAdapter :=
  {| sa_Read := λ k a, Ok (None, NewReadKey k a);
     sa_Insert := λ k _ a, Ok (false, NewWriteKey k a);
     sa_Update := λ k _ a, Ok (false, NewWriteKey k a);
     sa_Delete := λ k a, Ok (false, NewWriteKey k a) |}.

Definition new_key (x : Key * KeyType) : KeyValueEntry :=
  {| key := x.1;
     value_entry := {| value := EmptyString; new_value := EmptyString; type := x.2; opt_metadata := None |} |}.

(** [visit] is the order in which the unordered map is iterated. *)
Definition Finialize (visit : gmap string KeyType → list (Key * KeyType)) (a : TxnKeyGenStorageAdapter) :
    TxnKeyGenStorageAdapter :=
  {| kg_txn := set_keys (new_key <$> visit (kg_index a)) (kg_txn a); kg_index := kg_index a; finalized_ := true |}.

(** ** [KVStorageAdapter] *)

Section kv_adapter.
  (** [metadata_initializer_->Compute] *)
  Context (compute : Key → result Metadata).

Definition kvs_Read (k : Key) : M Storage (option Value) := λ st, Ok (record_to_string <$> Read st k, st).

Definition kvs_Insert (k : Key) (x : Value) : M Storage bool := λ st,
  m ← compute k;
  Ok (true, (Write st k (SetMetadata m (SetValue x empty_record))).1).

Definition KVStorageAdapter : StorageAdapter Storage :=
  {| sa_Read := kvs_Read;
     sa_Insert := kvs_Insert;
     sa_Update := λ _ _ _, Err (Exn "std::runtime_error: Update is unimplemented in KVStorageAdapter");
     sa_Delete := λ _ _, Err (Exn "std::runtime_error: Delete is unimplemented in KVStorageAdapter") |}.
End kv_adapter.

(** ** The transaction's adapter as a map of entries *)

(** The entries of a transaction by key. *)
Definition entries (t : Transaction) : gmap string ValueEntry :=
  list_to_map ((λ kv, (key kv, value_entry kv)) <$> keys t).

Record adapter_wf (a : TxnStorageAdapter) : Prop := {
  aw_nodup : NoDup (key <$> keys (ta_txn a));
  aw_index k i : ta_index a !! k = Some i ↔ (key <$> keys (ta_txn a)) !! i = Some k
}.

Lemma emplace_all n m ks k i :
  NoDup (key <$> ks) → (∀ kv, kv ∈ ks → m !! key kv = None) →
  foldl emplace m (imap (λ i kv, (n + i, kv)) ks) !! k = Some i ↔
    m !! k = Some i ∨ ∃ j, i = n + j ∧ (key <$> ks) !! j = Some k.
Proof.
  revert n m. induction ks as [|kv ks IH]; intros n m Hnd Hm.
  { simpl. split; [by left|]. intros [?|(j & _ & Hj)]; [done|]. by rewrite lookup_nil in Hj. }
  rewrite fmap_cons in Hnd. apply NoDup_cons in Hnd as [Hnin Hnd]. rewrite imap_cons. cbn [foldl].
  rewrite (imap_ext _ (λ i kv, (S n + i, kv)) ks) by (intros; simpl; f_equal; lia).
  unfold emplace at 2. cbn [fst snd]. rewrite (Hm kv) by set_solver. rewrite Nat.add_0_r. rewrite IH; [|done|].
  - rewrite lookup_insert. destruct (decide (key kv = k)) as [E|E].
    + split.
      * intros [[= <-]|(j & -> & Hj)].
        -- right. exists 0. rewrite Nat.add_0_r. simpl. by rewrite E.
        -- exfalso. apply Hnin. rewrite E. by eapply list_elem_of_lookup_2.
      * intros [Hi|([|j] & -> & Hj)]; simpl in *.
        -- rewrite <-E, Hm in Hi by set_solver. done.
        -- left. f_equal. lia.
        -- right. exists j. split; [lia|done].
    + split.
      * intros [?|(j & -> & Hj)]; [by left|]. right. exists (S j). split; [lia|done].
      * intros [?|([|j] & -> & Hj)]; [by left|simpl in Hj; congruence|]. right. exists j. split; [lia|done].
  - intros kv' Hkv'. rewrite lookup_insert_ne; [apply Hm; set_solver|]. intros E. apply Hnin. rewrite E.
    by apply list_elem_of_fmap_2.
Qed.

Lemma make_adapter_wf t : NoDup (key <$> keys t) → adapter_wf (MakeTxnStorageAdapter t).
Proof.
  intros Hnd. split; [done|]. intros k i. simpl. change (imap pair (keys t)) with (imap (λ i kv, (0 + i, kv)) (keys t)).
  rewrite emplace_all by done. split.
  - intros [Hi|(j & -> & Hj)]; [by rewrite lookup_empty in Hi|done].
  - intros Hi. right. by exists i.
Qed.

Lemma CheckIndexSize_ok a : adapter_wf a → CheckIndexSize a = Ok ().
Proof.
  intros [Hnd Hidx]. unfold CheckIndexSize. rewrite decide_True; [done|]. rewrite <-length_map_to_list.
  rewrite <-(length_fmap key). rewrite <-(length_imap (λ i k, (k, i)) (key <$> keys (ta_txn a))).
  apply Permutation_length, NoDup_Permutation.
  - apply NoDup_map_to_list.
  - apply NoDup_fmap_1 with (f := fst). rewrite fmap_imap.
    rewrite (imap_ext _ (const (λ k, k)) (key <$> keys (ta_txn a))) by done. by rewrite imap_const, list_fmap_id.
  - intros [k i]. rewrite elem_of_map_to_list, Hidx, elem_of_lookup_imap. split.
    + intros Hi. exists i, k. done.
    + intros (i' & k' & [= -> ->] & Hi). done.
Qed.

Lemma entries_lookup t k v :
  NoDup (key <$> keys t) → entries t !! k = Some v ↔ ∃ i kv, keys t !! i = Some kv ∧ key kv = k ∧ value_entry kv = v.
Proof.
  intros Hnd. unfold entries. rewrite <-elem_of_list_to_map.
  - rewrite list_elem_of_fmap. split.
    + intros (kv & [= -> ->] & [i Hi]%list_elem_of_lookup). by exists i, kv.
    + intros (i & kv & Hi & <- & <-). exists kv. split; [done|]. by eapply list_elem_of_lookup_2.
  - by rewrite <-list_fmap_compose.
Qed.

Lemma index_entry a k :
  adapter_wf a →
  match ta_index a !! k with
  | Some i => ∃ kv, keys (ta_txn a) !! i = Some kv ∧ key kv = k ∧ entries (ta_txn a) !! k = Some (value_entry kv)
  | None => entries (ta_txn a) !! k = None
  end.
Proof.
  intros [Hnd Hidx]. destruct (ta_index a !! k) as [i|] eqn:Ei.
  - apply Hidx in Ei. rewrite list_lookup_fmap in Ei. apply fmap_Some in Ei as (kv & Hkv & ->). exists kv.
    split; [done|]. split; [done|]. apply entries_lookup; [done|]. by exists i, kv.
  - apply eq_None_not_Some. intros [v (i & kv & Hi & <- & <-)%entries_lookup]; [|done].
    assert (ta_index a !! key kv = Some i) by (apply Hidx; by rewrite list_lookup_fmap, Hi). congruence.
Qed.

Lemma set_entry_keys ks i v : key <$> set_entry_at ks i v = key <$> ks.
Proof.
  apply list_eq. intros j. unfold set_entry_at. rewrite !list_lookup_fmap. destruct (decide (i = j)) as [->|Hne].
  - rewrite list_lookup_alter_eq. by destruct (ks !! j).
  - by rewrite list_lookup_alter_ne.
Qed.

(** ** What the operations do to the map of entries *)

(** A fresh adapter, or one with other values of the same keys. *)
Lemma set_txn_keys_wf ks a : adapter_wf a → key <$> ks = key <$> keys (ta_txn a) → adapter_wf (set_txn_keys ks a).
Proof. intros [Hnd Hidx] E. split; simpl; rewrite E; done. Qed.

Lemma set_entry_entries a i kv v :
  adapter_wf a → keys (ta_txn a) !! i = Some kv →
  entries (set_keys (set_entry_at (keys (ta_txn a)) i v) (ta_txn a)) = <[key kv := v]> (entries (ta_txn a)).
Proof.
  intros [Hnd Hidx] Hi. apply map_eq. intros k. apply option_eq. intros w.
  rewrite entries_lookup by (simpl; by rewrite set_entry_keys). simpl. unfold set_entry_at. split.
  - intros (j & kv' & Hj & <- & <-). destruct (decide (i = j)) as [->|Hne].
    + rewrite list_lookup_alter_eq, Hi in Hj. injection Hj as <-. simpl. by rewrite lookup_insert_eq.
    + rewrite list_lookup_alter_ne in Hj by done. rewrite lookup_insert_ne.
      * apply entries_lookup; [done|]. by exists j, kv'.
      * intros E. apply Hne. eapply (NoDup_lookup _ i j (key kv)); [exact Hnd| |]; rewrite list_lookup_fmap, ?Hi, ?Hj; [done|].
        by rewrite E.
  - rewrite lookup_insert. destruct (decide (key kv = k)) as [<-|Hne].
    + intros [= <-]. exists i, (set_value_entry v kv). rewrite list_lookup_alter_eq, Hi. done.
    + intros (j & kv' & Hj & <- & <-)%entries_lookup; [|done]. exists j, kv'. split; [|done].
      rewrite list_lookup_alter_ne; [done|]. intros ->. congruence.
Qed.

Lemma ta_Read_ok k a : adapter_wf a → ta_Read k a = Ok (value <$> entries (ta_txn a) !! k, a).
Proof.
  intros Hwf. unfold ta_Read. rewrite CheckIndexSize_ok by done. cbn [mbind result_bind].
  pose proof (index_entry a k Hwf) as Hi. destruct (ta_index a !! k) as [i|].
  - destruct Hi as (kv & Hi & _ & ->). unfold entry_at. by rewrite Hi.
  - by rewrite Hi.
Qed.

(** Whether a key can be written, and the entry. *)
Definition writable_entry (t : Transaction) (k : Key) : option ValueEntry :=
  match entries t !! k with
  | Some v => if decide (type v = WRITE) then Some v else None
  | None => None
  end.

Definition written (k : Key) (v : ValueEntry) (a a' : TxnStorageAdapter) : Prop :=
  adapter_wf a' ∧ key <$> keys (ta_txn a') = key <$> keys (ta_txn a) ∧
  ta_txn a' = set_keys (keys (ta_txn a')) (ta_txn a) ∧
  entries (ta_txn a') = <[k := v]> (entries (ta_txn a)).

Lemma set_entry_written a i kv v :
  adapter_wf a → keys (ta_txn a) !! i = Some kv →
  written (key kv) v a (set_txn_keys (set_entry_at (keys (ta_txn a)) i v) a).
Proof.
  intros Hwf Hi. split; [|split; [|split]].
  - apply set_txn_keys_wf; [done|]. apply set_entry_keys.
  - apply set_entry_keys.
  - done.
  - by apply set_entry_entries.
Qed.

Lemma ta_Insert_ok k x a :
  adapter_wf a →
  match writable_entry (ta_txn a) k with
  | Some v => ∃ a', ta_Insert k x a = Ok (true, a') ∧ written k (set_new_value x v) a a'
  | None => ta_Insert k x a = Ok (false, a)
  end.
Proof.
  intros Hwf. unfold ta_Insert, writable_entry. rewrite CheckIndexSize_ok by done. cbn [mbind result_bind].
  pose proof (index_entry a k Hwf) as Hi. destruct (ta_index a !! k) as [i|].
  - destruct Hi as (kv & Hi & <- & ->). unfold entry_at. rewrite Hi. cbn [from_option mbind result_bind].
    destruct (decide (type (value_entry kv) = WRITE)) as [E|E].
    + rewrite decide_False by (intros ?; done). eexists. split; [done|]. by apply set_entry_written.
    + by rewrite decide_True.
  - by rewrite Hi.
Qed.

Lemma ta_Update_ok k f a :
  adapter_wf a →
  match writable_entry (ta_txn a) k with
  | Some v =>
    if decide (value v = EmptyString) then ta_Update k f a = Ok (false, a)
    else match f (value v) with
         | Ok x => ∃ a', ta_Update k f a = Ok (true, a') ∧ written k (set_new_value x v) a a'
         | Err e => ta_Update k f a = Err e
         end
  | None => ta_Update k f a = Ok (false, a)
  end.
Proof.
  intros Hwf. unfold ta_Update, writable_entry. rewrite CheckIndexSize_ok by done. cbn [mbind result_bind].
  pose proof (index_entry a k Hwf) as Hi. destruct (ta_index a !! k) as [i|].
  - destruct Hi as (kv & Hi & <- & ->). unfold entry_at. rewrite Hi. cbn [from_option mbind result_bind].
    destruct (decide (type (value_entry kv) = WRITE)) as [E|E].
    + destruct (decide (value (value_entry kv) = EmptyString)) as [E'|E'].
      * rewrite decide_True by (by right). done.
      * rewrite decide_False by (intros [?|?]; done). destruct (f (value (value_entry kv))) as [x|e]; [|done].
        cbn [mbind result_bind]. eexists. split; [done|]. by apply set_entry_written.
    + rewrite decide_True by (by left). done.
  - by rewrite Hi.
Qed.

Lemma shift_loop_ok l1 x l2 idx :
  NoDup (key <$> l2) →
  ∃ idx', shift_loop (length l2) (length l1) (l1 ++ x :: l2) idx = Ok (l1 ++ l2 ++ [x], idx') ∧
    (∀ j kv, l2 !! j = Some kv → idx' !! key kv = Some (length l1 + j)) ∧
    (∀ k, k ∉ key <$> l2 → idx' !! k = idx !! k).
Proof.
  revert l1 idx. induction l2 as [|y l2 IH]; intros l1 idx Hnd; [by exists idx|].
  rewrite fmap_cons in Hnd. apply NoDup_cons in Hnd as [Hnin Hnd]. cbn [length shift_loop].
  rewrite list_lookup_middle by done. rewrite (lookup_app_r l1 (x :: y :: l2)) by lia.
  replace (S (length l1) - length l1) with 1 by lia. cbn [lookup list_lookup].
  assert (El : <[S (length l1):=x]> (<[length l1:=y]> (l1 ++ x :: y :: l2)) = (l1 ++ [y]) ++ x :: l2).
  { rewrite (insert_app_r_alt _ _ (length l1)) by lia. rewrite Nat.sub_diag. simpl.
    rewrite insert_app_r_alt by lia. replace (S (length l1) - length l1) with 1 by lia. simpl. by rewrite <-app_assoc. }
  rewrite El. destruct (IH (l1 ++ [y]) (<[key y:=length l1]> idx) Hnd) as (idx' & Hs & Hin & Hout).
  rewrite length_app in Hs, Hin. cbn [length] in Hs, Hin. rewrite Nat.add_1_r in Hs. rewrite Hs. exists idx'.
  split; [by rewrite <-app_assoc|]. split.
  - intros [|j] kv Hj.
    + simpl in Hj. injection Hj as <-. rewrite Hout by done. rewrite lookup_insert_eq. f_equal. lia.
    + rewrite (Hin j kv Hj). f_equal. lia.
  - intros k Hk. rewrite fmap_cons, not_elem_of_cons in Hk. destruct Hk as [Hk1 Hk2]. rewrite Hout by done.
    by rewrite lookup_insert_ne.
Qed.

Lemma filter_out_middle l1 kv l2 :
  NoDup (key <$> (l1 ++ kv :: l2)) → filter (λ x, key x ≠ key kv) (l1 ++ kv :: l2) = l1 ++ l2.
Proof.
  rewrite fmap_app, fmap_cons. intros (H1 & H12 & H2)%NoDup_app. apply NoDup_cons in H2 as [H2 _].
  rewrite filter_app, filter_cons, decide_False by (intros ?; done). f_equal; apply filter_all; intros x Hx E.
  - apply (H12 (key x)); [by apply list_elem_of_fmap_2|]. rewrite E. set_solver.
  - apply H2. rewrite <-E. by apply list_elem_of_fmap_2.
Qed.

(** [Delete] removes the key and keeps the order of the others. *)
Lemma ta_Delete_ok k a :
  adapter_wf a →
  if decide (is_Some (entries (ta_txn a) !! k)) then
    ∃ a', ta_Delete k a = Ok (true, a') ∧ adapter_wf a' ∧
      ta_txn a' = set_deleted_keys (deleted_keys (ta_txn a) ++ [k])
        (set_keys (filter (λ x, key x ≠ k) (keys (ta_txn a))) (ta_txn a))
  else ta_Delete k a = Ok (false, a).
Proof.
  intros Hwf. unfold ta_Delete. rewrite CheckIndexSize_ok by done. cbn [mbind result_bind].
  pose proof (index_entry a k Hwf) as Hi. destruct (ta_index a !! k) as [i|] eqn:Ei; [|by rewrite Hi, decide_False by (intros [? ?]; done)].
  destruct Hi as (kv & Hi & <- & ->). rewrite decide_True by (by eexists). destruct Hwf as [Hnd Hidx].
  destruct (list_elem_of_split_length _ _ _ Hi) as (l1 & l2 & Hks & ->). rewrite Hks in *. rewrite length_app. cbn [length].
  replace (length l1 + S (length l2) - 1 - length l1) with (length l2) by lia.
  pose proof Hnd as Hnd'. rewrite fmap_app, fmap_cons in Hnd'. apply NoDup_app in Hnd' as (Hn1 & Hn12 & Hn2).
  apply NoDup_cons in Hn2 as [Hnk Hn2].
  destruct (shift_loop_ok l1 kv l2 (ta_index a) Hn2) as (idx' & -> & Hin & Hout). cbn [mbind result_bind].
  rewrite !length_app. cbn [length]. rewrite (app_assoc l1 l2 [kv]).
  rewrite take_app_le by (rewrite length_app; lia). rewrite take_ge by (rewrite length_app; lia).
  eexists. split; [done|]. rewrite filter_out_middle by done. split; [|done]. split; simpl.
  - rewrite fmap_app. apply NoDup_app. split; [done|]. split; [|done]. intros x H1 H2. apply (Hn12 x H1). set_solver.
  - intros k i. rewrite lookup_delete_Some, fmap_app. split.
    + intros [Hne Hi']. destruct (decide (k ∈ key <$> l2)) as [(kv' & -> & [j Hj]%list_elem_of_lookup)%list_elem_of_fmap|Hk].
      * rewrite (Hin j kv' Hj) in Hi'. injection Hi' as <-. rewrite lookup_app_r by (rewrite length_fmap; lia).
        rewrite length_fmap. replace (length l1 + j - length l1) with j by lia. by rewrite list_lookup_fmap, Hj.
      * rewrite Hout in Hi' by done. apply Hidx in Hi'. rewrite fmap_app, fmap_cons in Hi'.
        apply lookup_app_Some in Hi' as [Hi'|[Hge Hi']]; [by apply lookup_app_l_Some|].
        apply lookup_cons_Some in Hi' as [[_ E]|[_ Hi']]; [congruence|]. apply list_elem_of_lookup_2 in Hi'. done.
    + intros Hi'. apply lookup_app_Some in Hi' as [Hi'|[Hge Hi']].
      * assert (Hk1 : k ∈ key <$> l1) by (by eapply list_elem_of_lookup_2).
        split; [intros <-; apply (Hn12 (key kv) Hk1); set_solver|]. rewrite Hout by (intros ?; apply (Hn12 k Hk1); set_solver).
        apply Hidx. rewrite fmap_app. by apply lookup_app_l_Some.
      * rewrite length_fmap in *. assert (Hk2 : k ∈ key <$> l2) by (by eapply list_elem_of_lookup_2).
        split; [intros <-; done|]. rewrite list_lookup_fmap in Hi'. apply fmap_Some in Hi' as (kv' & Hj & ->).
        rewrite (Hin _ _ Hj). f_equal. lia.
Qed.
