(* ===== verification/Table.v ===== *)
(** * Tables of TPC-C

    [execution/tpcc/table.h]: rows over a storage adapter. A grouped table keeps the columns
    of a row in one value, the others keep one value for each column. A column is its number
    in the schema. *)
From Stdlib Require Import Ascii.
From S2P Require Import Prelude Types Sharder Execution Scalar StorageAdapter.

Inductive TableId := WAREHOUSE | DISTRICT | CUSTOMER | HISTORY | NEW_ORDER | ORDER | ORDER_LINE | ITEM | STOCK.

Definition table_number (t : TableId) : Z :=
  match t with
  | WAREHOUSE => 0 | DISTRICT => 1 | CUSTOMER => 2 | HISTORY => 3 | NEW_ORDER => 4
  | ORDER => 5 | ORDER_LINE => 6 | ITEM => 7 | STOCK => 8
  end.

Record Schema := {
  kId : TableId;
  kNumColumns : nat;
  kPKeySize : nat;
  kGroupedColumns : bool;
  ColumnTypes : list DataType
}.

(** ** Schemas *)

Definition WarehouseSchema : Schema := {|
  kId := WAREHOUSE; kNumColumns := 5; kPKeySize := 1; kGroupedColumns := false;
  ColumnTypes :=
    [Int32Type;          (* ID *)
     FixedTextType 10;   (* NAME *)
     FixedTextType 71;   (* ADDRESS *)
     Int32Type;          (* TAX *)
     Int64Type]          (* YTD *)
|}.

Module Warehouse.
Definition ID := 0.
Definition NAME := 1.
Definition ADDRESS := 2.
Definition TAX := 3.
Definition YTD := 4.
End Warehouse.

Definition DistrictSchema : Schema := {|
  kId := DISTRICT; kNumColumns := 7; kPKeySize := 2; kGroupedColumns := false;
  ColumnTypes :=
    [Int32Type;          (* W_ID *)
     Int8Type;           (* ID *)
     FixedTextType 10;   (* NAME *)
     FixedTextType 71;   (* ADDRESS *)
     Int32Type;          (* TAX *)
     Int64Type;          (* YTD *)
     Int32Type]          (* NEXT_O_ID *)
|}.

Module District.
Definition W_ID := 0.
Definition ID := 1.
Definition NAME := 2.
Definition ADDRESS := 3.
Definition TAX := 4.
Definition YTD := 5.
Definition NEXT_O_ID := 6.
End District.

Definition CustomerSchema : Schema := {|
  kId := CUSTOMER; kNumColumns := 15; kPKeySize := 3; kGroupedColumns := false;
  ColumnTypes :=
    [Int32Type;          (* W_ID *)
     Int8Type;           (* D_ID *)
     Int32Type;          (* ID *)
     FixedTextType 34;   (* FULL_NAME *)
     FixedTextType 71;   (* ADDRESS *)
     FixedTextType 16;   (* PHONE *)
     Int64Type;          (* SINCE *)
     FixedTextType 2;    (* CREDIT *)
     Int64Type;          (* CREDIT_LIM *)
     Int32Type;          (* DISCOUNT *)
     Int64Type;          (* BALANCE *)
     Int64Type;          (* YTD_PAYMENT *)
     Int16Type;          (* PAYMENT_CNT *)
     Int16Type;          (* DELIVERY_CNT *)
     FixedTextType 250]  (* DATA *)
|}.

Module Customer.
Definition W_ID := 0.
Definition D_ID := 1.
Definition ID := 2.
Definition FULL_NAME := 3.
Definition ADDRESS := 4.
Definition PHONE := 5.
Definition SINCE := 6.
Definition CREDIT := 7.
Definition CREDIT_LIM := 8.
Definition DISCOUNT := 9.
Definition BALANCE := 10.
Definition YTD_PAYMENT := 11.
Definition PAYMENT_CNT := 12.
Definition DELIVERY_CNT := 13.
Definition DATA := 14.
End Customer.

Definition HistorySchema : Schema := {|
  kId := HISTORY; kNumColumns := 9; kPKeySize := 4; kGroupedColumns := true;
  ColumnTypes :=
    [Int32Type;          (* W_ID *)
     Int8Type;           (* D_ID *)
     Int32Type;          (* C_ID *)
     Int32Type;          (* ID *)
     Int8Type;           (* C_D_ID *)
     Int32Type;          (* C_W_ID *)
     Int64Type;          (* DATE *)
     Int32Type;          (* AMOUNT *)
     FixedTextType 24]   (* DATA *)
|}.

Module History.
Definition DATA := 8.
End History.

Definition NewOrderSchema : Schema := {|
  kId := NEW_ORDER; kNumColumns := 4; kPKeySize := 3; kGroupedColumns := true;
  ColumnTypes :=
    [Int32Type;          (* W_ID *)
     Int8Type;           (* D_ID *)
     Int32Type;          (* O_ID *)
     Int8Type]           (* DUMMY *)
|}.

Definition OrderSchema : Schema := {|
  kId := ORDER; kNumColumns := 8; kPKeySize := 3; kGroupedColumns := true;
  ColumnTypes :=
    [Int32Type;          (* W_ID *)
     Int8Type;           (* D_ID *)
     Int32Type;          (* ID *)
     Int32Type;          (* C_ID *)
     Int64Type;          (* ENTRY_D *)
     Int8Type;           (* CARRIER_ID *)
     Int8Type;           (* OL_CNT *)
     Int8Type]           (* ALL_LOCAL *)
|}.

Module Order.
Definition C_ID := 3.
Definition ENTRY_D := 4.
Definition CARRIER_ID := 5.
Definition OL_CNT := 6.
Definition ALL_LOCAL := 7.
End Order.

Definition OrderLineSchema : Schema := {|
  kId := ORDER_LINE; kNumColumns := 10; kPKeySize := 4; kGroupedColumns := true;
  ColumnTypes :=
    [Int32Type;          (* W_ID *)
     Int8Type;           (* D_ID *)
     Int32Type;          (* O_ID *)
     Int8Type;           (* NUMBER *)
     Int32Type;          (* I_ID *)
     Int32Type;          (* SUPPLY_W_ID *)
     Int64Type;          (* DELIVERY_D *)
     Int8Type;           (* QUANTITY *)
     Int32Type;          (* AMOUNT *)
     FixedTextType 24]   (* DIST_INFO *)
|}.

Module OrderLine.
Definition NUMBER := 3.
Definition I_ID := 4.
Definition SUPPLY_W_ID := 5.
Definition DELIVERY_D := 6.
Definition QUANTITY := 7.
Definition AMOUNT := 8.
Definition DIST_INFO := 9.
End OrderLine.

Definition ItemSchema : Schema := {|
  kId := ITEM; kNumColumns := 6; kPKeySize := 2; kGroupedColumns := true;
  ColumnTypes :=
    [Int32Type;          (* W_ID *)
     Int32Type;          (* ID *)
     Int32Type;          (* IM_ID *)
     FixedTextType 24;   (* NAME *)
     Int32Type;          (* PRICE *)
     FixedTextType 50]   (* DATA *)
|}.

Module Item.
Definition NAME := 3.
Definition PRICE := 4.
Definition DATA := 5.
End Item.

Definition StockSchema : Schema := {|
  kId := STOCK; kNumColumns := 8; kPKeySize := 2; kGroupedColumns := true;
  ColumnTypes :=
    [Int32Type;          (* W_ID *)
     Int32Type;          (* I_ID *)
     Int16Type;          (* QUANTITY *)
     FixedTextType 240;  (* ALL_DIST *)
     Int32Type;          (* YTD *)
     Int16Type;          (* ORDER_CNT *)
     Int16Type;          (* REMOTE_CNT *)
     FixedTextType 50]   (* DATA *)
|}.

Module Stock.
Definition QUANTITY := 2.
Definition ALL_DIST := 3.
Definition YTD := 4.
Definition ORDER_CNT := 5.
Definition REMOTE_CNT := 6.
Definition DATA := 7.
End Stock.

Definition schemas : list Schema :=
  [WarehouseSchema; DistrictSchema; CustomerSchema; HistorySchema; NewOrderSchema; OrderSchema;
   OrderLineSchema; ItemSchema; StockSchema].

(** ** Columns and keys *)

Definition of_chars (l : list ascii) : string := String.string_of_list_ascii l.

(** [values[i]] *)
Definition at_index {X} (l : list X) (i : nat) : result X :=
  match l !! i with Some x => Ok x | None => Err (Undef "vector::operator[]") end.

Definition non_pkey_columns (S : Schema) : list nat := seq (kPKeySize S) (kNumColumns S - kPKeySize S).

(** [InitializeColumnOffsets]: the columns of the key take no room in the value. *)
Definition column_offset (S : Schema) (c : nat) : nat :=
  sum_list (type_size <$> drop (kPKeySize S) (take c (ColumnTypes S))).

Definition ValidateType (S : Schema) (v : Scalar) (c : nat) : result () :=
  ty ← at_index (ColumnTypes S) c;
  if decide (type_name (scalar_type v) = type_name ty) then Ok () else Err (Fatal "Invalid column type").

(** The part that all keys of a row share: the first column, by which rows are partitioned,
    the table, and the rest of the primary key. *)
Definition key_prefix (S : Schema) (values : list Scalar) : result (list ascii) :=
  if decide (length values < kPKeySize S) then
    Err (Fatal "Number of values needs to be equal or larger than primary key size")
  else
    _ ← rmap (λ i, v ← at_index values i; ValidateType S v i) (seq 0 (kPKeySize S));
    v0 ← at_index values 0;
    b0 ← scalar_bytes v0;
    rest ← rmap (λ i, v ← at_index values i; scalar_bytes v) (seq 1 (kPKeySize S - 1));
    Ok (b0 ++ byte_of (table_number (kId S)) :: concat rest).

Definition MakeStorageKey (S : Schema) (values : list Scalar) : result Key :=
  p ← key_prefix S values; Ok (of_chars p).

Definition MakeStorageKeys (S : Schema) (values : list Scalar) (columns : list nat) : result (list Key) :=
  p ← key_prefix S values;
  Ok ((λ c, of_chars (p ++ [byte_of (Z.of_nat c)])) <$> (if decide (columns = []) then non_pkey_columns S else columns)).

(** ** Operations *)

Section table.
  Context {A : Type} `{StorageAdapter A} (S : Schema).

Definition decode_column (encoded : Value) (c : nat) : result Scalar :=
  ty ← at_index (ColumnTypes S) c;
  MakeScalar ty (chars encoded) (column_offset S c).

Definition SelectGrouped (pkey : list Scalar) (columns : list nat) : M A (list Scalar) :=
  storage_key ← lift (MakeStorageKey S pkey);
  storage_value ← sa_Read storage_key;
  match storage_value with
  | None => mret []
  | Some encoded =>
    lift (if decide (columns = []) then
            rest ← rmap (decode_column encoded) (non_pkey_columns S); Ok (pkey ++ rest)
          else rmap (λ c, if decide (c < kPKeySize S) then at_index pkey c else decode_column encoded c) columns)
  end.

(** One column of a row: what is found is appended. *)
Definition read_column (st : list Scalar * bool) (c : nat) (k : Key) : M A (list Scalar * bool) :=
  value ← sa_Read k;
  match value with
  | None => mret st
  | Some x =>
    if decide (x = EmptyString) then mret st
    else s ← lift (ty ← at_index (ColumnTypes S) c; MakeScalar ty (chars x) 0);
         mret (st.1 ++ [s], true)
  end.

Definition SelectUngrouped (pkey : list Scalar) (columns : list nat) : M A (list Scalar) :=
  storage_keys ← lift (MakeStorageKeys S pkey columns);
  st ← (if decide (columns = []) then
          mfoldl (λ st '(c, k), read_column st c k) (pkey, false) (zip (non_pkey_columns S) storage_keys)
        else
          mfoldl (λ st '(c, k),
            if decide (c < kPKeySize S) then v ← lift (at_index pkey c); mret (st.1 ++ [v], st.2)
            else read_column st c k) ([], false) (zip columns storage_keys));
  mret (if (st.2 : bool) then st.1 else []).

Definition Select (pkey : list Scalar) (columns : list nat) : M A (list Scalar) :=
  if kGroupedColumns S then SelectGrouped pkey columns else SelectUngrouped pkey columns.

(** [std::string::replace] with [n] characters of [s] for [n] characters at [off]. *)
Definition string_replace (l : list ascii) (off n : nat) (s : list ascii) : result (list ascii) :=
  if decide (off ≤ length l) then Ok (take off l ++ s ++ drop (off + n) l)
  else Err (Exn "std::out_of_range").

Definition replace_column (stored : list ascii) (cv : nat * Scalar) : result (list ascii) :=
  b ← scalar_bytes cv.2;
  string_replace stored (column_offset S cv.1) (type_size (scalar_type cv.2)) b.

Definition Update (pkey : list Scalar) (columns : list nat) (values : list Scalar) : M A bool :=
  if decide (length columns ≠ length values) then lift (Err (Fatal "Number of values does not match number of columns"))
  else
    _ ← lift (rmap (λ '(c, v), ValidateType S v c) (zip columns values));
    if kGroupedColumns S then
      k ← lift (MakeStorageKey S pkey);
      sa_Update k (λ stored, l ← rfoldl replace_column (chars stored) (zip columns values); Ok (of_chars l))
    else
      ks ← lift (MakeStorageKeys S pkey columns);
      mfoldl (λ ok '(v, k), b ← sa_Update k (λ _, l ← scalar_bytes v; Ok (of_chars l)); mret (ok && b))
        true (zip values ks).

Definition Insert (values : list Scalar) : M A bool :=
  if decide (length values ≠ kNumColumns S) then lift (Err (Fatal "Number of values does not match number of columns"))
  else
    _ ← lift (rmap (λ c, v ← at_index values c; ValidateType S v c) (non_pkey_columns S));
    if kGroupedColumns S then
      bs ← lift (rmap (λ c, v ← at_index values c; scalar_bytes v) (non_pkey_columns S));
      k ← lift (MakeStorageKey S values);
      sa_Insert k (of_chars (concat bs))
    else
      ks ← lift (MakeStorageKeys S values []);
      mfoldl (λ ok '(c, k),
        b ← lift (v ← at_index values c; scalar_bytes v);
        r ← sa_Insert k (of_chars b);
        mret (ok && r)) true (zip (non_pkey_columns S) ks).

Definition Delete (pkey : list Scalar) : M A bool :=
  if kGroupedColumns S then
    k ← lift (MakeStorageKey S pkey);
    sa_Delete k
  else
    ks ← lift (MakeStorageKeys S pkey []);
    mfoldl (λ ok k, b ← sa_Delete k; mret (ok && b)) true ks.
End table.

(** ** Well-formed schemas, keys and rows *)

Record schema_wf (S : Schema) : Prop := {
  sw_len : length (ColumnTypes S) = kNumColumns S;
  sw_pkey : 0 < kPKeySize S < kNumColumns S;
  sw_small : kNumColumns S ≤ 128;
  sw_first : ColumnTypes S !! 0 = Some Int32Type;
  sw_sizes : Forall (λ ty, 0 < type_size ty) (ColumnTypes S)
}.

Lemma schemas_wf S : S ∈ schemas → schema_wf S.
Proof.
  unfold schemas. rewrite !elem_of_cons, elem_of_nil. intros HS. destruct_or?; subst; try done;
    split; simpl; try lia; try done; repeat constructor; lia.
Qed.

Definition typed (S : Schema) (n : nat) (vs : list Scalar) : Prop :=
  scalar_type <$> vs = take n (ColumnTypes S) ∧ Forall scalar_ok vs.

Definition pkey_ok (S : Schema) (pkey : list Scalar) : Prop := typed S (kPKeySize S) pkey.

Definition row_ok (S : Schema) (row : list Scalar) : Prop := typed S (kNumColumns S) row.

#[global] Instance typed_dec S n vs : Decision (typed S n vs).
Proof. unfold typed. apply _. Defined.

Definition row_prefix (S : Schema) (pkey : list Scalar) : list ascii :=
  match pkey with
  | [] => []
  | v0 :: rest => raw v0 ++ byte_of (table_number (kId S)) :: concat (raw <$> rest)
  end.

(** The key under which a column of a row is stored. *)
Definition cell_key (S : Schema) (pkey : list Scalar) (c : nat) : Key :=
  of_chars (row_prefix S pkey ++ (if kGroupedColumns S then [] else [byte_of (Z.of_nat c)])).

Lemma of_chars_inj l1 l2 : of_chars l1 = of_chars l2 → l1 = l2.
Proof.
  intros E. rewrite <-(String.list_ascii_of_string_of_list_ascii l1), <-(String.list_ascii_of_string_of_list_ascii l2).
  unfold of_chars in E. by rewrite E.
Qed.

Lemma chars_of_chars l : chars (of_chars l) = l.
Proof. apply String.list_ascii_of_string_of_list_ascii. Qed.

Lemma at_index_Some {X} (l : list X) i x : l !! i = Some x → at_index l i = Ok x.
Proof. intros E. unfold at_index. by rewrite E. Qed.

Lemma rmap_at {X Y} (f : X → result Y) (l : list X) a n :
  a + n ≤ length l → rmap (λ i, v ← at_index l i; f v) (seq a n) = rmap f (take n (drop a l)).
Proof.
  revert a. induction n as [|n IH]; intros a Hl; [done|]. cbn [seq rmap]. cbv beta.
  destruct (lookup_lt_is_Some_2 l a) as [x Hx]; [lia|]. rewrite (at_index_Some l a x Hx). cbn [mbind result_bind].
  rewrite (drop_S l x a Hx). cbn [take rmap]. rewrite IH by lia. done.
Qed.

Lemma typed_lookup S n vs i v : typed S n vs → vs !! i = Some v → ColumnTypes S !! i = Some (scalar_type v) ∧ scalar_ok v.
Proof.
  intros [Ht Ho] Hi. split; [|by eapply Forall_lookup_1].
  assert (Hl : (scalar_type <$> vs) !! i = Some (scalar_type v)) by (by rewrite list_lookup_fmap, Hi).
  rewrite Ht in Hl. by apply lookup_take_Some in Hl as [? _].
Qed.

Lemma ValidateType_ok S v c : ColumnTypes S !! c = Some (scalar_type v) → ValidateType S v c = Ok ().
Proof. intros E. unfold ValidateType, at_index. rewrite E. cbn [mbind result_bind]. by rewrite decide_True. Qed.

Lemma typed_length S n vs : schema_wf S → n ≤ kNumColumns S → typed S n vs → length vs = n.
Proof.
  intros Hwf Hn [Ht _]. rewrite <-(length_fmap scalar_type), Ht, length_take, (sw_len S Hwf). lia.
Qed.

Lemma typed_take S n m vs : typed S n vs → m ≤ n → typed S m (take m vs).
Proof.
  intros [Ht Ho] Hm. split; [|by apply Forall_take]. rewrite fmap_take, Ht, take_take. by rewrite Nat.min_l.
Qed.

Lemma key_prefix_ok S n vs :
  schema_wf S → typed S n vs → kPKeySize S ≤ n ≤ kNumColumns S →
  key_prefix S vs = Ok (row_prefix S (take (kPKeySize S) vs)).
Proof.
  intros Hwf Hty Hn. pose proof (sw_pkey S Hwf) as Hpk. pose proof (typed_length S n vs Hwf ltac:(lia) Hty) as Hlen.
  unfold key_prefix. rewrite decide_False by lia.
  rewrite (rmap_ok _ (λ _, ()) (seq 0 (kPKeySize S))).
  2:{ intros i Hi. apply elem_of_seq in Hi. unfold at_index. destruct (lookup_lt_is_Some_2 vs i) as [v Hv]; [lia|].
      rewrite Hv. cbn [mbind result_bind]. apply ValidateType_ok. by eapply typed_lookup. }
  cbn [mbind result_bind]. rewrite (rmap_at scalar_bytes) by lia. destruct vs as [|v0 vs]; [simpl in Hlen; lia|].
  cbn [at_index lookup list_lookup drop]. destruct Hty as [Ht Ho]. apply Forall_cons in Ho as [Ho0 Ho].
  unfold at_index. cbn [lookup list_lookup mbind result_bind]. rewrite scalar_bytes_ok by done. cbn [mbind result_bind].
  rewrite (rmap_ok _ raw).
  2:{ intros v Hv. apply scalar_bytes_ok. rewrite drop_0 in Hv.
      eapply Forall_take in Ho. rewrite Forall_forall in Ho. by apply Ho. }
  cbn [mbind result_bind]. destruct (kPKeySize S) as [|k] eqn:E; [lia|]. simpl. rewrite Nat.sub_0_r, drop_0. done.
Qed.

Lemma MakeStorageKey_ok S n vs c :
  schema_wf S → typed S n vs → kPKeySize S ≤ n ≤ kNumColumns S → kGroupedColumns S = true →
  MakeStorageKey S vs = Ok (cell_key S (take (kPKeySize S) vs) c).
Proof.
  intros Hwf Hty Hn Hg. unfold MakeStorageKey. rewrite (key_prefix_ok S n vs Hwf Hty Hn). cbn [mbind result_bind].
  unfold cell_key. by rewrite Hg, app_nil_r.
Qed.

Lemma MakeStorageKeys_ok S n vs columns :
  schema_wf S → typed S n vs → kPKeySize S ≤ n ≤ kNumColumns S → kGroupedColumns S = false →
  MakeStorageKeys S vs columns =
    Ok (cell_key S (take (kPKeySize S) vs) <$> (if decide (columns = []) then non_pkey_columns S else columns)).
Proof.
  intros Hwf Hty Hn Hg. unfold MakeStorageKeys. rewrite (key_prefix_ok S n vs Hwf Hty Hn). cbn [mbind result_bind].
  unfold cell_key. by rewrite Hg.
Qed.

(** ** Storage keys are distinct *)

Lemma byte_of_inj z1 z2 : (0 ≤ z1 < 256)%Z → (0 ≤ z2 < 256)%Z → byte_of z1 = byte_of z2 → z1 = z2.
Proof.
  intros H1 H2 E. assert (Hu : uchar (byte_of z1) = uchar (byte_of z2)) by (by rewrite E).
  rewrite !uchar_byte in Hu. by rewrite !Z.mod_small in Hu.
Qed.

Lemma concat_raw_inj vs ws l m :
  scalar_type <$> vs = scalar_type <$> ws → Forall scalar_ok vs → Forall scalar_ok ws →
  concat (raw <$> vs) ++ l = concat (raw <$> ws) ++ m → vs = ws ∧ l = m.
Proof.
  revert ws. induction vs as [|v vs IH]; intros [|w ws] Ht Hv Hw E; try done.
  rewrite !fmap_cons in Ht. injection Ht as Ht1 Ht2. apply Forall_cons in Hv as [Hv1 Hv2]. apply Forall_cons in Hw as [Hw1 Hw2].
  simpl in E. rewrite <-!app_assoc in E. apply app_inj_1 in E as [E1 E2]; [|rewrite !raw_length by done; by rewrite Ht1].
  destruct (IH ws Ht2 Hv2 Hw2 E2) as [-> ->]. split; [|done]. f_equal. by apply raw_inj.
Qed.

Lemma schema_of_id S1 S2 : S1 ∈ schemas → S2 ∈ schemas → kId S1 = kId S2 → S1 = S2.
Proof.
  unfold schemas. rewrite !elem_of_cons, !elem_of_nil. intros H1 H2 E. destruct_or?; subst; done.
Qed.

Lemma table_number_range t : (0 ≤ table_number t < 256)%Z.
Proof. destruct t; simpl; lia. Qed.

Lemma table_number_inj t1 t2 : table_number t1 = table_number t2 → t1 = t2.
Proof. by destruct t1, t2. Qed.

Lemma pkey_first S p : schema_wf S → pkey_ok S p → ∃ v rest, p = v :: rest ∧ scalar_type v = Int32Type ∧ scalar_ok v.
Proof.
  intros Hwf Hp. pose proof (sw_pkey S Hwf) as Hpk. pose proof (typed_length S (kPKeySize S) p Hwf ltac:(lia) Hp) as Hl.
  destruct p as [|v rest]; [simpl in Hl; lia|]. exists v, rest. split; [done|].
  destruct (typed_lookup S _ (v :: rest) 0 v Hp eq_refl) as [Ht Ho]. rewrite (sw_first S Hwf) in Ht. split; [congruence|done].
Qed.

Lemma cell_keys_distinct S1 S2 p1 p2 c1 c2 :
  S1 ∈ schemas → S2 ∈ schemas → pkey_ok S1 p1 → pkey_ok S2 p2 → c1 < kNumColumns S1 → c2 < kNumColumns S2 →
  cell_key S1 p1 c1 = cell_key S2 p2 c2 →
  S1 = S2 ∧ p1 = p2 ∧ (kGroupedColumns S1 = true ∨ c1 = c2).
Proof.
  intros HS1 HS2 Hp1 Hp2 Hc1 Hc2 E. pose proof (schemas_wf S1 HS1) as Hw1. pose proof (schemas_wf S2 HS2) as Hw2.
  unfold cell_key in E. apply of_chars_inj in E.
  destruct (pkey_first S1 p1 Hw1 Hp1) as (v1 & r1 & -> & Ht1 & Ho1). destruct (pkey_first S2 p2 Hw2 Hp2) as (v2 & r2 & -> & Ht2 & Ho2).
  simpl in E. rewrite <-!app_assoc in E. apply app_inj_1 in E as [E1 E2]; [|rewrite !raw_length by done; by rewrite Ht1, Ht2].
  apply raw_inj in E1 as ->; [|congruence|done|done]. simpl in E2. injection E2 as Eb E2.
  apply byte_of_inj, table_number_inj in Eb; [|apply table_number_range..]. pose proof (schema_of_id S1 S2 HS1 HS2 Eb) as <-.
  destruct Hp1 as [Hty1 Hok1]. destruct Hp2 as [Hty2 Hok2]. rewrite <-Hty2 in Hty1. rewrite !fmap_cons in Hty1. injection Hty1 as Hty1.
  apply Forall_cons in Hok1 as [_ Hok1]. apply Forall_cons in Hok2 as [_ Hok2].
  apply concat_raw_inj in E2 as [-> E3]; [|done..]. split; [done|]. split; [done|].
  destruct (kGroupedColumns S1); [by left|]. right. injection E3 as E3. pose proof (sw_small S1 Hw1).
  apply byte_of_inj in E3; lia.
Qed.

(** ** Reading a row *)

Lemma chars_empty x : x = EmptyString ↔ chars x = [].
Proof. split; [by intros ->|]. destruct x; done. Qed.

Lemma concat_raw_length vs :
  Forall scalar_ok vs → length (concat (raw <$> vs)) = sum_list (type_size <$> (scalar_type <$> vs)).
Proof.
  induction 1 as [|v vs Hv _ IH]; [done|]. rewrite !fmap_cons. cbn [concat]. rewrite length_app, raw_length by done.
  unfold sum_list in *. cbn [sum_list_with]. unfold Datatypes.id in *. lia.
Qed.

Lemma column_offset_row S row c v :
  schema_wf S → row_ok S row → row !! c = Some v → kPKeySize S ≤ c →
  ∃ l1 l3, concat (raw <$> drop (kPKeySize S) row) = l1 ++ raw v ++ l3 ∧ length l1 = column_offset S c.
Proof.
  intros Hwf [Hty Hok] Hc Hpk. set (d := kPKeySize S) in *. pose proof (lookup_lt_Some _ _ _ Hc) as Hlt.
  assert (E : drop d row = drop d (take c row) ++ v :: drop (Datatypes.S c) row).
  { rewrite <-(take_drop_middle row c v Hc) at 1. rewrite drop_app_le; [done|]. rewrite length_take. lia. }
  rewrite E, fmap_app, concat_app, fmap_cons. exists (concat (raw <$> drop d (take c row))), (concat (raw <$> drop (Datatypes.S c) row)).
  split; [done|]. unfold column_offset. fold d. rewrite take_ge in Hty by (rewrite (sw_len S Hwf); done). rewrite <-Hty, <-fmap_take, <-fmap_drop.
  by apply concat_raw_length, Forall_drop, Forall_take.
Qed.

(** The row is stored, as far as the given columns are concerned. *)
Definition stored (S : Schema) (rd : Key → option Value) (row : list Scalar) (columns : list nat) : Prop :=
  ∀ c v, c ∈ columns → kPKeySize S ≤ c → row !! c = Some v →
    rd (cell_key S (take (kPKeySize S) row) c) =
      Some (of_chars (if kGroupedColumns S then concat (raw <$> drop (kPKeySize S) row) else raw v)).

(** The columns of a row, all of them if none is named. *)
Definition cells (S : Schema) (row : list Scalar) (columns : list nat) : list Scalar :=
  if decide (columns = []) then row else omap (λ c, row !! c) columns.

Definition selected (S : Schema) (columns : list nat) : list nat :=
  if decide (columns = []) then non_pkey_columns S else columns.

Lemma rmap_omap {X Y} (f : X → result Y) (g : X → option Y) l :
  (∀ x, x ∈ l → ∃ y, g x = Some y ∧ f x = Ok y) → rmap f l = Ok (omap g l).
Proof.
  induction l as [|x l IH]; intros Hf; [done|]. rewrite omap_cons. destruct (Hf x) as (y & Hg & Hy); [set_solver|].
  cbn [rmap]. rewrite Hy, Hg. cbn [mbind result_bind]. rewrite IH by set_solver. done.
Qed.

Lemma omap_lookup_seq {X} (l : list X) i n : i + n ≤ length l → omap (λ c, l !! c) (seq i n) = take n (drop i l).
Proof.
  revert i. induction n as [|n IH]; intros i Hl; [done|]. cbn [seq]. rewrite omap_cons.
  destruct (lookup_lt_is_Some_2 l i) as [x Hx]; [lia|]. rewrite Hx, (drop_S l x i Hx). cbn [take]. f_equal. apply IH. lia.
Qed.

Lemma mfoldl_ext {B X Y} (f g : Y → X → M B Y) y l s :
  (∀ y x s, x ∈ l → f y x s = g y x s) → mfoldl f y l s = mfoldl g y l s.
Proof.
  revert y s. induction l as [|x l IH]; intros y s Hfg; [done|]. simpl. unfold mbind, M_bind.
  rewrite Hfg by set_solver. destruct (g y x s) as [[y' s']|]; [|done]. apply IH. set_solver.
Qed.

Section select.
  Context {A : Type} `{StorageAdapter A} (S : Schema) (a : A) (rd : Key → option Value).
  Hypothesis Hwf : schema_wf S.
  Hypothesis Hrd : ∀ k, sa_Read k a = Ok (rd k, a).

Lemma decode_stored row c v :
  row_ok S row → row !! c = Some v → kPKeySize S ≤ c →
  decode_column S (of_chars (concat (raw <$> drop (kPKeySize S) row))) c = Ok v.
Proof.
  intros Hrow Hc Hpk. unfold decode_column. destruct (typed_lookup S _ row c v Hrow Hc) as [Ht Ho].
  rewrite (at_index_Some _ _ _ Ht). cbn [mbind result_bind].
  destruct (column_offset_row S row c v Hwf Hrow Hc Hpk) as (l1 & l3 & E & Hl). rewrite chars_of_chars, E, <-Hl.
  by apply MakeScalar_raw.
Qed.

Lemma raw_not_empty row c v : row_ok S row → row !! c = Some v → of_chars (raw v) ≠ EmptyString.
Proof.
  intros Hrow Hc E. destruct (typed_lookup S _ row c v Hrow Hc) as [Ht Ho]. apply chars_empty in E. rewrite chars_of_chars in E.
  pose proof (sw_sizes S Hwf) as Hs. rewrite Forall_lookup in Hs. specialize (Hs c _ Ht). rewrite <-raw_length in Hs by done.
  rewrite E in Hs. simpl in Hs. lia.
Qed.

Lemma read_columns row cols acc found :
  row_ok S row → kGroupedColumns S = false → Forall (λ c, c < kNumColumns S) cols → stored S rd row cols →
  mfoldl (λ st '(c, k),
    if decide (c < kPKeySize S) then v ← lift (at_index (take (kPKeySize S) row) c); mret (st.1 ++ [v], st.2)
    else read_column S st c k) (acc, found) (zip cols (cell_key S (take (kPKeySize S) row) <$> cols)) a =
  Ok ((acc ++ omap (λ c, row !! c) cols, found || existsb (λ c, bool_decide (kPKeySize S ≤ c)) cols), a).
Proof.
  intros Hrow Hg. pose proof (typed_length S (kNumColumns S) row Hwf ltac:(lia) Hrow) as Hlen.
  revert acc found. induction cols as [|c cols IH]; intros acc found Hcols Hst.
  { simpl. rewrite app_nil_r, orb_false_r. done. }
  apply Forall_cons in Hcols as [Hc Hcols]. destruct (lookup_lt_is_Some_2 row c) as [v Hv]; [lia|].
  assert (Hst' : stored S rd row cols) by (intros c' v' Hc'; apply Hst; set_solver).
  rewrite fmap_cons. cbn [zip zip_with mfoldl]. rewrite omap_cons, Hv. cbn [existsb].
  destruct (decide (c < kPKeySize S)) as [Hk|Hk].
  - rewrite (M_bind_Ok _ _ _ (acc ++ [v], found) a).
    2:{ erewrite M_bind_Ok; [done|]. rewrite (at_index_Some _ _ v); [done|]. by rewrite lookup_take_lt. }
    rewrite IH by done. rewrite bool_decide_eq_false_2 by lia. cbn [orb]. by rewrite <-app_assoc.
  - rewrite (M_bind_Ok _ _ _ (acc ++ [v], true) a).
    2:{ unfold read_column. erewrite M_bind_Ok; [|apply Hrd]. rewrite (Hst c v) by (done || set_solver || lia).
        rewrite Hg. cbn beta iota. rewrite decide_False by (by eapply raw_not_empty).
        destruct (typed_lookup S _ row c v Hrow Hv) as [Ht Ho]. erewrite M_bind_Ok; [done|].
        rewrite (at_index_Some _ _ _ Ht). cbn [mbind result_bind]. rewrite chars_of_chars.
        pose proof (MakeScalar_raw v [] [] Ho) as E. rewrite app_nil_r in E. simpl in E. by rewrite E. }
    rewrite IH by done. rewrite bool_decide_eq_true_2 by lia. rewrite orb_true_r. cbn [orb]. by rewrite <-app_assoc.
Qed.

Lemma elem_of_non_pkey c : c ∈ non_pkey_columns S ↔ kPKeySize S ≤ c < kNumColumns S.
Proof. pose proof (sw_pkey S Hwf). unfold non_pkey_columns. rewrite elem_of_seq. lia. Qed.

Lemma take_take_pkey (row : list Scalar) : take (kPKeySize S) (take (kPKeySize S) row) = take (kPKeySize S) row.
Proof. by rewrite take_take, Nat.min_id. Qed.

(** What [Select] finds of a stored row. *)
Lemma Select_stored row columns :
  row_ok S row → Forall (λ c, c < kNumColumns S) columns → columns = [] ∨ Exists (λ c, kPKeySize S ≤ c) columns →
  stored S rd row (selected S columns) →
  Select S (take (kPKeySize S) row) columns a = Ok (cells S row columns, a).
Proof.
  intros Hrow Hcols Hex Hst. pose proof (sw_pkey S Hwf) as Hpk.
  pose proof (typed_length S (kNumColumns S) row Hwf ltac:(lia) Hrow) as Hlen.
  pose proof (typed_take S _ (kPKeySize S) row Hrow ltac:(lia)) as Hpty.
  assert (Hall : omap (λ c, row !! c) (non_pkey_columns S) = drop (kPKeySize S) row).
  { unfold non_pkey_columns. rewrite omap_lookup_seq by lia. rewrite take_ge; [done|]. rewrite length_drop. lia. }
  assert (Hsel : Forall (λ c, c < kNumColumns S) (selected S columns)).
  { unfold selected. destruct (decide (columns = [])); [|done]. apply Forall_forall. intros c. rewrite elem_of_non_pkey. lia. }
  assert (Hex' : ∃ c, c ∈ selected S columns ∧ kPKeySize S ≤ c).
  { unfold selected. destruct (decide (columns = [])) as [E|E].
    - exists (kPKeySize S). rewrite elem_of_non_pkey. lia.
    - destruct Hex as [?|Hex]; [done|]. apply Exists_exists in Hex as (c & ? & ?). by exists c. }
  unfold Select, cells. destruct (kGroupedColumns S) eqn:Hg.
  - unfold SelectGrouped. destruct Hex' as (c0 & Hc0 & Hpk0).
    rewrite (MakeStorageKey_ok S (kPKeySize S) _ c0) by (done || lia). rewrite take_take_pkey.
    rewrite lift_bind. erewrite M_bind_Ok by apply Hrd.
    destruct (lookup_lt_is_Some_2 row c0) as [v0 Hv0]; [rewrite Forall_forall in Hsel; specialize (Hsel c0 Hc0); simpl in *; lia|].
    rewrite (Hst c0 v0) by done. rewrite Hg. destruct (decide (columns = [])) as [->|Hne].
    + rewrite (rmap_omap _ (λ c, row !! c)).
      * cbn [mbind result_bind]. by rewrite Hall, take_drop.
      * intros c [Hc1 Hc2]%elem_of_non_pkey. destruct (lookup_lt_is_Some_2 row c) as [v Hv]; [lia|].
        exists v. split; [done|]. by apply decode_stored.
    + rewrite (rmap_omap _ (λ c, row !! c)); [done|]. intros c Hc. rewrite Forall_forall in Hcols. specialize (Hcols c Hc). simpl in Hcols.
      destruct (lookup_lt_is_Some_2 row c) as [v Hv]; [lia|]. exists v. split; [done|].
      destruct (decide (c < kPKeySize S)) as [Hk|Hk]; [|apply decode_stored; [done|done|lia]].
      apply at_index_Some. by rewrite lookup_take_lt.
  - unfold SelectUngrouped. rewrite (MakeStorageKeys_ok S (kPKeySize S)) by (done || lia). rewrite take_take_pkey.
    rewrite lift_bind. fold (selected S columns).
    assert (Hexb : existsb (λ c, bool_decide (kPKeySize S ≤ c)) (selected S columns) = true).
    { destruct Hex' as (c & Hc & Hk). apply existsb_exists. exists c. split; [by apply list_elem_of_In|]. by apply bool_decide_eq_true. }
    destruct (decide (columns = [])) as [->|Hne].
    + erewrite M_bind_Ok; cycle 1.
      { erewrite mfoldl_ext; [apply (read_columns row (non_pkey_columns S)); done|]. intros st [c k] s Hin. simpl.
        apply elem_of_zip_l, elem_of_non_pkey in Hin. by rewrite decide_False by lia. }
      unfold selected in Hexb. simpl in Hexb. rewrite Hexb. cbn [orb fst snd]. by rewrite Hall, take_drop.
    + unfold selected in *. rewrite decide_False in * by done.
      erewrite M_bind_Ok by (apply read_columns; done). rewrite Hexb. done.
Qed.
End select.

(** ** Reading depends on the row's keys only *)

(** Two reads with one outcome, neither of which changes its adapter. *)
Definition agree {A B X} (a : A) (b : B) (ra : result (X * A)) (rb : result (X * B)) : Prop :=
  match ra, rb with
  | Ok (x, a'), Ok (y, b') => x = y ∧ a' = a ∧ b' = b
  | Err e, Err f => e = f
  | _, _ => False
  end.

Lemma agree_bind {A B X Y} (a : A) (b : B) (m : M A X) (n : M B X) (k : X → M A Y) (h : X → M B Y) :
  agree a b (m a) (n b) → (∀ x, agree a b (k x a) (h x b)) → agree a b ((m ≫= k) a) ((n ≫= h) b).
Proof.
  unfold agree at 1, mbind, M_bind. destruct (m a) as [[x a']|e], (n b) as [[y b']|f]; try done.
  intros (-> & -> & ->) Hk. apply Hk.
Qed.

Lemma agree_lift {A B X} (a : A) (b : B) (r : result X) : agree a b (lift r a) (lift r b).
Proof. by destruct r. Qed.

Lemma agree_mfoldl {A B X Y} (a : A) (b : B) (f : Y → X → M A Y) (g : Y → X → M B Y) y l :
  (∀ y x, x ∈ l → agree a b (f y x a) (g y x b)) → agree a b (mfoldl f y l a) (mfoldl g y l b).
Proof.
  revert y. induction l as [|x l IH]; intros y Hf; [done|]. simpl. apply agree_bind; [apply Hf; set_solver|].
  intros y'. apply IH. set_solver.
Qed.

Section agree.
  Context {A B : Type} `{StorageAdapter A} `{StorageAdapter B} (a : A) (b : B) (S : Schema).

Definition reads_agree (k : Key) : Prop := agree a b (sa_Read k a) (sa_Read k b).

Lemma read_column_agree st c k : reads_agree k → agree a b (read_column S st c k a) (read_column S st c k b).
Proof.
  intros Hk. unfold read_column. apply agree_bind; [done|]. intros [x|]; [|done]. destruct (decide (x = EmptyString)); [done|].
  apply agree_bind; [apply agree_lift|done].
Qed.

(** [Select] reads only the keys of the columns selected. *)
Lemma Select_agree pkey columns :
  schema_wf S → pkey_ok S pkey →
  (∀ c, c ∈ selected S columns → reads_agree (cell_key S pkey c)) →
  agree a b (Select S pkey columns a) (Select S pkey columns b).
Proof.
  intros Hwf Hp Hk. pose proof (sw_pkey S Hwf) as Hpk. pose proof (typed_length S (kPKeySize S) pkey Hwf ltac:(lia) Hp) as Hl.
  assert (Htk : take (kPKeySize S) pkey = pkey) by (apply take_ge; lia).
  unfold Select. destruct (kGroupedColumns S) eqn:Hg.
  - assert (Hc : ∃ c, c ∈ selected S columns).
    { unfold selected. destruct (decide (columns = [])) as [E|E].
      - exists (kPKeySize S). rewrite elem_of_non_pkey by done. lia.
      - destruct columns as [|c cs]; [done|]. exists c. set_solver. }
    destruct Hc as [c Hc]. unfold SelectGrouped. rewrite (MakeStorageKey_ok S (kPKeySize S) _ c) by (done || lia). rewrite Htk.
    rewrite !lift_bind. apply agree_bind; [by apply Hk|]. intros [x|]; [|done]. apply agree_lift.
  - unfold SelectUngrouped. rewrite (MakeStorageKeys_ok S (kPKeySize S)) by (done || lia). rewrite Htk. fold (selected S columns).
    rewrite !lift_bind. apply agree_bind; [|done].
    assert (Hz : ∀ c k, (c, k) ∈ zip (selected S columns) (cell_key S pkey <$> selected S columns) → reads_agree k).
    { intros c k Hin. apply elem_of_zip_r, list_elem_of_fmap in Hin as (c' & -> & Hc'). by apply Hk. }
    unfold selected in *. destruct (decide (columns = [])) as [->|Hne].
    + apply agree_mfoldl. intros y [c k] Hin. apply read_column_agree. by eapply Hz.
    + apply agree_mfoldl. intros y [c k] Hin. destruct (decide (c < kPKeySize S)).
      * apply agree_bind; [apply agree_lift|done].
      * apply read_column_agree. by eapply Hz.
Qed.
End agree.

(** ** Inserting a row *)

(** The bytes a value leaves in storage. *)
Definition stored_bytes (v : Scalar) : list ascii :=
  match v with FixedTextScalar w b => take w (b ++ [zero]) | _ => raw v end.

(** A row that [Insert] accepts: texts can have another width than their column. *)
Definition insertable (S : Schema) (row : list Scalar) : Prop :=
  length row = kNumColumns S ∧ typed S (kPKeySize S) (take (kPKeySize S) row) ∧
  ∀ c v, kPKeySize S ≤ c → row !! c = Some v →
    type_name (scalar_type v) = type_name (default Int8Type (ColumnTypes S !! c)) ∧ scalar_bytes v = Ok (stored_bytes v).

Definition row_writes (S : Schema) (row : list Scalar) : list (Key * Value) :=
  if kGroupedColumns S then
    [(cell_key S (take (kPKeySize S) row) 0, of_chars (concat (stored_bytes <$> drop (kPKeySize S) row)))]
  else
    zip (cell_key S (take (kPKeySize S) row) <$> non_pkey_columns S)
        ((λ v, of_chars (stored_bytes v)) <$> drop (kPKeySize S) row).

Definition insert_all {A} `{StorageAdapter A} (ok : bool) (ws : list (Key * Value)) : M A bool :=
  mfoldl (λ ok '(k, x), b ← sa_Insert k x; mret (ok && b)) ok ws.

Lemma stored_bytes_raw v : scalar_ok v → stored_bytes v = raw v.
Proof. destruct v; try done. simpl. intros <-. by rewrite take_app_length. Qed.

Lemma row_ok_insertable S row : schema_wf S → row_ok S row → insertable S row.
Proof.
  intros Hwf Hrow. pose proof (sw_pkey S Hwf). split; [by eapply typed_length|]. split; [eapply typed_take; [done|lia]|].
  intros c v _ Hc. destruct (typed_lookup S _ row c v Hrow Hc) as [Ht Ho]. rewrite Ht. split; [done|].
  rewrite stored_bytes_raw by done. by apply scalar_bytes_ok.
Qed.

Lemma key_prefix_take S row :
  schema_wf S → typed S (kPKeySize S) (take (kPKeySize S) row) → kPKeySize S ≤ length row →
  key_prefix S row = Ok (row_prefix S (take (kPKeySize S) row)).
Proof.
  intros Hwf Hty Hl. pose proof (sw_pkey S Hwf) as Hpk. 
  assert (E : key_prefix S (take (kPKeySize S) row) = Ok (row_prefix S (take (kPKeySize S) row))).
  { rewrite (key_prefix_ok S (kPKeySize S)) by (done || lia). by rewrite take_take, Nat.min_id. }
  rewrite <-E. clear E.
  set (p := kPKeySize S) in *.
  assert (Hat : ∀ i, i < p → at_index (take p row) i = at_index row i).
  { intros i Hi. unfold at_index. by rewrite lookup_take_lt. }
  unfold key_prefix. fold p. rewrite length_take. rewrite !decide_False by lia.
  rewrite (rmap_ext (λ i, v ← at_index row i; ValidateType S v i) (λ i, v ← at_index (take p row) i; ValidateType S v i)).
  2:{ intros i Hi. apply elem_of_seq in Hi. by rewrite Hat by lia. }
  rewrite Hat by lia.
  rewrite (rmap_ext (λ i, v ← at_index row i; scalar_bytes v) (λ i, v ← at_index (take p row) i; scalar_bytes v)); [done|].
  intros i Hi. apply elem_of_seq in Hi. by rewrite Hat by lia.
Qed.

Lemma insert_columns {A} `{StorageAdapter A} S (row : list Scalar) (p : list Scalar) cols ok (a : A) :
  (∀ c, c ∈ cols → ∃ v, row !! c = Some v ∧ scalar_bytes v = Ok (stored_bytes v)) →
  mfoldl (λ ok '(c, k), b ← lift (v ← at_index row c; scalar_bytes v); r ← sa_Insert k (of_chars b); mret (ok && r)) ok
    (zip cols (cell_key S p <$> cols)) a =
  insert_all ok (zip (cell_key S p <$> cols) ((λ v, of_chars (stored_bytes v)) <$> omap (λ c, row !! c) cols)) a.
Proof.
  revert ok a. induction cols as [|c cols IH]; intros ok a Hc; [done|].
  destruct (Hc c) as (v & Hv & Hb); [set_solver|]. rewrite omap_cons, Hv, !fmap_cons. unfold insert_all. cbn [zip zip_with mfoldl].
  rewrite (at_index_Some _ _ _ Hv). cbn [mbind result_bind]. rewrite Hb. unfold mbind, M_bind. cbn [lift].
  destruct (sa_Insert (cell_key S p c) (of_chars (stored_bytes v)) a) as [[b a']|e]; [|done]. apply IH. set_solver.
Qed.

Lemma Insert_writes {A} `{StorageAdapter A} S row (a : A) :
  schema_wf S → insertable S row → Insert S row a = insert_all true (row_writes S row) a.
Proof.
  intros Hwf (Hl & Hp & Hv). pose proof (sw_pkey S Hwf) as Hpk. unfold Insert. rewrite decide_False by lia.
  assert (Hc : ∀ c, c ∈ non_pkey_columns S → ∃ v, row !! c = Some v ∧ scalar_bytes v = Ok (stored_bytes v)).
  { intros c Hc%elem_of_non_pkey; [|done]. destruct (lookup_lt_is_Some_2 row c) as [v Hrv]; [lia|]. exists v. split; [done|].
    apply (Hv c v); [lia|done]. }
  rewrite (rmap_ok _ (λ _, ())).
  2:{ intros c Hc'. destruct (Hc c Hc') as (v & Hrv & _). apply elem_of_non_pkey in Hc' as [Hc1 Hc2]; [|done].
      rewrite (at_index_Some _ _ _ Hrv). cbn [mbind result_bind]. unfold ValidateType.
      destruct (lookup_lt_is_Some_2 (ColumnTypes S) c) as [ty Hty]; [rewrite (sw_len S Hwf); lia|].
      rewrite (at_index_Some _ _ _ Hty). cbn [mbind result_bind]. destruct (Hv c v Hc1 Hrv) as [Hn _]. rewrite Hty in Hn.
      simpl in Hn. by rewrite decide_True. }
  rewrite lift_bind.
  assert (Hall : omap (λ c, row !! c) (non_pkey_columns S) = drop (kPKeySize S) row).
  { unfold non_pkey_columns. rewrite omap_lookup_seq by lia. rewrite take_ge; [done|]. rewrite length_drop. lia. }
  unfold row_writes. destruct (kGroupedColumns S) eqn:Hg.
  - rewrite (rmap_omap _ (λ c, stored_bytes <$> row !! c)).
    2:{ intros c Hc'. destruct (Hc c Hc') as (v & Hrv & Hb). exists (stored_bytes v). rewrite Hrv. split; [done|].
        rewrite (at_index_Some _ _ _ Hrv). done. }
    rewrite lift_bind. unfold MakeStorageKey. rewrite key_prefix_take by (done || lia). cbn [mbind result_bind].
    rewrite lift_bind. unfold insert_all, cell_key. rewrite Hg, app_nil_r. cbn [mfoldl].
    replace (omap (λ c, stored_bytes <$> row !! c) (non_pkey_columns S)) with (stored_bytes <$> drop (kPKeySize S) row).
    2:{ rewrite <-Hall. rewrite list_fmap_omap. done. }
    unfold mbind, M_bind. destruct (sa_Insert _ _ a) as [[b a']|]; done.
  - unfold MakeStorageKeys. rewrite key_prefix_take by (done || lia). cbn [mbind result_bind]. rewrite lift_bind.
    rewrite decide_True by done. rewrite <-Hall.
    pose proof (insert_columns S row (take (kPKeySize S) row) (non_pkey_columns S) true a Hc) as Hi.
    unfold cell_key in Hi |- *. rewrite Hg in Hi |- *. exact Hi.
Qed.

Lemma row_writes_keys S row :
  S ∈ schemas → insertable S row →
  NoDup (row_writes S row).*1 ∧
  ∀ k, k ∈ (row_writes S row).*1 → ∃ c, kPKeySize S ≤ c < kNumColumns S ∧ k = cell_key S (take (kPKeySize S) row) c.
Proof.
  intros HS (Hl & Hp & _). pose proof (schemas_wf S HS) as Hwf. pose proof (sw_pkey S Hwf) as Hpk. unfold row_writes.
  destruct (kGroupedColumns S) eqn:Hg.
  - split; [apply NoDup_singleton|]. intros k Hk. simpl in Hk. apply list_elem_of_singleton in Hk as ->. exists (kPKeySize S).
    split; [lia|]. unfold cell_key. by rewrite Hg.
  - rewrite fst_zip by (rewrite !length_fmap; unfold non_pkey_columns; rewrite length_seq, length_drop; lia). split.
    + apply NoDup_fmap_2_strong; [|apply NoDup_seq]. intros c1 c2 Hc1 Hc2 E. apply elem_of_non_pkey in Hc1; [|done].
      apply elem_of_non_pkey in Hc2; [|done]. apply cell_keys_distinct in E as (_ & _ & [E|E]); [congruence|done|done|done|done|done|lia|lia].
    + intros k (c & -> & Hc)%list_elem_of_fmap. exists c. by apply elem_of_non_pkey in Hc.
Qed.

(** ** Rows in the storage *)

Definition kv_value (st : Storage) (k : Key) : option Value := record_to_string <$> Execution.Read st k.

Section kv.
  Context (compute : Key → result Metadata).
#[local] Instance kv_ops : StorageAdapter Storage := KVStorageAdapter compute.

Lemma kv_insert_all ws (st : Storage) :
  NoDup ws.*1 → (∀ k, k ∈ ws.*1 → ∃ m, compute k = Ok m) →
  ∃ st', insert_all true ws st = Ok (true, st') ∧
    (∀ k x, (k, x) ∈ ws → kv_value st' k = Some x) ∧ (∀ k, k ∉ ws.*1 → kv_value st' k = kv_value st k).
Proof.
  revert st. induction ws as [|[k x] ws IH]; intros st Hnd Hm.
  { exists st. split; [done|]. split; [|done]. by intros k x ?%not_elem_of_nil. }
  rewrite fmap_cons in Hnd. apply NoDup_cons in Hnd as [Hnin Hnd]. destruct (Hm k) as [m Hk]; [set_solver|].
  unfold insert_all. cbn [mfoldl]. erewrite M_bind_Ok.
  2:{ erewrite M_bind_Ok; [done|]. simpl. unfold kvs_Insert. rewrite Hk. done. }
  set (st1 := (Execution.Write st k _).1).
  assert (H1 : ∀ k', kv_value st1 k' = if decide (k = k') then Some x else kv_value st k').
  { intros k'. unfold kv_value, Execution.Read, st1, Execution.Write. simpl. rewrite lookup_insert. by destruct (decide (k = k')). }
  destruct (IH st1 Hnd) as (st' & Hr & Hin & Hout); [intros k' Hk'; apply Hm; set_solver|]. exists st'. split; [exact Hr|]. split.
  - intros k' x' [[= -> ->]|Hin']%elem_of_cons; [|by apply Hin]. rewrite Hout by done. rewrite H1. by rewrite decide_True.
  - intros k' Hk'. rewrite fmap_cons, not_elem_of_cons in Hk'. destruct Hk' as [Hne Hk']. simpl in Hne. rewrite Hout by done. rewrite H1.
    by rewrite decide_False by congruence.
Qed.

Lemma kv_read k (st : Storage) : sa_Read k st = Ok (kv_value st k, st).
Proof. done. Qed.

Lemma inserted_stored S row st' :
  S ∈ schemas → row_ok S row → (∀ k x, (k, x) ∈ row_writes S row → kv_value st' k = Some x) →
  stored S (kv_value st') row (non_pkey_columns S).
Proof.
  intros HS Hrow Hw. pose proof (schemas_wf S HS) as Hwf. pose proof (sw_pkey S Hwf) as Hpk.
  pose proof (typed_length S (kNumColumns S) row Hwf ltac:(lia) Hrow) as Hlen. destruct Hrow as [Hty Hok].
  assert (Hb : stored_bytes <$> drop (kPKeySize S) row = raw <$> drop (kPKeySize S) row).
  { apply list_fmap_ext. intros i v Hv. apply stored_bytes_raw. eapply Forall_lookup_1; [|exact Hv]. by apply Forall_drop. }
  intros c v Hc Hck Hv. unfold row_writes in Hw. destruct (kGroupedColumns S) eqn:Hg.
  - rewrite <-Hb. apply Hw. unfold cell_key. rewrite Hg. set_solver.
  - apply Hw. replace (of_chars (raw v)) with (of_chars (stored_bytes v)).
    2:{ f_equal. apply stored_bytes_raw. by eapply Forall_lookup_1. }
    apply list_elem_of_lookup. exists (c - kPKeySize S). apply lookup_zip_with_Some.
    exists (cell_key S (take (kPKeySize S) row) c), (of_chars (stored_bytes v)). split; [done|].
    apply elem_of_non_pkey in Hc; [|done]. rewrite !list_lookup_fmap, lookup_drop. unfold non_pkey_columns.
    rewrite lookup_seq_lt by lia. replace (kPKeySize S + (c - kPKeySize S)) with c by lia. by rewrite Hv.
Qed.
End kv.

(** C28. What is inserted into a table of the storage is what is selected: after a row was
    inserted, selecting its key gives the row, or the named columns, and every other row of
    every table reads as before. *)
Theorem table_roundtrip compute S row (st : Storage) :
  S ∈ schemas → row_ok S row → (∀ c, ∃ m, compute (cell_key S (take (kPKeySize S) row) c) = Ok m) →
  ∃ st', Insert (H := KVStorageAdapter compute) S row st = Ok (true, st') ∧
    (∀ columns, Forall (λ c, c < kNumColumns S) columns → columns = [] ∨ Exists (λ c, kPKeySize S ≤ c) columns →
      Select (H := KVStorageAdapter compute) S (take (kPKeySize S) row) columns st' = Ok (cells S row columns, st')) ∧
    (∀ S2 pkey2 columns2, S2 ∈ schemas → pkey_ok S2 pkey2 → Forall (λ c, c < kNumColumns S2) columns2 →
      S2 ≠ S ∨ pkey2 ≠ take (kPKeySize S) row →
      agree st st' (Select (H := KVStorageAdapter compute) S2 pkey2 columns2 st)
                   (Select (H := KVStorageAdapter compute) S2 pkey2 columns2 st')).
Proof.
  intros HS Hrow Hm. pose proof (schemas_wf S HS) as Hwf. pose proof (sw_pkey S Hwf) as Hpk.
  pose proof (row_ok_insertable S row Hwf Hrow) as Hins. destruct (row_writes_keys S row HS Hins) as [Hnd Hks].
  destruct (kv_insert_all compute (row_writes S row) st Hnd) as (st' & Hr & Hin & Hout).
  { intros k Hk. destruct (Hks k Hk) as (c & _ & ->). apply Hm. }
  exists st'. split; [by rewrite Insert_writes|]. pose proof (inserted_stored S row st' HS Hrow Hin) as Hst. split.
  - intros columns Hcols Hex. apply (Select_stored (H := KVStorageAdapter compute) S st' (kv_value st') Hwf (λ k, kv_read compute k st')); [done..|].
    intros c v Hc Hck Hv. apply Hst; [|done|done]. unfold selected in Hc. destruct (decide (columns = [])); [done|].
    apply elem_of_non_pkey; [done|]. rewrite Forall_forall in Hcols. specialize (Hcols c Hc). simpl in Hcols. lia.
  - intros S2 pkey2 cols2 HS2 Hp2 Hc2 Hne.
    apply (Select_agree (H := KVStorageAdapter compute) (H0 := KVStorageAdapter compute)); [by apply schemas_wf|done|].
    intros c Hc. unfold reads_agree. rewrite !kv_read. simpl. rewrite Hout; [done|]. intros Hk.
    destruct (Hks _ Hk) as (c' & Hc' & E). apply cell_keys_distinct in E as (-> & -> & _); [|done|done|done| | |lia].
    + by destruct Hne.
    + eapply typed_take; [exact Hrow|lia].
    + unfold selected in Hc. destruct (decide (cols2 = [])); [apply elem_of_non_pkey in Hc as [??]; [done|by apply schemas_wf]|].
      rewrite Forall_forall in Hc2. by apply Hc2.
Qed.

(** The key of one cell as the tables compute it. *)
Definition storage_key_of (S : Schema) (pkey : list Scalar) (c : nat) : result Key :=
  if kGroupedColumns S then MakeStorageKey S pkey else ks ← MakeStorageKeys S pkey [c]; at_index ks 0.

Lemma storage_key_of_ok S pkey c : S ∈ schemas → pkey_ok S pkey → storage_key_of S pkey c = Ok (cell_key S pkey c).
Proof.
  intros HS Hp. pose proof (schemas_wf S HS) as Hwf. pose proof (sw_pkey S Hwf) as Hpk.
  pose proof (typed_length S (kPKeySize S) pkey Hwf ltac:(lia) Hp) as Hl. unfold storage_key_of.
  destruct (kGroupedColumns S) eqn:Hg.
  - rewrite (MakeStorageKey_ok S (kPKeySize S) _ c) by (done || lia). by rewrite take_ge by lia.
  - rewrite (MakeStorageKeys_ok S (kPKeySize S)) by (done || lia). by rewrite take_ge by lia.
Qed.

(** C31. Distinct cells are stored under distinct keys: if two keys that tables compute are
    equal, then the table, the primary key and, unless the table keeps its columns together,
    the column are the same. *)
Theorem storage_keys_distinct S1 S2 p1 p2 c1 c2 k :
  S1 ∈ schemas → S2 ∈ schemas → pkey_ok S1 p1 → pkey_ok S2 p2 → c1 < kNumColumns S1 → c2 < kNumColumns S2 →
  storage_key_of S1 p1 c1 = Ok k → storage_key_of S2 p2 c2 = Ok k →
  S1 = S2 ∧ p1 = p2 ∧ (kGroupedColumns S1 = true ∨ c1 = c2).
Proof.
  intros HS1 HS2 Hp1 Hp2 Hc1 Hc2 H1 H2. rewrite storage_key_of_ok in H1 by done. rewrite storage_key_of_ok in H2 by done.
  apply cell_keys_distinct; try done. congruence.
Qed.

(** ** A row that is not there *)

(** Selecting from a row whose stored value is empty, which is what a transaction holds
    of a row that does not exist, reads past the end of the value if the table keeps its
    columns together. *)
Theorem select_missing_row {A} `{StorageAdapter A} S pkey columns (a : A) :
  S ∈ schemas → pkey_ok S pkey → kGroupedColumns S = true → columns ≠ [] →
  Forall (λ c, kPKeySize S ≤ c < kNumColumns S ∧ 1 < type_size (default Int8Type (ColumnTypes S !! c))) columns →
  sa_Read (cell_key S pkey 0) a = Ok (Some EmptyString, a) →
  Select S pkey columns a = Err (Undef "read past the end of a string").
Proof.
  intros HS Hp Hg Hne Hcols Hrd. pose proof (schemas_wf S HS) as Hwf. pose proof (sw_pkey S Hwf) as Hpk.
  pose proof (typed_length S (kPKeySize S) pkey Hwf ltac:(lia) Hp) as Hl.
  unfold Select, SelectGrouped. rewrite Hg, (MakeStorageKey_ok S (kPKeySize S) _ 0) by (done || lia).
  rewrite take_ge by lia. rewrite lift_bind. erewrite M_bind_Ok by exact Hrd. cbn beta iota. rewrite decide_False by done.
  destruct columns as [|c cs]; [done|]. apply Forall_cons in Hcols as [[[Hc1 Hc2] Hsz] _]. cbn [rmap].
  rewrite decide_False by lia.
  assert (E : decode_column S EmptyString c = Err (Undef "read past the end of a string")); [|by rewrite E].
  destruct (lookup_lt_is_Some_2 (ColumnTypes S) c) as [ty Hty]; [rewrite (sw_len S Hwf); lia|]. rewrite Hty in Hsz. simpl in Hsz.
  unfold decode_column. rewrite (at_index_Some _ _ _ Hty). cbn [mbind result_bind]. unfold MakeScalar, read_bytes. simpl length.
  by rewrite decide_False by lia.
Qed.

(** ** Witnesses *)

Definition example_stock : list Scalar :=
  [Int32Scalar 3; Int32Scalar 77; Int16Scalar 42; FixedTextScalar 240 (replicate 240 "d"%char); Int32Scalar 0;
   Int16Scalar 0; Int16Scalar (-1); FixedTextScalar 50 (replicate 50 "x"%char)].

Definition constant_metadata (k : Key) : result Metadata := Ok (NewMetadata 0).

Lemma table_roundtrip_witness :
  ∃ st', Insert (H := KVStorageAdapter constant_metadata) StockSchema example_stock ∅ = Ok (true, st') ∧
    Select (H := KVStorageAdapter constant_metadata) StockSchema [Int32Scalar 3; Int32Scalar 77] [Stock.QUANTITY; 0] st' =
      Ok ([Int16Scalar 42; Int32Scalar 3], st').
Proof.
  destruct (table_roundtrip constant_metadata StockSchema example_stock ∅) as (st' & Hi & Hs & _).
  - unfold schemas. set_solver.
  - apply (bool_decide_eq_true_1 _). vm_compute. reflexivity.
  - intros c. eexists. reflexivity.
  - exists st'. split; [exact Hi|]. apply (Hs [Stock.QUANTITY; 0]).
    + repeat constructor; simpl; lia.
    + right. apply Exists_cons_hd. unfold Stock.QUANTITY. simpl. lia.
Defined.

Lemma storage_keys_distinct_witness :
  storage_key_of WarehouseSchema [Int32Scalar 3] Warehouse.TAX = storage_key_of WarehouseSchema [Int32Scalar 3] Warehouse.TAX ∧
  Warehouse.TAX = 3.
Proof.
  split; [reflexivity|].
  destruct (storage_key_of WarehouseSchema [Int32Scalar 3] Warehouse.TAX) as [k|e] eqn:E; [|vm_compute in E; done].
  destruct (storage_keys_distinct WarehouseSchema WarehouseSchema [Int32Scalar 3] [Int32Scalar 3] Warehouse.TAX 3 k) as (_ & _ & [H|H]).
  - unfold schemas. set_solver.
  - unfold schemas. set_solver.
  - apply (bool_decide_eq_true_1 _). vm_compute. reflexivity.
  - apply (bool_decide_eq_true_1 _). vm_compute. reflexivity.
  - simpl. unfold Warehouse.TAX. lia.
  - simpl. lia.
  - exact E.
  - exact E.
  - simpl in H. discriminate H.
  - exact H.
Defined.

(** A transaction that was given no value for the stock row it asked for. *)
Definition missing_stock : TxnStorageAdapter :=
  MakeTxnStorageAdapter (set_keys [new_key (cell_key StockSchema [Int32Scalar 3; Int32Scalar 77] 0, READ)]
    {| internal := {| id := 1; txn_type := SINGLE_HOME; home := 0; coordinating_server := 0; sequencer_delay_ms := 0;
                      involved_partitions := []; active_partitions := []; involved_replicas := []; events := [];
                      global_log_positions := [] |};
       program := kCode []; keys := []; deleted_keys := []; status := NOT_STARTED; abort_reason := EmptyString |}).

Lemma select_missing_row_witness :
  Select StockSchema [Int32Scalar 3; Int32Scalar 77] [Stock.QUANTITY] missing_stock = Err (Undef "read past the end of a string").
Proof.
  apply (select_missing_row StockSchema [Int32Scalar 3; Int32Scalar 77] [Stock.QUANTITY] missing_stock).
  - unfold schemas. set_solver.
  - apply (bool_decide_eq_true_1 _). vm_compute. reflexivity.
  - reflexivity.
  - done.
  - repeat constructor; simpl; unfold Stock.QUANTITY; simpl; lia.
  - vm_compute. reflexivity.
Defined.
