(* ===== verification/Tpcc.v ===== *)
(** * TPC-C transactions

    [execution/tpcc/transaction.h], [new_order.cpp], [payment.cpp], [order_status.cpp],
    [deliver.cpp] and [stock_level.cpp] over any storage adapter, and [TPCCExecution] of
    [execution/tpcc.cpp], which runs them over a transaction. *)
From Stdlib Require Import Ascii.
From S2P Require Import Prelude Types StringUtils Execution Scalar StorageAdapter Table.

Definition kMaxItems : Z := 100000.
Definition kDistPerWare : Z := 10.
Definition kCustPerDist : Z := 3000.
Definition kOrdPerDist : Z := 3000.
Definition kLinePerOrder : nat := 10.
Definition kTotalItems : nat := 200.

(** [SetError] keeps the first error. *)
Definition SetError (error msg : string) : string := if decide (error = EmptyString) then msg else error.

(** Signed arithmetic of [int] and [int64_t], without meaning when it overflows. *)
Definition signed32 (z : Z) : result Z :=
  if decide (- 2 ^ 31 ≤ z < 2 ^ 31)%Z then Ok z else Err (Undef "signed integer overflow").
Definition signed64 (z : Z) : result Z :=
  if decide (- 2 ^ 63 ≤ z < 2 ^ 63)%Z then Ok z else Err (Undef "signed integer overflow").

(** The one text constructor without arguments: its type has width 0. *)
Definition empty_text : Scalar := FixedTextScalar 0 [].

(** What the reads, the computation and the writes of a transaction share: [Execute]. *)
Definition run_txn {A T} (read : T → M A (T * bool)) (compute : T → result T) (write : T → M A (T * bool)) (t : T) :
    M A (T * bool) :=
  '(t, ok) ← read t;
  if (ok : bool) then
    t ← lift (compute t);
    write t
  else mret (t, false).

(** ** New order *)

Record OrderLine := { ol_id : Z; supply_w_id : Z; item_id : Z; quantity : Z }.

Record OrderLineScalar := {
  a_id : Scalar;
  a_supply_w_id : Scalar;
  a_item_id : Scalar;
  a_quantity : Z;
  amount : Z;
  dist_info : Scalar;
  s_quantity : Z;
  i_price : Z
}.

Record NewOrderTxn := {
  no_w_id : Scalar;
  no_d_id : Scalar;
  no_c_id : Scalar;
  no_o_id : Scalar;
  no_datetime : Scalar;
  no_i_w_id : Scalar;
  no_ol : list OrderLineScalar;
  w_tax : Z;
  c_discount : Z;
  c_last : Scalar;
  c_credit : Scalar;
  d_tax : Z;
  d_next_o_id : Z;
  new_d_next_o_id : Z;
  all_local : Z;
  no_error : string
}.

Definition MakeOrderLine (l : OrderLine) : OrderLineScalar := {|
  a_id := MakeInt8Scalar (ol_id l); a_supply_w_id := MakeInt32Scalar (supply_w_id l);
  a_item_id := MakeInt32Scalar (item_id l); a_quantity := i8 (quantity l);
  amount := 0; dist_info := empty_text; s_quantity := 0; i_price := 0
|}.

Definition MakeNewOrder (w_id d_id c_id o_id datetime i_w_id : Z) (ol : list OrderLine) : NewOrderTxn := {|
  no_w_id := MakeInt32Scalar w_id; no_d_id := MakeInt8Scalar d_id; no_c_id := MakeInt32Scalar c_id;
  no_o_id := MakeInt32Scalar o_id; no_datetime := MakeInt64Scalar datetime; no_i_w_id := MakeInt32Scalar i_w_id;
  no_ol := MakeOrderLine <$> ol;
  w_tax := 0; c_discount := 0; c_last := empty_text; c_credit := empty_text; d_tax := 0; d_next_o_id := 0;
  new_d_next_o_id := 0; all_local := 0; no_error := EmptyString
|}.

Section transactions.
  Context {A : Type} `{StorageAdapter A}.

(** [res[i]] of a selected row. *)
Definition res_int32 (res : list Scalar) (i : nat) : result Z := s ← at_index res i; as_int32 s.
Definition res_int64 (res : list Scalar) (i : nat) : result Z := s ← at_index res i; as_int64 s.
Definition res_int16 (res : list Scalar) (i : nat) : result Z := s ← at_index res i; as_int16 s.

Definition no_fail (msg : string) (t : NewOrderTxn) : NewOrderTxn := {|
  no_w_id := no_w_id t; no_d_id := no_d_id t; no_c_id := no_c_id t; no_o_id := no_o_id t;
  no_datetime := no_datetime t; no_i_w_id := no_i_w_id t; no_ol := no_ol t; w_tax := w_tax t;
  c_discount := c_discount t; c_last := c_last t; c_credit := c_credit t; d_tax := d_tax t;
  d_next_o_id := d_next_o_id t; new_d_next_o_id := new_d_next_o_id t; all_local := all_local t;
  no_error := SetError (no_error t) msg
|}.

Definition no_set_warehouse (tax : Z) (t : NewOrderTxn) : NewOrderTxn := {|
  no_w_id := no_w_id t; no_d_id := no_d_id t; no_c_id := no_c_id t; no_o_id := no_o_id t;
  no_datetime := no_datetime t; no_i_w_id := no_i_w_id t; no_ol := no_ol t; w_tax := tax;
  c_discount := c_discount t; c_last := c_last t; c_credit := c_credit t; d_tax := d_tax t;
  d_next_o_id := d_next_o_id t; new_d_next_o_id := new_d_next_o_id t; all_local := all_local t;
  no_error := no_error t
|}.

Definition no_set_customer (discount : Z) (last credit : Scalar) (t : NewOrderTxn) : NewOrderTxn := {|
  no_w_id := no_w_id t; no_d_id := no_d_id t; no_c_id := no_c_id t; no_o_id := no_o_id t;
  no_datetime := no_datetime t; no_i_w_id := no_i_w_id t; no_ol := no_ol t; w_tax := w_tax t;
  c_discount := discount; c_last := last; c_credit := credit; d_tax := d_tax t;
  d_next_o_id := d_next_o_id t; new_d_next_o_id := new_d_next_o_id t; all_local := all_local t;
  no_error := no_error t
|}.

Definition no_set_district (tax next : Z) (t : NewOrderTxn) : NewOrderTxn := {|
  no_w_id := no_w_id t; no_d_id := no_d_id t; no_c_id := no_c_id t; no_o_id := no_o_id t;
  no_datetime := no_datetime t; no_i_w_id := no_i_w_id t; no_ol := no_ol t; w_tax := w_tax t;
  c_discount := c_discount t; c_last := c_last t; c_credit := c_credit t; d_tax := tax;
  d_next_o_id := next; new_d_next_o_id := new_d_next_o_id t; all_local := all_local t;
  no_error := no_error t
|}.

Definition no_set_lines (ol : list OrderLineScalar) (t : NewOrderTxn) : NewOrderTxn := {|
  no_w_id := no_w_id t; no_d_id := no_d_id t; no_c_id := no_c_id t; no_o_id := no_o_id t;
  no_datetime := no_datetime t; no_i_w_id := no_i_w_id t; no_ol := ol; w_tax := w_tax t;
  c_discount := c_discount t; c_last := c_last t; c_credit := c_credit t; d_tax := d_tax t;
  d_next_o_id := d_next_o_id t; new_d_next_o_id := new_d_next_o_id t; all_local := all_local t;
  no_error := no_error t
|}.

Definition set_price (p : Z) (l : OrderLineScalar) : OrderLineScalar := {|
  a_id := a_id l; a_supply_w_id := a_supply_w_id l; a_item_id := a_item_id l; a_quantity := a_quantity l;
  amount := amount l; dist_info := dist_info l; s_quantity := s_quantity l; i_price := p |}.

Definition set_stock (q : Z) (d : Scalar) (l : OrderLineScalar) : OrderLineScalar := {|
  a_id := a_id l; a_supply_w_id := a_supply_w_id l; a_item_id := a_item_id l; a_quantity := a_quantity l;
  amount := amount l; dist_info := d; s_quantity := q; i_price := i_price l |}.

(** [std::string(data(), 24)] of the ten district texts. *)
Definition first_dist (s : Scalar) : result Scalar :=
  b ← as_text s;
  d ← read_bytes b 0 24;
  MakeFixedTextScalar (FixedTextType 24) d.

Definition no_read_line (st : NewOrderTxn * list OrderLineScalar * bool) (l : OrderLineScalar) :
    M A (NewOrderTxn * list OrderLineScalar * bool) :=
  let '(t, ls, ok) := st in
  item_res ← Select ItemSchema [no_i_w_id t; a_item_id l] [Item.PRICE; Item.NAME; Item.DATA];
  '(t, l, ok) ←
    (if decide (item_res = []) then mret (no_fail "The item does not exist" t, l, false)
     else p ← lift (res_int32 item_res 0); mret (t, set_price p l, ok));
  stock_res ← Select StockSchema [a_supply_w_id l; a_item_id l] [Stock.QUANTITY; Stock.ALL_DIST];
  if decide (stock_res = []) then mret (no_fail "Stock of the item does not exist" t, ls ++ [l], false)
  else
    q ← lift (res_int16 stock_res 0);
    d ← lift (s ← at_index stock_res 1; first_dist s);
    mret (t, ls ++ [set_stock q d l], ok).

Definition new_order_Read (t : NewOrderTxn) : M A (NewOrderTxn * bool) :=
  res ← Select WarehouseSchema [no_w_id t] [Warehouse.TAX];
  '(t, ok) ←
    (if decide (res = []) then mret (no_fail "Warehouse does not exist" t, false)
     else x ← lift (res_int32 res 0); mret (no_set_warehouse x t, true));
  res ← Select CustomerSchema [no_w_id t; no_d_id t; no_c_id t] [Customer.DISCOUNT; Customer.FULL_NAME; Customer.CREDIT];
  '(t, ok) ←
    (if decide (res = []) then mret (no_fail "The customer does not exist" t, false)
     else
       x ← lift (res_int32 res 0);
       y ← lift (at_index res 1);
       z ← lift (at_index res 2);
       mret (no_set_customer x y z t, ok));
  res ← Select DistrictSchema [no_w_id t; no_d_id t] [District.TAX; District.NEXT_O_ID];
  '(t, ok) ←
    (if decide (res = []) then mret (no_fail "The district does not exist" t, false)
     else
       x ← lift (res_int32 res 0);
       y ← lift (res_int32 res 1);
       mret (no_set_district x y t, ok));
  '(t, ls, ok) ← mfoldl no_read_line (t, [], ok) (no_ol t);
  mret (no_set_lines ls t, ok).

(** The stock of an item after an order of it. *)
Definition new_stock (s a : Z) : Z :=
  if decide (s > a)%Z then i16 (s - a) else i16 (s - (a - 91)).

Definition compute_line (l : OrderLineScalar) : result OrderLineScalar :=
  m ← signed32 (a_quantity l * i_price l);
  Ok {| a_id := a_id l; a_supply_w_id := a_supply_w_id l; a_item_id := a_item_id l; a_quantity := a_quantity l;
        amount := m; dist_info := dist_info l; s_quantity := new_stock (s_quantity l) (a_quantity l);
        i_price := i_price l |}.

Definition new_order_Compute (t : NewOrderTxn) : result NewOrderTxn :=
  n ← signed32 (d_next_o_id t + 1);
  ls ← rmap compute_line (no_ol t);
  Ok {| no_w_id := no_w_id t; no_d_id := no_d_id t; no_c_id := no_c_id t; no_o_id := no_o_id t;
        no_datetime := no_datetime t; no_i_w_id := no_i_w_id t; no_ol := ls; w_tax := w_tax t;
        c_discount := c_discount t; c_last := c_last t; c_credit := c_credit t; d_tax := d_tax t;
        d_next_o_id := d_next_o_id t; new_d_next_o_id := n;
        all_local := if forallb (λ l, scalar_eqb (a_supply_w_id l) (no_w_id t)) (no_ol t) then 1 else 0;
        no_error := no_error t |}.

(** [if (!m) { SetError(msg); ok = false; }] *)
Definition no_try (m : M A bool) (msg : string) (st : NewOrderTxn * bool) : M A (NewOrderTxn * bool) :=
  b ← m;
  mret (if (b : bool) then st else (no_fail msg st.1, false)).

Definition no_write_line (st : NewOrderTxn * bool) (l : OrderLineScalar) : M A (NewOrderTxn * bool) :=
  st ← no_try (Update StockSchema [a_supply_w_id l; a_item_id l] [Stock.QUANTITY] [Int16Scalar (s_quantity l)])
         "Cannot update Stock" st;
  no_try (Insert OrderLineSchema [no_w_id st.1; no_d_id st.1; no_o_id st.1; a_id l; a_item_id l; a_supply_w_id l;
            MakeInt64Scalar 0; Int8Scalar (a_quantity l); Int32Scalar (amount l); dist_info l])
    "Cannot insert to OrderLine" st.

Definition new_order_Write (t : NewOrderTxn) : M A (NewOrderTxn * bool) :=
  st ← no_try (Update DistrictSchema [no_w_id t; no_d_id t] [District.NEXT_O_ID] [Int32Scalar (new_d_next_o_id t)])
         "Cannot update District" (t, true);
  st ← no_try (Insert OrderSchema [no_w_id t; no_d_id t; no_o_id t; no_c_id t; no_datetime t; MakeInt8Scalar 0;
                 MakeInt8Scalar (Z.of_nat (length (no_ol t))); Int8Scalar (all_local t)])
         "Cannot insert into Order" st;
  st ← no_try (Insert NewOrderSchema [no_w_id t; no_d_id t; no_o_id t; MakeInt8Scalar 0])
         "Cannot insert into NewOrder" st;
  mfoldl no_write_line st (no_ol t).

Definition new_order_Execute : NewOrderTxn → M A (NewOrderTxn * bool) :=
  run_txn new_order_Read new_order_Compute new_order_Write.
End transactions.

(** ** Payment *)

Record PaymentTxn := {
  pa_w_id : Scalar;
  pa_d_id : Scalar;
  pa_c_w_id : Scalar;
  pa_c_d_id : Scalar;
  pa_c_id : Scalar;
  pa_amount : Z;
  pa_datetime : Scalar;
  pa_h_id : Scalar;
  w_name : list ascii;
  w_ytd : Z;
  d_name : list ascii;
  d_ytd : Z;
  c_balance : Z;
  c_ytd_payment : Z;
  c_payment_cnt : Z;
  c_data : Scalar;
  new_w_ytd : Z;
  new_d_ytd : Z;
  new_c_balance : Z;
  new_c_ytd_payment : Z;
  new_c_payment_cnt : Z;
  new_h_data : list ascii;
  pa_error : string
}.

Definition MakePayment (w_id d_id c_w_id c_d_id c_id amount datetime h_id : Z) : PaymentTxn := {|
  pa_w_id := MakeInt32Scalar w_id; pa_d_id := MakeInt8Scalar d_id; pa_c_w_id := MakeInt32Scalar c_w_id;
  pa_c_d_id := MakeInt8Scalar c_d_id; pa_c_id := MakeInt32Scalar c_id; pa_amount := i32 amount;
  pa_datetime := MakeInt64Scalar datetime; pa_h_id := MakeInt32Scalar h_id;
  w_name := []; w_ytd := 0; d_name := []; d_ytd := 0; c_balance := 0; c_ytd_payment := 0; c_payment_cnt := 0;
  c_data := empty_text; new_w_ytd := 0; new_d_ytd := 0; new_c_balance := 0; new_c_ytd_payment := 0;
  new_c_payment_cnt := 0; new_h_data := []; pa_error := EmptyString
|}.

Section payment.
  Context {A : Type} `{StorageAdapter A}.

Definition pa_fail (msg : string) (t : PaymentTxn) : PaymentTxn := {|
  pa_w_id := pa_w_id t; pa_d_id := pa_d_id t; pa_c_w_id := pa_c_w_id t; pa_c_d_id := pa_c_d_id t; pa_c_id := pa_c_id t;
  pa_amount := pa_amount t; pa_datetime := pa_datetime t; pa_h_id := pa_h_id t; w_name := w_name t; w_ytd := w_ytd t;
  d_name := d_name t; d_ytd := d_ytd t; c_balance := c_balance t; c_ytd_payment := c_ytd_payment t;
  c_payment_cnt := c_payment_cnt t; c_data := c_data t; new_w_ytd := new_w_ytd t; new_d_ytd := new_d_ytd t;
  new_c_balance := new_c_balance t; new_c_ytd_payment := new_c_ytd_payment t;
  new_c_payment_cnt := new_c_payment_cnt t; new_h_data := new_h_data t; pa_error := SetError (pa_error t) msg |}.

Definition pa_set_warehouse (name : list ascii) (ytd : Z) (t : PaymentTxn) : PaymentTxn := {|
  pa_w_id := pa_w_id t; pa_d_id := pa_d_id t; pa_c_w_id := pa_c_w_id t; pa_c_d_id := pa_c_d_id t; pa_c_id := pa_c_id t;
  pa_amount := pa_amount t; pa_datetime := pa_datetime t; pa_h_id := pa_h_id t; w_name := name; w_ytd := ytd;
  d_name := d_name t; d_ytd := d_ytd t; c_balance := c_balance t; c_ytd_payment := c_ytd_payment t;
  c_payment_cnt := c_payment_cnt t; c_data := c_data t; new_w_ytd := new_w_ytd t; new_d_ytd := new_d_ytd t;
  new_c_balance := new_c_balance t; new_c_ytd_payment := new_c_ytd_payment t;
  new_c_payment_cnt := new_c_payment_cnt t; new_h_data := new_h_data t; pa_error := pa_error t |}.

Definition pa_set_district (name : list ascii) (ytd : Z) (t : PaymentTxn) : PaymentTxn := {|
  pa_w_id := pa_w_id t; pa_d_id := pa_d_id t; pa_c_w_id := pa_c_w_id t; pa_c_d_id := pa_c_d_id t; pa_c_id := pa_c_id t;
  pa_amount := pa_amount t; pa_datetime := pa_datetime t; pa_h_id := pa_h_id t; w_name := w_name t; w_ytd := w_ytd t;
  d_name := name; d_ytd := ytd; c_balance := c_balance t; c_ytd_payment := c_ytd_payment t;
  c_payment_cnt := c_payment_cnt t; c_data := c_data t; new_w_ytd := new_w_ytd t; new_d_ytd := new_d_ytd t;
  new_c_balance := new_c_balance t; new_c_ytd_payment := new_c_ytd_payment t;
  new_c_payment_cnt := new_c_payment_cnt t; new_h_data := new_h_data t; pa_error := pa_error t |}.

Definition pa_set_customer (balance ytd cnt : Z) (data : Scalar) (t : PaymentTxn) : PaymentTxn := {|
  pa_w_id := pa_w_id t; pa_d_id := pa_d_id t; pa_c_w_id := pa_c_w_id t; pa_c_d_id := pa_c_d_id t; pa_c_id := pa_c_id t;
  pa_amount := pa_amount t; pa_datetime := pa_datetime t; pa_h_id := pa_h_id t; w_name := w_name t; w_ytd := w_ytd t;
  d_name := d_name t; d_ytd := d_ytd t; c_balance := balance; c_ytd_payment := ytd;
  c_payment_cnt := cnt; c_data := data; new_w_ytd := new_w_ytd t; new_d_ytd := new_d_ytd t;
  new_c_balance := new_c_balance t; new_c_ytd_payment := new_c_ytd_payment t;
  new_c_payment_cnt := new_c_payment_cnt t; new_h_data := new_h_data t; pa_error := pa_error t |}.

Definition res_text (res : list Scalar) (i : nat) : result (list ascii) := s ← at_index res i; as_text s.

(** The results that are read and never used are only looked up. *)
Definition payment_Read (t : PaymentTxn) : M A (PaymentTxn * bool) :=
  res ← Select WarehouseSchema [pa_w_id t] [Warehouse.NAME; Warehouse.ADDRESS; Warehouse.YTD];
  '(t, ok) ←
    (if decide (res = []) then mret (pa_fail "Warehouse does not exist" t, false)
     else
       name ← lift (res_text res 0);
       _ ← lift (at_index res 1);
       ytd ← lift (res_int64 res 2);
       mret (pa_set_warehouse name ytd t, true));
  res ← Select DistrictSchema [pa_w_id t; pa_d_id t] [District.NAME; District.ADDRESS; District.YTD];
  '(t, ok) ←
    (if decide (res = []) then mret (pa_fail "District does not exist" t, false)
     else
       name ← lift (res_text res 0);
       _ ← lift (at_index res 1);
       ytd ← lift (res_int64 res 2);
       mret (pa_set_district name ytd t, ok));
  res ← Select CustomerSchema [pa_c_w_id t; pa_c_d_id t; pa_c_id t]
          [Customer.FULL_NAME; Customer.ADDRESS; Customer.PHONE; Customer.SINCE; Customer.CREDIT; Customer.CREDIT_LIM;
           Customer.DISCOUNT; Customer.BALANCE; Customer.YTD_PAYMENT; Customer.PAYMENT_CNT; Customer.DATA];
  if decide (res = []) then mret (pa_fail "Customer does not exist" t, false)
  else
    _ ← lift (rmap (at_index res) (seq 0 7));
    balance ← lift (res_int64 res 7);
    ytd ← lift (res_int64 res 8);
    cnt ← lift (res_int16 res 9);
    data ← lift (at_index res 10);
    mret (pa_set_customer balance ytd cnt data t, ok).

(** [c_payment_cnt_] is converted back to 16 bits; the others keep their width. The history
    text gets 24 characters, and its scalar keeps the type of width 0. *)
Definition payment_Compute (t : PaymentTxn) : result PaymentTxn :=
  w ← signed64 (w_ytd t + pa_amount t);
  d ← signed64 (d_ytd t + pa_amount t);
  b ← signed64 (c_balance t - pa_amount t);
  y ← signed64 (c_ytd_payment t + pa_amount t);
  Ok {| pa_w_id := pa_w_id t; pa_d_id := pa_d_id t; pa_c_w_id := pa_c_w_id t; pa_c_d_id := pa_c_d_id t;
        pa_c_id := pa_c_id t; pa_amount := pa_amount t; pa_datetime := pa_datetime t; pa_h_id := pa_h_id t;
        w_name := w_name t; w_ytd := w_ytd t; d_name := d_name t; d_ytd := d_ytd t; c_balance := c_balance t;
        c_ytd_payment := c_ytd_payment t; c_payment_cnt := c_payment_cnt t; c_data := c_data t;
        new_w_ytd := w; new_d_ytd := d; new_c_balance := b; new_c_ytd_payment := y;
        new_c_payment_cnt := i16 (c_payment_cnt t + 1);
        new_h_data := w_name t ++ chars "    " ++ d_name t; pa_error := pa_error t |}.

Definition pa_try (m : M A bool) (msg : string) (st : PaymentTxn * bool) : M A (PaymentTxn * bool) :=
  b ← m;
  mret (if (b : bool) then st else (pa_fail msg st.1, false)).

(** The row of the history. *)
Definition history_row (t : PaymentTxn) : list Scalar :=
  [pa_w_id t; pa_d_id t; pa_c_id t; pa_h_id t; pa_c_d_id t; pa_c_w_id t; pa_datetime t; Int32Scalar (pa_amount t);
   FixedTextScalar 0 (new_h_data t)].

Definition payment_Write (t : PaymentTxn) : M A (PaymentTxn * bool) :=
  st ← pa_try (Update WarehouseSchema [pa_w_id t] [Warehouse.YTD] [Int64Scalar (new_w_ytd t)])
         "Cannot update Warehouse" (t, true);
  st ← pa_try (Update DistrictSchema [pa_w_id t; pa_d_id t] [District.YTD] [Int64Scalar (new_d_ytd t)])
         "Cannot update District" st;
  st ← pa_try (Update CustomerSchema [pa_c_w_id t; pa_c_d_id t; pa_c_id t]
                 [Customer.BALANCE; Customer.YTD_PAYMENT; Customer.PAYMENT_CNT; Customer.DATA]
                 [Int64Scalar (new_c_balance t); Int64Scalar (new_c_ytd_payment t); Int16Scalar (new_c_payment_cnt t); c_data t])
         "Cannot update Customer" st;
  _ ← Insert HistorySchema (history_row t);
  mret st.

Definition payment_Execute : PaymentTxn → M A (PaymentTxn * bool) :=
  run_txn payment_Read payment_Compute payment_Write.

(** ** Order status *)

Record OrderStatusTxn := { os_w_id : Scalar; os_d_id : Scalar; os_c_id : Scalar; os_o_id : Scalar }.

Definition MakeOrderStatus (w_id d_id c_id o_id : Z) : OrderStatusTxn := {|
  os_w_id := MakeInt32Scalar w_id; os_d_id := MakeInt8Scalar d_id; os_c_id := MakeInt32Scalar c_id;
  os_o_id := MakeInt32Scalar o_id |}.

Definition order_status_Read (t : OrderStatusTxn) : M A (OrderStatusTxn * bool) :=
  _ ← Select CustomerSchema [os_w_id t; os_d_id t; os_c_id t] [Customer.FULL_NAME; Customer.BALANCE];
  _ ← Select OrderSchema [os_w_id t; os_d_id t; os_o_id t] [Order.ENTRY_D; Order.CARRIER_ID];
  _ ← mfoldl (λ _ i, _ ← Select OrderLineSchema [os_w_id t; os_d_id t; os_o_id t; Int8Scalar (Z.of_nat i)]
                [OrderLine.I_ID; OrderLine.SUPPLY_W_ID; OrderLine.QUANTITY; OrderLine.AMOUNT; OrderLine.DELIVERY_D];
              mret ()) () (seq 1 kLinePerOrder);
  mret (t, true).

Definition order_status_Execute : OrderStatusTxn → M A (OrderStatusTxn * bool) :=
  run_txn order_status_Read Ok (λ t, mret (t, true)).

(** ** Deliver *)

Record DeliverTxn := {
  de_w_id : Scalar;
  de_d_id : Scalar;
  de_no_o_id : Scalar;
  de_c_id : Scalar;
  de_o_carrier : Scalar;
  de_datetime : Scalar;
  sum_o_amount : Z;
  de_c_balance : Z;
  de_c_delivery_cnt : Z;
  de_new_c_balance : Z;
  de_new_c_delivery_cnt : Z
}.

Definition MakeDeliver (w_id d_id no_o_id c_id o_carrier datetime : Z) : DeliverTxn := {|
  de_w_id := MakeInt32Scalar w_id; de_d_id := MakeInt8Scalar d_id; de_no_o_id := MakeInt32Scalar no_o_id;
  de_c_id := MakeInt32Scalar c_id; de_o_carrier := MakeInt8Scalar o_carrier; de_datetime := MakeInt64Scalar datetime;
  sum_o_amount := 0; de_c_balance := 0; de_c_delivery_cnt := 0; de_new_c_balance := 0; de_new_c_delivery_cnt := 0 |}.

Definition deliver_Read (t : DeliverTxn) : M A (DeliverTxn * bool) :=
  _ ← Select OrderSchema [de_w_id t; de_d_id t; de_no_o_id t] [Order.C_ID];
  sum ← mfoldl (λ sum i,
          res ← Select OrderLineSchema [de_w_id t; de_d_id t; de_no_o_id t; Int8Scalar (Z.of_nat i)] [OrderLine.AMOUNT];
          if decide (res = []) then mret sum else lift (v ← res_int32 res 0; signed32 (sum + v)))
        (sum_o_amount t) (seq 1 kLinePerOrder);
  res ← Select CustomerSchema [de_w_id t; de_d_id t; de_c_id t] [Customer.BALANCE; Customer.DELIVERY_CNT];
  '(balance, cnt) ←
    (if decide (res = []) then mret (de_c_balance t, de_c_delivery_cnt t)
     else b ← lift (res_int64 res 0); n ← lift (res_int16 res 1); mret (b, n));
  mret ({| de_w_id := de_w_id t; de_d_id := de_d_id t; de_no_o_id := de_no_o_id t; de_c_id := de_c_id t;
           de_o_carrier := de_o_carrier t; de_datetime := de_datetime t; sum_o_amount := sum; de_c_balance := balance;
           de_c_delivery_cnt := cnt; de_new_c_balance := de_new_c_balance t;
           de_new_c_delivery_cnt := de_new_c_delivery_cnt t |}, true).

Definition deliver_Compute (t : DeliverTxn) : result DeliverTxn :=
  b ← signed64 (de_c_balance t + sum_o_amount t);
  Ok {| de_w_id := de_w_id t; de_d_id := de_d_id t; de_no_o_id := de_no_o_id t; de_c_id := de_c_id t;
        de_o_carrier := de_o_carrier t; de_datetime := de_datetime t; sum_o_amount := sum_o_amount t;
        de_c_balance := de_c_balance t; de_c_delivery_cnt := de_c_delivery_cnt t; de_new_c_balance := b;
        de_new_c_delivery_cnt := i16 (de_c_delivery_cnt t + 1) |}.

Definition deliver_Write (t : DeliverTxn) : M A (DeliverTxn * bool) :=
  _ ← Delete NewOrderSchema [de_w_id t; de_d_id t; de_no_o_id t];
  _ ← Update OrderSchema [de_w_id t; de_d_id t; de_no_o_id t] [Order.CARRIER_ID] [de_o_carrier t];
  _ ← mfoldl (λ _ i, _ ← Update OrderLineSchema [de_w_id t; de_d_id t; de_no_o_id t; Int8Scalar (Z.of_nat i)]
                [OrderLine.DELIVERY_D] [de_datetime t]; mret ()) () (seq 1 kLinePerOrder);
  _ ← Update CustomerSchema [de_w_id t; de_d_id t; de_c_id t] [Customer.BALANCE; Customer.DELIVERY_CNT]
        [Int64Scalar (de_new_c_balance t); Int16Scalar (de_new_c_delivery_cnt t)];
  mret (t, true).

Definition deliver_Execute : DeliverTxn → M A (DeliverTxn * bool) := run_txn deliver_Read deliver_Compute deliver_Write.

(** ** Stock level *)

Record StockLevelTxn := { sl_w_id : Scalar; sl_d_id : Scalar; sl_o_id : Z; sl_i_ids : list Scalar }.

Definition MakeStockLevel (w_id d_id o_id : Z) (i_ids : list Z) : StockLevelTxn := {|
  sl_w_id := MakeInt32Scalar w_id; sl_d_id := MakeInt8Scalar d_id; sl_o_id := i32 o_id;
  sl_i_ids := MakeInt32Scalar <$> i_ids |}.

(** The orders are the twenty before [o_id]; the first of them must be an [int]. *)
Definition stock_level_Read (t : StockLevelTxn) : M A (StockLevelTxn * bool) :=
  _ ← Select DistrictSchema [sl_w_id t; sl_d_id t] [District.NEXT_O_ID];
  first ← lift (signed32 (sl_o_id t - 20));
  _ ← mfoldl (λ _ i,
        mfoldl (λ _ j,
          _ ← Select OrderLineSchema [sl_w_id t; sl_d_id t; Int32Scalar i; Int8Scalar (Z.of_nat j)] [OrderLine.I_ID];
          mret ()) () (seq 0 kLinePerOrder))
      () (seqZ first 20);
  _ ← mfoldl (λ _ i_id, _ ← Select StockSchema [sl_w_id t; i_id] [Stock.QUANTITY]; mret ()) () (sl_i_ids t);
  mret (t, true).

Definition stock_level_Execute : StockLevelTxn → M A (StockLevelTxn * bool) :=
  run_txn stock_level_Read Ok (λ t, mret (t, true)).
End payment.

(** ** [TPCCExecution::Execute] *)

Definition abort_with (msg : string) (t : Transaction) : Transaction :=
  set_abort_reason msg (set_status ABORTED t).

Definition arg_int (args : list string) (i : nat) : result Z := a ← arg args i; stoi (chars a).
Definition arg_int64 (args : list string) (i : nat) : result Z := a ← arg args i; stoll (chars a).

(** One order line; [None] when it has not four arguments. *)
Definition parse_line (args : list string) : result (option OrderLine) :=
  if decide (length args ≠ 4) then Ok None
  else
    i ← arg_int args 0;
    w ← arg_int args 1;
    it ← arg_int args 2;
    q ← arg_int args 3;
    Ok (Some {| ol_id := i; supply_w_id := w; item_id := it; quantity := q |}).

(** The lines up to the first that has not four arguments, and whether there is one. *)
Fixpoint parse_lines (ls : list (list string)) : result (option (list OrderLine)) :=
  match ls with
  | [] => Ok (Some [])
  | l :: ls =>
    o ← parse_line l;
    match o with
    | None => Ok None
    | Some x => r ← parse_lines ls; Ok (match r with Some xs => Some (x :: xs) | None => None end)
    end
  end.

(** What [Execute] leaves after the transaction class ran: an abort with its error, or the
    transaction as the adapter holds it. *)
Definition finish {T} (name : string) (error : T → string) (r : result ((T * bool) * TxnStorageAdapter)) :
    result (Transaction * bool) :=
  '((t, ok), a) ← r;
  Ok (if (ok : bool) then (ta_txn a, true) else (abort_with (name +:+ error t) (ta_txn a), false)).

(** The chosen transaction; the flag tells whether it is to be committed. *)
Definition run_code (t : Transaction) (args : list string) : result (Transaction * bool) :=
  let a := MakeTxnStorageAdapter t in
  name ← arg args 0;
  if decide (name = "new_order"%string) then
    if decide (length args ≠ 7 ∨ length (procedures t) ≠ 11) then
      Ok (abort_with "NewOrder Txn - Invalid number of arguments" t, false)
    else
      w_id ← arg_int args 1;
      d_id ← arg_int args 2;
      c_id ← arg_int args 3;
      o_id ← arg_int args 4;
      datetime ← arg_int64 args 5;
      w_i_id ← arg_int64 args 6;
      ol ← parse_lines (drop 1 (procedures t));
      match ol with
      | None => Ok (abort_with "NewOrder Txn - Invalid number of arguments for order line" t, false)
      | Some ol => finish "NewOrder Txn - " no_error (new_order_Execute (MakeNewOrder w_id d_id c_id o_id datetime (i32 w_i_id) ol) a)
      end
  else if decide (name = "payment"%string) then
    if decide (length args ≠ 9) then Ok (abort_with "Payment Txn - Invalid number of arguments" t, false)
    else
      w_id ← arg_int args 1;
      d_id ← arg_int args 2;
      c_w_id ← arg_int args 3;
      c_d_id ← arg_int args 4;
      c_id ← arg_int args 5;
      amount ← arg_int64 args 6;
      datetime ← arg_int64 args 7;
      h_id ← arg_int args 8;
      finish "Payment Txn - " pa_error (payment_Execute (MakePayment w_id d_id c_w_id c_d_id c_id amount datetime h_id) a)
  else if decide (name = "order_status"%string) then
    if decide (length args ≠ 5) then Ok (abort_with "OrderStatus Txn - Invalid number of arguments" t, false)
    else
      w_id ← arg_int args 1;
      d_id ← arg_int args 2;
      c_id ← arg_int args 3;
      o_id ← arg_int args 4;
      finish "OrderStatus Txn - " (λ _, EmptyString) (order_status_Execute (MakeOrderStatus w_id d_id c_id o_id) a)
  else if decide (name = "deliver"%string) then
    if decide (length args ≠ 7) then Ok (abort_with "Deliver Txn - Invalid number of arguments" t, false)
    else
      w_id ← arg_int args 1;
      d_id ← arg_int args 2;
      no_o_id ← arg_int args 3;
      c_id ← arg_int args 4;
      o_carrier ← arg_int args 5;
      datetime ← arg_int64 args 6;
      finish "Deliver Txn - " (λ _, EmptyString) (deliver_Execute (MakeDeliver w_id d_id no_o_id c_id o_carrier datetime) a)
  else if decide (name = "stock_level"%string) then
    if decide (length args ≠ 4 ∨ length (procedures t) ≠ 2) then
      Ok (abort_with "StockLevel Txn - Invalid number of arguments" t, false)
    else
      w_id ← arg_int args 1;
      d_id ← arg_int args 2;
      o_id ← arg_int args 3;
      items ← at_index (procedures t) 1;
      if decide (length items ≠ kTotalItems) then Ok (abort_with "StockLevel Txn - Invalid number of items" t, false)
      else
        i_ids ← rmap (λ s, stoi (chars s)) items;
        finish "StockLevel Txn - " (λ _, EmptyString) (stock_level_Execute (MakeStockLevel w_id d_id o_id i_ids) a)
  else Ok (abort_with "Unknown procedure name" t, false).

Definition tpcc_Execute (part : Key → Z) (local_partition : Z) (t : Transaction) (st : Storage) : result (Transaction * Storage) :=
  match procedures t with
  | [] | [] :: _ => Ok (abort_with "Invalid code" t, st)
  | args :: _ =>
    '(t, ok) ← run_code t args;
    Ok (if (ok : bool) then let t := set_status COMMITTED t in (t, ApplyWrites part local_partition t st) else (t, st))
  end.
