(* ===== verification/TpccKeys.v ===== *)
(** * The keys of a TPC-C transaction

    A client finds the keys of a transaction by running its reads and writes over a
    [TxnKeyGenStorageAdapter]. The cells that a transaction touches do not depend on what
    it reads, so these keys are all that its execution asks for. *)
From Stdlib Require Import Ascii.
From S2P Require Import Prelude Types Execution Scalar StorageAdapter Table Tpcc.

Inductive access := AReads | AWrites.

(** An adapter that also writes down what is asked of it. *)
Record Logged (A : Type) := { lg_adapter : A; lg_log : list (access * Key) }.
Arguments lg_adapter {A}.
Arguments lg_log {A}.

Definition log_op {A X} (acc : access) (k : Key) (m : M A X) : M (Logged A) X := λ s,
  match m (lg_adapter s) with
  | Ok (x, a) => Ok (x, {| lg_adapter := a; lg_log := lg_log s ++ [(acc, k)] |})
  | Err f => Err f
  end.

#[global] Instance Logged_ops {A} `{StorageAdapter A} : StorageAdapter (Logged A) := {|
  sa_Read k := log_op AReads k (sa_Read k);
  sa_Insert k x := log_op AWrites k (sa_Insert k x);
  sa_Update k f := log_op AWrites k (sa_Update k f);
  sa_Delete k := log_op AWrites k (sa_Delete k)
|}.

(** ** What the table operations touch *)

Definition select_fp (S : Schema) (pkey : list Scalar) (columns : list nat) : list (access * Key) :=
  pair AReads <$> (if kGroupedColumns S then [cell_key S pkey 0]
                   else cell_key S pkey <$> filter (λ c, kPKeySize S ≤ c) (selected S columns)).

Definition update_fp (S : Schema) (pkey : list Scalar) (columns : list nat) : list (access * Key) :=
  pair AWrites <$> (if kGroupedColumns S then [cell_key S pkey 0] else cell_key S pkey <$> columns).

Definition insert_fp (S : Schema) (row : list Scalar) : list (access * Key) :=
  pair AWrites <$> (row_writes S row).*1.

Definition delete_fp (S : Schema) (pkey : list Scalar) : list (access * Key) :=
  pair AWrites <$> (if kGroupedColumns S then [cell_key S pkey 0] else cell_key S pkey <$> non_pkey_columns S).

(** ** Computations that touch given cells *)

Section acts.
  Context {A : Type} `{StorageAdapter A}.
  (** [T a fp a']: the accesses [fp] lead from [a] to [a']; if [tot], nothing is ever read. *)
  Context (T : A → list (access * Key) → A → Prop) (P : A → Prop) (tot : bool).

Class Acts := {
  T_nil a : T a [] a;
  T_app a1 a2 a3 fp1 fp2 : T a1 fp1 a2 → T a2 fp2 a3 → T a1 (fp1 ++ fp2) a3;
  P_T a a' fp : P a → T a fp a' → P a';
  act_read a k : P a → (tot = true → ∃ a', sa_Read k a = Ok (None, a')) ∧
    ∀ x a', sa_Read k a = Ok (x, a') → T a [(AReads, k)] a';
  act_insert a k v : P a → (tot = true → ∃ b a', sa_Insert k v a = Ok (b, a')) ∧
    ∀ b a', sa_Insert k v a = Ok (b, a') → T a [(AWrites, k)] a';
  act_update a k f : P a → (tot = true → ∃ b a', sa_Update k f a = Ok (b, a')) ∧
    ∀ b a', sa_Update k f a = Ok (b, a') → T a [(AWrites, k)] a';
  act_delete a k : P a → (tot = true → ∃ b a', sa_Delete k a = Ok (b, a')) ∧
    ∀ b a', sa_Delete k a = Ok (b, a') → T a [(AWrites, k)] a'
}.

Definition acts {X} (m : M A X) (Q : X → Prop) (fp : list (access * Key)) : Prop :=
  ∀ a, P a → (tot = true → ∃ x a', m a = Ok (x, a')) ∧ ∀ x a', m a = Ok (x, a') → T a fp a' ∧ Q x.

Context `{!Acts}.

Lemma acts_ret {X} (x : X) (Q : X → Prop) : Q x → acts (mret x) Q [].
Proof. intros HQ a Ha. split; [intros _; by eexists _, _|]. intros y a' [= <- <-]. split; [apply T_nil|done]. Qed.

Lemma acts_bind {X Y} (m : M A X) (k : X → M A Y) Q R fp1 fp2 :
  acts m Q fp1 → (∀ x, Q x → acts (k x) R fp2) → acts (m ≫= k) R (fp1 ++ fp2).
Proof.
  intros Hm Hk a Ha. destruct (Hm a Ha) as [Ht Hr]. unfold mbind, M_bind. split.
  - intros Htot. destruct (Ht Htot) as (x & a' & E). rewrite E. destruct (Hr x a' E) as [HT HQ].
    by destruct (Hk x HQ a' (P_T _ _ _ Ha HT)) as [Ht' _]; apply Ht'.
  - intros y a'' E. destruct (m a) as [[x a']|] eqn:E'; [|done]. destruct (Hr x a' eq_refl) as [HT HQ].
    destruct (Hk x HQ a' (P_T _ _ _ Ha HT)) as [_ Hr']. destruct (Hr' y a'' E) as [HT' HR]. split; [by eapply T_app|done].
Qed.

Lemma acts_lift {X} (r : result X) (Q : X → Prop) :
  (tot = true → ∃ x, r = Ok x) → (∀ x, r = Ok x → Q x) → acts (lift r) Q [].
Proof.
  intros Ht HQ a Ha. unfold lift. split.
  - intros Htot. destruct (Ht Htot) as [x ->]. by eexists _, _.
  - intros x a'. destruct r as [y|]; [|done]. intros [= -> ->]. split; [apply T_nil|by apply HQ].
Qed.

Lemma acts_weaken {X} (m : M A X) (Q R : X → Prop) fp fp' : acts m Q fp → (∀ x, Q x → R x) → fp = fp' → acts m R fp'.
Proof. intros Hm HQ <- a Ha. destruct (Hm a Ha) as [Ht Hr]. split; [done|]. intros x a' E. destruct (Hr x a' E). auto. Qed.

(** A bind after something that touches nothing. *)
Lemma acts_pure {X Y} (m : M A X) (k : X → M A Y) Q R fp :
  acts m Q [] → (∀ x, Q x → acts (k x) R fp) → acts (m ≫= k) R fp.
Proof. intros Hm Hk. change fp with ([] ++ fp). by eapply acts_bind. Qed.

Lemma acts_mfoldl {X Y} (f : Y → X → M A Y) (g : X → list (access * Key)) (Q : Y → Prop) y l :
  (∀ y x, Q y → x ∈ l → acts (f y x) Q (g x)) → Q y → acts (mfoldl f y l) Q (l ≫= g).
Proof.
  revert y. induction l as [|x l IH]; intros y Hf HQ; [by apply acts_ret|]. cbn [mfoldl]. rewrite bind_cons.
  eapply acts_bind; [apply Hf; [done|set_solver]|]. intros y' Hy'. apply IH; [|done]. intros z w Hz Hw. apply Hf; [done|set_solver].
Qed.

Lemma acts_read k : acts (sa_Read k) (λ x, tot = true → x = None) [(AReads, k)].
Proof.
  intros a Ha. destruct (act_read a k Ha) as [Ht Hr]. split.
  - intros Htot. destruct (Ht Htot) as [a' E]. by eexists _, _.
  - intros x a' E. split; [by eapply Hr|]. intros Htot. destruct (Ht Htot) as [a'' E']. congruence.
Qed.

Lemma acts_op {X} (m : M A X) acc k :
  (∀ a, P a → (tot = true → ∃ x a', m a = Ok (x, a')) ∧ ∀ x a', m a = Ok (x, a') → T a [(acc, k)] a') →
  acts m (λ _, True) [(acc, k)].
Proof. intros Hm a Ha. destruct (Hm a Ha) as [Ht Hr]. split; [done|]. intros x a' E. split; [by eapply Hr|done]. Qed.

Lemma acts_update k f : acts (sa_Update k f) (λ _, True) [(AWrites, k)].
Proof. apply acts_op. intros a Ha. by apply act_update. Qed.

Lemma acts_insert k v : acts (sa_Insert k v) (λ _, True) [(AWrites, k)].
Proof. apply acts_op. intros a Ha. by apply act_insert. Qed.

Lemma acts_delete k : acts (sa_Delete k) (λ _, True) [(AWrites, k)].
Proof. apply acts_op. intros a Ha. by apply act_delete. Qed.

(** ** The table operations *)

Lemma acts_read_column S st c k :
  (tot = true → st.2 = false) → acts (read_column S st c k) (λ r, tot = true → r.2 = false) [(AReads, k)].
Proof.
  intros Hst. unfold read_column. change [(AReads, k)] with ([(AReads, k)] ++ []). eapply acts_bind; [apply acts_read|].
  intros [x|] Hx; [|by apply acts_ret]. destruct (decide (x = EmptyString)); [by apply acts_ret|].
  assert (Hn : tot ≠ true) by (intros Htot; by specialize (Hx Htot)).
  eapply acts_pure; [apply (acts_lift _ (λ _, True)); done|]. intros v _. by apply acts_ret.
Qed.

Lemma acts_Select S pkey columns :
  S ∈ schemas → pkey_ok S pkey → acts (Select S pkey columns) (λ res, tot = true → res = []) (select_fp S pkey columns).
Proof.
  intros HS Hp. pose proof (schemas_wf S HS) as Hwf. pose proof (sw_pkey S Hwf) as Hpk.
  pose proof (typed_length S (kPKeySize S) pkey Hwf ltac:(lia) Hp) as Hl. unfold Select, select_fp.
  destruct (kGroupedColumns S) eqn:Hg.
  - unfold SelectGrouped. rewrite (MakeStorageKey_ok S (kPKeySize S) _ 0) by (done || lia). rewrite take_ge by lia.
    eapply acts_pure; [apply (acts_lift _ (λ k, k = cell_key S pkey 0)); [by eexists|by intros ? [= <-]]|]. intros k ->.
    eapply acts_weaken; [eapply (acts_bind _ _ _ _ _ []); [apply acts_read|]|intros x Hx; exact Hx|done].
    intros [x|] Hx; [|by apply acts_ret]. apply acts_lift; [intros Htot|intros y _ Htot]; by specialize (Hx Htot).
  - unfold SelectUngrouped. rewrite (MakeStorageKeys_ok S (kPKeySize S)) by (done || lia). rewrite take_ge by lia.
    fold (selected S columns). eapply acts_pure; [apply (acts_lift _ (λ ks, ks = cell_key S pkey <$> selected S columns)); [by eexists|by intros ? [= <-]]|].
    intros ks ->. eapply acts_weaken; [eapply (acts_bind _ _ (λ st, tot = true → st.2 = false) (λ res, tot = true → res = []) _ [])| |]; cycle 1.
    + intros st Hst. apply acts_ret. intros Htot. by rewrite (Hst Htot).
    + done.
    + apply app_nil_r.
    + assert (Hfp : pair AReads <$> (cell_key S pkey <$> filter (λ c, kPKeySize S ≤ c) (selected S columns)) =
        zip (selected S columns) (cell_key S pkey <$> selected S columns) ≫= λ '(c, k), if decide (kPKeySize S ≤ c) then [(AReads, k)] else []).
      { generalize (selected S columns). induction l as [|c l IH]; [done|]. rewrite filter_cons, !fmap_cons. cbn [zip zip_with].
        rewrite bind_cons, <-IH. by destruct (decide (kPKeySize S ≤ c)). }
      rewrite Hfp. unfold selected. destruct (decide (columns = [])) as [->|Hne].
      * apply acts_mfoldl; [|done]. intros st [c k] Hst Hin. apply elem_of_zip_l, elem_of_non_pkey in Hin; [|done].
        rewrite decide_True by lia. by apply acts_read_column.
      * apply acts_mfoldl; [|done]. intros st [c k] Hst Hin.
        destruct (decide (c < kPKeySize S)) as [Hc|Hc]; [rewrite decide_False by lia|rewrite decide_True by lia; by apply acts_read_column].
        eapply acts_pure; [apply (acts_lift _ (λ _, True)); [|done]|intros v _; by apply acts_ret].
        intros _. unfold at_index. destruct (lookup_lt_is_Some_2 pkey c) as [v ->]; [lia|]. by eexists.
Qed.

Lemma acts_Update S pkey columns values :
  S ∈ schemas → pkey_ok S pkey → columns ≠ [] → length columns = length values →
  (tot = true → ∃ us, rmap (λ '(c, v), ValidateType S v c) (zip columns values) = Ok us) →
  acts (Update S pkey columns values) (λ _, True) (update_fp S pkey columns).
Proof.
  intros HS Hp Hne Hlen Hval. pose proof (schemas_wf S HS) as Hwf. pose proof (sw_pkey S Hwf) as Hpk.
  pose proof (typed_length S (kPKeySize S) pkey Hwf ltac:(lia) Hp) as Hl. unfold Update, update_fp. rewrite decide_False by lia.
  eapply acts_pure; [by apply (acts_lift _ (λ _, True))|]. intros us _. destruct (kGroupedColumns S) eqn:Hg.
  - rewrite (MakeStorageKey_ok S (kPKeySize S) _ 0) by (done || lia). rewrite take_ge by lia.
    eapply acts_pure; [apply (acts_lift _ (λ k, k = cell_key S pkey 0)); [by eexists|by intros ? [= <-]]|]. intros k ->. apply acts_update.
  - rewrite (MakeStorageKeys_ok S (kPKeySize S)) by (done || lia). rewrite take_ge by lia. rewrite decide_False by done.
    eapply acts_pure; [apply (acts_lift _ (λ ks, ks = cell_key S pkey <$> columns)); [by eexists|by intros ? [= <-]]|]. intros ks ->.
    assert (Hfp : pair AWrites <$> (cell_key S pkey <$> columns) = zip values (cell_key S pkey <$> columns) ≫= λ '(_, k), [(AWrites, k)]).
    { clear -Hlen. revert values Hlen. induction columns as [|c cs IH]; intros [|v vs] Hlen; try done. rewrite !fmap_cons.
      cbn [zip zip_with]. rewrite bind_cons, <-IH; [done|]. simpl in Hlen. lia. }
    rewrite Hfp. apply acts_mfoldl; [|done]. intros b [v k] _ _. change [(AWrites, k)] with ([(AWrites, k)] ++ []).
    eapply acts_bind; [apply acts_update|]. intros r _. by apply acts_ret.
Qed.

Lemma acts_Insert S row : S ∈ schemas → insertable S row → acts (Insert S row) (λ _, True) (insert_fp S row).
Proof.
  intros HS Hi. pose proof (schemas_wf S HS) as Hwf.
  assert (Hall : ∀ ok ws, acts (insert_all ok ws) (λ _, True) (pair AWrites <$> ws.*1)).
  { intros ok ws. unfold insert_all. assert (E : pair AWrites <$> ws.*1 = ws ≫= λ '(k, _), [(AWrites, k)]).
    { induction ws as [|[k x] ws IH]; [done|]. rewrite !fmap_cons, bind_cons, <-IH. done. }
    rewrite E. apply acts_mfoldl; [|done]. intros b [k x] _ _. change [(AWrites, k)] with ([(AWrites, k)] ++ []).
    eapply acts_bind; [apply acts_insert|]. intros r _. by apply acts_ret. }
  intros a Ha. destruct (Hall true (row_writes S row) a Ha) as [Ht Hr]. rewrite <-(Insert_writes S row a Hwf Hi) in Ht.
  split; [done|]. intros x a' E. apply (Hr x). by rewrite <-(Insert_writes S row a Hwf Hi).
Qed.

Lemma acts_Delete S pkey : S ∈ schemas → pkey_ok S pkey → acts (Delete S pkey) (λ _, True) (delete_fp S pkey).
Proof.
  intros HS Hp. pose proof (schemas_wf S HS) as Hwf. pose proof (sw_pkey S Hwf) as Hpk.
  pose proof (typed_length S (kPKeySize S) pkey Hwf ltac:(lia) Hp) as Hl. unfold Delete, delete_fp. destruct (kGroupedColumns S) eqn:Hg.
  - rewrite (MakeStorageKey_ok S (kPKeySize S) _ 0) by (done || lia). rewrite take_ge by lia.
    eapply acts_pure; [apply (acts_lift _ (λ k, k = cell_key S pkey 0)); [by eexists|by intros ? [= <-]]|]. intros k ->. apply acts_delete.
  - rewrite (MakeStorageKeys_ok S (kPKeySize S)) by (done || lia). rewrite take_ge by lia. rewrite decide_True by done.
    eapply acts_pure; [apply (acts_lift _ (λ ks, ks = cell_key S pkey <$> non_pkey_columns S)); [by eexists|by intros ? [= <-]]|]. intros ks ->.
    assert (E : ∀ ks : list Key, pair AWrites <$> ks = ks ≫= λ k, [(AWrites, k)]).
    { induction ks as [|k ks IH]; [done|]. rewrite fmap_cons, bind_cons, <-IH. done. }
    rewrite E. apply acts_mfoldl; [|done]. intros b k _ _. change [(AWrites, k)] with ([(AWrites, k)] ++ []).
    eapply acts_bind; [apply acts_delete|]. intros r _. by apply acts_ret.
Qed.

Lemma acts_mfoldl_prefix {X Y} (f : Y → X → M A Y) (g : X → list (access * Key)) (Q : list X → Y → Prop) y pre l :
  (∀ pre y x, Q pre y → x ∈ l → acts (f y x) (Q (pre ++ [x])) (g x)) → Q pre y → acts (mfoldl f y l) (Q (pre ++ l)) (l ≫= g).
Proof.
  revert y pre. induction l as [|x l IH]; intros y pre Hf HQ; [apply acts_ret; by rewrite app_nil_r|]. cbn [mfoldl]. rewrite bind_cons.
  eapply acts_bind; [apply Hf; [done|set_solver]|]. intros y' Hy'. rewrite (app_assoc pre [x] l : pre ++ x :: l = _).
  apply IH; [|done]. intros pre' z w Hz Hw. apply Hf; [done|set_solver].
Qed.

(** What [Execute] touches: the reads, and then the writes unless it stops. *)
Lemma run_txn_acts {X} (read : X → M A (X * bool)) (compute : X → result X) (write : X → M A (X * bool)) (t : X) Q rfp wfp :
  acts (read t) (λ r, Q r.1) rfp → (∀ t1 t2, Q t1 → compute t1 = Ok t2 → acts (write t2) (λ _, True) wfp) →
  ∀ a x a', P a → run_txn read compute write t a = Ok (x, a') → T a rfp a' ∨ T a (rfp ++ wfp) a'.
Proof.
  intros Hr Hw a x a' Ha. unfold run_txn, mbind, M_bind. destruct (Hr a Ha) as [_ Hr']. destruct (read t a) as [[[t1 ok] a1]|] eqn:E1; [|done].
  destruct (Hr' _ _ eq_refl) as [HT1 HQ]. simpl in HQ. destruct ok; [|intros [= <- <-]; by left]. unfold lift.
  destruct (compute t1) as [t2|] eqn:E2; [|done]. intros E3. right.
  destruct (Hw t1 t2 HQ E2 a1 (P_T _ _ _ Ha HT1)) as [_ Hw']. destruct (Hw' _ _ E3) as [HT2 _]. by eapply T_app.
Qed.
End acts.

#[local] Opaque acts.

Create HintDb tpcc.
#[local] Hint Extern 1 (_ ∈ schemas) => unfold schemas; set_solver : tpcc.
#[local] Hint Resolve MakeInt8Scalar_ok MakeInt16Scalar_ok MakeInt32Scalar_ok MakeInt64Scalar_ok : tpcc.

(** ** New order *)

Definition line_ids (l : OrderLineScalar) : Scalar * Scalar * Scalar := (a_id l, a_supply_w_id l, a_item_id l).

(** The scalars of the arguments have the types of the columns. *)
Definition int8_arg (s : Scalar) : Prop := scalar_type s = Int8Type ∧ scalar_ok s.
Definition int32_arg (s : Scalar) : Prop := scalar_type s = Int32Type ∧ scalar_ok s.
Definition int64_arg (s : Scalar) : Prop := scalar_type s = Int64Type ∧ scalar_ok s.

Lemma MakeInt8Scalar_arg v : int8_arg (MakeInt8Scalar v).
Proof. split; [done|]. apply MakeInt8Scalar_ok. Qed.
Lemma MakeInt32Scalar_arg v : int32_arg (MakeInt32Scalar v).
Proof. split; [done|]. apply MakeInt32Scalar_ok. Qed.
Lemma MakeInt64Scalar_arg v : int64_arg (MakeInt64Scalar v).
Proof. split; [done|]. apply MakeInt64Scalar_ok. Qed.

(** Keys and rows made of arguments. *)
Ltac open_args :=
  repeat match goal with
  | H : int8_arg _ |- _ => destruct H as [? ?]
  | H : int32_arg _ |- _ => destruct H as [? ?]
  | H : int64_arg _ |- _ => destruct H as [? ?]
  end.

Ltac typed_args :=
  open_args;
  split; [simpl; congruence|simpl; repeat (apply Forall_cons_2; [done|]); apply Forall_nil_2].

Definition text_ok (s : Scalar) : Prop := ∃ w b, s = FixedTextScalar w b ∧ w ≤ length b + 1.

Lemma text_bytes s : text_ok s → type_name (scalar_type s) = FIXED_TEXT ∧ scalar_bytes s = Ok (stored_bytes s).
Proof. intros (w & b & -> & Hw). split; [done|]. simpl. unfold read_bytes. rewrite decide_True by lia. by rewrite drop_0. Qed.

(** [insertable] for a row that is written out. *)
Ltac solve_insertable :=
  open_args; split; [reflexivity|split; [typed_args|]];
  let c := fresh "c" in let v := fresh "v" in let Hc := fresh "Hc" in let Hv := fresh "Hv" in
  intros c v Hc Hv; simpl in Hc;
  do 12 (destruct c as [|c]; [try lia; simpl in Hv; try discriminate Hv; injection Hv as <-; simpl;
    first [done | (by destruct_and?) | (match goal with H : scalar_type ?s = _ |- context [?s] => destruct s; done end) | (by apply text_bytes)
    | (split; [done|]; unfold read_bytes; by rewrite decide_True by (simpl; lia))]|]);
  discriminate Hv.

Record no_wf (t : NewOrderTxn) : Prop := {
  nw_w : int32_arg (no_w_id t);
  nw_d : int8_arg (no_d_id t);
  nw_c : int32_arg (no_c_id t);
  nw_o : int32_arg (no_o_id t);
  nw_t : int64_arg (no_datetime t);
  nw_i : int32_arg (no_i_w_id t);
  nw_ol : Forall (λ l, int8_arg (a_id l) ∧ int32_arg (a_supply_w_id l) ∧ int32_arg (a_item_id l) ∧ text_ok (dist_info l)) (no_ol t)
}.

(** Reading and computing keep the arguments. *)
Definition no_same (t0 t : NewOrderTxn) : Prop :=
  no_w_id t = no_w_id t0 ∧ no_d_id t = no_d_id t0 ∧ no_c_id t = no_c_id t0 ∧ no_o_id t = no_o_id t0 ∧
  no_datetime t = no_datetime t0 ∧ no_i_w_id t = no_i_w_id t0.

Definition line_read_fp (t : NewOrderTxn) (l : Scalar * Scalar * Scalar) : list (access * Key) :=
  let '(_, w, i) := l in
  select_fp ItemSchema [no_i_w_id t; i] [Item.PRICE; Item.NAME; Item.DATA] ++
  select_fp StockSchema [w; i] [Stock.QUANTITY; Stock.ALL_DIST].

Definition no_read_fp (t : NewOrderTxn) : list (access * Key) :=
  select_fp WarehouseSchema [no_w_id t] [Warehouse.TAX] ++
  select_fp CustomerSchema [no_w_id t; no_d_id t; no_c_id t] [Customer.DISCOUNT; Customer.FULL_NAME; Customer.CREDIT] ++
  select_fp DistrictSchema [no_w_id t; no_d_id t] [District.TAX; District.NEXT_O_ID] ++
  ((line_ids <$> no_ol t) ≫= line_read_fp t).

Definition line_write_fp (t : NewOrderTxn) (l : Scalar * Scalar * Scalar) : list (access * Key) :=
  let '(n, w, i) := l in
  update_fp StockSchema [w; i] [Stock.QUANTITY] ++
  [(AWrites, cell_key OrderLineSchema [no_w_id t; no_d_id t; no_o_id t; n] 0)].

Definition no_write_fp (t : NewOrderTxn) : list (access * Key) :=
  update_fp DistrictSchema [no_w_id t; no_d_id t] [District.NEXT_O_ID] ++
  [(AWrites, cell_key OrderSchema [no_w_id t; no_d_id t; no_o_id t] 0)] ++
  [(AWrites, cell_key NewOrderSchema [no_w_id t; no_d_id t; no_o_id t] 0)] ++
  ((line_ids <$> no_ol t) ≫= line_write_fp t).

Lemma bind_fmap_list {X Y Z} (f : X → Y) (g : Y → list Z) l : (l ≫= λ x, g (f x)) = (f <$> l) ≫= g.
Proof. induction l as [|x l IH]; [done|]. rewrite fmap_cons, !bind_cons. by rewrite IH. Qed.

Section new_order.
  Context {A : Type} `{StorageAdapter A}.
  Context (T : A → list (access * Key) → A → Prop) (P : A → Prop) (tot : bool) `{!Acts T P tot}.

Lemma first_dist_ok s d : first_dist s = Ok d → text_ok d.
Proof.
  unfold first_dist. destruct (as_text s) as [b|]; simpl; [|done]. destruct (read_bytes b 0 24) as [l|]; simpl; [|done].
  case_decide; [|done]. intros [= <-]. exists 24, l. split; [done|lia].
Qed.

(** The guard of a result that a total adapter never has. *)
Lemma acts_result {X} (res : list Scalar) (e : M A X) (k : M A X) Q :
  (tot = true → res = []) → acts T P tot e Q [] → (res ≠ [] → tot ≠ true → acts T P tot k Q []) →
  acts T P tot (if decide (res = []) then e else k) Q [].
Proof.
  intros Hres He Hk. destruct (decide (res = [])) as [->|Hne]; [done|]. apply Hk; [done|]. intros Htot. by apply Hne, Hres.
Qed.

Lemma acts_lift_partial {X} (r : result X) (Q : X → Prop) : tot ≠ true → (∀ x, r = Ok x → Q x) → acts T P tot (lift r) Q [].
Proof. intros Hn HQ. by apply (acts_lift T P tot). Qed.

Lemma acts_no_read_line t0 pre st l :
  no_wf t0 → l ∈ no_ol t0 →
  no_same t0 st.1.1 ∧ line_ids <$> st.1.2 = line_ids <$> pre ∧ Forall (λ l, text_ok (dist_info l)) st.1.2 →
  acts T P tot (no_read_line st l)
    (λ st', no_same t0 st'.1.1 ∧ line_ids <$> st'.1.2 = line_ids <$> (pre ++ [l]) ∧ Forall (λ l, text_ok (dist_info l)) st'.1.2)
    (line_read_fp t0 (line_ids l)).
Proof.
  intros Hwf Hl. destruct st as [[t ls] ok]. cbn [fst snd]. intros (Hs & Hls & Htx). unfold no_read_line.
  change (line_read_fp t0 (line_ids l)) with
    (select_fp ItemSchema [no_i_w_id t0; a_item_id l] [Item.PRICE; Item.NAME; Item.DATA] ++
     select_fp StockSchema [a_supply_w_id l; a_item_id l] [Stock.QUANTITY; Stock.ALL_DIST]).
  pose proof (nw_ol t0 Hwf) as Hol. rewrite Forall_forall in Hol. destruct (Hol l Hl) as (Hl1 & Hl2 & Hl3 & Hl4).
  pose proof (nw_i t0 Hwf) as Hi. pose proof Hs as (_ & _ & _ & _ & _ & Hiw). rewrite Hiw.
  eapply (acts_bind T P tot); [apply (acts_Select T P tot); [auto with tpcc|typed_args]|]. intros item_res Hitem.
  eapply (acts_pure T P tot _ _ (λ r, no_same t0 r.1.1 ∧ line_ids r.1.2 = line_ids l ∧ text_ok (dist_info r.1.2))).
  { apply acts_result; [done|by apply (acts_ret T P tot)|]. intros _ Hn.
    eapply (acts_pure T P tot); [by apply (acts_lift_partial _ (λ _, True))|]. intros p _. by apply (acts_ret T P tot). }
  intros [[t1 l1] ok1] (Hs1 & Hl1' & Htx1). simpl in Hs1, Hl1', Htx1. pose proof Hl1' as E. injection E as _ -> ->.
  rewrite <-(app_nil_r (select_fp StockSchema _ _)). eapply (acts_bind T P tot); [apply (acts_Select T P tot); [auto with tpcc|typed_args]|].
  intros stock_res Hstock. apply acts_result; [done| |].
  - apply (acts_ret T P tot). cbn [fst snd]. rewrite !fmap_app, Hls. split; [done|].
    split; [f_equal; by rewrite !list_fmap_singleton; f_equal|]. apply Forall_app. split; [done|]. by constructor.
  - intros _ Hn. eapply (acts_pure T P tot); [by apply (acts_lift_partial _ (λ _, True))|]. intros q _.
    eapply (acts_pure T P tot); [apply (acts_lift_partial _ text_ok); [done|]|].
    { intros d. destruct (at_index stock_res 1) as [s|]; simpl; [|done]. apply first_dist_ok. }
    intros d Hd. apply (acts_ret T P tot). cbn [fst snd]. rewrite !fmap_app, Hls. split; [done|].
    split; [f_equal; by rewrite !list_fmap_singleton; f_equal|]. apply Forall_app. split; [done|]. by constructor.
Qed.

(** One result of a read: what it changes are not the arguments. *)
Lemma no_same_refl t : no_same t t.
Proof. by split_and!. Qed.

Definition no_kept (t0 : NewOrderTxn) (r : NewOrderTxn * bool) : Prop := no_same t0 r.1 ∧ no_ol r.1 = no_ol t0.

Lemma acts_new_order_Read t0 :
  no_wf t0 →
  acts T P tot (new_order_Read t0)
    (λ r, no_same t0 r.1 ∧ line_ids <$> no_ol r.1 = line_ids <$> no_ol t0 ∧ Forall (λ l, text_ok (dist_info l)) (no_ol r.1))
    (no_read_fp t0).
Proof.
  intros Hwf. destruct Hwf as [Hw Hd Hc Ho Ht Hi Hol] eqn:E. clear E. unfold new_order_Read, no_read_fp.
  eapply (acts_bind T P tot); [apply (acts_Select T P tot); [auto with tpcc|typed_args]|]. intros res Hres.
  eapply (acts_pure T P tot _ _ (no_kept t0)).
  { apply acts_result; [done|apply (acts_ret T P tot); by split_and!|]. intros _ Hn.
    eapply (acts_pure T P tot); [by apply (acts_lift_partial _ (λ _, True))|]. intros p _. apply (acts_ret T P tot). by split_and!. }
  clear res Hres. intros [t1 ok1] [Hs1 Hl1]. cbn [fst snd] in *. pose proof Hs1 as (-> & -> & -> & _).
  eapply (acts_bind T P tot); [apply (acts_Select T P tot); [auto with tpcc|typed_args]|]. intros res Hres.
  eapply (acts_pure T P tot _ _ (no_kept t0)).
  { apply acts_result; [done|apply (acts_ret T P tot); done|]. intros _ Hn.
    do 3 (eapply (acts_pure T P tot); [by apply (acts_lift_partial _ (λ _, True))|]; intros ? _). apply (acts_ret T P tot). done. }
  clear res Hres. intros [t2 ok2] [Hs2 Hl2]. cbn [fst snd] in *. pose proof Hs2 as (-> & -> & _).
  eapply (acts_bind T P tot); [apply (acts_Select T P tot); [auto with tpcc|typed_args]|]. intros res Hres.
  eapply (acts_pure T P tot _ _ (no_kept t0)).
  { apply acts_result; [done|apply (acts_ret T P tot); done|]. intros _ Hn.
    do 2 (eapply (acts_pure T P tot); [by apply (acts_lift_partial _ (λ _, True))|]; intros ? _). apply (acts_ret T P tot). done. }
  clear res Hres. intros [t3 ok3] [Hs3 Hl3]. cbn [fst snd] in *. rewrite Hl3, <-bind_fmap_list.
  rewrite <-(app_nil_r (no_ol t0 ≫= _)). eapply (acts_bind T P tot).
  { apply (acts_mfoldl_prefix T P tot no_read_line (λ l, line_read_fp t0 (line_ids l))
      (λ pre st, no_same t0 st.1.1 ∧ line_ids <$> st.1.2 = line_ids <$> pre ∧ Forall (λ l, text_ok (dist_info l)) st.1.2) _ []); [|done].
    intros pre st l Hst Hin. apply acts_no_read_line; [by constructor|done|done]. }
  intros [[t4 ls] ok4] (Hs4 & Hls & Htx). cbn [fst snd] in *. apply (acts_ret T P tot). done.
Qed.

Lemma acts_no_try (m : M A bool) msg st t0 fp :
  acts T P tot m (λ _, True) fp → no_same t0 st.1 → acts T P tot (no_try m msg st) (λ r, no_same t0 r.1) fp.
Proof.
  intros Hm Hs. unfold no_try. rewrite <-(app_nil_r fp). eapply (acts_bind T P tot); [exact Hm|]. intros b _.
  apply (acts_ret T P tot). by destruct b.
Qed.

Lemma acts_no_write_line t0 st l :
  no_wf t0 → no_same t0 st.1 → int8_arg (a_id l) → int32_arg (a_supply_w_id l) → int32_arg (a_item_id l) → text_ok (dist_info l) →
  acts T P tot (no_write_line st l) (λ st', no_same t0 st'.1) (line_write_fp t0 (line_ids l)).
Proof.
  intros Hwf Hs H1 H2 H3 H4. destruct Hwf as [Hw Hd Hc Ho Ht Hi Hol]. unfold no_write_line.
  change (line_write_fp t0 (line_ids l)) with
    (update_fp StockSchema [a_supply_w_id l; a_item_id l] [Stock.QUANTITY] ++
     [(AWrites, cell_key OrderLineSchema [no_w_id t0; no_d_id t0; no_o_id t0; a_id l] 0)]).
  eapply (acts_bind T P tot).
  { apply acts_no_try; [|exact Hs]. apply (acts_Update T P tot); [auto with tpcc|typed_args|done|done|by eexists]. }
  intros st' Hs'. apply acts_no_try; [|done]. destruct Hs' as (-> & -> & _ & -> & _).
  eapply (acts_weaken T P tot); [apply (acts_Insert T P tot); [auto with tpcc|solve_insertable]|done|reflexivity].
Qed.

Lemma acts_new_order_Write t0 t :
  no_wf t0 → no_same t0 t → line_ids <$> no_ol t = line_ids <$> no_ol t0 → Forall (λ l, text_ok (dist_info l)) (no_ol t) →
  acts T P tot (new_order_Write t) (λ _, True) (no_write_fp t0).
Proof.
  intros Hwf Hs Hls Htx. pose proof Hwf as [Hw Hd Hc Ho Ht Hi Hol]. pose proof Hs as (E1 & E2 & E3 & E4 & E5 & _).
  unfold new_order_Write, no_write_fp. rewrite E1, E2, E3, E4, E5, <-Hls, <-bind_fmap_list.
  eapply (acts_bind T P tot); [apply acts_no_try; [|exact Hs]; apply (acts_Update T P tot); [auto with tpcc|typed_args|done|done|by eexists]|].
  intros st1 Hs1. eapply (acts_bind T P tot).
  { apply acts_no_try; [|exact Hs1]. eapply (acts_weaken T P tot); [apply (acts_Insert T P tot); [auto with tpcc|solve_insertable]|done|reflexivity]. }
  intros st2 Hs2. eapply (acts_bind T P tot).
  { apply acts_no_try; [|exact Hs2]. eapply (acts_weaken T P tot); [apply (acts_Insert T P tot); [auto with tpcc|solve_insertable]|done|reflexivity]. }
  intros st3 Hs3. eapply (acts_weaken T P tot); [|by intros|done].
  apply (acts_mfoldl T P tot _ _ (λ st, no_same t0 st.1)); [|done]. intros st l Hst Hin.
  assert (Hin' : line_ids l ∈ line_ids <$> no_ol t0) by (rewrite <-Hls; by apply list_elem_of_fmap_2).
  apply list_elem_of_fmap in Hin' as (l0 & E0 & Hl0). injection E0 as F1 F2 F3. rewrite Forall_forall in Hol, Htx.
  destruct (Hol l0 Hl0) as (H1 & H2 & H3 & _). apply acts_no_write_line; rewrite ?F1, ?F2, ?F3; try done. by apply Htx.
Qed.
End new_order.

(** ** Payment *)

Record pa_wf (t : PaymentTxn) : Prop := {
  pw_w : int32_arg (pa_w_id t);
  pw_d : int8_arg (pa_d_id t);
  pw_cw : int32_arg (pa_c_w_id t);
  pw_cd : int8_arg (pa_c_d_id t);
  pw_c : int32_arg (pa_c_id t);
  pw_t : int64_arg (pa_datetime t);
  pw_h : int32_arg (pa_h_id t);
  pw_data : type_name (scalar_type (c_data t)) = FIXED_TEXT
}.

Definition pa_same (t0 t : PaymentTxn) : Prop :=
  pa_w_id t = pa_w_id t0 ∧ pa_d_id t = pa_d_id t0 ∧ pa_c_w_id t = pa_c_w_id t0 ∧ pa_c_d_id t = pa_c_d_id t0 ∧
  pa_c_id t = pa_c_id t0 ∧ pa_datetime t = pa_datetime t0 ∧ pa_h_id t = pa_h_id t0.

Definition pa_read_fp (t : PaymentTxn) : list (access * Key) :=
  select_fp WarehouseSchema [pa_w_id t] [Warehouse.NAME; Warehouse.ADDRESS; Warehouse.YTD] ++
  select_fp DistrictSchema [pa_w_id t; pa_d_id t] [District.NAME; District.ADDRESS; District.YTD] ++
  select_fp CustomerSchema [pa_c_w_id t; pa_c_d_id t; pa_c_id t]
    [Customer.FULL_NAME; Customer.ADDRESS; Customer.PHONE; Customer.SINCE; Customer.CREDIT; Customer.CREDIT_LIM;
     Customer.DISCOUNT; Customer.BALANCE; Customer.YTD_PAYMENT; Customer.PAYMENT_CNT; Customer.DATA].

Definition pa_write_fp (t : PaymentTxn) : list (access * Key) :=
  update_fp WarehouseSchema [pa_w_id t] [Warehouse.YTD] ++
  update_fp DistrictSchema [pa_w_id t; pa_d_id t] [District.YTD] ++
  update_fp CustomerSchema [pa_c_w_id t; pa_c_d_id t; pa_c_id t]
    [Customer.BALANCE; Customer.YTD_PAYMENT; Customer.PAYMENT_CNT; Customer.DATA] ++
  [(AWrites, cell_key HistorySchema [pa_w_id t; pa_d_id t; pa_c_id t; pa_h_id t] 0)].

(** ** The others *)

Record de_wf (t : DeliverTxn) : Prop := {
  dw_w : int32_arg (de_w_id t);
  dw_d : int8_arg (de_d_id t);
  dw_o : int32_arg (de_no_o_id t);
  dw_c : int32_arg (de_c_id t);
  dw_carrier : int8_arg (de_o_carrier t);
  dw_t : int64_arg (de_datetime t)
}.

Definition de_same (t0 t : DeliverTxn) : Prop :=
  de_w_id t = de_w_id t0 ∧ de_d_id t = de_d_id t0 ∧ de_no_o_id t = de_no_o_id t0 ∧ de_c_id t = de_c_id t0 ∧
  de_o_carrier t = de_o_carrier t0 ∧ de_datetime t = de_datetime t0.

Definition line_number (i : nat) : Scalar := Int8Scalar (Z.of_nat i).

Definition de_read_fp (t : DeliverTxn) : list (access * Key) :=
  select_fp OrderSchema [de_w_id t; de_d_id t; de_no_o_id t] [Order.C_ID] ++
  (seq 1 kLinePerOrder ≫= λ i, select_fp OrderLineSchema [de_w_id t; de_d_id t; de_no_o_id t; line_number i] [OrderLine.AMOUNT]) ++
  select_fp CustomerSchema [de_w_id t; de_d_id t; de_c_id t] [Customer.BALANCE; Customer.DELIVERY_CNT].

Definition de_write_fp (t : DeliverTxn) : list (access * Key) :=
  delete_fp NewOrderSchema [de_w_id t; de_d_id t; de_no_o_id t] ++
  update_fp OrderSchema [de_w_id t; de_d_id t; de_no_o_id t] [Order.CARRIER_ID] ++
  (seq 1 kLinePerOrder ≫= λ i, update_fp OrderLineSchema [de_w_id t; de_d_id t; de_no_o_id t; line_number i] [OrderLine.DELIVERY_D]) ++
  update_fp CustomerSchema [de_w_id t; de_d_id t; de_c_id t] [Customer.BALANCE; Customer.DELIVERY_CNT].

Record os_wf (t : OrderStatusTxn) : Prop := {
  ow_w : int32_arg (os_w_id t);
  ow_d : int8_arg (os_d_id t);
  ow_c : int32_arg (os_c_id t);
  ow_o : int32_arg (os_o_id t)
}.

Definition os_read_fp (t : OrderStatusTxn) : list (access * Key) :=
  select_fp CustomerSchema [os_w_id t; os_d_id t; os_c_id t] [Customer.FULL_NAME; Customer.BALANCE] ++
  select_fp OrderSchema [os_w_id t; os_d_id t; os_o_id t] [Order.ENTRY_D; Order.CARRIER_ID] ++
  (seq 1 kLinePerOrder ≫= λ i, select_fp OrderLineSchema [os_w_id t; os_d_id t; os_o_id t; line_number i]
     [OrderLine.I_ID; OrderLine.SUPPLY_W_ID; OrderLine.QUANTITY; OrderLine.AMOUNT; OrderLine.DELIVERY_D]).

Record sl_wf (t : StockLevelTxn) : Prop := {
  lw_w : int32_arg (sl_w_id t);
  lw_d : int8_arg (sl_d_id t);
  lw_o : (- 2 ^ 31 + 20 ≤ sl_o_id t < 2 ^ 31)%Z;
  lw_i : Forall int32_arg (sl_i_ids t)
}.

Definition sl_read_fp (t : StockLevelTxn) : list (access * Key) :=
  select_fp DistrictSchema [sl_w_id t; sl_d_id t] [District.NEXT_O_ID] ++
  (seqZ (sl_o_id t - 20) 20 ≫= λ i, seq 0 kLinePerOrder ≫= λ j,
     select_fp OrderLineSchema [sl_w_id t; sl_d_id t; Int32Scalar i; line_number j] [OrderLine.I_ID]) ++
  (sl_i_ids t ≫= λ i_id, select_fp StockSchema [sl_w_id t; i_id] [Stock.QUANTITY]).

Section others.
  Context {A : Type} `{StorageAdapter A}.
  Context (T : A → list (access * Key) → A → Prop) (P : A → Prop) (tot : bool) `{!Acts T P tot}.

(** Looking at some results, when there are any. *)
Lemma acts_skip {X Y} (r : result X) (k : X → M A Y) Q :
  tot ≠ true → (∀ x, acts T P tot (k x) Q []) → acts T P tot (lift r ≫= k) Q [].
Proof. intros Hn Hk. eapply (acts_pure T P tot); [by apply (acts_lift_partial T P tot _ (λ _, True))|]. auto. Qed.

Definition pa_kept (t0 : PaymentTxn) (r : PaymentTxn * bool) : Prop := pa_same t0 r.1 ∧ (tot = true → c_data r.1 = c_data t0).

Lemma acts_payment_Read t0 : pa_wf t0 → acts T P tot (payment_Read t0) (pa_kept t0) (pa_read_fp t0).
Proof.
  intros [Hw Hd Hcw Hcd Hc Ht Hh Hdata]. unfold payment_Read, pa_read_fp.
  eapply (acts_bind T P tot); [apply (acts_Select T P tot); [auto with tpcc|typed_args]|]. intros res Hres.
  eapply (acts_pure T P tot _ _ (pa_kept t0)).
  { apply (acts_result T P tot); [done|apply (acts_ret T P tot); by repeat split|]. intros _ Hn.
    do 3 (apply acts_skip; [done|]; intros ?). apply (acts_ret T P tot). by repeat split. }
  clear res Hres. intros [t1 ok1] [Hs1 Hd1]. cbn [fst snd] in *. pose proof Hs1 as (-> & -> & _).
  eapply (acts_bind T P tot); [apply (acts_Select T P tot); [auto with tpcc|typed_args]|]. intros res Hres.
  eapply (acts_pure T P tot _ _ (pa_kept t0)).
  { apply (acts_result T P tot); [done|apply (acts_ret T P tot); done|]. intros _ Hn.
    do 3 (apply acts_skip; [done|]; intros ?). apply (acts_ret T P tot). done. }
  clear res Hres. intros [t2 ok2] [Hs2 Hd2]. cbn [fst snd] in *. pose proof Hs2 as (_ & _ & -> & -> & -> & _).
  rewrite <-(app_nil_r (select_fp CustomerSchema _ _)).
  eapply (acts_bind T P tot); [apply (acts_Select T P tot); [auto with tpcc|typed_args]|]. intros res Hres.
  apply (acts_result T P tot); [done|apply (acts_ret T P tot); done|]. intros _ Hn.
  do 5 (apply acts_skip; [done|]; intros ?). apply (acts_ret T P tot). split; [done|]. by intros Htot.
Qed.

Lemma acts_pa_try (m : M A bool) msg st t0 fp :
  acts T P tot m (λ _, True) fp → pa_same t0 st.1 → acts T P tot (pa_try m msg st) (λ r, pa_same t0 r.1) fp.
Proof.
  intros Hm Hs. unfold pa_try. rewrite <-(app_nil_r fp). eapply (acts_bind T P tot); [exact Hm|]. intros b _.
  apply (acts_ret T P tot). by destruct b.
Qed.

Lemma acts_payment_Write t0 t :
  pa_wf t0 → pa_kept t0 (t, true) → acts T P tot (payment_Write t) (λ _, True) (pa_write_fp t0).
Proof.
  intros [Hw Hd Hcw Hcd Hc Ht Hh Hdata] [Hs Hcd0]. cbn [fst] in *. pose proof Hs as (E1 & E2 & E3 & E4 & E5 & E6 & E7).
  unfold payment_Write, pa_write_fp, history_row. rewrite E1, E2, E3, E4, E5, E6, E7.
  eapply (acts_bind T P tot); [apply acts_pa_try; [|exact Hs]; apply (acts_Update T P tot); [auto with tpcc|typed_args|done|done|by eexists]|].
  intros st1 Hs1. eapply (acts_bind T P tot).
  { apply acts_pa_try; [|exact Hs1]. apply (acts_Update T P tot); [auto with tpcc|typed_args|done|done|by eexists]. }
  intros st2 Hs2. eapply (acts_bind T P tot).
  { apply acts_pa_try; [|exact Hs2]. apply (acts_Update T P tot); [auto with tpcc|typed_args|done|done|].
    intros Htot. rewrite (Hcd0 Htot). destruct (c_data t0); try discriminate Hdata. by eexists. }
  intros st3 Hs3. rewrite <-(app_nil_r [(AWrites, _)]). eapply (acts_bind T P tot); [|intros b _; by apply (acts_ret T P tot)].
  eapply (acts_weaken T P tot); [apply (acts_Insert T P tot); [auto with tpcc|solve_insertable]|done|reflexivity].
Qed.

Lemma line_number_arg i : i ≤ kLinePerOrder → int8_arg (line_number i).
Proof. intros Hi. split; [done|]. unfold kLinePerOrder in Hi. simpl. unfold fits_signed. lia. Qed.

Lemma acts_deliver_Read t0 : de_wf t0 → acts T P tot (deliver_Read t0) (λ r, de_same t0 r.1) (de_read_fp t0).
Proof.
  intros [Hw Hd Ho Hc Hca Ht]. unfold deliver_Read, de_read_fp.
  eapply (acts_bind T P tot); [apply (acts_Select T P tot); [auto with tpcc|typed_args]|]. intros _ _.
  eapply (acts_bind T P tot).
  { apply (acts_mfoldl T P tot _ _ (λ _, True)); [|done]. intros sum i _ Hi%elem_of_seq.
    pose proof (line_number_arg i ltac:(unfold kLinePerOrder in *; lia)) as Hn.
    rewrite <-(app_nil_r (select_fp OrderLineSchema _ _)).
    eapply (acts_bind T P tot); [apply (acts_Select T P tot); [auto with tpcc|typed_args]|]. intros res Hres.
    apply (acts_result T P tot); [done|by apply (acts_ret T P tot)|]. intros _ Hnt. by apply (acts_lift_partial T P tot). }
  intros sum _. rewrite <-(app_nil_r (select_fp CustomerSchema _ _)).
  eapply (acts_bind T P tot); [apply (acts_Select T P tot); [auto with tpcc|typed_args]|]. intros res Hres.
  eapply (acts_pure T P tot _ _ (λ _, True)).
  { apply (acts_result T P tot); [done|by apply (acts_ret T P tot)|]. intros _ Hn.
    do 2 (apply acts_skip; [done|]; intros ?). by apply (acts_ret T P tot). }
  intros [b n] _. apply (acts_ret T P tot). by repeat split.
Qed.

Lemma acts_deliver_Write t0 t : de_wf t0 → de_same t0 t → acts T P tot (deliver_Write t) (λ _, True) (de_write_fp t0).
Proof.
  intros [Hw Hd Ho Hc Hca Ht] (E1 & E2 & E3 & E4 & E5 & E6). unfold deliver_Write, de_write_fp. rewrite E1, E2, E3, E4, E5, E6.
  eapply (acts_bind T P tot); [apply (acts_Delete T P tot); [auto with tpcc|typed_args]|]. intros _ _.
  eapply (acts_bind T P tot).
  { apply (acts_Update T P tot); [auto with tpcc|typed_args|done|done|]. intros _. open_args.
    destruct (de_o_carrier t0); try done. by eexists. }
  intros _ _. eapply (acts_bind T P tot).
  { apply (acts_mfoldl T P tot _ _ (λ _, True)); [|done]. intros [] i _ Hi%elem_of_seq.
    pose proof (line_number_arg i ltac:(unfold kLinePerOrder in *; lia)) as Hn.
    rewrite <-(app_nil_r (update_fp OrderLineSchema _ _)). eapply (acts_bind T P tot); [|intros _ _; by apply (acts_ret T P tot)].
    apply (acts_Update T P tot); [auto with tpcc|typed_args|done|done|]. intros _. open_args.
    destruct (de_datetime t0); try done. by eexists. }
  intros _ _. rewrite <-(app_nil_r (update_fp CustomerSchema _ _)). eapply (acts_bind T P tot); [|intros _ _; by apply (acts_ret T P tot)].
  apply (acts_Update T P tot); [auto with tpcc|typed_args|done|done|by eexists].
Qed.

Lemma acts_order_status_Read t0 : os_wf t0 → acts T P tot (order_status_Read t0) (λ _, True) (os_read_fp t0).
Proof.
  intros [Hw Hd Hc Ho]. unfold order_status_Read, os_read_fp.
  eapply (acts_bind T P tot); [apply (acts_Select T P tot); [auto with tpcc|typed_args]|]. intros _ _.
  eapply (acts_bind T P tot); [apply (acts_Select T P tot); [auto with tpcc|typed_args]|]. intros _ _.
  rewrite <-(app_nil_r (seq 1 kLinePerOrder ≫= _)). eapply (acts_bind T P tot); [|intros _ _; by apply (acts_ret T P tot)].
  apply (acts_mfoldl T P tot _ _ (λ _, True)); [|done]. intros [] i _ Hi%elem_of_seq.
  pose proof (line_number_arg i ltac:(unfold kLinePerOrder in *; lia)) as Hn.
  rewrite <-(app_nil_r (select_fp OrderLineSchema _ _)). eapply (acts_bind T P tot); [|intros _ _; by apply (acts_ret T P tot)].
  apply (acts_Select T P tot); [auto with tpcc|typed_args].
Qed.

Lemma acts_stock_level_Read t0 : sl_wf t0 → acts T P tot (stock_level_Read t0) (λ _, True) (sl_read_fp t0).
Proof.
  intros [Hw Hd Ho Hi]. unfold stock_level_Read, sl_read_fp.
  eapply (acts_bind T P tot); [apply (acts_Select T P tot); [auto with tpcc|typed_args]|]. intros _ _.
  assert (E : signed32 (sl_o_id t0 - 20) = Ok (sl_o_id t0 - 20)%Z) by (unfold signed32; by rewrite decide_True by lia). rewrite E.
  eapply (acts_pure T P tot); [apply (acts_lift T P tot _ (λ x, x = (sl_o_id t0 - 20)%Z)); [by eexists|by intros ? [= <-]]|]. intros ? ->.
  eapply (acts_bind T P tot).
  { apply (acts_mfoldl T P tot _ _ (λ _, True)); [|done]. intros [] i _ Hin%elem_of_seqZ.
    assert (Hia : int32_arg (Int32Scalar i)) by (split; [done|]; simpl; unfold fits_signed; lia).
    apply (acts_mfoldl T P tot _ _ (λ _, True)); [|done]. intros [] j _ Hj%elem_of_seq.
    pose proof (line_number_arg j ltac:(unfold kLinePerOrder in *; lia)) as Hn.
    rewrite <-(app_nil_r (select_fp OrderLineSchema _ _)). eapply (acts_bind T P tot); [|intros _ _; by apply (acts_ret T P tot)].
    apply (acts_Select T P tot); [auto with tpcc|typed_args]. }
  intros _ _. rewrite <-(app_nil_r (sl_i_ids t0 ≫= _)). eapply (acts_bind T P tot); [|intros _ _; by apply (acts_ret T P tot)].
  apply (acts_mfoldl T P tot _ _ (λ _, True)); [|done]. intros [] i_id _ Hin. rewrite Forall_forall in Hi. specialize (Hi i_id Hin).
  rewrite <-(app_nil_r (select_fp StockSchema _ _)). eapply (acts_bind T P tot); [|intros _ _; by apply (acts_ret T P tot)].
  apply (acts_Select T P tot); [auto with tpcc|typed_args].
Qed.
End others.

(** ** The two adapters *)

Definition touch1 (a : TxnKeyGenStorageAdapter) (x : access * Key) : TxnKeyGenStorageAdapter :=
  match x.1 with AReads => NewReadKey x.2 a | AWrites => NewWriteKey x.2 a end.

Lemma touch1_finalized a x : finalized_ a = false → finalized_ (touch1 a x) = false.
Proof.
  intros Ha. destruct x as [[] k]; unfold touch1, NewReadKey, NewWriteKey; simpl; rewrite Ha; [|done].
  by destruct (kg_index a !! k).
Qed.

Lemma touch_finalized fp a : finalized_ a = false → finalized_ (foldl touch1 a fp) = false.
Proof. revert a. induction fp as [|x fp IH]; intros a Ha; [done|]. simpl. by apply IH, touch1_finalized. Qed.

#[local] Instance keygen_acts : Acts (λ a fp a', a' = foldl touch1 a fp) (λ a, finalized_ a = false) true.
Proof.
  split.
  - done.
  - intros a1 a2 a3 fp1 fp2 -> ->. by rewrite foldl_app.
  - intros a a' fp Ha ->. by apply touch_finalized.
  - intros a k Ha. split; [intros _; by eexists|]. by intros x a' [= _ <-].
  - intros a k v Ha. split; [intros _; by eexists _, _|]. by intros x a' [= _ <-].
  - intros a k f Ha. split; [intros _; by eexists _, _|]. by intros x a' [= _ <-].
  - intros a k Ha. split; [intros _; by eexists _, _|]. by intros x a' [= _ <-].
Qed.

#[local] Instance logged_acts {A} `{StorageAdapter A} :
  Acts (A := Logged A) (λ s fp s', lg_log s' = lg_log s ++ fp) (λ _, True) false.
Proof.
  split.
  - intros a. by rewrite app_nil_r.
  - intros a1 a2 a3 fp1 fp2 H1 H2. by rewrite H2, H1, app_assoc.
  - done.
  - intros a k _. split; [done|]. intros x a'. simpl. unfold log_op. destruct (sa_Read k (lg_adapter a)) as [[y b]|]; [|done]. by intros [= <- <-].
  - intros a k v _. split; [done|]. intros x a'. simpl. unfold log_op. destruct (sa_Insert k v (lg_adapter a)) as [[y b]|]; [|done]. by intros [= <- <-].
  - intros a k f _. split; [done|]. intros x a'. simpl. unfold log_op. destruct (sa_Update k f (lg_adapter a)) as [[y b]|]; [|done]. by intros [= <- <-].
  - intros a k _. split; [done|]. intros x a'. simpl. unfold log_op. destruct (sa_Delete k (lg_adapter a)) as [[y b]|]; [|done]. by intros [= <- <-].
Qed.

(** The keys a key generator holds suffice for every access it saw. *)
Definition covers (index : gmap string KeyType) (x : access * Key) : Prop :=
  ∃ ty, index !! x.2 = Some ty ∧ (x.1 = AWrites → ty = WRITE).

Lemma touch_covers fp a x : finalized_ a = false → x ∈ fp → covers (kg_index (foldl touch1 a fp)) x.
Proof.
  intros Ha. induction fp as [|y fp IH] using rev_ind; intros Hx; [by apply not_elem_of_nil in Hx|]. rewrite foldl_app. simpl.
  pose proof (touch_finalized fp a Ha) as Hf. set (b := foldl touch1 a fp) in *. clearbody b.
  apply elem_of_app in Hx as [Hx|Hx].
  - destruct (IH Hx) as (ty & Hty & Hw). destruct x as [acc k], y as [[] k']; unfold covers, touch1, NewReadKey, NewWriteKey; simpl in *; rewrite Hf.
    + destruct (kg_index b !! k') eqn:E; [by exists ty|]. simpl. exists ty. rewrite lookup_insert_ne; [done|]. intros ->. congruence.
    + simpl. destruct (decide (k' = k)) as [->|Hne]; [exists WRITE; by rewrite lookup_insert_eq|]. exists ty. by rewrite lookup_insert_ne.
  - apply list_elem_of_singleton in Hx as ->. destruct y as [[] k]; unfold covers, touch1, NewReadKey, NewWriteKey; simpl; rewrite Hf.
    + destruct (kg_index b !! k) as [ty|] eqn:E; [by exists ty|]. simpl. exists READ. by rewrite lookup_insert_eq.
    + simpl. exists WRITE. by rewrite lookup_insert_eq.
Qed.

(** ** All transactions *)

Inductive tpcc_txn :=
  | TNewOrder (t : NewOrderTxn)
  | TPayment (t : PaymentTxn)
  | TOrderStatus (t : OrderStatusTxn)
  | TDeliver (t : DeliverTxn)
  | TStockLevel (t : StockLevelTxn).

(** The arguments come from the constructors. *)
Inductive constructed : tpcc_txn → Prop :=
  | made_new_order w d c o dt iw ol : constructed (TNewOrder (MakeNewOrder w d c o dt iw ol))
  | made_payment w d cw cd c am dt h : constructed (TPayment (MakePayment w d cw cd c am dt h))
  | made_order_status w d c o : constructed (TOrderStatus (MakeOrderStatus w d c o))
  | made_deliver w d o c ca dt : constructed (TDeliver (MakeDeliver w d o c ca dt))
  | made_stock_level w d o ids : (- 2 ^ 31 + 20 ≤ o < 2 ^ 31)%Z → constructed (TStockLevel (MakeStockLevel w d o ids)).

Section all.
  Context {A : Type} `{StorageAdapter A}.

(** What a client runs to find the keys. *)
Definition generate_keys (x : tpcc_txn) : M A () :=
  match x with
  | TNewOrder t => '(t, _) ← new_order_Read t; _ ← new_order_Write t; mret ()
  | TPayment t => '(t, _) ← payment_Read t; _ ← payment_Write t; mret ()
  | TOrderStatus t => _ ← order_status_Read t; mret ()
  | TDeliver t => '(t, _) ← deliver_Read t; _ ← deliver_Write t; mret ()
  | TStockLevel t => _ ← stock_level_Read t; mret ()
  end.

(** What the server runs. *)
Definition execute (x : tpcc_txn) : M A bool :=
  match x with
  | TNewOrder t => '(_, ok) ← new_order_Execute t; mret ok
  | TPayment t => '(_, ok) ← payment_Execute t; mret ok
  | TOrderStatus t => '(_, ok) ← order_status_Execute t; mret ok
  | TDeliver t => '(_, ok) ← deliver_Execute t; mret ok
  | TStockLevel t => '(_, ok) ← stock_level_Execute t; mret ok
  end.
End all.

Definition read_fp (x : tpcc_txn) : list (access * Key) :=
  match x with
  | TNewOrder t => no_read_fp t
  | TPayment t => pa_read_fp t
  | TOrderStatus t => os_read_fp t
  | TDeliver t => de_read_fp t
  | TStockLevel t => sl_read_fp t
  end.

Definition write_fp (x : tpcc_txn) : list (access * Key) :=
  match x with
  | TNewOrder t => no_write_fp t
  | TPayment t => pa_write_fp t
  | TDeliver t => de_write_fp t
  | _ => []
  end.

Definition txn_wf (x : tpcc_txn) : Prop :=
  match x with
  | TNewOrder t => no_wf t
  | TPayment t => pa_wf t
  | TOrderStatus t => os_wf t
  | TDeliver t => de_wf t
  | TStockLevel t => sl_wf t
  end.

Lemma constructed_wf x : constructed x → txn_wf x.
Proof.
  destruct 1; simpl; split; simpl; auto using MakeInt8Scalar_arg, MakeInt32Scalar_arg, MakeInt64Scalar_arg.
  - apply Forall_fmap, Forall_true. intros l. split_and!; simpl; auto using MakeInt8Scalar_arg, MakeInt32Scalar_arg.
    exists 0, []. split; [done|simpl; lia].
  - rewrite wraps_id by lia. done.
  - apply Forall_fmap, Forall_true. intros i. apply MakeInt32Scalar_arg.
Qed.

Lemma new_order_Compute_same t0 t t' :
  new_order_Compute t = Ok t' → no_same t0 t → no_same t0 t' ∧ line_ids <$> no_ol t' = line_ids <$> no_ol t ∧ dist_info <$> no_ol t' = dist_info <$> no_ol t.
Proof.
  unfold new_order_Compute. destruct (signed32 _) as [n|]; [|done]. simpl. destruct (rmap compute_line (no_ol t)) as [ls|] eqn:E; [|done].
  intros [= <-] Hs. simpl. split; [done|].
  split; (eapply rmap_preserves; [|exact E]); intros x y; unfold compute_line; (destruct (signed32 _); [|done]); by intros [= <-].
Qed.

Lemma payment_Compute_same t0 t t' : payment_Compute t = Ok t' → pa_same t0 t → pa_same t0 t'.
Proof. unfold payment_Compute. repeat (destruct (signed64 _); simpl; try done). all: by intros [= <-]. Qed.

Lemma payment_Compute_data t t' : payment_Compute t = Ok t' → c_data t' = c_data t.
Proof. unfold payment_Compute. repeat (destruct (signed64 _); simpl; try done). all: by intros [= <-]. Qed.

Lemma deliver_Compute_same t0 t t' : deliver_Compute t = Ok t' → de_same t0 t → de_same t0 t'.
Proof. unfold deliver_Compute. destruct (signed64 _); [|done]; simpl. by intros [= <-]. Qed.

Lemma acts_generate_keys {A} `{StorageAdapter A} (T : A → list (access * Key) → A → Prop) P tot `{!Acts T P tot} x :
  txn_wf x → acts T P tot (generate_keys x) (λ _, True) (read_fp x ++ write_fp x).
Proof.
  intros Hx. assert (Hend : ∀ X (m : M A X) fp, acts T P tot m (λ _, True) fp → acts T P tot (m ≫= λ _, mret ()) (λ _, True) fp).
  { intros X m fp Hm. rewrite <-(app_nil_r fp). eapply (acts_bind T P tot); [exact Hm|]. intros _ _. by apply (acts_ret T P tot). }
  destruct x as [t|t|t|t|t]; cbn [generate_keys read_fp write_fp txn_wf] in *; rewrite ?app_nil_r.
  - eapply (acts_bind T P tot); [by apply (acts_new_order_Read T P tot)|]. intros [t' ok] (Hs & Hi & Hd). by apply Hend, (acts_new_order_Write T P tot).
  - eapply (acts_bind T P tot); [by apply (acts_payment_Read T P tot)|]. intros [t' ok] Hs. by apply Hend, (acts_payment_Write T P tot).
  - by apply Hend, (acts_order_status_Read T P tot).
  - eapply (acts_bind T P tot); [by apply (acts_deliver_Read T P tot)|]. intros [t' ok] Hs. by apply Hend, (acts_deliver_Write T P tot).
  - by apply Hend, (acts_stock_level_Read T P tot).
Qed.

(** An execution touches the cells of the reads, and those of the writes unless it stops. *)
Lemma execute_acts {A} `{StorageAdapter A} (T : A → list (access * Key) → A → Prop) P tot `{!Acts T P tot} x a ok a' :
  txn_wf x → P a → execute x a = Ok (ok, a') → T a (read_fp x) a' ∨ T a (read_fp x ++ write_fp x) a'.
Proof.
  intros Hx Ha. unfold execute. destruct x as [t|t|t|t|t]; cbn [read_fp write_fp txn_wf] in *; unfold mbind, M_bind at 1;
    [unfold new_order_Execute|unfold payment_Execute|unfold order_status_Execute|unfold deliver_Execute|unfold stock_level_Execute];
    destruct (run_txn _ _ _ t a) as [[[t' ok'] a1]|] eqn:E; try done; intros [= <- <-]; revert E.
  - eapply (run_txn_acts T P tot _ _ _ _ (λ r, no_same t r ∧ line_ids <$> no_ol r = line_ids <$> no_ol t ∧ Forall (λ l, text_ok (dist_info l)) (no_ol r)));
      [by apply (acts_new_order_Read T P tot)| |done].
    intros t1 t2 (Hs & Hi & Hd) HC. destruct (new_order_Compute_same t t1 t2 HC Hs) as (Hs2 & Hi2 & Hd2).
    apply (acts_new_order_Write T P tot); [done|done|congruence|].
    apply (Forall_fmap dist_info text_ok). rewrite Hd2. by apply Forall_fmap.
  - eapply (run_txn_acts T P tot _ _ _ _ (λ r, pa_kept tot t (r, true))); [|
      intros t1 t2 [Hs Hc] HC; apply (acts_payment_Write T P tot); [done|split; [by eapply payment_Compute_same|]]|done].
    + eapply (acts_weaken T P tot); [by apply (acts_payment_Read T P tot)| |done]. by intros [].
    + cbn [fst] in *. intros Htot. rewrite <-(Hc Htot). by eapply payment_Compute_data.
  - eapply (run_txn_acts T P tot _ _ _ _ (λ _, True)); [by apply (acts_order_status_Read T P tot)| |done].
    intros t1 t2 _ _. by apply (acts_ret T P tot).
  - eapply (run_txn_acts T P tot _ _ _ _ (λ r, de_same t r)); [by apply (acts_deliver_Read T P tot)| |done].
    intros t1 t2 Hs HC. apply (acts_deliver_Write T P tot); [done|by eapply deliver_Compute_same].
  - eapply (run_txn_acts T P tot _ _ _ _ (λ _, True)); [by apply (acts_stock_level_Read T P tot)| |done].
    intros t1 t2 _ _. by apply (acts_ret T P tot).
Qed.

(** ** What the client declares is what the server needs *)

Definition key_types (t : Transaction) : list (Key * KeyType) := (λ kv, (key kv, type (value_entry kv))) <$> keys t.

Lemma Finialize_keys visit a : key_types (kg_txn (Finialize visit a)) = visit (kg_index a).
Proof. unfold key_types. simpl. induction (visit (kg_index a)) as [|[k ty] l IH]; [done|]. by rewrite !fmap_cons, IH. Qed.

Lemma entries_types t (index : gmap string KeyType) k ty :
  key_types t ≡ₚ map_to_list index → index !! k = Some ty → ∃ v, entries t !! k = Some v ∧ type v = ty.
Proof.
  intros Hp Hk. apply elem_of_map_to_list in Hk. rewrite <-Hp in Hk.
  assert (Hnd : NoDup (key <$> keys t)).
  { replace (key <$> keys t) with ((key_types t).*1) by (unfold key_types; by rewrite <-list_fmap_compose).
    rewrite Hp. apply NoDup_fst_map_to_list. }
  apply list_elem_of_fmap in Hk as (kv & [= -> ->] & Hin). exists (value_entry kv). split; [|done].
  unfold entries. apply elem_of_list_to_map_1; [by rewrite <-list_fmap_compose|].
  apply list_elem_of_fmap. by exists kv.
Qed.

(** C22. The keys that a client declares for a TPC-C transaction, by running its reads and
    writes over the key generator (which finds nothing), are complete: generation always
    succeeds, and whatever the data, an execution over a transaction with these keys and
    types only ever reads, inserts, updates and deletes keys that it declares, and every key
    it writes is declared for writing. The order in which the hash table is visited does
    not matter. *)
Theorem tpcc_keys_complete (x : tpcc_txn) (t : Transaction) (visit : gmap string KeyType → list (Key * KeyType)) :
  constructed x → (∀ m, visit m ≡ₚ map_to_list m) →
  ∃ g, generate_keys x (MakeKeyGen t) = Ok ((), g) ∧
  ∀ t' ok s, key_types t' ≡ₚ key_types (kg_txn (Finialize visit g)) →
    execute x {| lg_adapter := MakeTxnStorageAdapter t'; lg_log := [] |} = Ok (ok, s) →
    ∀ acc k, (acc, k) ∈ lg_log s → ∃ v, entries t' !! k = Some v ∧ (acc = AWrites → type v = WRITE).
Proof.
  intros Hx%constructed_wf Hv. destruct (acts_generate_keys (λ a fp a', a' = foldl touch1 a fp) (λ a, finalized_ a = false) true x Hx (MakeKeyGen t) eq_refl) as [Ht Hr].
  destruct (Ht eq_refl) as ([] & g & E). exists g. split; [done|]. destruct (Hr _ _ E) as [-> _].
  intros t' ok s Hp He acc k Hin. rewrite Finialize_keys, Hv in Hp.
  assert (Hin' : (acc, k) ∈ read_fp x ++ write_fp x).
  { destruct (execute_acts (λ s fp s', lg_log s' = lg_log s ++ fp) (λ _, True) false x _ _ _ Hx I He) as [HT|HT]; rewrite HT in Hin; set_solver. }
  destruct (touch_covers _ (MakeKeyGen t) _ eq_refl Hin') as (ty & Hty & Hw).
  destruct (entries_types _ _ _ _ Hp Hty) as (v & Hv' & Hvt). exists v. split; [done|]. intros Hacc. rewrite Hvt. by apply Hw.
Qed.

(** ** Witness *)

Definition fresh_txn : Transaction := make_txn 0 UNKNOWN (-1) (kCode []) [].

Definition example_payment : tpcc_txn := TPayment (MakePayment 1 2 3 4 5 600 700 8).

Lemma tpcc_keys_complete_witness :
  ∃ g, generate_keys example_payment (MakeKeyGen fresh_txn) = Ok ((), g) ∧
  (∀ t' ok s, key_types t' ≡ₚ key_types (kg_txn (Finialize map_to_list g)) →
    execute example_payment {| lg_adapter := MakeTxnStorageAdapter t'; lg_log := [] |} = Ok (ok, s) →
    ∀ acc k, (acc, k) ∈ lg_log s → ∃ v, entries t' !! k = Some v ∧ (acc = AWrites → type v = WRITE)) ∧
  execute example_payment {| lg_adapter := MakeTxnStorageAdapter (kg_txn (Finialize map_to_list g)); lg_log := [] |} =
    Ok (false, {| lg_adapter := MakeTxnStorageAdapter (kg_txn (Finialize map_to_list g)); lg_log := read_fp example_payment |}).
Proof.
  destruct (tpcc_keys_complete example_payment fresh_txn map_to_list) as (g & Hg & Hk); [constructor|done|].
  exists g. split; [exact Hg|]. split; [exact Hk|]. vm_compute in Hg. injection Hg as <-. vm_compute. reflexivity.
Defined.
