(* ===== verification/Random.v ===== *)
(** * Random choices

    The random-number facilities the workloads use, and [zipf_sample] of
    [workload/workload.h], [SampleOnce] of [workload/basic.cpp] and [workload/tpcc.cpp],
    [KeyBatch] of [workload/cockroach.cpp] and [RandomStringGenerator] of
    [common/string_utils.cpp]. A generator is a stream of numbers, so a distribution is the
    set of values it can give: every sequence of choices is the result of some stream. *)
From Stdlib Require Import Ascii QArith_base.
From S2P Require Import Prelude Types Table.

Record rng := { draws : nat → Z; drawn : nat }.

Definition draw : M rng Z := λ g, Ok (draws g (drawn g), {| draws := draws g; drawn := S (drawn g) |}).

(** [std::uniform_int_distribution]; the bounds must be in order. *)
Definition uniform (a b : Z) : M rng Z :=
  if decide (a ≤ b)%Z then v ← draw; mret (a + v `mod` (b - a + 1))%Z
  else lift (Err (Undef "std::uniform_int_distribution")).

(** [std::bernoulli_distribution]; the outcome is certain at both ends. *)
Definition bernoulli (p : Q) : M rng bool :=
  v ← draw;
  mret (if Qle_bool p 0 then false else if Qle_bool 1 p then true else Z.odd v).

(** [std::discrete_distribution] gives the index of a positive weight. *)
Definition discrete (weights : list Z) : M rng nat :=
  if decide (Forall (λ w, 0 ≤ w)%Z weights) then
    let choices := filter (λ i, (0 < weights !!! i)%Z) (seq 0 (length weights)) in
    i ← uniform 0 (Z.of_nat (length choices) - 1);
    lift (at_index choices (Z.to_nat i))
  else lift (Err (Undef "std::discrete_distribution")).

Definition SampleOnce {X} (source : list X) : M rng X :=
  if decide (length source = 0) then lift (Err (Fatal "Check failed: !source.empty()"))
  else
    i ← uniform 0 (Z.of_nat (length source) - 1);
    lift (at_index source (Z.to_nat i)).

(** [std::shuffle]: every element changes places with one before it or stays. *)
Definition swap_at {X} (l : list X) (i j : nat) : list X :=
  match l !! i, l !! j with
  | Some x, Some y => <[i := y]> (<[j := x]> l)
  | _, _ => l
  end.

Definition shuffle {X} (l : list X) : M rng (list X) :=
  mfoldl (λ l i, j ← uniform 0 (Z.of_nat i); mret (swap_at l i (Z.to_nat j))) l (seq 1 (length l - 1)).

(** The loop that asks again until the choice is not taken. *)
Fixpoint pick_until {X} (n : nat) (pick : M rng X) (taken : X → bool) : M rng X :=
  match n with
  | 0 => lift (Err OutOfFuel)
  | S n => next ← pick; if taken next then pick_until n pick taken else mret next
  end.

Definition is_in (res : list Z) (x : Z) : bool := bool_decide (x ∈ res).

(** ** [zipf_sample]

    All weights of [zipf_distribution] are positive, so every element can be chosen. Without
    elements the distribution still gives 0. *)
Section zipf.
  Context (fuel : nat).

Definition zipf_pick (source : list Z) : M rng Z :=
  i ← (if decide (length source = 0) then mret 0%Z else uniform 0 (Z.of_nat (length source) - 1));
  lift (at_index source (Z.to_nat i)).

Definition zipf_sample (source : list Z) (n : nat) : M rng (list Z) :=
  mfoldl (λ res _, next ← pick_until fuel (zipf_pick source) (is_in res); mret (res ++ [next])) [] (seq 0 n).

(** [KeyBatch]: the first key follows [zipf], the others are drawn until they are new. *)
Definition KeyBatch (zipf : M rng Z) (max : Z) (n : nat) : M rng (list Z) :=
  match n with
  | 0 => mret []
  | S n =>
    first ← zipf;
    if decide (max < 0)%Z then lift (Err (Undef "std::uniform_int_distribution"))
    else mfoldl (λ res _, next ← pick_until fuel (uniform 0 max) (is_in res); mret (res ++ [next])) [first] (seq 0 n)
  end.
End zipf.

(** ** [RandomStringGenerator] *)

Definition kCharacters : list ascii := chars "ABCDEFGHIJKLMNOPQRSTUVWXYZabcdefghijklmnopqrstuvwxyz ".

Record RandomStringGenerator := { rnd_str_pool_offset_ : nat; rnd_str_pool_ : list ascii }.

Definition MakeRandomStringGenerator (pool_size : nat) : M rng RandomStringGenerator :=
  pool ← mfoldl (λ l _, i ← uniform 0 (Z.of_nat (length kCharacters) - 1);
                        c ← lift (at_index kCharacters (Z.to_nat i)); mret (l ++ [c])) [] (seq 0 pool_size);
  mret {| rnd_str_pool_offset_ := 0; rnd_str_pool_ := pool |}.

Definition next_string (g : RandomStringGenerator) (len : nat) : string * RandomStringGenerator :=
  let off := if decide (length (rnd_str_pool_ g) ≤ rnd_str_pool_offset_ g + len) then 0 else rnd_str_pool_offset_ g in
  (of_chars (take len (drop off (rnd_str_pool_ g))),
   {| rnd_str_pool_offset_ := off + len; rnd_str_pool_ := rnd_str_pool_ g |}).

(** ** What random computations give

    A stream is fair when every remainder comes up again and again; a loop that waits for one
    then ends. [gives m Q]: over a fair stream, [m] with enough fuel has a result, more fuel
    does not change it, and the result satisfies [Q]. *)
Definition fair (s : nat → Z) : Prop :=
  ∀ (n i : Z) (p : nat), (0 ≤ i < n)%Z → ∃ q, p ≤ q ∧ (s q `mod` n)%Z = i.

Definition gives {X} (m : nat → M rng X) (Q : X → Prop) : Prop :=
  ∀ g, fair (draws g) →
    ∃ n x g', (∀ n', n ≤ n' → m n' g = Ok (x, g')) ∧ draws g' = draws g ∧ Q x.

Lemma gives_ret {X} (x : X) (Q : X → Prop) : Q x → gives (λ _, mret x) Q.
Proof. intros HQ g _. by exists 0, x, g. Qed.

Lemma gives_lift {X} (r : result X) x (Q : X → Prop) : r = Ok x → Q x → gives (λ _, lift r) Q.
Proof. intros -> HQ. by apply gives_ret. Qed.

Lemma gives_bind {X Y} (m : nat → M rng X) (k : nat → X → M rng Y) Q R :
  gives m Q → (∀ x, Q x → gives (λ n, k n x) R) → gives (λ n, m n ≫= k n) R.
Proof.
  intros Hm Hk g Hg. destruct (Hm g Hg) as (n1 & x & g1 & H1 & E1 & HQ).
  destruct (Hk x HQ g1) as (n2 & y & g2 & H2 & E2 & HR); [by rewrite E1|].
  exists (n1 `max` n2), y, g2. split; [|split; [congruence|done]]. intros n' Hn'.
  rewrite (M_bind_Ok _ _ _ x g1) by (apply H1; lia). apply H2. lia.
Qed.

Lemma gives_weaken {X} (m : nat → M rng X) (Q R : X → Prop) : gives m Q → (∀ x, Q x → R x) → gives m R.
Proof. intros Hm HQ g Hg. destruct (Hm g Hg) as (n & x & g' & H1 & H2 & H3). exists n, x, g'. auto. Qed.

Lemma gives_ext {X} (m m' : nat → M rng X) Q : (∀ n g, m n g = m' n g) → gives m Q → gives m' Q.
Proof.
  intros He Hm g Hg. destruct (Hm g Hg) as (n & x & g' & H1 & H2 & H3). exists n, x, g'.
  split; [|done]. intros n' Hn'. rewrite <-He. auto.
Qed.

Lemma gives_mfoldl {X Y} (f : nat → Y → X → M rng Y) (Q : list X → Y → Prop) y pre l :
  (∀ y x pre' post, pre ++ l = pre' ++ x :: post → Q pre' y → gives (λ n, f n y x) (Q (pre' ++ [x]))) →
  Q pre y → gives (λ n, mfoldl (f n) y l) (Q (pre ++ l)).
Proof.
  revert pre y. induction l as [|x l IH]; intros pre y Hf HQ; [rewrite app_nil_r; by apply gives_ret|].
  cbn [mfoldl]. apply (gives_bind (λ n, f n y x) (λ n y', mfoldl (f n) y' l) (Q (pre ++ [x]))); [by apply (Hf y x pre l)|].
  intros y' Hy'. replace (pre ++ x :: l) with ((pre ++ [x]) ++ l) by (by rewrite <-app_assoc).
  apply IH; [|done]. intros z w pre' post E. rewrite <-app_assoc in E. by apply (Hf z w pre' post).
Qed.

Lemma gives_draw (Q : Z → Prop) : (∀ v, Q v) → gives (λ _, draw) Q.
Proof. intros HQ g _. by eexists 0, _, _. Qed.

Lemma gives_uniform a b (Q : Z → Prop) :
  (a ≤ b)%Z → (∀ v, (a ≤ v ≤ b)%Z → Q v) → gives (λ _, uniform a b) Q.
Proof.
  intros Hab HQ. unfold uniform. rewrite decide_True by done.
  apply (gives_bind (λ _, draw) (λ _ v, mret (a + v `mod` (b - a + 1))%Z) (λ _, True)); [by apply gives_draw|].
  intros v _. apply gives_ret, HQ. pose proof (Z.mod_pos_bound v (b - a + 1)). lia.
Qed.

Lemma gives_bernoulli p : gives (λ _, bernoulli p) (λ b, (p <= 0)%Q → b = false).
Proof.
  apply (gives_bind (λ _, draw) (λ _ v, mret _) (λ _, True)); [by apply gives_draw|].
  intros v _. apply gives_ret. intros Hp%Qle_bool_iff. by rewrite Hp.
Qed.

Lemma gives_SampleOnce {X} (source : list X) : source ≠ [] → gives (λ _, SampleOnce source) (λ x, x ∈ source).
Proof.
  intros Hne. unfold SampleOnce. assert (length source ≠ 0) by (by destruct source). rewrite decide_False by done.
  apply (gives_bind (λ _, uniform _ _) (λ _ i, lift _) (λ i, (0 ≤ i ≤ Z.of_nat (length source) - 1)%Z)).
  { apply gives_uniform; [lia|auto]. }
  intros i Hi. destruct (lookup_lt_is_Some_2 source (Z.to_nat i)) as [x Hx]; [lia|].
  eapply gives_lift; [by apply at_index_Some|]. by eapply list_elem_of_lookup_2.
Qed.

Lemma gives_discrete ws :
  Forall (λ w, 0 ≤ w)%Z ws → Exists (λ w, 0 < w)%Z ws → gives (λ _, discrete ws) (λ i, ∃ w, ws !! i = Some w ∧ (0 < w)%Z).
Proof.
  intros Hall Hex. unfold discrete. rewrite decide_True by done.
  set (choices := filter (λ i, (0 < ws !!! i)%Z) (seq 0 (length ws))).
  assert (Hin : ∀ i, i ∈ choices → ∃ w, ws !! i = Some w ∧ (0 < w)%Z).
  { intros i [Hi Hs%elem_of_seq]%list_elem_of_filter. destruct (lookup_lt_is_Some_2 ws i) as [w Hw]; [lia|].
    exists w. split; [done|]. by rewrite (list_lookup_total_correct _ _ _ Hw) in Hi. }
  assert (Hne : choices ≠ []).
  { apply Exists_exists in Hex as (w & [i Hi]%list_elem_of_lookup & Hw). intros E.
    apply (not_elem_of_nil i). rewrite <-E. apply list_elem_of_filter. rewrite (list_lookup_total_correct _ _ _ Hi).
    split; [done|]. apply elem_of_seq. apply lookup_lt_Some in Hi. lia. }
  apply (gives_bind (λ _, uniform _ _) (λ _ i, lift _) (λ i, (0 ≤ i ≤ Z.of_nat (length choices) - 1)%Z)).
  { apply gives_uniform; [destruct choices; [done|simpl; lia]|auto]. }
  intros i Hi. destruct (lookup_lt_is_Some_2 choices (Z.to_nat i)) as [x Hx]; [lia|].
  eapply gives_lift; [by apply at_index_Some|]. apply Hin. by eapply list_elem_of_lookup_2.
Qed.

Lemma swap_at_perm {X} (l : list X) i j : swap_at l i j ≡ₚ l.
Proof.
  unfold swap_at. destruct (l !! i) as [x|] eqn:Ei; [|done]. destruct (l !! j) as [y|] eqn:Ej; [|done].
  destruct (decide (i = j)) as [->|Hne]; [|].
  - rewrite list_insert_insert_eq. assert (x = y) as -> by congruence. by rewrite list_insert_id.
  - apply Permutation_inj. split; [by rewrite !length_insert|].
    set (f := λ k, if decide (k = i) then j else if decide (k = j) then i else k). exists f. split.
    + intros a b. unfold f. repeat case_decide; congruence.
    + intros k. unfold f. rewrite !list_lookup_insert. repeat case_decide; destruct_and?; subst; try done.
      all: try (by apply lookup_lt_Some in Ei; apply lookup_lt_Some in Ej; rewrite ?length_insert in *; exfalso; tauto || lia).
Qed.

Lemma gives_shuffle {X} (l : list X) : gives (λ _, shuffle l) (λ l', l' ≡ₚ l).
Proof.
  unfold shuffle. apply (gives_mfoldl (λ _ l i, _) (λ _ l', l' ≡ₚ l) l []); [|done].
  intros l' i pre post _ Hp.
  apply (gives_bind (λ _, uniform _ _) (λ _ j, mret _) (λ _, True)); [by apply gives_uniform; [lia|]|].
  intros j _. apply gives_ret. by rewrite swap_at_perm.
Qed.

(** A loop that draws once in every round ends when the right remainder comes up. *)
Lemma pick_until_run {X} pick (f : Z → X) taken k g :
  (∀ g, pick g = Ok (f (draws g (drawn g)), {| draws := draws g; drawn := S (drawn g) |})) →
  taken (f (draws g (drawn g + k))) = false →
  ∃ x g', (∀ n', k < n' → pick_until n' pick taken g = Ok (x, g')) ∧ draws g' = draws g ∧ taken x = false ∧ ∃ v, x = f v.
Proof.
  intros Hp. revert g. induction k as [|k IH]; intros g Hk.
  - rewrite Nat.add_0_r in Hk. eexists _, _. split.
    + intros [|n'] Hn'; [lia|]. cbn [pick_until]. rewrite (M_bind_Ok _ _ _ _ _ (Hp g)). by rewrite Hk.
    + split; [done|]. split; [done|by eexists].
  - destruct (taken (f (draws g (drawn g)))) eqn:Hin.
    + destruct (IH {| draws := draws g; drawn := S (drawn g) |}) as (x & g' & Hrun & Hd & Hx).
      { simpl. by rewrite Nat.add_succ_r in Hk. }
      exists x, g'. split; [|done]. intros [|n'] Hn'; [lia|]. cbn [pick_until]. rewrite (M_bind_Ok _ _ _ _ _ (Hp g)).
      rewrite Hin. apply Hrun. lia.
    + eexists _, _. split.
      * intros [|n'] Hn'; [lia|]. cbn [pick_until]. rewrite (M_bind_Ok _ _ _ _ _ (Hp g)). by rewrite Hin.
      * split; [done|]. split; [done|by eexists].
Qed.

Lemma gives_pick_until {X} pick (f : Z → X) taken (n i : Z) :
  (∀ g, pick g = Ok (f (draws g (drawn g)), {| draws := draws g; drawn := S (drawn g) |})) →
  (0 ≤ i < n)%Z → (∀ v, (v `mod` n)%Z = i → taken (f v) = false) →
  gives (λ fuel, pick_until fuel pick taken) (λ x, taken x = false ∧ ∃ v, x = f v).
Proof.
  intros Hp Hi Hf g Hg. destruct (Hg n i (drawn g) Hi) as (q & Hq & Hv).
  destruct (pick_until_run pick f taken (q - drawn g) g Hp) as (x & g' & Hrun & Hd & Hx).
  { replace (drawn g + (q - drawn g)) with q by lia. by apply Hf. }
  exists (S (q - drawn g)), x, g'. split; [|done]. intros n' Hn'. apply Hrun. lia.
Qed.

Lemma uniform_spec a b g :
  (a ≤ b)%Z → uniform a b g = Ok ((a + draws g (drawn g) `mod` (b - a + 1))%Z, {| draws := draws g; drawn := S (drawn g) |}).
Proof. intros Hab. unfold uniform. by rewrite decide_True. Qed.

(** A list with more different elements than [res] has one that is not in [res]. *)
Lemma fresh_element `{EqDecision X} (source res : list X) : NoDup source → length res < length source → ∃ x, x ∈ source ∧ x ∉ res.
Proof.
  intros Hnd Hl. destruct (decide (Exists (λ x, x ∉ res) source)) as [(x & Hx & Hr)%Exists_exists|Hn]; [by exists x|].
  exfalso. apply not_Exists_Forall in Hn; [|apply _].
  assert (source ⊆+ res) as Hs%submseteq_length; [|lia].
  apply NoDup_submseteq; [done|]. intros x Hx. rewrite Forall_forall in Hn. specialize (Hn x Hx). simpl in Hn.
  destruct (decide (x ∈ res)); done.
Qed.

Lemma zipf_pick_spec source g :
  source ≠ [] →
  zipf_pick source g = Ok (source !!! Z.to_nat (draws g (drawn g) `mod` Z.of_nat (length source)),
                           {| draws := draws g; drawn := S (drawn g) |}).
Proof.
  intros Hne. assert (Hl : 0 < length source) by (destruct source; [done|simpl; lia]). unfold zipf_pick.
  rewrite decide_False by lia. erewrite M_bind_Ok by (apply uniform_spec; lia).
  replace (Z.of_nat (length source) - 1 - 0 + 1)%Z with (Z.of_nat (length source)) by lia. rewrite Z.add_0_l.
  pose proof (Z.mod_pos_bound (draws g (drawn g)) (Z.of_nat (length source)) ltac:(lia)) as Hb.
  destruct (lookup_lt_is_Some_2 source (Z.to_nat (draws g (drawn g) `mod` Z.of_nat (length source)))) as [x Hx]; [lia|].
  rewrite (at_index_Some _ _ _ Hx). by rewrite (list_lookup_total_correct _ _ _ Hx).
Qed.

(** One more element. *)
Lemma gives_zipf_next source res :
  NoDup source → length res < length source →
  gives (λ fuel, pick_until fuel (zipf_pick source) (is_in res)) (λ x, x ∉ res ∧ x ∈ source).
Proof.
  intros Hnd Hlt. destruct (fresh_element source res Hnd Hlt) as (x & [i Hi]%list_elem_of_lookup & Hx).
  pose proof (lookup_lt_Some _ _ _ Hi) as Hil. assert (source ≠ []) by (destruct source; simpl in *; [lia|done]).
  eapply gives_weaken.
  - apply (gives_pick_until _ (λ v, source !!! Z.to_nat (v `mod` Z.of_nat (length source))) (is_in res) (Z.of_nat (length source)) (Z.of_nat i)).
    + intros g. by apply zipf_pick_spec.
    + lia.
    + intros v ->. rewrite Nat2Z.id, (list_lookup_total_correct _ _ _ Hi). by apply bool_decide_false.
  - intros y [Hy%bool_decide_eq_false [v ->]]. split; [done|]. pose proof (Z.mod_pos_bound v (Z.of_nat (length source)) ltac:(lia)) as Hb.
    apply list_elem_of_lookup_2 with (Z.to_nat (v `mod` Z.of_nat (length source))). apply list_lookup_lookup_total_lt. lia.
Qed.

Definition sample_of (source : list Z) (n : nat) (res : list Z) : Prop :=
  length res = n ∧ NoDup res ∧ ∀ x, x ∈ res → x ∈ source.

Lemma gives_zipf_sample source n :
  NoDup source → n ≤ length source → gives (λ fuel, zipf_sample fuel source n) (sample_of source n).
Proof.
  intros Hnd Hn. unfold zipf_sample. eapply gives_weaken.
  - apply (gives_mfoldl (λ fuel res _, next ← pick_until fuel (zipf_pick source) (is_in res); mret (res ++ [next]))
      (λ pre res, sample_of source (length pre) res) [] [] (seq 0 n)).
    + intros res i pre post E (Hl & Hd & Hs).
      assert (Hlp : length pre < n).
      { apply (f_equal length) in E. simpl in E. rewrite length_app, length_seq in E. simpl in E. lia. }
      apply (gives_bind (λ fuel, pick_until fuel (zipf_pick source) (is_in res)) (λ _ x, mret (res ++ [x])) _ _
        (gives_zipf_next source res Hnd ltac:(lia))).
      intros x [Hx Hin]. apply gives_ret. split_and!.
      * rewrite !length_app. simpl. lia.
      * apply NoDup_app. split_and!; [done|set_solver|apply NoDup_singleton].
      * intros y [Hy| ->%list_elem_of_singleton]%elem_of_app; auto.
    + split_and!; [done|constructor|set_solver].
  - intros res. by rewrite app_nil_l, length_seq.
Qed.

(** Asking for more elements than there are never ends. *)
Lemma pick_until_stuck source res fuel g :
  source ≠ [] → (∀ x, x ∈ source → x ∈ res) → pick_until fuel (zipf_pick source) (is_in res) g = Err OutOfFuel.
Proof.
  intros Hne Hall. revert g. induction fuel as [|fuel IH]; intros g; [done|]. cbn [pick_until].
  rewrite (M_bind_Ok _ _ _ _ _ (zipf_pick_spec source g Hne)). unfold is_in. rewrite bool_decide_true; [apply IH|]. apply Hall.
  assert (0 < length source) by (destruct source; [done|simpl; lia]).
  pose proof (Z.mod_pos_bound (draws g (drawn g)) (Z.of_nat (length source)) ltac:(lia)) as Hb.
  apply list_elem_of_lookup_2 with (Z.to_nat (draws g (drawn g) `mod` Z.of_nat (length source))).
  apply list_lookup_lookup_total_lt. lia.
Qed.

(** A fair stream: every number comes up after every square large enough. *)
Definition square_gaps (q : nat) : Z := Z.of_nat (q - Nat.sqrt q * Nat.sqrt q).

Lemma square_gaps_fair : fair square_gaps.
Proof.
  intros n i p Hi. set (m := p `max` Z.to_nat i). exists (m * m + Z.to_nat i). split; [nia|].
  unfold square_gaps. assert (Nat.sqrt (m * m + Z.to_nat i) = m) as ->.
  { apply Nat.sqrt_unique. lia. }
  replace (m * m + Z.to_nat i - m * m) with (Z.to_nat i) by lia. rewrite Z2Nat.id by lia. apply Z.mod_small. lia.
Qed.

(** ** Strings *)

Lemma next_string_length g len :
  len ≤ length (rnd_str_pool_ g) → length (chars (next_string g len).1) = len.
Proof.
  intros Hl. simpl. rewrite chars_of_chars, length_take, length_drop. case_decide; lia.
Qed.
