(* ===== verification/Workload.v ===== *)
(** * Workloads

    [workload/workload.h]: the parameters of a workload, the profile of a generated
    transaction, and the lists of keys that a workload chooses from. Reading a floating-point
    number is the argument [stod]. *)
From Stdlib Require Import Ascii QArith_base.
From S2P Require Import Prelude Types StringUtils Config Sharder ProtoUtils Execution Table Random.

(** ** Parameters *)

Definition RawParamMap := gmap string string.

(** [Parse]: the loop over the tokens; every round moves forward in the string. *)
Fixpoint parse_params (fuel : nat) (str : list ascii) (pos : nat) (m : RawParamMap) : result RawParamMap :=
  match fuel with
  | 0 => Ok m
  | S fuel =>
    match NextToken str (chars ";,") pos with
    | (_, None) => Ok m
    | (token, Some pos) =>
      match find_first_of token (chars "=") 0 with
      | None => Err (Exn ("std::runtime_error: Invalid workload param token: " +:+ of_chars token))
      | Some eq_pos =>
        parse_params fuel str pos
          (<[of_chars (Trim (take eq_pos token)) := of_chars (Trim (drop (S eq_pos) token))]> m)
      end
    end
  end.

Definition Parse (params_str : string) : result RawParamMap :=
  parse_params (S (length (chars params_str))) (chars params_str) 0 ∅.

(** The default parameters with the values of the string, which names no other parameter. *)
Definition MakeWorkloadParams (default_params : RawParamMap) (params_str : string) : result RawParamMap :=
  new_params ← Parse params_str;
  if decide (dom new_params ⊆ dom default_params) then Ok (new_params ∪ default_params)
  else Err (Exn "std::runtime_error: Unknown param for current workload").

Definition GetString (p : RawParamMap) (k : string) : result string :=
  match p !! k with Some v => Ok v | None => Err (Exn "std::runtime_error: Key does not exist") end.

Definition GetInt32 (p : RawParamMap) (k : string) : result Z := v ← GetString p k; stoi (chars v).
Definition GetInt64 (p : RawParamMap) (k : string) : result Z := v ← GetString p k; stoll (chars v).
Definition GetUInt64 (p : RawParamMap) (k : string) : result Z := v ← GetString p k; stoull (chars v).
Definition GetUInt32 (p : RawParamMap) (k : string) : result Z := v ← GetUInt64 p k; Ok (u32 v).
Definition GetBool (p : RawParamMap) (k : string) : result bool := v ← GetString p k; Ok (bool_decide (v = "true"%string)).
Definition GetDouble (stod : string → result Q) (p : RawParamMap) (k : string) : result Q := v ← GetString p k; stod v.

(** The second map only adds parameters that the first has not. *)
Definition MergeParams (p1 p2 : RawParamMap) : RawParamMap := p1 ∪ p2.

(** ** Profiles *)

Record ProfileRecord := { pr_partition : Z; pr_home : Z; is_hot : bool; is_write : bool }.

Record TransactionProfile := {
  client_txn_id : TxnId;
  is_multi_home : bool;
  is_multi_partition : bool;
  records : gmap string ProfileRecord
}.

Definition profile_replicas (p : TransactionProfile) : gset Z := list_to_set ((λ e, pr_home e.2) <$> map_to_list (records p)).
Definition profile_partitions (p : TransactionProfile) : gset Z := list_to_set ((λ e, pr_partition e.2) <$> map_to_list (records p)).

(** ** Lists of keys

    A list is simple when its keys are computed; the others collect the keys they are given.
    The members that are set only for a simple list are not read otherwise, or their value is
    undefined. *)
Inductive KeyList :=
  | SimpleKeys (partition master np nr num_keys num_hot_keys : Z)
  | ListedKeys (num_hot_keys : Z) (hot_keys cold_keys : list Key).

Definition MakeSimpleKeyList (num_records np nr partition master num_hot_keys : Z) : KeyList :=
  SimpleKeys partition master np nr
    (Z.max 1 (Z.quot (Z.quot (num_records - partition) np - master) nr)) num_hot_keys.

Definition AddKey (l : KeyList) (k : Key) : result KeyList :=
  match l with
  | SimpleKeys _ _ _ _ _ _ => Err (Exn "std::runtime_error: Cannot add keys to a simple key list")
  | ListedKeys n hot cold =>
    Ok (if decide (Z.of_nat (length hot) < n)%Z then ListedKeys n (hot ++ [k]) cold else ListedKeys n hot (cold ++ [k]))
  end.

(** The key at position [i] of a simple list. *)
Definition nth_key (partition master np nr i : Z) : Key := to_string (u64 (np * (i * nr + master) + partition)).

Definition uninitialized {X} : M rng X := lift (Err (Undef "uninitialized member of KeyList")).

Definition GetRamdomKey (l : KeyList) (bias : Z) : M rng Key :=
  match l with
  | SimpleKeys _ master _ nr num_keys _ =>
    random_num ← uniform 0 (u64 num_keys);
    mret (to_string (u64 (if decide (random_num ≤ u64 (Z.quot num_keys 100 * u32 bias))%Z
                          then random_num * nr + Z.rem (master + 1) nr else random_num * nr + master)))
  | ListedKeys _ _ _ => uninitialized
  end.

Definition GetLocalKey (l : KeyList) (overlap_ratio : Z) : M rng Key :=
  match l with
  | SimpleKeys partition master np nr num_keys _ =>
    i ← uniform 0 (u64 (Z.quot (num_keys * (100 - overlap_ratio)) 100 - 1));
    mret (nth_key partition master np nr i)
  | ListedKeys _ _ _ => uninitialized
  end.

Definition GetCommonKey (l : KeyList) (overlap_ratio : Z) : M rng Key :=
  match l with
  | SimpleKeys partition master np nr num_keys _ =>
    i ← uniform (u64 (num_keys - Z.quot (Z.quot (num_keys * overlap_ratio) 100) nr - 1)) (u64 (num_keys - 1));
    mret (nth_key partition master np nr i)
  | ListedKeys _ _ _ => uninitialized
  end.

(** An index into one of the collected lists is a 32-bit number. *)
Definition listed_key (keys : list Key) : M rng Key :=
  i ← uniform 0 (u32 (Z.of_nat (length keys) - 1));
  lift (at_index keys (Z.to_nat i)).

Definition GetRandomHotKey (l : KeyList) : M rng Key :=
  match l with
  | SimpleKeys partition master np nr num_keys num_hot_keys =>
    if decide (num_hot_keys = 0)%Z then lift (Err (Exn "std::runtime_error: There is no hot key to pick from."))
    else
      i ← uniform 0 (u64 (Z.min num_hot_keys num_keys - 1));
      mret (nth_key partition master np nr i)
  | ListedKeys num_hot_keys hot _ =>
    if decide (num_hot_keys = 0)%Z then lift (Err (Exn "std::runtime_error: There is no hot key to pick from."))
    else listed_key hot
  end.

Definition GetRandomColdKey (l : KeyList) : M rng Key :=
  match l with
  | SimpleKeys partition master np nr num_keys num_hot_keys =>
    if decide (num_keys ≤ num_hot_keys)%Z then lift (Err (Exn "std::runtime_error: There is no cold key to pick from."))
    else
      i ← uniform (u64 num_hot_keys) (u64 (num_keys - 1));
      mret (nth_key partition master np nr i)
  | ListedKeys _ _ cold =>
    if decide (length cold = 0) then lift (Err (Exn "std::runtime_error: There is no cold key to pick from."))
    else listed_key cold
  end.

(** ** Where the keys of a simple list live *)

(** The partition that the sharder computes for a key, and its initial master. *)
Definition placed (np nr partition master : Z) (k : Key) : Prop :=
  simple_compute_partition np k = Ok partition ∧ simple_Compute nr np k = Ok (NewMetadata master).

Lemma nth_number_nonneg np nr partition master i :
  (0 ≤ partition < np → 0 ≤ master < nr → 0 ≤ i → 0 ≤ np * (i * nr + master) + partition)%Z.
Proof.
  intros Hp Hm Hi. assert (0 ≤ i * nr)%Z by (apply Z.mul_nonneg_nonneg; lia).
  assert (0 ≤ np * (i * nr + master))%Z by (apply Z.mul_nonneg_nonneg; lia). lia.
Qed.

Lemma nth_key_placed np nr partition master i :
  (0 ≤ partition < np)%Z → (0 ≤ master < nr)%Z → (np < 2 ^ 31)%Z → (nr < 2 ^ 31)%Z → (0 ≤ i)%Z →
  (np * (i * nr + master) + partition < 2 ^ 63)%Z → placed np nr partition master (nth_key partition master np nr i).
Proof.
  intros Hp Hm Hnp Hnr Hi Hb. unfold placed, nth_key. set (v := (np * (i * nr + master) + partition)%Z) in *.
  assert (Hv : (0 ≤ v)%Z) by (by apply nth_number_nonneg).
  assert (Hmod : (v `mod` np)%Z = partition).
  { unfold v. rewrite Z.add_comm, Z.mul_comm, Z.mod_add by lia. by apply Z.mod_small. }
  assert (Hdiv : (v `div` np)%Z = (i * nr + master)%Z).
  { unfold v. rewrite Z.add_comm, Z.mul_comm, Z.div_add, Z.div_small by lia. lia. }
  assert (E : u64 v = v) by (unfold wrapu; apply Z.mod_small; lia). rewrite E. split.
  - unfold simple_compute_partition. rewrite to_string_unsigned by lia. rewrite stoll_to_string by lia. cbn [mbind result_bind].
    rewrite Z.rem_mod_nonneg, Hmod by lia. f_equal. apply u32_small. lia.
  - unfold simple_Compute. rewrite stoull_to_string by lia. cbn [mbind result_bind]. rewrite decide_False by lia.
    rewrite Hdiv, Z.add_comm, Z.mod_add, Z.mod_small by lia. unfold NewMetadata. do 2 f_equal. apply u32_small. lia.
Qed.

Lemma nth_key_inj np nr partition master i j :
  (0 ≤ partition < np)%Z → (0 ≤ master < nr)%Z → (0 ≤ i)%Z → (0 ≤ j)%Z →
  (np * (i * nr + master) + partition < 2 ^ 63)%Z → (np * (j * nr + master) + partition < 2 ^ 63)%Z →
  nth_key partition master np nr i = nth_key partition master np nr j → i = j.
Proof.
  intros Hp Hm Hi Hj Hbi Hbj. pose proof (nth_number_nonneg np nr partition master i Hp Hm Hi).
  pose proof (nth_number_nonneg np nr partition master j Hp Hm Hj).
  unfold nth_key, wrapu. rewrite !Z.mod_small by lia. intros E%to_string_inj; [|done|done].
  assert (np * (i * nr) = np * (j * nr))%Z as E2%Z.mul_reg_l%Z.mul_reg_r by lia; lia.
Qed.

(** ** Choosing a key that is not in the transaction yet *)

Definition is_taken (rs : gmap string ProfileRecord) (k : Key) : bool := bool_decide (is_Some (rs !! k)).

Record simple_list (np nr : Z) (l : KeyList) (partition master num_keys num_hot : Z) : Prop := {
  sl_eq : l = SimpleKeys partition master np nr num_keys num_hot;
  sl_partition : (0 ≤ partition < np)%Z;
  sl_master : (0 ≤ master < nr)%Z;
  sl_np : (np < 2 ^ 31)%Z;
  sl_nr : (nr < 2 ^ 31)%Z;
  sl_hot : (0 < num_hot < 2 ^ 63)%Z;
  sl_keys : (0 < num_keys)%Z;
  sl_bound : (np * (num_keys * nr + master) + partition < 2 ^ 63)%Z
}.

(** A choice of a position between [a] and [b]. *)
Definition position_choice np nr partition master (a b : Z) (pick : M rng Key) : Prop :=
  ∀ g, pick g = Ok (nth_key partition master np nr (a + draws g (drawn g) `mod` (b - a + 1)),
                    {| draws := draws g; drawn := S (drawn g) |}).

Lemma simple_list_number np nr l p m nk nh i :
  simple_list np nr l p m nk nh → (0 ≤ i < nk)%Z → (np * (i * nr + m) + p < 2 ^ 63)%Z.
Proof.
  intros [_ Hp Hm _ _ _ _ Hb] Hi. assert (i * nr ≤ nk * nr)%Z by (apply Z.mul_le_mono_nonneg_r; lia).
  assert (np * (i * nr + m) ≤ np * (nk * nr + m))%Z by (apply Z.mul_le_mono_nonneg_l; lia). lia.
Qed.

Lemma simple_list_num_keys np nr l p m nk nh : simple_list np nr l p m nk nh → (nk < 2 ^ 63)%Z.
Proof.
  intros [_ Hp Hm _ _ _ Hk Hb]. assert (nk * 1 ≤ nk * nr)%Z by (apply Z.mul_le_mono_nonneg_l; lia).
  assert (1 * (nk * nr + m) ≤ np * (nk * nr + m))%Z by (apply Z.mul_le_mono_nonneg_r; lia). lia.
Qed.

Lemma gives_fresh_key np nr l p m nk nh a b pick rs :
  simple_list np nr l p m nk nh → (0 ≤ a ≤ b)%Z → (b < nk)%Z → position_choice np nr p m a b pick →
  (Z.of_nat (size rs) < b - a + 1)%Z →
  gives (λ fuel, pick_until fuel pick (is_taken rs)) (λ k, rs !! k = None ∧ placed np nr p m k).
Proof.
  intros Hl Ha Hb Hpick Hsz. pose proof Hl as [_ Hp Hm Hnp Hnr _ _ _].
  set (source := (λ i, nth_key p m np nr (a + i)) <$> seqZ 0 (b - a + 1)).
  destruct (fresh_element source (map_to_list rs).*1) as (k & Hk & Hfr).
  { apply NoDup_fmap_2_strong; [|apply NoDup_seqZ]. intros i j Hi%elem_of_seqZ Hj%elem_of_seqZ E.
    apply nth_key_inj in E; [lia|done|done|lia|lia| |]; eapply simple_list_number; try done; lia. }
  { unfold source. rewrite !length_fmap, length_seqZ. rewrite <-length_map_to_list in Hsz. lia. }
  apply list_elem_of_fmap in Hk as (i & -> & Hi%elem_of_seqZ).
  assert (Hnone : ∀ k, is_taken rs k = false ↔ rs !! k = None).
  { intros k. unfold is_taken. rewrite bool_decide_eq_false, eq_None_not_Some. done. }
  eapply gives_weaken.
  - apply (gives_pick_until pick (λ v, nth_key p m np nr (a + v `mod` (b - a + 1))) (is_taken rs) (b - a + 1) i); [done|lia|].
    intros v ->. apply Hnone, eq_None_not_Some. intros [r Hr]. apply Hfr. apply list_elem_of_fmap.
    exists (nth_key p m np nr (a + i), r). split; [done|]. by apply elem_of_map_to_list.
  - intros k [Hk [v ->]]. split; [by apply Hnone|]. pose proof (Z.mod_pos_bound v (b - a + 1) ltac:(lia)) as Hv.
    apply nth_key_placed; try done; [lia|]. eapply simple_list_number; [done|lia].
Qed.

Lemma u64_small z : (0 ≤ z < 2 ^ 64)%Z → u64 z = z.
Proof. apply Z.mod_small. Qed.

Lemma hot_key_choice np nr l p m nk nh :
  simple_list np nr l p m nk nh → position_choice np nr p m 0 (Z.min nh nk - 1) (GetRandomHotKey l).
Proof.
  intros Hl g. pose proof (simple_list_num_keys _ _ _ _ _ _ _ Hl). destruct Hl as [-> _ _ _ _ Hh Hk _]. unfold GetRandomHotKey.
  rewrite decide_False by lia. rewrite u64_small by lia. by erewrite M_bind_Ok by (apply uniform_spec; lia).
Qed.

Lemma cold_key_choice np nr l p m nk nh :
  simple_list np nr l p m nk nh → (nh < nk)%Z → position_choice np nr p m nh (nk - 1) (GetRandomColdKey l).
Proof.
  intros Hl Hlt g. pose proof (simple_list_num_keys _ _ _ _ _ _ _ Hl). destruct Hl as [-> _ _ _ _ Hh Hk _]. unfold GetRandomColdKey.
  rewrite decide_False by lia. rewrite !u64_small by lia. by erewrite M_bind_Ok by (apply uniform_spec; lia).
Qed.

(** [GetRamdomKey] leaves the number of partitions out: the list of partition 1 gives a key
    of partition 0. *)
Lemma random_key_misplaced :
  ∃ k g, GetRamdomKey (MakeSimpleKeyList 1000 2 2 1 0 1) 0 {| draws := λ _, 2%Z; drawn := 0 |} = Ok (k, g) ∧
    simple_compute_partition 2 k = Ok 0%Z.
Proof. eexists _, _. split; [vm_compute; reflexivity|]. vm_compute. reflexivity. Qed.
