(* ===== verification/BasicWorkload.v ===== *)
(** * The key-value workloads

    [workload/basic.cpp], [workload/remastering.cpp] and [workload/cockroach.cpp]. A workload
    is a record; its random-number generator is the state of the computations. The numbers of
    replicas and partitions come from the configuration. *)
From Stdlib Require Import Ascii QArith_base.
From S2P Require Import Prelude Types StringUtils Config Sharder ProtoUtils Execution Table Random Workload.

Definition basic_default_params : RawParamMap := list_to_map
  [("mh", "0"); ("mh_homes", "2"); ("mh_zipf", "0"); ("mp", "0"); ("mp_parts", "2"); ("hot", "0"); ("records", "10");
   ("hot_records", "0"); ("writes", "10"); ("value_size", "50"); ("nearest", "1"); ("sp_partition", "-1"); ("sh_home", "-1");
   ("overlap_ratio", "-1"); ("access_coop", "false"); ("remote_ratio", "-1"); ("migration_range", "0"); ("bias", "0")]%string.

Record BasicWorkload := {
  params_ : RawParamMap;
  bw_config : Configuration;
  local_region_ : Z;
  distance_ranking_ : list Z;
  partition_to_key_lists_ : list (list KeyList);
  rnd_str_ : RandomStringGenerator;
  client_txn_id_counter_ : TxnId
}.

(** ** Construction *)

(** The ranking of the configuration, or all other regions when it has none. With a positive
    coefficient the ranking must be given; it is then reset to 0, which leaves the choices
    that are possible as they are. *)
Definition make_ranking (nr region : Z) (ranking : list Z) : result (list Z) :=
  let ranking := if decide (ranking = []) then filter (λ i, i ≠ region) (seqZ 0 nr) else ranking in
  if decide (Z.of_nat (length ranking) = nr - 1)%Z then Ok ranking
  else Err (Fatal "Distance ranking size must match the number of regions").

Definition make_key_list (c : ConfigProto) (np nr hot part rep : Z) : result KeyList :=
  match cp_partitioning c with
  | kSimplePartitioning num_records _ => Ok (MakeSimpleKeyList num_records np nr part rep hot)
  | kHashPartitioning _ => Ok (ListedKeys hot [] [])
  | _ => Err (Fatal "Invalid partioning mode")
  end.

Definition add_datum (nr : Z) (lists : list KeyList) (d : Key * Z) : result (list KeyList) :=
  if decide (d.2 < nr)%Z then
    l ← at_index lists (Z.to_nat d.2);
    l' ← AddKey l d.1;
    Ok (<[Z.to_nat d.2 := l']> lists)
  else Err (Fatal "Master number exceeds number of replicas").

(** [data part] is what the reader of the data file of a partition gives. *)
Definition load_partition (data : Z → result (list (Key * Z))) (nr part : Z) (lists : list KeyList) : result (list KeyList) :=
  datums ← data part; rfoldl (add_datum nr) lists datums.

Definition MakeBasicWorkload (c : Configuration) (region : Z) (data : Z → result (list (Key * Z))) (params_str : string)
    (rnd_str : RandomStringGenerator) (extra_default_params : RawParamMap) : result BasicWorkload :=
  params ← MakeWorkloadParams (MergeParams extra_default_params basic_default_params) params_str;
  ranking ← distance_ranking_from c region;
  zipf_coef ← GetInt32 params "mh_zipf";
  hot ← GetUInt32 params "hot";
  let nr := num_replicas c in
  let np := num_partitions c in
  let hot := Z.max 1 (hot `div` nr) in
  lists ← rmap (λ part, rmap (make_key_list (config_ c) np nr hot part) (seqZ 0 nr)) (seqZ 0 np);
  ranking ← make_ranking nr region ranking;
  nearest ← GetInt32 params "nearest";
  let ranking := if decide (nearest = 0)%Z then region :: ranking else ranking in
  lists ← match cp_partitioning (config_ c) with
    | kHashPartitioning _ => rmap (λ x, load_partition data nr x.1 x.2) (zip (seqZ 0 np) lists)
    | _ => Ok lists
    end;
  Ok {| params_ := params; bw_config := c; local_region_ := region; distance_ranking_ := ranking;
        partition_to_key_lists_ := lists; rnd_str_ := rnd_str; client_txn_id_counter_ := 0 |}.

(** ** [NextTransaction] *)

Section next.
  Context (fuel : nat) (stod : string → result Q) (w : BasicWorkload).

Definition bw_nr : Z := num_replicas (bw_config w).
Definition bw_np : Z := num_partitions (bw_config w).

Definition select_partitions (is_mp : bool) : M rng (list Z) :=
  if is_mp then
    if decide (bw_np < 2)%Z then lift (Err (Fatal "There must be at least 2 partitions for MP txns"))
    else
      all ← shuffle (seqZ 0 bw_np);
      parts ← lift (GetUInt32 (params_ w) "mp_parts");
      let max_num_partitions := Z.min bw_np parts in
      if decide (max_num_partitions < 2)%Z then lift (Err (Fatal "At least 2 partitions must be selected for MP txns"))
      else
        n ← uniform 2 max_num_partitions;
        mret (take (Z.to_nat n) all)
  else
    sp_partition ← lift (GetInt32 (params_ w) "sp_partition");
    if decide (sp_partition < 0)%Z then p ← uniform 0 (u32 (bw_np - 1)); mret [p]
    else if decide (bw_np ≤ sp_partition)%Z then lift (Err (Fatal "Selected single-partition partition does not exist"))
    else mret [sp_partition].

Definition remote_regions : list Z := filter (λ i, i ≠ local_region_ w) (seqZ 0 bw_nr).

(** One home for each record, from the local region or not. *)
Definition homes_of_records (records : nat) (home : M rng Z) : M rng (list Z) :=
  mfoldl (λ homes _, h ← home; mret (homes ++ [h])) [] (seq 0 records).

Definition multi_home_homes : M rng (list Z) :=
  if decide (bw_nr < 2)%Z then lift (Err (Fatal "There must be at least 2 regions for MH txns"))
  else
    mh_homes ← lift (GetUInt32 (params_ w) "mh_homes");
    let max_num_homes := Z.min mh_homes bw_nr in
    if decide (max_num_homes < 2)%Z then lift (Err (Fatal "At least 2 regions must be selected for MH txns"))
    else
      num_homes ← uniform 2 max_num_homes;
      nearest ← lift (GetInt32 (params_ w) "nearest");
      let '(homes, num_homes) := if decide (nearest = 0)%Z then ([], num_homes) else ([local_region_ w], num_homes - 1)%Z in
      sampled ← zipf_sample fuel (distance_ranking_ w) (Z.to_nat num_homes);
      mret (homes ++ (wrapu 32 <$> sampled)).

(** The overlap ratio is compared as an unsigned number. *)
Definition coop_home (overlap_ratio : Z) : M rng (Z * bool) :=
  v ← uniform 1 100;
  if decide (v ≤ u32 overlap_ratio)%Z then
    i ← uniform 0 (u32 (Z.of_nat (length (distance_ranking_ w)) - 1));
    h ← lift (at_index (distance_ranking_ w) (Z.to_nat i));
    mret (u32 h, true)
  else mret (local_region_ w, false).

Definition coop_homes (overlap_ratio : Z) (records : nat) : M rng (list Z * bool) :=
  mfoldl (λ st _, '(h, remote) ← coop_home overlap_ratio; mret (st.1 ++ [h], st.2 || remote)) ([], false) (seq 0 records).

(** In overlap mode the last record decides whether the keys are local. *)
Definition overlap_homes (overlap_ratio : Z) (records : nat) : M rng (list Z * bool) :=
  mfoldl (λ st _,
      v ← uniform 1 100;
      if decide (overlap_ratio < v)%Z then mret (st.1 ++ [local_region_ w], true)
      else
        h ← SampleOnce remote_regions;
        mret (st.1 ++ [h], false)) ([], true) (seq 0 records).

Definition remote_ratio_home (remote_ratio : Z) : M rng Z :=
  v ← uniform 0 1000;
  if decide (v < remote_ratio)%Z then SampleOnce remote_regions else mret (local_region_ w).

Definition migration_home (migration_range : Z) : M rng Z :=
  if decide (migration_range < 0)%Z then mret (local_region_ w)
  else
    v ← uniform 1 (100 + migration_range);
    if decide (100 < v)%Z then SampleOnce remote_regions else mret (local_region_ w).

(** The homes, whether the transaction is multi-home so far, and whether its keys are local. *)
Definition select_homes (is_mh access_coop : bool) (overlap_ratio remote_ratio migration_range : Z) (records : nat) :
    M rng (list Z * bool * bool) :=
  if is_mh then homes ← multi_home_homes; mret (homes, true, true)
  else if access_coop then '(homes, remote) ← coop_homes overlap_ratio records; mret (homes, remote, true)
  else
    sh_home ← lift (GetInt32 (params_ w) "sh_home");
    if decide (0 ≤ sh_home)%Z then mret ([sh_home], false, true)
    else
      nearest ← lift (GetInt32 (params_ w) "nearest");
      if decide (nearest ≠ 0)%Z then mret ([local_region_ w], false, true)
      else if decide (0 ≤ overlap_ratio)%Z then
        '(homes, local_access) ← overlap_homes overlap_ratio records; mret (homes, false, local_access)
      else if decide (0 ≤ remote_ratio)%Z then
        homes ← homes_of_records records (remote_ratio_home remote_ratio); mret (homes, false, true)
      else if decide (migration_range ≠ 0)%Z then
        homes ← homes_of_records records (migration_home migration_range); mret (homes, false, true)
      else h ← uniform 0 (u32 (bw_nr - 1)); mret ([h], false, true).

(** The home of record [i]: the records are spread over the homes, or each has its own. *)
Definition home_of (per_record : bool) (records : Z) (homes : list Z) (i : nat) : result Z :=
  let group := (u32 (records + 1) `div` Z.of_nat (length homes))%Z in
  if decide (length homes = 0 ∨ group = 0%Z) then Err (Undef "division by zero")
  else
    h ← at_index homes (Z.to_nat (Z.of_nat i `div` group));
    if per_record then at_index homes i else Ok h.

Record modes := {
  access_coop : bool;
  overlap_ratio : Z;
  remote_ratio : Z;
  migration_range : Z
}.

Definition per_record (m : modes) : bool :=
  bool_decide (0 ≤ remote_ratio m)%Z || bool_decide (migration_range m ≠ 0%Z) || access_coop m || bool_decide (0 ≤ overlap_ratio m)%Z.

Definition choose_key (m : modes) (local_access hot : bool) (home : Z) (l : KeyList) : M rng Key :=
  if access_coop m then bias ← lift (GetInt32 (params_ w) "bias"); GetRamdomKey l bias
  else if decide (0 ≤ overlap_ratio m)%Z then
    if local_access then GetLocalKey l (overlap_ratio m) else GetCommonKey l (overlap_ratio m)
  else if decide (0 ≤ remote_ratio m)%Z then GetLocalKey l 0
  else if decide (migration_range m ≠ 0)%Z then
    GetLocalKey l (if decide (home = local_region_ w) then 0 else 100 - migration_range m)%Z
  else if hot then GetRandomHotKey l
  else GetRandomColdKey l.

Record building := {
  b_records : gmap string ProfileRecord;
  b_keys : list KeyMetadata;
  b_code : list (list string);
  b_rnd : RandomStringGenerator
}.

(** Record [i] of the transaction. *)
Definition add_record (m : modes) (local_access : bool) (partitions homes : list Z) (records writes value_size : Z)
    (hots : list bool) (st : building) (i : nat) : M rng building :=
  partition ← lift (at_index partitions (i mod length partitions));
  home ← lift (home_of (per_record m) records homes i);
  lists ← lift (at_index (partition_to_key_lists_ w) (Z.to_nat partition));
  l ← lift (at_index lists (Z.to_nat home));
  hot ← lift (at_index hots i);
  k ← pick_until fuel (choose_key m local_access hot home l) (is_taken (b_records st));
  let write := bool_decide (Z.of_nat i < writes)%Z in
  let '(x, rnd) := next_string (b_rnd st) (Z.to_nat value_size) in
  mret {| b_records := <[k := {| pr_partition := partition; pr_home := home; is_hot := hot; is_write := write |}]> (b_records st);
          b_keys := b_keys st ++ [{| km_key := k; km_type := if write then WRITE else READ; km_metadata := None |}];
          b_code := b_code st ++ [if write then ["SET"%string; k; x] else ["GET"%string; k]];
          b_rnd := if write then rnd else b_rnd st |}.

Definition set_txn_id (i : TxnId) (t : Transaction) : Transaction := set_internal (set_id i) t.

Definition NextTransaction : M rng (Transaction * TransactionProfile * BasicWorkload) :=
  mp ← lift (GetDouble stod (params_ w) "mp");
  is_mp ← bernoulli (mp / 100);
  coop ← lift (GetBool (params_ w) "access_coop");
  partitions ← select_partitions is_mp;
  mh ← lift (GetDouble stod (params_ w) "mh");
  is_mh ← bernoulli (mh / 100);
  overlap ← lift (GetInt32 (params_ w) "overlap_ratio");
  remote ← lift (GetInt32 (params_ w) "remote_ratio");
  migration ← lift (GetInt32 (params_ w) "migration_range");
  writes ← lift (GetUInt32 (params_ w) "writes");
  hot_records ← lift (GetUInt32 (params_ w) "hot_records");
  records ← lift (GetUInt32 (params_ w) "records");
  value_size ← lift (GetUInt32 (params_ w) "value_size");
  '(homes, is_mh, local_access) ← select_homes is_mh coop overlap remote migration (Z.to_nat records);
  first_home ← lift (at_index homes 0);
  let is_mh := is_mh || bool_decide (Exists (λ h, h ≠ first_home) homes) in
  if decide (records < writes)%Z then lift (Err (Fatal "Number of writes cannot exceed number of records in a transaction!"))
  else if decide (records < hot_records)%Z then
    lift (Err (Fatal "Number of hot records cannot exceed number of records in a transaction!"))
  else
    let m := {| access_coop := coop; overlap_ratio := overlap; remote_ratio := remote; migration_range := migration |} in
    hots ← shuffle (replicate (Z.to_nat hot_records) true ++ replicate (Z.to_nat (records - hot_records)) false);
    b ← mfoldl (add_record m local_access partitions homes records writes value_size hots)
          {| b_records := ∅; b_keys := []; b_code := []; b_rnd := rnd_str_ w |} (seq 0 (Z.to_nat records));
    t ← lift (MakeTransaction (b_keys b) (b_code b) None 0);
    mret (set_txn_id (client_txn_id_counter_ w) t,
          {| client_txn_id := client_txn_id_counter_ w; is_multi_home := is_mh; is_multi_partition := is_mp;
             records := b_records b |},
          {| params_ := params_ w; bw_config := bw_config w; local_region_ := local_region_ w;
             distance_ranking_ := distance_ranking_ w; partition_to_key_lists_ := partition_to_key_lists_ w;
             rnd_str_ := b_rnd b; client_txn_id_counter_ := u64 (client_txn_id_counter_ w + 1) |}).
End next.

(** ** The remastering workload *)

Definition remastering_default_params : RawParamMap := {["remaster_gap" := "50"]}%string.

Definition MakeRemasteringWorkload (c : Configuration) (region : Z) (data : Z → result (list (Key * Z))) (params_str : string)
    (rnd_str : RandomStringGenerator) : result BasicWorkload :=
  MakeBasicWorkload c region data params_str rnd_str remastering_default_params.

Definition set_client_txn_id_counter (n : TxnId) (w : BasicWorkload) : BasicWorkload :=
  {| params_ := params_ w; bw_config := bw_config w; local_region_ := local_region_ w;
     distance_ranking_ := distance_ranking_ w; partition_to_key_lists_ := partition_to_key_lists_ w;
     rnd_str_ := rnd_str_ w; client_txn_id_counter_ := n |}.

Definition NextRemasterTransaction (w : BasicWorkload) : M rng (Transaction * TransactionProfile * BasicWorkload) :=
  home ← uniform 0 (bw_nr w - 1);
  partition ← uniform 0 (bw_np w - 1);
  let new_master := ((home + 1) `mod` bw_nr w)%Z in
  lists ← lift (at_index (partition_to_key_lists_ w) (Z.to_nat partition));
  l ← lift (at_index lists (Z.to_nat home));
  k ← GetRandomColdKey l;
  let record := {| pr_partition := partition; pr_home := home; is_hot := false; is_write := true |} in
  t ← lift (MakeTransaction [{| km_key := k; km_type := WRITE; km_metadata := None |}] [] (Some new_master) 0);
  mret (set_txn_id (client_txn_id_counter_ w) t,
        {| client_txn_id := client_txn_id_counter_ w; is_multi_home := false; is_multi_partition := false;
           records := {[k := record]} |},
        set_client_txn_id_counter (u64 (client_txn_id_counter_ w + 1)) w).

Definition remastering_NextTransaction (fuel : nat) (stod : string → result Q) (w : BasicWorkload) :
    M rng (Transaction * TransactionProfile * BasicWorkload) :=
  gap ← lift (GetUInt32 (params_ w) "remaster_gap");
  if decide (gap = 0)%Z then lift (Err (Undef "division by zero"))
  else if decide (client_txn_id_counter_ w `mod` gap = 0)%Z then NextRemasterTransaction w
  else NextTransaction fuel stod w.

(** ** The CockroachDB workload

    The values of [ZipfDistribution], which are computed with floating-point numbers, are the
    argument [zipf]. *)

Definition cockroach_default_params : RawParamMap := list_to_map
  [("mh", "0"); ("theta", "0.1"); ("records", "10"); ("writes", "10"); ("value_size", "50")]%string.

(** The message that is not set has no records. *)
Definition NumKeysPerRegion (c : Configuration) : Z :=
  Z.quot (match cp_partitioning (config_ c) with kSimplePartitioning num_records _ => i64 num_records | _ => 0 end) (num_replicas c).

Record CockroachWorkload := {
  cw_params_ : RawParamMap;
  cw_config_ : Configuration;
  cw_local_region_ : Z;
  cw_rnd_str_ : RandomStringGenerator;
  cw_client_txn_id_counter_ : TxnId
}.

Definition MakeCockroachWorkload (c : Configuration) (region : Z) (params_str : string) (rnd_str : RandomStringGenerator) :
    result CockroachWorkload :=
  params ← MakeWorkloadParams cockroach_default_params params_str;
  Ok {| cw_params_ := params; cw_config_ := c; cw_local_region_ := region; cw_rnd_str_ := rnd_str; cw_client_txn_id_counter_ := 0 |}.

(** The largest key of a region, as an [int]. *)
Definition zipf_max (w : CockroachWorkload) : Z := i32 (NumKeysPerRegion (cw_config_ w) - 1).

Section cockroach.
  Context (fuel : nat) (stod : string → result Q) (zipf : M rng Z) (w : CockroachWorkload).

Record cockroach_building := {
  cb_records : gmap string ProfileRecord;
  cb_keys : list KeyMetadata;
  cb_code : list (list string);
  cb_rnd : RandomStringGenerator;
  cb_last_partition : option Z;
  cb_multi_partition : bool
}.

(** Record [i], whose key is the number [n]. A key that occurs again replaces its record. *)
Definition cockroach_add (writes value_size local_records remote_region np : Z) (st : cockroach_building) (x : nat * Z) :
    cockroach_building :=
  let '(i, n) := x in
  let k := to_string n in
  let write := bool_decide (Z.of_nat i < writes)%Z in
  let '(v, rnd) := next_string (cb_rnd st) (Z.to_nat value_size) in
  let partition := (n `mod` np)%Z in
  {| cb_records := <[k := {| pr_partition := partition;
         pr_home := if decide (Z.of_nat i < local_records)%Z then cw_local_region_ w else remote_region;
         is_hot := bool_decide (i = 0 ∨ Z.of_nat i = local_records); is_write := write |}]> (cb_records st);
     cb_keys := cb_keys st ++ [{| km_key := k; km_type := if write then WRITE else READ; km_metadata := None |}];
     cb_code := cb_code st ++ [if write then ["SET"%string; k; v] else ["GET"%string; k]];
     cb_rnd := if write then rnd else cb_rnd st;
     cb_last_partition := Some (default partition (cb_last_partition st));
     cb_multi_partition := cb_multi_partition st || bool_decide (default partition (cb_last_partition st) ≠ partition) |}.

(** [garbage] is the value of the member of the profile that the constructor leaves unset. *)
Definition cockroach_NextTransaction (garbage : bool) : M rng (Transaction * TransactionProfile * CockroachWorkload) :=
  let nr := num_replicas (cw_config_ w) in
  let np := num_partitions (cw_config_ w) in
  mh ← lift (GetDouble stod (cw_params_ w) "mh");
  is_mh ← bernoulli (mh / 100);
  writes ← lift (GetUInt32 (cw_params_ w) "writes");
  records ← lift (GetUInt32 (cw_params_ w) "records");
  value_size ← lift (GetUInt32 (cw_params_ w) "value_size");
  if decide (records < writes)%Z then lift (Err (Fatal "Number of writes cannot exceed number of records in a transaction!"))
  else
    let local_records := if (is_mh : bool) then (records `div` 2)%Z else records in
    local_keys ← KeyBatch fuel zipf (zipf_max w) (Z.to_nat local_records);
    let local := (λ k, u64 (k * nr + cw_local_region_ w)) <$> local_keys in
    offset ← uniform 1 (nr - 1);
    let remote_region := u32 (cw_local_region_ w + offset) in
    remote_keys ← KeyBatch fuel zipf (zipf_max w) (Z.to_nat (records - local_records));
    let remote := (λ k, u64 (k * nr + remote_region)) <$> remote_keys in
    let numeric_keys := local ++ remote in
    let b := foldl (cockroach_add writes value_size local_records remote_region np)
      {| cb_records := ∅; cb_keys := []; cb_code := []; cb_rnd := cw_rnd_str_ w; cb_last_partition := None;
         cb_multi_partition := garbage |} (zip (seq 0 (length numeric_keys)) numeric_keys) in
    t ← lift (MakeTransaction (cb_keys b) (cb_code b) None 0);
    mret (set_txn_id (cw_client_txn_id_counter_ w) t,
          {| client_txn_id := cw_client_txn_id_counter_ w; is_multi_home := is_mh; is_multi_partition := cb_multi_partition b;
             records := cb_records b |},
          {| cw_params_ := cw_params_ w; cw_config_ := cw_config_ w; cw_local_region_ := cw_local_region_ w;
             cw_rnd_str_ := cb_rnd b; cw_client_txn_id_counter_ := u64 (cw_client_txn_id_counter_ w + 1) |}).
End cockroach.

(** ** What the basic workload generates *)

(** The parameters and lists under which the plain workload has what it needs: no special
    mode is on, every list has more cold keys than a transaction asks for, and as many hot keys
    if transactions ask for hot records, and the records can be spread over the homes. *)
Record basic_ok (stod : string → result Q) (w : BasicWorkload) (nrec nwrites nhot : Z) : Prop := {
  bo_np : (0 < bw_np w < 2 ^ 31)%Z;
  bo_nr : (0 < bw_nr w < 2 ^ 31)%Z;
  bo_region : (0 ≤ local_region_ w < bw_nr w)%Z;
  bo_lists p m : (0 ≤ p < bw_np w)%Z → (0 ≤ m < bw_nr w)%Z →
    ∃ lists l nk nh, partition_to_key_lists_ w !! Z.to_nat p = Some lists ∧ lists !! Z.to_nat m = Some l ∧
      simple_list (bw_np w) (bw_nr w) l p m nk nh ∧ (0 < nhot → nrec ≤ nh)%Z ∧ (nh + nrec ≤ nk)%Z;
  bo_plain : GetBool (params_ w) "access_coop" = Ok false ∧ GetInt32 (params_ w) "overlap_ratio" = Ok (-1)%Z ∧
    GetInt32 (params_ w) "remote_ratio" = Ok (-1)%Z ∧ GetInt32 (params_ w) "migration_range" = Ok 0%Z;
  bo_counts : GetUInt32 (params_ w) "records" = Ok nrec ∧ GetUInt32 (params_ w) "writes" = Ok nwrites ∧
    GetUInt32 (params_ w) "hot_records" = Ok nhot ∧ (∃ v, GetUInt32 (params_ w) "value_size" = Ok v);
  bo_records : (0 < nrec < 2 ^ 32 - 1)%Z ∧ (0 ≤ nwrites ≤ nrec)%Z ∧ (0 ≤ nhot ≤ nrec)%Z;
  bo_mp : ∃ q, GetDouble stod (params_ w) "mp" = Ok q ∧
    ((q / 100 <= 0)%Q ∨ (2 ≤ bw_np w)%Z ∧ ∃ parts, GetUInt32 (params_ w) "mp_parts" = Ok parts ∧ (2 ≤ parts)%Z);
  bo_sp : ∃ p, GetInt32 (params_ w) "sp_partition" = Ok p ∧ (p < bw_np w)%Z;
  bo_mh : ∃ q, GetDouble stod (params_ w) "mh" = Ok q ∧
    ((q / 100 <= 0)%Q ∨ (2 ≤ bw_nr w)%Z ∧ ∃ homes, GetUInt32 (params_ w) "mh_homes" = Ok homes ∧ (2 ≤ homes)%Z ∧
      ∀ h, (2 ≤ h ≤ Z.min homes (bw_nr w))%Z → (h ≤ nrec + 1)%Z ∧ (nrec ≤ h * ((nrec + 1) `div` h))%Z);
  bo_sh : ∃ h, GetInt32 (params_ w) "sh_home" = Ok h ∧ (h < bw_nr w)%Z;
  bo_nearest : ∃ x, GetInt32 (params_ w) "nearest" = Ok x;
  bo_ranking : NoDup (distance_ranking_ w) ∧ (∀ r, r ∈ distance_ranking_ w → (0 ≤ r < bw_nr w)%Z) ∧
    ∃ x, GetInt32 (params_ w) "nearest" = Ok x ∧
      (Z.of_nat (length (distance_ranking_ w)) = bw_nr w - (if decide (x = 0)%Z then 0 else 1))%Z
}.

Lemma gives_cold_key np nr l p m nk nh :
  simple_list np nr l p m nk nh → (nh < nk)%Z → gives (λ _, GetRandomColdKey l) (placed np nr p m).
Proof.
  intros Hl Hlt g _. pose proof (sl_hot _ _ _ _ _ _ _ Hl) as Hh. rewrite (cold_key_choice _ _ _ _ _ _ _ Hl Hlt g).
  exists 0. eexists _, _. split; [intros; reflexivity|]. split; [done|].
  pose proof (Z.mod_pos_bound (draws g (drawn g)) (nk - 1 - nh + 1) ltac:(lia)).
  destruct Hl. apply nth_key_placed; try done; [lia|]. eapply simple_list_number; [done|lia].
Qed.

Section basic.
  Context (stod : string → result Q) (w : BasicWorkload) (nrec nwrites nhot : Z) (Hok : basic_ok stod w nrec nwrites nhot).

Lemma gives_lift_bind {X Y} (r : result X) x (k : nat → X → M rng Y) R :
  r = Ok x → gives (λ n, k n x) R → gives (λ n, lift r ≫= k n) R.
Proof. intros -> Hk. exact Hk. Qed.

Lemma gives_select_partitions is_mp q :
  GetDouble stod (params_ w) "mp" = Ok q → ((q / 100 <= 0)%Q → is_mp = false) →
  gives (λ _, select_partitions w is_mp)
    (λ ps, ps ≠ [] ∧ (∀ p, p ∈ ps → (0 ≤ p < bw_np w)%Z) ∧ (is_mp = false → ∃ p, ps = [p])).
Proof.
  intros Hq Hmp. pose proof (bo_np _ _ _ _ _ Hok) as Hnp. unfold select_partitions. destruct is_mp.
  - destruct (bo_mp _ _ _ _ _ Hok) as (q' & Hq' & [Hle|(Hp & parts & Hparts & Hp2)]).
    { assert (q' = q) as -> by congruence. by specialize (Hmp Hle). }
    rewrite decide_False by lia. eapply gives_bind; [apply gives_shuffle|]. intros all Hall.
    eapply gives_lift_bind; [done|]. cbv zeta. rewrite decide_False by lia.
    eapply (gives_bind _ _ (λ n, (2 ≤ n ≤ Z.min (bw_np w) parts)%Z)); [apply gives_uniform; [lia|done]|].
    intros n Hn. apply gives_ret. split_and!; [| |done].
    + apply Permutation_length in Hall. rewrite length_seqZ in Hall. intros E. apply (f_equal length) in E.
      rewrite length_take in E. simpl in E. lia.
    + intros p (i & Hi & _)%elem_of_take. assert (p ∈ seqZ 0 (bw_np w)) as Hs%elem_of_seqZ; [|lia].
      rewrite <-Hall. by eapply list_elem_of_lookup_2.
  - destruct (bo_sp _ _ _ _ _ Hok) as (p & Hp & Hlt). eapply gives_lift_bind; [done|].
    destruct (decide (p < 0)%Z).
    + rewrite u32_small by lia. eapply (gives_bind _ _ (λ n, (0 ≤ n ≤ bw_np w - 1)%Z)); [apply gives_uniform; [lia|done]|].
      intros x Hx. apply gives_ret. split_and!; [done| |by eexists]. intros y ->%list_elem_of_singleton. lia.
    + rewrite decide_False by lia. apply gives_ret. split_and!; [done| |by eexists]. intros y ->%list_elem_of_singleton. lia.
Qed.

(** The homes, and the records they are for. *)
Definition homes_ok (homes : list Z) : Prop :=
  homes ≠ [] ∧ (∀ h, h ∈ homes → (0 ≤ h < bw_nr w)%Z) ∧
  (Z.of_nat (length homes) ≤ nrec + 1)%Z ∧ (nrec ≤ Z.of_nat (length homes) * ((nrec + 1) `div` Z.of_nat (length homes)))%Z.

Lemma homes_ok_singleton h : (0 ≤ h < bw_nr w)%Z → homes_ok [h].
Proof.
  intros Hh. destruct (bo_records _ _ _ _ _ Hok) as (Hr & _). split_and!; [done| |simpl; lia|].
  - by intros ? ->%list_elem_of_singleton.
  - simpl length. change (Z.of_nat 1) with 1%Z. rewrite Z.div_1_r. lia.
Qed.

Lemma gives_select_homes is_mh q :
  GetDouble stod (params_ w) "mh" = Ok q → ((q / 100 <= 0)%Q → is_mh = false) →
  gives (λ fuel, select_homes fuel w is_mh false (-1) (-1) 0 (Z.to_nat nrec))
    (λ r, homes_ok r.1.1 ∧ (r.1.2 = false → ∃ h, r.1.1 = [h]) ∧ r.2 = true).
Proof.
  intros Hq Hmh. pose proof (bo_nr _ _ _ _ _ Hok) as Hnr. pose proof (bo_region _ _ _ _ _ Hok) as Hreg.
  destruct (bo_ranking _ _ _ _ _ Hok) as (Hnd & Hrk & x & Hx & Hlen). unfold select_homes. destruct is_mh.
  - destruct (bo_mh _ _ _ _ _ Hok) as (q' & Hq' & [Hle|(Hp & homes & Hhomes & Hh2 & Hspread)]).
    { assert (q' = q) as -> by congruence. by specialize (Hmh Hle). }
    eapply (gives_bind _ _ homes_ok); [|intros hs Hhs; by apply gives_ret].
    unfold multi_home_homes. destruct (decide (bw_nr w < 2)%Z) as [?|_]; [lia|]. eapply gives_lift_bind; [done|]. cbv beta zeta.
    destruct (decide (Z.min homes (bw_nr w) < 2)%Z) as [?|_]; [lia|].
    eapply (gives_bind _ _ (λ n, (2 ≤ n ≤ Z.min homes (bw_nr w))%Z)); [apply gives_uniform; [lia|done]|]. intros n Hn.
    eapply gives_lift_bind; [done|]. destruct (Hspread n Hn) as [Hs1 Hs2].
    assert (Hw : ∀ l : list Z, (∀ y, y ∈ l → y ∈ distance_ranking_ w) → wrapu 32 <$> l = l).
    { intros l Hl. induction l as [|y l IH]; [done|]. rewrite fmap_cons, IH by set_solver. f_equal. apply u32_small.
      specialize (Hrk y (Hl y ltac:(set_solver))). lia. }
    destruct (decide (x = 0)%Z) as [E|E].
    + eapply gives_bind; [apply gives_zipf_sample; [done|lia]|]. intros l (Hl & Hlnd & Hin). apply gives_ret.
      rewrite Hw by done. cbn [app]. unfold homes_ok. rewrite Hl, Z2Nat.id by lia. split_and!; [|by auto|done|done].
      intros ->. simpl in Hl. lia.
    + eapply gives_bind; [apply gives_zipf_sample; [done|lia]|]. intros l (Hl & Hlnd & Hin). apply gives_ret.
      rewrite Hw by done. unfold homes_ok. rewrite length_app. simpl (length [_]). rewrite Hl.
      replace (Z.of_nat (1 + Z.to_nat (n - 1))) with n by lia. split_and!; [done| |done|done].
      intros h [->%list_elem_of_singleton|Hh]%elem_of_app; auto.
  - destruct (bo_sh _ _ _ _ _ Hok) as (h & Hh & Hlt). eapply gives_lift_bind; [done|].
    destruct (decide (0 ≤ h)%Z); [apply gives_ret; split_and!; [by apply homes_ok_singleton|by eexists|done]|].
    eapply gives_lift_bind; [done|]. destruct (decide (x ≠ 0)%Z); [apply gives_ret; split_and!; [by apply homes_ok_singleton|by eexists|done]|].
    rewrite !decide_False by lia. rewrite u32_small by lia.
    eapply (gives_bind _ _ (λ n, (0 ≤ n ≤ bw_nr w - 1)%Z)); [apply gives_uniform; [lia|done]|].
    intros y Hy. apply gives_ret. split_and!; [|by eexists|done]. apply homes_ok_singleton. lia.
Qed.

Lemma home_of_ok homes i :
  homes_ok homes → i < Z.to_nat nrec → ∃ h, home_of false nrec homes i = Ok h ∧ h ∈ homes.
Proof.
  intros (Hne & _ & H1 & H2) Hi. destruct (bo_records _ _ _ _ _ Hok) as (Hr & _). unfold home_of.
  assert (Hl : (0 < Z.of_nat (length homes))%Z) by (destruct homes; simpl; [done|lia]).
  rewrite u32_small by lia. set (group := ((nrec + 1) `div` Z.of_nat (length homes))%Z) in *.
  assert (Hg : (0 < group)%Z) by (apply Z.div_str_pos; lia). rewrite decide_False by lia.
  assert (Hidx : (0 ≤ Z.of_nat i `div` group < Z.of_nat (length homes))%Z).
  { split; [apply Z.div_pos; lia|]. apply Z.div_lt_upper_bound; lia. }
  destruct (lookup_lt_is_Some_2 homes (Z.to_nat (Z.of_nat i `div` group))) as [h Hh]; [lia|].
  exists h. rewrite (at_index_Some _ _ _ Hh). split; [done|]. by eapply list_elem_of_lookup_2.
Qed.

Definition plain : modes := {| access_coop := false; overlap_ratio := -1; remote_ratio := -1; migration_range := 0 |}.

(** A key of the right kind that the transaction does not have yet. *)
Lemma gives_choose_key hot p m l rs :
  (0 ≤ p < bw_np w)%Z → (0 ≤ m < bw_nr w)%Z → (Z.of_nat (size rs) < nrec)%Z →
  (hot = true → 0 < nhot)%Z →
  (∃ nk nh, simple_list (bw_np w) (bw_nr w) l p m nk nh ∧ (0 < nhot → nrec ≤ nh)%Z ∧ (nh + nrec ≤ nk)%Z) →
  gives (λ fuel, pick_until fuel (choose_key w plain true hot m l) (is_taken rs))
    (λ k, rs !! k = None ∧ placed (bw_np w) (bw_nr w) p m k).
Proof.
  intros Hp Hm Hsz Hhot (nk & nh & Hl & H1 & H2). pose proof (sl_hot _ _ _ _ _ _ _ Hl) as Hh. destruct hot; simpl.
  - specialize (H1 (Hhot eq_refl)). eapply gives_fresh_key; [done| | |by apply hot_key_choice|]; lia.
  - eapply gives_fresh_key; [done| | |apply cold_key_choice; [done|lia]|]; lia.
Qed.

(** The record of the key at position [i]. *)
Definition record_ok (ps homes : list Z) (st : building) (i : nat) : Prop :=
  ∃ k x r, let write := bool_decide (Z.of_nat i < nwrites)%Z in
    b_keys st !! i = Some {| km_key := k; km_type := if write then WRITE else READ; km_metadata := None |} ∧
    b_code st !! i = Some (if write then ["SET"%string; k; x] else ["GET"%string; k]) ∧
    b_records st !! k = Some r ∧ is_write r = write ∧ pr_partition r ∈ ps ∧ pr_home r ∈ homes ∧
    placed (bw_np w) (bw_nr w) (pr_partition r) (pr_home r) k.

Record building_ok (ps homes : list Z) (n : nat) (st : building) : Prop := {
  bk_keys : length (b_keys st) = n;
  bk_code : length (b_code st) = n;
  bk_size : size (b_records st) = n;
  bk_dom k : is_Some (b_records st !! k) ↔ k ∈ km_key <$> b_keys st;
  bk_nodup : NoDup (km_key <$> b_keys st);
  bk_metadata : Forall (λ km, km_metadata km = None) (b_keys st);
  bk_records i : i < n → record_ok ps homes st i
}.

Lemma record_ok_snoc ps homes st km proc k r rnd i :
  record_ok ps homes st i → b_records st !! k = None →
  record_ok ps homes {| b_records := <[k := r]> (b_records st); b_keys := b_keys st ++ [km]; b_code := b_code st ++ [proc]; b_rnd := rnd |} i.
Proof.
  intros (k' & x & r' & H1 & H2 & H3 & H4) Hk. exists k', x, r'. cbn [b_keys b_code b_records].
  rewrite (lookup_app_l_Some _ _ _ _ H1), (lookup_app_l_Some _ _ _ _ H2). do 2 (split; [done|]). split; [|exact H4].
  rewrite lookup_insert_ne; [done|]. intros ->. congruence.
Qed.

Lemma gives_add_record ps homes hots vs st i :
  ps ≠ [] → (∀ p, p ∈ ps → (0 ≤ p < bw_np w)%Z) → homes_ok homes → i < Z.to_nat nrec → length hots = Z.to_nat nrec →
  (true ∈ hots → 0 < nhot)%Z →
  building_ok ps homes i st →
  gives (λ fuel, add_record fuel w plain true ps homes nrec nwrites vs hots st i) (building_ok ps homes (S i)).
Proof.
  intros Hps Hpr Hhs Hi Hhl Hht Hst. pose proof Hst as [Hk Hc Hs Hd Hn Hm Hr]. unfold add_record.
  assert (Hpl : length ps ≠ 0) by (by destruct ps).
  destruct (lookup_lt_is_Some_2 ps (i mod length ps)) as [p Hp]; [by apply Nat.mod_upper_bound|].
  eapply gives_lift_bind; [by apply at_index_Some|]. apply list_elem_of_lookup_2 in Hp.
  destruct (home_of_ok homes i Hhs Hi) as (h & Eh & Hh). eapply gives_lift_bind; [exact Eh|].
  assert (Hhr : (0 ≤ h < bw_nr w)%Z) by (by apply Hhs).
  destruct (bo_lists _ _ _ _ _ Hok p h (Hpr p Hp) Hhr) as (lists & l & nk & nh & El & Ell & Hl & Hn1 & Hn2).
  eapply gives_lift_bind; [by apply at_index_Some|]. eapply gives_lift_bind; [by apply at_index_Some|].
  destruct (lookup_lt_is_Some_2 hots i) as [hot Hhot]; [lia|]. eapply gives_lift_bind; [by apply at_index_Some|].
  eapply gives_bind; [apply (gives_choose_key hot p h l (b_records st)); [by apply Hpr|done|lia| |by exists nk, nh]|].
  { intros ->. by eapply Hht, list_elem_of_lookup_2. }
  intros k [Hfree Hpl']. cbv beta. destruct (next_string (b_rnd st) (Z.to_nat vs)) as [x rnd]. apply gives_ret.
  assert (Hkn : k ∉ km_key <$> b_keys st) by (rewrite <-Hd, Hfree; by intros [? ?]).
  set (write := bool_decide (Z.of_nat i < nwrites)%Z). split; cbn [b_keys b_code b_records].
  - rewrite length_app. simpl. lia.
  - rewrite length_app. simpl. lia.
  - rewrite map_size_insert_None by done. lia.
  - intros k'. rewrite fmap_app, elem_of_app, <-Hd, lookup_insert_is_Some'. simpl. set_solver.
  - rewrite fmap_app. apply NoDup_app. split_and!; [done|set_solver|apply NoDup_singleton].
  - apply Forall_app. split; [done|]. by repeat constructor.
  - intros j Hj. destruct (decide (j = i)) as [->|Hne]; [|apply record_ok_snoc; [apply Hr; lia|done]].
    exists k, x, {| pr_partition := p; pr_home := h; is_hot := hot; is_write := write |}. cbn [b_keys b_code b_records].
    rewrite !lookup_app_r, Hk, Hc, Nat.sub_diag, lookup_insert_eq by lia. by split_and!.
Qed.

(** What a generated transaction looks like. *)
Record basic_txn (t : Transaction) (pro : TransactionProfile) : Prop := {
  bt_size : Z.of_nat (length (keys t)) = nrec;
  bt_nodup : NoDup (key <$> keys t);
  bt_code i kv : keys t !! i = Some kv → ∃ x,
    key_type kv = (if bool_decide (Z.of_nat i < nwrites)%Z then WRITE else READ) ∧
    procedures t !! i = Some (if bool_decide (Z.of_nat i < nwrites)%Z then ["SET"%string; key kv; x] else ["GET"%string; key kv]);
  bt_placed kv : kv ∈ keys t → ∃ r, records pro !! key kv = Some r ∧
    placed (bw_np w) (bw_nr w) (pr_partition r) (pr_home r) (key kv);
  bt_records k : is_Some (records pro !! k) → k ∈ key <$> keys t;
  bt_single_home k1 k2 r1 r2 : is_multi_home pro = false → records pro !! k1 = Some r1 → records pro !! k2 = Some r2 →
    pr_home r1 = pr_home r2;
  bt_single_partition k1 k2 r1 r2 : is_multi_partition pro = false → records pro !! k1 = Some r1 → records pro !! k2 = Some r2 →
    pr_partition r1 = pr_partition r2
}.

Definition entry_of (km : KeyMetadata) : KeyValueEntry :=
  {| key := km_key km; value_entry := {| value := EmptyString; new_value := EmptyString; type := km_type km; opt_metadata := None |} |}.

Lemma built_record ps homes n b k r :
  building_ok ps homes n b → b_records b !! k = Some r →
  pr_partition r ∈ ps ∧ pr_home r ∈ homes ∧ placed (bw_np w) (bw_nr w) (pr_partition r) (pr_home r) k.
Proof.
  intros [Hk Hc Hs Hd Hn Hm Hr] Hkr. pose proof (proj1 (Hd k) ltac:(by eexists)) as (km & -> & [i Hi]%list_elem_of_lookup)%list_elem_of_fmap.
  destruct (Hr i) as (k' & x & r' & H1 & H2 & H3 & H4 & H5); [rewrite <-Hk; by eapply lookup_lt_Some|].
  rewrite Hi in H1. simplify_eq. simpl in *. by simplify_eq.
Qed.

Lemma basic_txn_built ps homes b t mh mp :
  building_ok ps homes (Z.to_nat nrec) b →
  (mp = false → ∃ p, ps = [p]) → (mh = false → ∃ h, ∀ h', h' ∈ homes → h' = h) →
  keys t = entry_of <$> b_keys b → procedures t = b_code b →
  basic_txn t {| client_txn_id := client_txn_id_counter_ w; is_multi_home := mh; is_multi_partition := mp; records := b_records b |}.
Proof.
  intros Hb Hmp Hmh Ht Hp. destruct (bo_records _ _ _ _ _ Hok) as (Hnr & _). pose proof Hb as [Hk Hc Hs Hd Hn Hm Hr].
  assert (Hkeys : key <$> keys t = km_key <$> b_keys b).
  { rewrite Ht, <-list_fmap_compose. by apply list_fmap_ext. }
  split; cbn [records is_multi_home is_multi_partition].
  - rewrite Ht, length_fmap. lia.
  - by rewrite Hkeys.
  - intros i kv Hi. rewrite Ht, list_lookup_fmap in Hi. apply fmap_Some in Hi as (km & Hi & ->).
    destruct (Hr i) as (k & x & r & H1 & H2 & _); [rewrite <-Hk; by eapply lookup_lt_Some|].
    rewrite Hi in H1. simplify_eq. exists x. by rewrite Hp, H2.
  - intros kv Hkv. destruct (proj2 (Hd (key kv))) as [r Hkr]; [rewrite <-Hkeys; set_solver|].
    exists r. split; [done|]. by eapply built_record.
  - intros k. by rewrite Hkeys, Hd.
  - intros k1 k2 r1 r2 E H1 H2. destruct (Hmh E) as (h & Hh).
    destruct (built_record _ _ _ _ _ _ Hb H1) as (_ & E1 & _). destruct (built_record _ _ _ _ _ _ Hb H2) as (_ & E2 & _).
    by rewrite (Hh _ E1), (Hh _ E2).
  - intros k1 k2 r1 r2 E H1 H2. destruct (Hmp E) as (p & ->).
    destruct (built_record _ _ _ _ _ _ Hb H1) as (E1 & _). destruct (built_record _ _ _ _ _ _ Hb H2) as (E2 & _). set_solver.
Qed.

Lemma gives_records ps homes hots vs :
  ps ≠ [] → (∀ p, p ∈ ps → (0 ≤ p < bw_np w)%Z) → homes_ok homes → length hots = Z.to_nat nrec → (true ∈ hots → 0 < nhot)%Z →
  gives (λ fuel, mfoldl (add_record fuel w plain true ps homes nrec nwrites vs hots)
      {| b_records := ∅; b_keys := []; b_code := []; b_rnd := rnd_str_ w |} (seq 0 (Z.to_nat nrec)))
    (building_ok ps homes (Z.to_nat nrec)).
Proof.
  intros Hps Hpr Hhs Hl Hht. eapply gives_weaken.
  - apply (gives_mfoldl (λ fuel, add_record fuel w plain true ps homes nrec nwrites vs hots)
      (λ pre, building_ok ps homes (length pre)) _ []).
    + intros b i pre post E Hb. simpl in E. rewrite length_app. simpl. rewrite Nat.add_1_r.
      assert (Hpre : seq 0 (Z.to_nat nrec) !! length pre = Some i) by (by rewrite E, list_lookup_middle).
      apply lookup_seq in Hpre as [-> Hi]. simpl. by apply gives_add_record.
    + split; try done; try (intros; simpl in *; lia); [|by constructor].
      intros k. simpl. rewrite lookup_empty. split; [by intros []|]. intros Hx. by apply not_elem_of_nil in Hx.
  - intros b. simpl. by rewrite length_seq.
Qed.

(** The whole generation, as one computation. *)
Lemma gives_NextTransaction :
  gives (λ fuel, NextTransaction fuel stod w) (λ r,
    basic_txn r.1.1 r.1.2 ∧ client_txn_id r.1.2 = client_txn_id_counter_ w ∧ id (internal r.1.1) = client_txn_id_counter_ w ∧
    client_txn_id_counter_ r.2 = u64 (client_txn_id_counter_ w + 1) ∧ basic_ok stod r.2 nrec nwrites nhot).
Proof.
  destruct (bo_mp _ _ _ _ _ Hok) as (qp & Hqp & _). destruct (bo_mh _ _ _ _ _ Hok) as (qh & Hqh & _).
  destruct (bo_plain _ _ _ _ _ Hok) as (Pc & Po & Pr & Pm). destruct (bo_counts _ _ _ _ _ Hok) as (Cr & Cw & Ch & vs & Cv).
  destruct (bo_records _ _ _ _ _ Hok) as (Rr & Rw & Rh). unfold NextTransaction.
  eapply gives_lift_bind; [done|]. eapply gives_bind; [apply gives_bernoulli|]. intros mp Hmp.
  eapply gives_lift_bind; [done|]. eapply gives_bind; [by eapply gives_select_partitions|]. intros ps (Hps & Hpr & Hp1).
  eapply gives_lift_bind; [done|]. eapply gives_bind; [apply gives_bernoulli|]. intros mh Hmh.
  do 7 (eapply gives_lift_bind; [done|]). eapply gives_bind; [by eapply gives_select_homes|].
  intros [[homes mh'] local] (Hhs & Hh1 & El). cbn [fst snd] in *. subst local.
  destruct homes as [|h0 homes]; [by destruct Hhs|]. eapply gives_lift_bind; [done|]. cbv beta zeta.
  destruct (decide (nrec < nwrites)%Z) as [?|_]; [lia|]. destruct (decide (nrec < nhot)%Z) as [?|_]; [lia|].
  eapply gives_bind; [apply gives_shuffle|]. intros hots Hhots.
  eapply gives_bind; [apply gives_records; [done..| |]|].
  { rewrite (Permutation_length Hhots), length_app, !length_replicate. lia. }
  { rewrite Hhots, elem_of_app, !elem_of_replicate. intros [[_ ?]|[? _]]; [lia|done]. }
  intros b Hb. destruct (MakeTransaction_unknown (b_keys b) (b_code b) 0 (bk_metadata _ _ _ _ Hb)) as (t & Et & Ek & Ep & _).
  eapply gives_lift_bind; [done|]. apply gives_ret. cbn [fst snd]. split_and!; try done.
  - eapply basic_txn_built; [exact Hb|done| |done|].
    + intros [Hm Hx]%orb_false_iff. exists h0. intros h' Hh'. apply bool_decide_eq_false in Hx.
      destruct (decide (h' = h0)) as [|Hne]; [done|]. destruct Hx. apply Exists_exists. by exists h'.
    + unfold procedures, set_txn_id. simpl. rewrite Ep. by destruct (b_code b).
  - destruct Hok. by split.
Qed.
End basic.

(** A remaster transaction of the remastering workload writes one key, and asks for a new
    master that is the region after the one the key belongs to, so with more than one region
    the key really moves. The profile notes the partition and home the key has at the start. *)
Theorem remaster_workload_moves stod w nrec nwrites nhot :
  basic_ok stod w nrec nwrites nhot →
  gives (λ _, NextRemasterTransaction w) (λ r, ∃ k r',
    key <$> keys r.1.1 = [k] ∧ key_type <$> keys r.1.1 = [WRITE] ∧ program r.1.1 = kRemaster ((pr_home r' + 1) `mod` bw_nr w)%Z false ∧
    records r.1.2 = {[k := r']} ∧ placed (bw_np w) (bw_nr w) (pr_partition r') (pr_home r') k ∧
    ((2 ≤ bw_nr w)%Z → ((pr_home r' + 1) `mod` bw_nr w)%Z ≠ pr_home r') ∧
    client_txn_id_counter_ r.2 = u64 (client_txn_id_counter_ w + 1)).
Proof.
  intros Hok. pose proof (bo_np _ _ _ _ _ Hok) as Hnp. pose proof (bo_nr _ _ _ _ _ Hok) as Hnr. unfold NextRemasterTransaction.
  eapply (gives_bind _ _ (λ n, (0 ≤ n ≤ bw_nr w - 1)%Z)); [apply gives_uniform; [lia|done]|]. intros m Hm.
  eapply (gives_bind _ _ (λ n, (0 ≤ n ≤ bw_np w - 1)%Z)); [apply gives_uniform; [lia|done]|]. intros p Hp.
  destruct (bo_lists _ _ _ _ _ Hok p m ltac:(lia) ltac:(lia)) as (lists & l & nk & nh & El & Ell & Hl & H1 & H2).
  destruct (bo_records _ _ _ _ _ Hok) as (Hr & _).
  eapply gives_lift_bind; [by apply at_index_Some|]. eapply gives_lift_bind; [by apply at_index_Some|].
  eapply (gives_bind _ _ (placed (bw_np w) (bw_nr w) p m)); [by eapply gives_cold_key; [done|lia]|]. intros k Hk.
  eapply gives_lift_bind; [reflexivity|]. apply gives_ret.
  exists k, {| pr_partition := p; pr_home := m; is_hot := false; is_write := true |}. cbn [fst snd].
  pose proof (Z.mod_pos_bound (m + 1) (bw_nr w) ltac:(lia)). split_and!; try done.
  - simpl. rewrite u32_small by lia. done.
  - intros H2'. simpl. destruct (decide (m = bw_nr w - 1)%Z) as [->|].
    + rewrite Z.sub_add, Z.mod_same by lia. lia.
    + rewrite Z.mod_small by lia. lia.
Qed.

(** C24. A key-value workload in its plain mode over simply partitioned keys, whose lists have
    enough keys besides the hot ones, and enough hot ones if it takes hot records at all,
    produces a transaction from every fair sequence of random numbers: it has the number of
    records asked for, all keys distinct, the first ones written and the others read, one
    procedure for each; every key belongs to the partition and to the home that the profile
    notes for it, as the sharder and the initial metadata compute them; a transaction that the
    profile calls single-home or single-partition is; and the workload can go on, with the
    next transaction id. *)
Theorem basic_workload_generates stod w nrec nwrites nhot :
  basic_ok stod w nrec nwrites nhot →
  gives (λ fuel, NextTransaction fuel stod w) (λ r,
    basic_txn w nrec nwrites r.1.1 r.1.2 ∧
    client_txn_id r.1.2 = client_txn_id_counter_ w ∧ id (internal r.1.1) = client_txn_id_counter_ w ∧
    client_txn_id_counter_ r.2 = u64 (client_txn_id_counter_ w + 1) ∧ basic_ok stod r.2 nrec nwrites nhot).
Proof. apply gives_NextTransaction. Qed.

(** The lists of a workload over a simply partitioned key space. *)
Lemma constructed_lists c region data params rnd extra w num_records bytes p m :
  MakeBasicWorkload c region data params rnd extra = Ok w → cp_partitioning (config_ c) = kSimplePartitioning num_records bytes →
  (0 ≤ p < num_partitions c)%Z → (0 ≤ m < num_replicas c)%Z →
  ∃ lists hot, partition_to_key_lists_ w !! Z.to_nat p = Some lists ∧ GetUInt32 (params_ w) "hot" = Ok hot ∧
    lists !! Z.to_nat m = Some (MakeSimpleKeyList num_records (num_partitions c) (num_replicas c) p m (Z.max 1 (hot `div` num_replicas c))).
Proof.
  unfold MakeBasicWorkload. intros H Hc Hp Hm. rewrite Hc in H.
  set (mk hot part rep := MakeSimpleKeyList num_records (num_partitions c) (num_replicas c) part rep (Z.max 1 (hot `div` num_replicas c))).
  assert (Hrow : ∀ hot part, rmap (make_key_list (config_ c) (num_partitions c) (num_replicas c) (Z.max 1 (hot `div` num_replicas c)) part)
      (seqZ 0 (num_replicas c)) = Ok (mk hot part <$> seqZ 0 (num_replicas c))).
  { intros hot part. apply rmap_ok. intros rep _. unfold make_key_list. by rewrite Hc. }
  destruct (MakeWorkloadParams _ _) as [ps|]; [|done]. cbn [mbind result_bind] in H.
  destruct (distance_ranking_from _ _); [|done]. destruct (GetInt32 ps "mh_zipf"); [|done].
  destruct (GetUInt32 ps "hot") as [hot|] eqn:Eh; [|done]. cbn [mbind result_bind] in H.
  rewrite (rmap_ok _ (λ part, mk hot part <$> seqZ 0 (num_replicas c))) in H by (intros; apply Hrow).
  cbn [mbind result_bind] in H. destruct (make_ranking _ _ _); [|done]. cbn [mbind result_bind] in H.
  destruct (GetInt32 ps "nearest"); [|done]. cbn [mbind result_bind] in H. injection H as <-.
  exists (mk hot p <$> seqZ 0 (num_replicas c)), hot. cbn [partition_to_key_lists_ params_].
  rewrite !list_lookup_fmap, !(proj2 (lookup_seqZ _ _ _ _)) by (split; [reflexivity|lia]).
  cbn. by rewrite !Z2Nat.id by lia.
Qed.

Definition example_workload_config : Configuration :=
  {| config_ := {| cp_protocol := "tcp"; cp_replicas := cp_replicas example_proto; cp_broker_ports := [2021%Z];
       cp_server_port := 2023; cp_forwarder_port := 2024; cp_sequencer_port := 2025; cp_num_partitions := 2;
       cp_partitioning := kSimplePartitioning 1000 10; cp_num_workers := 1; cp_mh_orderer_batch_duration := 1;
       cp_forwarder_batch_duration := 1; cp_sequencer_batch_duration := 1; cp_sequencer_batch_size := 0;
       cp_sequencer_rrr := false; cp_replication_factor := 1; cp_replication_order := []; cp_delay_pct := 0;
       cp_delay_amount_ms := 0; cp_enabled_events := []; cp_bypass_mh_orderer := false; cp_cpu_pinnings := [];
       cp_return_dummy_txn := false; cp_recv_retries := 0; cp_execution_type := KEY_VALUE;
       cp_synchronized_batching := false; cp_sample_rate := 100; cp_broker_rcvbuf := 0; cp_long_sender_sndbuf := 0 |};
     local_address_ := "b0"; local_replica_ := 1; local_partition_ := 0;
     all_addresses_ := ["a0"; "a1"; "b0"; "b1"]; replication_order_ := [] |}.

Definition example_stod (s : string) : result Q := z ← stoi (chars s); Ok (inject_Z z).

Definition example_workload : result BasicWorkload :=
  MakeBasicWorkload example_workload_config 1 (λ _, Ok []) "mh=50;mp=50;records=3;writes=2;hot_records=1;hot=6"
    {| rnd_str_pool_offset_ := 0; rnd_str_pool_ := chars "abc" |} ∅.

Definition example_workload_value : BasicWorkload := Eval vm_compute in
  match example_workload with
  | Ok w => w
  | Err _ => {| params_ := ∅; bw_config := example_workload_config; local_region_ := 0; distance_ranking_ := [];
                partition_to_key_lists_ := []; rnd_str_ := {| rnd_str_pool_offset_ := 0; rnd_str_pool_ := [] |};
                client_txn_id_counter_ := 0 |}
  end.

Lemma example_num_keys p m : (0 ≤ p < 2)%Z → (0 ≤ m < 2)%Z → (249 ≤ Z.quot (Z.quot (1000 - p) 2 - m) 2 ≤ 250)%Z.
Proof.
  intros Hp Hm. assert (p = 0 ∨ p = 1)%Z as [-> | ->] by lia; (assert (m = 0 ∨ m = 1)%Z as [-> | ->] by lia); vm_compute; done.
Qed.

Lemma example_workload_ok : basic_ok example_stod example_workload_value 3 2 1.
Proof.
  assert (E : example_workload = Ok example_workload_value) by (vm_compute; reflexivity). unfold example_workload in E.
  assert (Enp : bw_np example_workload_value = 2%Z) by reflexivity.
  assert (Enr : bw_nr example_workload_value = 2%Z) by reflexivity.
  split; rewrite ?Enp, ?Enr; [lia|lia|simpl; lia|..].
  - intros p m Hp Hm. destruct (constructed_lists _ _ _ _ _ _ _ 1000 10 p m E eq_refl Hp Hm) as (lists & hot & H1 & H2 & H3).
    assert (Hh : GetUInt32 (params_ example_workload_value) "hot" = Ok 6%Z) by (vm_compute; reflexivity). rewrite Hh in H2. injection H2 as <-.
    exists lists, (SimpleKeys p m 2 2 (Z.max 1 (Z.quot (Z.quot (1000 - p) 2 - m) 2)) 3), (Z.max 1 (Z.quot (Z.quot (1000 - p) 2 - m) 2)), 3%Z.
    pose proof (example_num_keys p m Hp Hm) as Hk. clear E Enp Enr. split; [exact H1|]. split; [exact H3|]. clear H1 H3 Hh. split; [split; [reflexivity|..]|]; lia.
  - split_and!; vm_compute; reflexivity.
  - split_and!; [vm_compute; reflexivity..|]. exists 50%Z. vm_compute. reflexivity.
  - lia.
  - exists 50%Q. split; [vm_compute; reflexivity|]. right. split; [lia|]. exists 2%Z. split; [vm_compute; reflexivity|lia].
  - exists (-1)%Z. split; [vm_compute; reflexivity|lia].
  - exists 50%Q. split; [vm_compute; reflexivity|]. right. split; [lia|]. exists 2%Z. split; [vm_compute; reflexivity|]. split; [lia|].
    intros h Hh. assert (h = 2%Z) as -> by lia. vm_compute. split; done.
  - exists (-1)%Z. split; [vm_compute; reflexivity|lia].
  - exists 1%Z. vm_compute. reflexivity.
  - split_and!; [apply (bool_decide_eq_true_1 _); vm_compute; reflexivity| |].
    + intros r Hr. assert (r = 0)%Z as ->; [|lia]. by apply list_elem_of_singleton.
    + exists 1%Z. split; vm_compute; reflexivity.
Qed.

Lemma basic_workload_generates_witness :
  ∃ fuel t pro w g, NextTransaction fuel example_stod example_workload_value {| draws := square_gaps; drawn := 0 |} = Ok ((t, pro, w), g) ∧
    basic_txn example_workload_value 3 2 t pro.
Proof.
  destruct (basic_workload_generates _ _ _ _ _ example_workload_ok {| draws := square_gaps; drawn := 0 |} square_gaps_fair)
    as (n & [[t pro] w] & g & H1 & _ & H2 & _).
  exists n, t, pro, w, g. split; [by apply H1|exact H2].
Defined.

Lemma remaster_workload_moves_witness :
  ∃ t pro w g k r, NextRemasterTransaction example_workload_value {| draws := square_gaps; drawn := 0 |} = Ok ((t, pro, w), g) ∧
    program t = kRemaster ((pr_home r + 1) `mod` 2)%Z false ∧ records pro = {[k := r]} ∧ placed 2 2 (pr_partition r) (pr_home r) k.
Proof.
  destruct (remaster_workload_moves _ _ _ _ _ example_workload_ok {| draws := square_gaps; drawn := 0 |} square_gaps_fair)
    as (n & [[t pro] w] & g & H1 & _ & k & r & _ & _ & H2 & H3 & H4 & _).
  exists t, pro, w, g, k, r. split; [exact (H1 n (le_n n))|]. split; [exact H2|]. split; [exact H3|exact H4].
Defined.

(** A CockroachDB workload of the last region takes its remote keys from a region that does
    not exist: the profile has the home 2 of two regions. *)
Definition example_cockroach : CockroachWorkload :=
  {| cw_params_ := <["mh" := "100"]> (<["records" := "2"]> (<["writes" := "1"]> cockroach_default_params)); cw_config_ := example_workload_config;
     cw_local_region_ := 1; cw_rnd_str_ := {| rnd_str_pool_offset_ := 0; rnd_str_pool_ := chars "abc" |}; cw_client_txn_id_counter_ := 0 |}%string.

Definition example_cockroach_profile : option ProfileRecord :=
  match cockroach_NextTransaction 5 example_stod (uniform 0 (zipf_max example_cockroach)) example_cockroach false {| draws := λ _, 3%Z; drawn := 0 |} with
  | Ok ((_, pro, _), _) => records pro !! "8"%string
  | Err _ => None
  end.

Lemma cockroach_remote_region :
  MakeCockroachWorkload example_workload_config 1 "mh=100;records=2;writes=1" (cw_rnd_str_ example_cockroach) = Ok example_cockroach ∧
  num_replicas (cw_config_ example_cockroach) = 2%Z ∧ pr_home <$> example_cockroach_profile = Some 2%Z.
Proof. split_and!; vm_compute; reflexivity. Qed.
