(* ===== verification/TpccWorkload.v ===== *)
(** * The TPC-C workload

    [workload/tpcc.cpp], [workload/tpcc.h] and [execution/tpcc/metadata_initializer.cpp]. The
    time of the system clock is an argument, and so is the order in which the key generator
    visits its hash table. *)
From Stdlib Require Import Ascii QArith_base.
From S2P Require Import Prelude Types StringUtils Config Sharder ProtoUtils Execution Scalar StorageAdapter Table Tpcc TpccKeys Random Workload BasicWorkload.

(** ** [TPCCMetadataInitializer] *)

Definition tpcc_Compute (num_replicas num_partitions : Z) (k : Key) : result Metadata :=
  match read_int (chars k) with
  | Some w =>
    if decide (num_partitions = 0 ∨ num_replicas = 0)%Z then Err (Undef "division by zero")
    else Ok (NewMetadata ((u32 (u32 w - 1) `div` num_partitions) `mod` num_replicas)%Z)
  | None => Err (Fatal "Invalid key")
  end.

(** ** Ids *)

Record TPCCIds := { o_id : Z; no_o_id : Z; h_id : Z }.

Definition MakeTPCCIds (i : Z) : result TPCCIds :=
  o ← signed32 (kOrdPerDist + i);
  h ← signed32 (i + 1);
  Ok {| o_id := o; no_o_id := 1; h_id := h |}.

(** The step is stored and never used. *)
Record TPCCIdGenerator := { ids_ : list (list TPCCIds); max_o_id_ : Z; step_ : Z }.

Definition MakeTPCCIdGenerator (w init step : Z) : result TPCCIdGenerator :=
  if decide (w < 0)%Z then Err (Exn "std::length_error: vector::reserve")
  else
    ids ← (if decide (w = 0)%Z then Ok []
           else x ← MakeTPCCIds init; Ok (replicate (Z.to_nat w) (replicate (Z.to_nat kDistPerWare) x)));
    Ok {| ids_ := ids; max_o_id_ := kOrdPerDist; step_ := step |}.

Definition ids_of (w_id d_id : Z) (g : TPCCIdGenerator) : result TPCCIds :=
  if decide (w_id < 1 ∨ d_id < 1)%Z then Err (Undef "out of range")
  else row ← at_index (ids_ g) (Z.to_nat (w_id - 1)); at_index row (Z.to_nat (d_id - 1)).

Definition set_ids (w_id d_id : Z) (x : TPCCIds) (g : TPCCIdGenerator) : TPCCIdGenerator :=
  {| ids_ := alter (λ row, <[Z.to_nat (d_id - 1) := x]> row) (Z.to_nat (w_id - 1)) (ids_ g);
     max_o_id_ := max_o_id_ g; step_ := step_ g |}.

Definition NextOId (w_id d_id : Z) (g : TPCCIdGenerator) : result (Z * TPCCIdGenerator) :=
  x ← ids_of w_id d_id g;
  n ← signed32 (o_id x + 1);
  let g := set_ids w_id d_id {| o_id := n; no_o_id := no_o_id x; h_id := h_id x |} g in
  Ok (o_id x, {| ids_ := ids_ g; max_o_id_ := Z.max (max_o_id_ g) (o_id x); step_ := step_ g |}).

Definition NextNOOId (w_id d_id : Z) (g : TPCCIdGenerator) : result (Z * TPCCIdGenerator) :=
  x ← ids_of w_id d_id g;
  n ← signed32 (no_o_id x + 1);
  Ok (no_o_id x, set_ids w_id d_id {| o_id := o_id x; no_o_id := n; h_id := h_id x |} g).

Definition NextHId (w_id d_id : Z) (g : TPCCIdGenerator) : result (Z * TPCCIdGenerator) :=
  x ← ids_of w_id d_id g;
  n ← signed32 (h_id x + 1);
  Ok (h_id x, set_ids w_id d_id {| o_id := o_id x; no_o_id := no_o_id x; h_id := n |} g).

(** ** Construction *)

Definition tpcc_default_params : RawParamMap := list_to_map
  [("sp_partition", "-1"); ("homes", "2"); ("mh_zipf", "0"); ("mix", "45:43:4:4:4"); ("sh_only", "0"); ("overlap_ratio", EmptyString);
   ("access_coop", "false"); ("bias", "0")]%string.

Definition NURand (A x y : Z) : M rng Z :=
  a ← uniform 0 A;
  b ← uniform x y;
  mret (Z.lor a b `mod` (y - x + 1) + x)%Z.

Record TPCCWorkload := {
  tw_params : RawParamMap;
  tw_config : Configuration;
  tw_local_region : Z;
  tw_distance_ranking : list Z;
  warehouse_index_ : list (list (list Z));
  tw_client_txn_id_counter : TxnId;
  txn_mix_ : list Z;
  overlap_vec : list Z;
  local_selectale_warehouse : list Z;
  common_selectable_warehouse : list Z;
  id_generator_ : TPCCIdGenerator
}.

Definition add_warehouse (np nr : Z) (index : list (list (list Z))) (i : Z) : result (list (list (list Z))) :=
  if decide (np = 0 ∨ nr = 0)%Z then Err (Undef "division by zero")
  else
    let partition := Z.to_nat (i `mod` np) in
    let home := Z.to_nat (i `div` np `mod` nr) in
    Ok (alter (alter (λ l, l ++ [i + 1]%Z) home) partition index).

Definition make_warehouse_index (np nr warehouses : Z) : result (list (list (list Z))) :=
  rfoldl (add_warehouse np nr) (replicate (Z.to_nat np) (replicate (Z.to_nat nr) [])) (seqZ 0 warehouses).

(** With cooperating access, the first positions are those of the next region. *)
Definition make_local (coop : bool) (bias : Z) (own next : list Z) : result (list Z) :=
  rmap (λ i, at_index (if coop && bool_decide (Z.of_nat i ≤ u64 (Z.of_nat (length own) * u64 bias) `div` 100)%Z then next else own) i)
    (seq 0 (length own)).

Definition make_common (nr region : Z) (index0 : list (list Z)) : result (list Z) :=
  ls ← rmap (λ i, if decide (i = region) then Ok [] else at_index index0 (Z.to_nat i)) (seqZ 0 nr);
  Ok (concat ls).

Definition MakeTPCCWorkload (c : Configuration) (region : Z) (params_str : string) (id_slot : Z * Z) : result TPCCWorkload :=
  params ← MakeWorkloadParams tpcc_default_params params_str;
  ranking ← distance_ranking_from c region;
  zipf_coef ← GetInt32 params "mh_zipf";
  warehouses ← match cp_partitioning (config_ c) with
    | kTpccPartitioning w => Ok w
    | _ => Err (Fatal "TPC-C workload is only compatible with TPC-C partitioning")
    end;
  let nr := num_replicas c in
  let np := num_partitions c in
  ranking ← make_ranking nr region ranking;
  index ← make_warehouse_index np nr warehouses;
  generator ← MakeTPCCIdGenerator warehouses id_slot.1 id_slot.2;
  mix_str ← GetString params "mix";
  let txn_mix_str := Split (chars mix_str) [":"%char] in
  if decide (length txn_mix_str ≠ 5) then Err (Fatal "There must be exactly 5 values for txn mix")
  else
    mix ← rmap stoi txn_mix_str;
    overlap_ratio ← GetInt32 params "overlap_ratio";
    coop_access ← GetBool params "access_coop";
    access_bias ← GetInt32 params "bias";
    index0 ← at_index index 0;
    own ← at_index index0 (Z.to_nat region);
    next ← (if (coop_access : bool) then at_index index0 (Z.to_nat (u32 (region + 1) `mod` nr)) else Ok []);
    local ← make_local coop_access access_bias own next;
    common ← make_common nr region index0;
    Ok {| tw_params := params; tw_config := c; tw_local_region := region; tw_distance_ranking := ranking;
          warehouse_index_ := index; tw_client_txn_id_counter := 0; txn_mix_ := mix; overlap_vec := seqZ 1 100;
          local_selectale_warehouse := local; common_selectable_warehouse := common;
          id_generator_ := generator |}.

(** ** Transactions *)

(** [new Transaction()] *)
Definition new_Transaction : Transaction :=
  {| internal := {| id := 0; txn_type := UNKNOWN; home := 0; coordinating_server := 0; sequencer_delay_ms := 0;
       involved_partitions := []; active_partitions := []; involved_replicas := []; events := []; global_log_positions := [] |};
     program := PROGRAM_NOT_SET; keys := []; deleted_keys := []; status := NOT_STARTED; abort_reason := EmptyString |}.

Section next.
  Context (fuel : nat) (visit : gmap string KeyType → list (Key * KeyType)) (now : Z) (w : TPCCWorkload).

Definition tw_nr : Z := num_replicas (tw_config w).
Definition tw_np : Z := num_partitions (tw_config w).

(** The keys that the transaction asks for, and its code. *)
Definition generate (x : tpcc_txn) (code : list (list string)) : result Transaction :=
  '(_, g) ← generate_keys x (MakeKeyGen new_Transaction);
  Ok (set_program (kCode code) (kg_txn (Finialize visit g))).

Definition warehouses_at (partition region : Z) : result (list Z) :=
  if decide (partition < 0 ∨ region < 0)%Z then Err (Undef "out of range")
  else row ← at_index (warehouse_index_ w) (Z.to_nat partition); at_index row (Z.to_nat region).

Definition SelectRemoteWarehouses (partition : Z) : M rng (list Z) :=
  sh_only ← lift (GetInt32 (tw_params w) "sh_only");
  if decide (sh_only = 1)%Z then
    l ← lift (warehouses_at partition (tw_local_region w)); x ← SampleOnce l; mret [x]
  else
    homes ← lift (GetUInt32 (tw_params w) "homes");
    let max_num_homes := Z.min homes tw_nr in
    if decide (max_num_homes < 2)%Z then mret []
    else
      num_homes ← uniform 2 max_num_homes;
      regions ← zipf_sample fuel (tw_distance_ranking w) (Z.to_nat (num_homes - 1));
      mfoldl (λ res r, l ← lift (warehouses_at partition r); x ← SampleOnce l; mret (res ++ [x])) [] regions.

(** One order line; the flag tells whether a line so far has a remote supplier. *)
Definition next_line (w_id : Z) (remote : list Z) (cross_region : bool) (st : list OrderLine * bool) (i : nat) :
    M rng (list OrderLine * bool) :=
  is_remote ← bernoulli (1 # 100);
  '(supply, mh) ←
    (if is_remote && negb (bool_decide (remote = [])) && cross_region then
       s ← lift (at_index remote (i mod length remote)); mret (s, true)
     else mret (w_id, st.2));
  item ← NURand 8191 1 kMaxItems;
  q ← uniform 1 10;
  mret (st.1 ++ [{| ol_id := Z.of_nat i; supply_w_id := supply; item_id := item; quantity := q |}], mh).

Definition line_args (l : OrderLine) : list string :=
  [int_to_string (ol_id l); int_to_string (supply_w_id l); int_to_string (item_id l); int_to_string (quantity l)].

Definition NewOrder (g : TPCCIdGenerator) (w_id partition : Z) : M rng (Transaction * bool * TPCCIdGenerator) :=
  remote ← SelectRemoteWarehouses partition;
  d_id ← uniform 1 kDistPerWare;
  c_id ← NURand 1023 1 kCustPerDist;
  '(o_id, g) ← lift (NextOId w_id d_id g);
  i_w_id ← lift (n ← signed32 (partition + i32 (u32 (tw_local_region w * tw_np))); signed32 (n + 1));
  overlap ← lift (GetInt32 (tw_params w) "overlap_ratio");
  v ← uniform 1 100;
  '(ol, mh) ← mfoldl (next_line w_id remote (bool_decide (v ≤ overlap)%Z)) ([], false) (seq 0 kLinePerOrder);
  t ← lift (generate (TNewOrder (MakeNewOrder w_id d_id c_id o_id now i_w_id ol))
        ([["new_order"%string; int_to_string w_id; int_to_string d_id; int_to_string c_id; int_to_string o_id;
           int_to_string now; int_to_string i_w_id]] ++ (line_args <$> ol)));
  mret (t, mh, g).

Definition Payment (g : TPCCIdGenerator) (w_id partition : Z) : M rng (Transaction * bool * TPCCIdGenerator) :=
  remote ← SelectRemoteWarehouses partition;
  c_id ← NURand 1023 1 kCustPerDist;
  d_id ← uniform 1 kDistPerWare;
  '(h_id, g) ← lift (NextHId w_id d_id g);
  amount ← uniform 100 500000;
  is_remote ← bernoulli (1 # 100);
  '(c_w_id, c_d_id, mh) ←
    (if is_remote && negb (bool_decide (remote = [])) then
       x ← SampleOnce remote; d ← uniform 1 kDistPerWare; mret (x, d, true)
     else mret (w_id, d_id, false));
  t ← lift (generate (TPayment (MakePayment w_id d_id c_w_id c_d_id c_id amount now h_id))
        [["payment"%string; int_to_string w_id; int_to_string d_id; int_to_string c_w_id; int_to_string c_d_id;
          int_to_string c_id; int_to_string amount; int_to_string now; int_to_string h_id]]);
  mret (t, mh, g).

Definition OrderStatus (g : TPCCIdGenerator) (w_id : Z) : M rng (Transaction * TPCCIdGenerator) :=
  d_id ← uniform 1 kDistPerWare;
  c_id ← NURand 1023 1 kCustPerDist;
  o_id ← uniform (max_o_id_ g - 5) (max_o_id_ g);
  t ← lift (generate (TOrderStatus (MakeOrderStatus w_id d_id c_id o_id))
        [["order_status"%string; int_to_string w_id; int_to_string d_id; int_to_string c_id; int_to_string o_id]]);
  mret (t, g).

Definition Deliver (g : TPCCIdGenerator) (w_id : Z) : M rng (Transaction * TPCCIdGenerator) :=
  c_id ← NURand 1023 1 kCustPerDist;
  d_id ← uniform 1 kDistPerWare;
  '(no_o_id, g) ← lift (NextNOOId w_id d_id g);
  carrier ← uniform 1 10;
  t ← lift (generate (TDeliver (MakeDeliver w_id d_id no_o_id c_id carrier now))
        [["deliver"%string; int_to_string w_id; int_to_string d_id; int_to_string no_o_id; int_to_string c_id;
          int_to_string carrier; int_to_string now]]);
  mret (t, g).

Definition StockLevel (g : TPCCIdGenerator) (w_id : Z) : M rng (Transaction * TPCCIdGenerator) :=
  d_id ← uniform 1 kDistPerWare;
  let o_id := max_o_id_ g in
  i_ids ← mfoldl (λ l _, i ← uniform 1 kMaxItems; mret (l ++ [i])) [] (seq 0 kTotalItems);
  t ← lift (generate (TStockLevel (MakeStockLevel w_id d_id o_id i_ids))
        [["stock_level"%string; int_to_string w_id; int_to_string d_id; int_to_string o_id]; int_to_string <$> i_ids]);
  mret (t, g).

(** The warehouse that the overlap ratio selects is then replaced by a local one. *)
Definition select_warehouse (partition : Z) : M rng Z :=
  selectable_w ← lift (warehouses_at partition (tw_local_region w));
  if decide (selectable_w = []) then lift (Err (Fatal "Not enough warehouses"))
  else
    _ ← SampleOnce selectable_w;
    overlap_ratio ← lift (GetInt32 (tw_params w) "overlap_ratio");
    sample_local_or_common ← SampleOnce (overlap_vec w);
    _ ← SampleOnce (if decide (sample_local_or_common ≤ overlap_ratio)%Z then common_selectable_warehouse w
                    else local_selectale_warehouse w);
    SampleOnce (local_selectale_warehouse w).

Definition tpcc_NextTransaction : M rng (Transaction * TransactionProfile * TPCCWorkload) :=
  p ← lift (GetInt32 (tw_params w) "sp_partition");
  partition ← (if decide (p < 0)%Z then uniform 0 (tw_np - 1) else mret p);
  w_id ← select_warehouse partition;
  choice ← discrete (txn_mix_ w);
  let g := id_generator_ w in
  '(t, mh, g) ←
    match choice with
    | 0 => NewOrder g w_id partition
    | 1 => Payment g w_id partition
    | 2 => '(t, g) ← OrderStatus g w_id; mret (t, false, g)
    | 3 => '(t, g) ← Deliver g w_id; mret (t, false, g)
    | 4 => '(t, g) ← StockLevel g w_id; mret (t, false, g)
    | _ => lift (Err (Fatal "Invalid txn choice"))
    end;
  mret (set_txn_id (tw_client_txn_id_counter w) t,
        {| client_txn_id := tw_client_txn_id_counter w; is_multi_home := mh; is_multi_partition := false; records := ∅ |},
        {| tw_params := tw_params w; tw_config := tw_config w; tw_local_region := tw_local_region w;
           tw_distance_ranking := tw_distance_ranking w; warehouse_index_ := warehouse_index_ w;
           tw_client_txn_id_counter := u64 (tw_client_txn_id_counter w + 1); txn_mix_ := txn_mix_ w;
           overlap_vec := overlap_vec w; local_selectale_warehouse := local_selectale_warehouse w;
           common_selectable_warehouse := common_selectable_warehouse w; id_generator_ := g |}).
End next.

(** ** The keys of a generated transaction *)

Lemma touch_from fp a k ty :
  kg_index (foldl touch1 a fp) !! k = Some ty → is_Some (kg_index a !! k) ∨ k ∈ fp.*2.
Proof.
  revert a. induction fp as [|x fp IH]; intros a Hk; [left; by eexists|]. simpl in Hk. destruct (IH _ Hk) as [Hs|Hs]; [|right; set_solver].
  destruct x as [acc k']. destruct (decide (k = k')) as [->|Hne]; [right; set_solver|]. left.
  destruct acc; unfold touch1, NewReadKey, NewWriteKey in Hs; simpl in Hs; destruct (finalized_ a); try done.
  - destruct (kg_index a !! k'); [done|]. simpl in Hs. by rewrite lookup_insert_ne in Hs.
  - simpl in Hs. by rewrite lookup_insert_ne in Hs.
Qed.

Lemma generate_spec visit x code :
  constructed x → (∀ m, visit m ≡ₚ map_to_list m) →
  ∃ g, generate_keys x (MakeKeyGen new_Transaction) = Ok ((), g) ∧
    generate visit x code = Ok (set_program (kCode code) (kg_txn (Finialize visit g))) ∧
    ∀ k, k ∈ key <$> keys (kg_txn (Finialize visit g)) → k ∈ (read_fp x ++ write_fp x).*2.
Proof.
  intros Hx%constructed_wf Hv.
  destruct (acts_generate_keys (Acts0 := keygen_acts) (λ a fp a', a' = foldl touch1 a fp) (λ a, finalized_ a = false) true x Hx (MakeKeyGen new_Transaction) eq_refl) as [Ht Hr].
  destruct (Ht eq_refl) as ([] & g & E). exists g. destruct (Hr _ _ E) as [-> _]. split; [done|]. split; [unfold generate; by rewrite E|].
  intros k (kv & -> & Hkv)%list_elem_of_fmap. cbn [Finialize kg_txn keys set_keys] in Hkv.
  apply list_elem_of_fmap in Hkv as ([k ty] & -> & Hkv). rewrite Hv in Hkv. apply elem_of_map_to_list in Hkv.
  destruct (touch_from _ _ _ _ Hkv) as [[? Hn]|?]; [done|done].
Qed.

(** The warehouses a transaction names. *)
Definition txn_warehouses (x : tpcc_txn) : list Scalar :=
  match x with
  | TNewOrder t => [no_w_id t; no_i_w_id t] ++ (a_supply_w_id <$> no_ol t)
  | TPayment t => [pa_w_id t; pa_c_w_id t]
  | TOrderStatus t => [os_w_id t]
  | TDeliver t => [de_w_id t]
  | TStockLevel t => [sl_w_id t]
  end.

Definition of_warehouse (ws : list Scalar) (k : Key) : Prop := ∃ w S pkey c, w ∈ ws ∧ k = cell_key S (w :: pkey) c.

(** All cells are of the given warehouses. *)
Definition within (ws : list Scalar) (fp : list (access * Key)) : Prop := ∀ k, k ∈ fp.*2 → of_warehouse ws k.

Lemma within_cells ws w S pkey acc (cs : list nat) : w ∈ ws → within ws (pair acc <$> (cell_key S (w :: pkey) <$> cs)).
Proof.
  intros Hw k Hk. rewrite <-list_fmap_compose in Hk. apply list_elem_of_fmap in Hk as (k' & -> & (c & -> & _)%list_elem_of_fmap). by exists w, S, pkey, c.
Qed.

Lemma within_cell ws w S pkey acc c : w ∈ ws → within ws [(acc, cell_key S (w :: pkey) c)].
Proof. apply (within_cells ws w S pkey acc [c]). Qed.

Lemma within_select ws w S pkey cs : w ∈ ws → within ws (select_fp S (w :: pkey) cs).
Proof. unfold select_fp. destruct (kGroupedColumns S); [apply within_cell|apply within_cells]. Qed.

Lemma within_update ws w S pkey cs : w ∈ ws → within ws (update_fp S (w :: pkey) cs).
Proof. unfold update_fp. destruct (kGroupedColumns S); [apply within_cell|apply within_cells]. Qed.

Lemma within_delete ws w S pkey : w ∈ ws → within ws (delete_fp S (w :: pkey)).
Proof. unfold delete_fp. destruct (kGroupedColumns S); [apply within_cell|apply within_cells]. Qed.

Lemma within_app ws fp1 fp2 : within ws fp1 → within ws fp2 → within ws (fp1 ++ fp2).
Proof. intros H1 H2 k. rewrite fmap_app, elem_of_app. intros [|]; auto. Qed.

Lemma within_bind {X} ws (f : X → list (access * Key)) l : (∀ x, x ∈ l → within ws (f x)) → within ws (l ≫= f).
Proof.
  intros Hf k ([acc k'] & -> & (x & Hx & Hl)%list_elem_of_bind)%list_elem_of_fmap. apply (Hf x Hl). set_solver.
Qed.

Ltac solve_within :=
  repeat first [apply within_app | apply within_select | apply within_update | apply within_delete | apply within_cell | apply within_bind; intros ? ?];
  try set_solver.

Lemma txn_within x : within (txn_warehouses x) (read_fp x ++ write_fp x).
Proof.
  destruct x as [t|t|t|t|t]; cbn [read_fp write_fp txn_warehouses];
    unfold no_read_fp, no_write_fp, pa_read_fp, pa_write_fp, os_read_fp, de_read_fp, de_write_fp, sl_read_fp; solve_within.
  - destruct x as [[n s] i]. apply list_elem_of_fmap in H as (l & [= -> -> ->] & Hl).
    unfold line_read_fp. solve_within.
  - destruct x as [[n s] i]. apply list_elem_of_fmap in H as (l & [= -> -> ->] & Hl).
    unfold line_write_fp. solve_within.
Qed.

(** The warehouse is the first four bytes of a key. *)
Lemma read_int_cell S v pkey c : (- 2 ^ 31 ≤ v < 2 ^ 31)%Z → read_int (chars (cell_key S (Int32Scalar v :: pkey) c)) = Some v.
Proof.
  intros Hv. unfold cell_key. rewrite chars_of_chars. pose proof (le_value_bytes 4 v) as Hl. revert Hl. cbn [row_prefix raw le_bytes app le_value read_int].
  intros Hl. f_equal. transitivity (i32 (v `mod` 2 ^ 32)%Z).
  - f_equal. change (8 * Z.of_nat 4)%Z with 32%Z in Hl. rewrite <-Hl. ring.
  - unfold wraps. rewrite Zplus_mod_idemp_l. apply (wraps_id 32); simpl; lia.
Qed.

(** ** The server reads back what the client wrote *)

Definition int_range (z : Z) : Prop := (- 2 ^ 31 ≤ z < 2 ^ 31)%Z.
Definition long_range (z : Z) : Prop := (- 2 ^ 63 ≤ z < 2 ^ 63)%Z.

(** What the server runs for a transaction. *)
Definition run_value (x : tpcc_txn) (t : Transaction) : result (Transaction * bool) :=
  let a := MakeTxnStorageAdapter t in
  match x with
  | TNewOrder n => finish "NewOrder Txn - " no_error (new_order_Execute n a)
  | TPayment p => finish "Payment Txn - " pa_error (payment_Execute p a)
  | TOrderStatus o => finish "OrderStatus Txn - " (λ _, EmptyString) (order_status_Execute o a)
  | TDeliver d => finish "Deliver Txn - " (λ _, EmptyString) (deliver_Execute d a)
  | TStockLevel s => finish "StockLevel Txn - " (λ _, EmptyString) (stock_level_Execute s a)
  end.

(** The code stands for the transaction. *)
Definition encodes (code : list (list string)) (x : tpcc_txn) : Prop :=
  ∀ t, procedures t = code → ∃ args rest, code = args :: rest ∧ run_code t args = run_value x t.

Lemma arg_int_at args i z : args !! i = Some (int_to_string z) → int_range z → arg_int args i = Ok z.
Proof. intros E Hz. unfold arg_int, arg. rewrite E. by apply stoi_to_string. Qed.

Lemma arg_int64_at args i z : args !! i = Some (int_to_string z) → long_range z → arg_int64 args i = Ok z.
Proof. intros E Hz. unfold arg_int64, arg. rewrite E. by apply stoll_to_string. Qed.

Ltac parse_args :=
  repeat first [rewrite decide_True by done | rewrite decide_False by (simpl; lia || done)
    | erewrite arg_int_at by (reflexivity || done) | erewrite arg_int64_at by (reflexivity || done)
    | progress cbn [mbind result_bind]].

Lemma encodes_payment w d cw cd c am dt h :
  int_range w → int_range d → int_range cw → int_range cd → int_range c → long_range am → long_range dt → int_range h →
  encodes [["payment"%string; int_to_string w; int_to_string d; int_to_string cw; int_to_string cd; int_to_string c;
            int_to_string am; int_to_string dt; int_to_string h]] (TPayment (MakePayment w d cw cd c am dt h)).
Proof.
  intros ???????? t _. eexists _, _. split; [reflexivity|]. unfold run_code. change (arg (_ :: _) 0) with (Ok "payment"%string). parse_args. reflexivity.
Qed.

Lemma encodes_order_status w d c o :
  int_range w → int_range d → int_range c → int_range o →
  encodes [["order_status"%string; int_to_string w; int_to_string d; int_to_string c; int_to_string o]]
    (TOrderStatus (MakeOrderStatus w d c o)).
Proof.
  intros ???? t _. eexists _, _. split; [reflexivity|]. unfold run_code. change (arg (_ :: _) 0) with (Ok "order_status"%string). parse_args. reflexivity.
Qed.

Lemma encodes_deliver w d o c ca dt :
  int_range w → int_range d → int_range o → int_range c → int_range ca → long_range dt →
  encodes [["deliver"%string; int_to_string w; int_to_string d; int_to_string o; int_to_string c; int_to_string ca; int_to_string dt]]
    (TDeliver (MakeDeliver w d o c ca dt)).
Proof.
  intros ?????? t _. eexists _, _. split; [reflexivity|]. unfold run_code. change (arg (_ :: _) 0) with (Ok "deliver"%string). parse_args. reflexivity.
Qed.

Lemma rmap_stoi_to_string l : Forall int_range l → rmap (λ s, stoi (chars s)) (int_to_string <$> l) = Ok l.
Proof.
  induction 1 as [|z l Hz _ IH]; [done|]. rewrite fmap_cons. cbn [rmap]. rewrite stoi_to_string by exact Hz. cbn [mbind result_bind]. by rewrite IH.
Qed.

Lemma encodes_stock_level w d o ids :
  int_range w → int_range d → int_range o → Forall int_range ids → length ids = kTotalItems →
  encodes [["stock_level"%string; int_to_string w; int_to_string d; int_to_string o]; int_to_string <$> ids]
    (TStockLevel (MakeStockLevel w d o ids)).
Proof.
  intros ??? Hids Hl t Ht. eexists _, _. split; [reflexivity|]. unfold run_code. change (arg (_ :: _) 0) with (Ok "stock_level"%string).
  rewrite Ht. parse_args. change (at_index [_; ?x] 1) with (Ok x). cbn [mbind result_bind].
  rewrite decide_False by (rewrite length_fmap; lia). rewrite rmap_stoi_to_string by done. reflexivity.
Qed.

Definition line_range (l : OrderLine) : Prop :=
  int_range (ol_id l) ∧ int_range (supply_w_id l) ∧ int_range (item_id l) ∧ int_range (quantity l).

Lemma parse_lines_args ol : Forall line_range ol → parse_lines (line_args <$> ol) = Ok (Some ol).
Proof.
  induction 1 as [|l ol (H1 & H2 & H3 & H4) _ IH]; [done|]. rewrite fmap_cons. cbn [parse_lines].
  assert (parse_line (line_args l) = Ok (Some l)) as ->; [|cbn [mbind result_bind]; by rewrite IH].
  unfold parse_line, line_args. parse_args. by destruct l.
Qed.

Lemma encodes_new_order w d c o dt iw ol :
  int_range w → int_range d → int_range c → int_range o → long_range dt → int_range iw → Forall line_range ol → length ol = kLinePerOrder →
  encodes ([["new_order"%string; int_to_string w; int_to_string d; int_to_string c; int_to_string o; int_to_string dt; int_to_string iw]]
           ++ (line_args <$> ol)) (TNewOrder (MakeNewOrder w d c o dt iw ol)).
Proof.
  intros ????? Hiw Hol Hl t Ht. eexists _, _. split; [reflexivity|]. unfold run_code. change (arg (_ :: _) 0) with (Ok "new_order"%string).
  rewrite Ht. cbn [mbind result_bind app]. rewrite decide_True by done. rewrite decide_False by (simpl length; rewrite length_fmap, Hl; unfold kLinePerOrder; lia).
  assert (long_range iw) by (unfold long_range, int_range in *; lia). parse_args.
  change (drop 1 (?x :: ?l)) with l. rewrite parse_lines_args by done. cbn [mbind result_bind].
  by rewrite (wraps_id 32) by (simpl; unfold int_range in *; lia).
Qed.

(** ** The id generator *)

Definition known (g : TPCCIdGenerator) (x : Z) : Prop := (1 ≤ x ≤ Z.of_nat (length (ids_ g)))%Z.

(** No id is above [n]. *)
Record ids_ok (n : Z) (g : TPCCIdGenerator) : Prop := {
  io_size : (Z.of_nat (length (ids_ g)) < 2 ^ 31)%Z;
  io_rows : Forall (λ row, length row = Z.to_nat kDistPerWare) (ids_ g);
  io_ids : Forall (Forall (λ x, 0 ≤ o_id x ≤ n ∧ 0 ≤ no_o_id x ≤ n ∧ 0 ≤ h_id x ≤ n)%Z) (ids_ g);
  io_max : (kOrdPerDist ≤ max_o_id_ g ≤ n)%Z
}.

Lemma ids_of_ok n g w d : ids_ok n g → known g w → (1 ≤ d ≤ kDistPerWare)%Z →
  ∃ x, ids_of w d g = Ok x ∧ (0 ≤ o_id x ≤ n ∧ 0 ≤ no_o_id x ≤ n ∧ 0 ≤ h_id x ≤ n)%Z.
Proof.
  intros [_ Hr Hi _] Hw Hd. unfold ids_of, known in *. rewrite decide_False by lia.
  destruct (lookup_lt_is_Some_2 (ids_ g) (Z.to_nat (w - 1))) as [row Hrow]; [lia|].
  rewrite (at_index_Some _ _ _ Hrow). cbn [mbind result_bind]. pose proof (Forall_lookup_1 _ _ _ _ Hr Hrow) as Hlen. simpl in Hlen.
  destruct (lookup_lt_is_Some_2 row (Z.to_nat (d - 1))) as [x Hx]; [lia|]. rewrite (at_index_Some _ _ _ Hx). exists x. split; [done|].
  pose proof (Forall_lookup_1 _ _ _ _ Hi Hrow) as Hi'. exact (Forall_lookup_1 _ _ _ _ Hi' Hx).
Qed.

Lemma set_ids_ok n g w d x :
  ids_ok n g → (0 ≤ o_id x ≤ n + 1 ∧ 0 ≤ no_o_id x ≤ n + 1 ∧ 0 ≤ h_id x ≤ n + 1)%Z →
  ids_ok (n + 1) (set_ids w d x g) ∧ length (ids_ (set_ids w d x g)) = length (ids_ g).
Proof.
  intros [Hs Hr Hi Hm] Hx. cbn [set_ids ids_ max_o_id_]. split; [|by rewrite length_alter]. split; cbn [set_ids ids_ max_o_id_]; [by rewrite length_alter| | |lia].
  - apply Forall_alter; [done|]. intros row _ Hrow. by rewrite length_insert.
  - apply Forall_alter.
    + eapply Forall_impl; [exact Hi|]. intros row Hrow. eapply Forall_impl; [exact Hrow|]. simpl. lia.
    + intros row _ Hrow. by apply Forall_insert.
Qed.

Lemma signed32_ok z : int_range z → signed32 z = Ok z.
Proof. intros Hz. unfold signed32. by rewrite decide_True. Qed.

Ltac next_id :=
  match goal with
  | Hg : ids_ok ?n ?g, Hw : known ?g ?w, Hd : (1 ≤ ?d ≤ kDistPerWare)%Z |- _ =>
    let x := fresh "x" in let E := fresh "E" in let H1 := fresh in let H2 := fresh in let H3 := fresh in
    destruct (ids_of_ok n g w d Hg Hw Hd) as (x & E & H1 & H2 & H3); rewrite E; cbn [mbind result_bind];
    rewrite signed32_ok by (unfold int_range; lia); cbn [mbind result_bind]; eexists _, _; split; [reflexivity|]; split; [lia|]
  end.

Lemma NextNOOId_ok n g w d : ids_ok n g → known g w → (1 ≤ d ≤ kDistPerWare)%Z → (n < 2 ^ 31 - 1)%Z →
  ∃ i g', NextNOOId w d g = Ok (i, g') ∧ (0 ≤ i ≤ n)%Z ∧ ids_ok (n + 1) g' ∧ length (ids_ g') = length (ids_ g).
Proof. intros Hg Hw Hd Hn. unfold NextNOOId. next_id. apply set_ids_ok; [done|]. simpl. lia. Qed.

Lemma NextHId_ok n g w d : ids_ok n g → known g w → (1 ≤ d ≤ kDistPerWare)%Z → (n < 2 ^ 31 - 1)%Z →
  ∃ i g', NextHId w d g = Ok (i, g') ∧ (0 ≤ i ≤ n)%Z ∧ ids_ok (n + 1) g' ∧ length (ids_ g') = length (ids_ g).
Proof. intros Hg Hw Hd Hn. unfold NextHId. next_id. apply set_ids_ok; [done|]. simpl. lia. Qed.

Lemma NextOId_ok n g w d : ids_ok n g → known g w → (1 ≤ d ≤ kDistPerWare)%Z → (n < 2 ^ 31 - 1)%Z →
  ∃ i g', NextOId w d g = Ok (i, g') ∧ (0 ≤ i ≤ n)%Z ∧ ids_ok (n + 1) g' ∧ length (ids_ g') = length (ids_ g).
Proof.
  intros Hg Hw Hd Hn. unfold NextOId. next_id.
  destruct (set_ids_ok n g w d {| o_id := o_id x + 1; no_o_id := no_o_id x; h_id := h_id x |} Hg) as [Hok Hlen]; [simpl; lia|].
  split; [|exact Hlen]. destruct Hok as [Hs Hr Hi Hm]. split; try done. cbn [max_o_id_ set_ids] in *. lia.
Qed.

Lemma ids_ok_mono n n' g : ids_ok n g → (n ≤ n')%Z → ids_ok n' g.
Proof.
  intros [Hs Hr Hi Hm] Hn. split; [done..| |lia]. eapply Forall_impl; [exact Hi|]. intros row Hrow. eapply Forall_impl; [exact Hrow|]. simpl. lia.
Qed.

(** ** What the workload generates *)

(** The region that a warehouse is placed in. *)
Definition warehouse_home (np nr x : Z) : Z := ((x - 1) `div` np `mod` nr)%Z.

(** The parameters and lists under which the workload has what it needs. *)
Record tpcc_ok (n : Z) (w : TPCCWorkload) : Prop := {
  to_np : (0 < tw_np w < 2 ^ 31)%Z;
  to_nr : (0 < tw_nr w < 2 ^ 31)%Z;
  to_size : (tw_np w * tw_nr w < 2 ^ 31)%Z;
  to_region : (0 ≤ tw_local_region w < tw_nr w)%Z;
  to_index p r : (0 ≤ p < tw_np w)%Z → (0 ≤ r < tw_nr w)%Z →
    ∃ l, warehouses_at w p r = Ok l ∧ l ≠ [] ∧ ∀ x, x ∈ l → known (id_generator_ w) x;
  to_local : local_selectale_warehouse w ≠ [] ∧ ∀ x, x ∈ local_selectale_warehouse w → known (id_generator_ w) x;
  to_overlap : overlap_vec w = seqZ 1 100 ∧ ∃ r, GetInt32 (tw_params w) "overlap_ratio" = Ok r ∧ ((r < 1)%Z ∨ common_selectable_warehouse w ≠ []);
  to_partition : ∃ p, GetInt32 (tw_params w) "sp_partition" = Ok p ∧ (p < tw_np w)%Z;
  to_homes : (∃ s, GetInt32 (tw_params w) "sh_only" = Ok s) ∧ ∃ h, GetUInt32 (tw_params w) "homes" = Ok h;
  to_mix : length (txn_mix_ w) = 5 ∧ Forall (λ x, 0 ≤ x)%Z (txn_mix_ w) ∧ Exists (λ x, 0 < x)%Z (txn_mix_ w);
  to_ranking : NoDup (tw_distance_ranking w) ∧ (∀ r, r ∈ tw_distance_ranking w → (0 ≤ r < tw_nr w)%Z) ∧
    (Z.of_nat (length (tw_distance_ranking w)) = tw_nr w - 1)%Z;
  to_ids : ids_ok n (id_generator_ w)
}.

(** Every warehouse that the workload selects from is placed in the local region. *)
Definition selects_local (w : TPCCWorkload) : Prop :=
  ∀ x, x ∈ local_selectale_warehouse w → warehouse_home (tw_np w) (tw_nr w) x = tw_local_region w.

Lemma gives_NURand A x y : (0 ≤ A)%Z → (x ≤ y)%Z → gives (λ _, NURand A x y) (λ v, (x ≤ v ≤ y)%Z).
Proof.
  intros HA Hxy. unfold NURand. eapply (gives_bind _ _ (λ _, True)); [by apply gives_uniform|]. intros a _.
  eapply (gives_bind _ _ (λ _, True)); [by apply gives_uniform|]. intros b _. apply gives_ret.
  pose proof (Z.mod_pos_bound (Z.lor a b) (y - x + 1)). lia.
Qed.

Section generates.
  Context (visit : gmap string KeyType → list (Key * KeyType)) (now : Z) (w : TPCCWorkload) (n : Z).
  Context (Hv : ∀ m, visit m ≡ₚ map_to_list m) (Hnow : long_range now) (Hok : tpcc_ok n w) (Hn : (n < 2 ^ 31 - 1)%Z).

Lemma known_range g x : ids_ok n g → known g x → int_range x.
Proof. intros [Hs _ _ _] Hx. unfold known, int_range in *. lia. Qed.

Lemma gives_SelectRemoteWarehouses p :
  (0 ≤ p < tw_np w)%Z → gives (λ fuel, SelectRemoteWarehouses fuel w p) (λ l, ∀ x, x ∈ l → known (id_generator_ w) x).
Proof.
  intros Hp. destruct (to_homes _ _ Hok) as [[s Hs] [h Hh]]. destruct (to_ranking _ _ Hok) as (Hnd & Hrk & Hrl).
  pose proof (to_region _ _ Hok) as Hreg. unfold SelectRemoteWarehouses. eapply gives_lift_bind; [done|].
  destruct (decide (s = 1)%Z).
  - destruct (to_index _ _ Hok p _ Hp Hreg) as (l & El & Hne & Hl). eapply gives_lift_bind; [done|].
    eapply gives_bind; [by apply gives_SampleOnce|]. intros x Hx. apply gives_ret. intros y ->%list_elem_of_singleton. auto.
  - eapply gives_lift_bind; [done|]. cbv zeta. destruct (decide (Z.min h (tw_nr w) < 2)%Z).
    { apply gives_ret. by intros x Hx%not_elem_of_nil. }
    eapply (gives_bind _ _ (λ k, (2 ≤ k ≤ Z.min h (tw_nr w))%Z)); [apply gives_uniform; [lia|done]|]. intros k Hk.
    eapply gives_bind; [apply gives_zipf_sample; [done|lia]|]. intros regions (_ & _ & Hin).
    apply (gives_mfoldl (λ _ res r, l ← lift (warehouses_at w p r); x ← SampleOnce l; mret (res ++ [x]))
      (λ _ res, ∀ x, x ∈ res → known (id_generator_ w) x) [] []); [|by intros x Hx%not_elem_of_nil].
    intros res r pre post E Hres. destruct (to_index _ _ Hok p r Hp) as (l & El & Hne & Hl); [apply Hrk, Hin; simpl in E; rewrite E; set_solver|].
    eapply gives_lift_bind; [done|]. eapply gives_bind; [by apply gives_SampleOnce|]. intros x Hx. apply gives_ret.
    intros y [Hy|Hy%list_elem_of_singleton]%elem_of_app; [auto|]. subst. auto.
Qed.

Lemma gives_select_warehouse p :
  (0 ≤ p < tw_np w)%Z → gives (λ _, select_warehouse w p) (λ x, x ∈ local_selectale_warehouse w).
Proof.
  intros Hp. destruct (to_overlap _ _ Hok) as (Hvec & r & Hr & Hc). destruct (to_local _ _ Hok) as [Hloc _].
  destruct (to_index _ _ Hok p _ Hp (to_region _ _ Hok)) as (l & El & Hne & _). unfold select_warehouse.
  eapply gives_lift_bind; [done|]. destruct (decide (l = [])) as [|_]; [done|]. eapply gives_bind; [by apply gives_SampleOnce|]. intros _ _.
  eapply gives_lift_bind; [done|]. rewrite Hvec. eapply gives_bind; [by apply gives_SampleOnce|]. intros s Hs%elem_of_seqZ.
  eapply gives_bind; [apply gives_SampleOnce|intros _ _; by apply gives_SampleOnce].
  destruct (decide (s ≤ r)%Z); [|done]. destruct Hc; [lia|done].
Qed.

(** A warehouse that is placed with a given one, or in the local region. *)
Definition placed (y : Z) (s : Scalar) : Prop :=
  ∃ v, s = Int32Scalar v ∧ int_range v ∧ (1 ≤ v)%Z ∧
    (warehouse_home (tw_np w) (tw_nr w) v = warehouse_home (tw_np w) (tw_nr w) y ∨ warehouse_home (tw_np w) (tw_nr w) v = tw_local_region w).

Definition single_warehouse (x : tpcc_txn) : Prop :=
  ∃ y, y ∈ local_selectale_warehouse w ∧ Forall (placed y) (txn_warehouses x).

(** A transaction that was made: its value, its code and its keys belong together, and its
    warehouses are placed with the one that was selected when it is not multi-home. *)
Definition made (t : Transaction) (mh : bool) : Prop :=
  ∃ x code, constructed x ∧ encodes code x ∧ generate visit x code = Ok t ∧ (mh = false → single_warehouse x).

Definition made_with (r : Transaction * bool * TPCCIdGenerator) : Prop :=
  made r.1.1 r.1.2 ∧ ids_ok (n + 1) r.2 ∧ length (ids_ r.2) = length (ids_ (id_generator_ w)).

Lemma gives_generate {Y} x code (k : nat → Transaction → M rng Y) R mh :
  constructed x → encodes code x → (mh = false → single_warehouse x) →
  (∀ t, made t mh → gives (λ fuel, k fuel t) R) → gives (λ fuel, lift (generate visit x code) ≫= k fuel) R.
Proof.
  intros Hx Hc Hh Hk. destruct (generate_spec visit x code Hx Hv) as (g & _ & E & _). eapply gives_lift_bind; [exact E|].
  apply Hk. by exists x, code.
Qed.

Lemma placed_scalar v : v ∈ local_selectale_warehouse w → placed v (MakeInt32Scalar v).
Proof.
  intros Hx. destruct (to_local _ _ Hok) as [_ Hl]. pose proof (Hl v Hx) as Hk. pose proof (known_range _ _ (to_ids _ _ Hok) Hk) as Hr.
  exists v. unfold MakeInt32Scalar. rewrite (wraps_id 32) by (simpl; unfold int_range in *; lia). split_and!; try done; [unfold known in Hk; lia|by left].
Qed.

(** The warehouse of the items. *)
Lemma item_warehouse p :
  (0 ≤ p < tw_np w)%Z → ∃ i, (n ← signed32 (p + i32 (u32 (tw_local_region w * tw_np w))); signed32 (n + 1)) = Ok i ∧
    int_range i ∧ ∀ y, placed y (MakeInt32Scalar i).
Proof.
  intros Hp. pose proof (to_np _ _ Hok) as Hnp. pose proof (to_nr _ _ Hok) as Hnr. pose proof (to_size _ _ Hok) as Hs.
  pose proof (to_region _ _ Hok) as Hreg. assert (H0 : (0 ≤ tw_local_region w * tw_np w ≤ (tw_nr w - 1) * tw_np w)%Z).
  { split; [apply Z.mul_nonneg_nonneg; lia|apply Z.mul_le_mono_nonneg_r; lia]. }
  rewrite Z.mul_sub_distr_r, (Z.mul_comm (tw_nr w)), Z.mul_1_l in H0.
  rewrite u32_small by lia. rewrite (wraps_id 32) by (simpl; lia). rewrite signed32_ok by (unfold int_range; lia). cbn [mbind result_bind].
  rewrite signed32_ok by (unfold int_range; lia). eexists. split; [done|]. split; [unfold int_range; lia|]. intros y.
  eexists. unfold MakeInt32Scalar. rewrite (wraps_id 32) by (simpl; lia). split; [done|]. split; [unfold int_range; lia|]. split; [lia|].
  right. unfold warehouse_home. rewrite Z.add_simpl_r, Z.div_add, (Z.div_small p), Z.mod_small by lia. lia.
Qed.

Ltac ranges := unfold int_range, long_range, kDistPerWare, kCustPerDist, kMaxItems, kOrdPerDist in *; lia.

Lemma gives_OrderStatus x :
  x ∈ local_selectale_warehouse w → gives (λ _, OrderStatus visit (id_generator_ w) x) (λ r, made r.1 false ∧ r.2 = id_generator_ w).
Proof.
  intros Hx. destruct (to_local _ _ Hok) as [_ Hl]. pose proof (Hl x Hx) as Hk. pose proof (known_range _ _ (to_ids _ _ Hok) Hk) as Hr.
  destruct (to_ids _ _ Hok) as [_ _ _ Hm]. unfold OrderStatus.
  eapply (gives_bind _ _ (λ d, (1 ≤ d ≤ kDistPerWare)%Z)); [by apply gives_uniform|]. intros d Hd.
  eapply gives_bind; [by apply gives_NURand|]. intros c Hc.
  eapply (gives_bind _ _ (λ o, (max_o_id_ (id_generator_ w) - 5 ≤ o ≤ max_o_id_ (id_generator_ w))%Z)); [apply gives_uniform; [lia|done]|]. intros o Ho.
  eapply (gives_generate _ _ _ _ false); [constructor|apply encodes_order_status; ranges| |].
  - intros _. exists x. split; [done|]. repeat constructor. by apply placed_scalar.
  - intros t Ht. by apply gives_ret.
Qed.

Lemma gives_Deliver x :
  x ∈ local_selectale_warehouse w → gives (λ _, Deliver visit now (id_generator_ w) x)
    (λ r, made_with (r.1, false, r.2)).
Proof.
  intros Hx. destruct (to_local _ _ Hok) as [_ Hl]. pose proof (Hl x Hx) as Hk. pose proof (known_range _ _ (to_ids _ _ Hok) Hk) as Hr.
  unfold Deliver. eapply gives_bind; [by apply gives_NURand|]. intros c Hc.
  eapply (gives_bind _ _ (λ d, (1 ≤ d ≤ kDistPerWare)%Z)); [by apply gives_uniform|]. intros d Hd.
  destruct (NextNOOId_ok n _ x d (to_ids _ _ Hok) Hk Hd Hn) as (o & g & E & Ho & Hg & Hlen). eapply gives_lift_bind; [exact E|].
  eapply (gives_bind _ _ (λ d, (1 ≤ d ≤ 10)%Z)); [by apply gives_uniform|]. intros ca Hca.
  eapply (gives_generate _ _ _ _ false); [constructor|apply encodes_deliver; ranges| |].
  - intros _. exists x. split; [done|]. repeat constructor. by apply placed_scalar.
  - intros t Ht. by apply gives_ret.
Qed.

Lemma gives_StockLevel x :
  x ∈ local_selectale_warehouse w → gives (λ _, StockLevel visit (id_generator_ w) x) (λ r, made r.1 false ∧ r.2 = id_generator_ w).
Proof.
  intros Hx. destruct (to_local _ _ Hok) as [_ Hl]. pose proof (Hl x Hx) as Hk. pose proof (known_range _ _ (to_ids _ _ Hok) Hk) as Hr.
  destruct (to_ids _ _ Hok) as [_ _ _ Hm]. unfold StockLevel.
  eapply (gives_bind _ _ (λ d, (1 ≤ d ≤ kDistPerWare)%Z)); [by apply gives_uniform|]. intros d Hd. cbv zeta.
  eapply gives_bind.
  { apply (gives_mfoldl (λ _ l _, i ← uniform 1 kMaxItems; mret (l ++ [i])) (λ pre l, length l = length pre ∧ Forall (λ i, 1 ≤ i ≤ kMaxItems)%Z l) [] []); [|done].
    intros l i pre post _ [Hll Hf]. eapply (gives_bind _ _ (λ d, (1 ≤ d ≤ kMaxItems)%Z)); [by apply gives_uniform|]. intros v Hi. apply gives_ret.
    rewrite !length_app, Hll. split; [done|]. apply Forall_app. split; [done|]. by apply Forall_singleton. }
  intros ids [Hlen Hids]. eapply (gives_generate _ _ _ _ false); [constructor; ranges|apply encodes_stock_level; try ranges| |].
  - eapply Forall_impl; [exact Hids|]. intros i. simpl. ranges.
  - by rewrite Hlen, length_app, length_seq.
  - intros _. exists x. split; [done|]. repeat constructor. by apply placed_scalar.
  - intros t Ht. by apply gives_ret.
Qed.

Lemma gives_Payment x p :
  x ∈ local_selectale_warehouse w → (0 ≤ p < tw_np w)%Z → gives (λ fuel, Payment fuel visit now w (id_generator_ w) x p) made_with.
Proof.
  intros Hx Hp. destruct (to_local _ _ Hok) as [_ Hl]. pose proof (Hl x Hx) as Hk. pose proof (known_range _ _ (to_ids _ _ Hok) Hk) as Hr.
  unfold Payment. eapply gives_bind; [by apply gives_SelectRemoteWarehouses|]. intros remote Hrem.
  eapply gives_bind; [by apply gives_NURand|]. intros c Hc.
  eapply (gives_bind _ _ (λ d, (1 ≤ d ≤ kDistPerWare)%Z)); [by apply gives_uniform|]. intros d Hd.
  destruct (NextHId_ok n _ x d (to_ids _ _ Hok) Hk Hd Hn) as (h & g & E & Hh & Hg & Hlen). eapply gives_lift_bind; [exact E|].
  eapply (gives_bind _ _ (λ d, (100 ≤ d ≤ 500000)%Z)); [by apply gives_uniform|]. intros am Ham.
  eapply gives_bind; [apply gives_bernoulli|]. intros is_remote _.
  eapply (gives_bind _ _ (λ r, known (id_generator_ w) r.1.1 ∧ (1 ≤ r.1.2 ≤ kDistPerWare)%Z ∧ (r.2 = false → r.1.1 = x))).
  { destruct (is_remote && negb (bool_decide (remote = []))) eqn:Er; [|by apply gives_ret]. apply andb_true_iff in Er as [_ Er]. bools.
    eapply gives_bind; [by apply gives_SampleOnce|]. intros y Hy.
    eapply (gives_bind _ _ (λ d, (1 ≤ d ≤ kDistPerWare)%Z)); [by apply gives_uniform|]. intros d' Hd'. apply gives_ret. simpl. split_and!; [by auto|lia..|done]. }
  intros [[cw cd] mh] (Hcw & Hcd & Hmh). cbn [fst snd] in *. pose proof (known_range _ _ (to_ids _ _ Hok) Hcw) as Hcr.
  eapply (gives_generate _ _ _ _ mh); [constructor|apply encodes_payment; ranges| |].
  - intros ->. rewrite (Hmh eq_refl). exists x. split; [done|]. repeat constructor; by apply placed_scalar.
  - intros t Ht. by apply gives_ret.
Qed.

(** The lines of an order so far. *)
Definition lines_ok (x : Z) (k : nat) (st : list OrderLine * bool) : Prop :=
  length st.1 = k ∧ Forall line_range st.1 ∧ (st.2 = false → Forall (λ l, supply_w_id l = x) st.1).

Lemma gives_next_line x remote cross st i :
  known (id_generator_ w) x → (∀ y, y ∈ remote → known (id_generator_ w) y) → i < kLinePerOrder → lines_ok x i st →
  gives (λ _, next_line x remote cross st i) (lines_ok x (S i)).
Proof.
  intros Hx Hrem Hi (Hlen & Hr & Hs). unfold next_line. eapply gives_bind; [apply gives_bernoulli|]. intros is_remote _.
  eapply (gives_bind _ _ (λ r, known (id_generator_ w) r.1 ∧ (r.2 = false → r.1 = x ∧ st.2 = false))).
  { destruct (is_remote && negb (bool_decide (remote = [])) && cross) eqn:Er; [|by apply gives_ret]. bools.
    destruct (lookup_lt_is_Some_2 remote (i mod length remote)) as [s Hs']; [apply Nat.mod_upper_bound; by destruct remote|].
    eapply gives_lift_bind; [by apply at_index_Some|]. apply gives_ret. split; [|done]. by eapply Hrem, list_elem_of_lookup_2. }
  intros [s mh] [Hks Hmh]. cbn [fst snd] in *. pose proof (known_range _ _ (to_ids _ _ Hok) Hks) as Hsr.
  eapply gives_bind; [by apply gives_NURand|]. intros item Hitem.
  eapply (gives_bind _ _ (λ d, (1 ≤ d ≤ 10)%Z)); [by apply gives_uniform|]. intros q Hq. apply gives_ret.
  unfold lines_ok. cbn [fst snd]. rewrite length_app, Hlen. split; [simpl; lia|]. split.
  - apply Forall_app. split; [done|]. apply Forall_singleton. unfold line_range. simpl. unfold kLinePerOrder in Hi. split_and!; ranges.
  - intros E. destruct (Hmh E) as [-> E']. apply Forall_app. split; [by apply Hs|]. by apply Forall_singleton.
Qed.

Lemma gives_NewOrder x p :
  x ∈ local_selectale_warehouse w → (0 ≤ p < tw_np w)%Z → gives (λ fuel, NewOrder fuel visit now w (id_generator_ w) x p) made_with.
Proof.
  intros Hx Hp. destruct (to_local _ _ Hok) as [_ Hl]. pose proof (Hl x Hx) as Hk. pose proof (known_range _ _ (to_ids _ _ Hok) Hk) as Hr.
  unfold NewOrder. eapply gives_bind; [by apply gives_SelectRemoteWarehouses|]. intros remote Hrem.
  eapply (gives_bind _ _ (λ d, (1 ≤ d ≤ kDistPerWare)%Z)); [by apply gives_uniform|]. intros d Hd.
  eapply gives_bind; [by apply gives_NURand|]. intros c Hc.
  destruct (NextOId_ok n _ x d (to_ids _ _ Hok) Hk Hd Hn) as (o & g & E & Ho & Hg & Hlen). eapply gives_lift_bind; [exact E|].
  destruct (item_warehouse p Hp) as (iw & Eiw & Hiw & Hih). eapply gives_lift_bind; [exact Eiw|].
  destruct (to_overlap _ _ Hok) as (_ & ov & Hov & _). eapply gives_lift_bind; [done|].
  eapply (gives_bind _ _ (λ _, True)); [by apply gives_uniform|]. intros v _.
  eapply gives_bind.
  { apply (gives_mfoldl (λ _, next_line x remote (bool_decide (v ≤ ov)%Z)) (λ pre, lines_ok x (length pre)) _ []); [|done].
    intros st i pre post Es Hst. rewrite length_app. simpl. rewrite Nat.add_1_r.
    assert (Hpre : seq 0 kLinePerOrder !! length pre = Some i) by (cbn [app] in Es; by rewrite Es, list_lookup_middle).
    apply lookup_seq in Hpre as [-> Hi]. simpl. by apply gives_next_line. }
  intros [ol mh] (Hol & Hrange & Hsup). simpl in Hol. cbn [fst snd] in *.
  eapply (gives_generate _ _ _ _ mh); [constructor|apply encodes_new_order; try done; ranges| |].
  - intros ->. exists x. split; [done|]. cbn [txn_warehouses MakeNewOrder no_w_id no_i_w_id no_ol]. pose proof (placed_scalar x Hx) as Hhx. apply Forall_app. split; [by repeat constructor|].
    rewrite <-list_fmap_compose. apply Forall_fmap. eapply Forall_impl; [exact (Hsup eq_refl)|]. intros l Hls. simpl. by rewrite Hls.
  - intros t Ht. by apply gives_ret.
Qed.

Lemma gives_choice choice x p :
  x ∈ local_selectale_warehouse w → (0 ≤ p < tw_np w)%Z → choice < 5 →
  gives (λ fuel, match choice with
    | 0 => NewOrder fuel visit now w (id_generator_ w) x p
    | 1 => Payment fuel visit now w (id_generator_ w) x p
    | 2 => '(t, g) ← OrderStatus visit (id_generator_ w) x; mret (t, false, g)
    | 3 => '(t, g) ← Deliver visit now (id_generator_ w) x; mret (t, false, g)
    | 4 => '(t, g) ← StockLevel visit (id_generator_ w) x; mret (t, false, g)
    | _ => lift (Err (Fatal "Invalid txn choice"))
    end) made_with.
Proof.
  intros Hx Hp Hc. assert (Hsame : ids_ok (n + 1) (id_generator_ w)) by (eapply ids_ok_mono; [apply (to_ids _ _ Hok)|lia]).
  do 5 try destruct choice as [|choice]; [..|lia].
  - by apply gives_NewOrder.
  - by apply gives_Payment.
  - eapply gives_bind; [by apply gives_OrderStatus|]. intros [t g] [Ht Eg]. simpl in Eg. subst g. by apply gives_ret.
  - eapply gives_bind; [by apply gives_Deliver|]. intros [t g] Ht. by apply gives_ret.
  - eapply gives_bind; [by apply gives_StockLevel|]. intros [t g] [Ht Eg]. simpl in Eg. subst g. by apply gives_ret.
Qed.

Lemma gives_tpcc_NextTransaction :
  gives (λ fuel, tpcc_NextTransaction fuel visit now w) (λ r,
    ∃ t, made t (is_multi_home r.1.2) ∧ r.1.1 = set_txn_id (tw_client_txn_id_counter w) t ∧
      tw_client_txn_id_counter r.2 = u64 (tw_client_txn_id_counter w + 1) ∧ tpcc_ok (n + 1) r.2 ∧
      (selects_local w → selects_local r.2)).
Proof.
  destruct (to_partition _ _ Hok) as (p & Hp & Hlt). pose proof (to_np _ _ Hok) as Hnp. unfold tpcc_NextTransaction.
  eapply gives_lift_bind; [done|]. eapply (gives_bind _ _ (λ p, (0 ≤ p < tw_np w)%Z)).
  { destruct (decide (p < 0)%Z); [apply gives_uniform; [lia|lia]|apply gives_ret; lia]. }
  intros q Hq. eapply gives_bind; [by apply gives_select_warehouse|]. intros x Hx.
  destruct (to_mix _ _ Hok) as (Hml & Hm1 & Hm2). eapply gives_bind; [by apply gives_discrete|]. intros choice (v & Hch%lookup_lt_Some & _).
  cbv zeta. eapply gives_bind; [apply gives_choice; [done..|lia]|]. intros [[t mh] g] (Ht & Hg & Hlen). cbn [fst snd] in *.
  apply gives_ret. exists t. cbn [fst snd is_multi_home tw_client_txn_id_counter]. split_and!; try done.
  destruct Hok. split; try done.
  - intros p' r' Hp' Hr'. destruct (to_index0 p' r' Hp' Hr') as (l & El & Hne & Hl). exists l. split_and!; [exact El|done|].
    intros y Hy. specialize (Hl y Hy). unfold known in *. cbn [id_generator_]. by rewrite Hlen.
  - destruct to_local0 as [Hne Hl]. split; [exact Hne|]. intros y Hy. specialize (Hl y Hy).
    unfold known in *. cbn [id_generator_]. by rewrite Hlen.
Qed.
End generates.

Lemma made_home visit w t mh :
  (∀ m, visit m ≡ₚ map_to_list m) → (0 < tw_np w)%Z → (0 < tw_nr w)%Z → made visit w t mh → mh = false →
  ∃ y, y ∈ local_selectale_warehouse w ∧ Forall (λ kv, ∃ r, tpcc_Compute (tw_nr w) (tw_np w) (key kv) = Ok (NewMetadata r) ∧
    (r = warehouse_home (tw_np w) (tw_nr w) y ∨ r = tw_local_region w)) (keys t).
Proof.
  intros Hv Hnp Hnr (x & code & Hx & _ & Eg & Hh) ->. destruct (generate_spec visit x code Hx Hv) as (g & _ & Eg' & Hk).
  rewrite Eg in Eg'. injection Eg' as ->. destruct (Hh eq_refl) as (y & Hy & Hpl). exists y. split; [done|]. apply Forall_forall. intros kv Hkv.
  destruct (txn_within x (key kv)) as (s & S & pkey & c & Hs & ->); [apply Hk; set_solver|].
  rewrite Forall_forall in Hpl. destruct (Hpl s Hs) as (v & -> & Hv' & H1 & H2). exists (warehouse_home (tw_np w) (tw_nr w) v). split; [|exact H2].
  unfold tpcc_Compute. rewrite read_int_cell by exact Hv'. rewrite decide_False by lia. unfold int_range in Hv'.
  rewrite !u32_small by (rewrite ?u32_small; lia). done.
Qed.

(** C23. The TPC-C workload, with a warehouse of every region in every partition and ids that
    do not reach the end of their type, makes a transaction from every fair sequence of random
    numbers. The keys of the transaction are those that its key generation asks for, and its
    code is such that the server, whatever it holds, runs the very transaction the keys were
    generated for. If the profile calls it single-home, every key has as its initial master the
    region of one warehouse that the workload selects from or the local region; where these
    warehouses are all local, which is so unless the access is cooperating, that is the local
    region for every key. With cooperating access the selected warehouse may be one of the next
    region, and the keys of such a transaction may have two masters. The workload can go on,
    with the next transaction id. *)
Theorem tpcc_workload_generates visit now w n :
  (∀ m, visit m ≡ₚ map_to_list m) → long_range now → tpcc_ok n w → (n < 2 ^ 31 - 1)%Z →
  gives (λ fuel, tpcc_NextTransaction fuel visit now w) (λ r,
    (∃ x g, constructed x ∧ generate_keys x (MakeKeyGen new_Transaction) = Ok ((), g) ∧
      keys r.1.1 = keys (kg_txn (Finialize visit g)) ∧
      (∀ t, procedures t = procedures r.1.1 → ∃ args rest, procedures t = args :: rest ∧ run_code t args = run_value x t)) ∧
    (is_multi_home r.1.2 = false →
      ∃ y, y ∈ local_selectale_warehouse w ∧ Forall (λ kv, ∃ h, tpcc_Compute (tw_nr w) (tw_np w) (key kv) = Ok (NewMetadata h) ∧
        (h = warehouse_home (tw_np w) (tw_nr w) y ∨ h = tw_local_region w)) (keys r.1.1)) ∧
    (selects_local w → is_multi_home r.1.2 = false →
      Forall (λ kv, tpcc_Compute (tw_nr w) (tw_np w) (key kv) = Ok (NewMetadata (tw_local_region w))) (keys r.1.1)) ∧
    id (internal r.1.1) = tw_client_txn_id_counter w ∧
    tw_client_txn_id_counter r.2 = u64 (tw_client_txn_id_counter w + 1) ∧
    tpcc_ok (n + 1) r.2 ∧ (selects_local w → selects_local r.2)).
Proof.
  intros Hv Hnow Hok Hn. eapply gives_weaken; [by apply (gives_tpcc_NextTransaction visit now w n)|].
  intros [[t' pro] w'] (t & Ht & E & Hc & Hok' & Hsel). cbn [fst snd] in *. subst t'.
  pose proof (made_home visit w t _ Hv (proj1 (to_np _ _ Hok)) (proj1 (to_nr _ _ Hok)) Ht) as Hhome. split_and!; try done.
  - destruct Ht as (x & code & Hx & Henc & Eg & _). destruct (generate_spec visit x code Hx Hv) as (g & Egk & Eg' & _).
    rewrite Eg in Eg'. injection Eg' as ->. exists x, g. split_and!; try done.
    intros t Hpt. destruct (Henc t Hpt) as (args & rest & E1 & E2). exists args, rest. split; [|done]. rewrite <-E1. exact Hpt.
  - intros Hloc Hmh. destruct (Hhome Hmh) as (y & Hy & Hall). eapply Forall_impl; [exact Hall|].
    intros kv (h & Eh & [->| ->]); [|exact Eh]. by rewrite (Hloc y Hy) in Eh.
Qed.

(** ** The constructor gives such a workload *)

Definition located (np nr p r i : Z) : Prop := (i `mod` np = p ∧ i `div` np `mod` nr = r)%Z.

#[global] Instance located_dec np nr p r i : Decision (located np nr p r i).
Proof. unfold located. apply _. Defined.

Definition index_ok (np nr k : Z) (index : list (list (list Z))) : Prop :=
  length index = Z.to_nat np ∧ Forall (λ row, length row = Z.to_nat nr) index ∧
  ∀ p r, (0 ≤ p < np)%Z → (0 ≤ r < nr)%Z → ∃ row, index !! Z.to_nat p = Some row ∧
    row !! Z.to_nat r = Some ((λ i, i + 1)%Z <$> filter (located np nr p r) (seqZ 0 k)).

Lemma make_warehouse_index_ok np nr k :
  (0 < np)%Z → (0 < nr)%Z → (0 ≤ k)%Z → ∃ index, make_warehouse_index np nr k = Ok index ∧ index_ok np nr k index.
Proof.
  intros Hnp Hnr Hk. revert k Hk. apply natlike_ind.
  - eexists. split; [done|]. split; [by rewrite length_replicate|]. split; [apply Forall_replicate; by rewrite length_replicate|].
    intros p r Hp Hr. eexists. rewrite lookup_replicate_2 by lia. split; [done|]. by rewrite lookup_replicate_2 by lia.
  - intros k Hk (index & E & Hl & Hrows & Hi). unfold make_warehouse_index in *. unfold Z.succ. rewrite seqZ_app by lia.
    rewrite rfoldl_app, E. cbn [mbind result_bind]. change (seqZ (0 + k) 1) with [(0 + k)%Z]. rewrite Z.add_0_l. cbn [rfoldl].
    unfold add_warehouse. rewrite decide_False by lia. eexists. split; [reflexivity|]. split; [by rewrite length_alter|].
    split; [apply Forall_alter; [done|]; intros row _ Hrow; by rewrite length_alter|].
    intros p r Hp Hr. destruct (Hi p r Hp Hr) as (row & Hrow & Hcell). rewrite seqZ_app by lia.
    change (seqZ (0 + k) 1) with [(0 + k)%Z]. rewrite Z.add_0_l, filter_app, fmap_app.
    pose proof (Z.mod_pos_bound k np Hnp). pose proof (Z.mod_pos_bound (k `div` np) nr Hnr).
    destruct (decide (k `mod` np = p)%Z) as [<-|Hp']; [|rewrite list_lookup_alter_ne by lia; exists row; split; [done|]; rewrite filter_cons, decide_False by (by intros [? ?]); by rewrite app_nil_r].
    rewrite list_lookup_alter_eq, Hrow. eexists. split; [reflexivity|].
    destruct (decide (k `div` np `mod` nr = r)%Z) as [<-|Hr']; [|rewrite list_lookup_alter_ne by lia; rewrite filter_cons, decide_False by (by intros [? ?]); by rewrite app_nil_r].
    rewrite list_lookup_alter_eq, Hcell, filter_cons, decide_True by done. reflexivity.
Qed.

Lemma make_local_from coop bias own next local :
  make_local coop bias own next = Ok local →
  length local = length own ∧ (∀ x, x ∈ local → x ∈ own ∨ coop = true ∧ x ∈ next) ∧ (coop = true → (0 < length own)%nat → local !! 0 = next !! 0).
Proof.
  intros H%rmap_Forall2. pose proof (Forall2_length _ _ _ H) as Hlen. rewrite length_seq in Hlen. split_and!; [done| |].
  - intros x (i & Hi)%list_elem_of_lookup. destruct (Forall2_lookup_r _ _ _ _ _ H Hi) as (j & _ & Hj). unfold at_index in Hj.
    destruct coop; simpl in Hj; [destruct (bool_decide _)|]; destruct (_ !! j) eqn:E; simplify_eq; apply list_elem_of_lookup_2 in E; auto.
  - intros -> H0. destruct (lookup_lt_is_Some_2 local 0) as [x Hx]; [lia|]. destruct (Forall2_lookup_r _ _ _ _ _ H Hx) as (j & Hj%lookup_seq & Ej).
    destruct Hj as [-> _]. cbn [Nat.add] in Ej. rewrite bool_decide_true in Ej by (apply Z.div_pos; [by apply Z.mod_pos_bound|done]).
    unfold at_index in Ej. simpl in Ej. destruct (next !! 0) eqn:E; congruence.
Qed.

Lemma other_regions_ok nr region ranking :
  (0 ≤ region < nr)%Z → make_ranking nr region [] = Ok ranking →
  NoDup ranking ∧ (∀ r, r ∈ ranking → (0 ≤ r < nr)%Z) ∧ (Z.of_nat (length ranking) = nr - 1)%Z.
Proof.
  intros Hr. unfold make_ranking. destruct (decide (@nil Z = [])) as [_|]; [|done]. cbv zeta. case_decide as Hl; [|done]. intros [= <-].
  split_and!; [apply NoDup_filter, NoDup_seqZ| |done]. intros r [_ Hs%elem_of_seqZ]%list_elem_of_filter. lia.
Qed.

Lemma located_first np nr k p r : (0 ≤ p < np)%Z → (0 ≤ r < nr)%Z → (np * nr ≤ k)%Z → filter (located np nr p r) (seqZ 0 k) ≠ [].
Proof.
  intros Hp Hr Hk E. assert (Hb : (r * np ≤ (nr - 1) * np)%Z) by (apply Z.mul_le_mono_nonneg_r; lia).
  assert (H0 : (0 ≤ r * np)%Z) by (apply Z.mul_nonneg_nonneg; lia).
  assert (Hin : (p + r * np)%Z ∈ filter (located np nr p r) (seqZ 0 k)); [|rewrite E in Hin; by apply not_elem_of_nil in Hin].
  apply list_elem_of_filter. split; [|apply elem_of_seqZ; lia]. split.
  - rewrite Z.mod_add, Z.mod_small by lia. done.
  - rewrite Z.div_add, (Z.div_small p), Z.mod_small by lia. lia.
Qed.

Lemma cell_warehouses np nr k p r x :
  (0 < np)%Z → x ∈ (λ i, i + 1)%Z <$> filter (located np nr p r) (seqZ 0 k) → (1 ≤ x ≤ k)%Z ∧ warehouse_home np nr x = r.
Proof.
  intros Hnp (i & -> & [[_ H2] Hi%elem_of_seqZ]%list_elem_of_filter)%list_elem_of_fmap. split; [lia|].
  unfold warehouse_home. by rewrite Z.add_simpl_r.
Qed.

Lemma MakeTPCCIdGenerator_ok W init step g :
  MakeTPCCIdGenerator W init step = Ok g → (0 ≤ init)%Z → (W < 2 ^ 31)%Z → ids_ok (kOrdPerDist + init) g ∧ length (ids_ g) = Z.to_nat W.
Proof.
  unfold MakeTPCCIdGenerator, MakeTPCCIds. intros E Hi HW. case_decide; [done|]. case_decide as H0.
  - subst W. injection E as <-. split; [|done]. split; simpl; try done. unfold kOrdPerDist. lia.
  - destruct (signed32 (kOrdPerDist + init)) as [o|] eqn:Eo; [|done]. cbn [mbind result_bind] in E.
    destruct (signed32 (init + 1)) as [h|] eqn:Eh; [|done]. cbn [mbind result_bind] in E. injection E as <-.
    unfold signed32 in Eo, Eh. repeat case_decide; simplify_eq.
    split; [|simpl; by rewrite length_replicate]. split; cbn [ids_ max_o_id_].
    + rewrite length_replicate. lia.
    + apply Forall_replicate. reflexivity.
    + apply Forall_replicate, (Forall_replicate _ 10). simpl. unfold kOrdPerDist. lia.
    + unfold kOrdPerDist. lia.
Qed.

(** The workload that the constructor makes of its parameters. *)
Record tpcc_setup (c : Configuration) (region W : Z) (params : RawParamMap) : Prop := {
  ts_partitioning : cp_partitioning (config_ c) = kTpccPartitioning W;
  ts_ranking : distance_ranking_from c region = Ok [];
  ts_np : (0 < num_partitions c < 2 ^ 31)%Z;
  ts_nr : (0 < num_replicas c < 2 ^ 31)%Z;
  ts_warehouses : (num_partitions c * num_replicas c ≤ W < 2 ^ 31)%Z;
  ts_region : (0 ≤ region < num_replicas c)%Z;
  ts_partition : ∃ p, GetInt32 params "sp_partition" = Ok p ∧ (p < num_partitions c)%Z;
  ts_homes : (∃ s, GetInt32 params "sh_only" = Ok s) ∧ ∃ h, GetUInt32 params "homes" = Ok h;
  ts_overlap : ∃ r, GetInt32 params "overlap_ratio" = Ok r ∧ ((r < 1)%Z ∨ (2 ≤ num_replicas c)%Z)
}.

Lemma make_common_ok np nr k region index index0 :
  index_ok np nr k index → (0 < np)%Z → (np * nr ≤ k)%Z → (0 ≤ region < nr)%Z → (2 ≤ nr)%Z → index !! 0 = Some index0 →
  ∃ l, make_common nr region index0 = Ok l ∧ l ≠ [].
Proof.
  intros (_ & _ & Hi) Hnp Hk Hr H2 H0. unfold make_common.
  set (f := λ i, if decide (i = region) then [] else (λ i, i + 1)%Z <$> filter (located np nr 0 i) (seqZ 0 k)).
  assert (Hcell : ∀ r, (0 ≤ r < nr)%Z → at_index index0 (Z.to_nat r) = Ok ((λ i, i + 1)%Z <$> filter (located np nr 0 r) (seqZ 0 k))).
  { intros r Hr'. destruct (Hi 0 r ltac:(lia) Hr')%Z as (row & Hrow & Hcell). change (Z.to_nat 0) with 0 in Hrow. rewrite H0 in Hrow. injection Hrow as <-. by apply at_index_Some. }
  rewrite (rmap_ok _ f).
  - eexists. split; [reflexivity|]. set (r := if decide (region = 0)%Z then 1%Z else 0%Z).
    assert (Hr' : (0 ≤ r < nr)%Z ∧ r ≠ region) by (unfold r; case_decide; lia). destruct Hr' as [Hr' Hne].
    pose proof (located_first np nr k 0 r ltac:(lia) Hr' Hk) as Hf.
    assert (Hin : f r ∈ f <$> seqZ 0 nr) by (apply list_elem_of_fmap_2, elem_of_seqZ; lia).
    apply list_elem_of_split in Hin as (l1 & l2 & ->). unfold f. rewrite decide_False by done.
    rewrite concat_app. intros [_ E]%app_eq_nil. simpl in E. apply app_eq_nil in E as [E%fmap_nil_inv _]. done.
  - intros r Hin%elem_of_seqZ. unfold f. case_decide; [done|]. apply Hcell. lia.
Qed.

(** The warehouses that the constructor lets the workload select from: those of the local
    region, and with cooperating access the first one, whatever the bias, of the next region. *)
Lemma selectable_ok np nr k region index index0 coop bias own next local :
  index_ok np nr k index → (0 < np)%Z → (np * nr ≤ k)%Z → (0 ≤ region < nr)%Z → index !! 0 = Some index0 →
  at_index index0 (Z.to_nat region) = Ok own →
  (if coop : bool then at_index index0 (Z.to_nat ((region + 1) `mod` nr)) else Ok []) = Ok next →
  make_local coop bias own next = Ok local →
  local ≠ [] ∧ (∀ x, x ∈ local → (1 ≤ x ≤ k)%Z) ∧
  (coop = false → ∀ x, x ∈ local → warehouse_home np nr x = region) ∧
  (coop = true → ∃ x, x ∈ local ∧ warehouse_home np nr x = ((region + 1) `mod` nr)%Z).
Proof.
  intros (_ & _ & Hi) Hnp Hk Hreg H0 Eown En El. destruct (make_local_from _ _ _ _ _ El) as (Hll & Hlf & Hlc).
  assert (Hcells : ∀ r l, (0 ≤ r < nr)%Z → at_index index0 (Z.to_nat r) = Ok l → l = (λ i, i + 1)%Z <$> filter (located np nr 0 r) (seqZ 0 k)).
  { intros r l Hr El'. destruct (Hi 0%Z r ltac:(lia) Hr) as (row & Hrow & Hcell). change (Z.to_nat 0) with 0 in Hrow. rewrite H0 in Hrow. injection Hrow as <-.
    rewrite (at_index_Some _ _ _ Hcell) in El'. by injection El'. }
  pose proof (Z.mod_pos_bound (region + 1) nr ltac:(lia)) as Hnx.
  assert (Hown : ∀ x, x ∈ own → (1 ≤ x ≤ k)%Z ∧ warehouse_home np nr x = region).
  { rewrite (Hcells _ _ Hreg Eown). intros x Hx. by apply (cell_warehouses np nr k 0). }
  assert (Hnext : coop = true → ∀ x, x ∈ next → (1 ≤ x ≤ k)%Z ∧ warehouse_home np nr x = ((region + 1) `mod` nr)%Z).
  { intros -> x. rewrite (Hcells _ _ Hnx En). intros Hx. by apply (cell_warehouses np nr k 0). }
  assert (Hne : length own ≠ 0).
  { rewrite (Hcells _ _ Hreg Eown), length_fmap. intros E%nil_length_inv. by apply (located_first np nr k 0 region ltac:(lia) Hreg ltac:(lia)). }
  split_and!.
  - intros ->. simpl in Hll. lia.
  - intros x Hx. destruct (Hlf x Hx) as [Ho|[Hc Ho]]; [by apply Hown|by apply Hnext].
  - intros -> x Hx. destruct (Hlf x Hx) as [Ho|[? _]]; [by apply Hown|done].
  - intros Hc. destruct (lookup_lt_is_Some_2 local 0) as [x Hx]; [lia|]. exists x. split; [by eapply list_elem_of_lookup_2|].
    rewrite (Hlc Hc) in Hx by lia. apply Hnext; [done|]. by eapply list_elem_of_lookup_2.
Qed.

Lemma MakeTPCCWorkload_ok c region params_str slot w W :
  MakeTPCCWorkload c region params_str slot = Ok w → tpcc_setup c region W (tw_params w) → (0 ≤ slot.1)%Z →
  Forall (λ x, 0 ≤ x)%Z (txn_mix_ w) → Exists (λ x, 0 < x)%Z (txn_mix_ w) →
  tpcc_ok (kOrdPerDist + slot.1) w ∧
  (GetBool (tw_params w) "access_coop" = Ok false → selects_local w) ∧
  (GetBool (tw_params w) "access_coop" = Ok true → ∃ x, x ∈ local_selectale_warehouse w ∧
    warehouse_home (num_partitions c) (num_replicas c) x = ((region + 1) `mod` num_replicas c)%Z).
Proof.
  unfold MakeTPCCWorkload. intros H Hset Hslot Hm1 Hm2. destruct (MakeWorkloadParams _ _) as [ps|]; [|done]. cbn [mbind result_bind] in H.
  destruct (distance_ranking_from c region) as [rk0|] eqn:Erk0; [|done]. cbn [mbind result_bind] in H.
  destruct (GetInt32 ps "mh_zipf"); [|done]. cbn [mbind result_bind] in H.
  pose proof (ts_partitioning _ _ _ _ Hset) as EW. rewrite EW in H. cbn [mbind result_bind] in H.
  destruct (make_ranking _ _ _) as [rk|] eqn:Erk; [|done]. cbn [mbind result_bind] in H.
  destruct (make_warehouse_index _ _ _) as [index|] eqn:Ei; [|done]. cbn [mbind result_bind] in H.
  destruct (MakeTPCCIdGenerator _ _ _) as [g|] eqn:Eg; [|done]. cbn [mbind result_bind] in H.
  destruct (GetString ps "mix"); [|done]. cbn [mbind result_bind] in H. destruct (decide (length _ ≠ 5)) as [|Hmix]; [done|].
  destruct (rmap stoi _) as [mix|] eqn:Emix; [|done]. cbn [mbind result_bind] in H.
  destruct (GetInt32 ps "overlap_ratio") as [ov|] eqn:Eov; [|done]. cbn [mbind result_bind] in H.
  destruct (GetBool ps "access_coop") as [coop|] eqn:Ec; [|done]. cbn [mbind result_bind] in H.
  destruct (GetInt32 ps "bias") as [bias|]; [|done]. cbn [mbind result_bind] in H.
  destruct (at_index index 0) as [index0|] eqn:E0; [|done]. cbn [mbind result_bind] in H.
  destruct (at_index index0 (Z.to_nat region)) as [own|] eqn:Eown; [|done]. cbn [mbind result_bind] in H.
  destruct (if coop then _ else _) as [next|] eqn:En; [|done]. cbn [mbind result_bind] in H.
  destruct (make_local _ _ _ _) as [local|] eqn:El; [|done]. cbn [mbind result_bind] in H.
  destruct (make_common _ _ _) as [common|] eqn:Ecm; [|done]. cbn [mbind result_bind] in H. injection H as <-.
  destruct Hset as [HW Hrk Hnp Hnr Hwh Hreg Hpart Hhomes Hover]. cbn [tw_params txn_mix_] in *.
  rewrite Hrk in Erk0. injection Erk0 as <-.
  destruct (make_warehouse_index_ok (num_partitions c) (num_replicas c) W) as (index' & Ei' & Hidx); [lia..|].
  rewrite Ei in Ei'. injection Ei' as <-. destruct (MakeTPCCIdGenerator_ok _ _ _ _ Eg Hslot) as [Hids Hlen]; [lia|].
  destruct (other_regions_ok _ _ _ Hreg Erk) as (Hrk1 & Hrk2 & Hrk3).
  unfold at_index in E0. destruct (index !! 0) as [index0'|] eqn:E0'; [|done]. injection E0 as ->. pose proof Hidx as (_ & _ & Hi).
  assert (Hknown : ∀ p r x, x ∈ (λ i, i + 1)%Z <$> filter (located (num_partitions c) (num_replicas c) p r) (seqZ 0 W) → known g x).
  { intros p r x Hx. apply cell_warehouses in Hx as [Hx _]; [|lia]. unfold known. rewrite Hlen. lia. }
  rewrite u32_small in En by lia. destruct (selectable_ok _ _ _ _ _ _ _ _ _ _ _ Hidx ltac:(lia) ltac:(lia) Hreg E0' Eown En El) as (Hne & Hin & Hoff & Hon).
  split; [|split; cbn [tw_params]; rewrite Ec; intros [= ->]; [exact (Hoff eq_refl)|exact (Hon eq_refl)]].
  split; unfold tw_np, tw_nr; cbn; try done; try lia.
  - intros p r Hp Hr. destruct (Hi p r Hp Hr) as (row & Hrow & Hcell). eexists. unfold warehouses_at. rewrite decide_False by lia. cbn [warehouse_index_].
    rewrite (at_index_Some _ _ _ Hrow). cbn [mbind result_bind]. rewrite (at_index_Some _ _ _ Hcell). split; [done|]. split; [|by apply Hknown].
    intros E%fmap_nil_inv. by apply (located_first (num_partitions c) (num_replicas c) W p r Hp Hr ltac:(lia)).
  - split; [exact Hne|]. intros x Hx%Hin. unfold known. cbn. rewrite Hlen. lia.
  - split; [done|]. destruct Hover as (r & Hr & Hov). exists r. split; [done|]. destruct Hov as [|H2]; [by left|right].
    destruct (make_common_ok _ _ _ _ _ _ Hidx ltac:(lia) ltac:(lia) Hreg H2 E0') as (l & El' & Hne'). congruence.
  - split_and!; [|done..]. apply rmap_Forall2, Forall2_length in Emix. lia.
Qed.

(** ** Witnesses *)

Definition example_tpcc_config : Configuration :=
  {| config_ := {| cp_protocol := "tcp"; cp_replicas := cp_replicas example_proto; cp_broker_ports := [2021%Z];
       cp_server_port := 2023; cp_forwarder_port := 2024; cp_sequencer_port := 2025; cp_num_partitions := 2;
       cp_partitioning := kTpccPartitioning 8; cp_num_workers := 1; cp_mh_orderer_batch_duration := 1;
       cp_forwarder_batch_duration := 1; cp_sequencer_batch_duration := 1; cp_sequencer_batch_size := 0;
       cp_sequencer_rrr := false; cp_replication_factor := 1; cp_replication_order := []; cp_delay_pct := 0;
       cp_delay_amount_ms := 0; cp_enabled_events := []; cp_bypass_mh_orderer := false; cp_cpu_pinnings := [];
       cp_return_dummy_txn := false; cp_recv_retries := 0; cp_execution_type := TPC_C;
       cp_synchronized_batching := false; cp_sample_rate := 100; cp_broker_rcvbuf := 0; cp_long_sender_sndbuf := 0 |};
     local_address_ := "b0"; local_replica_ := 1; local_partition_ := 0;
     all_addresses_ := ["a0"; "a1"; "b0"; "b1"]; replication_order_ := [] |}.

Definition example_tpcc_workload : result TPCCWorkload :=
  MakeTPCCWorkload example_tpcc_config 1 "overlap_ratio=10;sp_partition=0" (1, 2)%Z.

Lemma example_tpcc_ok : ∃ w, example_tpcc_workload = Ok w ∧ tpcc_ok (kOrdPerDist + 1) w ∧ selects_local w.
Proof.
  destruct example_tpcc_workload as [w|] eqn:E; [|by vm_compute in E]. exists w. split; [done|].
  assert (Hp : tw_params w = (<["overlap_ratio" := "10"]> (<["sp_partition" := "0"]> tpcc_default_params))%string ∧ txn_mix_ w = [45; 43; 4; 4; 4]%Z).
  { unfold example_tpcc_workload in E. vm_compute in E. injection E as <-. split; vm_compute; reflexivity. }
  destruct Hp as [Hp Hm]. destruct (MakeTPCCWorkload_ok example_tpcc_config 1 "overlap_ratio=10;sp_partition=0" (1, 2)%Z w 8) as (Hok & Hloc & _);
    [exact E| |done|rewrite Hm; by repeat constructor|rewrite Hm; by constructor|split; [exact Hok|apply Hloc; rewrite Hp; vm_compute; reflexivity]].
  rewrite Hp. clear E Hp Hm. split; [reflexivity|vm_compute; reflexivity|split; done..| | |].
  - exists 0%Z. vm_compute. done.
  - split; [exists 0%Z|exists 2%Z]; vm_compute; done.
  - exists 10%Z. split; [vm_compute; done|]. right. done.
Qed.

Lemma tpcc_workload_generates_witness :
  ∃ w, example_tpcc_workload = Ok w ∧
  ∃ fuel t pro w' g, tpcc_NextTransaction fuel map_to_list 7 w {| draws := square_gaps; drawn := 0 |} = Ok ((t, pro, w'), g) ∧
    id (internal t) = tw_client_txn_id_counter w ∧
    (is_multi_home pro = false →
      Forall (λ kv, tpcc_Compute (tw_nr w) (tw_np w) (key kv) = Ok (NewMetadata (tw_local_region w))) (keys t)).
Proof.
  destruct example_tpcc_ok as (w & E & Hok & Hloc). exists w. split; [exact E|].
  destruct (tpcc_workload_generates map_to_list 7 w _ (λ m, Permutation_refl _) ltac:(unfold long_range; lia) Hok ltac:(unfold kOrdPerDist; lia)
    {| draws := square_gaps; drawn := 0 |} square_gaps_fair) as (n & [[t pro] w'] & g & H1 & _ & _ & _ & H3 & H2 & _).
  exists n, t, pro, w', g. split; [exact (H1 n (le_n n))|]. split; [exact H2|exact (H3 Hloc)].
Defined.

(** The default value of the overlap ratio is no number, so the default parameters are not
    enough for the constructor. *)
Lemma tpcc_default_overlap c region slot w : MakeTPCCWorkload c region EmptyString slot ≠ Ok w.
Proof.
  unfold MakeTPCCWorkload. assert (E : MakeWorkloadParams tpcc_default_params EmptyString = Ok tpcc_default_params) by (vm_compute; reflexivity).
  rewrite E. cbn [mbind result_bind]. assert (E' : GetInt32 tpcc_default_params "overlap_ratio" = Err (Exn "std::invalid_argument: stoi")) by (vm_compute; reflexivity).
  rewrite E'. destruct (distance_ranking_from _ _); [|done]. destruct (GetInt32 tpcc_default_params "mh_zipf"); [|done]. cbn [mbind result_bind].
  destruct (cp_partitioning _); try done. cbn [mbind result_bind]. destruct (make_ranking _ _ _); [|done]. destruct (make_warehouse_index _ _ _); [|done].
  cbn [mbind result_bind]. destruct (MakeTPCCIdGenerator _ _ _); [|done]. destruct (GetString _ _); [|done]. cbn [mbind result_bind].
  destruct (decide _); [done|]. by destruct (rmap stoi _).
Qed.

(** The generators of a benchmark start one after the other and do not step over each other:
    the second order of the first one has the id of the first order of the second one. *)
Lemma order_ids_collide :
  ∃ g1 g2 g1' g1'' g2' i j,
    MakeTPCCIdGenerator 1 1 2 = Ok g1 ∧ MakeTPCCIdGenerator 1 2 2 = Ok g2 ∧
    NextOId 1 1 g1 = Ok (i, g1') ∧ NextOId 1 1 g1' = Ok (j, g1'') ∧ NextOId 1 1 g2 = Ok (j, g2').
Proof. eexists _, _, _, _, _, _, _. split_and!; [vm_compute; reflexivity..|]. vm_compute. reflexivity. Qed.
