(* ===== verification/TxnGen.v ===== *)
(** * The benchmark's clients

    [module/txn_generator.cpp]: the generators of transactions, synchronous clients and clients at
    a constant rate, and the division of the work among them and the summary of the results in
    [service/benchmark.cpp]. A workload is a class; clocks, what the poll returns and the responses
    are inputs of each loop. *)
From S2P Require Import Prelude Types StringUtils Config Random Workload Network.

(** What a generator needs of a workload: another transaction. *)
Class TxnWorkload (W : Type) := NextTransaction : M W (Transaction * TransactionProfile).

(** ** What is known of a transaction *)

Record TxnInfo := {
  ti_txn : option Transaction;
  ti_profile : TransactionProfile;
  sent_at : Z;
  recv_at : Z;
  finished : bool;
  ti_generator_id : option Z
}.

(** A dummy response only has the status and the internal data. *)
Definition RecordFinishedTxn (info : TxnInfo) (generator_id : Z) (txn : Transaction) (is_dummy : bool) (now : Z) : TxnInfo * bool :=
  if finished info then (info, false)
  else ({| ti_txn := if is_dummy then (λ t, set_internal (λ _, internal txn) (set_status (status txn) t)) <$> ti_txn info else Some txn;
           ti_profile := ti_profile info; sent_at := sent_at info; recv_at := now; finished := true;
           ti_generator_id := Some generator_id |}, true).

(** ** The options of a generator *)

Record GeneratorOptions := {
  num_txns_ : Z;
  num_clients_ : Z;
  startup_spacing_ : Z;
  interval_ : Z;
  duration_ : Z;
  dry_run_ : bool;
  return_dummy_txn_ : bool
}.

Definition MakeSynchronous (num_txns num_clients duration_s startup_spacing_us : Z) (dry_run return_dummy : bool) : result GeneratorOptions :=
  if decide (0 < duration_s)%Z then
    Ok {| num_txns_ := num_txns; num_clients_ := num_clients; startup_spacing_ := startup_spacing_us; interval_ := 0;
          duration_ := duration_s * 1000; dry_run_ := dry_run; return_dummy_txn_ := return_dummy |}
  else Err (Fatal "Duration must be set for synchronous txn generator").

Definition MakeConstantRate (num_txns tps duration_s : Z) (dry_run return_dummy : bool) : result GeneratorOptions :=
  if decide (tps < 1000000)%Z then
    if decide (tps = 0)%Z then Err (Undef "division by zero")
    else
      let overhead_estimate := if dry_run then 0%Z else 10%Z in
      let interval := (1000000 `quot` tps)%Z in
      Ok {| num_txns_ := num_txns; num_clients_ := 0; startup_spacing_ := 0;
            interval_ := if decide (overhead_estimate < interval)%Z then (interval - overhead_estimate)%Z else 0%Z;
            duration_ := duration_s * 1000; dry_run_ := dry_run; return_dummy_txn_ := return_dummy |}
  else Err (Fatal "Transaction/sec is too high (max. 1000000)").

(** The timeout of the poller, [kModuleTimeout], in microseconds. *)
Definition kModuleTimeout : Z := 1000000.

(** What one round of the loop sees: the clock when it begins, before and after the poll, when
    a callback is added and when it ends, the system's clock, the result of the poll, and the
    response that is read. *)
Record round_input := {
  at_begin : Z;
  poll_begin : Z;
  poll_end : Z;
  at_callback : Z;
  at_end : Z;
  wall : Z;
  poll_rc : Z → Z;
  response : option (nat * Transaction)
}.

(** The endpoints of a region's servers, one for each partition. *)
Definition ConnectToServer (c : Configuration) (region : Z) : result (list string) :=
  rmap (λ p,
    if decide (cp_protocol (config_ c) = "ipc"%string) then Ok ("tcp://localhost:" +:+ to_string (cp_server_port (config_ c)))
    else match address c region p with
         | Some addr => Ok ("tcp://" +:+ addr +:+ ":" +:+ to_string (cp_server_port (config_ c)))
         | None => Err (Undef "replicas(region).addresses(p)")
         end) (seqZ 0 (num_partitions c)).

Section generator.
  Context {W : Type} `{!TxnWorkload W}.

(** [requests]: what was sent, with its stream id. *)
Record TxnGenerator := {
  id_ : Z;
  workload_ : W;
  num_sent_txns_ : nat;
  num_recv_txns_ : nat;
  start_time_ : Z;
  elapsed_time_ : Z;
  timer_running_ : bool;
  generated_txns_ : list (Transaction * TransactionProfile);
  txns_ : list TxnInfo;
  timed_callbacks_ : list (TimedCallback (CB := unit));
  requests : list (nat * Transaction)
}.

Definition MakeTxnGenerator (generator_id : Z) (w : W) : TxnGenerator :=
  {| id_ := generator_id; workload_ := w; num_sent_txns_ := 0; num_recv_txns_ := 0; start_time_ := 0; elapsed_time_ := 0;
     timer_running_ := false; generated_txns_ := []; txns_ := []; timed_callbacks_ := []; requests := [] |}.

(** ** The timer *)

Definition elapsed_time (now : Z) (g : TxnGenerator) : Z :=
  if timer_running_ g then now - start_time_ g else elapsed_time_ g.

Definition set_timer (running : bool) (start elapsed : Z) (g : TxnGenerator) : TxnGenerator :=
  {| id_ := id_ g; workload_ := workload_ g; num_sent_txns_ := num_sent_txns_ g; num_recv_txns_ := num_recv_txns_ g;
     start_time_ := start; elapsed_time_ := elapsed; timer_running_ := running; generated_txns_ := generated_txns_ g;
     txns_ := txns_ g; timed_callbacks_ := timed_callbacks_ g; requests := requests g |}.

Definition StartTimer (now : Z) (g : TxnGenerator) : TxnGenerator := set_timer true now (elapsed_time_ g) g.
Definition StopTimer (now : Z) (g : TxnGenerator) : TxnGenerator := set_timer false (start_time_ g) (now - start_time_ g) g.

(** Durations are in milliseconds, the clock in nanoseconds. *)
Definition duration_reached (o : GeneratorOptions) (now : Z) (g : TxnGenerator) : bool :=
  bool_decide (duration_ o * 1000000 ≤ elapsed_time now g)%Z.

(** ** Sending *)

Definition set_callbacks (cbs : list (TimedCallback (CB := unit))) (g : TxnGenerator) : TxnGenerator :=
  {| id_ := id_ g; workload_ := workload_ g; num_sent_txns_ := num_sent_txns_ g; num_recv_txns_ := num_recv_txns_ g;
     start_time_ := start_time_ g; elapsed_time_ := elapsed_time_ g; timer_running_ := timer_running_ g;
     generated_txns_ := generated_txns_ g; txns_ := txns_ g; timed_callbacks_ := cbs; requests := requests g |}.

Definition new_info (txn : Transaction) (profile : TransactionProfile) (now : Z) : TxnInfo :=
  {| ti_txn := Some txn; ti_profile := profile; sent_at := now; recv_at := 0; finished := false; ti_generator_id := None |}.

(** A transaction is sent (or not, in a dry run) and remembered. *)
Definition push_txn (send : bool) (txn : Transaction) (profile : TransactionProfile) (now : Z) (w : W) (g : TxnGenerator) : TxnGenerator :=
  {| id_ := id_ g; workload_ := w; num_sent_txns_ := S (num_sent_txns_ g); num_recv_txns_ := num_recv_txns_ g;
     start_time_ := start_time_ g; elapsed_time_ := elapsed_time_ g; timer_running_ := timer_running_ g;
     generated_txns_ := generated_txns_ g; txns_ := txns_ g ++ [new_info txn profile now];
     timed_callbacks_ := timed_callbacks_ g;
     requests := if send then requests g ++ [(num_sent_txns_ g, txn)] else requests g |}.

Fixpoint generate_txns (n : nat) (w : W) : result (list (Transaction * TransactionProfile) * W) :=
  match n with
  | O => Ok ([], w)
  | S n => '(x, w) ← NextTransaction w; '(xs, w) ← generate_txns n w; Ok (x :: xs, w)
  end.

Definition set_generated (xs : list (Transaction * TransactionProfile)) (w : W) (g : TxnGenerator) : TxnGenerator :=
  {| id_ := id_ g; workload_ := w; num_sent_txns_ := num_sent_txns_ g; num_recv_txns_ := num_recv_txns_ g;
     start_time_ := start_time_ g; elapsed_time_ := elapsed_time_ g; timer_running_ := timer_running_ g;
     generated_txns_ := generated_txns_ g ++ xs; txns_ := txns_ g; timed_callbacks_ := timed_callbacks_ g; requests := requests g |}.

(** The response to the transaction of a stream id is written down; the flag tells whether it is the first. *)
Definition record_response (o : GeneratorOptions) (now : Z) (stream_id : nat) (txn : Transaction) (info : TxnInfo) (g : TxnGenerator) :
    TxnGenerator * bool :=
  let '(info, ok) := RecordFinishedTxn info (id_ g) txn (return_dummy_txn_ o) now in
  ({| id_ := id_ g; workload_ := workload_ g; num_sent_txns_ := num_sent_txns_ g;
      num_recv_txns_ := if ok then S (num_recv_txns_ g) else num_recv_txns_ g;
      start_time_ := start_time_ g; elapsed_time_ := elapsed_time_ g; timer_running_ := timer_running_ g;
      generated_txns_ := generated_txns_ g; txns_ := <[stream_id := info]> (txns_ g); timed_callbacks_ := timed_callbacks_ g;
      requests := requests g |}, ok).

(** ** [SynchronousTxnGenerator] *)

(** [clock i]: the clock when client [i] is added. *)
Definition sync_SetUp (o : GeneratorOptions) (clock : nat → Z) (now : Z) (g : TxnGenerator) : result TxnGenerator :=
  '(xs, w) ← (if decide (num_txns_ o ≤ 0)%Z then Ok ([], workload_ g) else generate_txns (Z.to_nat (num_txns_ o)) (workload_ g));
  let g := set_generated xs w g in
  let g := if dry_run_ o then g
           else set_callbacks (foldl (λ cbs i, AddTimedCallback (clock i) (startup_spacing_ o * Z.of_nat i) () cbs)
                                 (timed_callbacks_ g) (seq 0 (Z.to_nat (num_clients_ o)))) g in
  Ok (StartTimer now g).

Definition sync_SendNextTxn (now : Z) (g : TxnGenerator) : result TxnGenerator :=
  if decide (generated_txns_ g = []) then
    '(x, w) ← NextTransaction (workload_ g); Ok (push_txn true x.1 x.2 now w g)
  else
    match generated_txns_ g !! (num_sent_txns_ g `mod` length (generated_txns_ g)) with
    | Some x => Ok (push_txn true x.1 x.2 now (workload_ g) g)
    | None => Err (Undef "generated_txns_")
    end.

Definition sync_fire (now : Z) (_ : unit) (g : result TxnGenerator) : result TxnGenerator * list (TimedCallback (CB := unit)) :=
  (g ← g; sync_SendNextTxn now g, []).

Definition sync_receive (o : GeneratorOptions) (i : round_input) (reached : bool) (g : TxnGenerator) : result TxnGenerator :=
  match response i with
  | None => Ok g
  | Some (stream_id, txn) =>
    match txns_ g !! stream_id with
    | None => Err (Undef "txns_[res.stream_id()]")
    | Some info =>
      let '(g, ok) := record_response o (wall i) stream_id txn info g in
      if ok && negb reached then sync_SendNextTxn (wall i) g else Ok g
    end
  end.

(** Callbacks add none, so that their number is enough fuel. *)
Definition sync_Loop (o : GeneratorOptions) (i : round_input) (g : TxnGenerator) : result (bool * TxnGenerator) :=
  if dry_run_ o then Ok (true, g)
  else
    let reached := duration_reached o (at_begin i) g in
    '(may_have_msg, cbs, r) ← NextEvent (sync_fire (wall i)) (length (timed_callbacks_ g)) (Some kModuleTimeout)
      (poll_begin i) (poll_end i) (poll_rc i) false (timed_callbacks_ g) (Ok g);
    g ← r;
    let g := set_callbacks cbs g in
    g ← (if may_have_msg : bool then sync_receive o i reached g else Ok g);
    if reached && bool_decide (num_recv_txns_ g = length (txns_ g)) then Ok (true, StopTimer (at_end i) g) else Ok (false, g).

(** ** [ConstantRateTxnGenerator] *)

Definition const_SetUp (o : GeneratorOptions) (now : Z) (g : TxnGenerator) : result TxnGenerator :=
  if decide (0 < num_txns_ o)%Z then
    '(xs, w) ← generate_txns (Z.to_nat (num_txns_ o)) (workload_ g);
    let g := set_generated xs w g in
    Ok (set_callbacks (AddTimedCallback now (interval_ o) () (timed_callbacks_ g)) g)
  else Err (Fatal "There must be at least one transaction").

(** The state after it, and the callback that it adds. *)
Definition const_SendNextTxn (o : GeneratorOptions) (i : round_input) (g : TxnGenerator) :
    result (TxnGenerator * list (TimedCallback (CB := unit))) :=
  if (if decide (0 < duration_ o)%Z then duration_reached o (at_callback i) g
      else bool_decide (length (generated_txns_ g) ≤ num_sent_txns_ g))
  then Ok (g, [])
  else
    match generated_txns_ g !! (num_sent_txns_ g `mod` length (generated_txns_ g)) with
    | Some x => Ok (push_txn (negb (dry_run_ o)) x.1 x.2 (wall i) (workload_ g) g, AddTimedCallback (at_callback i) (interval_ o) () [])
    | None => Err (Undef "generated_txns_")
    end.

Definition const_fire (o : GeneratorOptions) (i : round_input) (_ : unit) (g : result TxnGenerator) :
    result TxnGenerator * list (TimedCallback (CB := unit)) :=
  match g with
  | Ok g => match const_SendNextTxn o i g with Ok (g, cbs) => (Ok g, cbs) | Err f => (Err f, []) end
  | Err f => (Err f, [])
  end.

Definition const_receive (o : GeneratorOptions) (i : round_input) (g : TxnGenerator) : result TxnGenerator :=
  match response i with
  | None => Ok g
  | Some (stream_id, txn) =>
    match txns_ g !! stream_id with
    | None => Err (Fatal "Check failed: res.stream_id() < txns_.size()")
    | Some info =>
      let g := if timer_running_ g then g else StartTimer (at_callback i) g in
      Ok (record_response o (wall i) stream_id txn info g).1
    end
  end.

Definition const_stops (o : GeneratorOptions) (now : Z) (g : TxnGenerator) : bool :=
  if decide (0 < duration_ o)%Z then
    duration_reached o now g && (dry_run_ o || bool_decide (num_recv_txns_ g = num_sent_txns_ g))
  else bool_decide (length (generated_txns_ g) ≤ num_sent_txns_ g) && (dry_run_ o || bool_decide (length (txns_ g) ≤ num_recv_txns_ g)).

Definition const_Loop (fuel : nat) (o : GeneratorOptions) (i : round_input) (g : TxnGenerator) : result (bool * TxnGenerator) :=
  '(may_have_msg, cbs, r) ← NextEvent (const_fire o i) fuel (Some kModuleTimeout)
    (poll_begin i) (poll_end i) (poll_rc i) false (timed_callbacks_ g) (Ok g);
  g ← r;
  let g := set_callbacks cbs g in
  g ← (if may_have_msg : bool then const_receive o i g else Ok g);
  if const_stops o (at_end i) g then Ok (true, StopTimer (at_end i) g) else Ok (false, g).
End generator.

#[global] Arguments TxnGenerator W : clear implicits.

(** ** The benchmark: who gets what *)

(** The number of transactions and of clients, or the rate, of each generator. *)
Definition txns_of (txns generators i : Z) : Z :=
  if decide (i < generators - 1)%Z then txns `div` generators else txns - (generators - 1) * (txns `div` generators).

Definition share_of (total generators i : Z) : Z :=
  total `quot` generators + (if decide (i < total `rem` generators)%Z then 1 else 0).

(** Whether each generator is at a constant rate, its workload's seed and its options. *)
Definition InitializeGenerators (generators txns rate clients duration startup_spacing seed : Z) (dry_run return_dummy : bool) :
    result (list (Z * bool * GeneratorOptions)) :=
  let generators := (generators `max` 1)%Z in
  rmap (λ i,
    o ← (if decide (0 < rate)%Z
         then MakeConstantRate (txns_of txns generators i) (share_of rate generators i) duration dry_run return_dummy
         else MakeSynchronous (txns_of txns generators i) (share_of clients generators i) duration
                (generators * startup_spacing) dry_run return_dummy);
    Ok (u32 (seed + i), bool_decide (0 < rate)%Z, o)) (seqZ 0 generators).

(** ** The benchmark: the summary *)

Record GeneratorSummary := {
  committed : Z; aborted : Z; not_started : Z; single_home : Z; multi_home : Z;
  single_partition : Z; multi_partition : Z; remaster : Z
}.

Definition empty_summary : GeneratorSummary :=
  {| committed := 0; aborted := 0; not_started := 0; single_home := 0; multi_home := 0;
     single_partition := 0; multi_partition := 0; remaster := 0 |}.

Definition summary_plus (s other : GeneratorSummary) : GeneratorSummary :=
  {| committed := committed s + committed other; aborted := aborted s + aborted other;
     not_started := not_started s + not_started other; single_home := single_home s + single_home other;
     multi_home := multi_home s + multi_home other; single_partition := single_partition s + single_partition other;
     multi_partition := multi_partition s + multi_partition other; remaster := remaster s + remaster other |}.

Definition summary_of (t : Transaction) : GeneratorSummary :=
  {| committed := Z.b2z (bool_decide (status t = COMMITTED));
     aborted := Z.b2z (bool_decide (status t = ABORTED));
     not_started := Z.b2z (bool_decide (status t = NOT_STARTED));
     single_home := Z.b2z (bool_decide (txn_type (internal t) = SINGLE_HOME));
     multi_home := Z.b2z (bool_decide (txn_type (internal t) = MULTI_HOME_OR_LOCK_ONLY));
     single_partition := Z.b2z (bool_decide (length (involved_partitions (internal t)) = 1));
     multi_partition := Z.b2z (bool_decide (1 < length (involved_partitions (internal t))));
     remaster := match program t with kRemaster _ _ => 1 | _ => 0 end |}.

Definition summary_add (s : GeneratorSummary) (info : TxnInfo) : result GeneratorSummary :=
  match ti_txn info with
  | Some t => Ok (summary_plus s (summary_of t))
  | None => Err (Undef "info.txn->status()")
  end.

Definition summarize (infos : list TxnInfo) : result GeneratorSummary := rfoldl summary_add empty_summary infos.

(** ** The invariant of a generator *)
Section generator_ok.
  Context {W : Type} `{!TxnWorkload W}.

Definition answered (l : list TxnInfo) : nat := length (filter (λ info, finished info = true) l).

(** Stream ids are positions; what is not answered is what was sent; what was generated
    beforehand is sent in turn. *)
Record gen_ok (g : TxnGenerator W) : Prop := {
  go_sent : num_sent_txns_ g = length (txns_ g);
  go_recv : num_recv_txns_ g = answered (txns_ g);
  go_ids : (requests g).*1 = seq 0 (num_sent_txns_ g);
  go_some i info : txns_ g !! i = Some info → is_Some (ti_txn info);
  go_open i info t : txns_ g !! i = Some info → finished info = false → ti_txn info = Some t → requests g !! i = Some (i, t);
  go_cycle i t : generated_txns_ g ≠ [] → requests g !! i = Some (i, t) →
    ∃ p, generated_txns_ g !! (i `mod` length (generated_txns_ g)) = Some (t, p)
}.

Lemma answered_app l1 l2 : answered (l1 ++ l2) = answered l1 + answered l2.
Proof. unfold answered. by rewrite filter_app, length_app. Qed.

Lemma answered_cons info l : answered (info :: l) = (if finished info then 1 else 0) + answered l.
Proof. unfold answered. rewrite filter_cons. destruct (decide (finished info = true)) as [->|Hf]; [done|]. by destruct (finished info). Qed.

Lemma answered_bound l : answered l ≤ length l.
Proof. apply length_filter. Qed.

Lemma answered_insert l i info info' :
  l !! i = Some info → answered (<[i := info']> l) + (if finished info then 1 else 0) = answered l + (if finished info' then 1 else 0).
Proof.
  intros Hi. rewrite insert_take_drop by (by apply lookup_lt_Some in Hi).
  rewrite <-(take_drop_middle l i info Hi) at 3. rewrite !answered_app, !answered_cons. lia.
Qed.

Lemma answered_all l : answered l = length l → Forall (λ info, finished info = true) l.
Proof.
  induction l as [|info l IH]; [constructor|]. rewrite answered_cons. simpl. pose proof (answered_bound l).
  destruct (finished info) eqn:E; intros; [|lia]. constructor; [done|]. apply IH. lia.
Qed.

Lemma answered_full l : Forall (λ info, finished info = true) l → answered l = length l.
Proof. induction 1 as [|info l Hf _ IH]; [done|]. rewrite answered_cons, Hf, IH. done. Qed.

Lemma push_ok txn profile now w g :
  gen_ok g → (generated_txns_ g ≠ [] → generated_txns_ g !! (num_sent_txns_ g `mod` length (generated_txns_ g)) = Some (txn, profile)) →
  gen_ok (push_txn true txn profile now w g).
Proof.
  intros [Hs Hr Hids Hsome Hopen Hcyc] Hgen.
  assert (Hlen : length (requests g) = length (txns_ g)) by (by rewrite <-(length_fmap fst), Hids, length_seq).
  constructor; simpl.
  - rewrite length_app, Hs. simpl. lia.
  - rewrite answered_app, answered_cons, Hr. simpl. unfold answered. simpl. lia.
  - rewrite fmap_app, Hids. by rewrite <-seq_S.
  - intros i info [?|[_ [_ <-]%list_lookup_singleton_Some]]%lookup_app_Some; eauto.
  - intros i info t [Hi|[Hle [Hi <-]%list_lookup_singleton_Some]]%lookup_app_Some; simpl.
    + intros. rewrite lookup_app_l; [by eapply Hopen|]. rewrite Hlen. by eapply lookup_lt_Some.
    + intros _ [= <-]. rewrite lookup_app_r by lia. assert (i = num_sent_txns_ g) as -> by lia. by rewrite Hlen, Hs, Nat.sub_diag.
  - intros i t Hne [Hi|[Hle [Hi [= <- <-]]%list_lookup_singleton_Some]]%lookup_app_Some; eauto.
Qed.

Lemma record_ok o now i txn info g :
  gen_ok g → txns_ g !! i = Some info →
  let '(g', ok) := record_response o now i txn info g in
  gen_ok g' ∧ ok = negb (finished info) ∧ num_recv_txns_ g' = num_recv_txns_ g + (if ok then 1 else 0) ∧
  (∃ info', txns_ g' = <[i := info']> (txns_ g) ∧ finished info' = true ∧ (finished info = true → info' = info)).
Proof.
  intros [Hs Hr Hids Hsome Hopen Hcyc] Hi. unfold record_response, RecordFinishedTxn.
  destruct (finished info) eqn:Hf.
  - rewrite list_insert_id by done. split_and!; [by constructor|done|simpl; lia|]. exists info. by rewrite list_insert_id.
  - split_and!; [|done|simpl; lia|by eexists].
    pose proof (lookup_lt_Some _ _ _ Hi) as Hlt. constructor; simpl; [by rewrite length_insert| |done| | |done].
    + pose proof (answered_insert (txns_ g) i info) as Ha. rewrite Hf in Ha. rewrite Hr. symmetry.
      etrans; [|apply Nat.add_1_r]. rewrite <-(Nat.add_0_r (answered _)). by rewrite Ha.
    + intros j info' [[-> [<- _]]|[_ ?]]%list_lookup_insert_Some; [|eauto].
      simpl. destruct (return_dummy_txn_ o); [|done]. apply fmap_is_Some. eauto.
    + intros j info' t [[-> [<- _]]|[_ ?]]%list_lookup_insert_Some; [done|eauto].
Qed.

Lemma send_ok now g g' :
  gen_ok g → sync_SendNextTxn now g = Ok g' →
  gen_ok g' ∧ num_sent_txns_ g' = S (num_sent_txns_ g) ∧ num_recv_txns_ g' = num_recv_txns_ g ∧
  timed_callbacks_ g' = timed_callbacks_ g ∧ txns_ g `prefix_of` txns_ g'.
Proof.
  intros Hg. unfold sync_SendNextTxn. destruct (decide (generated_txns_ g = [])) as [He|Hne].
  - destruct (NextTransaction (workload_ g)) as [[x w]|]; [|done]. simpl. intros [= <-].
    split_and!; [by apply push_ok|done..|by eexists].
  - destruct (generated_txns_ g !! _) as [[t p]|] eqn:E; [|done]. intros [= <-].
    split_and!; [by apply push_ok|done..|by eexists].
Qed.

(** What is due of a list of callbacks. *)
Definition due (now : Z) (cbs : list (Z * unit)) : nat := length (filter (λ ev, ev.1 ≤ now)%Z cbs).

Lemma due_rest now cbs : due now cbs + length (filter (λ ev, now < ev.1)%Z cbs) = length cbs.
Proof.
  unfold due. induction cbs as [|ev cbs IH]; [done|]. rewrite !filter_cons.
  destruct (decide (ev.1 ≤ now)%Z), (decide (now < ev.1)%Z); cbn [length]; lia.
Qed.

Definition send_due (wall now : Z) (g : result (TxnGenerator W)) (ev : TimedCallback (CB := unit)) : result (TxnGenerator W) :=
  if decide (ev.1 ≤ now)%Z then (sync_fire wall ev.2 g).1 else g.

Lemma process_sync wall fuel now todo kept g :
  length todo ≤ fuel →
  process_callbacks (sync_fire wall) fuel now todo kept g = Ok (kept ++ filter (λ ev, now < ev.1)%Z todo, foldl (send_due wall now) g todo).
Proof.
  revert fuel kept g. induction todo as [|[at_ []] todo IH]; intros fuel kept g Hf; simpl in *.
  { destruct fuel; simpl; by rewrite app_nil_r. }
  destruct fuel as [|fuel]; [lia|]. simpl. rewrite filter_cons. unfold send_due at 2. simpl.
  destruct (decide (at_ ≤ now)%Z), (decide (now < at_)%Z); try lia.
  - rewrite app_nil_r. apply IH. lia.
  - rewrite IH by lia. by rewrite <-app_assoc.
Qed.

Lemma send_due_err wall now f cbs : foldl (send_due wall now) (Err f) cbs = Err f.
Proof. induction cbs as [|ev cbs IH]; [done|]. simpl. unfold send_due at 2. simpl. by case_decide. Qed.

Lemma send_due_ok wall now cbs g g' :
  gen_ok g → foldl (send_due wall now) (Ok g) cbs = Ok g' →
  gen_ok g' ∧ num_sent_txns_ g' = num_sent_txns_ g + due now cbs ∧ num_recv_txns_ g' = num_recv_txns_ g ∧ txns_ g `prefix_of` txns_ g'.
Proof.
  revert g. induction cbs as [|ev cbs IH]; intros g Hg; simpl.
  { intros [= <-]. split_and!; [done|unfold due; simpl; lia|done|done]. }
  unfold send_due at 2, due. rewrite filter_cons. simpl. destruct (decide (ev.1 ≤ now)%Z); [|apply IH, Hg].
  destruct (sync_SendNextTxn wall g) as [g1|] eqn:E; [|by rewrite send_due_err]. intros H.
  destruct (send_ok _ _ _ Hg E) as (Hg1 & Hs1 & Hr1 & _ & Hp1). destruct (IH g1 Hg1 H) as (? & Hs & Hr & ?).
  split_and!; [done|rewrite Hs, Hs1; unfold due; simpl; lia|lia|by etrans].
Qed.

(** ** Synchronous clients *)

Lemma sync_SetUp_ok o clock now gid w g :
  sync_SetUp o clock now (MakeTxnGenerator gid w) = Ok g →
  gen_ok g ∧ num_sent_txns_ g = 0 ∧ num_recv_txns_ g = 0 ∧
  length (timed_callbacks_ g) = if dry_run_ o then 0 else Z.to_nat (num_clients_ o).
Proof.
  unfold sync_SetUp. destruct (if decide _ then _ else _) as [[xs w']|]; [|done]. simpl. intros [= <-].
  assert (Hc : ∀ l cbs, length (foldl (λ cbs i, AddTimedCallback (clock i) (startup_spacing_ o * Z.of_nat i) () cbs) cbs l) = length cbs + length l).
  { induction l as [|i l IH]; intros cbs; simpl; [lia|]. rewrite IH. unfold AddTimedCallback. rewrite length_app. simpl. lia. }
  destruct (dry_run_ o); simpl; (split_and!; [constructor; simpl; by intros|done..|]); [done|].
  rewrite Hc, length_seq. done.
Qed.

Lemma receive_ok o i reached g g' :
  gen_ok g → sync_receive o i reached g = Ok g' →
  gen_ok g' ∧ timed_callbacks_ g' = timed_callbacks_ g ∧ num_recv_txns_ g ≤ num_recv_txns_ g' ∧
  num_sent_txns_ g' = num_sent_txns_ g + if reached then 0 else num_recv_txns_ g' - num_recv_txns_ g.
Proof.
  intros Hg. unfold sync_receive. destruct (response i) as [[sid txn]|].
  2:{ intros [= <-]. split_and!; [done..|destruct reached; lia]. }
  destruct (txns_ g !! sid) as [info|] eqn:Ei; [|done].
  pose proof (record_ok o (wall i) sid txn info g Hg Ei) as Hk.
  assert (Hcb : timed_callbacks_ (record_response o (wall i) sid txn info g).1 = timed_callbacks_ g ∧
    num_sent_txns_ (record_response o (wall i) sid txn info g).1 = num_sent_txns_ g).
  { unfold record_response. by destruct (RecordFinishedTxn _ _ _ _ _). }
  destruct (record_response _ _ _ _ _ _) as [g1 ok]. destruct Hcb as [Hcb Hs], Hk as (Hg1 & _ & Hr & _). simpl in *.
  destruct ok, reached; simpl; try (intros [= <-]; split_and!; [done..|lia|lia]).
  intros H. destruct (send_ok _ _ _ Hg1 H) as (Hg' & Hs' & Hr' & Hc' & _). split_and!; [done|by rewrite Hc'|lia|lia].
Qed.

(** A round in terms of the parts of the generator that matter. *)
Lemma sync_round o i g b g' :
  gen_ok g → dry_run_ o = false → sync_Loop o i g = Ok (b, g') →
  let reached := duration_reached o (at_begin i) g in
  gen_ok g' ∧ b = reached && bool_decide (num_recv_txns_ g' = num_sent_txns_ g') ∧
  num_recv_txns_ g ≤ num_recv_txns_ g' ∧
  num_sent_txns_ g' + length (timed_callbacks_ g') =
  num_sent_txns_ g + length (timed_callbacks_ g) + (if reached then 0 else num_recv_txns_ g' - num_recv_txns_ g).
Proof.
  intros Hg Hd H. cbv zeta. unfold sync_Loop in H. rewrite Hd in H. set (reached := duration_reached o (at_begin i) g) in *.
  unfold NextEvent in H. rewrite process_sync in H by done. cbn [mbind result_bind app] in H.
  destruct (foldl _ (Ok g) _) as [g1|] eqn:E1; [|done].
  destruct (send_due_ok _ _ _ _ _ Hg E1) as (Hg1 & Hs1 & Hr1 & _). set (cbs := filter _ (timed_callbacks_ g)) in *.
  assert (Hdue : due (poll_end i) (timed_callbacks_ g) + length cbs = length (timed_callbacks_ g)) by apply due_rest.
  clearbody cbs. cbn [mbind result_bind] in H.
  assert (Hg2 : gen_ok (set_callbacks cbs g1)) by (destruct Hg1; by constructor).
  destruct (if bool_decide _ then _ else _) as [g3|] eqn:E3; [|done].
  assert (Hrec : gen_ok g3 ∧ timed_callbacks_ g3 = cbs ∧ num_recv_txns_ g1 ≤ num_recv_txns_ g3 ∧
    num_sent_txns_ g3 = num_sent_txns_ g1 + if reached then 0 else num_recv_txns_ g3 - num_recv_txns_ g1).
  { destruct (bool_decide _) in E3; [by apply (receive_ok o i reached _ _ Hg2)|].
    injection E3 as <-. split_and!; [done..|simpl; destruct reached; lia]. }
  destruct Hrec as (Hg3 & Hc3 & Hle & Hs3). simpl in H. rewrite <-(go_sent _ Hg3) in H.
  destruct (reached && _) eqn:Eb; injection H as <- <-; simpl; rewrite ?Eb, Hc3;
    (split_and!; [by destruct Hg3; constructor|done|lia|destruct reached; lia]).
Qed.

(** The states of a generator between rounds; [late] tells whether a round began after the
    duration was over. *)
Inductive sync_reach (o : GeneratorOptions) : bool → TxnGenerator W → Prop :=
  | sync_started clock now gid w g :
      sync_SetUp o clock now (MakeTxnGenerator gid w) = Ok g → sync_reach o false g
  | sync_step late i g b g' :
      sync_reach o late g → sync_Loop o i g = Ok (b, g') → sync_reach o (late || duration_reached o (at_begin i) g) g'.

Lemma sync_reach_inv o late g :
  dry_run_ o = false → sync_reach o late g →
  gen_ok g ∧ num_sent_txns_ g + length (timed_callbacks_ g) ≤ Z.to_nat (num_clients_ o) + num_recv_txns_ g ∧
  (late = false → num_sent_txns_ g + length (timed_callbacks_ g) = Z.to_nat (num_clients_ o) + num_recv_txns_ g).
Proof.
  intros Hd. induction 1 as [clock now gid w g H|late i g b g' _ (Hg & Hle & Heq) H].
  - destruct (sync_SetUp_ok _ _ _ _ _ _ H) as (Hg & -> & -> & Hc). rewrite Hd in Hc. split_and!; [done|lia|lia].
  - destruct (sync_round _ _ _ _ _ Hg Hd H) as (Hg' & _ & Hr & Hq). split_and!; [done| |].
    + destruct (duration_reached _ _ _); lia.
    + intros [-> E]%orb_false_iff. rewrite E in Hq. specialize (Heq eq_refl). lia.
Qed.

(** C25. Each synchronous client has one transaction at a time. In every state of the
    generator the requests were numbered in order and the counters say how many were sent and
    answered; the transactions that wait for an answer are at most as many as the
    clients that have started, and exactly as many until the duration is over; an unanswered
    transaction is the one that was sent. The generator only stops after the duration, when all
    of its transactions were answered. *)
Theorem sync_closed_loop o late g :
  dry_run_ o = false → sync_reach o late g →
  let started := Z.to_nat (num_clients_ o) - length (timed_callbacks_ g) in
  let waiting := length (txns_ g) - answered (txns_ g) in
  (requests g).*1 = seq 0 (length (txns_ g)) ∧
  num_sent_txns_ g = length (txns_ g) ∧ num_recv_txns_ g = answered (txns_ g) ∧
  waiting ≤ started ∧ (late = false → waiting = started) ∧
  (∀ n info t, txns_ g !! n = Some info → finished info = false → ti_txn info = Some t → requests g !! n = Some (n, t)) ∧
  (∀ i g', sync_Loop o i g = Ok (true, g') →
    (duration_ o * 1000000 ≤ elapsed_time (at_begin i) g)%Z ∧ Forall (λ info, finished info = true) (txns_ g')).
Proof.
  intros Hd H. cbv zeta. destruct (sync_reach_inv _ _ _ Hd H) as (Hg & Hle & Heq).
  pose proof (go_sent _ Hg) as Hs. pose proof (go_recv _ Hg) as Hr. split_and!; [|done..|lia|intros; specialize (Heq ltac:(done)); lia| |].
  - by rewrite (go_ids _ Hg), Hs.
  - apply (go_open _ Hg).
  - intros i g' HL. destruct (sync_round _ _ _ _ _ Hg Hd HL) as (Hg' & Hb & _). symmetry in Hb.
    apply andb_true_iff in Hb as [Hb1 Hb2]. apply bool_decide_eq_true in Hb1, Hb2. split; [done|].
    apply answered_all. by rewrite <-(go_recv _ Hg'), Hb2, (go_sent _ Hg').
Qed.

(** When the duration is over and all clients have started, the answers to what was sent stop the generator,
    in whatever order they come, and it stops with the last of them. *)
Fixpoint sync_rounds (o : GeneratorOptions) (is_ : list round_input) (g : TxnGenerator W) : result (list bool * TxnGenerator W) :=
  match is_ with
  | [] => Ok ([], g)
  | i :: is_ => '(b, g) ← sync_Loop o i g; '(bs, g) ← sync_rounds o is_ g; Ok (b :: bs, g)
  end.

(** A round after the duration in which the poll finds the response to [n]. *)
Definition answers (o : GeneratorOptions) (g : TxnGenerator W) (i : round_input) (n : nat) : Prop :=
  duration_reached o (at_begin i) g = true ∧ (∀ z, 0 < poll_rc i z)%Z ∧ ∃ t, response i = Some (n, t).

Definition unanswered (l : list TxnInfo) (ns : list nat) : Prop :=
  NoDup ns ∧ ∀ n, n ∈ ns ↔ ∃ info, l !! n = Some info ∧ finished info = false.

Lemma unanswered_step l n ns info info' :
  unanswered l (n :: ns) → l !! n = Some info → finished info' = true → unanswered (<[n := info']> l) ns.
Proof.
  intros [[Hn Hnd]%NoDup_cons Hu] Hi Hf. split; [done|]. intros m. split.
  - intros Hm. assert (n ≠ m) by (by intros ->). rewrite list_lookup_insert_ne by done. apply Hu. by right.
  - intros (info1 & [[<- [<- _]]|[? Hm]]%list_lookup_insert_Some & Hf1); [congruence|].
    assert (m ∈ n :: ns) as [->|?]%elem_of_cons by (apply Hu; eauto); done.
Qed.

Lemma unanswered_nil l : unanswered l [] → answered l = length l.
Proof.
  intros [_ Hu]. induction l as [|info l IH]; [done|]. rewrite answered_cons. destruct (finished info) eqn:E.
  - simpl. f_equal. apply IH. intros n. split; [by intros ?%elem_of_nil|]. intros (i & ? & ?).
    exfalso. apply (elem_of_nil (S n)), Hu. by exists i.
  - exfalso. apply (elem_of_nil 0), Hu. by exists info.
Qed.

Lemma unanswered_cons l n ns : unanswered l (n :: ns) → answered l < length l.
Proof.
  intros [_ Hu]. destruct (Hu n) as [(info & Hi & Hf) _]; [by left|].
  rewrite <-(take_drop_middle l n info Hi). rewrite answered_app, answered_cons, length_app, Hf. simpl.
  pose proof (answered_bound (take n l)). pose proof (answered_bound (drop (S n) l)). lia.
Qed.

Lemma answer_round o g i n ns :
  gen_ok g → dry_run_ o = false → timed_callbacks_ g = [] → unanswered (txns_ g) (n :: ns) → answers o g i n →
  ∃ g', sync_Loop o i g = Ok (bool_decide (ns = []), g') ∧ gen_ok g' ∧ timed_callbacks_ g' = [] ∧ unanswered (txns_ g') ns ∧
    (ns ≠ [] → ∀ now, duration_reached o now g' = duration_reached o now g).
Proof.
  intros Hg Hd Hc Hu (Hreach & Hrc & t & Hresp). unfold sync_Loop, NextEvent. rewrite Hd, Hc, Hreach. cbn [process_callbacks length].
  cbn [mbind result_bind]. rewrite bool_decide_true by apply Hrc. unfold sync_receive. rewrite Hresp.
  destruct (proj1 (proj2 Hu n)) as (info & Hi & Hf); [by left|].
  assert (Hg0 : gen_ok (set_callbacks [] g)) by (by destruct Hg; constructor).
  change (txns_ (set_callbacks [] g)) with (txns_ g). rewrite Hi.
  pose proof (record_ok o (wall i) n t info _ Hg0 Hi) as Hk.
  destruct (record_response o (wall i) n t info (set_callbacks [] g)) as [g1 ok] eqn:E. destruct Hk as (Hg1 & Hok & Hr & info' & Ht & Hf' & _).
  assert (Hother : timed_callbacks_ g1 = [] ∧ ∀ now, duration_reached o now g1 = duration_reached o now g).
  { unfold record_response, RecordFinishedTxn in E. rewrite Hf in E. injection E as <- _. by split. }
  destruct Hother as [Hc1 Hd1]. rewrite andb_false_r. cbn [mbind result_bind andb].
  change (txns_ (set_callbacks [] g)) with (txns_ g) in Ht. pose proof (unanswered_step _ _ _ _ _ Hu Hi Hf') as Hu1. rewrite <-Ht in Hu1.
  rewrite (go_recv _ Hg1). destruct ns as [|n' ns].
  - rewrite bool_decide_true by (by apply unanswered_nil). eexists. split_and!; [done|by destruct Hg1; constructor|done..].
  - rewrite bool_decide_false by (apply unanswered_cons in Hu1; lia). exists g1. by split_and!.
Qed.

Lemma answers_transfer o g g' is_ ns :
  (∀ now, duration_reached o now g' = duration_reached o now g) → Forall2 (answers o g) is_ ns → Forall2 (answers o g') is_ ns.
Proof. intros H H2. eapply Forall2_impl; [exact H2|]. intros i n (? & ? & ?). split_and!; [by rewrite H|done..]. Qed.

Lemma rounds_answer o is_ i0 n0 ns g :
  gen_ok g → dry_run_ o = false → timed_callbacks_ g = [] → unanswered (txns_ g) (n0 :: ns) → Forall2 (answers o g) (i0 :: is_) (n0 :: ns) →
  ∃ g', sync_rounds o (i0 :: is_) g = Ok (replicate (length ns) false ++ [true], g') ∧ Forall (λ info, finished info = true) (txns_ g').
Proof.
  revert is_ i0 n0 g. induction ns as [|n1 ns IH]; intros is_ i0 n0 g Hg Hd Hc Hu [Hi Hr]%Forall2_cons;
    destruct (answer_round o g i0 n0 _ Hg Hd Hc Hu Hi) as (g' & E & Hg' & Hc' & Hu' & Hd'); cbn [sync_rounds]; rewrite E; cbn [mbind result_bind].
  - apply Forall2_nil_inv_r in Hr as ->. exists g'. split; [done|]. by apply answered_all, unanswered_nil.
  - destruct is_ as [|i1 is_]; [by inversion Hr|]. destruct (IH is_ i1 n1 g' Hg' Hd Hc' Hu') as (g'' & E' & Hall).
    { apply (answers_transfer o g); [by apply Hd'|done]. }
    rewrite E'. exists g''. done.
Qed.

(** After the duration, once all clients have started, a synchronous generator stops:
    the answers to the transactions that are still open, in whatever order they come, make it
    stop, and it does so with the last of them, not before. *)
Theorem sync_drains o late g i0 is_ n0 ns :
  dry_run_ o = false → sync_reach o late g → timed_callbacks_ g = [] →
  unanswered (txns_ g) (n0 :: ns) → Forall2 (answers o g) (i0 :: is_) (n0 :: ns) →
  ∃ g', sync_rounds o (i0 :: is_) g = Ok (replicate (length ns) false ++ [true], g') ∧ Forall (λ info, finished info = true) (txns_ g').
Proof. intros Hd Hr. apply rounds_answer; [|done]. by destruct (sync_reach_inv _ _ _ Hd Hr). Qed.
End generator_ok.

(** A workload with one transaction. *)
Definition example_txn : Transaction :=
  {| internal := {| id := 0; txn_type := SINGLE_HOME; home := 0; coordinating_server := 0; sequencer_delay_ms := 0;
                    involved_partitions := [0%Z]; active_partitions := [0%Z]; involved_replicas := [0%Z]; events := []; global_log_positions := [] |};
     program := kCode []; keys := []; deleted_keys := []; status := COMMITTED; abort_reason := EmptyString |}.

Definition example_profile : TransactionProfile :=
  {| client_txn_id := 0; is_multi_home := false; is_multi_partition := false; records := ∅ |}.

#[export] Instance example_workload : TxnWorkload nat := λ n, Ok ((example_txn, example_profile), S n).

Definition example_options : GeneratorOptions :=
  {| num_txns_ := 0; num_clients_ := 2; startup_spacing_ := 1; interval_ := 0; duration_ := 1000; dry_run_ := false; return_dummy_txn_ := false |}.

Definition example_round (now : Z) (r : option nat) : round_input :=
  {| at_begin := now; poll_begin := now; poll_end := now; at_callback := now; at_end := now; wall := now;
     poll_rc := λ _, if r is Some _ then 1%Z else 0%Z; response := (λ n, (n, example_txn)) <$> r |}.

(** Two clients start, the second transaction is answered in time and the third is sent. *)
Definition example_generator : TxnGenerator nat :=
  Eval vm_compute in
  match (g ← sync_SetUp example_options (λ _, 0%Z) 0 (MakeTxnGenerator 0 0);
         '(_, g) ← sync_Loop example_options (example_round 5000 None) g;
         sync_Loop example_options (example_round 6000 (Some 1)) g) with
  | Ok (_, g) => g
  | Err _ => MakeTxnGenerator 0 0
  end.

Lemma example_generator_reach : sync_reach example_options false example_generator.
Proof.
  eassert (H0 : sync_reach example_options false _) by (apply (sync_started _ (λ _, 0%Z) 0 0 0); vm_compute; reflexivity).
  eassert (H1 : sync_reach example_options _ _) by (eapply (sync_step _ _ (example_round 5000 None)); [exact H0|vm_compute; reflexivity]).
  eapply (sync_step _ false (example_round 6000 (Some 1))) in H1; [|vm_compute; reflexivity]. exact H1.
Qed.

Lemma sync_closed_loop_witness :
  (requests example_generator).*1 = [0; 1; 2] ∧ answered (txns_ example_generator) = 1.
Proof.
  destruct (sync_closed_loop example_options false example_generator eq_refl example_generator_reach) as (Hids & _ & <- & _).
  split; [rewrite Hids|]; reflexivity.
Defined.

Lemma sync_drains_witness :
  ∃ g', sync_rounds example_options [example_round 2000000000 (Some 2); example_round 2000000001 (Some 0)] example_generator =
    Ok ([false; true], g').
Proof.
  destruct (sync_drains example_options false example_generator (example_round 2000000000 (Some 2)) [example_round 2000000001 (Some 0)] 2 [0])
    as (g' & E & _).
  - reflexivity.
  - apply example_generator_reach.
  - reflexivity.
  - split; [by repeat (constructor; [set_solver|]); constructor|]. intros n. split.
    + intros [->|[->|[]%elem_of_nil]%elem_of_cons]%elem_of_cons; eexists; split; reflexivity.
    + intros (info & Hi & Hf). destruct n as [|[|[|n]]]; [set_solver| |set_solver|done]. by injection Hi as <-.
  - constructor; [|constructor; [|constructor]]; (split_and!; [reflexivity|done|by eexists]).
  - by exists g'.
Defined.

(** ** Clients at a constant rate *)
Section constant_rate.
  Context {W : Type} `{!TxnWorkload W}.

(** A callback that is added in a round is for later. *)
Definition clock_ok (o : GeneratorOptions) (i : round_input) : Prop := (poll_end i < at_callback i + 1000 * interval_ o)%Z.

(** The states between rounds; [conn] tells which responses can come. *)
Inductive const_reach (o : GeneratorOptions) (conn : round_input → Prop) : TxnGenerator W → Prop :=
  | const_started now gid w g : const_SetUp o now (MakeTxnGenerator gid w) = Ok g → const_reach o conn g
  | const_step fuel i g b g' :
      const_reach o conn g → 2 ≤ fuel → clock_ok o i → conn i → const_Loop fuel o i g = Ok (b, g') → const_reach o conn g'.

Lemma generate_length n (w w' : W) xs : generate_txns n w = Ok (xs, w') → length xs = n.
Proof.
  revert w xs. induction n as [|n IH]; intros w xs; simpl; [by intros [= <-]|].
  destruct (NextTransaction w) as [[x w1]|]; [|done]. simpl. destruct (generate_txns n w1) as [[ys w2]|] eqn:E; [|done].
  simpl. intros [= <- ->]. simpl. f_equal. by eapply IH.
Qed.

Lemma const_SetUp_ok o now gid (w : W) g :
  const_SetUp o now (MakeTxnGenerator gid w) = Ok g →
  gen_ok g ∧ Z.of_nat (length (generated_txns_ g)) = num_txns_ o ∧ generated_txns_ g ≠ [] ∧ num_sent_txns_ g = 0 ∧
  timer_running_ g = false ∧ elapsed_time_ g = 0%Z ∧ timed_callbacks_ g = [((now + 1000 * interval_ o)%Z, ())].
Proof.
  unfold const_SetUp. destruct (decide (0 < num_txns_ o)%Z); [|done]. simpl.
  destruct (generate_txns _ w) as [[xs w']|] eqn:E; [|done]. simpl. intros [= <-]. apply generate_length in E.
  assert (xs ≠ []) by (intros ->; simpl in E; lia). split_and!; simpl; try done; try lia; constructor; simpl; by intros.
Qed.

(** One callback at most is waiting, so that two steps of the poller's loop are enough. *)
Lemma const_process o i cbs (g : TxnGenerator W) fuel :
  clock_ok o i → length cbs ≤ 1 → 2 ≤ fuel →
  process_callbacks (const_fire o i) fuel (poll_end i) cbs [] (Ok g) =
  match cbs with
  | [(at_, _)] =>
    if decide (at_ ≤ poll_end i)%Z then
      match const_SendNextTxn o i g with
      | Ok (g, added) => Ok (added, Ok g)
      | Err f => Ok ([], Err f)
      end
    else Ok (cbs, Ok g)
  | _ => Ok ([], Ok g)
  end.
Proof.
  unfold clock_ok. intros Hi Hl Hf. destruct fuel as [|[|fuel]]; [lia..|].
  destruct cbs as [|[at_ []] [|]]; simpl in *; [done| |lia].
  destruct (decide (at_ ≤ poll_end i)%Z); [|done].
  destruct (const_SendNextTxn o i g) as [[g' added]|] eqn:E; [|done].
  assert (Ha : added = [] ∨ added = [((at_callback i + 1000 * interval_ o)%Z, ())]).
  { unfold const_SendNextTxn in E. destruct (if decide _ then _ else _); [injection E as <- <-; by left|].
    destruct (_ !! _); [|done]. injection E as <- <-. by right. }
  destruct Ha as [-> | ->]; simpl; [done|]. destruct (decide (_ ≤ poll_end i)%Z); [lia|]. by destruct fuel.
Qed.

(** *** Without a duration: all generated transactions, each once *)

Record const_inv (o : GeneratorOptions) (g : TxnGenerator W) : Prop := {
  ci_ok : gen_ok g;
  ci_txns : Z.of_nat (length (generated_txns_ g)) = num_txns_ o;
  ci_some : generated_txns_ g ≠ [];
  ci_sent : num_sent_txns_ g ≤ length (generated_txns_ g);
  ci_requests : (requests g).*2 = take (num_sent_txns_ g) (generated_txns_ g).*1;
  ci_callbacks : length (timed_callbacks_ g) ≤ 1;
  ci_next : num_sent_txns_ g < length (generated_txns_ g) → timed_callbacks_ g ≠ []
}.

Lemma const_send o i (g : TxnGenerator W) :
  (duration_ o ≤ 0)%Z → dry_run_ o = false → const_inv o g →
  ∃ g' added, const_SendNextTxn o i g = Ok (g', added) ∧ const_inv o (set_callbacks added g') ∧ txns_ g `prefix_of` txns_ g'.
Proof.
  intros Hdur Hdry [Hok Htx Hne Hle Hreq Hcb Hnext]. unfold const_SendNextTxn. rewrite Hdry.
  destruct (decide (0 < duration_ o)%Z) as [?|_]; [lia|].
  destruct (decide (length (generated_txns_ g) ≤ num_sent_txns_ g)) as [Hall|Hlt].
  - rewrite bool_decide_true by done. exists g, []. split_and!; [done| |done].
    constructor; simpl; try done; [by destruct Hok; constructor|lia|lia].
  - rewrite bool_decide_false by done. rewrite Nat.mod_small by lia.
    destruct (lookup_lt_is_Some_2 (generated_txns_ g) (num_sent_txns_ g)) as [[t p] Ht]; [lia|]. rewrite Ht.
    eexists _, _. split_and!; [done| |by eexists].
    assert (Hp : gen_ok (push_txn true t p (wall i) (workload_ g) g)) by (apply push_ok; [done|]; by rewrite Nat.mod_small by lia).
    constructor; simpl; try done; [by destruct Hp; constructor|lia|].
    rewrite fmap_app, Hreq. simpl. rewrite (take_S_r _ _ t); [done|]. by rewrite list_lookup_fmap, Ht.
Qed.

Lemma const_events o i fuel (g : TxnGenerator W) :
  (duration_ o ≤ 0)%Z → dry_run_ o = false → clock_ok o i → 2 ≤ fuel → const_inv o g →
  ∃ cbs g', process_callbacks (const_fire o i) fuel (poll_end i) (timed_callbacks_ g) [] (Ok g) = Ok (cbs, Ok g') ∧
    const_inv o (set_callbacks cbs g') ∧ txns_ g `prefix_of` txns_ g'.
Proof.
  intros Hdur Hdry Hi Hf Hg. rewrite const_process by (done || apply Hg).
  assert (Hid : const_inv o (set_callbacks (timed_callbacks_ g) g)) by (destruct Hg as [[]]; constructor; [constructor|..]; done).
  destruct (timed_callbacks_ g) as [|[at_ []] [|]] eqn:Ecb; [by eexists _, g| |by apply ci_callbacks in Hg; rewrite Ecb in Hg; simpl in Hg; lia].
  destruct (decide (at_ ≤ poll_end i)%Z); [|by eexists _, g].
  destruct (const_send o i g Hdur Hdry Hg) as (g' & added & -> & ? & ?). by eexists _, g'.
Qed.

Lemma const_receive_ok o i (g g' : TxnGenerator W) : const_inv o g → const_receive o i g = Ok g' → const_inv o g'.
Proof.
  intros Hg. unfold const_receive. destruct (response i) as [[sid t]|]; [|by intros [= <-]].
  destruct (txns_ g !! sid) as [info|] eqn:Hi; [|done]. intros [= <-].
  set (g1 := if timer_running_ g then g else _).
  assert (Hg1 : const_inv o g1 ∧ txns_ g1 !! sid = Some info).
  { subst g1. destruct (timer_running_ g); [done|]. split; [|done]. destruct Hg as [[]]; constructor; [constructor|..]; done. }
  destruct Hg1 as [[Hok Htx Hne Hle Hreq Hcb Hnext] Hi1]. pose proof (record_ok o (wall i) sid t info g1 Hok Hi1) as Hk.
  unfold record_response in *. destruct (RecordFinishedTxn _ _ _ _ _). destruct Hk as (Hg' & _). by constructor.
Qed.

Lemma const_round o i fuel (g : TxnGenerator W) :
  (duration_ o ≤ 0)%Z → dry_run_ o = false → 2 ≤ fuel → clock_ok o i → const_inv o g →
  (∀ b g', const_Loop fuel o i g = Ok (b, g') →
    const_inv o g' ∧ b = bool_decide (num_sent_txns_ g' = length (generated_txns_ g') ∧ answered (txns_ g') = length (txns_ g'))) ∧
  (from_option (λ r, r.1 < num_sent_txns_ g) True (response i) → ∃ b g', const_Loop fuel o i g = Ok (b, g')).
Proof.
  intros Hdur Hdry Hf Hi Hg. destruct (const_events o i fuel g Hdur Hdry Hi Hf Hg) as (cbs & g1 & E & Hg1 & Hp).
  unfold const_Loop, NextEvent. rewrite E. cbn [mbind result_bind]. set (g2 := set_callbacks cbs g1) in *.
  set (may := bool_decide (0 < _)%Z). split.
  - intros b g' H. destruct (if may then _ else _) as [g3|] eqn:E3; [|done].
    assert (Hg3 : const_inv o g3) by (destruct may; [by apply (const_receive_ok o i g2)|by injection E3 as <-]).
    cbn [mbind result_bind] in H. unfold const_stops in H. rewrite Hdry in H. destruct (decide (0 < duration_ o)%Z) as [?|_]; [lia|].
    pose proof (ci_sent _ _ Hg3) as Hs3. pose proof (go_recv _ (ci_ok _ _ Hg3)) as Hr3. pose proof (answered_bound (txns_ g3)) as Ha3.
    assert (Hb : bool_decide (length (generated_txns_ g3) ≤ num_sent_txns_ g3) && (false || bool_decide (length (txns_ g3) ≤ num_recv_txns_ g3)) =
      bool_decide (num_sent_txns_ g3 = length (generated_txns_ g3) ∧ answered (txns_ g3) = length (txns_ g3))).
    { apply Bool.eq_iff_eq_true. rewrite andb_true_iff. simpl. rewrite !bool_decide_eq_true. lia. }
    rewrite Hb in H. destruct (bool_decide _) eqn:Eb in H; injection H as <- <-; (split; [|by rewrite <-Eb || by symmetry]);
      [destruct Hg3 as [[]]; constructor; [constructor|..]; done|done].
  - intros Hr. assert (Hrec : ∃ g3, (if may then const_receive o i g2 else Ok g2) = Ok g3).
    { destruct may; [|by eexists]. unfold const_receive. destruct (response i) as [[sid t]|]; [|by eexists]. simpl in Hr.
      rewrite (go_sent _ (ci_ok _ _ Hg)) in Hr. apply lookup_lt_is_Some_2 in Hr as [info Hinfo].
      change (txns_ g2) with (txns_ g1). rewrite (prefix_lookup_Some _ _ _ _ Hinfo Hp). by eexists. }
    destruct Hrec as [g3 ->]. cbn [mbind result_bind]. destruct (const_stops _ _ _); by eexists _, _.
Qed.

Lemma const_reach_inv o conn (g : TxnGenerator W) :
  (duration_ o ≤ 0)%Z → dry_run_ o = false → const_reach o conn g → const_inv o g.
Proof.
  intros Hdur Hdry. induction 1 as [now gid w g H|fuel i g b g' _ IH Hf Hi _ H].
  - destruct (const_SetUp_ok _ _ _ _ _ H) as (Hok & Ht & Hne & Hs & _ & _ & Hc).
    assert (Hrq : requests g = []) by (pose proof (go_ids _ Hok) as Hq; rewrite Hs in Hq; by apply fmap_nil_inv in Hq).
    constructor; try done; rewrite ?Hs, ?Hc, ?Hrq; simpl; by try lia.
  - by destruct (proj1 (const_round o i fuel g Hdur Hdry Hf Hi IH) _ _ H).
Qed.

(** Without a duration, a generator at a constant rate sends the transactions it
    generated, each once and in their order: the next one is scheduled until all are sent. A
    round gives a result when it gets a response to something that was sent, and the generator stops
    with the round after which everything is sent and answered, and no earlier. *)
Theorem const_sends_all o conn (g : TxnGenerator W) :
  (duration_ o ≤ 0)%Z → dry_run_ o = false → const_reach o conn g →
  (requests g).*2 = take (num_sent_txns_ g) (generated_txns_ g).*1 ∧
  Z.of_nat (length (generated_txns_ g)) = num_txns_ o ∧
  (num_sent_txns_ g < length (generated_txns_ g) → ∃ at_, timed_callbacks_ g = [(at_, ())]) ∧
  ∀ fuel i, 2 ≤ fuel → clock_ok o i →
    (∀ b g', const_Loop fuel o i g = Ok (b, g') →
      (b = true ↔ num_sent_txns_ g' = length (generated_txns_ g') ∧ Forall (λ info, finished info = true) (txns_ g'))) ∧
    (from_option (λ r, r.1 < num_sent_txns_ g) True (response i) → ∃ b g', const_Loop fuel o i g = Ok (b, g')).
Proof.
  intros Hdur Hdry H. apply const_reach_inv in H; [|done..]. split_and!; [apply H..| |].
  - intros Hlt. pose proof (ci_next _ _ H Hlt). pose proof (ci_callbacks _ _ H).
    destruct (timed_callbacks_ g) as [|[at_ []] [|]]; simpl in *; [done|by eexists|lia].
  - intros fuel i Hf Hi. destruct (const_round o i fuel g Hdur Hdry Hf Hi H) as [Hr Hex]. split; [|done].
    intros b g' HL. destruct (Hr b g' HL) as [_ ->]. rewrite bool_decide_eq_true. apply and_iff_compat_l.
    split; [apply answered_all|apply answered_full].
Qed.

(** *** A dry run with a duration *)

Record dry_inv (g : TxnGenerator W) : Prop := {
  di_timer : timer_running_ g = false;
  di_elapsed : elapsed_time_ g = 0%Z;
  di_some : generated_txns_ g ≠ [];
  di_callbacks : length (timed_callbacks_ g) ≤ 1
}.

Lemma dry_round o i fuel (g : TxnGenerator W) :
  (0 < duration_ o)%Z → dry_run_ o = true → 2 ≤ fuel → clock_ok o i → response i = None → dry_inv g →
  ∃ g', const_Loop fuel o i g = Ok (false, g') ∧ dry_inv g'.
Proof.
  intros Hdur Hdry Hf Hi Hresp [Ht He Hs Hc].
  assert (Hnd : ∀ now g, timer_running_ g = false → elapsed_time_ g = 0%Z → duration_reached (W := W) o now g = false).
  { intros now g1 Ht1 He1. unfold duration_reached, elapsed_time. rewrite Ht1, He1. apply bool_decide_eq_false. lia. }
  assert (Hev : ∃ cbs g', process_callbacks (const_fire o i) fuel (poll_end i) (timed_callbacks_ g) [] (Ok g) = Ok (cbs, Ok g') ∧
    dry_inv (set_callbacks cbs g')).
  { rewrite const_process by done. destruct (timed_callbacks_ g) as [|[at_ []] [|]]; simpl in Hc; [by eexists _, g| |lia].
    destruct (decide (at_ ≤ poll_end i)%Z); [|by eexists _, g].
    unfold const_SendNextTxn. destruct (decide (0 < duration_ o)%Z) as [_|?]; [|lia]. rewrite Hnd by done.
    destruct (lookup_lt_is_Some_2 (generated_txns_ g) (num_sent_txns_ g `mod` length (generated_txns_ g))) as [[t p] Hx].
    { apply Nat.mod_upper_bound. by destruct (generated_txns_ g). }
    rewrite Hx. by eexists _, _. }
  destruct Hev as (cbs & g1 & E & Hg1). unfold const_Loop, NextEvent. rewrite E. cbn [mbind result_bind].
  assert (Hr : (if bool_decide (0 < poll_rc i (poll_argument (shortest_timeout_from (poll_begin i) (timed_callbacks_ g) (Some kModuleTimeout))))%Z
    then const_receive o i (set_callbacks cbs g1) else Ok (set_callbacks cbs g1)) = Ok (set_callbacks cbs g1)).
  { unfold const_receive. rewrite Hresp. by destruct (bool_decide _). }
  cbn [orb]. rewrite Hr. cbn [mbind result_bind]. unfold const_stops. destruct (decide (0 < duration_ o)%Z) as [_|?]; [|lia].
  rewrite Hnd by apply Hg1. by eexists.
Qed.

(** A dry run of a generator at a constant rate with a duration never ends: the
    timer is only started by a response, and a dry run has no connection, so that the
    duration is never reached. *)
Theorem dry_run_never_stops o (g : TxnGenerator W) :
  (0 < duration_ o)%Z → dry_run_ o = true → const_reach o (λ i, response i = None) g →
  ∀ fuel i, 2 ≤ fuel → clock_ok o i → response i = None → ∃ g', const_Loop fuel o i g = Ok (false, g').
Proof.
  intros Hdur Hdry H.
  assert (Hinv : dry_inv g).
  { induction H as [now gid w g H|fuel i g b g' _ IH Hf Hi Hr H].
    - destruct (const_SetUp_ok _ _ _ _ _ H) as (_ & _ & ? & _ & ? & ? & Hc). constructor; [done..|]. by rewrite Hc.
    - destruct (dry_round o i fuel g Hdur Hdry Hf Hi Hr IH) as (g1 & E & ?). rewrite H in E. by injection E as -> ->. }
  intros fuel i Hf Hi Hr. destruct (dry_round o i fuel g Hdur Hdry Hf Hi Hr Hinv) as (g' & E & _). by exists g'.
Qed.
End constant_rate.

(** Two transactions at 100000 per second. *)
Definition rate_options (duration : Z) (dry_run : bool) : GeneratorOptions :=
  {| num_txns_ := 2; num_clients_ := 0; startup_spacing_ := 0; interval_ := 10; duration_ := duration;
     dry_run_ := dry_run; return_dummy_txn_ := false |}.

Definition rate_generator (o : GeneratorOptions) : TxnGenerator nat :=
  match (g ← const_SetUp o 0 (MakeTxnGenerator 0 0); '(_, g) ← const_Loop 2 o (example_round 10000 None) g; Ok g) with
  | Ok g => g
  | Err _ => MakeTxnGenerator 0 0
  end.

Lemma rate_reach o conn :
  o = rate_options 0 false ∨ o = rate_options 1000 true → conn (example_round 10000 None) → const_reach o conn (rate_generator o).
Proof.
  intros Ho Hc.
  destruct Ho as [-> | ->];
    (match goal with |- const_reach ?o _ _ =>
       eassert (H0 : const_reach o conn _) by (apply (const_started (W := nat) _ _ 0 0 0); vm_compute; reflexivity) end;
     eapply (const_step _ _ 2 (example_round 10000 None)); [exact H0|done|vm_compute; reflexivity|done|vm_compute; reflexivity]).
Qed.

Lemma const_sends_all_witness :
  requests (rate_generator (rate_options 0 false)) = [(0, example_txn)] ∧
  ∃ b g', const_Loop 2 (rate_options 0 false) (example_round 20000 (Some 0)) (rate_generator (rate_options 0 false)) = Ok (b, g').
Proof.
  destruct (const_sends_all (rate_options 0 false) (λ _, True) (rate_generator (rate_options 0 false))) as (_ & _ & _ & Hr).
  - done.
  - reflexivity.
  - apply rate_reach; [by left|done].
  - split; [vm_compute; reflexivity|]. apply Hr; [done|by vm_compute|vm_compute; lia].
Defined.

Lemma dry_run_never_stops_witness :
  ∃ g', const_Loop 2 (rate_options 1000 true) (example_round 1000000000000 None) (rate_generator (rate_options 1000 true)) = Ok (false, g').
Proof.
  apply (dry_run_never_stops (rate_options 1000 true)).
  - done.
  - reflexivity.
  - apply rate_reach; [by right|done].
  - done.
  - by vm_compute.
  - reflexivity.
Defined.

(** ** The benchmark *)

Definition sum_of (f : Z → Z) (n : nat) : Z := foldr Z.add 0%Z (f <$> seqZ 0 (Z.of_nat n)).

Lemma sum_of_S f n : sum_of f (S n) = (sum_of f n + f (Z.of_nat n))%Z.
Proof.
  unfold sum_of. replace (Z.of_nat (S n)) with (Z.of_nat n + 1)%Z by lia. rewrite seqZ_app by lia.
  rewrite fmap_app, foldr_app. simpl. rewrite Z.add_0_r.
  assert (Hs : ∀ l a, foldr Z.add a l = (foldr Z.add 0 l + a)%Z) by (induction l; intros; simpl; [done|rewrite IHl; lia]).
  rewrite Hs. done.
Qed.

Lemma share_sum total n k :
  (0 ≤ total)%Z → 0 < n → k ≤ n →
  sum_of (share_of total (Z.of_nat n)) k =
  (Z.of_nat k * (total `div` Z.of_nat n) + Z.of_nat k `min` (total `mod` Z.of_nat n))%Z.
Proof.
  intros Ht Hn. induction k as [|k IH]; intros Hk.
  { unfold sum_of. simpl. pose proof (Z.mod_pos_bound total (Z.of_nat n)). lia. }
  rewrite sum_of_S, IH by lia. unfold share_of. rewrite Z.quot_div_nonneg, Z.rem_mod_nonneg by lia.
  destruct (decide (Z.of_nat k < total `mod` Z.of_nat n)%Z); lia.
Qed.

Lemma shares_total total n : (0 ≤ total)%Z → 0 < n → sum_of (share_of total (Z.of_nat n)) n = total.
Proof.
  intros Ht Hn. rewrite share_sum by lia. pose proof (Z.mod_pos_bound total (Z.of_nat n) ltac:(lia)).
  pose proof (Z.div_mod total (Z.of_nat n) ltac:(lia)). lia.
Qed.

Lemma txns_total txns n : 0 < n → sum_of (txns_of txns (Z.of_nat n)) n = txns.
Proof.
  destruct n as [|n]; [lia|]. intros _. rewrite sum_of_S. unfold txns_of at 2. rewrite decide_False by lia.
  enough (∀ k : nat, k ≤ n → sum_of (txns_of txns (Z.of_nat (S n))) k = (Z.of_nat k * (txns `div` Z.of_nat (S n)))%Z) as -> by lia.
  induction k as [|k IH]; intros; [done|]. rewrite sum_of_S, IH by lia. unfold txns_of. rewrite decide_True by lia. lia.
Qed.

(** The benchmark divides its work exactly: the generators together have all of the
    transactions, and all of the clients or the whole rate, in shares that differ by at most
    one. With a rate below the number of generators no benchmark starts, since a generator
    without a share divides by it. *)
Theorem benchmark_divides_work generators txns rate clients duration spacing seed dry dummy :
  (0 ≤ rate)%Z → (0 ≤ clients)%Z →
  let n := (generators `max` 1)%Z in
  let init := InitializeGenerators generators txns rate clients duration spacing seed dry dummy in
  (∀ gens, init = Ok gens →
    Z.of_nat (length gens) = n ∧ foldr Z.add 0%Z ((λ g, num_txns_ g.2) <$> gens) = txns ∧
    (rate = 0%Z → foldr Z.add 0%Z ((λ g, num_clients_ g.2) <$> gens) = clients)) ∧
  foldr Z.add 0%Z (share_of rate n <$> seqZ 0 n) = rate ∧
  (∀ i j, (0 ≤ i < n → 0 ≤ j < n → share_of rate n i ≤ share_of rate n j + 1)%Z) ∧
  ((0 < rate < n)%Z → ∃ f, init = Err f) ∧
  (rate = 0%Z → (0 < duration)%Z → ∃ gens, init = Ok gens).
Proof.
  intros Hr Hc. cbv zeta. set (n := (generators `max` 1)%Z). assert (Hn : (1 ≤ n)%Z) by lia.
  pose proof (shares_total rate (Z.to_nat n) Hr ltac:(lia)) as Hsr. unfold sum_of in Hsr. rewrite Z2Nat.id in Hsr by lia.
  split_and!; [|done| | |].
  - intros gens H. unfold InitializeGenerators in H. fold n in H.
    assert (Htx : (λ g, num_txns_ g.2) <$> gens = txns_of txns n <$> seqZ 0 n).
    { eapply rmap_preserves; [|exact H]. intros i g Hg. unfold MakeConstantRate, MakeSynchronous in Hg.
      repeat case_decide; simpl in Hg; try discriminate; by injection Hg as <-. }
    split_and!.
    + rewrite <-(length_fmap (λ g, num_txns_ g.2)), Htx, length_fmap, length_seqZ. lia.
    + rewrite Htx. pose proof (txns_total txns (Z.to_nat n) ltac:(lia)) as Ht. unfold sum_of in Ht. by rewrite Z2Nat.id in Ht by lia.
    + intros ->. assert (Hcl : (λ g, num_clients_ g.2) <$> gens = share_of clients n <$> seqZ 0 n).
      { eapply rmap_preserves; [|exact H]. intros i g Hg. unfold MakeSynchronous in Hg. simpl in Hg.
        case_decide; simpl in Hg; try discriminate; by injection Hg as <-. }
      rewrite Hcl. pose proof (shares_total clients (Z.to_nat n) Hc ltac:(lia)) as Ht. unfold sum_of in Ht. by rewrite Z2Nat.id in Ht by lia.
  - intros i j _ _. unfold share_of. repeat case_decide; lia.
  - intros Hlt. destruct (InitializeGenerators _ _ _ _ _ _ _ _ _) as [gens|f] eqn:E; [|by eexists].
    exfalso. unfold InitializeGenerators in E. fold n in E. apply rmap_Forall2 in E.
    assert (Hin : (n - 1)%Z ∈ seqZ 0 n) by (apply elem_of_seqZ; lia).
    apply list_elem_of_lookup in Hin as [k Hk]. destruct (Forall2_lookup_l _ _ _ _ _ E Hk) as (g & _ & Hg). revert Hg.
    assert (Hz : share_of rate n (n - 1) = 0%Z).
    { unfold share_of. rewrite Z.quot_small, Z.rem_small by lia. rewrite decide_False by lia. done. }
    rewrite decide_True by lia. rewrite Hz. done.
  - intros -> Hd. unfold InitializeGenerators. fold n. unfold MakeSynchronous.
    eexists. apply rmap_ok. intros i _. rewrite decide_False by lia. by rewrite decide_True by lia.
Qed.

Lemma benchmark_divides_work_witness :
  ∃ gens, InitializeGenerators 3 100 0 5 10 1 42 false false = Ok gens ∧ length gens = 3 ∧
    foldr Z.add 0%Z ((λ g, num_clients_ g.2) <$> gens) = 5%Z.
Proof.
  destruct (benchmark_divides_work 3 100 0 5 10 1 42 false false ltac:(done) ltac:(done)) as (Hok & _ & _ & _ & Hex).
  destruct (Hex eq_refl ltac:(done)) as [gens E]. destruct (Hok gens E) as (Hl & _ & Hc). exists gens. split_and!; [done|simpl in Hl; lia|auto].
Defined.

(** Every transaction is counted once by its status, and the summary exists for the transactions
    of a generator. *)
Lemma summarize_from s infos :
  Forall (λ info, is_Some (ti_txn info)) infos →
  ∃ s', rfoldl summary_add s infos = Ok s' ∧
    (committed s' + aborted s' + not_started s' = committed s + aborted s + not_started s + Z.of_nat (length infos))%Z.
Proof.
  intros H. revert s. induction H as [|info infos [t Ht] _ IH]; intros s; [exists s; simpl; split; [done|lia]|].
  assert (E0 : summary_add s info = Ok (summary_plus s (summary_of t))) by (unfold summary_add; by rewrite Ht).
  cbn [rfoldl]. rewrite E0. cbn [mbind result_bind].
  destruct (IH (summary_plus s (summary_of t))) as (s' & E & Hs). exists s'. split; [done|]. rewrite Hs. simpl.
  destruct (status t); simpl; lia.
Qed.

Lemma summary_counts {W} `{!TxnWorkload W} (g : TxnGenerator W) :
  gen_ok g → ∃ s, summarize (txns_ g) = Ok s ∧ (committed s + aborted s + not_started s = Z.of_nat (num_sent_txns_ g))%Z.
Proof.
  intros Hg. destruct (summarize_from empty_summary (txns_ g)) as (s & E & Hs).
  - apply Forall_lookup. intros i info Hi. by eapply go_some.
  - exists s. split; [done|]. rewrite Hs, (go_sent _ Hg). done.
Qed.
