(* ===== verification/Ranges.v ===== *)
(** * Ranges and threads

    What the two loaders of initial data share ([execution/tpcc/load_tables.cpp] and
    [service/slog.cpp]): loops that step over the numbers of one partition, the cut of a range
    into one piece per thread, and the interleavings of what the threads do. *)
From S2P Require Import Prelude.

(** The values of [id] in [for (int id = from; id < to; id += step)], for a positive step. *)
Definition count_up (from to step : Z) : list Z :=
  (λ i, from + step * Z.of_nat i)%Z <$> seq 0 (Z.to_nat ((to - from + step - 1) `div` step)).

(** The order in which threads act keeps the order of each thread. *)
Inductive interleave {X} : list (list X) → list X → Prop :=
  | interleave_nil ls : Forall (λ l, l = []) ls → interleave ls []
  | interleave_step ls1 x l ls2 ws :
      interleave (ls1 ++ l :: ls2) ws → interleave (ls1 ++ (x :: l) :: ls2) (x :: ws).

(** ** Stepping loops *)

Lemma count_up_nil from to step : (0 < step)%Z → (to ≤ from)%Z → count_up from to step = [].
Proof.
  intros Hs Ht. unfold count_up. assert (Hd : ((to - from + step - 1) `div` step < 1)%Z).
  { apply Z.div_lt_upper_bound; lia. }
  rewrite Z2Nat.nonpos by (apply Z.lt_succ_r; exact Hd). done.
Qed.

(** One turn of the loop. *)
Lemma count_up_step from to step :
  (0 < step)%Z → (from < to)%Z → count_up from to step = from :: count_up (from + step) to step.
Proof.
  intros Hs Ht. unfold count_up.
  assert (E : ((to - from + step - 1) `div` step = (to - (from + step) + step - 1) `div` step + 1)%Z).
  { replace (to - from + step - 1)%Z with ((to - (from + step) + step - 1) + 1 * step)%Z by lia.
    rewrite Z.div_add by lia. done. }
  assert (0 ≤ (to - (from + step) + step - 1) `div` step)%Z by (apply Z.div_pos; lia).
  rewrite E, Z2Nat.inj_add by done. change (Z.to_nat 1) with 1. rewrite Nat.add_1_r. cbn [seq]. rewrite fmap_cons.
  f_equal; [lia|]. rewrite <-fmap_S_seq, <-list_fmap_compose. apply list_fmap_ext. intros i x _. simpl. lia.
Qed.

(** The first number from [a] with remainder [p]. *)
Definition first_from (np p a : Z) : Z := (a + (p - a) `mod` np)%Z.

Lemma first_from_next np p a :
  (0 < np)%Z → (0 ≤ p < np)%Z →
  first_from np p (a + 1) = if decide (a `mod` np = p)%Z then (a + np)%Z else first_from np p a.
Proof.
  intros Hnp Hp. unfold first_from.
  assert (E : ((p - (a + 1)) `mod` np = ((p - a) `mod` np - 1) `mod` np)%Z).
  { rewrite Zminus_mod_idemp_l. f_equal. lia. }
  rewrite E. pose proof (Z.mod_pos_bound (p - a) np Hnp) as Hb.
  assert (Hz : ((p - a) `mod` np = 0 ↔ a `mod` np = p)%Z).
  { split; intros Hm.
    - apply Z.mod_divide in Hm as [q Hq]; [|lia]. replace a with (p + (- q) * np)%Z by lia. rewrite Z.mod_add by lia.
      by apply Z.mod_small.
    - rewrite <-Hm, Zminus_mod_idemp_l, Z.sub_diag. by rewrite Z.mod_0_l by lia. }
  case_decide as Hd.
  - apply Hz in Hd. rewrite Hd. replace (0 - 1)%Z with (np - 1 + (-1) * np)%Z by lia. rewrite Z.mod_add by lia.
    rewrite Z.mod_small by lia. lia.
  - assert (Hne : ((p - a) `mod` np ≠ 0)%Z) by tauto. rewrite (Z.mod_small (_ - 1)) by lia. lia.
Qed.

Lemma filter_interval np p a n :
  (0 < np)%Z → (0 ≤ p < np)%Z →
  filter (λ x, x `mod` np = p)%Z (seqZ a (Z.of_nat n)) = count_up (first_from np p a) (a + Z.of_nat n) np.
Proof.
  intros Hnp Hp. revert a. induction n as [|n IH]; intros a.
  { rewrite count_up_nil; [done|done|]. unfold first_from. pose proof (Z.mod_pos_bound (p - a) np Hnp). simpl. lia. }
  rewrite Nat2Z.inj_succ, seqZ_cons by lia. rewrite Z.pred_succ, filter_cons.
  specialize (IH (Z.succ a)). replace (Z.succ a + Z.of_nat n)%Z with (a + Z.succ (Z.of_nat n))%Z in IH by lia.
  rewrite IH. change (first_from np p (Z.succ a)) with (first_from np p (a + 1)). rewrite first_from_next by done. case_decide as Hd; [|done].
  rewrite (count_up_step (first_from np p a)).
  - assert (first_from np p a = a) as ->; [|done]. unfold first_from.
    rewrite <-Hd, Zminus_mod_idemp_l, Z.sub_diag, Z.mod_0_l by lia. lia.
  - done.
  - unfold first_from. rewrite <-Hd, Zminus_mod_idemp_l, Z.sub_diag, Z.mod_0_l by lia. lia.
Qed.

(** ** Pieces of a range *)

Lemma count_up_shift from to step : (λ x, x + 1)%Z <$> count_up from to step = count_up (from + 1) (to + 1) step.
Proof.
  unfold count_up. replace (to + 1 - (from + 1) + step - 1)%Z with (to - from + step - 1)%Z by lia.
  rewrite <-list_fmap_compose. apply list_fmap_ext. intros. simpl. lia.
Qed.

Lemma chunks_cover r W n :
  (0 < r)%Z → (0 ≤ W)%Z →
  (seqZ 0 (Z.of_nat n) ≫= λ i, seqZ (i * r) (Z.max 0 (Z.min ((i + 1) * r) W - i * r))) = seqZ 0 (Z.min (Z.of_nat n * r) W).
Proof.
  intros Hr HW. induction n as [|n IH]; [by rewrite Z.min_l by lia|].
  rewrite seqZ_S, bind_app, IH, Z.add_0_l, Nat2Z.inj_succ. cbn [mbind list_bind]. rewrite app_nil_r.
  destruct (decide (W ≤ Z.of_nat n * r)%Z) as [Hd|Hd].
  - rewrite !Z.min_r by lia. rewrite Z.max_l by lia. by rewrite app_nil_r.
  - rewrite (Z.min_l (Z.of_nat n * r) W) by lia. rewrite Z.max_r by lia.
    replace (Z.min (Z.succ (Z.of_nat n) * r) W)
      with (Z.of_nat n * r + (Z.min ((Z.of_nat n + 1) * r) W - Z.of_nat n * r))%Z by lia.
    rewrite seqZ_app by lia. done.
Qed.

Lemma fmap_filter_bind {X Y Z} (P : Y → Prop) `{!∀ y, Decision (P y)} (g : Y → Z) (f : X → list Y) l :
  g <$> filter P (l ≫= f) = l ≫= λ x, g <$> filter P (f x).
Proof. induction l as [|x l IH]; [done|]. rewrite !bind_cons, filter_app, fmap_app. by rewrite IH. Qed.

Lemma fmap_bind {X Y W} (g : Y → W) (f : X → list Y) l : g <$> (l ≫= f) = l ≫= λ x, g <$> f x.
Proof. induction l as [|x l IH]; [done|]. rewrite !bind_cons, fmap_app. by rewrite IH. Qed.

(** The loop of a thread runs over the numbers of the partition in its piece. *)
Lemma piece_filter np p r W i :
  (0 < np)%Z → (0 ≤ p < np)%Z →
  count_up (i * r + (p - (i * r) `mod` np + np) `mod` np) (Z.min ((i + 1) * r) W) np =
  filter (λ x, x `mod` np = p)%Z (seqZ (i * r) (Z.max 0 (Z.min ((i + 1) * r) W - i * r))).
Proof.
  intros Hnp Hp. assert (Ef : (i * r + (p - (i * r) `mod` np + np) `mod` np = first_from np p (i * r))%Z).
  { unfold first_from. f_equal. replace (p - (i * r) `mod` np + np)%Z with (p - (i * r) `mod` np + 1 * np)%Z by lia.
    rewrite Z.mod_add by lia. by rewrite Zminus_mod_idemp_r. }
  rewrite Ef. rewrite <-(Z2Nat.id (Z.max 0 _)) by lia. rewrite filter_interval by done.
  rewrite Z2Nat.id by lia. destruct (decide (Z.min ((i + 1) * r) W ≤ i * r)%Z) as [Hd|Hd].
  - rewrite Z.max_l by lia. assert (i * r ≤ first_from np p (i * r))%Z.
    { unfold first_from. pose proof (Z.mod_pos_bound (p - i * r) np Hnp). lia. }
    rewrite !count_up_nil by lia. done.
  - rewrite Z.max_r by lia. f_equal. lia.
Qed.

(** The threads run over the numbers of the partition once each, and over no other. *)
Lemma pieces_cover {X} np p W nt (g : Z → X) :
  (0 ≤ W)%Z → (0 < np)%Z → (0 ≤ p < np)%Z → (0 < nt)%Z →
  let r := (W `div` nt + 1)%Z in
  (seqZ 0 nt ≫= λ i, g <$> count_up (i * r + (p - (i * r) `mod` np + np) `mod` np) (Z.min ((i + 1) * r) W) np) =
  g <$> filter (λ x, x `mod` np = p)%Z (seqZ 0 W).
Proof.
  intros HW Hnp Hp Hnt r. pose proof (Z.div_pos W nt HW Hnt) as Hq.
  transitivity (g <$> filter (λ x, x `mod` np = p)%Z
    (seqZ 0 (Z.of_nat (Z.to_nat nt)) ≫= λ i, seqZ (i * r) (Z.max 0 (Z.min ((i + 1) * r) W - i * r)))).
  - rewrite Z2Nat.id by lia. rewrite fmap_filter_bind. apply Forall_bind_ext, Forall_seqZ. intros i Hi.
    by rewrite piece_filter.
  - rewrite chunks_cover by (unfold r; lia). rewrite Z2Nat.id by lia.
    rewrite Z.min_r by (unfold r; pose proof (Z.mod_pos_bound W nt Hnt); pose proof (Z.div_mod W nt ltac:(lia)); nia).
    done.
Qed.

(** ** Interleavings *)

Lemma interleave_perm {X} (ls : list (list X)) ws : interleave ls ws → ws ≡ₚ mjoin ls.
Proof.
  induction 1 as [ls Hls|ls1 x l ls2 ws Hi IH].
  - induction Hls as [|l ls -> Hls IH]; [done|]. simpl. exact IH.
  - rewrite IH, !join_app. simpl. apply Permutation_middle.
Qed.

Lemma interleave_exists {X} (ls : list (list X)) : interleave ls (mjoin ls).
Proof.
  induction ls as [|l ls IH]; [by apply interleave_nil|]. cbn [mjoin list_join].
  induction l as [|x l IHl].
  - cbn [app]. assert (Hskip : ∀ (ms : list (list X)) us, interleave ms us → interleave ([] :: ms) us).
    { induction 1 as [ms Hms|ms1 y m ms2 us Hi IHi]; [by apply interleave_nil; constructor|].
      apply (interleave_step ([] :: ms1)). exact IHi. }
    by apply Hskip.
  - apply (interleave_step [] x l ls). exact IHl.
Qed.
