(* ===== verification/TpccLoad.v ===== *)
(** * Loading the TPC-C tables

    [execution/tpcc/load_tables.cpp]: every partition loads its warehouses into its storage
    before the server starts, with several threads that share the storage. The random
    engines are arguments, by their seeds. *)
From Stdlib Require Import Ascii QArith_base.
From S2P Require Import Prelude Types StringUtils Config Sharder Execution Scalar StorageAdapter Table Tpcc TpccKeys Random Workload BasicWorkload TpccWorkload Ranges.

(** [for (x : l) body] *)
Definition mfor {A X} (l : list X) (body : X → M A ()) : M A () := mfoldl (λ _ x, body x) () l.

Record loader (A : Type) := { rg_ : rng; str_gen_ : RandomStringGenerator; storage_adapter_ : A }.
Arguments Build_loader {_} _ _ _.
Arguments rg_ {_} _.
Arguments str_gen_ {_} _.
Arguments storage_adapter_ {_} _.

Section loading.
  Context {A : Type} `{StorageAdapter A}.

Definition on_rng {X} (m : M rng X) : M (loader A) X := λ s,
  match m (rg_ s) with
  | Ok (x, g) => Ok (x, Build_loader g (str_gen_ s) (storage_adapter_ s))
  | Err f => Err f
  end.

(** [MakeFixedTextScalar<n>(str_gen_(n))] *)
Definition rnd_text (n : nat) : M (loader A) Scalar := λ s,
  let '(x, g) := next_string (str_gen_ s) n in
  t ← MakeFixedTextScalar (FixedTextType n) (chars x);
  Ok (t, Build_loader (rg_ s) g (storage_adapter_ s)).

(** [table.Insert(row)], the result of which is not looked at. *)
Definition insert_row (S : Schema) (row : list Scalar) : M (loader A) () := λ s,
  match Insert S row (storage_adapter_ s) with
  | Ok (_, a) => Ok ((), Build_loader (rg_ s) (str_gen_ s) a)
  | Err f => Err f
  end.

Definition LoadItem (rep_w : list Z) : M (loader A) () :=
  mfor (seqZ 1 kMaxItems) (λ id,
    name ← rnd_text 24;
    price ← on_rng (uniform 100 10000);
    data ← rnd_text 50;
    mfor rep_w (λ w_id,
      insert_row ItemSchema [MakeInt32Scalar w_id; MakeInt32Scalar id; MakeInt32Scalar id; name; MakeInt32Scalar price; data])).

Definition LoadStock (w_id : Z) : M (loader A) () :=
  mfor (seqZ 1 kMaxItems) (λ id,
    quantity ← on_rng (uniform 10 100);
    all_dist ← rnd_text 240;
    data ← rnd_text 50;
    insert_row StockSchema [MakeInt32Scalar w_id; MakeInt32Scalar id; MakeInt16Scalar quantity; all_dist;
                            MakeInt32Scalar 0; MakeInt16Scalar 0; MakeInt16Scalar 0; data]).

Definition LoadDistrict (w_id : Z) : M (loader A) () :=
  mfor (seqZ 1 kDistPerWare) (λ id,
    name ← rnd_text 10;
    address ← rnd_text 71;
    tax ← on_rng (uniform 10 20);
    insert_row DistrictSchema [MakeInt32Scalar w_id; MakeInt8Scalar id; name; address; MakeInt32Scalar tax;
                               MakeInt64Scalar 300000; MakeInt32Scalar 3001]).

  Context (from_w to_w step : Z).

Definition LoadWarehouse : M (loader A) () :=
  mfor (count_up from_w to_w step) (λ id,
    name ← rnd_text 10;
    address ← rnd_text 71;
    tax ← on_rng (uniform 10 20);
    _ ← insert_row WarehouseSchema [MakeInt32Scalar id; name; address; MakeInt32Scalar tax; MakeInt64Scalar 300000000];
    _ ← LoadStock id;
    LoadDistrict id).

Definition LoadCustomer : M (loader A) () :=
  mfor (count_up from_w to_w step) (λ w_id,
    mfor (seqZ 1 kDistPerWare) (λ d_id,
      mfor (seqZ 1 kCustPerDist) (λ id,
        full_name ← rnd_text 34;
        address ← rnd_text 71;
        phone ← rnd_text 16;
        good ← on_rng (bernoulli (1 # 2));
        credit ← lift (MakeFixedTextScalar (FixedTextType 2) (chars (if (good : bool) then "GC" else "BC")));
        discount ← on_rng (uniform 0 50);
        data ← rnd_text 250;
        _ ← insert_row CustomerSchema [MakeInt32Scalar w_id; MakeInt8Scalar d_id; MakeInt32Scalar id; full_name; address;
              phone; MakeInt64Scalar 1234567890; credit; MakeInt64Scalar 50000; MakeInt32Scalar discount;
              MakeInt64Scalar (-10); MakeInt64Scalar 100; MakeInt16Scalar 1; MakeInt16Scalar 0; data];
        h_data ← rnd_text 24;
        insert_row HistorySchema [MakeInt32Scalar w_id; MakeInt8Scalar d_id; MakeInt32Scalar id; MakeInt32Scalar 1;
          MakeInt8Scalar d_id; MakeInt32Scalar w_id; MakeInt64Scalar 1234567890; MakeInt32Scalar 100; h_data]))).

Definition LoadOrder : M (loader A) () :=
  mfor (count_up from_w to_w step) (λ w_id,
    mfor (seqZ 1 kDistPerWare) (λ d_id,
      cust_id ← on_rng (shuffle (seqZ 1 kCustPerDist));
      mfor (seqZ 1 kOrdPerDist) (λ id,
        c_id ← lift (at_index cust_id (Z.to_nat (id - 1)));
        carrier ← (if decide (2100 < id)%Z then mret 0%Z else on_rng (uniform 1 10));
        _ ← insert_row OrderSchema [MakeInt32Scalar w_id; MakeInt8Scalar d_id; MakeInt32Scalar id; MakeInt32Scalar c_id;
              MakeInt64Scalar 1234567890; MakeInt8Scalar carrier; MakeInt8Scalar (Z.of_nat kLinePerOrder); MakeInt8Scalar 1];
        _ ← (if decide (2100 < id)%Z
             then insert_row NewOrderSchema [MakeInt32Scalar w_id; MakeInt8Scalar d_id; MakeInt32Scalar id; MakeInt8Scalar 0]
             else mret ());
        mfor (seqZ 1 (Z.of_nat kLinePerOrder)) (λ ol_id,
          item ← on_rng (uniform 1 kMaxItems);
          dist_info ← rnd_text 24;
          insert_row OrderLineSchema [MakeInt32Scalar w_id; MakeInt8Scalar d_id; MakeInt32Scalar id; MakeInt8Scalar ol_id;
            MakeInt32Scalar item; MakeInt32Scalar w_id; MakeInt64Scalar (if decide (2100 < id)%Z then 0 else 1234567890);
            MakeInt8Scalar 5; MakeInt32Scalar 0; dist_info])))).

Definition Load : M (loader A) () :=
  _ ← LoadWarehouse;
  _ ← LoadCustomer;
  LoadOrder.
End loading.

(** ** The threads

    [KVStorageAdapter::Insert] does the same whatever the storage holds, so the writes of a
    loader are those it makes over an adapter that collects them. The writes of the threads
    reach the storage in any order that keeps the order of each thread. *)
Definition collected := list (Key * Value).

Definition collector : StorageAdapter collected := {|
  sa_Read k := λ ws, Ok (None, ws);
  sa_Insert k x := λ ws, Ok (true, ws ++ [(k, x)]);
  sa_Update _ _ := λ _, Err (Exn "std::runtime_error: Update is unimplemented in KVStorageAdapter");
  sa_Delete _ := λ _, Err (Exn "std::runtime_error: Delete is unimplemented in KVStorageAdapter")
|}.

Section load_tables.
  (** [std::mt19937] by seed *)
  Context (engine : Z → rng).

(** The default seed of the engine, and of [RandomStringGenerator]. *)
Definition default_seed : Z := 5489.

Definition writes_of (seed str_seed : Z) (m : M (loader collected) ()) : result collected :=
  '(str_gen, _) ← MakeRandomStringGenerator 100000 (engine str_seed);
  '(_, s) ← m (Build_loader (engine seed) str_gen []);
  Ok (storage_adapter_ s).

Definition rep_warehouses (num_replicas num_partitions partition : Z) : list Z :=
  (λ i, partition + num_partitions * i + 1)%Z <$> seqZ 0 num_replicas.

(** The first warehouse of a thread and the end of its range. The numbers are those of the
    code as long as they keep within an [int] ([thread_range_int]). *)
Definition thread_range (W num_partitions partition num_threads i : Z) : Z * Z :=
  let range := (Z.quot W num_threads + 1)%Z in
  let range_start := (i * range)%Z in
  let partition_of_range_start := Z.rem range_start num_partitions in
  let distance_to_next_in_partition_key :=
    Z.rem (partition - partition_of_range_start + num_partitions) num_partitions in
  let from_key := (range_start + distance_to_next_in_partition_key)%Z in
  let to_key := Z.min ((i + 1) * range) W in
  ((from_key + 1)%Z, (to_key + 1)%Z).

(** The numbers that [thread_range] computes on its way. *)
Definition thread_range_steps (W num_partitions partition num_threads i : Z) : list Z :=
  let range := (Z.quot W num_threads + 1)%Z in
  let distance := (partition - Z.rem (i * range) num_partitions + num_partitions)%Z in
  [range; i * range; distance; i * range + Z.rem distance num_partitions + 1; (i + 1) * range;
   Z.min ((i + 1) * range) W + 1]%Z.

Lemma thread_range_int W np p nt i :
  (0 ≤ W)%Z → (0 < np)%Z → (0 ≤ p < np)%Z → (0 ≤ i < nt)%Z → (W + nt + 2 * np < 2 ^ 31)%Z →
  Forall (λ z, 0 ≤ z < 2 ^ 31)%Z (thread_range_steps W np p nt i).
Proof.
  intros HW Hnp Hp Hi Hb. unfold thread_range_steps. rewrite Z.quot_div_nonneg by lia. set (range := (W `div` nt + 1)%Z).
  assert (H0 : (0 ≤ W `div` nt)%Z) by (apply Z.div_pos; lia). assert (Hr : (nt * range ≤ W + nt)%Z).
  { unfold range. rewrite Z.mul_add_distr_l. pose proof (Z.mul_div_le W nt ltac:(lia)). lia. }
  assert (H1 : (0 ≤ i * range)%Z) by (apply Z.mul_nonneg_nonneg; lia).
  assert (H2 : ((i + 1) * range ≤ nt * range)%Z) by (apply Z.mul_le_mono_nonneg_r; lia). rewrite Z.mul_add_distr_r in H2.
  pose proof (Z.rem_bound_pos (i * range) np H1 Hnp) as H3.
  pose proof (Z.rem_bound_pos (p - Z.rem (i * range) np + np) np ltac:(lia) Hnp) as H4.
  rewrite Z.mul_add_distr_r. repeat (apply Forall_cons; split); [lia..|apply Forall_nil; done].
Qed.

Definition thread_writes (W num_partitions partition num_threads i : Z) : result collected :=
  let '(from_w, to_w) := thread_range W num_partitions partition num_threads i in
  writes_of i i (Load (H := collector) from_w to_w num_partitions).

Definition LoadTables (compute : Key → result Metadata) (W num_replicas num_partitions partition num_threads : Z)
    (st st' : Storage) : Prop :=
  ∃ items threads ws,
    writes_of default_seed 0 (LoadItem (H := collector) (rep_warehouses num_replicas num_partitions partition)) = Ok items ∧
    rmap (thread_writes W num_partitions partition num_threads) (seqZ 0 num_threads) = Ok threads ∧
    interleave threads ws ∧
    insert_all (H := KVStorageAdapter compute) true (items ++ ws) st = Ok (true, st').
End load_tables.

(** ** The warehouses of the threads *)

(** The warehouses of a partition, which the sharder and the initial metadata count from 0. *)
Definition local_warehouses (W num_partitions partition : Z) : list Z :=
  filter (λ w, (w - 1) `mod` num_partitions = partition)%Z (seqZ 1 W).

(** The threads of a partition load every warehouse of the partition once, and no other. *)
Lemma threads_cover W np p nt :
  (0 ≤ W)%Z → (0 < np)%Z → (0 ≤ p < np)%Z → (0 < nt)%Z →
  (seqZ 0 nt ≫= λ i, count_up (thread_range W np p nt i).1 (thread_range W np p nt i).2 np) = local_warehouses W np p.
Proof.
  intros HW Hnp Hp Hnt. pose proof (Z.div_pos W nt HW Hnt) as Hq.
  transitivity ((λ x, x + 1)%Z <$> filter (λ x, x `mod` np = p)%Z (seqZ 0 W)).
  - rewrite <-(pieces_cover np p W nt) by lia. apply Forall_bind_ext, Forall_seqZ. intros i Hi.
    unfold thread_range. cbn [fst snd]. rewrite Z.quot_div_nonneg by lia.
    rewrite (Z.rem_mod_nonneg (i * _)) by nia. pose proof (Z.mod_pos_bound (i * (W `div` nt + 1)) np Hnp) as Hb.
    rewrite Z.rem_mod_nonneg by lia. by rewrite count_up_shift.
  - unfold local_warehouses. change (seqZ 1 W) with (seqZ (1 + 0) W). rewrite <-fmap_add_seqZ.
    generalize (seqZ 0 W). intros l.
    induction l as [|x l IH]; [done|]. rewrite fmap_cons, !filter_cons. replace (1 + x - 1)%Z with x by lia.
    case_decide; rewrite ?fmap_cons, IH; [f_equal; lia|done].
Qed.

(** ** The rows of a loader *)

(** The primary key of a row and the columns whose contents are fixed. *)
Record shape := { sh_schema : Schema; sh_pkey : list Scalar; sh_fixed : list (nat * Scalar) }.

Definition fits_shape (sh : shape) (r : Schema * list Scalar) : Prop :=
  sh_schema sh ∈ schemas ∧ r.1 = sh_schema sh ∧ row_ok (sh_schema sh) r.2 ∧ take (kPKeySize (sh_schema sh)) r.2 = sh_pkey sh ∧
  Forall (λ p, r.2 !! p.1 = Some p.2) (sh_fixed sh).

Definition rows_writes (rows : list (Schema * list Scalar)) : collected := rows ≫= λ r, row_writes r.1 r.2.

(** Over the collecting adapter, [m] ends and writes rows of the given shapes. *)
Definition loads {X} (m : M (loader collected) X) (Q : X → Prop) (shs : list shape) : Prop :=
  ∀ s, 250 ≤ length (rnd_str_pool_ (str_gen_ s)) → ∃ x s' rows,
    m s = Ok (x, s') ∧ Q x ∧ rnd_str_pool_ (str_gen_ s') = rnd_str_pool_ (str_gen_ s) ∧
    Forall2 fits_shape shs rows ∧ storage_adapter_ s' = storage_adapter_ s ++ rows_writes rows.

Lemma loads_ret {X} (x : X) (Q : X → Prop) : Q x → loads (mret x) Q [].
Proof. intros Hx s _. exists x, s, []. split_and!; try done. by rewrite app_nil_r. Qed.

Lemma loads_bind {X Y} (m : M (loader collected) X) (k : X → M (loader collected) Y) Q R shs1 shs2 :
  loads m Q shs1 → (∀ x, Q x → loads (k x) R shs2) → loads (x ← m; k x) R (shs1 ++ shs2).
Proof.
  intros Hm Hk s Hs. destruct (Hm s Hs) as (x & s1 & rows1 & E1 & Hx & Hp1 & Hf1 & Hw1).
  destruct (Hk x Hx s1) as (y & s2 & rows2 & E2 & Hy & Hp2 & Hf2 & Hw2); [by rewrite Hp1|].
  exists y, s2, (rows1 ++ rows2). rewrite (M_bind_Ok _ _ _ _ _ E1), Hp2, Hw2, Hw1. split_and!; try done.
  - by apply Forall2_app.
  - unfold rows_writes. by rewrite bind_app, app_assoc.
Qed.

(** A computation that writes nothing comes first. *)
Lemma loads_pure {X Y} (m : M (loader collected) X) (k : X → M (loader collected) Y) Q R shs :
  loads m Q [] → (∀ x, Q x → loads (k x) R shs) → loads (x ← m; k x) R shs.
Proof. intros Hm Hk. by apply (loads_bind m k Q R [] shs). Qed.

Lemma loads_mfor {X} (l : list X) (body : X → M (loader collected) ()) (f : X → list shape) :
  (∀ x, x ∈ l → loads (body x) (λ _, True) (f x)) → loads (mfor l body) (λ _, True) (l ≫= f).
Proof.
  unfold mfor. induction l as [|x l IH]; intros Hb; [by apply loads_ret|].
  rewrite bind_cons. cbn [mfoldl]. apply (loads_bind _ _ (λ _, True)); [apply Hb; set_solver|].
  intros [] _. apply IH. intros y Hy. apply Hb. set_solver.
Qed.

Lemma loads_lift {X} (r : result X) x (Q : X → Prop) : r = Ok x → Q x → loads (lift r) Q [].
Proof. intros -> Hx. by apply loads_ret. Qed.

Lemma loads_rng {X} (m : M rng X) (Q : X → Prop) :
  (∀ g, ∃ x g', m g = Ok (x, g') ∧ Q x) → loads (on_rng m) Q [].
Proof.
  intros Hm s _. destruct (Hm (rg_ s)) as (x & g & E & Hx). exists x, (Build_loader g (str_gen_ s) (storage_adapter_ s)), [].
  unfold on_rng. rewrite E. split_and!; try done. simpl. by rewrite app_nil_r.
Qed.

Lemma loads_uniform a b : (a ≤ b)%Z → loads (on_rng (uniform a b)) (λ _, True) [].
Proof. intros Hab. apply loads_rng. intros g. unfold uniform. rewrite decide_True by done. by eexists _, _. Qed.

Lemma loads_bernoulli p : loads (on_rng (bernoulli p)) (λ _, True) [].
Proof. apply loads_rng. intros g. by eexists _, _. Qed.

Lemma shuffle_runs {X} (l : list X) g : ∃ l' g', shuffle l g = Ok (l', g') ∧ length l' = length l.
Proof.
  unfold shuffle. assert (Hgen : ∀ (ixs : list nat) (l0 : list X) (g : rng), ∃ l' g',
    mfoldl (λ l i, j ← uniform 0 (Z.of_nat i); mret (swap_at l i (Z.to_nat j))) l0 ixs g = Ok (l', g') ∧ length l' = length l0).
  { induction ixs as [|i ixs IH]; intros l0 g0; [by eexists _, _|]. cbn [mfoldl].
    erewrite M_bind_Ok; [|erewrite M_bind_Ok; [done|]; unfold uniform; rewrite decide_True by lia; done].
    edestruct IH as (l' & g' & -> & Hl). exists l', g'. split; [done|]. rewrite Hl. apply Permutation_length, swap_at_perm. }
  apply Hgen.
Qed.

(** Text of a width. *)
Definition text_of (n : nat) (s : Scalar) : Prop := scalar_type s = FixedTextType n ∧ scalar_ok s.

Lemma loads_text n : n ≤ 250 → loads (rnd_text n) (text_of n) [].
Proof.
  intros Hn s Hs. unfold rnd_text. pose proof (next_string_length (str_gen_ s) n ltac:(lia)) as Hl.
  destruct (next_string (str_gen_ s) n) as [x g] eqn:E. simpl in Hl.
  assert (Hp : rnd_str_pool_ g = rnd_str_pool_ (str_gen_ s)) by (unfold next_string in E; by injection E as _ <-).
  exists (FixedTextScalar n (chars x)), (Build_loader (rg_ s) g (storage_adapter_ s)), [].
  unfold MakeFixedTextScalar. rewrite decide_True by done. split_and!; try done. simpl. by rewrite app_nil_r.
Qed.

Lemma collect_all ok ws a : insert_all (H := collector) ok ws a = Ok (ok, a ++ ws).
Proof.
  revert ok a. induction ws as [|[k x] ws IH]; intros ok a; [by rewrite app_nil_r|].
  unfold insert_all in *. cbn [mfoldl]. erewrite M_bind_Ok; [|by erewrite M_bind_Ok]. rewrite IH.
  rewrite andb_true_r, <-app_assoc. done.
Qed.

Lemma loads_insert S row sh :
  fits_shape sh (S, row) → loads (insert_row (H := collector) S row) (λ _, True) [sh].
Proof.
  intros Hf s _. pose proof Hf as (HS & HS' & Hrow & _). simpl in HS'. subst S.
  exists (), (Build_loader (rg_ s) (str_gen_ s) (storage_adapter_ s ++ row_writes (sh_schema sh) row)), [(sh_schema sh, row)].
  unfold insert_row. rewrite Insert_writes; [|by apply schemas_wf|by apply row_ok_insertable; [apply schemas_wf|]].
  rewrite collect_all. split_and!; try done; [by constructor|].
  unfold rows_writes. cbn. by rewrite app_nil_r.
Qed.

(** *** The shapes, loop by loop *)

Definition item_shapes (rep_w : list Z) : list shape :=
  seqZ 1 kMaxItems ≫= λ id, rep_w ≫= λ w_id,
    [{| sh_schema := ItemSchema; sh_pkey := [MakeInt32Scalar w_id; MakeInt32Scalar id]; sh_fixed := [] |}].

Definition stock_shapes (w_id : Z) : list shape :=
  seqZ 1 kMaxItems ≫= λ id,
    [{| sh_schema := StockSchema; sh_pkey := [MakeInt32Scalar w_id; MakeInt32Scalar id];
        sh_fixed := [(Stock.YTD, Int32Scalar 0); (Stock.ORDER_CNT, Int16Scalar 0); (Stock.REMOTE_CNT, Int16Scalar 0)] |}].

Definition district_shapes (w_id : Z) : list shape :=
  seqZ 1 kDistPerWare ≫= λ id,
    [{| sh_schema := DistrictSchema; sh_pkey := [MakeInt32Scalar w_id; MakeInt8Scalar id];
        sh_fixed := [(District.YTD, Int64Scalar 300000); (District.NEXT_O_ID, Int32Scalar 3001)] |}].

Definition warehouse_shapes (w_id : Z) : list shape :=
  [{| sh_schema := WarehouseSchema; sh_pkey := [MakeInt32Scalar w_id];
      sh_fixed := [(Warehouse.YTD, Int64Scalar 300000000)] |}] ++ stock_shapes w_id ++ district_shapes w_id.

Definition customer_shapes (w_id : Z) : list shape :=
  seqZ 1 kDistPerWare ≫= λ d_id, seqZ 1 kCustPerDist ≫= λ id,
    [{| sh_schema := CustomerSchema; sh_pkey := [MakeInt32Scalar w_id; MakeInt8Scalar d_id; MakeInt32Scalar id];
        sh_fixed := [(Customer.BALANCE, Int64Scalar (-10)); (Customer.YTD_PAYMENT, Int64Scalar 100);
                     (Customer.PAYMENT_CNT, Int16Scalar 1); (Customer.DELIVERY_CNT, Int16Scalar 0)] |};
     {| sh_schema := HistorySchema;
        sh_pkey := [MakeInt32Scalar w_id; MakeInt8Scalar d_id; MakeInt32Scalar id; MakeInt32Scalar 1]; sh_fixed := [] |}].

Definition order_shapes (w_id : Z) : list shape :=
  seqZ 1 kDistPerWare ≫= λ d_id, seqZ 1 kOrdPerDist ≫= λ id,
    [{| sh_schema := OrderSchema; sh_pkey := [MakeInt32Scalar w_id; MakeInt8Scalar d_id; MakeInt32Scalar id];
        sh_fixed := [(Order.OL_CNT, Int8Scalar 10)] |}] ++
    (if decide (2100 < id)%Z
     then [{| sh_schema := NewOrderSchema; sh_pkey := [MakeInt32Scalar w_id; MakeInt8Scalar d_id; MakeInt32Scalar id];
              sh_fixed := [] |}] else []) ++
    (seqZ 1 (Z.of_nat kLinePerOrder) ≫= λ ol_id,
      [{| sh_schema := OrderLineSchema;
          sh_pkey := [MakeInt32Scalar w_id; MakeInt8Scalar d_id; MakeInt32Scalar id; MakeInt8Scalar ol_id];
          sh_fixed := [(OrderLine.SUPPLY_W_ID, MakeInt32Scalar w_id); (OrderLine.QUANTITY, Int8Scalar 5)] |}]).

Definition loader_shapes (ws : list Z) : list shape :=
  (ws ≫= warehouse_shapes) ++ (ws ≫= customer_shapes) ++ (ws ≫= order_shapes).

(** *** The loops write them *)

Ltac in_schemas := unfold schemas; repeat (first [apply list_elem_of_here|apply list_elem_of_further]).

Ltac row_fits :=
  split; [in_schemas|]; split; [reflexivity|]; split; [|split; [reflexivity|]];
  [split; [simpl; repeat f_equal; assumption|];
   repeat (apply List.Forall_cons || apply List.Forall_nil);
   first [apply MakeInt8Scalar_ok|apply MakeInt16Scalar_ok|apply MakeInt32Scalar_ok|apply MakeInt64Scalar_ok|assumption]
  |simpl; repeat (apply List.Forall_cons; [reflexivity|]); apply List.Forall_nil].

#[local] Hint Extern 1 (loads (on_rng (uniform _ _)) _ _) => apply loads_uniform; (lia || (unfold kMaxItems; lia)) : load.
#[local] Hint Extern 1 (loads (on_rng (bernoulli _)) _ _) => apply loads_bernoulli : load.
#[local] Hint Extern 1 (loads (rnd_text _) _ _) => apply loads_text; lia : load.

(** The next random value, or the next text. *)
Ltac rnd x := eapply loads_pure; [solve [auto with load nocore]|]; intros x _.
Ltac txt x := eapply loads_pure; [solve [auto with load nocore]|]; intros x [? ?].

Ltac insert := apply loads_insert; row_fits.

Lemma loads_LoadItem rep_w : loads (LoadItem (H := collector) rep_w) (λ _, True) (item_shapes rep_w).
Proof.
  apply loads_mfor. intros id _. txt name. rnd price. txt data. apply loads_mfor. intros w_id _. insert.
Qed.

Lemma loads_LoadStock w_id : loads (LoadStock (H := collector) w_id) (λ _, True) (stock_shapes w_id).
Proof. apply loads_mfor. intros id _. rnd qty. txt all_dist. txt data. insert. Qed.

Lemma loads_LoadDistrict w_id : loads (LoadDistrict (H := collector) w_id) (λ _, True) (district_shapes w_id).
Proof. apply loads_mfor. intros id _. txt name. txt addr. rnd tax. insert. Qed.

Lemma loads_LoadWarehouse from to step :
  loads (LoadWarehouse (H := collector) from to step) (λ _, True) (count_up from to step ≫= warehouse_shapes).
Proof.
  apply loads_mfor. intros id _. txt name. txt addr. rnd tax. unfold warehouse_shapes.
  eapply loads_bind; [insert|]. intros _ _. eapply loads_bind; [apply loads_LoadStock|]. intros _ _. apply loads_LoadDistrict.
Qed.

Lemma loads_LoadCustomer from to step :
  loads (LoadCustomer (H := collector) from to step) (λ _, True) (count_up from to step ≫= customer_shapes).
Proof.
  apply loads_mfor. intros w_id _. apply loads_mfor. intros d_id _. apply loads_mfor. intros id _.
  txt full_name. txt addr. txt phone. rnd good.
  eapply (loads_pure _ _ (text_of 2)); [destruct good; by eapply loads_lift|]. intros credit [? ?].
  rnd discount. txt data. apply (loads_bind _ _ (λ _, True) _ [_] [_]); [insert|]. intros _ _. txt h_data. insert.
Qed.

Lemma loads_LoadOrder from to step :
  loads (LoadOrder (H := collector) from to step) (λ _, True) (count_up from to step ≫= order_shapes).
Proof.
  apply loads_mfor. intros w_id _. apply loads_mfor. intros d_id _.
  eapply (loads_pure _ _ (λ l, length l = Z.to_nat kCustPerDist)).
  { apply loads_rng. intros g. destruct (shuffle_runs (seqZ 1 kCustPerDist) g) as (l & g' & E & Hl).
    exists l, g'. split; [done|]. by rewrite Hl, length_seqZ. }
  intros cust_id Hc. apply loads_mfor. intros id Hid%elem_of_seqZ.
  destruct (lookup_lt_is_Some_2 cust_id (Z.to_nat (id - 1))) as [c_id Hcid]; [unfold kOrdPerDist, kCustPerDist in *; lia|].
  eapply (loads_pure _ _ (λ _, True)); [eapply loads_lift; [by apply at_index_Some|done]|]. intros c _.
  eapply (loads_pure _ _ (λ _, True)); [destruct (decide (2100 < id)%Z); [by apply loads_ret|apply loads_uniform; lia]|]. intros carrier _.
  eapply loads_bind; [insert|]. intros _ _. eapply loads_bind.
  { destruct (decide (2100 < id)%Z); [insert|by apply loads_ret]. }
  intros _ _. apply loads_mfor. intros ol_id _. rnd item. txt info. insert.
Qed.

Lemma loads_Load from to step :
  loads (Load (H := collector) from to step) (λ _, True) (loader_shapes (count_up from to step)).
Proof.
  unfold Load, loader_shapes. eapply loads_bind; [apply loads_LoadWarehouse|]. intros _ _.
  eapply loads_bind; [apply loads_LoadCustomer|]. intros _ _. apply loads_LoadOrder.
Qed.

(** ** No row is written twice *)

Definition sh_id (sh : shape) : TableId * list Scalar := (kId (sh_schema sh), sh_pkey sh).

(** Lists whose elements carry the number of their round. *)
Lemma NoDup_bind_tag {X Y T} (tag : Y → T) (g : X → T) (f : X → list Y) l :
  (∀ x y, x ∈ l → y ∈ f x → tag y = g x) → (∀ x1 x2, x1 ∈ l → x2 ∈ l → g x1 = g x2 → x1 = x2) →
  (∀ x, x ∈ l → NoDup (f x)) → NoDup l → NoDup (l ≫= f).
Proof.
  intros Htag Hg Hf Hl. apply NoDup_bind; [|done|done]. intros x1 x2 y H1 H2 Hy1 Hy2.
  apply Hg; [done|done|]. rewrite <-(Htag x1 y), <-(Htag x2 y); done.
Qed.

Lemma int32_scalar_inj a b : int_range a → int_range b → MakeInt32Scalar a = MakeInt32Scalar b → a = b.
Proof. unfold int_range. intros Ha Hb [= E]. rewrite !wraps_id in E by lia. done. Qed.

Lemma int8_scalar_inj a b : (-128 ≤ a < 128)%Z → (-128 ≤ b < 128)%Z → MakeInt8Scalar a = MakeInt8Scalar b → a = b.
Proof. intros Ha Hb [= E]. rewrite !wraps_id in E by lia. done. Qed.

(** Column [i] of the primary key. *)
Definition tag_at (i : nat) (y : TableId * list Scalar) : option Scalar := y.2 !! i.

Lemma table_ids {X} (l : list X) (f : X → list shape) (P : TableId * list Scalar → Prop) :
  (∀ x, x ∈ l → Forall P (sh_id <$> f x)) → Forall P (sh_id <$> (l ≫= f)).
Proof.
  intros Hf. rewrite fmap_bind. apply Forall_bind, Forall_forall. exact Hf.
Qed.

(** All ids of a list satisfy a property. *)
Ltac all_ids := repeat (rewrite ?fmap_app; first
  [ apply Forall_app; split
  | apply table_ids; intros ? ?
  | apply List.Forall_cons; [try done|]
  | apply List.Forall_nil
  | case_decide ]).

Definition in_warehouse (w : Z) (y : TableId * list Scalar) : Prop := tag_at 0 y = Some (MakeInt32Scalar w).

Lemma warehouse_shapes_w w : Forall (in_warehouse w) (sh_id <$> warehouse_shapes w).
Proof. unfold warehouse_shapes, stock_shapes, district_shapes. all_ids. Qed.

Lemma customer_shapes_w w : Forall (in_warehouse w) (sh_id <$> customer_shapes w).
Proof. unfold customer_shapes. all_ids. Qed.

Lemma order_shapes_w w : Forall (in_warehouse w) (sh_id <$> order_shapes w).
Proof. unfold order_shapes. all_ids. Qed.

Lemma NoDup_loop i (mk : Z → Scalar) (f : Z → list shape) l :
  (∀ x, x ∈ l → Forall (λ y, tag_at i y = Some (mk x)) (sh_id <$> f x)) →
  (∀ a b, a ∈ l → b ∈ l → mk a = mk b → a = b) → (∀ x, x ∈ l → NoDup (sh_id <$> f x)) → NoDup l →
  NoDup (sh_id <$> (l ≫= f)).
Proof.
  intros Ht Hi Hf Hl. rewrite fmap_bind. apply (NoDup_bind_tag (tag_at i) (λ x, Some (mk x))); [|naive_solver|done|done].
  intros x y Hx Hy. specialize (Ht x Hx). rewrite Forall_forall in Ht. by apply Ht.
Qed.

Lemma int32_ids a n x y :
  (- 2 ^ 31 ≤ a)%Z → (a + n ≤ 2 ^ 31)%Z → x ∈ seqZ a n → y ∈ seqZ a n → MakeInt32Scalar x = MakeInt32Scalar y → x = y.
Proof. intros ?? Hx%elem_of_seqZ Hy%elem_of_seqZ. apply int32_scalar_inj; unfold int_range; lia. Qed.

Lemma int8_ids n x y :
  (n < 128)%Z → x ∈ seqZ 1 n → y ∈ seqZ 1 n → MakeInt8Scalar x = MakeInt8Scalar y → x = y.
Proof. intros ? Hx%elem_of_seqZ Hy%elem_of_seqZ. apply int8_scalar_inj; lia. Qed.

(** Different tables have different ids. *)
Lemma NoDup_tables (l1 l2 : list shape) (t : list TableId) :
  Forall (λ y, y.1 ∈ t) (sh_id <$> l1) → Forall (λ y, y.1 ∉ t) (sh_id <$> l2) →
  NoDup (sh_id <$> l1) → NoDup (sh_id <$> l2) → NoDup (sh_id <$> (l1 ++ l2)).
Proof.
  rewrite !Forall_forall. intros H1 H2 Hn1 Hn2. rewrite fmap_app. apply NoDup_app. split; [done|]. split; [|done].
  intros y Hy1 Hy2. by apply (H2 y Hy2), H1.
Qed.

Ltac in_table := cbn; first [apply list_elem_of_here|apply list_elem_of_further; in_table].
Ltac tables := all_ids; (in_table || (cbn; intros Hin; repeat (apply elem_of_cons in Hin as [Hin|Hin]; [discriminate Hin|]); by apply elem_of_nil in Hin)).

Lemma stock_NoDup w : NoDup (sh_id <$> stock_shapes w).
Proof.
  apply (NoDup_loop 1 MakeInt32Scalar); [intros; all_ids|intros a b; apply int32_ids; unfold kMaxItems; lia| |apply NoDup_seqZ].
  intros. apply NoDup_singleton.
Qed.

Lemma district_NoDup w : NoDup (sh_id <$> district_shapes w).
Proof.
  apply (NoDup_loop 1 MakeInt8Scalar); [intros; all_ids|intros a b; apply int8_ids; unfold kDistPerWare; lia| |apply NoDup_seqZ].
  intros. apply NoDup_singleton.
Qed.

Lemma warehouse_NoDup w : NoDup (sh_id <$> warehouse_shapes w).
Proof.
  apply (NoDup_tables _ _ [WAREHOUSE]); [tables|unfold stock_shapes, district_shapes; tables|apply NoDup_singleton|].
  apply (NoDup_tables _ _ [STOCK]); [unfold stock_shapes; tables|unfold district_shapes; tables|apply stock_NoDup|apply district_NoDup].
Qed.

Lemma customer_NoDup w : NoDup (sh_id <$> customer_shapes w).
Proof.
  apply (NoDup_loop 1 MakeInt8Scalar); [intros; all_ids|intros a b; apply int8_ids; unfold kDistPerWare; lia| |apply NoDup_seqZ].
  intros d _.
  apply (NoDup_loop 2 MakeInt32Scalar); [intros; all_ids|intros a b; apply int32_ids; unfold kCustPerDist; lia| |apply NoDup_seqZ].
  intros i _. apply (NoDup_tables [_] [_] [CUSTOMER]); [tables|tables|apply NoDup_singleton..].
Qed.

Lemma order_NoDup w : NoDup (sh_id <$> order_shapes w).
Proof.
  apply (NoDup_loop 1 MakeInt8Scalar); [intros; all_ids|intros a b; apply int8_ids; unfold kDistPerWare; lia| |apply NoDup_seqZ].
  intros d _.
  apply (NoDup_loop 2 MakeInt32Scalar); [intros; all_ids|intros a b; apply int32_ids; unfold kOrdPerDist; lia| |apply NoDup_seqZ].
  intros i _. apply (NoDup_tables [_] _ [ORDER]); [tables|tables|apply NoDup_singleton|].
  apply (NoDup_tables _ _ [NEW_ORDER]); [tables|tables|case_decide; [apply NoDup_singleton|apply NoDup_nil_2]|].
  apply (NoDup_loop 3 MakeInt8Scalar); [intros; all_ids|intros a b; apply int8_ids; unfold kLinePerOrder; lia| |apply NoDup_seqZ].
  intros. apply NoDup_singleton.
Qed.

(** The warehouses of one list of loops. *)
Lemma NoDup_warehouses (f : Z → list shape) ws :
  (∀ w, Forall (in_warehouse w) (sh_id <$> f w)) → (∀ w, NoDup (sh_id <$> f w)) → Forall int_range ws → NoDup ws →
  NoDup (sh_id <$> (ws ≫= f)).
Proof.
  intros Hw Hf Hr Hn. rewrite Forall_forall in Hr.
  apply (NoDup_loop 0 MakeInt32Scalar); [intros; apply Hw|intros a b Ha Hb; apply int32_scalar_inj; auto|done|done].
Qed.

Lemma loader_NoDup ws : Forall int_range ws → NoDup ws → NoDup (sh_id <$> loader_shapes ws).
Proof.
  intros Hr Hn. unfold loader_shapes.
  apply (NoDup_tables _ _ [WAREHOUSE; STOCK; DISTRICT]).
  - unfold warehouse_shapes, stock_shapes, district_shapes. tables.
  - unfold customer_shapes, order_shapes. tables.
  - apply NoDup_warehouses; [apply warehouse_shapes_w|apply warehouse_NoDup|done|done].
  - apply (NoDup_tables _ _ [CUSTOMER; HISTORY]).
    + unfold customer_shapes. tables.
    + unfold order_shapes. tables.
    + apply NoDup_warehouses; [apply customer_shapes_w|apply customer_NoDup|done|done].
    + apply NoDup_warehouses; [apply order_shapes_w|apply order_NoDup|done|done].
Qed.

Lemma item_NoDup rep_w : Forall int_range rep_w → NoDup rep_w → NoDup (sh_id <$> item_shapes rep_w).
Proof.
  intros Hr Hn. rewrite Forall_forall in Hr.
  apply (NoDup_loop 1 MakeInt32Scalar); [intros; all_ids|intros a b; apply int32_ids; unfold kMaxItems; lia| |apply NoDup_seqZ].
  intros i _. apply (NoDup_loop 0 MakeInt32Scalar); [intros; all_ids|intros a b Ha Hb; apply int32_scalar_inj; auto| |done].
  intros. apply NoDup_singleton.
Qed.

(** All rows of a partition. *)
Definition partition_shapes (rep_w ws : list Z) : list shape := item_shapes rep_w ++ loader_shapes ws.

Lemma partition_NoDup rep_w ws :
  Forall int_range rep_w → NoDup rep_w → Forall int_range ws → NoDup ws → NoDup (sh_id <$> partition_shapes rep_w ws).
Proof.
  intros. apply (NoDup_tables _ _ [ITEM]); [unfold item_shapes; tables| |by apply item_NoDup|by apply loader_NoDup].
  unfold loader_shapes, warehouse_shapes, stock_shapes, district_shapes, customer_shapes, order_shapes. tables.
Qed.

Lemma bind_three {X Y W} (a b c : Y → list W) (f : X → list Y) l :
  (l ≫= λ x, (f x ≫= a) ++ (f x ≫= b) ++ (f x ≫= c)) ≡ₚ ((l ≫= f) ≫= a) ++ ((l ≫= f) ≫= b) ++ ((l ≫= f) ≫= c).
Proof. induction l as [|x l IH]; [done|]. rewrite !bind_cons, IH, !bind_app. solve_Permutation. Qed.

Lemma loader_shapes_bind {X} (f : X → list Z) l : (l ≫= λ x, loader_shapes (f x)) ≡ₚ loader_shapes (l ≫= f).
Proof. apply bind_three. Qed.

(** ** The storage after loading *)

Lemma string_generator_runs n g :
  ∃ sg g', MakeRandomStringGenerator n g = Ok (sg, g') ∧ length (rnd_str_pool_ sg) = n.
Proof.
  unfold MakeRandomStringGenerator. assert (Hgen : ∀ (ixs : list nat) (l : list ascii) (g : rng), ∃ l' g',
    mfoldl (λ l _, i ← uniform 0 (Z.of_nat (length kCharacters) - 1);
                   c ← lift (at_index kCharacters (Z.to_nat i)); mret (l ++ [c])) l ixs g = Ok (l', g') ∧
    length l' = length l + length ixs).
  { induction ixs as [|i ixs IH]; intros l g0; [exists l, g0; split; [done|simpl; lia]|]. cbn [mfoldl].
    set (v := (0 + draws g0 (drawn g0) `mod` (Z.of_nat (length kCharacters) - 1 - 0 + 1))%Z).
    assert (Hv : (0 ≤ v < Z.of_nat (length kCharacters))%Z).
    { unfold v. pose proof (Z.mod_pos_bound (draws g0 (drawn g0)) (Z.of_nat (length kCharacters) - 1 - 0 + 1)).
      assert (0 < length kCharacters) by (vm_compute; lia). lia. }
    destruct (lookup_lt_is_Some_2 kCharacters (Z.to_nat v)) as [c Hc]; [lia|].
    edestruct (IH (l ++ [c])) as (l' & g' & E & Hl). exists l', g'. split; [|rewrite Hl, length_app; simpl; lia].
    erewrite M_bind_Ok; [exact E|]. erewrite M_bind_Ok; [|unfold uniform; rewrite decide_True by (vm_compute; done); done].
    erewrite M_bind_Ok; [done|]. fold v. by rewrite (at_index_Some _ _ _ Hc). }
  destruct (Hgen (seq 0 n) [] g) as (l' & g' & E & Hl). rewrite (M_bind_Ok _ _ _ _ _ E).
  eexists _, _. split; [done|]. simpl. by rewrite Hl, length_seq.
Qed.

Lemma writes_of_loads engine seed str_seed m shs :
  loads m (λ _, True) shs → ∃ rows, Forall2 fits_shape shs rows ∧ writes_of engine seed str_seed m = Ok (rows_writes rows).
Proof.
  intros Hm. unfold writes_of. destruct (string_generator_runs 100000 (engine str_seed)) as (sg & g' & -> & Hl).
  cbn [mbind result_bind]. destruct (Hm (Build_loader (engine seed) sg [])) as (x & s' & rows & -> & _ & _ & Hf & Hw).
  { simpl. rewrite Hl. apply Nat2Z.inj_le. vm_compute. discriminate. }
  exists rows. split; [done|]. cbn [mbind result_bind]. by rewrite Hw.
Qed.

Lemma rmap_exists {X Y} (f : X → result Y) (P : X → Y → Prop) l :
  (∀ x, x ∈ l → ∃ y, f x = Ok y ∧ P x y) → ∃ ys, rmap f l = Ok ys ∧ Forall2 P l ys.
Proof.
  induction l as [|x l IH]; intros Hf; [by exists []|]. destruct (Hf x) as (y & Hy & HP); [set_solver|].
  destruct IH as (ys & Hys & HPs); [intros z Hz; apply Hf; set_solver|]. exists (y :: ys). cbn [rmap].
  rewrite Hy. cbn [mbind result_bind]. rewrite Hys. split; [done|]. by constructor.
Qed.

Lemma join_rows {X} (f : X → list shape) l (wss : list collected) :
  Forall2 (λ x ws, ∃ rows, Forall2 fits_shape (f x) rows ∧ ws = rows_writes rows) l wss →
  ∃ rows, Forall2 fits_shape (l ≫= f) rows ∧ mjoin wss = rows_writes rows.
Proof.
  induction 1 as [|x ws l wss (rows & Hf & ->) _ (rows' & Hf' & Hw)]; [by exists []|]. exists (rows ++ rows').
  rewrite bind_cons. split; [by apply Forall2_app|]. unfold rows_writes in *. rewrite bind_app, <-Hw. done.
Qed.

Lemma fits_keys sh r k :
  fits_shape sh r → k ∈ (row_writes r.1 r.2).*1 →
  sh_schema sh ∈ schemas ∧ pkey_ok (sh_schema sh) (sh_pkey sh) ∧
  ∃ c, kPKeySize (sh_schema sh) ≤ c < kNumColumns (sh_schema sh) ∧ k = cell_key (sh_schema sh) (sh_pkey sh) c.
Proof.
  intros (HS & E & Hrow & <- & _) Hk. rewrite E in Hk. pose proof (schemas_wf _ HS) as Hwf. split; [done|]. split.
  - eapply typed_take; [done|]. pose proof (sw_pkey _ Hwf). lia.
  - by apply row_writes_keys; [|apply row_ok_insertable|].
Qed.

Lemma fits_NoDup sh r : fits_shape sh r → NoDup (row_writes r.1 r.2).*1.
Proof.
  intros (HS & E & Hrow & _). rewrite E. apply row_writes_keys; [done|]. apply row_ok_insertable; [by apply schemas_wf|done].
Qed.

(** Rows with different ids are stored under different keys. *)
Lemma rows_keys_NoDup shs rows :
  NoDup (sh_id <$> shs) → Forall2 fits_shape shs rows → NoDup (rows_writes rows).*1.
Proof.
  intros Hnd Hf. induction Hf as [|sh r shs rows Hr Hf IH]; [by apply NoDup_nil_2|].
  rewrite fmap_cons in Hnd. apply NoDup_cons in Hnd as [Hnin Hnd]. unfold rows_writes. rewrite bind_cons, fmap_app.
  apply NoDup_app. split; [by eapply fits_NoDup|]. split; [|by apply IH].
  intros k Hk1 Hk2. unfold rows_writes in Hk2. rewrite fmap_bind in Hk2. apply list_elem_of_bind in Hk2 as (r2 & Hk2 & Hin).
  apply list_elem_of_lookup in Hin as [i Hi]. destruct (Forall2_lookup_r _ _ _ _ _ Hf Hi) as (sh2 & Hsh2 & Hr2).
  destruct (fits_keys sh r k Hr Hk1) as (HS1 & Hp1 & c1 & Hc1 & ->).
  destruct (fits_keys sh2 r2 _ Hr2 Hk2) as (HS2 & Hp2 & c2 & Hc2 & E).
  apply cell_keys_distinct in E as (E1 & E2 & _); [|done|done|done|done|lia|lia].
  apply Hnin, list_elem_of_fmap. exists sh2. split; [unfold sh_id; by rewrite E1, E2|]. by eapply list_elem_of_lookup_2.
Qed.

(** The keys of well-formed rows start with the warehouse. *)
Lemma pkey_warehouse S p :
  S ∈ schemas → pkey_ok S p → ∃ v rest, p = Int32Scalar v :: rest ∧ (- 2 ^ 31 ≤ v < 2 ^ 31)%Z.
Proof.
  intros HS Hp. destruct (pkey_first S p (schemas_wf S HS) Hp) as (v & rest & -> & Ht & Ho).
  destruct v as [| |v| |]; try done. exists v, rest. split; [done|]. exact Ho.
Qed.

Lemma tpcc_Compute_ok nr np S p c :
  (0 < nr)%Z → (0 < np)%Z → S ∈ schemas → pkey_ok S p → ∃ m, tpcc_Compute nr np (cell_key S p c) = Ok m.
Proof.
  intros Hnr Hnp HS Hp. destruct (pkey_warehouse S p HS Hp) as (v & rest & -> & Hv). unfold tpcc_Compute.
  rewrite read_int_cell by done. rewrite decide_False by lia. by eexists.
Qed.

Lemma tpcc_partition_cell np S v rest c :
  (0 < np)%Z → (1 ≤ v < 2 ^ 31)%Z →
  tpcc_compute_partition np (cell_key S (MakeInt32Scalar v :: rest) c) = Ok ((v - 1) `mod` np)%Z.
Proof.
  intros Hnp Hv. unfold tpcc_compute_partition, MakeInt32Scalar. rewrite wraps_id by lia. rewrite read_int_cell by lia.
  by rewrite u32_small by lia.
Qed.

(** The warehouse of a row. *)
Lemma shape_warehouse f ws sh :
  (∀ w, Forall (in_warehouse w) (sh_id <$> f w)) → sh ∈ ws ≫= f →
  ∃ w, w ∈ ws ∧ in_warehouse w (sh_id sh).
Proof.
  intros Hf (w & Hsh & Hw)%list_elem_of_bind. exists w. split; [done|]. specialize (Hf w). rewrite Forall_forall in Hf.
  by apply Hf, list_elem_of_fmap_2.
Qed.

Lemma item_shapes_w rep_w sh : sh ∈ item_shapes rep_w → ∃ w, w ∈ rep_w ∧ in_warehouse w (sh_id sh).
Proof.
  intros (id & (w & Hsh & Hw)%list_elem_of_bind & _)%list_elem_of_bind. apply list_elem_of_singleton in Hsh as ->. by exists w.
Qed.

Lemma partition_shapes_w rep_w ws sh :
  sh ∈ partition_shapes rep_w ws → ∃ w, (w ∈ rep_w ∨ w ∈ ws) ∧ in_warehouse w (sh_id sh).
Proof.
  unfold partition_shapes, loader_shapes. rewrite !elem_of_app.
  intros [Hi|[Hs|[Hs|Hs]]].
  - apply item_shapes_w in Hi as (w & ? & ?). exists w. tauto.
  - apply shape_warehouse in Hs as (w & ? & ?); [|apply warehouse_shapes_w]. exists w. tauto.
  - apply shape_warehouse in Hs as (w & ? & ?); [|apply customer_shapes_w]. exists w. tauto.
  - apply shape_warehouse in Hs as (w & ? & ?); [|apply order_shapes_w]. exists w. tauto.
Qed.

Section after.
  Context (engine : Z → rng) (W nr np p nt : Z).
  Context (HW : (0 ≤ W < 2 ^ 31 - 1)%Z) (Hnr : (0 < nr)%Z) (Hnp : (0 < np)%Z) (Hp : (0 ≤ p < np)%Z) (Hnt : (0 < nt)%Z).
  Context (Hrep : (p + np * nr < 2 ^ 31)%Z).

Lemma rep_range w : w ∈ rep_warehouses nr np p → (1 ≤ w < 2 ^ 31)%Z ∧ ((w - 1) `mod` np = p)%Z.
Proof.
  intros (i & -> & Hi%elem_of_seqZ)%list_elem_of_fmap. split; [nia|].
  replace (p + np * i + 1 - 1)%Z with (p + i * np)%Z by lia. rewrite Z.mod_add by lia. by apply Z.mod_small.
Qed.

Lemma rep_NoDup : NoDup (rep_warehouses nr np p).
Proof. apply NoDup_fmap_2_strong; [|apply NoDup_seqZ]. intros x y _ _ E. nia. Qed.

Lemma local_range w : w ∈ local_warehouses W np p → (1 ≤ w < 2 ^ 31)%Z ∧ ((w - 1) `mod` np = p)%Z.
Proof. intros [Hm Hw%elem_of_seqZ]%list_elem_of_filter. split; [lia|done]. Qed.

Lemma all_NoDup : NoDup (sh_id <$> partition_shapes (rep_warehouses nr np p) (local_warehouses W np p)).
Proof.
  apply partition_NoDup.
  - apply Forall_forall. intros w [Hw _]%rep_range. unfold int_range. lia.
  - apply rep_NoDup.
  - apply Forall_forall. intros w [Hw _]%local_range. unfold int_range. lia.
  - apply NoDup_filter, NoDup_seqZ.
Qed.

(** What the loaders write, whatever the order. *)
Lemma loaded_rows :
  ∃ items threads rows,
    writes_of engine default_seed 0 (LoadItem (H := collector) (rep_warehouses nr np p)) = Ok items ∧
    rmap (thread_writes engine W np p nt) (seqZ 0 nt) = Ok threads ∧
    items ++ mjoin threads ≡ₚ rows_writes rows ∧
    Forall2 fits_shape (item_shapes (rep_warehouses nr np p) ++
      (seqZ 0 nt ≫= λ i, loader_shapes (count_up (thread_range W np p nt i).1 (thread_range W np p nt i).2 np))) rows.
Proof.
  destruct (writes_of_loads engine default_seed 0 _ _ (loads_LoadItem (rep_warehouses nr np p))) as (irows & Hif & Hiw).
  destruct (rmap_exists (thread_writes engine W np p nt)
    (λ i ws, ∃ rows, Forall2 fits_shape (loader_shapes (count_up (thread_range W np p nt i).1 (thread_range W np p nt i).2 np)) rows ∧
       ws = rows_writes rows) (seqZ 0 nt)) as (threads & Htw & Htf).
  { intros i _. unfold thread_writes. destruct (thread_range W np p nt i) as [from to]. simpl.
    destruct (writes_of_loads engine i i _ _ (loads_Load from to np)) as (rows & Hf & Hw). eexists. split; [exact Hw|]. by eexists. }
  destruct (join_rows _ _ _ Htf) as (trows & Htf' & Htw'). exists (rows_writes irows), threads, (irows ++ trows).
  split; [done|]. split; [done|]. split; [|by apply Forall2_app]. rewrite Htw'. unfold rows_writes. by rewrite bind_app.
Qed.

Lemma thread_shapes_perm :
  item_shapes (rep_warehouses nr np p) ++
    (seqZ 0 nt ≫= λ i, loader_shapes (count_up (thread_range W np p nt i).1 (thread_range W np p nt i).2 np)) ≡ₚ
  partition_shapes (rep_warehouses nr np p) (local_warehouses W np p).
Proof.
  unfold partition_shapes. apply Permutation_app; [done|]. rewrite loader_shapes_bind, threads_cover by lia. done.
Qed.

Lemma shape_partition sh c :
  sh ∈ partition_shapes (rep_warehouses nr np p) (local_warehouses W np p) →
  tpcc_compute_partition np (cell_key (sh_schema sh) (sh_pkey sh) c) = Ok p.
Proof.
  intros (w & Hw & Hin)%partition_shapes_w. unfold in_warehouse, tag_at, sh_id in Hin. simpl in Hin.
  destruct (sh_pkey sh) as [|v rest]; [done|]. injection Hin as ->.
  assert (Hr : (1 ≤ w < 2 ^ 31)%Z ∧ ((w - 1) `mod` np = p)%Z) by (destruct Hw as [?%rep_range|?%local_range]; done).
  rewrite tpcc_partition_cell by lia. by destruct Hr as [_ ->].
Qed.

(** The writes in any order give the storage of the rows. *)
Lemma store_rows shs rows ws st :
  NoDup (sh_id <$> shs) → Forall2 fits_shape shs rows → ws ≡ₚ rows_writes rows →
  ∃ st', insert_all (H := KVStorageAdapter (tpcc_Compute nr np)) true ws st = Ok (true, st') ∧
    ∀ sh, sh ∈ shs → ∃ row, fits_shape sh (sh_schema sh, row) ∧
      stored (sh_schema sh) (kv_value st') row (non_pkey_columns (sh_schema sh)).
Proof.
  intros Hnd Hf Hws. pose proof (rows_keys_NoDup _ _ Hnd Hf) as Hk.
  destruct (kv_insert_all (tpcc_Compute nr np) ws st) as (st' & Hi & Hin & _).
  { by rewrite Hws. }
  { intros k Hk'. rewrite Hws in Hk'. unfold rows_writes in Hk'. rewrite fmap_bind in Hk'.
    apply list_elem_of_bind in Hk' as (r & Hkr & [i Hr]%list_elem_of_lookup).
    destruct (Forall2_lookup_r _ _ _ _ _ Hf Hr) as (sh & _ & Hfs).
    destruct (fits_keys sh r k Hfs Hkr) as (HS & Hpk & c & _ & ->). by apply tpcc_Compute_ok. }
  exists st'. split; [done|]. intros sh [i Hsh]%list_elem_of_lookup.
  destruct (Forall2_lookup_l _ _ _ _ _ Hf Hsh) as ([S row] & Hr & Hfs). pose proof Hfs as (HS & E & Hrow & _).
  simpl in E. subst S. exists row. split; [done|]. apply inserted_stored; [done|done|]. intros k x Hkx. apply Hin.
  rewrite Hws. apply list_elem_of_bind. exists (sh_schema sh, row). split; [done|]. by eapply list_elem_of_lookup_2.
Qed.

(** C29. Loading a partition: all loaders end, and in whatever order the writes of the threads
    reach the storage they are all taken. Afterwards every row that the partition is to have
    is there: the items once per region, and the stock, districts, customers, histories,
    orders, new orders and order lines of exactly the warehouses that the sharder places in
    the partition, with their counters at the initial values; selecting the key of a row
    gives the row. *)
Theorem load_tables_complete (st : Storage) :
  (∃ items threads,
     writes_of engine default_seed 0 (LoadItem (H := collector) (rep_warehouses nr np p)) = Ok items ∧
     rmap (thread_writes engine W np p nt) (seqZ 0 nt) = Ok threads ∧
     ∀ ws, interleave threads ws →
       ∃ st', insert_all (H := KVStorageAdapter (tpcc_Compute nr np)) true (items ++ ws) st = Ok (true, st') ∧
         LoadTables engine (tpcc_Compute nr np) W nr np p nt st st') ∧
  ∀ st', LoadTables engine (tpcc_Compute nr np) W nr np p nt st st' →
    ∀ sh, sh ∈ partition_shapes (rep_warehouses nr np p) (local_warehouses W np p) →
      (∀ c, tpcc_compute_partition np (cell_key (sh_schema sh) (sh_pkey sh) c) = Ok p) ∧
      ∃ row, fits_shape sh (sh_schema sh, row) ∧
        ∀ columns, Forall (λ c, c < kNumColumns (sh_schema sh)) columns →
          columns = [] ∨ Exists (λ c, kPKeySize (sh_schema sh) ≤ c) columns →
          Select (H := KVStorageAdapter (tpcc_Compute nr np)) (sh_schema sh) (sh_pkey sh) columns st' =
            Ok (cells (sh_schema sh) row columns, st').
Proof.
  destruct loaded_rows as (items & threads & rows & Hi & Ht & Hp' & Hf).
  assert (Hnd : NoDup (sh_id <$> item_shapes (rep_warehouses nr np p) ++
    (seqZ 0 nt ≫= λ i, loader_shapes (count_up (thread_range W np p nt i).1 (thread_range W np p nt i).2 np)))).
  { rewrite thread_shapes_perm. apply all_NoDup. }
  assert (Hws : ∀ ws, interleave threads ws → items ++ ws ≡ₚ rows_writes rows).
  { intros ws Hint. rewrite <-Hp'. apply Permutation_app; [done|]. by apply interleave_perm. }
  split.
  - exists items, threads. split; [done|]. split; [done|]. intros ws Hint.
    destruct (store_rows _ _ _ st Hnd Hf (Hws ws Hint)) as (st' & Hins & _). exists st'. split; [done|].
    exists items, threads, ws. done.
  - intros st' (items' & threads' & ws & Hi' & Ht' & Hint & Hins) sh Hsh. split; [intros c; by apply shape_partition|].
    assert (items' = items) as -> by congruence. assert (threads' = threads) as -> by congruence.
    destruct (store_rows _ _ _ st Hnd Hf (Hws ws Hint)) as (st'' & Hins' & Hst).
    assert (st'' = st') as -> by congruence.
    destruct (Hst sh) as (row & Hfit & Hs); [by rewrite thread_shapes_perm|]. exists row. split; [done|].
    intros columns Hc1 Hc2. pose proof Hfit as (HS & _ & Hrow & <- & _). pose proof (schemas_wf _ HS) as Hwf.
    apply (Select_stored (H := KVStorageAdapter (tpcc_Compute nr np)) (sh_schema sh) st' (kv_value st') Hwf (λ k, eq_refl));
      [done|done|done|].
    unfold selected. case_decide; [done|]. intros c v Hc Hpk Hv. apply (Hs c v); [|done|done].
    apply elem_of_non_pkey; [done|]. rewrite Forall_forall in Hc1. split; [done|by apply Hc1].
Qed.
End after.

(** The item rows of partition [p] lie in one warehouse of every region. *)
Lemma rep_warehouse_region nr np p i item c :
  (0 < np)%Z → (0 ≤ p < np)%Z → (0 ≤ i < nr)%Z → (p + np * nr < 2 ^ 31)%Z →
  tpcc_Compute nr np (cell_key ItemSchema [MakeInt32Scalar (p + np * i + 1); item] c) = Ok (NewMetadata i).
Proof.
  intros Hnp Hp Hi Hr. assert (0 ≤ p + np * i + 1 < 2 ^ 31)%Z by nia. unfold tpcc_Compute, MakeInt32Scalar.
  rewrite wraps_id by lia. rewrite read_int_cell by lia. rewrite decide_False by lia. rewrite !u32_small by (rewrite ?u32_small; lia).
  do 2 f_equal. replace (p + np * i + 1 - 1)%Z with (p + i * np)%Z by lia. rewrite Z.div_add by lia.
  rewrite Z.div_small by lia. rewrite Z.mod_small by lia. lia.
Qed.

(** Partition 1 of two, with three threads for five warehouses. *)
Lemma load_tables_complete_witness :
  local_warehouses 5 2 1 = [2; 4]%Z ∧ rep_warehouses 2 2 1 = [2; 4]%Z ∧
  ∃ items threads,
    writes_of (λ _, {| draws := λ _, 0%Z; drawn := 0 |}) default_seed 0 (LoadItem (H := collector) (rep_warehouses 2 2 1)) = Ok items ∧
    rmap (thread_writes (λ _, {| draws := λ _, 0%Z; drawn := 0 |}) 5 2 1 3) (seqZ 0 3) = Ok threads.
Proof.
  split; [vm_compute; reflexivity|]. split; [vm_compute; reflexivity|].
  destruct (load_tables_complete (λ _, {| draws := λ _, 0%Z; drawn := 0 |}) 5 2 2 1 3
    ltac:(lia) ltac:(lia) ltac:(lia) ltac:(lia) ltac:(lia) ltac:(lia) ∅) as [(items & threads & Hi & Ht & _) _].
  exists items, threads. split; [exact Hi|exact Ht].
Defined.
