(* ===== verification/DataGen.v ===== *)
(** * The initial data of a server

    What [service/slog.cpp] puts into the storage before the modules start: the records of a
    file ([common/offline_data_reader.cpp]), the generated records of simple partitioning, or
    the tables of TPC-C, by the partitioning of the configuration. The threads that generate
    records share the storage. *)
From Stdlib Require Import Ascii.
From S2P Require Import Prelude Types StringUtils Config Sharder Execution Scalar StorageAdapter Table Tpcc Random TpccWorkload Ranges TpccLoad.

(** ** The data file *)

Record Datum := { dt_key : Key; dt_record : string; dt_master : Z }.

(** Protobuf's [CodedInputStream] over a file, and the parser of a datum. *)
Class CodedInput (I : Type) := {
  ReadVarint32 : I → option (Z * I);
  ReadVarintSizeAsInt : I → option (Z * I);
  ReadString : Z → I → option (string * I);
  ParseDatum : string → Datum
}.

Section reader.
  Context {I : Type} `{CodedInput I}.

Record OfflineDataReader := { coded_input_ : I; num_datums_ : Z; num_read_datums_ : Z }.

Definition MakeOfflineDataReader (input : I) : result OfflineDataReader :=
  match ReadVarint32 input with
  | Some (n, input) => Ok {| coded_input_ := input; num_datums_ := n; num_read_datums_ := 0 |}
  | None => Err (Fatal "Error while reading data file")
  end.

Definition HasNextDatum (r : OfflineDataReader) : bool := bool_decide (num_read_datums_ r < num_datums_ r)%Z.

Definition GetNextDatum (r : OfflineDataReader) : result (Datum * OfflineDataReader) :=
  match ReadVarintSizeAsInt (coded_input_ r) with
  | None => Err (Fatal "Error while reading data file")
  | Some (sz, input) =>
    match ReadString sz input with
    | None => Err (Fatal "Error while reading data file")
    | Some (buf, input) =>
      Ok (ParseDatum buf, {| coded_input_ := input; num_datums_ := num_datums_ r; num_read_datums_ := num_read_datums_ r + 1 |})
    end
  end.

  Context (c : Configuration).

(** The master of a datum is a [uint32_t]. *)
Definition load_datum (datum : Datum) (st : Storage) : result Storage :=
  is_local ← is_local_key (MakeSharder c) (dt_key datum);
  if negb is_local then Err (Fatal "Key does not belong to partition")
  else if decide (num_replicas c ≤ u32 (dt_master datum))%Z then Err (Fatal "Master number exceeds number of replicas")
  else Ok (Write st (dt_key datum) (MakeRecord (dt_record datum) (u32 (dt_master datum)) 0)).1.

(** The loop, with as many rounds as are allowed to it. *)
Fixpoint load_loop (fuel : nat) (r : OfflineDataReader) (st : Storage) : result Storage :=
  match fuel with
  | 0 => Err OutOfFuel
  | S fuel =>
    if HasNextDatum r then
      '(datum, r) ← GetNextDatum r;
      st ← load_datum datum st;
      load_loop fuel r st
    else Ok st
  end.

(** Without a directory, or when its file cannot be opened, the storage stays as it is. *)
Definition LoadData (file : option I) (st : Storage) : result Storage :=
  match file with
  | None => Ok st
  | Some input =>
    reader ← MakeOfflineDataReader input;
    load_loop (S (Z.to_nat (num_datums_ reader))) reader st
  end.
End reader.

(** ** Simple partitioning *)

(** What one thread starts and stops with, in [uint64_t]; [i] is a [uint32_t]. *)
Definition key_range (num_records num_partitions partition data_threads i : Z) : Z * Z :=
  let range := u64 (num_records `div` data_threads + 1) in
  let range_start := u64 (i * range) in
  let partition_of_range_start := (range_start `mod` num_partitions)%Z in
  let distance_to_next_in_partition_key :=
    (u64 (partition - partition_of_range_start + num_partitions) `mod` num_partitions)%Z in
  let from_key := u64 (range_start + distance_to_next_in_partition_key) in
  let to_key := Z.min (u64 (u32 (i + 1) * range)) num_records in
  (from_key, to_key).

Definition generate_key (compute : Key → result Metadata) (value : string) (key : Z) : result (Key * StoredRecord) :=
  m ← compute (to_string key);
  Ok (to_string key, SetMetadata m (MakeRecord value 0 0)).

Definition GenerateFn (compute : Key → result Metadata) (value : string) (num_partitions : Z) (range : Z * Z) :
    result (list (Key * StoredRecord)) :=
  rmap (generate_key compute value) (count_up range.1 range.2 num_partitions).

Definition write_record (st : Storage) (w : Key * StoredRecord) : Storage := (Write st w.1 w.2).1.

Definition GenerateSimpleData (compute : Key → result Metadata) (c : Configuration) (num_records record_size_bytes data_threads : Z)
    (st st' : Storage) : Prop :=
  let value := of_chars (replicate (Z.to_nat record_size_bytes) "a"%char) in
  data_threads ≠ 0%Z ∧
  ∃ threads ws,
    rmap (λ i, GenerateFn compute value (num_partitions c)
                 (key_range num_records (num_partitions c) (local_partition c) data_threads i)) (seqZ 0 data_threads) = Ok threads ∧
    interleave threads ws ∧
    st' = foldl write_record st ws.

(** ** The storage of a server when its modules start *)

Definition InitialStorage {I} `{CodedInput I} (engine : Z → rng) (c : Configuration) (data_threads : Z) (file : option I)
    (st : Storage) : Prop :=
  match cp_partitioning (config_ c) with
  | kSimplePartitioning num_records record_size_bytes =>
    GenerateSimpleData (simple_Compute (num_replicas c) (num_partitions c)) c num_records record_size_bytes data_threads ∅ st
  | kTpccPartitioning warehouses =>
    LoadTables engine (tpcc_Compute (num_replicas c) (num_partitions c)) warehouses (num_replicas c) (num_partitions c)
      (local_partition c) data_threads ∅ st
  | _ => LoadData c file ∅ = Ok st
  end.

(** ** The generated records *)

Lemma write_records_perm ws ws' st :
  NoDup ws.*1 → ws ≡ₚ ws' → foldl write_record st ws = foldl write_record st ws'.
Proof.
  intros Hnd Hp. revert st Hnd. induction Hp as [|w ws ws' Hp IH|w1 w2 ws|ws1 ws2 ws3 Hp1 IH1 Hp2 IH2]; intros st Hnd.
  - done.
  - rewrite fmap_cons in Hnd. apply NoDup_cons in Hnd as [_ Hnd]. by apply IH.
  - rewrite !fmap_cons in Hnd. apply NoDup_cons in Hnd as [Hn _]. cbn [foldl]. f_equal. unfold write_record, Write. simpl.
    apply insert_insert_ne. set_solver.
  - rewrite IH1 by done. apply IH2. by rewrite <-Hp1.
Qed.

Lemma write_records_lookup ws st k :
  NoDup ws.*1 →
  foldl write_record st ws !! k = match list_to_map (M := gmap string StoredRecord) ws !! k with
                                  | Some r => Some (CopyRecord r) | None => st !! k end.
Proof.
  revert st. induction ws as [|[k' r] ws IH]; intros st Hnd; [done|]. rewrite fmap_cons in Hnd.
  apply NoDup_cons in Hnd as [Hn Hnd]. cbn [foldl]. rewrite IH by done. cbn [list_to_map foldr curry].
  destruct (decide (k' = k)) as [->|Hne].
  - rewrite (not_elem_of_list_to_map_1 ws k) by done. rewrite lookup_insert_eq. unfold write_record, Write. simpl.
    by rewrite lookup_insert_eq.
  - rewrite lookup_insert_ne by done. unfold write_record, Write. simpl. by rewrite lookup_insert_ne.
Qed.

Section simple.
  Context (c : Configuration) (W size dt : Z).
Let np := num_partitions c.
Let p := local_partition c.
Let nr := num_replicas c.
  Context (HW : (0 ≤ W)%Z) (Hnp : (0 < np < 2 ^ 32)%Z) (Hp : (0 ≤ p < np)%Z) (Hnr : (0 < nr < 2 ^ 32)%Z) (Hdt : (0 < dt < 2 ^ 32)%Z).
  Context (Hfit : (W < 2 ^ 62)%Z).

Definition simple_value : string := of_chars (replicate (Z.to_nat size) "a"%char).

(** The record of a number: its region is the next one after each round of partitions. *)
Definition simple_record (n : Z) : StoredRecord :=
  {| metadata_ := NewMetadata ((n `div` np) `mod` nr)%Z; data_ := Some simple_value |}.

Lemma generate_key_ok n :
  (0 ≤ n < 2 ^ 64)%Z → generate_key (simple_Compute nr np) simple_value n = Ok (to_string n, simple_record n).
Proof.
  intros Hn. unfold generate_key, simple_Compute. rewrite stoull_to_string by done. cbn [mbind result_bind].
  rewrite decide_False by lia. cbn [mbind result_bind]. pose proof (Z.mod_pos_bound (n `div` np) nr ltac:(lia)).
  rewrite u32_small by lia. done.
Qed.

Lemma key_range_ok i :
  (0 ≤ i < dt)%Z →
  let r := (W `div` dt + 1)%Z in
  key_range W np p dt i = (i * r + (p - (i * r) `mod` np + np) `mod` np, Z.min ((i + 1) * r) W)%Z.
Proof.
  intros Hi r. unfold key_range. assert (Hr : (0 < r ≤ W + 1)%Z).
  { unfold r. pose proof (Z.div_pos W dt HW ltac:(lia)). pose proof (Z.div_le_upper_bound W dt W ltac:(lia) ltac:(nia)). lia. }
  assert (Hdr : (dt * r ≤ W + dt)%Z).
  { unfold r. pose proof (Z.mul_div_le W dt ltac:(lia)). nia. }
  assert (Hu : ∀ z, (0 ≤ z < 2 ^ 64)%Z → u64 z = z) by (intros z Hz; unfold wrapu; by rewrite Z.mod_small).
  fold r. rewrite (Hu r) by lia. rewrite (Hu (i * r)%Z) by nia.
  pose proof (Z.mod_pos_bound (i * r) np ltac:(lia)) as Hm. rewrite (Hu (p - _ + np)%Z) by lia.
  pose proof (Z.mod_pos_bound (p - (i * r) `mod` np + np) np ltac:(lia)) as Hm2.
  rewrite (Hu (i * r + _)%Z) by nia. rewrite u32_small by lia. rewrite Hu by nia. done.
Qed.

Definition local_keys : list Z := filter (λ n, n `mod` np = p)%Z (seqZ 0 W).

Lemma count_up_elem from to step n : (0 < step)%Z → n ∈ count_up from to step → (from ≤ n < to)%Z.
Proof.
  intros Hs (i & -> & Hi%elem_of_seq)%list_elem_of_fmap.
  assert (Z.of_nat i ≤ (to - from - 1) `div` step)%Z as Hb.
  { replace (to - from + step - 1)%Z with ((to - from - 1) + 1 * step)%Z in Hi by lia. rewrite Z.div_add in Hi by lia. lia. }
  pose proof (Z.mul_div_le (to - from - 1) step Hs). nia.
Qed.

Lemma thread_keys i :
  (0 ≤ i < dt)%Z →
  GenerateFn (simple_Compute nr np) simple_value np (key_range W np p dt i) =
    Ok ((λ n, (to_string n, simple_record n)) <$> count_up (key_range W np p dt i).1 (key_range W np p dt i).2 np).
Proof.
  intros Hi. unfold GenerateFn. apply rmap_ok. intros n Hn%count_up_elem; [|lia]. apply generate_key_ok.
  rewrite key_range_ok in Hn by done. cbn [fst snd] in Hn.
  pose proof (Z.mod_pos_bound (p - (i * (W `div` dt + 1)) `mod` np + np) np ltac:(lia)).
  pose proof (Z.div_pos W dt HW ltac:(lia)). assert (0 ≤ i * (W `div` dt + 1))%Z by nia. lia.
Qed.

Lemma all_threads_keys :
  ∃ threads, rmap (λ i, GenerateFn (simple_Compute nr np) simple_value np (key_range W np p dt i)) (seqZ 0 dt) = Ok threads ∧
    mjoin threads = (λ n, (to_string n, simple_record n)) <$> local_keys.
Proof.
  exists ((λ i, (λ n, (to_string n, simple_record n)) <$> count_up (key_range W np p dt i).1 (key_range W np p dt i).2 np) <$> seqZ 0 dt).
  split. { apply rmap_ok. intros i Hi%elem_of_seqZ. apply thread_keys. lia. }
  unfold local_keys. rewrite <-(pieces_cover np p W dt (λ n, (to_string n, simple_record n))) by lia.
  rewrite list_join_bind, list_fmap_bind. apply Forall_bind_ext, Forall_seqZ. intros i Hi. cbn [compose].
  by rewrite key_range_ok by lia.
Qed.

Lemma local_key_strings : NoDup ((λ n, (to_string n, simple_record n)) <$> local_keys).*1.
Proof.
  rewrite <-list_fmap_compose. apply NoDup_fmap_2_strong; [|apply NoDup_filter, NoDup_seqZ].
  intros a b [_ Ha%elem_of_seqZ]%list_elem_of_filter [_ Hb%elem_of_seqZ]%list_elem_of_filter E.
  apply to_string_inj; [lia|lia|exact E].
Qed.

(** The storage that every interleaving leaves. *)
Lemma generated_storage st' :
  GenerateSimpleData (simple_Compute nr np) c W size dt ∅ st' →
  st' = foldl write_record ∅ ((λ n, (to_string n, simple_record n)) <$> local_keys).
Proof.
  intros (_ & threads & ws & Ht & Hi & ->). destruct all_threads_keys as (threads' & Ht' & Hj).
  assert (threads = threads') as -> by (unfold np, p, nr, simple_value in *; congruence).
  apply interleave_perm in Hi. rewrite Hj in Hi. apply write_records_perm; [|done]. rewrite Hi. apply local_key_strings.
Qed.

Lemma generated_lookup st' k r :
  GenerateSimpleData (simple_Compute nr np) c W size dt ∅ st' →
  st' !! k = Some r ↔ ∃ n, (0 ≤ n < W)%Z ∧ (n `mod` np)%Z = p ∧ k = to_string n ∧ r = simple_record n.
Proof.
  intros ->%generated_storage. rewrite write_records_lookup by apply local_key_strings.
  rewrite lookup_empty. destruct (list_to_map _ !! k) as [r'|] eqn:E.
  - apply elem_of_list_to_map in E; [|apply local_key_strings].
    apply list_elem_of_fmap in E as (n & [= -> ->] & [Hm Hn%elem_of_seqZ]%list_elem_of_filter). split.
    + intros [= <-]. exists n. split; [lia|]. done.
    + intros (n' & Hn' & _ & Heq & ->). apply to_string_inj in Heq as ->; [done|lia|lia].
  - apply not_elem_of_list_to_map in E. split; [done|]. intros (n & Hn & Hm & -> & ->). exfalso. apply E.
    rewrite <-list_fmap_compose. apply list_elem_of_fmap. exists n. split; [done|]. apply list_elem_of_filter.
    split; [done|]. apply elem_of_seqZ. lia.
Qed.

Lemma simple_partition_of n : (0 ≤ n < 2 ^ 63)%Z → simple_compute_partition np (to_string n) = Ok (n `mod` np)%Z.
Proof.
  intros Hn. unfold simple_compute_partition. rewrite to_string_unsigned, stoll_to_string by lia. cbn [mbind result_bind].
  rewrite Z.rem_mod_nonneg by lia. pose proof (Z.mod_pos_bound n np ltac:(lia)). by rewrite u32_small by lia.
Qed.
End simple.

(** C39. The generated data of simple partitioning, whatever the interleaving of its threads:
    the storage holds the numbers below the configured count that the sharder places in the
    partition, and nothing else; each has the value of the configured size, and its home goes
    round the regions. Every order of the threads' writes leads there. *)
Theorem simple_data_complete (c : Configuration) (W size dt : Z) :
  cp_partitioning (config_ c) = kSimplePartitioning W size →
  (0 < num_partitions c < 2 ^ 32)%Z → (0 ≤ local_partition c < num_partitions c)%Z → (0 < num_replicas c < 2 ^ 32)%Z →
  (0 < dt < 2 ^ 32)%Z → (0 ≤ W < 2 ^ 62)%Z →
  let compute := simple_Compute (num_replicas c) (num_partitions c) in
  (∃ st, GenerateSimpleData compute c W size dt ∅ st) ∧
  ∀ st k r, GenerateSimpleData compute c W size dt ∅ st →
    st !! k = Some r ↔
    ∃ n, (0 ≤ n < W)%Z ∧ k = to_string n ∧ compute_partition (MakeSharder c) k = Ok (local_partition c) ∧
         data_ r = Some (of_chars (replicate (Z.to_nat size) "a"%char)) ∧
         metadata_ r = NewMetadata ((n `div` num_partitions c) `mod` num_replicas c)%Z.
Proof.
  intros Hc Hnp Hp Hnr Hdt HW compute. split.
  - destruct (all_threads_keys c W size dt) as (threads & Ht & Hj); [lia..|]. eexists. split; [lia|].
    exists threads, (mjoin threads). split; [exact Ht|]. split; [apply interleave_exists|done].
  - intros st k r Hst. rewrite (generated_lookup c W size dt) by (lia || done).
    assert (Hs : ∀ n, (0 ≤ n < W)%Z → compute_partition (MakeSharder c) (to_string n) = Ok (n `mod` num_partitions c)%Z).
    { intros n Hn. unfold compute_partition, MakeSharder. rewrite Hc. cbn [sh_kind sh_num_partitions].
      apply simple_partition_of; lia. }
    split; intros (n & Hn & H').
    + destruct H' as (Hm & -> & ->). exists n. rewrite Hs by done. split; [done|]. split; [done|]. split; [by f_equal|]. done.
    + destruct H' as (-> & Hpart & Hd & Hmeta). exists n. rewrite Hs in Hpart by done. split; [done|].
      split; [congruence|]. split; [done|]. destruct r as [m d]. simpl in Hd, Hmeta. by subst.
Qed.

(** ** Every initial record is local *)

Lemma load_datum_local c datum st st' :
  load_datum c datum st = Ok st' →
  ∀ k r, st' !! k = Some r → st !! k = Some r ∨ (is_local_key (MakeSharder c) k = Ok true ∧ (0 ≤ md_master (metadata_ r) < num_replicas c)%Z).
Proof.
  unfold load_datum. destruct (is_local_key (MakeSharder c) (dt_key datum)) as [b|] eqn:E; [|done]. cbn [mbind result_bind].
  destruct b; [|done]. cbn [negb]. case_decide; [done|]. intros [= <-] k r. unfold Write. simpl. rewrite lookup_insert.
  destruct (decide (dt_key datum = k)) as [<-|]; [|by left]. intros [= <-]. right. split; [done|]. simpl.
  pose proof (Z.mod_pos_bound (dt_master datum) (2 ^ 32) ltac:(lia)). unfold wrapu in *. lia.
Qed.

Lemma load_loop_local {I} `{CodedInput I} c fuel r st st' :
  load_loop c fuel r st = Ok st' →
  ∀ k x, st' !! k = Some x → st !! k = Some x ∨ (is_local_key (MakeSharder c) k = Ok true ∧ (0 ≤ md_master (metadata_ x) < num_replicas c)%Z).
Proof.
  revert r st. induction fuel as [|fuel IH]; intros r st; [done|]. cbn [load_loop].
  destruct (HasNextDatum r); [|intros [= <-]; by left]. destruct (GetNextDatum r) as [[datum r']|]; [|done]. cbn [mbind result_bind].
  destruct (load_datum c datum st) as [st1|] eqn:E; [|done]. cbn [mbind result_bind]. intros Hl k x Hx.
  destruct (IH _ _ Hl k x Hx) as [Hx1|?]; [|by right]. by eapply load_datum_local.
Qed.

Lemma kv_insert_metadata compute ws st st' ok :
  insert_all (H := KVStorageAdapter compute) ok ws st = Ok (true, st') →
  ∀ k r, st' !! k = Some r → st !! k = Some r ∨ (k ∈ ws.*1 ∧ compute k = Ok (metadata_ r)).
Proof.
  revert st ok. induction ws as [|[k x] ws IH]; intros st ok; [intros [= _ <-]; by left|].
  unfold insert_all. cbn [mfoldl]. unfold mbind at 1, M_bind at 1. unfold mbind at 1, M_bind at 1. simpl. unfold kvs_Insert.
  destruct (compute k) as [m|] eqn:E; [|done]. cbn [mbind result_bind]. intros Hi k' r Hr.
  destruct (IH _ _ Hi k' r Hr) as [Hs|[? ?]]; [|right; split; [set_solver|done]].
  unfold Write in Hs. simpl in Hs. rewrite lookup_insert in Hs. destruct (decide (k = k')) as [<-|]; [|by left].
  right. split; [set_solver|]. injection Hs as <-. done.
Qed.

Lemma load_tables_local engine W nr np p nt st :
  (0 ≤ W < 2 ^ 31 - 1)%Z → (0 < nr)%Z → (0 < np)%Z → (0 ≤ p < np)%Z → (0 < nt)%Z → (p + np * nr < 2 ^ 31)%Z →
  LoadTables engine (tpcc_Compute nr np) W nr np p nt ∅ st →
  ∀ k r, st !! k = Some r → tpcc_compute_partition np k = Ok p ∧ tpcc_Compute nr np k = Ok (metadata_ r).
Proof.
  intros HW Hnr Hnp Hp Hnt Hrep (items & threads & ws & Hi & Ht & Hint & Hins) k r Hk.
  destruct (kv_insert_metadata _ _ _ _ _ Hins k r Hk) as [Hk'|[Hin Hc]]; [by rewrite lookup_empty in Hk'|].
  split; [|done]. destruct (loaded_rows engine W nr np p nt) as (items' & threads' & rows & Hi' & Ht' & Hperm & Hf).
  assert (items' = items) as -> by congruence. assert (threads' = threads) as -> by congruence.
  rewrite (interleave_perm _ _ Hint), Hperm in Hin. unfold rows_writes in Hin. rewrite fmap_bind in Hin.
  apply list_elem_of_bind in Hin as (row & Hin & [j Hj]%list_elem_of_lookup).
  destruct (Forall2_lookup_r _ _ _ _ _ Hf Hj) as (sh & Hsh & Hfit). apply list_elem_of_lookup_2 in Hsh.
  destruct (fits_keys sh row k Hfit Hin) as (_ & _ & col & _ & ->).
  apply (shape_partition W nr np p); [lia..|]. by rewrite <-(thread_shapes_perm W nr np p nt) by lia.
Qed.

(** Counts that the initial data can have. *)
Definition data_fits (c : Configuration) : Prop :=
  match cp_partitioning (config_ c) with
  | kSimplePartitioning num_records _ => (0 ≤ num_records < 2 ^ 62)%Z
  | kTpccPartitioning warehouses =>
    (0 ≤ warehouses < 2 ^ 31 - 1)%Z ∧ (local_partition c + num_partitions c * num_replicas c < 2 ^ 31)%Z
  | _ => True
  end.

(** C30. However the storage of a server is filled at its start, from a file, with simple
    data or with the tables of TPC-C, every key in it is one that the sharder places in the
    partition of the server, and every record has one of the regions as its master. The counts
    of the configuration are such that the numbers of the loaders keep within their types
    ([data_fits]). *)
Theorem initial_storage_local {I} `{CodedInput I} (engine : Z → rng) (c : Configuration) (dt : Z) (file : option I) (st : Storage) :
  (0 < num_partitions c < 2 ^ 32)%Z → (0 ≤ local_partition c < num_partitions c)%Z → (0 < num_replicas c < 2 ^ 32)%Z →
  (0 < dt < 2 ^ 31)%Z → data_fits c → InitialStorage engine c dt file st →
  ∀ k r, st !! k = Some r → is_local_key (MakeSharder c) k = Ok true ∧ (0 ≤ md_master (metadata_ r) < num_replicas c)%Z.
Proof.
  intros Hnp Hp Hnr Hdt Hfits Hst k r Hk. unfold InitialStorage, data_fits in *.
  assert (Hfile : LoadData c file ∅ = Ok st →
    is_local_key (MakeSharder c) k = Ok true ∧ (0 ≤ md_master (metadata_ r) < num_replicas c)%Z).
  { unfold LoadData. destruct file as [input|]; [|intros [= <-]; by rewrite lookup_empty in Hk].
    destruct (MakeOfflineDataReader input) as [reader|]; [|done]. cbn [mbind result_bind]. intros Hl.
    destruct (load_loop_local _ _ _ _ _ Hl k r Hk) as [Hk'|?]; [by rewrite lookup_empty in Hk'|done]. }
  destruct (cp_partitioning (config_ c)) as [|n|num_records size|warehouses] eqn:Ec; [by apply Hfile|by apply Hfile| |].
  - apply (generated_lookup c num_records size dt) in Hk as (n & Hn & Hm & -> & ->); [|lia..|done].
    split; [|simpl; apply Z.mod_pos_bound; lia]. unfold is_local_key, compute_partition, MakeSharder. rewrite Ec.
    cbn [sh_kind sh_num_partitions sh_local_partition]. rewrite simple_partition_of by lia. cbn [mbind result_bind].
    by rewrite bool_decide_true.
  - destruct Hfits as [HW Hrep].
    destruct (load_tables_local engine warehouses (num_replicas c) (num_partitions c) (local_partition c) dt st
      HW ltac:(lia) ltac:(lia) Hp ltac:(lia) Hrep Hst k r Hk) as [Hpart Hcomp]. split.
    + unfold is_local_key, compute_partition, MakeSharder. rewrite Ec. cbn [sh_kind sh_num_partitions sh_local_partition].
      rewrite Hpart. cbn [mbind result_bind]. by rewrite bool_decide_true.
    + unfold tpcc_Compute in Hcomp. destruct (read_int (chars k)) as [w|]; [|done]. case_decide; [done|].
      injection Hcomp as <-. simpl. apply Z.mod_pos_bound. lia.
Qed.

(** Reading a file ends: the rounds allowed to it are enough. *)
Lemma load_loop_ends {I} `{CodedInput I} c fuel r st :
  (num_datums_ r - num_read_datums_ r < Z.of_nat fuel)%Z → (num_read_datums_ r ≤ num_datums_ r)%Z →
  (∀ k, is_local_key (MakeSharder c) k ≠ Err OutOfFuel) →
  load_loop c fuel r st ≠ Err OutOfFuel.
Proof.
  intros Hf Hr Hk. revert r st Hf Hr. induction fuel as [|fuel IH]; intros r st Hf Hr; cbn [load_loop]; [lia|].
  unfold HasNextDatum. case_bool_decide as Hn; [|done]. unfold GetNextDatum.
  destruct (ReadVarintSizeAsInt (coded_input_ r)) as [[sz input]|]; [|done].
  destruct (ReadString sz input) as [[buf input']|]; [|done]. cbn [mbind result_bind].
  destruct (load_datum c (ParseDatum buf) st) as [st1|f] eqn:E; cbn [mbind result_bind].
  - apply IH; simpl; lia.
  - intros [= ->]. revert E. unfold load_datum. pose proof (Hk (dt_key (ParseDatum buf))) as Hne.
    destruct (is_local_key (MakeSharder c) (dt_key (ParseDatum buf))) as [b|f]; cbn [mbind result_bind]; [|congruence].
    destruct b; [|done]. cbn [negb]. by case_decide.
Qed.

Lemma is_local_key_fuel sh k : is_local_key sh k ≠ Err OutOfFuel.
Proof.
  unfold is_local_key, compute_partition, simple_compute_partition, stoll, tpcc_compute_partition.
  destruct (sh_kind sh); [done| |].
  - destruct (parse_integer (chars k)) as [[neg m]|]; [|done]. by case_decide.
  - by destruct (read_int (chars k)).
Qed.

Lemma LoadData_ends {I} `{CodedInput I} c file st :
  (∀ i n i', ReadVarint32 i = Some (n, i') → (0 ≤ n)%Z) → LoadData c file st ≠ Err OutOfFuel.
Proof.
  intros Hn. unfold LoadData, MakeOfflineDataReader. destruct file as [input|]; [|done].
  destruct (ReadVarint32 input) as [[n input']|] eqn:E; [|done]. cbn [mbind result_bind]. specialize (Hn _ _ _ E).
  apply load_loop_ends; cbn [num_datums_ num_read_datums_]; [lia|lia|intros; apply is_local_key_fuel].
Qed.

(** ** Examples *)

(** A file of keys, each with the same value and master. *)
Definition key_file : CodedInput (list string) := {|
  ReadVarint32 l := Some (Z.of_nat (length l), l);
  ReadVarintSizeAsInt l := match l with [] => None | s :: _ => Some (Z.of_nat (String.length s), l) end;
  ReadString _ l := match l with [] => None | s :: l => Some (s, l) end;
  ParseDatum s := {| dt_key := s; dt_record := "v"; dt_master := 1 |}
|}.

Definition example_storage : Storage := {["a" := MakeRecord "v" 1 0; "c" := MakeRecord "v" 1 0]}.

Lemma initial_storage_local_witness :
  LoadData (H := key_file) example_config (Some ["a"; "c"]) ∅ = Ok example_storage ∧
  ∀ k r, example_storage !! k = Some r → is_local_key (MakeSharder example_config) k = Ok true ∧ (0 ≤ md_master (metadata_ r) < 2)%Z.
Proof.
  assert (Hl : LoadData (H := key_file) example_config (Some ["a"; "c"]) ∅ = Ok example_storage) by (vm_compute; reflexivity).
  split; [exact Hl|].
  apply (initial_storage_local (H := key_file) (λ _, {| draws := λ _, 0%Z; drawn := 0 |}) example_config 3 (Some ["a"; "c"])).
  - vm_compute. split; reflexivity.
  - vm_compute. split; [discriminate|reflexivity].
  - vm_compute. split; reflexivity.
  - split; reflexivity.
  - exact I.
  - exact Hl.
Defined.

(** Ten records over the second of two partitions. *)
Definition simple_config : Configuration :=
  {| config_ := {| cp_protocol := "tcp"; cp_replicas := cp_replicas example_proto; cp_broker_ports := [];
       cp_server_port := 0; cp_forwarder_port := 0; cp_sequencer_port := 0; cp_num_partitions := 2;
       cp_partitioning := kSimplePartitioning 10 3; cp_num_workers := 0; cp_mh_orderer_batch_duration := 1;
       cp_forwarder_batch_duration := 1; cp_sequencer_batch_duration := 0; cp_sequencer_batch_size := 0;
       cp_sequencer_rrr := false; cp_replication_factor := 1; cp_replication_order := []; cp_delay_pct := 0;
       cp_delay_amount_ms := 0; cp_enabled_events := []; cp_bypass_mh_orderer := false; cp_cpu_pinnings := [];
       cp_return_dummy_txn := false; cp_recv_retries := 0; cp_execution_type := KEY_VALUE;
       cp_synchronized_batching := false; cp_sample_rate := 100; cp_broker_rcvbuf := 0; cp_long_sender_sndbuf := 0 |};
     local_address_ := "b1"; local_replica_ := 1; local_partition_ := 1;
     all_addresses_ := ["a0"; "a1"; "b0"; "b1"]; replication_order_ := [] |}.

Lemma simple_data_complete_witness :
  ∃ st, GenerateSimpleData (simple_Compute 2 2) simple_config 10 3 3 ∅ st ∧
    st !! "7" = Some {| metadata_ := NewMetadata 1; data_ := Some "aaa" |}.
Proof.
  destruct (simple_data_complete simple_config 10 3 3) as [[st Hst] Hlook].
  - reflexivity.
  - vm_compute. split; reflexivity.
  - vm_compute. split; [discriminate|reflexivity].
  - vm_compute. split; reflexivity.
  - split; reflexivity.
  - split; [discriminate|reflexivity].
  - exists st. split; [exact Hst|]. apply (Hlook st "7"); [exact Hst|]. exists 7%Z.
    split; [split; [discriminate|reflexivity]|]. vm_compute. repeat split.
Defined.
