(* ===== verification/Metrics.v ===== *)
(** * Event metrics

    [common/metrics.cpp] and [common/metrics.h]: which transaction events are recorded, the
    samples that each thread keeps of them, and the files they are flushed to with
    [common/csv_writer.cpp]. Times are arguments; a file is the text that is written to it. *)
From Stdlib Require Import Ascii.
From S2P Require Import Prelude Types Config TxnText Report Random.

(** ** [CSVWriter] *)

Record CSVWriter := { line_items_ : nat; num_columns_ : nat; file_ : string; delim_ : string }.

(** [opened] tells whether the file could be opened. The header is always separated by
    commas. *)
Definition MakeCSVWriter (opened : bool) (columns : list string) (delimiter : string) : result CSVWriter :=
  match columns with
  | [] => Err (Exn "There must be at least one column")
  | col :: cols =>
    if opened then
      Ok {| line_items_ := 0; num_columns_ := length columns;
            file_ := cat ([col] ++ (cols ≫= λ c, [","; c]) ++ [nl]); delim_ := delimiter |}
    else Err (Exn "Cannot open file")
  end.

Definition IncrementLineItemsAndCheck (w : CSVWriter) : result CSVWriter :=
  let n := S (line_items_ w) in
  if decide (num_columns_ w < n) then Err (Exn "Number of items exceeds number of columns")
  else Ok {| line_items_ := n; num_columns_ := num_columns_ w; file_ := file_ w; delim_ := delim_ w |}.

Definition write_text (text : string) (w : CSVWriter) : CSVWriter :=
  {| line_items_ := line_items_ w; num_columns_ := num_columns_ w; file_ := (file_ w +:+ text)%string; delim_ := delim_ w |}.

Definition AppendDelim (w : CSVWriter) : CSVWriter := if decide (1 < line_items_ w) then write_text (delim_ w) w else w.

Definition csv_item (val : string) (w : CSVWriter) : result CSVWriter :=
  w ← IncrementLineItemsAndCheck w; Ok (write_text val (AppendDelim w)).

Definition csvendl (w : CSVWriter) : result CSVWriter :=
  if decide (line_items_ w ≠ num_columns_ w) then Err (Exn "Number of items must match number of columns")
  else Ok {| line_items_ := 0; num_columns_ := num_columns_ w; file_ := (file_ w +:+ nl)%string; delim_ := delim_ w |}.

Definition csv_row (vals : list string) (w : CSVWriter) : result CSVWriter :=
  w ← rfoldl (λ w v, csv_item v w) w vals; csvendl w.

(** What the rows of a file look like. *)
Fixpoint joined (delim : string) (vals : list string) : string :=
  match vals with
  | [] => EmptyString
  | v :: vals => match vals with [] => v | _ => (v +:+ delim +:+ joined delim vals)%string end
  end.

Definition csv_line (delim : string) (vals : list string) : string := (joined delim vals +:+ nl)%string.

Definition csv_file (columns : list string) (rows : list (list string)) : string := cat (csv_line "," <$> columns :: rows).

Lemma append_empty_r s : (s +:+ EmptyString)%string = s.
Proof. induction s as [|c s IH]; [done|]. change (String c (s +:+ EmptyString)%string = String c s). by rewrite IH. Qed.

Lemma cat_cons s l : cat (s :: l) = (s +:+ cat l)%string.
Proof. done. Qed.

Lemma cat_app l1 l2 : cat (l1 ++ l2) = (cat l1 +:+ cat l2)%string.
Proof. induction l1 as [|s l1 IH]; [done|]. cbn [app]. by rewrite !cat_cons, IH, (assoc_L String.append). Qed.

Lemma joined_cons delim v vals : joined delim (v :: vals) = (v +:+ cat (vals ≫= λ v, [delim; v]))%string.
Proof.
  revert v. induction vals as [|v' vals IH]; intros v; [by rewrite append_empty_r|].
  change (joined delim (v :: v' :: vals)) with (v +:+ delim +:+ joined delim (v' :: vals))%string.
  rewrite IH, bind_cons. cbn [app]. by rewrite !cat_cons.
Qed.

Lemma MakeCSVWriter_spec columns delim :
  columns ≠ [] →
  MakeCSVWriter true columns delim =
    Ok {| line_items_ := 0; num_columns_ := length columns; file_ := csv_file columns []; delim_ := delim |}.
Proof.
  destruct columns as [|c cs]; [done|]. intros _. unfold MakeCSVWriter, csv_file, csv_line. cbn [fmap list_fmap].
  do 2 f_equal. rewrite joined_cons, app_assoc, cat_app. cbn [app]. by rewrite !cat_cons, !(assoc_L String.append).
Qed.

(** The items after the first one of a line. *)
Lemma csv_items vals w :
  0 < line_items_ w → line_items_ w + length vals ≤ num_columns_ w →
  rfoldl (λ w v, csv_item v w) w vals =
    Ok {| line_items_ := line_items_ w + length vals; num_columns_ := num_columns_ w;
          file_ := (file_ w +:+ cat (vals ≫= λ v, [delim_ w; v]))%string; delim_ := delim_ w |}.
Proof.
  revert w. induction vals as [|v vals IH]; intros w Hn Hlen.
  { destruct w. simpl. by rewrite Nat.add_0_r, append_empty_r. }
  cbn [rfoldl]. simpl in Hlen. unfold csv_item at 2, IncrementLineItemsAndCheck. rewrite decide_False by lia.
  cbn [mbind result_bind]. unfold AppendDelim. cbn [line_items_]. rewrite decide_True by lia.
  rewrite IH; [|simpl; lia..]. cbn [line_items_ num_columns_ file_ delim_ write_text length]. do 2 f_equal; [lia|].
  rewrite bind_cons. cbn [app]. by rewrite !cat_cons, !(assoc_L String.append).
Qed.

Lemma csv_row_spec vals w :
  line_items_ w = 0 → length vals = num_columns_ w → vals ≠ [] →
  csv_row vals w = Ok {| line_items_ := 0; num_columns_ := num_columns_ w;
                         file_ := (file_ w +:+ csv_line (delim_ w) vals)%string; delim_ := delim_ w |}.
Proof.
  destruct vals as [|v vals]; [done|]. intros Hn Hlen _. unfold csv_row. cbn [rfoldl].
  unfold csv_item at 2, IncrementLineItemsAndCheck. simpl in Hlen. rewrite decide_False by lia. cbn [mbind result_bind].
  unfold AppendDelim. cbn [line_items_]. rewrite decide_False by lia.
  rewrite csv_items; [|simpl; lia..]. cbn [line_items_ num_columns_ file_ delim_ write_text mbind result_bind].
  unfold csvendl. cbn [line_items_ num_columns_ file_ delim_]. rewrite decide_False by lia.
  do 2 f_equal. unfold csv_line. by rewrite joined_cons, !(assoc_L String.append).
Qed.

Lemma csv_file_rows {A} columns (row : A → list string) l :
  (csv_file columns [] +:+ cat (csv_line "," ∘ row <$> l))%string = csv_file columns (row <$> l).
Proof.
  unfold csv_file. rewrite !fmap_cons, !cat_cons. cbn [fmap list_fmap cat foldr]. rewrite append_empty_r.
  by rewrite <-list_fmap_compose.
Qed.

(** Rows of the right size are all written. *)
Lemma csv_rows {A} (row : A → list string) l w :
  line_items_ w = 0 → num_columns_ w ≠ 0 → (∀ x, length (row x) = num_columns_ w) →
  rfoldl (λ w x, csv_row (row x) w) w l =
    Ok {| line_items_ := 0; num_columns_ := num_columns_ w;
          file_ := (file_ w +:+ cat (csv_line (delim_ w) ∘ row <$> l))%string; delim_ := delim_ w |}.
Proof.
  intros H0 Hc Hrow. revert w H0 Hc Hrow. induction l as [|x l IH]; intros w H0 Hc Hrow.
  { destruct w as [n k f d]. simpl in *. subst n. by rewrite append_empty_r. }
  cbn [rfoldl]. rewrite csv_row_spec; [|done|done|]. 2: { intros E. specialize (Hrow x). rewrite E in Hrow. simpl in Hrow. lia. }
  cbn [mbind result_bind]. rewrite IH; [|done..]. cbn [num_columns_ file_ delim_]. do 2 f_equal.
  rewrite fmap_cons, cat_cons. by rewrite (assoc_L String.append).
Qed.

(** ** Which events are recorded *)

(** The numbers of [proto/transaction.proto]. *)
Definition event_num (e : TransactionEvent) : nat :=
  match e with
  | ALL => 0 | ENTER_SERVER => 1 | EXIT_SERVER_TO_FORWARDER => 2 | ENTER_FORWARDER => 3
  | EXIT_FORWARDER_TO_SEQUENCER => 4 | EXIT_FORWARDER_TO_MULTI_HOME_ORDERER => 5
  | ENTER_MULTI_HOME_ORDERER => 6 | ENTER_MULTI_HOME_ORDERER_IN_BATCH => 7
  | EXIT_MULTI_HOME_ORDERER_IN_BATCH => 8 | EXIT_MULTI_HOME_ORDERER => 9
  | ENTER_SEQUENCER => 10 | ENTER_SEQUENCER_IN_BATCH => 11 | EXIT_SEQUENCER_IN_BATCH => 12
  | ENTER_INTERLEAVER_IN_BATCH => 13 | EXIT_INTERLEAVER => 14
  | ENTER_SCHEDULER => 15 | ENTER_SCHEDULER_LO => 16 | ENTER_LOCK_MANAGER => 17
  | DISPATCHED => 18 | DISPATCHED_FAST => 19 | DISPATCHED_SLOW => 20
  | ENTER_WORKER => 21 | EXIT_WORKER => 22 | RETURN_TO_SERVER => 23 | EXIT_SERVER_TO_CLIENT => 24
  end.

Definition num_events : nat := 25.

(** The loop over the configured events, from the value that [gEnabledEvents] had. *)
Fixpoint enable_events (enabled : Z) (events : list TransactionEvent) : Z :=
  match events with
  | [] => enabled
  | e :: events =>
    if decide (e = ALL) then (2 ^ 64 - 1)%Z
    else enable_events (Z.lor enabled (Z.shiftl 1 (Z.of_nat (event_num e)))) events
  end.

(** The globals [gLocalMachineId] and [gEnabledEvents]. *)
Record recording := { gLocalMachineId : Z; gEnabledEvents : Z }.

Definition InitializeRecording (c : Configuration) (g : recording) : recording :=
  {| gLocalMachineId := local_machine_id c; gEnabledEvents := enable_events (gEnabledEvents g) (cp_enabled_events (config_ c)) |}.

Definition event_enabled (enabled : Z) (e : TransactionEvent) : bool :=
  negb (bool_decide (Z.land (Z.shiftr enabled (Z.of_nat (event_num e))) 1 = 0%Z)).

(** ** Samples *)

Definition kSampleMaskSize : nat := 256.

Record Data := { d_event : TransactionEvent; d_time : Z; d_partition : Z; d_replica : Z }.

Record TransactionEventMetrics := {
  sample_mask_ : list bool;
  local_replica_ : Z;
  local_partition_ : Z;
  sample_count_ : list Z;
  txn_events_ : list Data
}.

Definition MakeTransactionEventMetrics (mask : list bool) (replica partition : Z) : TransactionEventMetrics :=
  {| sample_mask_ := mask; local_replica_ := replica; local_partition_ := partition;
     sample_count_ := replicate num_events 0%Z; txn_events_ := [] |}.

Definition RecordEvent (event : TransactionEvent) (now : Z) (m : TransactionEventMetrics) : result TransactionEventMetrics :=
  match sample_count_ m !! event_num event with
  | None => Err (Undef "sample_count_[sample_index]")
  | Some n =>
    match sample_mask_ m !! Z.to_nat n with
    | None => Err (Undef "sample_mask_[...]")
    | Some sampled =>
      Ok {| sample_mask_ := sample_mask_ m; local_replica_ := local_replica_ m; local_partition_ := local_partition_ m;
            sample_count_ := <[event_num event := u8 (n + 1)]> (sample_count_ m);
            txn_events_ := if (sampled : bool)
              then txn_events_ m ++ [{| d_event := event; d_time := now; d_partition := local_partition_ m; d_replica := local_replica_ m |}]
              else txn_events_ m |}
    end
  end.

(** ** The manager of the threads' metrics *)

Record MetricsRepositoryManager := {
  config_name_ : string;
  mm_config : Configuration;
  mm_mask : list bool;
  metrics_repos_ : gmap nat TransactionEventMetrics
}.

(** The first positions of the mask are set and then shuffled. *)
Definition MakeMetricsRepositoryManager (config_name : string) (c : Configuration) : M rng MetricsRepositoryManager :=
  let n := Z.to_nat (u32 (cp_sample_rate (config_ c) * Z.of_nat kSampleMaskSize) `div` 100) in
  if decide (kSampleMaskSize < n) then lift (Err (Undef "sample_mask_[i]"))
  else
    mask ← shuffle (replicate n true ++ replicate (kSampleMaskSize - n) false);
    mret {| config_name_ := config_name; mm_config := c; mm_mask := mask; metrics_repos_ := ∅ |}.

Definition new_metrics (m : MetricsRepositoryManager) : TransactionEventMetrics :=
  MakeTransactionEventMetrics (mm_mask m) (Config.local_replica (mm_config m)) (Config.local_partition (mm_config m)).

Definition set_repos (repos : gmap nat TransactionEventMetrics) (m : MetricsRepositoryManager) : MetricsRepositoryManager :=
  {| config_name_ := config_name_ m; mm_config := mm_config m; mm_mask := mm_mask m; metrics_repos_ := repos |}.

(** [try_emplace] keeps the metrics of a thread that registers again. *)
Definition RegisterCurrentThread (thread : nat) (m : MetricsRepositoryManager) : MetricsRepositoryManager :=
  match metrics_repos_ m !! thread with
  | Some _ => m
  | None => set_repos (<[thread := new_metrics m]> (metrics_repos_ m)) m
  end.

(** [RecordTxnEvent] on the repository of a thread; one that has not registered keeps
    nothing. *)
Definition record_on (thread : nat) (event : TransactionEvent) (now : Z) (m : MetricsRepositoryManager) :
    result MetricsRepositoryManager :=
  match metrics_repos_ m !! thread with
  | None => Ok m
  | Some r => r ← RecordEvent event now r; Ok (set_repos (<[thread := r]> (metrics_repos_ m)) m)
  end.

(** The template [RecordTxnEvent]: the events of the transaction, if there is one, and the
    metrics of the thread. *)
Definition RecordTxnEvent (g : recording) (events : option (list TransactionEventInfo)) (thread : nat)
    (event : TransactionEvent) (now now' : Z) (m : MetricsRepositoryManager) :
    result (option (list TransactionEventInfo) * MetricsRepositoryManager) :=
  if negb (event_enabled (gEnabledEvents g) event) then Ok (events, m)
  else
    let events := (λ es, es ++ [{| ev_event := event; ev_time := now; ev_machine := i32 (gLocalMachineId g); ev_home := -1 |}]) <$> events in
    m ← record_on thread event now' m;
    Ok (events, m).

Definition data_row (d : Data) : list string :=
  [event_name (d_event d); int_str (d_time d); to_string (d_partition d); to_string (d_replica d)].

Section flush.
  Context `{!MapVisit nat}.

(** The data of all threads, whose metrics start over. *)
Definition reset_all (m : MetricsRepositoryManager) : list Data * MetricsRepositoryManager :=
  (visit_map (metrics_repos_ m) ≫= λ kv, txn_events_ kv.2, set_repos ((λ _, new_metrics m) <$> metrics_repos_ m) m).

(** What is in the files afterwards, as far as they were written; an exception is caught and
    logged. *)
Definition AggregateAndFlushToDisk (version : string) (metadata_opens events_opens : bool) (m : MetricsRepositoryManager) :
    list Data * option string * option string * MetricsRepositoryManager :=
  match MakeCSVWriter metadata_opens ["version"; "config_name"] "," ≫= λ w, csv_item version w ≫= csv_item (config_name_ m) with
  | Err _ => ([], None, None, m)
  | Ok metadata_csv =>
    match MakeCSVWriter events_opens ["event"; "time"; "partition"; "replica"] "," with
    | Err _ => ([], Some (file_ metadata_csv), None, m)
    | Ok txn_events_csv =>
      let '(txn_events_data, m) := reset_all m in
      match rfoldl (λ w d, csv_row (data_row d) w) txn_events_csv txn_events_data with
      | Ok txn_events_csv => (txn_events_data, Some (file_ metadata_csv), Some (file_ txn_events_csv), m)
      | Err _ => (txn_events_data, Some (file_ metadata_csv), None, m)
      end
    end
  end.
End flush.

(** ** Properties of the mask and of the enabled events *)

Lemma event_enabled_testbit enabled e : event_enabled enabled e = Z.testbit enabled (Z.of_nat (event_num e)).
Proof.
  unfold event_enabled. change 1%Z with (Z.ones 1). rewrite Z.land_ones, Zmod_odd by lia.
  rewrite Z.testbit_odd. by destruct (Z.odd _).
Qed.

Lemma event_num_inj : Inj (=) (=) event_num.
Proof. intros [] [] H; done. Qed.

Lemma event_num_lt e : event_num e < num_events.
Proof. destruct e; unfold num_events; simpl; lia. Qed.

Lemma enable_events_spec events enabled e :
  event_enabled (enable_events enabled events) e = true ↔ event_enabled enabled e = true ∨ ALL ∈ events ∨ e ∈ events.
Proof.
  revert enabled. induction events as [|e' events IH]; intros enabled; cbn [enable_events]; [set_solver|].
  case_decide as Hd.
  - subst. rewrite event_enabled_testbit. change (2 ^ 64 - 1)%Z with (Z.ones 64). rewrite Z.ones_spec_low; [set_solver|].
    pose proof (event_num_lt e). unfold num_events in *. lia.
  - rewrite IH, !event_enabled_testbit, Z.lor_spec, Z.shiftl_spec, orb_true_iff by lia.
    assert (Hb : Z.testbit 1 (Z.of_nat (event_num e) - Z.of_nat (event_num e')) = true ↔ e = e').
    { split; [|intros ->; by rewrite Z.sub_diag]. intros H. apply event_num_inj.
      destruct (decide (Z.of_nat (event_num e) - Z.of_nat (event_num e') = 0)%Z); [lia|].
      destruct (decide (Z.of_nat (event_num e) - Z.of_nat (event_num e') < 0)%Z);
        [by rewrite Z.testbit_neg_r in H|by rewrite Z.bits_above_log2 in H by (simpl; lia)]. }
    rewrite Hb, !elem_of_cons. naive_solver.
Qed.

(** A transaction carries exactly the events that the configuration enables. *)
Lemma RecordTxnEvent_enabled c es thread e now now' m events m' :
  let g := InitializeRecording c {| gLocalMachineId := 0; gEnabledEvents := 0 |} in
  let enabled := cp_enabled_events (config_ c) in
  RecordTxnEvent g (Some es) thread e now now' m = Ok (events, m') →
  events = Some (if decide (ALL ∈ enabled ∨ e ∈ enabled)
    then es ++ [{| ev_event := e; ev_time := now; ev_machine := i32 (local_machine_id c); ev_home := -1 |}] else es).
Proof.
  intros g enabled. unfold RecordTxnEvent.
  assert (Hen : event_enabled (gEnabledEvents g) e = bool_decide (ALL ∈ enabled ∨ e ∈ enabled)).
  { apply eq_true_iff_eq. rewrite bool_decide_eq_true. unfold g. simpl. rewrite enable_events_spec, event_enabled_testbit, Z.bits_0.
    naive_solver. }
  rewrite Hen. case_bool_decide; simpl; [|intros [= <- <-]; by rewrite decide_False].
  destruct (record_on thread e now' m); [|done]. intros [= <- <-]. by rewrite decide_True.
Qed.

(** ** Sampling

    The counter of an event goes round the mask, so that a part of the records of the event
    is kept that depends only on how many there are. *)

Definition masked (mask : list bool) (j : nat) : bool := default false (mask !! (j `mod` length mask)).

Definition sampled (mask : list bool) (c k : nat) : nat := length (filter (λ j, masked mask j = true) (seq c k)).

Lemma sampled_S mask c k : sampled mask c (S k) = (if masked mask c then 1 else 0) + sampled mask (S c) k.
Proof. unfold sampled. rewrite <-cons_seq, filter_cons. destruct (masked mask c); by simpl. Qed.

Lemma sampled_ext mask c c' k : (∀ j, masked mask (c + j) = masked mask (c' + j)) → sampled mask c k = sampled mask c' k.
Proof.
  revert c c'. induction k as [|k IH]; intros c c' H; [done|]. rewrite !sampled_S. f_equal.
  - specialize (H 0). rewrite !Nat.add_0_r in H. by rewrite H.
  - apply IH. intros j. specialize (H (S j)). by rewrite !Nat.add_succ_r in H.
Qed.

Lemma sampled_add mask c a b : sampled mask c (a + b) = sampled mask c a + sampled mask (c + a) b.
Proof. unfold sampled. by rewrite seq_app, filter_app, length_app. Qed.

Lemma masked_wrap mask j : masked mask (j + length mask) = masked mask j.
Proof.
  unfold masked. destruct mask as [|b mask]; [done|].
  rewrite <-(Nat.mul_1_l (length (b :: mask))) at 1. rewrite Nat.Div0.mod_add. done.
Qed.

Lemma sampled_round mask c : sampled mask c (length mask) = length (filter (λ b, b = true) mask).
Proof.
  induction c as [|c IH].
  - unfold sampled.
    assert (Hgen : ∀ pre l, mask = pre ++ l →
      length (filter (λ j, masked mask j = true) (seq (length pre) (length l))) = length (filter (λ b, b = true) l)).
    { intros pre l. revert pre. induction l as [|b l IH]; intros pre E; [done|]. cbn [length seq].
      rewrite !filter_cons. specialize (IH (pre ++ [b])). rewrite length_app, <-assoc in IH by apply _. cbn [length] in IH.
      rewrite Nat.add_1_r in IH. specialize (IH E).
      assert (Hm : masked mask (length pre) = b).
      { unfold masked. rewrite Nat.mod_small by (rewrite E, length_app; simpl; lia).
        by rewrite E, lookup_app_r, Nat.sub_diag by lia. }
      rewrite Hm. destruct b; simpl; by rewrite IH. }
    by apply (Hgen []).
  - pose proof (sampled_S mask c (length mask)) as H1. pose proof (sampled_add mask c (length mask) 1) as H2.
    rewrite Nat.add_1_r in H2. rewrite (sampled_S mask _ 0), masked_wrap in H2.
    change (sampled mask (S (c + length mask)) 0) with 0 in H2. lia.
Qed.

Lemma sampled_rounds mask c k : sampled mask c (k * length mask) = k * length (filter (λ b, b = true) mask).
Proof.
  revert c. induction k as [|k IH]; intros c; [done|]. simpl. by rewrite sampled_add, sampled_round, IH.
Qed.

Record metrics_ok (mask : list bool) (m : TransactionEventMetrics) : Prop := {
  ok_mask : sample_mask_ m = mask;
  ok_size : length mask = kSampleMaskSize;
  ok_counters : length (sample_count_ m) = num_events;
  ok_counts : Forall (λ n, 0 ≤ n < 256)%Z (sample_count_ m)
}.

Lemma MakeTransactionEventMetrics_ok mask r p :
  length mask = kSampleMaskSize → metrics_ok mask (MakeTransactionEventMetrics mask r p).
Proof. intros H. constructor; [done|done|done|]. by apply Forall_replicate. Qed.

Definition counter (m : TransactionEventMetrics) (e : TransactionEvent) : nat :=
  Z.to_nat (default 0%Z (sample_count_ m !! event_num e)).

Definition data_of (m : TransactionEventMetrics) (x : TransactionEvent * Z) : Data :=
  {| d_event := x.1; d_time := x.2; d_partition := local_partition_ m; d_replica := local_replica_ m |}.

Lemma RecordEvent_spec mask e now m :
  metrics_ok mask m →
  ∃ m', RecordEvent e now m = Ok m' ∧ metrics_ok mask m' ∧
    (∀ x, data_of m' x = data_of m x) ∧
    (∀ e', e' ≠ e → counter m' e' = counter m e') ∧
    (∀ k, masked mask (counter m' e + k) = masked mask (S (counter m e) + k)) ∧
    txn_events_ m' = txn_events_ m ++ (if masked mask (counter m e) then [data_of m (e, now)] else []).
Proof.
  intros [<- Hs Hn Hc]. unfold RecordEvent.
  destruct (lookup_lt_is_Some_2 (sample_count_ m) (event_num e)) as [n En]; [rewrite Hn; apply event_num_lt|].
  pose proof (proj1 (Forall_lookup _ _) Hc _ _ En) as Hr. simpl in Hr.
  destruct (lookup_lt_is_Some_2 (sample_mask_ m) (Z.to_nat n)) as [b Eb]; [rewrite Hs; unfold kSampleMaskSize; lia|].
  rewrite En, Eb. eexists. split; [done|].
  assert (Hm : masked (sample_mask_ m) (counter m e) = b).
  { unfold masked, counter. rewrite En. simpl. rewrite Nat.mod_small by (rewrite Hs; unfold kSampleMaskSize; lia). by rewrite Eb. }
  split; [|split; [done|split; [|split]]].
  - constructor; simpl; [done|done|by rewrite length_insert|].
    apply Forall_insert; [done|]. unfold wrapu. change (2 ^ 8)%Z with 256%Z. apply Z.mod_pos_bound. lia.
  - intros e' He. unfold counter. simpl. rewrite list_lookup_insert_ne; [done|]. intros H%event_num_inj. done.
  - intros k. unfold masked, counter. simpl. rewrite list_lookup_insert_eq by (rewrite Hn; apply event_num_lt).
    rewrite En. simpl. rewrite Hs. f_equal. f_equal. unfold wrapu, kSampleMaskSize. change (2 ^ 8)%Z with 256%Z.
    rewrite Z2Nat.inj_mod by lia. change (Z.to_nat 256) with 256. rewrite Nat.Div0.add_mod_idemp_l. f_equal. lia.
  - rewrite Hm. simpl. destruct b; [done|by rewrite app_nil_r].
Qed.

(** How many records of [e] there are. *)
Definition records (e : TransactionEvent) (es : list (TransactionEvent * Z)) : nat := length (filter (λ x, x.1 = e) es).

Definition kept (e : TransactionEvent) (ds : list Data) : nat := length (filter (λ d, d_event d = e) ds).

Lemma RecordEvent_all mask es m :
  metrics_ok mask m →
  ∃ m' new, rfoldl (λ m x, RecordEvent x.1 x.2 m) m es = Ok m' ∧ metrics_ok mask m' ∧
    txn_events_ m' = txn_events_ m ++ new ∧ new `sublist_of` (data_of m <$> es) ∧
    ∀ e, kept e new = sampled mask (counter m e) (records e es).
Proof.
  revert m. induction es as [|[e now] es IH]; intros m Hok.
  { exists m, []. by rewrite app_nil_r. }
  destruct (RecordEvent_spec mask e now m Hok) as (m1 & E1 & Hok1 & Hd & Hne & Hc & Ht).
  destruct (IH m1 Hok1) as (m' & new & E' & Hok' & Ht' & Hsub & Hkept).
  exists m', ((if masked mask (counter m e) then [data_of m (e, now)] else []) ++ new).
  cbn [rfoldl fst snd]. rewrite E1. cbn [mbind result_bind]. rewrite E'. split; [done|]. split; [done|].
  split; [by rewrite Ht', Ht, assoc by apply _|]. split.
  - rewrite fmap_cons. rewrite (list_fmap_ext _ (data_of m)) in Hsub by (intros; apply Hd).
    destruct (masked mask (counter m e)); simpl; by constructor.
  - intros e'. unfold kept. rewrite filter_app, length_app. change (length (filter _ new)) with (kept e' new). rewrite Hkept.
    unfold records. rewrite filter_cons. simpl. case_decide as He.
    + subst e'. cbn [length]. rewrite sampled_S. f_equal.
      * destruct (masked mask (counter m e)); [|done]. by rewrite filter_cons_True.
      * by apply sampled_ext.
    + rewrite Hne by done. destruct (masked mask (counter m e)); [|done]. by rewrite filter_cons_False.
Qed.

(** ** From the records of the threads to the file *)

(** The records of a thread. *)
Definition by_thread (t : nat) (rs : list (nat * (TransactionEvent * Z))) : list (TransactionEvent * Z) :=
  snd <$> filter (λ r, r.1 = t) rs.

Definition record_all (rs : list (nat * (TransactionEvent * Z))) (m : MetricsRepositoryManager) : result MetricsRepositoryManager :=
  rfoldl (λ m r, record_on r.1 r.2.1 r.2.2 m) m rs.

Definition register_all (ts : list nat) (m : MetricsRepositoryManager) : MetricsRepositoryManager :=
  foldl (λ m t, RegisterCurrentThread t m) m ts.

Lemma record_all_spec mask rs m :
  (∀ t r, metrics_repos_ m !! t = Some r → metrics_ok mask r) →
  ∃ repos, record_all rs m = Ok (set_repos repos m) ∧
    ∀ t, match metrics_repos_ m !! t with
         | None => repos !! t = None
         | Some r => ∃ r', repos !! t = Some r' ∧ rfoldl (λ m x, RecordEvent x.1 x.2 m) r (by_thread t rs) = Ok r'
         end.
Proof.
  revert m. induction rs as [|[t [e now]] rs IH]; intros m Hok.
  { exists (metrics_repos_ m). split; [by destruct m|]. intros t. destruct (metrics_repos_ m !! t) as [r|]; [by exists r|done]. }
  unfold record_all. cbn [rfoldl fst snd].
  destruct (metrics_repos_ m !! t) as [r|] eqn:Er.
  - destruct (RecordEvent_spec mask e now r (Hok _ _ Er)) as (r1 & E1 & Hok1 & _).
    assert (record_on t e now m = Ok (set_repos (<[t:=r1]> (metrics_repos_ m)) m)) as -> by (unfold record_on; by rewrite Er, E1).
    cbn [mbind result_bind].
    destruct (IH (set_repos (<[t:=r1]> (metrics_repos_ m)) m)) as (repos & Erun & Hrepos).
    { simpl. intros t' r' [[-> ->]|[_ H]]%lookup_insert_Some; eauto. }
    exists repos. split; [exact Erun|]. intros t'. specialize (Hrepos t'). simpl in Hrepos.
    unfold by_thread. rewrite filter_cons. simpl. case_decide as Ht.
    + subst t'. rewrite lookup_insert_eq in Hrepos. rewrite Er. destruct Hrepos as (r' & Hr' & Hrun).
      exists r'. split; [done|]. cbn [fmap list_fmap rfoldl fst snd]. rewrite E1. exact Hrun.
    + rewrite lookup_insert_ne in Hrepos by done. exact Hrepos.
  - assert (record_on t e now m = Ok m) as -> by (unfold record_on; by rewrite Er).
    cbn [mbind result_bind]. destruct (IH m Hok) as (repos & Erun & Hrepos). exists repos. split; [exact Erun|].
    intros t'. specialize (Hrepos t'). unfold by_thread. rewrite filter_cons. simpl. case_decide as Ht; [|exact Hrepos].
    subst t'. by rewrite Er in *.
Qed.

Lemma register_all_spec ts m :
  ∃ repos, register_all ts m = set_repos repos m ∧
    ∀ t, repos !! t = match metrics_repos_ m !! t with
                      | Some r => Some r
                      | None => if decide (t ∈ ts) then Some (new_metrics m) else None
                      end.
Proof.
  revert m. induction ts as [|t ts IH]; intros m.
  { exists (metrics_repos_ m). split; [by destruct m|]. intros t. destruct (metrics_repos_ m !! t); [done|].
    by rewrite decide_False by set_solver. }
  unfold register_all. cbn [foldl]. destruct (IH (RegisterCurrentThread t m)) as (repos & E & Hl).
  unfold RegisterCurrentThread in *. destruct (metrics_repos_ m !! t) as [r|] eqn:Er; exists repos; (split; [exact E|]); intros t'; rewrite Hl.
  - destruct (metrics_repos_ m !! t') eqn:E'; [done|]. apply decide_ext. rewrite elem_of_cons. naive_solver congruence.
  - simpl. destruct (decide (t' = t)) as [->|Ht].
    + rewrite lookup_insert_eq, Er. by rewrite decide_True by set_solver.
    + rewrite lookup_insert_ne by done. destruct (metrics_repos_ m !! t'); [done|]. apply decide_ext. set_solver.
Qed.

Definition events_text (ds : list Data) : string := csv_file ["event"; "time"; "partition"; "replica"] (data_row <$> ds).

Lemma kept_bind {X} e (f : X → list Data) l : kept e (l ≫= f) = sum_list_with (λ x, kept e (f x)) l.
Proof.
  unfold kept. induction l as [|x l IH]; [done|]. rewrite bind_cons, filter_app, length_app, IH. done.
Qed.

Lemma sum_list_with_perm {X} (f : X → nat) l l' : l ≡ₚ l' → sum_list_with f l = sum_list_with f l'.
Proof. induction 1; simpl; lia. Qed.

Lemma sum_list_with_ext {X} (f g : X → nat) l : (∀ x, x ∈ l → f x = g x) → sum_list_with f l = sum_list_with g l.
Proof. induction l as [|x l IH]; intros H; [done|]. simpl. rewrite H, IH; set_solver. Qed.

Lemma sum_list_with_scale {X} (f : X → nat) n l : sum_list_with (λ x, f x * n) l = sum_list_with f l * n.
Proof. induction l as [|x l IH]; [done|]. simpl. rewrite IH. lia. Qed.

Lemma sum_list_with_fmap {X Y} (g : X → Y) (f : Y → nat) l : sum_list_with (λ x, f (g x)) l = sum_list_with f (g <$> l).
Proof. induction l as [|x l IH]; [done|]. simpl. by rewrite IH. Qed.

(** How many of [kSampleMaskSize] records are kept. *)
Definition sample_size (c : Configuration) : nat :=
  Z.to_nat ((cp_sample_rate (config_ c) * Z.of_nat kSampleMaskSize) `div` 100).

Lemma filter_replicate_true n (b : bool) : filter (λ b, b = true) (replicate n b) = if b then replicate n true else [].
Proof. induction n as [|n IH]; [by destruct b|]. simpl. rewrite filter_cons, IH. by destruct b. Qed.

Lemma MakeMetricsRepositoryManager_spec name c g :
  (0 ≤ cp_sample_rate (config_ c) ≤ 100)%Z → fair (draws g) →
  ∃ mask g', MakeMetricsRepositoryManager name c g =
      Ok ({| config_name_ := name; mm_config := c; mm_mask := mask; metrics_repos_ := ∅ |}, g') ∧
    length mask = kSampleMaskSize ∧ length (filter (λ b, b = true) mask) = sample_size c.
Proof.
  intros Hr Hfair. unfold MakeMetricsRepositoryManager.
  assert (Hn : (0 ≤ (cp_sample_rate (config_ c) * Z.of_nat kSampleMaskSize) `div` 100 ≤ 256)%Z).
  { unfold kSampleMaskSize. split; [apply Z.div_pos; lia|]. apply Z.div_le_upper_bound; lia. }
  assert (Hu : u32 (cp_sample_rate (config_ c) * Z.of_nat kSampleMaskSize) = (cp_sample_rate (config_ c) * Z.of_nat kSampleMaskSize)%Z).
  { apply Z.mod_small. unfold kSampleMaskSize. change (2 ^ 32)%Z with 4294967296%Z. lia. }
  rewrite Hu. fold (sample_size c). assert (Hs : sample_size c ≤ kSampleMaskSize) by (unfold sample_size, kSampleMaskSize in *; lia).
  rewrite decide_False by lia.
  destruct (gives_shuffle (replicate (sample_size c) true ++ replicate (kSampleMaskSize - sample_size c) false) g Hfair)
    as (n & mask & g' & Hrun & _ & Hp).
  exists mask, g'. split; [|split].
  - unfold mbind, M_bind in *. by rewrite (Hrun n).
  - rewrite (Permutation_length Hp), length_app, !length_replicate. lia.
  - assert (Hf : filter (λ b, b = true) mask ≡ₚ replicate (sample_size c) true).
    { rewrite Hp, filter_app, !filter_replicate_true. by rewrite app_nil_r. }
    by rewrite Hf, length_replicate.
Qed.

Section flushed.
  Context `{!MapVisit nat}.

(** What the flush writes and leaves, when the files can be opened. *)
Lemma flush_spec version m :
  let ds := visit_map (metrics_repos_ m) ≫= λ kv, txn_events_ kv.2 in
  AggregateAndFlushToDisk version true true m =
    (ds, Some (csv_file ["version"; "config_name"] [] +:+ joined "," [version; config_name_ m])%string, Some (events_text ds),
     set_repos ((λ _, new_metrics m) <$> metrics_repos_ m) m).
Proof.
  intros ds. unfold AggregateAndFlushToDisk. rewrite !MakeCSVWriter_spec by done. cbn [mbind result_bind reset_all].
  unfold reset_all. fold ds. rewrite csv_rows by done. cbn [file_ delim_]. rewrite csv_file_rows. do 3 f_equal. simpl.
  by rewrite !(assoc_L String.append).
Qed.

(** The files cannot be opened: the metrics stay for the next flush. *)
Lemma flush_not_opened version metadata_opens events_opens m :
  metadata_opens && events_opens = false →
  ∃ meta, AggregateAndFlushToDisk version metadata_opens events_opens m = ([], meta, None, m).
Proof.
  intros H. unfold AggregateAndFlushToDisk. destruct metadata_opens; [|by eexists].
  destruct events_opens; [done|]. by eexists.
Qed.

(** The threads of [repos] are [ts]. *)
Lemma visit_threads {A} (repos : gmap nat A) ts :
  NoDup ts → (∀ t, is_Some (repos !! t) ↔ t ∈ ts) → (visit_map repos).*1 ≡ₚ ts.
Proof.
  intros Hnd Ht. rewrite (visit_map_perm repos). apply NoDup_Permutation; [apply NoDup_fst_map_to_list|done|].
  intros t. rewrite <-Ht. rewrite list_elem_of_fmap. split.
  - intros ([t' r] & -> & H%elem_of_map_to_list). simpl. eauto.
  - intros [r Hr]. exists (t, r). split; [done|]. by apply elem_of_map_to_list.
Qed.

(** The metrics of the registered threads after their records: what is flushed. *)
Lemma records_flushed m ts rs mask :
  mm_mask m = mask → length mask = kSampleMaskSize → metrics_repos_ m = ∅ →
  ∃ repos1 repos, register_all ts m = set_repos repos1 m ∧
    record_all rs (register_all ts m) = Ok (set_repos repos m) ∧
    (λ _, new_metrics m) <$> repos = repos1 ∧ (∀ t, is_Some (repos !! t) ↔ t ∈ ts) ∧
    ∀ t r, repos !! t = Some r →
      txn_events_ r `sublist_of` (data_of (new_metrics m) <$> by_thread t rs) ∧
      ∀ e, kept e (txn_events_ r) = sampled mask 0 (records e (by_thread t rs)).
Proof.
  intros Hm Hs He. destruct (register_all_spec ts m) as (repos1 & E1 & H1). rewrite He in H1. setoid_rewrite lookup_empty in H1.
  assert (Hnew : metrics_ok mask (new_metrics m)) by (unfold new_metrics; rewrite Hm; by apply MakeTransactionEventMetrics_ok).
  destruct (record_all_spec mask rs (register_all ts m)) as (repos & E & H).
  { rewrite E1. simpl. intros t r. rewrite H1. case_decide; [|done]. by intros [= <-]. }
  rewrite E1 in H. simpl in H. rewrite E1 in E. exists repos1, repos. rewrite E1. split; [done|]. split; [done|]. split; [|split].
  - apply map_eq. intros t. rewrite lookup_fmap. specialize (H t). rewrite H1 in *. case_decide.
    + destruct H as (r' & -> & _). done.
    + by rewrite H.
  - intros t. specialize (H t). rewrite H1 in H. case_decide as Ht; [destruct H as (r' & -> & _); by eauto|].
    rewrite H. split; [by intros []|done].
  - intros t r Hr. specialize (H t). rewrite H1 in H. case_decide; [|congruence]. destruct H as (r' & Hr' & Hrun). simplify_eq.
    destruct (RecordEvent_all _ (by_thread t rs) _ Hnew) as (r'' & new & Hrun' & _ & Ht & Hsub & Hk).
    rewrite Hrun in Hrun'. simplify_eq. rewrite Ht. simpl. split; [done|]. intros e. rewrite Hk. f_equal.
    unfold counter, new_metrics, MakeTransactionEventMetrics. cbn [sample_count_].
    rewrite lookup_replicate_2 by apply event_num_lt. done.
Qed.

(** C27. A configured sample rate is what ends up in the files: with a rate of at most 100 the
    threads record events without fault; the flush writes one line for each event that was kept, all of
    them recorded by a registered thread, and leaves the metrics as they were when the threads
    registered; and of every 256 records of an event in a thread exactly the configured part
    is kept, whatever other events are recorded in between. *)
Theorem metrics_sampled name c g ts rs version :
  (0 ≤ cp_sample_rate (config_ c) ≤ 100)%Z → fair (draws g) → NoDup ts →
  ∃ m g' m' ds meta,
    MakeMetricsRepositoryManager name c g = Ok (m, g') ∧
    record_all rs (register_all ts m) = Ok m' ∧
    AggregateAndFlushToDisk version true true m' = (ds, meta, Some (events_text ds), register_all ts m) ∧
    (∀ d, d ∈ ds → ∃ t, t ∈ ts ∧ d_partition d = Config.local_partition c ∧ d_replica d = Config.local_replica c ∧
                        (t, (d_event d, d_time d)) ∈ rs) ∧
    ∀ e k, (∀ t, t ∈ ts → records e (by_thread t rs) = k t * kSampleMaskSize) →
           kept e ds = sum_list_with k ts * sample_size c.
Proof.
  intros Hr Hfair Hnd. destruct (MakeMetricsRepositoryManager_spec name c g Hr Hfair) as (mask & g' & E & Hs & Hc).
  set (m := Build_MetricsRepositoryManager _ _ _ _) in E. exists m, g'.
  destruct (records_flushed m ts rs mask eq_refl Hs eq_refl) as (repos1 & repos & E1 & E2 & Hreset & Hdom & Hrepos).
  eexists _, _, _. split; [exact E|]. split; [exact E2|]. split; [|split].
  - rewrite flush_spec, E1, <-Hreset. reflexivity.
  - intros d ([t r] & Hd & Hin)%list_elem_of_bind. simpl in Hd. simpl in Hin.
    rewrite (visit_map_perm repos), elem_of_map_to_list in Hin. destruct (Hrepos _ _ Hin) as [Hsub _].
    exists t. rewrite <-Hdom. split; [by eauto|]. eapply elem_of_submseteq in Hd; [|by apply sublist_submseteq].
    apply list_elem_of_fmap in Hd as ([ev now] & -> & Hrec). unfold by_thread in Hrec.
    apply list_elem_of_fmap in Hrec as ([t' x] & [= <-] & [Ht Hrec]%list_elem_of_filter). simpl in Ht. by subst t'.
  - intros e k Hk. rewrite kept_bind, <-(sum_list_with_scale k).
    rewrite <-(sum_list_with_perm _ _ _ (visit_threads repos ts Hnd Hdom)), <-sum_list_with_fmap.
    apply sum_list_with_ext. intros [t r] Hin. simpl in Hin. rewrite (visit_map_perm repos), elem_of_map_to_list in Hin. simpl.
    rewrite (proj2 (Hrepos _ _ Hin)), Hk, <-Hs, sampled_rounds, Hc; [done|]. apply Hdom. eauto.
Qed.
End flushed.

(** ** Examples *)

(** One event in four is kept. *)
Definition metrics_config : Configuration :=
  {| config_ := {| cp_protocol := "tcp"; cp_replicas := cp_replicas example_proto; cp_broker_ports := [];
       cp_server_port := 0; cp_forwarder_port := 0; cp_sequencer_port := 0; cp_num_partitions := 2;
       cp_partitioning := kHashPartitioning 1; cp_num_workers := 0; cp_mh_orderer_batch_duration := 1;
       cp_forwarder_batch_duration := 1; cp_sequencer_batch_duration := 0; cp_sequencer_batch_size := 0;
       cp_sequencer_rrr := false; cp_replication_factor := 1; cp_replication_order := []; cp_delay_pct := 0;
       cp_delay_amount_ms := 0; cp_enabled_events := []; cp_bypass_mh_orderer := false; cp_cpu_pinnings := [];
       cp_return_dummy_txn := false; cp_recv_retries := 0; cp_execution_type := KEY_VALUE;
       cp_synchronized_batching := false; cp_sample_rate := 25; cp_broker_rcvbuf := 0; cp_long_sender_sndbuf := 0 |};
     local_address_ := "b1"; Config.local_replica_ := 1; Config.local_partition_ := 1;
     all_addresses_ := ["a0"; "a1"; "b0"; "b1"]; replication_order_ := [] |}.

(** Two threads enter 256 and 512 workers. *)
Definition example_records : list (nat * (TransactionEvent * Z)) :=
  replicate 256 (3, (ENTER_WORKER, 10%Z)) ++ replicate 100 (4, (EXIT_WORKER, 11%Z)) ++ replicate 512 (4, (ENTER_WORKER, 12%Z)).

Lemma metrics_sampled_witness :
  ∃ m g m' ds meta,
    MakeMetricsRepositoryManager "slog.conf" metrics_config {| draws := square_gaps; drawn := 0 |} = Ok (m, g) ∧
    record_all example_records (register_all [3; 4] m) = Ok m' ∧
    AggregateAndFlushToDisk "1.0" true true m' = (ds, meta, Some (events_text ds), register_all [3; 4] m) ∧
    kept ENTER_WORKER ds = 192.
Proof.
  destruct (metrics_sampled "slog.conf" metrics_config {| draws := square_gaps; drawn := 0 |} [3; 4] example_records "1.0")
    as (m & g & m' & ds & meta & H1 & H2 & H3 & _ & H4).
  - split; discriminate.
  - exact square_gaps_fair.
  - apply (bool_decide_eq_true_1 _). vm_compute. reflexivity.
  - exists m, g, m', ds, meta. split; [exact H1|]. split; [exact H2|]. split; [exact H3|].
    apply (H4 ENTER_WORKER (λ t, t - 2)). intros t [-> | [-> | []%not_elem_of_nil]%elem_of_cons]%elem_of_cons; vm_compute; reflexivity.
Defined.

(** A sample rate above 100 is not refused: the constructor writes past the end of the mask. *)
Lemma sample_rate_unchecked name c g :
  (101 ≤ cp_sample_rate (config_ c) < 2 ^ 24)%Z → MakeMetricsRepositoryManager name c g = Err (Undef "sample_mask_[i]").
Proof.
  intros Hr. unfold MakeMetricsRepositoryManager, wrapu, kSampleMaskSize.
  change (2 ^ 32)%Z with 4294967296%Z. change (2 ^ 24)%Z with 16777216%Z in Hr. rewrite Z.mod_small by lia.
  assert (258 ≤ (cp_sample_rate (config_ c) * Z.of_nat 256) `div` 100)%Z by (apply Z.div_le_lower_bound; lia).
  rewrite decide_True by lia. done.
Qed.
