(* ===== verification/Results.v ===== *)
(** * The results of a benchmark

    [WriteResults] and [WriteMetadata] of [service/benchmark.cpp]: the summary of each generator,
    the sample of the transactions and of their events, and the profiles, in the files of
    [common/csv_writer.cpp]. The clock, the text of the floating-point flag [sample] and the
    product with it are arguments. *)
From Stdlib Require Import Ascii.
From stdpp Require Import sorting.
From S2P Require Import Prelude Types StringUtils Config TxnText Report Random Workload Network TxnGen Metrics.

Definition kTxnColumns : list string :=
  ["txn_id"; "coordinator"; "replicas"; "partitions"; "generator"; "global_log_pos"; "sent_at"; "received_at"].
Definition kEventsColumns : list string := ["txn_id"; "event"; "time"; "machine"; "home"].
Definition kSummaryColumns : list string :=
  ["committed"; "aborted"; "not_started"; "single_home"; "multi_home"; "single_partition"; "multi_partition"; "remaster"; "elapsed_time"].

Record ResultWriters := { rw_txns : CSVWriter; rw_events : CSVWriter; rw_summary : CSVWriter }.

Definition MakeResultWriters (txns_opens events_opens summary_opens : bool) : result ResultWriters :=
  txns ← MakeCSVWriter txns_opens kTxnColumns ",";
  events ← MakeCSVWriter events_opens kEventsColumns ",";
  summary ← MakeCSVWriter summary_opens kSummaryColumns ",";
  Ok {| rw_txns := txns; rw_events := events; rw_summary := summary |}.

Definition summary_items (s : GeneratorSummary) : list string :=
  int_str <$> [committed s; aborted s; not_started s; single_home s; multi_home s; single_partition s; multi_partition s; remaster s].

(** [Join] of numbers, with its default delimiter. *)
Definition join_numbers (l : list Z) : string := String.string_of_list_ascii (Join ((λ z, chars (int_str z)) <$> l) ";").

(** A [std::set] in its order, and a [std::map] in that of its keys. *)
Definition in_set_order (s : gset Z) : list Z := merge_sort Z.le (elements s).
Definition in_key_order {A} (m : gmap string A) : list (string * A) :=
  merge_sort (λ e1 e2, Is_true (String.leb e1.1 e2.1)) (map_to_list m).

(** The columns of a transaction. A transaction without a response has no generator id. *)
Definition txn_row (dry_run : bool) (info : TxnInfo) : result (list string) :=
  match ti_txn info with
  | None => Err (Fatal "Check failed: info.txn != nullptr")
  | Some txn =>
    let txn_internal := internal txn in
    let involved_replicas_ := join_numbers (if dry_run then in_set_order (profile_replicas (ti_profile info)) else involved_replicas txn_internal) in
    let involved_partitions_ := join_numbers (if dry_run then in_set_order (profile_partitions (ti_profile info)) else involved_partitions txn_internal) in
    let global_log_pos := if dry_run then EmptyString else join_numbers (global_log_positions txn_internal) in
    match ti_generator_id info with
    | None => Err (Undef "info.generator_id")
    | Some generator_id =>
      Ok [to_string (id txn_internal); to_string (coordinating_server txn_internal); involved_replicas_; involved_partitions_;
          int_str generator_id; global_log_pos; int_str (sent_at info); int_str (recv_at info)]
    end
  end.

Definition event_row (id : TxnId) (e : TransactionEventInfo) : list string :=
  [to_string id; event_name (ev_event e); int_str (ev_time e); int_str (ev_machine e); int_str (ev_home e)].

Definition info_events (info : TxnInfo) : list (list string) :=
  match ti_txn info with Some txn => event_row (id (internal txn)) <$> events (internal txn) | None => [] end.

Definition write_info (dry_run : bool) (ws : ResultWriters) (info : TxnInfo) : result ResultWriters :=
  row ← txn_row dry_run info;
  txns ← csv_row row (rw_txns ws);
  events ← rfoldl (λ w row, csv_row row w) (rw_events ws) (info_events info);
  Ok {| rw_txns := txns; rw_events := events; rw_summary := rw_summary ws |}.

(** ** Profiles *)

Definition kCellWidth : nat := 12.

Definition profile_line (e : string * ProfileRecord) : string :=
  (cat (setw kCellWidth <$> [e.1; to_string (pr_home e.2); to_string (pr_partition e.2); bool_str (is_hot e.2); bool_str (is_write e.2)]) +:+ nl)%string.

Definition profile_text (info : TxnInfo) : string :=
  match ti_txn info with
  | None => EmptyString
  | Some txn =>
    cat ([print_transaction txn;
          "Multi-Home: "; bool_str (is_multi_home (ti_profile info)); nl;
          "Multi-Partition: "; bool_str (is_multi_partition (ti_profile info)); nl;
          "Profile:"; nl] ++
         (setw kCellWidth <$> ["Key"; "Home"; "Partition"; "Hot"; "Write"]) ++ [nl] ++
         (profile_line <$> in_key_order (Workload.records (ti_profile info))) ++ [nl; nl])
  end.

(** ** The files of the results *)

(** The flags of the benchmark that it reports. *)
Record bench_flags := {
  f_duration : Z; f_txns : Z; f_clients : Z; f_rate : Z; f_sample : string;
  f_min_sample : Z; f_dry_run : bool; f_txn_profiles : bool
}.

(** Which of the files can be opened. *)
Record bench_files := { metadata_opens : bool; profiles_opens : bool }.

Record results := { metadata_file : string; result_files : ResultWriters; profiles_file : option string }.

Section results.
  Context {W : Type} `{!TxnWorkload W, !MapVisit string}.

  (** The name and the parameters of a workload. *)
  Context (workload_name : W → string) (workload_params : W → RawParamMap).

  (** [static_cast<size_t>(n * FLAGS_sample / 100)] *)
  Context (percent : Z → Z).

Definition WriteMetadata (f : bench_flags) (opens : bool) (w : W) : result string :=
  let param_keys := (visit_map (workload_params w)).*1 in
  csv ← MakeCSVWriter opens (["duration"; "txns"; "clients"; "rate"; "sample"; "wl:name"] ++ ((λ k, "wl:" +:+ k)%string <$> param_keys)) ",";
  csv ← rfoldl (λ csv v, csv_item v csv) csv
          [int_str (f_duration f); to_string (f_txns f); int_str (f_clients f); int_str (f_rate f); f_sample f; workload_name w];
  csv ← rfoldl (λ csv k, v ← GetString (workload_params w) k; csv_item v csv) csv param_keys;
  csv ← csvendl csv;
  Ok (file_ csv).

Definition write_summary (now : Z) (ws : ResultWriters) (g : TxnGenerator W) : result ResultWriters :=
  summary ← summarize (txns_ g);
  csv ← csv_row (summary_items summary ++ [int_str (elapsed_time now g)]) (rw_summary ws);
  Ok {| rw_txns := rw_txns ws; rw_events := rw_events ws; rw_summary := csv |}.

Definition sample_count (f : bench_flags) (n : nat) : nat :=
  Z.to_nat ((percent (Z.of_nat n) `max` u64 (f_min_sample f)) `min` Z.of_nat n).

Definition WriteResults (f : bench_flags) (files : bench_files) (now : Z) (writers : option ResultWriters) (generators : list (TxnGenerator W)) :
    M rng (option results) :=
  match writers with
  | None => mret None
  | Some ws =>
    match generators with
    | [] => lift (Err (Fatal "Check failed: !generators.empty()"))
    | generator :: _ =>
      metadata ← lift (WriteMetadata f (metadata_opens files) (workload_ generator));
      ws ← lift (rfoldl (write_summary now) ws generators);
      txn_infos ← shuffle (generators ≫= λ g, txns_ g);
      let txn_infos := take (sample_count f (length txn_infos)) txn_infos in
      ws ← lift (rfoldl (write_info (f_dry_run f)) ws txn_infos);
      profiles ← lift (if f_txn_profiles f then
                         if profiles_opens files then Ok (Some (cat (profile_text <$> txn_infos))) else Err (Exn "Cannot open file")
                       else Ok None);
      mret (Some {| metadata_file := metadata; result_files := ws; profiles_file := profiles |})
    end
  end.
End results.

(** ** What the files hold *)

Lemma MakeResultWriters_spec :
  MakeResultWriters true true true = Ok {|
    rw_txns := {| line_items_ := 0; num_columns_ := 8; file_ := csv_file kTxnColumns []; delim_ := "," |};
    rw_events := {| line_items_ := 0; num_columns_ := 5; file_ := csv_file kEventsColumns []; delim_ := "," |};
    rw_summary := {| line_items_ := 0; num_columns_ := 9; file_ := csv_file kSummaryColumns []; delim_ := "," |} |}.
Proof. unfold MakeResultWriters. rewrite !MakeCSVWriter_spec by done. done. Qed.

(** A writer between two lines. *)
Definition lines_written (columns : list string) (rows : list (list string)) : CSVWriter :=
  {| line_items_ := 0; num_columns_ := length columns; file_ := csv_file columns rows; delim_ := "," |}.

Lemma csv_row_written columns rows row :
  row ≠ [] → length row = length columns → csv_row row (lines_written columns rows) = Ok (lines_written columns (rows ++ [row])).
Proof.
  intros Hne Hlen. rewrite csv_row_spec by done. unfold lines_written. cbn [num_columns_ file_ delim_]. do 2 f_equal. unfold csv_file.
  change (columns :: rows ++ [row]) with ((columns :: rows) ++ [row]). rewrite fmap_app, cat_app. f_equal.
  cbn [fmap list_fmap]. rewrite cat_cons. by rewrite append_empty_r.
Qed.

Lemma csv_rows_written columns rows new :
  Forall (λ row, row ≠ [] ∧ length row = length columns) new →
  rfoldl (λ w row, csv_row row w) (lines_written columns rows) new = Ok (lines_written columns (rows ++ new)).
Proof.
  intros H. revert rows. induction H as [|row new [Hne Hlen] _ IH]; intros rows; [by rewrite app_nil_r|].
  cbn [rfoldl]. rewrite csv_row_written by done. cbn [mbind result_bind]. by rewrite IH, <-app_assoc.
Qed.

Definition all_written (txns events summary : list (list string)) : ResultWriters :=
  {| rw_txns := lines_written kTxnColumns txns; rw_events := lines_written kEventsColumns events;
     rw_summary := lines_written kSummaryColumns summary |}.

(** A transaction with a response. *)
Definition answered (info : TxnInfo) : Prop := is_Some (ti_txn info) ∧ is_Some (ti_generator_id info).

Lemma write_infos_written dry_run infos txns events summary :
  Forall answered infos →
  ∃ rows, rmap (txn_row dry_run) infos = Ok rows ∧
    rfoldl (write_info dry_run) (all_written txns events summary) infos =
      Ok (all_written (txns ++ rows) (events ++ (infos ≫= info_events)) summary).
Proof.
  intros H. revert txns events. induction H as [|info infos [[txn Ht] [gid Hg]] _ IH]; intros txns events.
  { exists []. by rewrite !app_nil_r. }
  destruct (txn_row dry_run info) as [row|] eqn:Erow; [|unfold txn_row in Erow; by rewrite Ht, Hg in Erow].
  assert (Hlen : length row = 8) by (unfold txn_row in Erow; rewrite Ht, Hg in Erow; by simplify_eq).
  assert (Hw : write_info dry_run (all_written txns events summary) info =
               Ok (all_written (txns ++ [row]) (events ++ info_events info) summary)).
  { unfold write_info. rewrite Erow. cbn [mbind result_bind all_written rw_txns rw_events rw_summary].
    rewrite csv_row_written by (try done; by destruct row). cbn [mbind result_bind].
    rewrite csv_rows_written; [done|]. unfold info_events. rewrite Ht. by apply Forall_fmap, Forall_true. }
  destruct (IH (txns ++ [row]) (events ++ info_events info)) as (rows & Erows & Ew).
  exists (row :: rows). cbn [rmap rfoldl]. rewrite Erow, Erows, Hw. cbn [mbind result_bind]. rewrite Ew. split; [done|].
  by rewrite bind_cons, <-!app_assoc.
Qed.

Lemma result_bind_Ok {A B} (a : A) (k : A → result B) : Ok a ≫= k = k a.
Proof. done. Qed.

Lemma param_items (params : RawParamMap) (l : list (string * string)) csv :
  (∀ e, e ∈ l → params !! e.1 = Some e.2) →
  rfoldl (λ csv k, v ← GetString params k; csv_item v csv) csv l.*1 = rfoldl (λ csv v, csv_item v csv) csv l.*2.
Proof.
  revert csv. induction l as [|e l IH]; intros csv Hin; [done|]. cbn [fmap list_fmap rfoldl].
  assert (GetString params e.1 = Ok e.2) as -> by (unfold GetString; rewrite (Hin e) by set_solver; done).
  rewrite result_bind_Ok. destruct (csv_item e.2 csv); [|done]. cbn [mbind result_bind]. apply IH. set_solver.
Qed.

Lemma summary_row_written txns events rows row :
  length row = 9 →
  (csv ← csv_row row (rw_summary (all_written txns events rows));
   Ok {| rw_txns := rw_txns (all_written txns events rows); rw_events := rw_events (all_written txns events rows); rw_summary := csv |}) =
  Ok (all_written txns events (rows ++ [row])).
Proof.
  intros Hlen. unfold all_written. cbn [rw_txns rw_events rw_summary]. by rewrite csv_row_written by (try done; by destruct row).
Qed.

Section results_written.
  Context {W : Type} `{!TxnWorkload W, !MapVisit string}.
  Context (workload_name : W → string) (workload_params : W → RawParamMap) (percent : Z → Z).

Lemma write_summary_written now (g : TxnGenerator W) txns events rows s :
  summarize (txns_ g) = Ok s →
  write_summary now (all_written txns events rows) g =
    Ok (all_written txns events (rows ++ [summary_items s ++ [int_str (elapsed_time now g)]])).
Proof. intros Es. unfold write_summary. rewrite Es, result_bind_Ok. by apply summary_row_written. Qed.

Lemma write_summaries_written now (gens : list (TxnGenerator W)) txns events rows :
  Forall (λ g, Forall answered (txns_ g)) gens →
  ∃ ss, Forall2 (λ g s, summarize (txns_ g) = Ok s ∧
                        (committed s + aborted s + not_started s = Z.of_nat (length (txns_ g)))%Z) gens ss ∧
    rfoldl (write_summary now) (all_written txns events rows) gens =
      Ok (all_written txns events (rows ++ zip_with (λ g s, summary_items s ++ [int_str (elapsed_time now g)]) gens ss)).
Proof.
  intros H. revert rows. induction H as [|g gens Hg _ IH]; intros rows; [exists []; split; [done|by rewrite app_nil_r]|].
  destruct (summarize_from empty_summary (txns_ g)) as (s & Es & Hs); [by eapply Forall_impl; [exact Hg|by intros ? []]|].
  destruct (IH (rows ++ [summary_items s ++ [int_str (elapsed_time now g)]])) as (ss & Hss & Ew).
  pose proof (write_summary_written now g txns events rows s Es) as E.
  exists (s :: ss). split; [by constructor|]. cbn [rfoldl]. rewrite E. cbn [mbind result_bind]. rewrite Ew. by rewrite <-app_assoc.
Qed.

(** The columns and the values of the metadata. *)
Definition metadata_columns (w : W) : list string :=
  ["duration"; "txns"; "clients"; "rate"; "sample"; "wl:name"] ++ ((λ e, "wl:" +:+ e.1)%string <$> visit_map (workload_params w)).
Definition metadata_values (f : bench_flags) (w : W) : list string :=
  [int_str (f_duration f); to_string (f_txns f); int_str (f_clients f); int_str (f_rate f); f_sample f; workload_name w] ++
  (snd <$> visit_map (workload_params w)).

Lemma WriteMetadata_spec f w :
  WriteMetadata workload_name workload_params f true w = Ok (csv_file (metadata_columns w) [metadata_values f w]).
Proof.
  unfold WriteMetadata. rewrite <-list_fmap_compose. change ((λ k, "wl:" +:+ k)%string ∘ fst) with (λ e : string * string, ("wl:" +:+ e.1)%string).
  fold (metadata_columns w). rewrite MakeCSVWriter_spec by done. cbn [mbind result_bind].
  change {| line_items_ := 0; num_columns_ := _; file_ := _; delim_ := _ |} with (lines_written (metadata_columns w) []).
  assert (Hin : ∀ e, e ∈ visit_map (workload_params w) → workload_params w !! e.1 = Some e.2).
  { intros [k v]. rewrite (visit_map_perm (workload_params w)). apply elem_of_map_to_list. }
  assert (Hrow : csv_row (metadata_values f w) (lines_written (metadata_columns w) []) =
                 Ok (lines_written (metadata_columns w) [metadata_values f w])).
  { apply csv_row_written; [done|]. unfold metadata_columns, metadata_values. by rewrite !length_app, !length_fmap. }
  unfold csv_row, metadata_values in Hrow. rewrite rfoldl_app in Hrow.
  destruct (rfoldl _ (lines_written (metadata_columns w) []) [_; _; _; _; _; _]) as [csv|]; [|done]. cbn [mbind result_bind] in *.
  rewrite (param_items _ _ _ Hin). destruct (rfoldl _ csv _) as [csv'|]; [|done]. cbn [mbind result_bind] in *. rewrite Hrow. done.
Qed.

(** C26. The files of a benchmark agree with its transactions. When every transaction has its
    response, the results are written without fault: the summary has one line for each generator, whose counts
    add up to the number of its transactions; the file of transactions has one line for each of a sample
    of the asked size, drawn from all generators without repetition; the file of events has
    one line for every event of exactly these; and the metadata names every parameter of the workload
    with its value. *)
Theorem results_complete f now (gens : list (TxnGenerator W)) generator g :
  head gens = Some generator → Forall (λ g, Forall answered (txns_ g)) gens → fair (draws g) →
  let infos := gens ≫= λ g, txns_ g in
  ∃ ws g' sample rest rows ss,
    MakeResultWriters true true true = Ok ws ∧
    WriteResults workload_name workload_params percent f {| metadata_opens := true; profiles_opens := true |} now (Some ws) gens g =
      Ok (Some {| metadata_file := csv_file (metadata_columns (workload_ generator)) [metadata_values f (workload_ generator)];
                  result_files := all_written rows (sample ≫= info_events)
                    (zip_with (λ g s, summary_items s ++ [int_str (elapsed_time now g)]) gens ss);
                  profiles_file := if f_txn_profiles f then Some (cat (profile_text <$> sample)) else None |}, g') ∧
    sample ++ rest ≡ₚ infos ∧
    length sample = sample_count percent f (length infos) ∧
    rmap (txn_row (f_dry_run f)) sample = Ok rows ∧
    Forall2 (λ g s, summarize (txns_ g) = Ok s ∧
                    (committed s + aborted s + not_started s = Z.of_nat (length (txns_ g)))%Z) gens ss.
Proof.
  intros Hhead Hall Hfair infos. destruct gens as [|gen gens]; [done|]. injection Hhead as ->.
  destruct (gives_shuffle infos g Hfair) as (n & shuffled & g' & Hrun & _ & Hp). specialize (Hrun n (le_n n)).
  set (k := sample_count percent f (length shuffled)).
  assert (Hans : Forall answered (take k shuffled)).
  { apply Forall_take. rewrite Hp. apply Forall_forall. intros info (g0 & Hi & Hg0)%list_elem_of_bind.
    rewrite Forall_forall in Hall. specialize (Hall _ Hg0). rewrite Forall_forall in Hall. by apply Hall. }
  destruct (write_summaries_written now (generator :: gens) [] [] [] Hall) as (ss & Hss & Es).
  destruct (write_infos_written (f_dry_run f) (take k shuffled) [] []
              (zip_with (λ g s, summary_items s ++ [int_str (elapsed_time now g)]) (generator :: gens) ss) Hans)
    as (rows & Erows & Ew).
  exists (all_written [] [] []), g', (take k shuffled), (drop k shuffled), rows, ss.
  split; [apply MakeResultWriters_spec|]. split; [|split; [|split; [|split; [exact Erows|exact Hss]]]].
  - unfold WriteResults. cbn [metadata_opens profiles_opens]. rewrite WriteMetadata_spec, lift_bind, Es, lift_bind.
    fold infos. rewrite (M_bind_Ok _ _ _ _ _ Hrun). fold k. cbn [app] in *. rewrite Ew, lift_bind.
    destruct (f_txn_profiles f); rewrite lift_bind; reflexivity.
  - by rewrite take_drop.
  - rewrite <-(Permutation_length Hp). fold k. rewrite length_take. unfold k, sample_count. lia.
Qed.
End results_written.

(** A transaction without a response has no generator id: its line has an indeterminate number. *)
Lemma unanswered_generator dry_run info txn :
  ti_txn info = Some txn → ti_generator_id info = None → txn_row dry_run info = Err (Undef "info.generator_id").
Proof. intros Ht Hg. unfold txn_row. by rewrite Ht, Hg. Qed.

(** ** Examples *)

Definition example_info (i t : Z) : TxnInfo :=
  {| ti_txn := Some (set_internal (set_id i) (set_status COMMITTED example_txn)); ti_profile := example_profile;
     sent_at := t; recv_at := t + 5; finished := true; ti_generator_id := Some 0%Z |}.

(** A generator that has stopped. *)
Definition example_generator (i : Z) (infos : list TxnInfo) : TxnGenerator nat :=
  {| id_ := i; workload_ := 0; num_sent_txns_ := length infos; num_recv_txns_ := length infos; start_time_ := 0; elapsed_time_ := 100;
     timer_running_ := false; generated_txns_ := []; txns_ := infos; timed_callbacks_ := []; requests := [] |}.

Definition example_flags : bench_flags :=
  {| f_duration := 10; f_txns := 0; f_clients := 2; f_rate := 0; f_sample := "10"; f_min_sample := 2; f_dry_run := false; f_txn_profiles := true |}.

(** Three transactions of two generators, of which two are written. *)
Lemma results_complete_witness :
  let gens := [example_generator 0 [example_info 100 1; example_info 200 2]; example_generator 1 [example_info 300 3]] in
  ∃ ws g r, MakeResultWriters true true true = Ok ws ∧
    WriteResults (λ _, "basic") (λ _, {["mh" := "50"]}) (λ n, n `div` 10)%Z example_flags
      {| metadata_opens := true; profiles_opens := true |} 0 (Some ws) gens {| draws := square_gaps; drawn := 0 |} = Ok (Some r, g) ∧
    ∃ rows, rw_txns (result_files r) = lines_written kTxnColumns rows ∧ length rows = 2.
Proof.
  intros gens.
  destruct (results_complete (λ _, "basic") (λ _, {["mh" := "50"]}) (λ n, n `div` 10)%Z example_flags 0 gens
              (example_generator 0 [example_info 100 1; example_info 200 2]) {| draws := square_gaps; drawn := 0 |})
    as (ws & g & sample & rest & rows & ss & H1 & H2 & _ & H3 & H4 & _).
  - reflexivity.
  - repeat constructor; eexists; reflexivity.
  - exact square_gaps_fair.
  - eexists ws, g, _. split; [exact H1|]. split; [exact H2|]. exists rows. split; [reflexivity|].
    rewrite <-(Forall2_length _ _ _ (rmap_Forall2 _ _ _ H4)), H3. vm_compute. reflexivity.
Defined.
